(* ===== verification/_CoqProject ===== *)
-Q . S2P
Prelude.v
Threads.v
Float64.v
Float64Valid.v
Float64Accuracy.v
Float64Signed.v
CString.v
Messages.v
ObjectPool.v
PriceLevel.v
TickBitset.v
PriceTick.v
OrderBook.v
OrderBookSpec.v
OrderBookSweep.v
OrderBookRefinement.v
OrderBookHistory.v
OrderBookTotals.v
OrderBookProps.v
OrderBookLimits.v
OrderBookPrices.v
Numerals.v
FixParser.v
PositionManager.v
PositionAccuracy.v
ProfitAccuracy.v
SpscQueue.v
SpscTransfer.v
SpscSize.v
MpmcQueue.v
Wire.v
MarketDispatcher.v
Tools.v
Clock.v
LatencyTracker.v
LatencyConcurrent.v
LatencyReset.v
LatencyReading.v
Metrics.v
MetricsServer.v
StdMap.v
Csv.v
VolSurface.v
InstrumentStore.v
InstrumentFile.v
RiskEngine.v
RiskAccuracy.v
System.v
Program.v
ProgramInvariant.v
ProgramProps.v
ProgramDrain.v
BenchOrderBook.v
BenchPool.v
BenchQueue.v
BenchFix.v
UnitTests.v
