(* ===== verification/Prelude.v ===== *)
(** * A trading system, modelled and verified

    The program (README.md) replays FIX orders through a limit order book and
    receives market ticks over UDP, on two hot threads; a cold thread drains the
    queues they fill, keeps positions, marks and latency histograms, and prints
    reports.  This library models its own code, all of src/libs, src/src,
    src/tools, src/bench and src/tests but what is listed under "Not modelled", and proves
    what makes each part correct and how the parts compose.

    ** The files, in order

    - [Prelude] (this file): machine integers, vectors as maps with a default,
      loops with an exit, the tactics and hints shared by all.  [Threads]:
      how transition systems end, by a measure of the work that is left.
    - [Float64]: IEEE binary64 on the Standard Library's [SpecFloat]
      (round to nearest, ties to even), literals, casts to integers, and the
      lemmas that integers below 2^53 are exact and that one operation is
      within half an ulp.  [Float64Valid]: every result of an operation is a
      binary64 number.  [Float64Accuracy]: the error of chains of operations,
      counted in roundings.  [Float64Signed]: the error of sums, differences and
      products of any signs.  [CString]: bytes, [strncpy], [memcpy], [memchr].
      [Numerals]: [strtod], [atof] and the printers.
    - [Messages]: [Order], [Execution], [Tick] (order.h, execution.h, tick.h).
    - [ObjectPool] (object_pool.h), [PriceLevel], [TickBitset], [PriceTick]
      (order_book.h): the slab with its free stack, the intrusive FIFO of a
      price level, the occupancy bitsets and the conversion of prices.
    - [OrderBook] (order_book.h, order_book.cpp): [acceptNewOrder],
      [matchOrders] and the quotes, on the memory the code has: slab, queues,
      bitsets, cached best ticks.
    - [OrderBookSpec]: what a book promises, price-time priority on two sorted
      lists of orders, with no memory.  [OrderBookRefinement]: the simulation
      of the specification by [OrderBook].  [OrderBookSweep],
      [OrderBookHistory], [OrderBookTotals]: the consequences of the
      specification (one pass over the opposite side; where executions come
      from; quantities).  [OrderBookProps]: the properties of the book itself.
      [OrderBookLimits]: what the ticks make of the limit prices.
      [OrderBookPrices]: the prices of what rests in the book.
    - [FixParser] (fix_session_reader.h, .cpp) with the line format of
      tools/fix_order_simulator.cpp.
    - [PositionManager] (position.h, position_manager.h, .cpp): the position
      ledger, written once over a class of numbers, read on binary64 (the
      program) and on exact rationals.  [PositionAccuracy], [ProfitAccuracy]:
      how far the two readings are apart, in the average price and in the
      profit.
    - [SpscQueue] (spsc_queue.h): the ring, as a sequential object and as a step
      relation of two threads whose reads of the other's index may be stale.
      [SpscTransfer]: a producer that retries and a consumer that waits.
      [SpscSize]: the depth of a queue in use, read by either side.
      [MpmcQueue] (mpmc_queue.h): the interface of a FIFO queue as a class with
      its laws, which the ring satisfies, and the wrapper over the Boost queue,
      a parameter with the same laws.
    - [Wire]: the bytes of a [Tick], as sent and as cast back.
      [MarketDispatcher] (market_dispatcher.h, .cpp, udp_feed_subscriber.cpp):
      subscription, dispatch and the receive loop.
    - [Tools] (tools/fix_order_simulator.cpp, tools/udp_tick_simulator.cpp):
      the loops of the two simulators, with the random draws as inputs.
    - [Clock] and [LatencyTracker] (latency_tracker.h): the scaled hardware
      clocks and their calibration; the histogram and its report.
      [LatencyConcurrent]: [record] as the atomic operations of any number of
      threads, with stale loads and exchanges that fail spuriously.
      [LatencyReset]: the stores of [reset] among them.  [LatencyReading]: the
      loads of [percentile] among them.  Both with relaxed loads.
      [Metrics] (metrics_server.h, [toJson]) and [MetricsServer]
      (metrics_server.cpp): the snapshot as JSON; the server's threads as a step
      relation.
    - [StdMap], [Csv]: [std::map] as a sorted list, [getline], [stod], [stoi].
      [VolSurface] (vol_surface.cpp), [InstrumentStore] (instrument.h,
      instrument_store.cpp); [InstrumentFile], the format of its file and what
      it makes of good and bad lines; [RiskEngine] (risk_engine.cpp).  [RiskAccuracy]: the
      rounding errors of its report and of the value at risk.
    - [System] (main.cpp): the execution thread, the UDP thread, a cycle of the
      cold path with its dashboard, the metrics snapshot, the final report,
      each by itself, and what the simulators send through them.
    - [Program] (main.cpp, udp_feed_subscriber.cpp): the threads at once, with
      the network, the signal and the shutdown; a step is one operation of one
      thread on what they share.  [ProgramInvariant]: what every interleaving
      keeps, and the measure of the work that is left after the signal.
      [ProgramProps]: what holds of the whole program.  [ProgramDrain]: what it
      comes to before the signal, when there is no more to do.
    - [BenchOrderBook], [BenchPool], [BenchQueue], [BenchFix] (src/bench): the
      loops of the benchmarks, for any number of iterations.  [UnitTests]
      (tests/unit): the assertions of the tests.

    ** How state corresponds to the code

    A pointer into the slab is the number of its slot, [nullptr] is [None] or
    the constant of [Messages]; [std::vector] and [std::array] members are
    finite maps with a default; [std::unordered_map] is [gmap], and where its
    iteration order shows it is a parameter.  Char arrays are lists of bytes of
    their size.  Integers are [Z], with a wrap-around after every operation that
    can leave the width.  A callback is a transformer of a client state.
    Exceptions are values of a sum, undefined accesses are [None] (or
    [Undefined], in [Csv] and [InstrumentStore]).  The clock, the random draws, the contents
    of files and what the socket calls return are arguments.

    ** What is proved

    - The order book: for every sequence of orders, well-formed or not, the
      calls end, report the executions of the specification and leave its state
      ([session_refines]); an order makes one pass over the opposite side in
      priority; executions are explained by two crossing orders; queues are in
      priority, books are not crossed, quantities and pool slots are
      conserved, quotes are the best resting ticks; trades keep to the limits
      of both orders when prices are whole cents, and to within a cent when they
      are any from half a cent to 5000 ([limits_respected]); orders whose prices
      cross never both rest, and quotes are within half a cent of the best order
      ([resting_prices]).
    - The threads: the execution thread from the bytes of the file to the queue,
      the UDP thread from datagrams to the queue, a cycle of the cold path
      ([execution_pipeline], [tick_pipeline], [cold_cycle_drains]); the same
      from the simulators on ([generated_session] for the draws that keep the
      prices within the ticks of the book, [sent_ticks_arrive]).
    - The program: in every interleaving the cold path sees what the hot paths
      produce in order and once, losses counted ([cold_path_in_order]); after
      the signal every schedule ends, in the exit, an abort or a wait for a
      datagram ([shutdown_ends]), and one datagram ends the wait
      ([datagram_unblocks]); a stop that comes too early is lost, and the queues
      are not drained at the exit ([shutdown_gaps]).  Before the signal only idle
      turns of the main loop go on for ever, and when nothing else is left
      everything has arrived where it belongs ([program_settles]); from then on
      the report is complete ([settled_report]).  A cycle that is not
      disturbed is the sequential one ([cycle_undisturbed]).
    - Texts and bytes: the simulator's line and its whole file, read back; the
      fields of a line in any order; a session up to where it is stopped
      ([session_delivers]); ticks on the wire; JSON; dates; the file of the
      instruments, its bad lines and those of undefined behaviour
      ([store_loads]).
    - The queue: no lost, duplicated or reordered item and no racing access in
      any interleaving; a bounded FIFO on one thread; a producer that retries
      and a consumer that waits transfer everything ([transfer_exact]); what
      [size] tells the consumer and other threads ([size_in_use]).
    - The histogram under concurrent recording: no sample is lost in any field,
      and the compare-and-swap loops end ([concurrent_record],
      [record_terminates]); what a reset during recording leaves in each field
      ([reset_overlap]), and what a percentile read during recording means
      ([percentile_in_use]), both also when loads are stale.
    - Positions: the state machine of fills on binary64, exact quantities up to
      2^53, the profit identity in exact arithmetic, how close the binary64
      average price and profit are to it ([position_accuracy]), and what a fill
      of quantity zero does.  The rows of the risk report and the value at risk
      are right to rounding error ([risk_accuracy]).
    - The clocks: the calibration ends with the first reading after two
      milliseconds, and readings are right to rounding error ([clock_accuracy]).
    - The surface: the volatility of the next point, which is not the nearest
      ([getVol_rounds_up]).
    - Pool, levels, bitsets, histogram, risk, dispatcher, metrics server: each
      against its own description.
    - The benchmarks: what they execute, and that two of them trade where their
      labels say that nothing crosses.
    - The unit tests: their assertions hold of the definitions, those of the
      threaded tests in every interleaving.

    ** Fuel

    [matchOrders] gets one turn more than the orders out of the pool: each turn
    releases at least one of them ([match_fuel]).  The loops over bytes get the
    length of the text, of which each turn consumes a byte.  A drain gets one
    turn more than the queue holds.  The loops of the benchmarks run a given
    number of iterations; the one that fills the pool gets its capacity.  The
    threads of [Program], [LatencyConcurrent], [LatencyReset], [SpscTransfer],
    [LatencyReading], [MetricsServer] and [BenchQueue] are relations and need no
    fuel: that they end is proved by a measure.  Other
    recursion is structural.

    ** Not modelled

    cpu_affinity.h (system calls that do not touch the program's state); the
    bodies of the socket, WebSocket and thread libraries and of the Boost queue,
    of which only results and laws appear; cache prefetches; memory orders
    weaker than the stale reads of [SpscQueue] and of the [Latency] files; in
    [Program], the threads of the metrics server, which only read and have their
    own model; the decimal text of the doubles in the dashboard and the final
    report (their values are modelled); in the benchmarks, the timing and the
    reported counters.  In [Program] the resets of the histograms after a report
    are one step; [LatencyReset] has their stores one by one. *)

From stdpp Require Export prelude gmap sorting.
From Stdlib Require Export ZArith Lia.
From Stdlib Require Import Ascii String.
Export String.StringSyntax.

Local Open Scope Z_scope.

(** ** Machine integers

    A [w]-bit integer is a [Z]; an operation that can leave the range is
    followed by one of these wrap-arounds. *)

Definition wrap_u (w z : Z) : Z := z mod 2 ^ w.

Definition wrap_s (w z : Z) : Z :=
  let r := z mod 2 ^ w in if r <? 2 ^ (w - 1) then r else r - 2 ^ w.

Abbreviation wrap_u32 := (wrap_u 32).
Abbreviation wrap_u64 := (wrap_u 64).
Abbreviation wrap_i32 := (wrap_s 32).
Abbreviation wrap_i64 := (wrap_s 64).

Abbreviation INT32_MIN := (-2147483648).
Abbreviation INT32_MAX := 2147483647.
Abbreviation INT64_MAX := 9223372036854775807.

Definition in_i32 (z : Z) : Prop := INT32_MIN <= z <= INT32_MAX.

Lemma wrap_i32_id (z : Z) : in_i32 z -> wrap_i32 z = z.
Proof.
  unfold in_i32, wrap_s; intros Hz; change (2 ^ 32) with 4294967296;
    change (2 ^ (32 - 1)) with 2147483648.
  destruct (decide (0 <= z)).
  - rewrite Z.mod_small by lia.
    destruct (Z.ltb_spec z 2147483648); lia.
  - rewrite (Z.mod_eq z) by lia.
    assert (z / 4294967296 = -1) as ->
      by (symmetry; apply (Z.div_unique_pos _ _ _ (z + 4294967296)); lia).
    destruct (Z.ltb_spec (z - 4294967296 * -1) 2147483648); lia.
Qed.

Lemma wrap_u_id (w z : Z) : 0 <= z < 2 ^ w -> wrap_u w z = z.
Proof. apply Z.mod_small. Qed.

Lemma wrap_u_add (w a b : Z) : wrap_u w (wrap_u w a + b) = wrap_u w (a + b).
Proof. apply Zplus_mod_idemp_l. Qed.

Lemma wrap_u_wrap (w a : Z) : wrap_u w (wrap_u w a) = wrap_u w a.
Proof. apply Zmod_mod. Qed.

Lemma wrap_u_range (w z : Z) : 0 <= w -> 0 <= wrap_u w z < 2 ^ w.
Proof. intros; apply Z.mod_pos_bound; lia. Qed.

Lemma wrap_i32_range (z : Z) : in_i32 (wrap_i32 z).
Proof.
  unfold in_i32, wrap_s; change (2 ^ 32) with 4294967296;
    change (2 ^ (32 - 1)) with 2147483648.
  pose proof (Z.mod_pos_bound z 4294967296).
  destruct (Z.ltb_spec (z mod 4294967296) 2147483648); lia.
Qed.

Lemma wrap_s_small (w z : Z) : 0 < w -> 0 <= z < 2 ^ (w - 1) -> wrap_s w z = z.
Proof.
  intros Hw Hz. assert (2 ^ w = 2 * 2 ^ (w - 1)) by (rewrite <- Z.pow_succ_r by lia; f_equal; lia).
  unfold wrap_s. rewrite Z.mod_small by lia. by rewrite (proj2 (Z.ltb_lt _ _)) by lia.
Qed.

Lemma wrap_s_eqm (w a b : Z) : a mod 2 ^ w = b mod 2 ^ w -> wrap_s w a = wrap_s w b.
Proof. unfold wrap_s. by intros ->. Qed.

Lemma wrap_s_mod (w z : Z) : 0 <= w -> wrap_s w z mod 2 ^ w = z mod 2 ^ w.
Proof.
  intros Hw. assert (HP : 2 ^ w <> 0) by (apply Z.pow_nonzero; lia).
  unfold wrap_s. destruct (_ <? _); [by rewrite Z.mod_mod|].
  rewrite <- (Z.mod_add _ 1) by done.
  replace (z mod 2 ^ w - 2 ^ w + 1 * 2 ^ w) with (z mod 2 ^ w) by ring.
  by rewrite Z.mod_mod.
Qed.

Lemma wrap_s_add (w a d : Z) : 0 <= w -> wrap_s w (wrap_s w a + d) = wrap_s w (a + d).
Proof.
  intros Hw. apply wrap_s_eqm.
  by rewrite <- Zplus_mod_idemp_l, wrap_s_mod, Zplus_mod_idemp_l.
Qed.

(** Wrapping commutes with a multiply-and-add. *)
Lemma wrap_i32_mul_add (a k d : Z) : wrap_i32 (wrap_i32 a * k + d) = wrap_i32 (a * k + d).
Proof.
  apply wrap_s_eqm. rewrite <- Zplus_mod_idemp_l, <- Zmult_mod_idemp_l, wrap_s_mod by lia.
  by rewrite Zmult_mod_idemp_l, Zplus_mod_idemp_l.
Qed.

(** ** Sparse vectors

    A [std::vector<T>] of fixed size built with value-initialised elements:
    the map holds the elements assigned since the construction, any other
    index still holds the value [d] given by the constructor. *)

Section SparseVector.
Context {A : Type} (d : A).

Definition vget (v : gmap Z A) (i : Z) : A := default d (v !! i).

Lemma vget_empty i : vget ∅ i = d.
Proof. unfold vget; by rewrite lookup_empty. Qed.

Lemma vget_insert_eq v i x : vget (<[i := x]> v) i = x.
Proof. unfold vget; by rewrite lookup_insert_eq. Qed.

Lemma vget_insert_ne v i j x : i <> j -> vget (<[i := x]> v) j = vget v j.
Proof. intros; unfold vget; by rewrite lookup_insert_ne. Qed.

Lemma vget_insert v i j x :
  vget (<[i := x]> v) j = if decide (i = j) then x else vget v j.
Proof. case_decide; subst; auto using vget_insert_eq, vget_insert_ne. Qed.
End SparseVector.

Create HintDb trading.
Create Rewrite HintDb trading.
#[export] Hint Rewrite @vget_insert_eq @vget_empty : trading.
#[export] Hint Rewrite @vget_insert_ne using congruence : trading.
#[export] Hint Resolve wrap_i32_range : trading.

(** ** Byte strings *)

Abbreviation bytes := (list ascii).

(** A literal: the bytes of a Rocq string. *)
Definition B (s : string) : bytes := list_ascii_of_string s.

Abbreviation NUL := (Ascii.zero).

#[export] Instance ascii_inhabited : Inhabited ascii := populate NUL.

(** ** Tactics *)

(** Split conjunctions and existentials of the context, and case on the
    boolean comparisons of the goal with their reflection lemmas. *)
Ltac unpack :=
  repeat match goal with
  | H : _ /\ _ |- _ => destruct H
  | H : exists _, _ |- _ => destruct H
  end.

Ltac zcases :=
  repeat match goal with
  | |- context [Z.leb ?a ?b] => destruct (Z.leb_spec a b)
  | |- context [Z.ltb ?a ?b] => destruct (Z.ltb_spec a b)
  | |- context [Z.eqb ?a ?b] => destruct (Z.eqb_spec a b)
  end.

(** ** Loops

    A loop of [n] turns whose body may fail; the last turn is outermost. *)
Fixpoint iterate {A} (n : nat) (body : A -> option A) (a : A) : option A :=
  match n with
  | O => Some a
  | S m => a' ← iterate m body a; body a'
  end.

(** What each turn preserves holds at the end. *)
Lemma iterate_inv {A} (P : A -> Prop) (body : A -> option A) n a : P a ->
  (forall x, P x -> exists y, body x = Some y /\ P y) -> exists y, iterate n body a = Some y /\ P y.
Proof.
  intros Ha Hbody. induction n as [|n (y & E & Hy)]; [by exists a|].
  cbn [iterate]. rewrite E. by apply Hbody.
Qed.

(** A sublist as long as the list is the list. *)
Lemma sublist_full {A} (l k : list A) : sublist l k -> (List.length k <= List.length l)%nat -> l = k.
Proof.
  induction 1 as [|x l k H IH|x l k H IH]; cbn [List.length]; intros Hl; [done|f_equal; apply IH; lia|].
  pose proof (sublist_length _ _ H). lia.
Qed.
