(* ===== verification/Threads.v ===== *)
(** * Threads

    What the step relations of the development share: a program state holds a
    list of threads, a step replaces one of them; termination is the absence of
    infinite sequences of steps. *)

From stdpp Require Export relations.
From S2P Require Import Prelude.

(** ** Lists of threads

    What changes when one element of a list does. *)

Lemma sum_list_with_insert {A} (f : A -> nat) (l : list A) i x y : l !! i = Some x ->
  (sum_list_with f (<[i := y]> l) + f x = sum_list_with f l + f y)%nat.
Proof.
  revert i. induction l as [|z l IH]; intros [|i] Hi; cbn [lookup list_lookup] in Hi; try done.
  - injection Hi as ->. cbn. lia.
  - specialize (IH i Hi). change (<[S i := y]> (z :: l)) with (z :: <[i := y]> l). cbn [sum_list_with]. lia.
Qed.

Lemma sum_list_with_le {A} (f : A -> nat) (l : list A) k : (forall x, (f x <= k)%nat) ->
  (sum_list_with f l <= k * length l)%nat.
Proof. intros Hf. induction l as [|x l IH]; cbn; [lia|]. specialize (Hf x). lia. Qed.

Lemma concat_fmap_insert {A B} (f : A -> list B) (l : list A) i x y : l !! i = Some x ->
  concat (f <$> <[i := y]> l) ++ f x ≡ₚ concat (f <$> l) ++ f y.
Proof.
  revert i. induction l as [|z l IH]; intros [|i] Hi; cbn [lookup list_lookup] in Hi; try done.
  - injection Hi as ->. cbn. solve_Permutation.
  - specialize (IH i Hi). change (<[S i := y]> (z :: l)) with (z :: <[i := y]> l).
    cbn [fmap list_fmap concat]. rewrite <- !app_assoc. by apply Permutation_app_head.
Qed.

(** ** Termination

    A relation that decreases a measure from the states of an invariant has no
    infinite sequence of steps from them. *)
Lemma measure_sn {A} (R : relation A) (P : A -> Prop) (f : A -> nat) :
  (forall x y, P x -> R x y -> P y /\ (f y < f x)%nat) -> forall x, P x -> sn R x.
Proof.
  intros HR x. remember (f x) as n eqn:E. assert (Hn : (f x <= n)%nat) by lia. clear E.
  revert x Hn. induction n as [|n IH]; intros x Hn Hx; constructor; intros y Hy.
  - destruct (HR x y Hx Hy). lia.
  - destruct (HR x y Hx Hy). apply IH; [lia|done].
Qed.
