(* ===== verification/Float64.v ===== *)
(** * IEEE-754 binary64 arithmetic: the C++ type [double]

    [double] is the Standard Library's executable specification of binary64
    ([spec_float] with [prec = 53] and [emax = 1024], round to nearest, ties
    to even).  This file fixes the operations the sources use, the
    conversions from and to integers, and proves the facts about rounding on
    which the theorems about prices and quantities rest:
    - [round_core]: what the rounding function computes, from a bracketing
      of the exact value;
    - [fdiv_nearest], [fmul_nearest], [fadd_nearest]: one operation on positive
      normal operands gives a nearest number; [fdiv_error], [fmul_error],
      [fadd_error]: its relative error is 2^-53;
    - [is_int]: exactness of addition, subtraction and comparison on
      integer-valued doubles below 2^53. *)

From Stdlib Require Export SpecFloat.
From Stdlib Require Import QArith Qpower Lqa.
From S2P Require Import Prelude.

Local Open Scope Z_scope.

(** ** Operations *)

Abbreviation double := spec_float.
Abbreviation PREC := 53.
Abbreviation EMAX := 1024.

Definition fadd : double -> double -> double := SFadd PREC EMAX.
Definition fsub : double -> double -> double := SFsub PREC EMAX.
Definition fmul : double -> double -> double := SFmul PREC EMAX.
Definition fdiv : double -> double -> double := SFdiv PREC EMAX.
Definition fsqrt : double -> double := SFsqrt PREC EMAX.
Definition fopp : double -> double := SFopp.
Definition flt : double -> double -> bool := SFltb.
Definition fle : double -> double -> bool := SFleb.
Definition feq : double -> double -> bool := SFeqb.

Declare Scope double_scope.
Delimit Scope double_scope with D.
Infix "+" := fadd : double_scope.
Infix "-" := fsub : double_scope.
Infix "*" := fmul : double_scope.
Infix "/" := fdiv : double_scope.
Notation "- x" := (fopp x) : double_scope.
Infix "<?" := flt : double_scope.
Infix "<=?" := fle : double_scope.
Infix "=?" := feq : double_scope.

Abbreviation fzero := (S754_zero false).

(** [static_cast<double>(z)] of an integer. *)
Definition of_int (z : Z) : double := binary_normalize PREC EMAX z 0 false.

(** The double nearest to [n * 2^e1 / d], [n] and [d] positive: decimal
    literals and [strtod] are correctly rounded quotients of integers. *)
Definition of_ratio (s : bool) (n d : positive) : double :=
  let '(q, e, l) := SFdiv_core_binary PREC EMAX (Zpos n) 0 (Zpos d) 0 in
  binary_round_aux PREC EMAX s q e l.

(** A decimal literal [n / d] of the source, e.g. [0.5] is [5 # 10]. *)
Definition lit (q : Q) : double :=
  match Qnum q with
  | Z0 => fzero
  | Zpos n => of_ratio false n (Qden q)
  | Zneg n => of_ratio true n (Qden q)
  end.

(** Truncation toward zero of a finite double. *)
Definition trunc (x : double) : option Z :=
  match x with
  | S754_zero _ => Some 0
  | S754_finite s m e =>
      let a := match e with
               | Zneg p => Z.shiftr (Zpos m) (Zpos p)
               | _ => Z.shiftl (Zpos m) e
               end in
      Some (if s then - a else a)
  | _ => None
  end.

(** [static_cast<int>(x)]: the truncated value when it fits.  A value that
    does not fit (and a NaN or an infinity) has undefined behaviour in C++;
    the model takes the result of the x86-64 conversion instruction, the
    "integer indefinite" value [INT_MIN]. *)
Definition to_int32 (x : double) : Z :=
  match trunc x with
  | Some z => if (INT32_MIN <=? z) && (z <=? INT32_MAX) then z else INT32_MIN
  | None => INT32_MIN
  end.

(** [static_cast<int64_t>(x)], likewise. *)
Definition to_int64 (x : double) : Z :=
  match trunc x with
  | Some z => if (- 2 ^ 63 <=? z) && (z <? 2 ^ 63) then z else - 2 ^ 63
  | None => - 2 ^ 63
  end.

(** [std::min(a, b)] on doubles: [(b < a) ? b : a]. *)
Definition fmin (a b : double) : double := if flt b a then b else a.

Example of_int_100 : of_int 100 = S754_finite false 7036874417766400 (-46).
Proof. reflexivity. Qed.

Example lit_half : lit (1 # 2) = S754_finite false 4503599627370496 (-53).
Proof. reflexivity. Qed.

Example trunc_150_10 : to_int32 (lit (15010 # 100)) = 150.
Proof. reflexivity. Qed.

(** ** What the rounding function computes *)

(** [bracket r N D]: the shifted mantissa [shr_m r] with its round and sticky
    bits brackets the exact value [N / D]. *)
Definition bracket (r : shr_record) (N D : Z) : Prop :=
  match shr_r r, shr_s r with
  | false, false => N = shr_m r * D
  | false, true => 2 * (shr_m r * D) < 2 * N < (2 * shr_m r + 1) * D
  | true, false => 2 * N = (2 * shr_m r + 1) * D
  | true, true => (2 * shr_m r + 1) * D < 2 * N < (2 * shr_m r + 2) * D
  end.

Lemma shr_1_bracket r N D :
  0 <= shr_m r -> 0 < D -> bracket r N D ->
  bracket (shr_1 r) N (2 * D) /\ shr_m (shr_1 r) = shr_m r / 2.
Proof.
  destruct r as [m r s]; unfold bracket; intros Hm HD Hb.
  destruct m as [|p|p]; [| |cbn in Hm; lia].
  - destruct r, s; cbn -[Z.mul Z.add] in *; split; (lia || done).
  - destruct p as [p|p|]; cbn -[Z.mul Z.add] in *.
    + split; [|by rewrite (Pos2Z.inj_xI p), Z.mul_comm, Z.div_add_l].
      rewrite (Pos2Z.inj_xI p) in *; destruct r, s; cbn -[Z.mul Z.add] in *; nia.
    + split; [|by rewrite (Pos2Z.inj_xO p), Z.mul_comm, Z.div_mul].
      rewrite (Pos2Z.inj_xO p) in *; destruct r, s; cbn -[Z.mul Z.add] in *; nia.
    + split; [|done]. destruct r, s; cbn -[Z.mul Z.add] in *; lia.
Qed.

Lemma iter_shr_1_bracket p : forall r N D,
  0 <= shr_m r -> 0 < D -> bracket r N D ->
  bracket (SpecFloat.iter_pos shr_1 p r) N (2 ^ Zpos p * D) /\
  shr_m (SpecFloat.iter_pos shr_1 p r) = shr_m r / 2 ^ Zpos p.
Proof.
  induction p as [p IH|p IH|]; intros r N D Hm HD Hb; cbn [SpecFloat.iter_pos];
    try (assert (HP : 0 < 2 ^ Zpos p) by (apply Z.pow_pos_nonneg; lia)).
  - destruct (shr_1_bracket r N D) as [Hb1 Hm1]; auto.
    assert (Hpos : forall a b, 0 <= a -> 0 <= a / 2 ^ Z.pos b)
      by (intros; apply Z.div_pos; [|apply Z.pow_pos_nonneg]; lia).
    assert (0 <= shr_m (shr_1 r)) by (rewrite Hm1; apply Z.div_pos; lia).
    destruct (IH (shr_1 r) N (2 * D)) as [Hb2 Hm2]; [done|lia|done|].
    destruct (fun a b => IH _ _ _ a b Hb2) as [Hb3 Hm3];
      [rewrite Hm2; auto|apply Z.mul_pos_pos; lia|].
    assert (Hp : 2 ^ Zpos p~1 = 2 * (2 ^ Zpos p * 2 ^ Zpos p)).
    { rewrite <- Z.pow_add_r by lia. rewrite <- Z.pow_succ_r by lia. f_equal; lia. }
    split.
    + rewrite Hp. replace (2 * (2 ^ Zpos p * 2 ^ Zpos p) * D)
        with (2 ^ Zpos p * (2 ^ Zpos p * (2 * D))) by ring. exact Hb3.
    + rewrite Hm3, Hm2, Hm1, Hp, !Z.div_div by lia. f_equal; ring.
  - destruct (IH r N D) as [Hb2 Hm2]; auto.
    destruct (fun a b => IH _ _ _ a b Hb2) as [Hb3 Hm3];
      [rewrite Hm2; apply Z.div_pos; lia|apply Z.mul_pos_pos; lia|].
    assert (Hp : 2 ^ Zpos p~0 = 2 ^ Zpos p * 2 ^ Zpos p).
    { rewrite <- Z.pow_add_r by lia. f_equal; lia. }
    split.
    + rewrite Hp. replace (2 ^ Zpos p * 2 ^ Zpos p * D)
        with (2 ^ Zpos p * (2 ^ Zpos p * D)) by ring. exact Hb3.
    + rewrite Hm3, Hm2, Hp, !Z.div_div by lia. done.
  - destruct (shr_1_bracket r N D) as [Hb1 Hm1]; auto.
Qed.

Lemma zpos_digits2 p : Zpos (digits2_pos p) = Z.log2 (Zpos p) + 1.
Proof.
  induction p as [p IH|p IH|]; cbn [digits2_pos]; [| |done].
  - rewrite Pos2Z.inj_succ, IH, (Pos2Z.inj_xI p), Z.log2_succ_double by lia. lia.
  - rewrite Pos2Z.inj_succ, IH, (Pos2Z.inj_xO p), Z.log2_double by lia. lia.
Qed.

Lemma Zdigits2_log2 m : 0 < m -> Zdigits2 m = Z.log2 m + 1.
Proof. destruct m; [lia| |lia]. intros _; apply zpos_digits2. Qed.

Lemma Zdigits2_bounds m : 0 < m -> 2 ^ (Zdigits2 m - 1) <= m < 2 ^ Zdigits2 m.
Proof.
  intros Hm; rewrite (Zdigits2_log2 m Hm).
  pose proof (Z.log2_spec m Hm) as Hl; rewrite <- Z.add_1_r in Hl.
  by replace (Z.log2 m + 1 - 1) with (Z.log2 m) by lia.
Qed.

Lemma Zdigits2_le m k : 0 <= m -> m < 2 ^ k -> 0 <= k -> Zdigits2 m <= k.
Proof.
  intros Hm Hk ?. destruct (decide (m = 0)) as [->|]; [done|].
  rewrite Zdigits2_log2 by lia.
  apply Z.le_succ_l, Z.log2_lt_pow2; lia.
Qed.

(** The rounding of a bracketed value to an integer mantissa. *)
Definition rne (r : shr_record) : Z :=
  round_nearest_even (shr_m r) (loc_of_shr_record r).

Lemma rne_cases r : rne r = shr_m r \/ rne r = shr_m r + 1.
Proof.
  unfold rne, round_nearest_even, loc_of_shr_record.
  destruct r as [m [] []]; cbn [shr_m]; auto.
  destruct (Z.even m); auto.
Qed.

Lemma rne_error r N D : 0 < D -> bracket r N D -> 2 * Z.abs (rne r * D - N) <= D.
Proof.
  unfold rne, round_nearest_even, loc_of_shr_record, bracket.
  destruct r as [m [] []]; cbn -[Z.mul Z.add Z.even Z.sub]; intros HD Hb; [| destruct (Z.even m)| |]; nia.
Qed.

Lemma rne_exact r N D : 0 < D -> bracket r N D -> (D | N) -> rne r * D = N.
Proof.
  intros HD Hb [k ->]. pose proof (rne_error r (k * D) D HD Hb).
  rewrite <- Z.mul_sub_distr_r, Z.abs_mul, (Z.abs_eq D) in H by lia.
  assert (Z.abs (rne r - k) = 0) by nia. assert (rne r = k) by lia. congruence.
Qed.

(** The exponent of the last bit of a binary64 number of magnitude [2^e]. *)
Lemma fexp_eq e : fexp PREC EMAX e = Z.max (e - 53) (-1074).
Proof. reflexivity. Qed.

(** A rounded mantissa [m <= 2^53] and its exponent, as a [double]. *)
Definition pack (s : bool) (m e : Z) : double :=
  match m with
  | Z0 => S754_zero s
  | Zpos p =>
      if m =? 2 ^ 53 then
        if e + 1 <=? 971 then S754_finite s 4503599627370496 (e + 1) else S754_infinity s
      else if e <=? 971 then S754_finite s p e else S754_infinity s
  | Zneg _ => S754_nan
  end.

Lemma shr_nonpos r e n : n <= 0 -> shr r e n = (r, e).
Proof. destruct n; [done|lia|done]. Qed.

Lemma round_second s m e :
  0 <= m <= 2 ^ 53 -> -1074 <= e ->
  (let '(mrs, e') := shr_fexp PREC EMAX m e loc_Exact in
   match shr_m mrs with
   | Z0 => S754_zero s
   | Zpos m => if Z.leb e' (EMAX - PREC) then S754_finite s m e' else S754_infinity s
   | _ => S754_nan
   end) = pack s m e.
Proof.
  intros Hm He. unfold shr_fexp; rewrite fexp_eq; cbn [shr_record_of_loc].
  destruct (decide (m = 2 ^ 53)) as [->|Hne].
  - change (Zdigits2 (2 ^ 53)) with 54.
    replace (Z.max (54 + e - 53) (-1074) - e) with 1 by lia.
    cbn -[Z.leb Z.add Z.sub]. done.
  - assert (Zdigits2 m <= 53) by (apply Zdigits2_le; lia).
    rewrite shr_nonpos by lia; cbn [shr_m]. unfold pack.
    destruct m; [done| |lia]. by rewrite (proj2 (Z.eqb_neq _ _) Hne).
Qed.

Lemma bracket_shr r e n N D :
  0 <= shr_m r -> 0 < D -> bracket r N D ->
  exists r', shr r e n = (r', Z.max e (e + n)) /\
    bracket r' N (2 ^ Z.max 0 n * D) /\ shr_m r' = shr_m r / 2 ^ Z.max 0 n.
Proof.
  intros Hm HD Hb. destruct (decide (n <= 0)) as [Hn|Hn].
  - exists r. rewrite shr_nonpos, !Z.max_l, Z.mul_1_l, Z.div_1_r by lia. done.
  - destruct n as [|p|p]; try lia. cbn [shr].
    destruct (iter_shr_1_bracket p r N D Hm HD Hb) as [Hb' Hm'].
    exists (SpecFloat.iter_pos shr_1 p r).
    rewrite !Z.max_r by lia. done.
Qed.

Lemma round_core s m e l N D :
  0 <= m -> 0 < D -> bracket (shr_record_of_loc m l) N D ->
  let e1 := Z.max e (Z.max (Zdigits2 m + e - 53) (-1074)) in
  exists mr, 0 <= mr <= 2 ^ 53 /\
    2 * Z.abs (mr * (2 ^ (e1 - e) * D) - N) <= 2 ^ (e1 - e) * D /\
    ((2 ^ (e1 - e) * D | N) -> mr * (2 ^ (e1 - e) * D) = N) /\
    m / 2 ^ (e1 - e) <= mr <= m / 2 ^ (e1 - e) + 1 /\
    binary_round_aux PREC EMAX s m e l = pack s mr e1.
Proof.
  intros Hm HD Hb e1.
  assert (Hrm : shr_m (shr_record_of_loc m l) = m) by (destruct l as [|[]]; done).
  set (n := fexp PREC EMAX (Zdigits2 m + e) - e).
  destruct (bracket_shr (shr_record_of_loc m l) e n N D) as (r & Hr & Hbr & Hmr);
    [by rewrite Hrm|done|done|].
  assert (Hn : Z.max e (e + n) = e1) by (unfold n; rewrite fexp_eq; lia).
  assert (Hk : Z.max 0 n = e1 - e) by (unfold n; rewrite fexp_eq; lia).
  rewrite Hn in Hr; rewrite Hk, Hrm in *.
  assert (HP : 0 < 2 ^ (e1 - e)) by (apply Z.pow_pos_nonneg; lia).
  assert (HD1 : 0 < 2 ^ (e1 - e) * D) by (apply Z.mul_pos_pos; lia).
  assert (Hq : 0 <= m / 2 ^ (e1 - e) < 2 ^ 53).
  { split; [apply Z.div_pos; lia|apply Z.div_lt_upper_bound; [lia|]].
    rewrite <- Z.pow_add_r by lia.
    destruct (decide (m = 0)) as [->|]; [apply Z.pow_pos_nonneg; lia|].
    pose proof (Zdigits2_bounds m) as [_ Hlt]; [lia|].
    eapply Z.lt_le_trans; [exact Hlt|apply Z.pow_le_mono_r; lia]. }
  exists (rne r). pose proof (rne_cases r) as Hc. rewrite Hmr in Hc.
  split; [lia|]. split; [by apply rne_error|].
  split; [by apply rne_exact|]. split; [lia|].
  unfold binary_round_aux. unfold shr_fexp at 1. fold n. rewrite Hr.
  fold (rne r). apply round_second; lia.
Qed.

(** ** Values as rationals and the error of one rounding *)

Definition bpow (e : Z) : Q := Qpower 2 e.

Definition valQ (x : double) : Q :=
  match x with
  | S754_finite s m e =>
      ((if s then - inject_Z (Zpos m) else inject_Z (Zpos m)) * bpow e)%Q
  | _ => 0%Q
  end.

(** Half a unit in the last place of 1: the relative error of one rounding. *)
Definition u53 : Q := 1 # (2 ^ 53).

Definition near (x : double) (v : Q) : Prop :=
  (v * (1 - u53) <= valQ x <= v * (1 + u53))%Q.

(** [x] is the positive [v] rounded to a multiple of the last bit of the numbers
    of [v]'s magnitude. *)
Definition nearest (x : double) (v : Q) : Prop :=
  exists e mr, 2 ^ 52 <= mr <= 2 ^ 53 /\ (valQ x == inject_Z mr * bpow e)%Q /\
    (bpow (e + 52) <= v < bpow (e + 53))%Q /\
    ((inject_Z mr - (1 # 2)) * bpow e <= v <= (inject_Z mr + (1 # 2)) * bpow e)%Q.

#[export] Instance nearest_proper x : Proper (Qeq ==> iff) (nearest x).
Proof. intros v w E. unfold nearest. by setoid_rewrite E. Qed.

(** A positive normal number with its exponent. *)
Definition normal (x : double) (e : Z) : Prop :=
  exists p, x = S754_finite false p e /\ 2 ^ 52 <= Zpos p < 2 ^ 53.

Lemma bpow_pos e : (0 < bpow e)%Q.
Proof. apply Qpower_0_lt; lra. Qed.

Lemma bpow_plus a b : (bpow (a + b) == bpow a * bpow b)%Q.
Proof. unfold bpow; apply Qpower_plus; lra. Qed.

Lemma bpow_Z k : 0 <= k -> (bpow k == inject_Z (2 ^ k))%Q.
Proof. intros; unfold bpow. by rewrite Zpower_Qpower. Qed.

Lemma inject_pos z : 0 < z -> (0 < inject_Z z)%Q.
Proof. intros; change 0%Q with (inject_Z 0); by rewrite <- Zlt_Qlt. Qed.

(** From integers to rationals: comparing [a] with [x = N / D]. *)
Lemma le_of_Z a N D (x : Q) : 0 < D -> (inject_Z N == x * inject_Z D)%Q -> a * D <= N -> (inject_Z a <= x)%Q.
Proof.
  intros HD HN H. apply (Qmult_le_r _ _ (inject_Z D) (inject_pos D HD)).
  rewrite <- HN, <- inject_Z_mult, <- Zle_Qle. done.
Qed.

Lemma ge_of_Z a N D (x : Q) : 0 < D -> (inject_Z N == x * inject_Z D)%Q -> N <= a * D -> (x <= inject_Z a)%Q.
Proof.
  intros HD HN H. apply (Qmult_le_r _ _ (inject_Z D) (inject_pos D HD)).
  rewrite <- HN, <- inject_Z_mult, <- Zle_Qle. done.
Qed.

Lemma gt_of_Z a N D (x : Q) : 0 < D -> (inject_Z N == x * inject_Z D)%Q -> N < a * D -> (x < inject_Z a)%Q.
Proof.
  intros HD HN H. apply (Qmult_lt_r _ _ (inject_Z D) (inject_pos D HD)).
  rewrite <- HN, <- inject_Z_mult, <- Zlt_Qlt. done.
Qed.

(** Half a last bit is at most the fraction [u53] of the value. *)
Lemma nearest_near x v : nearest x v -> near x v.
Proof.
  intros (e & mr & Hmr & Hx & [Hlo _] & H1 & H2). unfold near, u53. rewrite Hx.
  rewrite bpow_plus, (bpow_Z 52) in Hlo by lia. change (inject_Z (2 ^ 52)) with (4503599627370496 # 1)%Q in Hlo.
  change (2 ^ 53)%positive with 9007199254740992%positive. split; lra.
Qed.

Lemma bracket_upper m l N D : 0 < D -> bracket (shr_record_of_loc m l) N D -> N < (m + 1) * D.
Proof. unfold bracket. destruct l as [|[]]; cbn -[Z.mul Z.add]; lia. Qed.

Lemma pack_normal mr e :
  2 ^ 52 <= mr <= 2 ^ 53 -> e + 1 <= 971 ->
  exists e', e <= e' <= e + 1 /\ normal (pack false mr e) e' /\
    (valQ (pack false mr e) == inject_Z mr * bpow e)%Q.
Proof.
  intros Hm He. unfold pack. destruct mr as [|p|p]; [lia| |lia].
  destruct (Z.eqb_spec (Zpos p) (2 ^ 53)) as [Heq|Hne].
  - rewrite (proj2 (Z.leb_le _ _) He). exists (e + 1). split; [lia|]. split.
    + eexists; split; [done|lia].
    + rewrite Heq. unfold valQ. rewrite bpow_plus.
      change (bpow 1) with 2%Q.
      change (inject_Z 4503599627370496) with (4503599627370496 # 1)%Q.
      change (inject_Z (2 ^ 53)) with (9007199254740992 # 1)%Q. ring.
  - rewrite (proj2 (Z.leb_le e 971)) by lia. exists e. split; [lia|]. split.
    + eexists; split; [done|lia].
    + reflexivity.
Qed.

Lemma round_nearest m e l N D (x : Q) :
  0 < D -> bracket (shr_record_of_loc m l) N D -> m * D <= N ->
  53 <= Zdigits2 m -> -1074 <= Zdigits2 m + e - 53 <= 970 -> 0 < m ->
  (inject_Z N == x * inject_Z D)%Q ->
  exists e', Zdigits2 m + e - 53 <= e' <= Zdigits2 m + e - 52 /\
    normal (binary_round_aux PREC EMAX false m e l) e' /\
    nearest (binary_round_aux PREC EMAX false m e l) (x * bpow e).
Proof.
  intros HD Hb HmN Hdig He Hm HN.
  destruct (round_core false m e l N D ltac:(lia) HD Hb)
    as (mr & Hmr & Herr & _ & Hq & Hres).
  set (e1 := Zdigits2 m + e - 53) in *.
  replace (Z.max e (Z.max e1 (-1074))) with e1 in * by lia.
  assert (Hk : e1 - e = Zdigits2 m - 53) by lia. set (k := e1 - e) in *.
  assert (HP : 0 < 2 ^ k) by (apply Z.pow_pos_nonneg; lia).
  pose proof (Zdigits2_bounds m Hm) as [Hlo Hhi].
  assert (Hpow : 2 ^ (Zdigits2 m - 1) = 2 ^ 52 * 2 ^ k).
  { rewrite <- Z.pow_add_r by lia. f_equal; lia. }
  assert (Hpow' : 2 ^ Zdigits2 m = 2 ^ 53 * 2 ^ k).
  { rewrite <- Z.pow_add_r by lia. f_equal; lia. }
  assert (Hmr52 : 2 ^ 52 <= mr).
  { transitivity (m / 2 ^ k); [|lia].
    apply Z.div_le_lower_bound; [done|]. rewrite Hpow in Hlo. lia. }
  destruct (pack_normal mr e1 ltac:(lia) ltac:(lia)) as (e' & He' & Hnorm & Hval).
  rewrite Hres. exists e'. split; [lia|]. split; [done|].
  assert (Hb1 : forall j, 0 <= j -> (bpow (e1 + j) == inject_Z (2 ^ j * 2 ^ k) * bpow e)%Q).
  { intros j Hj. replace (e1 + j) with (j + (k + e)) by lia.
    rewrite !bpow_plus, (bpow_Z j), (bpow_Z k), inject_Z_mult by lia. ring. }
  assert (Hb0 : (bpow e1 == inject_Z (2 ^ k) * bpow e)%Q).
  { replace e1 with (e1 + 0) by lia. rewrite Hb1, Z.mul_1_l by lia. done. }
  pose proof (bpow_pos e) as Hbe. exists e1, mr. split; [lia|]. split; [done|]. split.
  - rewrite !Hb1 by lia. split; [apply Qmult_le_compat_r; [|lra]|apply Qmult_lt_compat_r; [done|]].
    + apply (le_of_Z _ N D x HD HN). rewrite <- Hpow. transitivity (m * D); [|done].
      apply Z.mul_le_mono_nonneg_r; lia.
    + apply (gt_of_Z _ N D x HD HN). rewrite <- Hpow'.
      eapply Z.lt_le_trans; [by apply (bracket_upper m l N D)|]. apply Z.mul_le_mono_nonneg_r; lia.
  - assert (HN2 : (inject_Z (2 * N) == 2 * x * inject_Z D)%Q) by (rewrite inject_Z_mult, HN; ring).
    assert (H1 : (inject_Z ((2 * mr - 1) * 2 ^ k) <= 2 * x)%Q) by (apply (le_of_Z _ (2 * N) D); [done|exact HN2|lia]).
    assert (H2 : (2 * x <= inject_Z ((2 * mr + 1) * 2 ^ k))%Q) by (apply (ge_of_Z _ (2 * N) D); [done|exact HN2|lia]).
    unfold Z.sub in H1. rewrite inject_Z_mult, inject_Z_plus, inject_Z_mult in H1, H2.
    change (inject_Z (- (1))) with (- (1))%Q in H1. change (inject_Z 1) with 1%Q in *. change (inject_Z 2) with 2%Q in *.
    rewrite Hb0. rewrite !Qmult_assoc.
    split; apply Qmult_le_compat_r; lra.
Qed.

(** ** One operation on positive normal numbers *)

Lemma normal_valQ x e : normal x e -> (0 < valQ x)%Q.
Proof.
  intros (p & -> & Hp); cbn [valQ].
  apply Qmult_lt_0_compat; [by apply inject_pos|apply bpow_pos].
Qed.

Lemma digits_between m k : 0 <= k -> 2 ^ k <= m -> k + 1 <= Zdigits2 m.
Proof.
  intros Hk Hm. assert (0 < 2 ^ k) by (apply Z.pow_pos_nonneg; lia).
  rewrite Zdigits2_log2 by lia. apply Z.log2_le_pow2 in Hm; lia.
Qed.

Lemma fmul_nearest x y ex ey :
  normal x ex -> normal y ey -> -600 <= ex + ey <= 600 ->
  exists e', ex + ey + 52 <= e' <= ex + ey + 54 /\
    normal (x * y)%D e' /\ nearest (x * y)%D (valQ x * valQ y).
Proof.
  intros (p & -> & Hp) (q & -> & Hq) He. unfold fmul, SFmul; cbn [xorb].
  assert (Hlo : 105 <= Zdigits2 (Zpos (p * q))).
  { apply (digits_between _ 104); [lia|].
    rewrite Pos2Z.inj_mul. change (2 ^ 104) with (2 ^ 52 * 2 ^ 52).
    apply Z.mul_le_mono_nonneg; lia. }
  assert (Hhi : Zdigits2 (Zpos (p * q)) <= 106).
  { apply Zdigits2_le; [lia| |lia].
    rewrite Pos2Z.inj_mul. change (2 ^ 106) with (2 ^ 53 * 2 ^ 53).
    apply Z.mul_lt_mono_nonneg; lia. }
  destruct (round_nearest (Zpos (p * q)) (ex + ey) loc_Exact (Zpos (p * q)) 1
    (inject_Z (Zpos p) * inject_Z (Zpos q))) as (e' & He' & Hn & Hv); try lia.
  - unfold bracket; cbn -[Z.mul]; lia.
  - rewrite Pos2Z.inj_mul, inject_Z_mult. change (inject_Z 1) with 1%Q. ring.
  - exists e'. split; [lia|]. split; [done|].
    cbn [valQ] in *. rewrite bpow_plus in Hv.
    assert (E : (inject_Z (Zpos p) * inject_Z (Zpos q) * (bpow ex * bpow ey) ==
            inject_Z (Zpos p) * bpow ex * (inject_Z (Zpos q) * bpow ey))%Q) by ring.
    by rewrite E in Hv.
Qed.

Lemma fmul_error x y ex ey :
  normal x ex -> normal y ey -> -600 <= ex + ey <= 600 ->
  exists e', ex + ey + 52 <= e' <= ex + ey + 54 /\
    normal (x * y)%D e' /\ near (x * y)%D (valQ x * valQ y).
Proof.
  intros Hx Hy He. destruct (fmul_nearest x y ex ey Hx Hy He) as (e & He' & Hn & Hv).
  exists e. split; [done|]. split; [done|]. by apply nearest_near.
Qed.

Lemma new_location_bracket q r N D :
  0 < D -> 0 <= r < D -> N = q * D + r ->
  bracket (shr_record_of_loc q (new_location D r)) N D.
Proof.
  intros HD Hr ->. unfold new_location.
  destruct (Z.even D) eqn:HE; [unfold new_location_even|unfold new_location_odd];
    (destruct (Z.eqb_spec r 0) as [->|Hr0]; [unfold bracket; cbn -[Z.mul]; lia|]).
  - destruct (Z.compare_spec (2 * r) D); unfold bracket; cbn -[Z.mul Z.add]; lia.
  - assert (D <> 2 * r) by (intros ->; rewrite Z.even_mul in HE; done).
    destruct (Z.compare_spec (2 * r + 1) D); unfold bracket; cbn -[Z.mul Z.add]; lia.
Qed.

Lemma Zdigits2_pos m : 0 < m -> 0 < Zdigits2 m.
Proof. intros Hm. rewrite Zdigits2_log2 by done. pose proof (Z.log2_nonneg m). lia. Qed.

(** The size of a quotient whose dividend is scaled by [2 ^ s]. *)
Lemma scaled_quotient_bounds m1 m2 s q t :
  0 < m1 -> 0 < m2 -> 0 <= s -> 0 < Zdigits2 m1 + s - Zdigits2 m2 ->
  m1 * 2 ^ s = m2 * q + t -> 0 <= t < m2 ->
  2 ^ (Zdigits2 m1 + s - Zdigits2 m2 - 1) <= q < 2 ^ (Zdigits2 m1 + s - Zdigits2 m2 + 1).
Proof.
  intros H1 H2 Hs Hd Hq Ht.
  pose proof (Zdigits2_bounds m1 H1) as [L1 U1]. pose proof (Zdigits2_bounds m2 H2) as [L2 U2].
  pose proof (Zdigits2_pos m1 H1). pose proof (Zdigits2_pos m2 H2).
  set (d1 := Zdigits2 m1) in *; set (d2 := Zdigits2 m2) in *.
  assert (HPs : 0 < 2 ^ s) by (apply Z.pow_pos_nonneg; lia).
  assert (HP2 : 0 < 2 ^ (d2 - 1)) by (apply Z.pow_pos_nonneg; lia).
  assert (HP : 0 < 2 ^ (d1 + s - d2 - 1)) by (apply Z.pow_pos_nonneg; lia).
  assert (E1 : 2 ^ (d1 - 1) * 2 ^ s = 2 ^ (d1 + s - d2 - 1) * 2 ^ d2)
    by (rewrite <- !Z.pow_add_r by lia; f_equal; lia).
  assert (E2 : 2 ^ d1 * 2 ^ s = 2 ^ (d1 + s - d2 + 1) * 2 ^ (d2 - 1))
    by (rewrite <- !Z.pow_add_r by lia; f_equal; lia).
  split; nia.
Qed.

(** The correctly rounded quotient of two positive integers scaled by powers
    of two: division, decimal literals and decimal parsing. *)
Lemma fratio_nearest m1 e1 m2 e2 :
  0 < m1 -> 0 < m2 ->
  let d := Zdigits2 m1 + e1 - (Zdigits2 m2 + e2) in
  -600 <= d <= 600 ->
  let r := let '(q, e, l) := SFdiv_core_binary PREC EMAX m1 e1 m2 e2 in
           binary_round_aux PREC EMAX false q e l in
  exists e', d - 53 <= e' <= d - 51 /\ normal r e' /\
    nearest r (inject_Z m1 / inject_Z m2 * bpow (e1 - e2)).
Proof.
  intros H1 H2 d Hd r. unfold r, SFdiv_core_binary. rewrite fexp_eq.
  fold d. rewrite (Z.max_l (d - 53)) by lia.
  set (e0 := Z.min (d - 53) (e1 - e2)). set (s := e1 - e2 - e0).
  assert (Hs : 0 <= s /\ 53 - Zdigits2 m1 + Zdigits2 m2 <= s) by lia.
  set (m' := match s with Z0 => m1 | Zpos _ => Z.shiftl m1 s | Zneg _ => 0 end).
  assert (Hm' : m' = m1 * 2 ^ s).
  { unfold m'. destruct s; [lia| |lia]. by rewrite Z.shiftl_mul_pow2 by lia. }
  clearbody m'. pose proof (Z_div_mod m' m2 ltac:(lia)) as Hdiv.
  destruct (Z.div_eucl m' m2) as [q t]. destruct Hdiv as [Hq Ht].
  destruct (scaled_quotient_bounds m1 m2 s q t H1 H2 ltac:(lia) ltac:(lia) ltac:(lia) ltac:(lia)) as [Hlow Hup].
  pose proof (Zdigits2_pos m1 H1). pose proof (Zdigits2_pos m2 H2).
  set (d1 := Zdigits2 m1) in *; set (d2 := Zdigits2 m2) in *.
  assert (Hqpos : 0 < q).
  { assert (0 < 2 ^ (d1 + s - d2 - 1)) by (apply Z.pow_pos_nonneg; lia). lia. }
  assert (Hdq : d1 + s - d2 <= Zdigits2 q <= d1 + s - d2 + 1).
  { split; [|by apply Zdigits2_le; lia].
    transitivity (d1 + s - d2 - 1 + 1); [lia|]. apply digits_between; [lia|done]. }
  destruct (round_nearest q e0 (new_location m2 t) m' m2 (inject_Z m' / inject_Z m2))
    as (e' & He' & Hn & Hv); try lia.
  - apply new_location_bracket; lia.
  - pose proof (inject_pos m2 H2). field. lra.
  - exists e'. split; [lia|]. split; [done|].
    assert (E : (inject_Z m' / inject_Z m2 * bpow e0 ==
             inject_Z m1 / inject_Z m2 * bpow (e1 - e2))%Q).
    { replace (e1 - e2) with (s + e0) by lia.
      rewrite bpow_plus, (bpow_Z s), Hm', inject_Z_mult by lia.
      pose proof (inject_pos m2 H2). field. lra. }
    by rewrite E in Hv.
Qed.

Lemma fratio_error m1 e1 m2 e2 :
  0 < m1 -> 0 < m2 ->
  let d := Zdigits2 m1 + e1 - (Zdigits2 m2 + e2) in
  -600 <= d <= 600 ->
  let r := let '(q, e, l) := SFdiv_core_binary PREC EMAX m1 e1 m2 e2 in
           binary_round_aux PREC EMAX false q e l in
  exists e', d - 53 <= e' <= d - 51 /\ normal r e' /\
    near r (inject_Z m1 / inject_Z m2 * bpow (e1 - e2)).
Proof.
  intros H1 H2 d Hd r. destruct (fratio_nearest m1 e1 m2 e2 H1 H2 Hd) as (e & He' & Hn & Hv).
  exists e. split; [done|]. split; [done|]. by apply nearest_near.
Qed.

Lemma bpow_minus a b : (bpow (a - b) == bpow a / bpow b)%Q.
Proof.
  pose proof (bpow_pos b). assert (E : (bpow a == bpow (a - b) * bpow b)%Q).
  { rewrite <- bpow_plus. by replace (a - b + b) with a by lia. }
  rewrite E. field. lra.
Qed.

Lemma fdiv_nearest x y ex ey :
  normal x ex -> normal y ey -> -500 <= ex - ey <= 500 ->
  exists e', ex - ey - 53 <= e' <= ex - ey - 51 /\
    normal (x / y)%D e' /\ nearest (x / y)%D (valQ x / valQ y).
Proof.
  intros (p & -> & Hp) (q & -> & Hq) He. unfold fdiv, SFdiv; cbn [xorb].
  assert (Hd : forall r, 2 ^ 52 <= Zpos r < 2 ^ 53 -> Zdigits2 (Zpos r) = 53).
  { intros r Hr. apply Z.le_antisymm; [apply Zdigits2_le; lia|].
    apply (digits_between _ 52); lia. }
  destruct (fratio_nearest (Zpos p) ex (Zpos q) ey) as (e' & He' & Hn & Hv);
    try (rewrite !Hd by done); try lia.
  rewrite !Hd in He' by done. exists e'. split; [lia|]. split; [exact Hn|].
  cbn [valQ].
  pose proof (bpow_pos ey). pose proof (inject_pos (Zpos q) ltac:(lia)).
  assert (E : (inject_Z (Zpos p) / inject_Z (Zpos q) * bpow (ex - ey) ==
     inject_Z (Zpos p) * bpow ex / (inject_Z (Zpos q) * bpow ey))%Q).
  { rewrite bpow_minus. field. split; lra. }
  by rewrite E in Hv.
Qed.

Lemma fdiv_error x y ex ey :
  normal x ex -> normal y ey -> -500 <= ex - ey <= 500 ->
  exists e', ex - ey - 53 <= e' <= ex - ey - 51 /\
    normal (x / y)%D e' /\ near (x / y)%D (valQ x / valQ y).
Proof.
  intros Hx Hy He. destruct (fdiv_nearest x y ex ey Hx Hy He) as (e & He' & Hn & Hv).
  exists e. split; [done|]. split; [done|]. by apply nearest_near.
Qed.

Lemma pos_iter_xO m p : Zpos (Pos.iter xO m p) = Zpos m * 2 ^ Zpos p.
Proof.
  induction p as [|p IH] using Pos.peano_ind; [cbn [Pos.iter]; lia|].
  rewrite Pos.iter_succ, (Pos2Z.inj_xO (Pos.iter _ _ _)), IH, Pos2Z.inj_succ, Z.pow_succ_r by lia.
  ring.
Qed.

Lemma shl_align_eq m e e' :
  exists m', shl_align m e e' = (m', Z.min e e') /\ Zpos m' = Zpos m * 2 ^ Z.max 0 (e - e').
Proof.
  unfold shl_align. destruct (e' - e) as [|p|p] eqn:E.
  - exists m. rewrite Z.min_l, Z.max_l by lia. split; [done|lia].
  - exists m. rewrite Z.min_l, Z.max_l by lia. split; [done|lia].
  - exists (Pos.iter xO m p). rewrite pos_iter_xO, Z.min_r, Z.max_r by lia.
    split; [done|]. do 2 f_equal. lia.
Qed.

Lemma binary_round_no_shift s m e :
  54 <= Zdigits2 (Zpos m) -> -1074 <= Zdigits2 (Zpos m) + e - 53 ->
  binary_round PREC EMAX s m e = binary_round_aux PREC EMAX s (Zpos m) e loc_Exact.
Proof.
  intros Hd He. unfold binary_round. rewrite fexp_eq. change (Zpos (digits2_pos m)) with (Zdigits2 (Zpos m)).
  destruct (shl_align_eq m e (Z.max (Zdigits2 (Zpos m) + e - 53) (-1074))) as (m' & -> & Hm').
  rewrite Z.max_l, Z.mul_1_r in Hm' by lia. injection Hm' as ->.
  by rewrite Z.min_l by lia.
Qed.

Lemma fadd_nearest x y ex ey :
  normal x ex -> normal y ey -> -500 <= ex <= 500 -> -500 <= ey <= 500 ->
  exists e', Z.max ex ey <= e' <= Z.max ex ey + 2 /\
    normal (x + y)%D e' /\ nearest (x + y)%D (valQ x + valQ y).
Proof.
  intros (p & -> & Hp) (q & -> & Hq) Hex Hey. unfold fadd, SFadd; cbn [cond_Zopp].
  set (ez := Z.min ex ey).
  destruct (shl_align_eq p ex ez) as (p' & -> & Hp').
  destruct (shl_align_eq q ey ez) as (q' & -> & Hq'). cbn [fst].
  rewrite Z.max_r in Hp', Hq' by lia.
  change (Zpos p' + Zpos q') with (Zpos (p' + q')). cbn [binary_normalize].
  assert (HM : Zpos (p' + q') = Zpos p * 2 ^ (ex - ez) + Zpos q * 2 ^ (ey - ez)) by lia.
  assert (Hval : (inject_Z (Zpos (p' + q')) * bpow ez ==
            inject_Z (Zpos p) * bpow ex + inject_Z (Zpos q) * bpow ey)%Q).
  { rewrite HM, inject_Z_plus, !inject_Z_mult, <- !bpow_Z by lia.
    rewrite Qmult_plus_distr_l, <- !Qmult_assoc, <- !bpow_plus.
    replace (ex - ez + ez) with ex by lia. replace (ey - ez + ez) with ey by lia. done. }
  set (k := Z.max ex ey - ez).
  assert (Hk : 0 <= k) by lia.
  assert (HP : 0 < 2 ^ k) by (apply Z.pow_pos_nonneg; lia).
  assert (Hb : 2 ^ 52 * 2 ^ k + 2 ^ 52 <= Zpos (p' + q') < 2 ^ 54 * 2 ^ k).
  { rewrite HM. destruct (Z.max_spec ex ey) as [[? E]|[? E]];
      [replace (ey - ez) with k by lia; replace (ex - ez) with 0 by lia
      |replace (ex - ez) with k by lia; replace (ey - ez) with 0 by lia]; nia. }
  assert (Hlo : k + 53 <= Zdigits2 (Zpos (p' + q'))).
  { transitivity (52 + k + 1); [lia|]. apply digits_between; [lia|].
    rewrite Z.pow_add_r by lia. lia. }
  assert (Hlo2 : 54 <= Zdigits2 (Zpos (p' + q'))).
  { apply (digits_between _ 53); [lia|].
    change (2 ^ 53) with (2 ^ 52 * 1 + 2 ^ 52). lia. }
  assert (Hhi : Zdigits2 (Zpos (p' + q')) <= 54 + k).
  { apply Zdigits2_le; [lia| |lia]. rewrite Z.pow_add_r by lia. lia. }
  rewrite binary_round_no_shift by lia.
  destruct (round_nearest (Zpos (p' + q')) ez loc_Exact (Zpos (p' + q')) 1
    (inject_Z (Zpos (p' + q')))) as (e' & He' & Hn & Hv); try lia.
  - unfold bracket; cbn -[Z.mul]; lia.
  - change (inject_Z 1) with 1%Q. ring.
  - exists e'. split; [lia|]. split; [done|].
    cbn [valQ]. by rewrite Hval in Hv.
Qed.

Lemma fadd_error x y ex ey :
  normal x ex -> normal y ey -> -500 <= ex <= 500 -> -500 <= ey <= 500 ->
  exists e', Z.max ex ey <= e' <= Z.max ex ey + 2 /\
    normal (x + y)%D e' /\ near (x + y)%D (valQ x + valQ y).
Proof.
  intros Hx Hy Hex Hey. destruct (fadd_nearest x y ex ey Hx Hy Hex Hey) as (e & He' & Hn & Hv).
  exists e. split; [done|]. split; [done|]. by apply nearest_near.
Qed.

(** ** Integers represented exactly *)

(** The normalised representation of [±z], [0 < z < 2^53]. *)
Definition canon (s : bool) (z : Z) : double :=
  S754_finite s (Z.to_pos (z * 2 ^ (52 - Z.log2 z))) (Z.log2 z - 52).

(** [is_int x z]: the double [x] is the integer [z] (a zero of either sign
    for 0), and [z] is below 2^53 in absolute value. *)
Definition is_int (x : double) (z : Z) : Prop :=
  (z = 0 /\ exists s, x = S754_zero s) \/
  (0 < Z.abs z < 2 ^ 53 /\ x = canon (z <? 0) (Z.abs z)).

Lemma log2_53 z : 0 < z < 2 ^ 53 -> 0 <= Z.log2 z <= 52.
Proof.
  intros. split; [apply Z.log2_nonneg|].
  apply Z.lt_succ_r, Z.log2_lt_pow2; simpl; lia.
Qed.

Lemma canon_mantissa z : 0 < z -> z < 2 ^ 53 ->
  2 ^ 52 <= z * 2 ^ (52 - Z.log2 z) < 2 ^ 53.
Proof.
  intros Hz Hlt. pose proof (log2_53 z ltac:(lia)).
  pose proof (Z.log2_spec z Hz) as [Hlo Hhi].
  assert (0 < 2 ^ (52 - Z.log2 z)) by (apply Z.pow_pos_nonneg; lia).
  replace (2 ^ 52) with (2 ^ Z.log2 z * 2 ^ (52 - Z.log2 z))
    by (rewrite <- Z.pow_add_r by lia; f_equal; lia).
  replace (2 ^ 53) with (2 ^ Z.succ (Z.log2 z) * 2 ^ (52 - Z.log2 z))
    by (rewrite <- Z.pow_add_r by lia; f_equal; lia).
  split; [apply Z.mul_le_mono_nonneg_r|apply Z.mul_lt_mono_pos_r]; lia.
Qed.

Lemma digits_mul_pow2 z k : 0 < z -> 0 <= k -> Zdigits2 (z * 2 ^ k) = Z.log2 z + 1 + k.
Proof.
  intros Hz Hk. assert (0 < 2 ^ k) by (apply Z.pow_pos_nonneg; lia).
  rewrite Zdigits2_log2 by (apply Z.mul_pos_pos; lia).
  rewrite Z.log2_mul_pow2 by lia. lia.
Qed.

(** Rounding an integer that was scaled by a power of two is exact. *)
Lemma binary_round_int s z k M :
  0 < z < 2 ^ 53 -> 0 <= k <= 1000 -> Zpos M = z * 2 ^ k ->
  binary_round PREC EMAX s M (- k) = canon s z.
Proof.
  intros Hz Hk HM. pose proof (log2_53 z Hz) as Hl.
  unfold binary_round. rewrite fexp_eq.
  change (Zpos (digits2_pos M)) with (Zdigits2 (Zpos M)).
  rewrite HM, digits_mul_pow2 by lia. rewrite (Z.max_l _ (-1074)) by lia.
  replace (Z.log2 z + 1 + k + - k - 53) with (Z.log2 z - 52) by lia.
  destruct (shl_align_eq M (- k) (Z.log2 z - 52)) as (m' & -> & Hm').
  set (e0 := Z.min (- k) (Z.log2 z - 52)) in *.
  assert (Hm2 : Zpos m' = z * 2 ^ (52 - Z.log2 z) * 2 ^ (Z.log2 z - 52 - e0)).
  { rewrite Hm', HM, <- !Z.mul_assoc, <- !Z.pow_add_r by lia. do 2 f_equal. lia. }
  assert (Hdig : Zdigits2 (Zpos m') = Z.log2 z - e0 + 1).
  { rewrite Hm2, <- Z.mul_assoc, <- Z.pow_add_r, digits_mul_pow2 by lia. lia. }
  destruct (round_core s (Zpos m') e0 loc_Exact (Zpos m') 1)
    as (mr & Hmr & _ & Hex & _ & ->); [lia|lia|unfold bracket; cbn -[Z.mul]; lia|].
  rewrite Hdig in *.
  replace (Z.max e0 (Z.max (Z.log2 z - e0 + 1 + e0 - 53) (-1074)))
    with (Z.log2 z - 52) in * by lia.
  assert (HP : 0 < 2 ^ (Z.log2 z - 52 - e0)) by (apply Z.pow_pos_nonneg; lia).
  rewrite Z.mul_1_r in *.
  rewrite Hm2 in Hex. specialize (Hex (Z.divide_factor_r _ _)).
  apply Z.mul_reg_r in Hex; [|lia].
  pose proof (canon_mantissa z ltac:(lia) ltac:(lia)) as Hc.
  unfold canon, pack. rewrite Hex in *.
  destruct (z * 2 ^ (52 - Z.log2 z)) as [|p|p]; [lia| |lia].
  rewrite (proj2 (Z.eqb_neq _ _)) by lia.
  by rewrite (proj2 (Z.leb_le _ _)) by lia.
Qed.

Lemma normalize_int z k M :
  Z.abs z < 2 ^ 53 -> 0 <= k <= 1000 -> M = z * 2 ^ k ->
  is_int (binary_normalize PREC EMAX M (- k) false) z.
Proof.
  intros Hz Hk HM. assert (HP : 0 < 2 ^ k) by (apply Z.pow_pos_nonneg; lia).
  destruct (Z.lt_trichotomy z 0) as [Hneg|[->|Hpos]].
  - right. split; [lia|]. rewrite (proj2 (Z.ltb_lt _ _) Hneg).
    assert (M < 0) by nia. destruct M as [|p|p]; try lia. cbn [binary_normalize].
    apply binary_round_int; [lia|lia|]. rewrite Z.abs_neq by lia.
    rewrite <- Pos2Z.opp_neg, HM. ring.
  - left. rewrite HM, Z.mul_0_l. eauto.
  - right. split; [lia|]. rewrite (proj2 (Z.ltb_ge _ _)) by lia.
    assert (0 < M) by nia. destruct M as [|p|p]; try lia. cbn [binary_normalize].
    apply binary_round_int; [lia|lia|]. rewrite Z.abs_eq by lia. done.
Qed.

Lemma is_int_of_int z : Z.abs z < 2 ^ 53 -> is_int (of_int z) z.
Proof. intros. apply (normalize_int z 0); lia. Qed.

Lemma is_int_bound x z : is_int x z -> Z.abs z < 2 ^ 53.
Proof. intros [[-> _]|[? _]]; lia. Qed.

Lemma is_int_opp x a : is_int x a -> is_int (- x)%D (- a).
Proof.
  intros [[-> [s ->]]|[Ha ->]].
  - left; split; [done|]. by exists (negb s).
  - right. rewrite Z.abs_opp. split; [done|]. unfold canon; cbn.
    f_equal. zcases; cbn; lia || done.
Qed.

Lemma fsub_fadd x y : (x - y)%D = (x + - y)%D.
Proof.
  destruct x as [[]|[]| |s m e], y as [[]|[]| |s' m' e']; try reflexivity.
  unfold fsub, fadd, SFsub, SFadd, fopp, SFopp.
  by destruct s'; cbn [negb cond_Zopp]; rewrite <- ?Z.add_opp_r, ?Z.opp_involutive.
Qed.

Lemma is_int_add x y a b :
  is_int x a -> is_int y b -> Z.abs (a + b) < 2 ^ 53 -> is_int (x + y)%D (a + b).
Proof.
  intros [[-> [s ->]]|[Ha ->]] [[-> [s' ->]]|[Hb ->]] Hab.
  - left; split; [done|]. destruct s, s'; cbn; eauto.
  - right. cbn. split; [done|]. done.
  - right. rewrite Z.add_0_r. split; [done|]. done.
  - unfold fadd, SFadd, canon.
    set (la := Z.log2 (Z.abs a)) in *; set (lb := Z.log2 (Z.abs b)) in *.
    assert (Hla : 0 <= la <= 52) by (apply log2_53; lia).
    assert (Hlb : 0 <= lb <= 52) by (apply log2_53; lia).
    pose proof (canon_mantissa (Z.abs a) ltac:(lia) ltac:(lia)) as Ma.
    pose proof (canon_mantissa (Z.abs b) ltac:(lia) ltac:(lia)) as Mb.
    fold la in Ma; fold lb in Mb.
    set (ez := Z.min (la - 52) (lb - 52)).
    destruct (shl_align_eq (Z.to_pos (Z.abs a * 2 ^ (52 - la))) (la - 52) ez) as (p & -> & Hp).
    destruct (shl_align_eq (Z.to_pos (Z.abs b * 2 ^ (52 - lb))) (lb - 52) ez) as (q & -> & Hq).
    cbn [fst]. rewrite Z2Pos.id in Hp, Hq by lia.
    rewrite <- Z.mul_assoc, <- Z.pow_add_r in Hp, Hq by lia.
    replace (52 - la + Z.max 0 (la - 52 - ez)) with (- ez) in Hp by lia.
    replace (52 - lb + Z.max 0 (lb - 52 - ez)) with (- ez) in Hq by lia.
    replace ez with (- - ez) at 1 by lia.
    apply normalize_int; [done|lia|].
    rewrite Hp, Hq. unfold cond_Zopp.
    destruct (Z.ltb_spec a 0), (Z.ltb_spec b 0); lia.
Qed.

Lemma is_int_sub x y a b :
  is_int x a -> is_int y b -> Z.abs (a - b) < 2 ^ 53 -> is_int (x - y)%D (a - b).
Proof.
  intros Hx Hy Hab. rewrite fsub_fadd, <- Z.add_opp_r.
  apply is_int_add; [done|by apply is_int_opp|lia].
Qed.

Lemma is_int_compare x y a b :
  is_int x a -> is_int y b -> SFcompare x y = Some (a ?= b).
Proof.
  assert (Hpos : forall a b, 0 < a < 2 ^ 53 -> 0 < b < 2 ^ 53 ->
    match Z.log2 a - 52 ?= Z.log2 b - 52 with
    | Eq => Pos.compare_cont Eq (Z.to_pos (a * 2 ^ (52 - Z.log2 a)))
              (Z.to_pos (b * 2 ^ (52 - Z.log2 b)))
    | c => c
    end = (a ?= b)).
  { clear. intros a b Ha Hb.
    destruct (Z.compare_spec (Z.log2 a - 52) (Z.log2 b - 52)) as [E|E|E].
    - assert (E' : Z.log2 a = Z.log2 b) by lia. rewrite E'.
      pose proof (log2_53 b Hb).
      assert (HP : 0 < 2 ^ (52 - Z.log2 b)) by (apply Z.pow_pos_nonneg; lia).
      change (Pos.compare_cont Eq ?p ?q) with (Zpos p ?= Zpos q).
      rewrite !Z2Pos.id by (apply Z.mul_pos_pos; lia).
      destruct (Z.compare_spec a b) as [->|?|?].
      + apply Z.compare_refl.
      + apply Z.compare_lt_iff. by apply Z.mul_lt_mono_pos_r.
      + apply Z.compare_gt_iff. by apply Z.mul_lt_mono_pos_r.
    - symmetry; apply Z.compare_lt_iff. apply Z.log2_lt_cancel. lia.
    - symmetry; apply Z.compare_gt_iff. apply Z.log2_lt_cancel. lia. }
  intros [[-> [s ->]]|[Ha ->]] [[-> [s' ->]]|[Hb ->]]; cbn [SFcompare canon].
  - by rewrite Z.compare_refl.
  - destruct (Z.ltb_spec b 0); f_equal; symmetry;
      [apply Z.compare_gt_iff|apply Z.compare_lt_iff]; lia.
  - destruct (Z.ltb_spec a 0); f_equal; symmetry;
      [apply Z.compare_lt_iff|apply Z.compare_gt_iff]; lia.
  - unfold canon; cbn [SFcompare].
    specialize (Hpos _ _ Ha Hb).
    destruct (Z.ltb_spec a 0), (Z.ltb_spec b 0); f_equal.
    + assert (E : (a ?= b) = CompOpp (Z.abs a ?= Z.abs b)).
      { rewrite !Z.abs_neq, Z.compare_opp by lia. apply Z.compare_antisym. }
      rewrite E, <- Hpos.
      by destruct (Z.log2 (Z.abs a) - 52 ?= Z.log2 (Z.abs b) - 52).
    + symmetry; apply Z.compare_lt_iff; lia.
    + symmetry; apply Z.compare_gt_iff; lia.
    + rewrite (Z.abs_eq a), (Z.abs_eq b) in * by lia. done.
Qed.

Lemma is_int_flt x y a b : is_int x a -> is_int y b -> flt x y = (a <? b).
Proof. intros Hx Hy. unfold flt, SFltb. rewrite (is_int_compare x y a b Hx Hy). done. Qed.

Lemma is_int_fle x y a b : is_int x a -> is_int y b -> fle x y = (a <=? b).
Proof. intros Hx Hy. unfold fle, SFleb. rewrite (is_int_compare x y a b Hx Hy). done. Qed.

Lemma is_int_feq x y a b : is_int x a -> is_int y b -> feq x y = (a =? b).
Proof.
  intros Hx Hy. unfold feq, SFeqb. rewrite (is_int_compare x y a b Hx Hy).
  rewrite Z.eqb_compare. done.
Qed.

Lemma is_int_fmin x y a b : is_int x a -> is_int y b -> is_int (fmin x y) (Z.min a b).
Proof.
  intros Hx Hy. unfold fmin. rewrite (is_int_flt y x b a Hy Hx).
  destruct (Z.ltb_spec b a); [rewrite Z.min_r by lia|rewrite Z.min_l by lia]; done.
Qed.

Lemma is_int_zero : is_int fzero 0.
Proof. left; eauto. Qed.

(** A positive integer below 2^53 is a normal number with its exact value. *)
Lemma is_int_trunc x z : is_int x z -> trunc x = Some z.
Proof.
  intros [[-> [s ->]]|[Hz ->]]; [done|]. pose proof (log2_53 (Z.abs z) Hz) as Hl.
  assert (HP : 0 < 2 ^ (52 - Z.log2 (Z.abs z))) by (apply Z.pow_pos_nonneg; lia).
  unfold canon; cbn [trunc]. rewrite Z2Pos.id by nia.
  assert (Hshift : match Z.log2 (Z.abs z) - 52 with
    | Zneg p => Z.shiftr (Z.abs z * 2 ^ (52 - Z.log2 (Z.abs z))) (Zpos p)
    | e => Z.shiftl (Z.abs z * 2 ^ (52 - Z.log2 (Z.abs z))) e end = Z.abs z).
  { destruct (Z.log2 (Z.abs z) - 52) as [|p|p] eqn:E; [|lia|].
    - replace (52 - Z.log2 (Z.abs z)) with 0 by lia. by rewrite Z.shiftl_0_r, Z.mul_1_r.
    - replace (52 - Z.log2 (Z.abs z)) with (Zpos p) by lia.
      rewrite Z.shiftr_div_pow2 by lia. apply Z.div_mul. lia. }
  f_equal. destruct (Z.log2 (Z.abs z) - 52); rewrite Hshift; zcases; lia.
Qed.

Lemma trunc_of_int z : Z.abs z < 2 ^ 53 -> trunc (of_int z) = Some z.
Proof. intros. by apply is_int_trunc, is_int_of_int. Qed.

Lemma of_int_normal z : 0 < z < 2 ^ 53 ->
  normal (of_int z) (Z.log2 z - 52) /\ (valQ (of_int z) == inject_Z z)%Q.
Proof.
  intros Hz. destruct (is_int_of_int z) as [[-> _]|[_ ->]]; [lia|lia|].
  rewrite (proj2 (Z.ltb_ge z 0)), Z.abs_eq by lia.
  pose proof (canon_mantissa z ltac:(lia) ltac:(lia)) as Hc.
  pose proof (log2_53 z Hz). split.
  - eexists; split; [done|]. by rewrite Z2Pos.id by lia.
  - unfold canon; cbn [valQ]. rewrite Z2Pos.id by lia.
    rewrite inject_Z_mult, <- (bpow_Z (52 - Z.log2 z)), <- Qmult_assoc, <- bpow_plus by lia.
    replace (52 - Z.log2 z + (Z.log2 z - 52)) with 0 by lia.
    change (bpow 0) with 1%Q. ring.
Qed.

(** Truncation of a positive normal number with a fractional part. *)
Lemma trunc_between x e t :
  normal x e -> e < 0 -> (inject_Z t <= valQ x < inject_Z (t + 1))%Q ->
  trunc x = Some t.
Proof.
  intros (p & -> & Hp) He [Hlo Hhi]. cbn [trunc valQ] in *.
  destruct e as [|k|k]; try lia. f_equal.
  assert (HP : 0 < 2 ^ Zpos k) by (apply Z.pow_pos_nonneg; lia).
  rewrite Z.shiftr_div_pow2 by lia.
  assert (Hb : (bpow (Z.neg k) * inject_Z (2 ^ Zpos k) == 1)%Q).
  { rewrite <- bpow_Z, <- bpow_plus by lia.
    by replace (Z.neg k + Z.pos k) with 0 by lia. }
  pose proof (inject_pos _ HP) as HPq.
  symmetry; apply (Z.div_unique_pos _ _ _ (Zpos p - 2 ^ Zpos k * t)); [|lia].
  apply (Qmult_le_compat_r _ _ (inject_Z (2 ^ Zpos k))) in Hlo; [|by apply Qlt_le_weak].
  apply (Qmult_lt_compat_r _ _ _ HPq) in Hhi.
  rewrite <- Qmult_assoc, Hb, Qmult_1_r, <- inject_Z_mult in Hlo, Hhi.
  rewrite <- Zle_Qle in Hlo. rewrite <- Zlt_Qlt in Hhi. lia.
Qed.
