(* ===== verification/Float64Valid.v ===== *)
(** * The values of a [double]

    [SpecFloat] computes on mantissas and exponents of any size; [is_double]
    says that a pair of them is the canonical one of a binary64 number.  Every
    operation the sources use gives such a value from such values. *)

From Stdlib Require Import QArith_base Floats.SpecFloat.
From S2P Require Import Prelude Float64.

Local Open Scope Z_scope.

Definition is_double (x : double) : Prop := valid_binary PREC EMAX x = true.

#[global] Instance is_double_dec x : Decision (is_double x).
Proof. unfold is_double. apply _. Defined.

(** The two kinds of finite numbers: normal, and subnormal. *)
Lemma finite_cases s m e : is_double (S754_finite s m e) <->
  (2 ^ 52 <= Zpos m < 2 ^ 53 /\ -1074 <= e <= 971) \/ (Zpos m < 2 ^ 52 /\ e = -1074).
Proof.
  unfold is_double, valid_binary, bounded, canonical_mantissa. rewrite fexp_eq, zpos_digits2.
  change (EMAX - PREC) with 971. rewrite andb_true_iff, Z.eqb_eq, Z.leb_le.
  pose proof (Z.log2_spec (Zpos m) ltac:(lia)) as [Hlo Hhi].
  pose proof (Z.log2_nonneg (Zpos m)). split.
  - intros [He Hb]. destruct (decide (52 <= Z.log2 (Zpos m))) as [H1|H1].
    + left. assert (Z.log2 (Zpos m) = 52) as E by lia. rewrite E in *. cbn in Hlo, Hhi. lia.
    + right. split; [|lia]. eapply Z.lt_le_trans; [exact Hhi|]. apply Z.pow_le_mono_r; lia.
  - intros [[Hm He]|[Hm ->]].
    + assert (Z.log2 (Zpos m) = 52) as E by (apply Z.log2_unique; cbn; lia). rewrite E. lia.
    + assert (Z.log2 (Zpos m) < 52) by (apply Z.log2_lt_pow2; lia). lia.
Qed.

(** ** Rounding *)

Lemma pack_double s m e : 0 <= m <= 2 ^ 53 -> -1074 <= e -> e = -1074 \/ 2 ^ 52 <= m ->
  is_double (pack s m e).
Proof.
  intros Hm He Hn. unfold pack. destruct m as [|p|p]; [reflexivity| |reflexivity].
  destruct (Z.eqb_spec (Zpos p) (2 ^ 53)) as [E|E].
  - destruct (Z.leb_spec (e + 1) 971); [|reflexivity]. apply finite_cases. left. lia.
  - destruct (Z.leb_spec e 971); [|reflexivity]. apply finite_cases.
    destruct (decide (2 ^ 52 <= Zpos p)); [left; lia|right; lia].
Qed.

(** A mantissa and a location are the rounding of some fraction. *)
Lemma bracket_any m l : 0 <= m -> exists N D, 0 < D /\ bracket (shr_record_of_loc m l) N D.
Proof.
  intros Hm. unfold bracket. destruct l as [|[]]; cbn [shr_record_of_loc shr_m shr_r shr_s].
  - exists m, 1. lia.
  - exists (2 * m + 1), 2. lia.
  - exists (4 * m + 1), 4. lia.
  - exists (4 * m + 3), 4. lia.
Qed.

(** Rounding gives a [double] when the exponent leaves no fewer than 53 bits. *)
Lemma round_aux_double s m e l : 0 <= m -> e <= Z.max (Zdigits2 m + e - 53) (-1074) ->
  is_double (binary_round_aux PREC EMAX s m e l).
Proof.
  intros Hm He. destruct (bracket_any m l Hm) as (N & D & HD & Hb).
  destruct (round_core s m e l N D Hm HD Hb) as (mr & Hmr & _ & _ & Hq & ->).
  rewrite (Z.max_r e) in * by lia. apply pack_double; [done|lia|].
  destruct (decide (Zdigits2 m + e - 53 <= -1074)); [left; lia|right].
  rewrite Z.max_l in Hq by lia.
  destruct (decide (m = 0)) as [->|Hm0]; [cbn in *; lia|].
  pose proof (Zdigits2_bounds m ltac:(lia)) as [Hlo _].
  apply Z.le_trans with (m / 2 ^ (Zdigits2 m + e - 53 - e)); [|lia].
  replace (Zdigits2 m + e - 53 - e) with (Zdigits2 m - 53) in * by lia.
  apply Z.div_le_lower_bound; [apply Z.pow_pos_nonneg; lia|].
  rewrite <- Z.pow_add_r by lia. by replace (Zdigits2 m - 53 + 52) with (Zdigits2 m - 1) by lia.
Qed.

Lemma round_double s m e : is_double (binary_round PREC EMAX s m e).
Proof.
  unfold binary_round. rewrite fexp_eq.
  change (Zpos (digits2_pos m)) with (Zdigits2 (Zpos m)).
  destruct (shl_align_eq m e (Z.max (Zdigits2 (Zpos m) + e - 53) (-1074))) as (m' & -> & Hm').
  apply round_aux_double; [lia|]. rewrite Hm', Zdigits2_log2 in * by lia.
  rewrite digits_mul_pow2 by lia. lia.
Qed.

Lemma normalize_double m e s : is_double (binary_normalize PREC EMAX m e s).
Proof. destruct m; [reflexivity|apply round_double..]. Qed.

(** ** The operations *)

Lemma of_int_double z : is_double (of_int z).
Proof. apply normalize_double. Qed.

Lemma fopp_double x : is_double x -> is_double (- x)%D.
Proof. by destruct x. Qed.

Lemma fadd_double x y : is_double x -> is_double y -> is_double (x + y)%D.
Proof.
  intros Hx Hy. destruct x as [[]|[]| |s m e], y as [[]|[]| |s' m' e']; try done;
    apply normalize_double.
Qed.

Lemma fsub_double x y : is_double x -> is_double y -> is_double (x - y)%D.
Proof.
  intros Hx Hy. destruct x as [[]|[]| |s m e], y as [[]|[]| |s' m' e']; try done;
    apply normalize_double.
Qed.

Lemma finite_digits s m e : is_double (S754_finite s m e) ->
  1 <= Zdigits2 (Zpos m) <= 53 /\ -1074 <= e /\ (Zdigits2 (Zpos m) = 53 \/ e = -1074).
Proof.
  intros [[Hm He]|[Hm ->]]%finite_cases; pose proof (Z.log2_nonneg (Zpos m)); rewrite Zdigits2_log2 by lia.
  - assert (Z.log2 (Zpos m) = 52) as -> by (apply Z.log2_unique; cbn; lia). lia.
  - assert (Z.log2 (Zpos m) < 52) by (apply Z.log2_lt_pow2; lia). lia.
Qed.

Lemma fmul_double x y : is_double x -> is_double y -> is_double (x * y)%D.
Proof.
  intros Hx Hy. destruct x as [[]|[]| |s m e], y as [[]|[]| |s' m' e']; try done.
  apply round_aux_double; [lia|]. apply finite_digits in Hx, Hy.
  assert (Zdigits2 (Zpos m) + Zdigits2 (Zpos m') - 1 <= Zdigits2 (Zpos (m * m'))); [|lia].
  rewrite !Zdigits2_log2, Pos2Z.inj_mul by lia.
  pose proof (Z.log2_mul_below (Zpos m) (Zpos m') ltac:(lia) ltac:(lia)). lia.
Qed.

(** The exponent of a quotient leaves it enough bits. *)
Lemma div_core_digits p e q e' : let '(m, e0, _) := SFdiv_core_binary PREC EMAX (Zpos p) e (Zpos q) e' in
  0 <= m /\ e0 <= Z.max (Zdigits2 m + e0 - 53) (-1074).
Proof.
  unfold SFdiv_core_binary. rewrite fexp_eq, !Zdigits2_log2 by lia.
  set (l := Z.log2 (Zpos p)). set (l' := Z.log2 (Zpos q)).
  set (e0 := Z.min (Z.max (l + 1 + e - (l' + 1 + e') - 53) (-1074)) (e - e')).
  set (m' := match e - e' - e0 with Z0 => Zpos p | Zpos _ => Z.shiftl (Zpos p) (e - e' - e0) | Zneg _ => 0 end).
  assert (Hm' : m' = Zpos p * 2 ^ (e - e' - e0)).
  { unfold m'. assert (0 <= e - e' - e0) by lia. destruct (e - e' - e0) as [|s|s] eqn:E; [|by rewrite Z.shiftl_mul_pow2 by lia|lia].
    change (2 ^ 0) with 1. lia. }
  pose proof (Z_div_mod m' (Zpos q) ltac:(lia)) as Hdm.
  destruct (Z.div_eucl m' (Zpos q)) as [d r]. destruct Hdm as [Hd Hr].
  assert (0 < 2 ^ (e - e' - e0)) by (apply Z.pow_pos_nonneg; lia).
  assert (Hd0 : 0 <= d) by nia. split; [done|].
  destruct (decide (d = 0)) as [->|Hne].
  - (* a zero quotient: the fraction is below one, so [e0] is the least *)
    change (Zdigits2 0) with 0.
    assert (Hlt : Z.log2 m' <= l') by (apply Z.log2_le_mono; lia).
    rewrite Hm', Z.log2_mul_pow2 in Hlt by lia. fold l in Hlt. lia.
  - assert (Hlog : Z.log2 m' <= Z.log2 d + l' + 1).
    { assert (Z.log2 m' < Z.log2 d + l' + 2); [|lia]. apply Z.log2_lt_pow2; [nia|].
      pose proof (Z.log2_spec d ltac:(lia)) as [_ H1]. pose proof (Z.log2_spec (Zpos q) ltac:(lia)) as [_ H2].
      fold l' in H2. pose proof (Z.log2_nonneg d). pose proof (Z.log2_nonneg (Zpos q)) as Hq. fold l' in Hq.
      replace (Z.log2 d + l' + 2) with (Z.succ (Z.log2 d) + Z.succ l') by lia.
      rewrite Z.pow_add_r by lia. nia. }
    rewrite Hm', Z.log2_mul_pow2 in Hlog by lia. fold l in Hlog. rewrite Zdigits2_log2 by lia. lia.
Qed.

Lemma fdiv_double x y : is_double x -> is_double y -> is_double (x / y)%D.
Proof.
  intros Hx Hy. destruct x as [[]|[]| |s m e], y as [[]|[]| |s' m' e']; try done.
  unfold fdiv, SFdiv. pose proof (div_core_digits m e m' e') as H.
  destruct (SFdiv_core_binary _ _ _ _ _ _) as [[q e0] l]. destruct H. by apply round_aux_double.
Qed.

Lemma of_ratio_double s n d : is_double (of_ratio s n d).
Proof.
  unfold of_ratio. pose proof (div_core_digits n 0 d 0) as H.
  destruct (SFdiv_core_binary _ _ _ _ _ _) as [[q e0] l]. destruct H. by apply round_aux_double.
Qed.

Lemma lit_double q : is_double (lit q).
Proof. unfold lit. destruct (Qnum q); [done|apply of_ratio_double..]. Qed.

Create HintDb double.
#[export] Hint Resolve of_int_double fopp_double fadd_double fsub_double fmul_double fdiv_double
  of_ratio_double lit_double : double.
