(* ===== verification/Float64Accuracy.v ===== *)
(** * Accuracy of chains of binary64 operations

    [Float64] bounds the error of one operation.  Here the error of a chain is
    counted in roundings: a result is [within n] of a positive value when it
    differs from it by at most [n] factors of [1 / (1 - 2^-53)], and products,
    quotients and sums of positive numbers add the counts of their operands.
    Also the conversions at both ends of a chain: [of_int] of integers of any
    size and the truncation to an integer. *)

From Stdlib Require Import QArith Qpower Qabs Qround Lqa.
From S2P Require Import Prelude Float64.

Local Open Scope Z_scope.

(** ** Exponents and values *)

Lemma bpow_le a b : a <= b -> (bpow a <= bpow b)%Q.
Proof. intros. by apply Qpower_le_compat_l. Qed.

Lemma bpow_lt a b : a < b -> (bpow a < bpow b)%Q.
Proof. intros. by apply Qpower_lt_compat_l. Qed.

Lemma bpow_lt_inv a b : (bpow a < bpow b)%Q -> a < b.
Proof. intros H. destruct (Z.lt_ge_cases a b); [done|]. pose proof (bpow_le b a ltac:(lia)). lra. Qed.

Lemma normal_range x e : normal x e -> (bpow (e + 52) <= valQ x < bpow (e + 53))%Q.
Proof.
  intros (p & -> & Hp). unfold valQ. pose proof (bpow_pos e) as Hb. cbv iota.
  rewrite (Z.add_comm e 52), (Z.add_comm e 53), !bpow_plus, (bpow_Z 52), (bpow_Z 53) by lia.
  split; [apply Qmult_le_compat_r; [|lra]|apply Qmult_lt_compat_r; [done|]].
  - rewrite <- Zle_Qle. lia.
  - rewrite <- Zlt_Qlt. lia.
Qed.

Lemma normal_exponent x e a b : normal x e -> (bpow a <= valQ x < bpow b)%Q -> a - 52 <= e < b - 52.
Proof.
  intros Hx Hv. pose proof (normal_range x e Hx) as Hr.
  assert (a < e + 53) by (apply bpow_lt_inv; lra). assert (e + 52 < b) by (apply bpow_lt_inv; lra). lia.
Qed.

(** ** Order

    Rounding keeps the order of the exact values, and a positive number has one
    representation. *)

Lemma nearest_mono x y v w : nearest x v -> nearest y w -> (v < w)%Q -> (valQ x <= valQ y)%Q.
Proof.
  intros (e & m & Hm & -> & Hv & V & _) (f & n & Hn & -> & Hw & _ & W) Hvw.
  pose proof (bpow_pos e) as He. pose proof (bpow_pos f) as Hf.
  assert (Hef : e <= f) by (assert (e + 52 < f + 53) by (apply bpow_lt_inv; lra); lia).
  destruct (decide (e = f)) as [<-|Hne].
  - apply Qmult_le_compat_r; [|lra]. rewrite <- Zle_Qle. apply Z.nlt_ge. intros Hlt.
    assert (H : (inject_Z n + 1 <= inject_Z m)%Q).
    { change 1%Q with (inject_Z 1). rewrite <- inject_Z_plus, <- Zle_Qle. lia. }
    assert ((inject_Z n + (1 # 2)) * bpow e <= (inject_Z m - (1 # 2)) * bpow e)%Q by (apply Qmult_le_compat_r; lra).
    lra.
  - pose proof (bpow_le (e + 53) (f + 52) ltac:(lia)) as Hb. rewrite Z.add_comm, (Z.add_comm f), !bpow_plus in Hb.
    rewrite (bpow_Z 53), (bpow_Z 52) in Hb by lia.
    assert (inject_Z m * bpow e <= inject_Z (2 ^ 53) * bpow e)%Q by (apply Qmult_le_compat_r; [rewrite <- Zle_Qle; lia|lra]).
    assert (inject_Z (2 ^ 52) * bpow f <= inject_Z n * bpow f)%Q by (apply Qmult_le_compat_r; [rewrite <- Zle_Qle; lia|lra]).
    lra.
Qed.

Lemma normal_inj x y e f : normal x e -> normal y f -> (valQ x == valQ y)%Q -> x = y.
Proof.
  intros Hx Hy E. assert (f = e) as ->.
  { pose proof (normal_range x e Hx) as Hr. rewrite E in Hr. pose proof (normal_exponent y f _ _ Hy Hr). lia. }
  destruct Hx as (p & -> & _), Hy as (q & -> & _). cbn [valQ] in E.
  apply Qmult_inj_r in E; [|intros H0; pose proof (bpow_pos e); lra]. by apply inject_Z_injective in E as [= ->].
Qed.

(** ** Counting roundings *)

(** [1 / (1 - 2^-53)] *)
Definition rho : Q := 9007199254740992 # 9007199254740991.

Fixpoint grow (n : nat) : Q := match n with O => 1%Q | S n => (grow n * rho)%Q end.

Lemma grow_ge_1 n : (1 <= grow n)%Q.
Proof. induction n as [|n IH]; cbn [grow]; [lra|]. unfold rho. lra. Qed.

Lemma grow_add n m : (grow (n + m) == grow n * grow m)%Q.
Proof. induction n as [|n IH]; cbn [grow Nat.add]; [ring|]. rewrite IH. ring. Qed.

Lemma grow_mono n m : (n <= m)%nat -> (grow n <= grow m)%Q.
Proof.
  intros H. replace m with (n + (m - n))%nat by lia. rewrite grow_add.
  pose proof (grow_ge_1 n). pose proof (grow_ge_1 (m - n)). nra.
Qed.

(** [x] is the positive [v] up to [n] roundings. *)
Definition within (n : nat) (x : double) (v : Q) : Prop :=
  (v <= valQ x * grow n)%Q /\ (valQ x <= v * grow n)%Q.

Lemma within_exact x v : (valQ x == v)%Q -> within 0 x v.
Proof. intros H. unfold within; cbn [grow]. lra. Qed.

#[export] Instance within_proper n x : Proper (Qeq ==> iff) (within n x).
Proof. intros v w E. unfold within. by rewrite E. Qed.

Lemma within_mono n m x v : (n <= m)%nat -> (0 <= v)%Q -> (0 <= valQ x)%Q -> within n x v -> within m x v.
Proof. intros H%grow_mono Hv Hx [H1 H2]. split; nra. Qed.

Lemma near_within x v : (0 <= v)%Q -> near x v -> within 1 x v.
Proof.
  unfold near, within, u53, rho; cbn [grow]. change (2 ^ 53)%positive with 9007199254740992%positive.
  unfold rho. intros Hv [H1 H2]. split; lra.
Qed.

(** A rounding of a value that is itself within [n] of [v]. *)
Lemma near_within_trans n x w v : (0 <= w)%Q -> near x w -> (v <= w * grow n)%Q -> (w <= v * grow n)%Q -> within (S n) x v.
Proof.
  intros Hw Hx H1 H2. apply near_within in Hx as [H3 H4]; [|done]. pose proof (grow_ge_1 n).
  unfold within in *; cbn [grow] in *. assert (0 <= rho)%Q by (unfold rho; lra). split.
  - assert (w * grow n <= valQ x * (1 * rho) * grow n)%Q by (apply Qmult_le_compat_r; [done|lra]). lra.
  - assert (w * (1 * rho) <= v * grow n * rho)%Q by (rewrite Qmult_1_l; by apply Qmult_le_compat_r). lra.
Qed.

Lemma fmul_within n m x y ex ey v w : normal x ex -> normal y ey -> -600 <= ex + ey <= 600 ->
  (0 < v)%Q -> (0 < w)%Q -> within n x v -> within m y w ->
  exists e, normal (x * y)%D e /\ within (S (n + m)) (x * y)%D (v * w).
Proof.
  intros Hx Hy He Hv Hw [A1 A2] [B1 B2]. destruct (fmul_error x y ex ey Hx Hy He) as (e & _ & Hn & Hr).
  exists e. split; [done|]. pose proof (normal_valQ _ _ Hx). pose proof (normal_valQ _ _ Hy).
  pose proof (grow_ge_1 n). pose proof (grow_ge_1 m).
  apply (near_within_trans _ _ (valQ x * valQ y)); [nra|done| |]; rewrite grow_add.
  - assert (E : (valQ x * valQ y * (grow n * grow m) == (valQ x * grow n) * (valQ y * grow m))%Q) by ring. rewrite E.
    apply Qmult_le_compat_nonneg; lra.
  - assert (E : (v * w * (grow n * grow m) == (v * grow n) * (w * grow m))%Q) by ring. rewrite E.
    apply Qmult_le_compat_nonneg; lra.
Qed.

Lemma fdiv_within n m x y ex ey v w : normal x ex -> normal y ey -> -500 <= ex - ey <= 500 ->
  (0 < v)%Q -> (0 < w)%Q -> within n x v -> within m y w ->
  exists e, normal (x / y)%D e /\ within (S (n + m)) (x / y)%D (v / w).
Proof.
  intros Hx Hy He Hv Hw [A1 A2] [B1 B2]. destruct (fdiv_error x y ex ey Hx Hy He) as (e & _ & Hn & Hr).
  exists e. split; [done|]. pose proof (normal_valQ _ _ Hx). pose proof (normal_valQ _ _ Hy) as Hy'.
  pose proof (grow_ge_1 n). pose proof (grow_ge_1 m).
  assert (Hq : (0 <= valQ x / valQ y)%Q) by (apply Qle_shift_div_l; lra).
  apply (near_within_trans _ _ (valQ x / valQ y)); [done|done| |]; rewrite grow_add.
  - apply Qle_shift_div_r; [done|].
    assert (E : (valQ x / valQ y * (grow n * grow m) * w == (valQ x * grow n) * (w * grow m) / valQ y)%Q) by (field; lra). rewrite E.
    apply Qle_shift_div_l; [done|]. apply Qmult_le_compat_nonneg; lra.
  - apply Qle_shift_div_r; [done|].
    assert (E : (v / w * (grow n * grow m) * valQ y == (v * grow n) * (valQ y * grow m) / w)%Q) by (field; lra). rewrite E.
    apply Qle_shift_div_l; [done|]. apply Qmult_le_compat_nonneg; lra.
Qed.

Lemma fadd_within n m x y ex ey v w : normal x ex -> normal y ey -> -500 <= ex <= 500 -> -500 <= ey <= 500 ->
  (0 < v)%Q -> (0 < w)%Q -> within n x v -> within m y w ->
  exists e, normal (x + y)%D e /\ within (S (Nat.max n m)) (x + y)%D (v + w).
Proof.
  intros Hx Hy Hex Hey Hv Hw A B. destruct (fadd_error x y ex ey Hx Hy Hex Hey) as (e & _ & Hn & Hr).
  exists e. split; [done|]. pose proof (normal_valQ _ _ Hx). pose proof (normal_valQ _ _ Hy).
  apply (within_mono n (Nat.max n m)) in A; [|lia|lra|lra]. apply (within_mono m (Nat.max n m)) in B; [|lia|lra|lra].
  destruct A as [A1 A2], B as [B1 B2]. apply (near_within_trans _ _ (valQ x + valQ y)); [lra|done| |]; lra.
Qed.

(** ** What the count bounds *)

Lemma grow_bound n : Z.of_nat n <= 2 ^ 51 -> (grow n <= 1 + inject_Z (Z.of_nat n) * (1 # 2 ^ 52 - 1))%Q.
Proof.
  induction n as [|n IH]; intros Hn; cbn [grow]; [change (inject_Z (Z.of_nat 0)) with 0%Q; lra|]. specialize (IH ltac:(lia)).
  rewrite Nat2Z.inj_succ. unfold Z.succ. rewrite inject_Z_plus.
  assert (Hq : (0 <= inject_Z (Z.of_nat n) <= 2251799813685248)%Q).
  { change 0%Q with (inject_Z 0). change 2251799813685248%Q with (inject_Z 2251799813685248).
    rewrite <- !Zle_Qle. lia. }
  change (2 ^ 52 - 1)%positive with 4503599627370495%positive in *. unfold rho.
  set (q := inject_Z (Z.of_nat n)) in *. change (inject_Z 1) with 1%Q.
  assert (grow n * (9007199254740992 # 9007199254740991) <=
    (1 + q * (1 # 4503599627370495)) * (9007199254740992 # 9007199254740991))%Q by (apply Qmult_le_compat_r; [done|lra]).
  nra.
Qed.

(** The relative error of [n] roundings, for any chain a program can run. *)
Lemma within_error n x v : (0 < v)%Q -> (0 <= valQ x)%Q -> Z.of_nat n <= 2 ^ 51 -> within n x v ->
  (Qabs (valQ x - v) <= inject_Z (Z.of_nat n) * (1 # 2 ^ 51) * v)%Q.
Proof.
  intros Hv Hx Hn [H1 H2]. pose proof (grow_bound n Hn) as Hg. pose proof (grow_ge_1 n) as Hg1.
  assert (Hq : (0 <= inject_Z (Z.of_nat n))%Q) by (change 0%Q with (inject_Z 0); rewrite <- Zle_Qle; lia).
  set (q := inject_Z (Z.of_nat n)) in *.
  assert (Hd : (q * (1 # 2 ^ 52 - 1) <= q * (1 # 2 ^ 51))%Q) by (apply Qmult_le_compat_nonneg; [split; [done|lra]|done]).
  set (d := (q * (1 # 2 ^ 51))%Q) in *. set (g := grow n) in *.
  assert (H3 : (valQ x - v <= d * v)%Q) by nra.
  apply Qabs_Qle_condition. split; [|done]. destruct (Qlt_le_dec v (valQ x)); nra.
Qed.

(** Within a factor of two, as long as there are not too many. *)
Lemma within_twice n x v : (0 < v)%Q -> (0 <= valQ x)%Q -> Z.of_nat n <= 2 ^ 50 -> within n x v ->
  (v <= 2 * valQ x /\ valQ x <= 2 * v)%Q.
Proof.
  intros Hv Hx Hn [H1 H2]. pose proof (grow_bound n ltac:(lia)) as Hg.
  assert (Hq : (inject_Z (Z.of_nat n) <= 1125899906842624)%Q).
  { change 1125899906842624%Q with (inject_Z 1125899906842624). rewrite <- Zle_Qle. lia. }
  change (2 ^ 52 - 1)%positive with 4503599627370495%positive in Hg.
  assert (grow n <= 2)%Q by lra. split; nra.
Qed.

(** The exponent of a result follows from the bounds of the value it is near. *)
Lemma within_exponent n x e v a b : normal x e -> Z.of_nat n <= 2 ^ 50 -> within n x v ->
  (bpow a <= v < bpow b)%Q -> a - 53 <= e < b - 51.
Proof.
  intros Hx Hn Hw Hv. pose proof (normal_valQ x e Hx) as H0. pose proof (bpow_pos a) as Ha.
  destruct (within_twice n x v) as [H1 H2]; [lra|lra|done|done|].
  enough (a - 1 - 52 <= e < (1 + b) - 52) by lia. apply (normal_exponent x e _ _ Hx).
  rewrite bpow_minus, (bpow_plus 1 b). change (bpow 1) with 2%Q. split; [|lra].
  apply Qle_shift_div_r; lra.
Qed.

Lemma inject_Z_bpow z a b : 0 <= a -> 0 <= b -> 2 ^ a <= z < 2 ^ b -> (bpow a <= inject_Z z < bpow b)%Q.
Proof. intros Ha Hb H. rewrite !bpow_Z by done. rewrite <- Zle_Qle, <- Zlt_Qlt. done. Qed.

(** ** Integers of any size *)

Lemma of_int_within z : 0 < z < 2 ^ 500 -> exists e, normal (of_int z) e /\ within 1 (of_int z) (inject_Z z).
Proof.
  intros Hz. destruct (Z.lt_ge_cases z (2 ^ 53)) as [Hs|Hl].
  - destruct (of_int_normal z ltac:(lia)) as [Hn Hv]. eexists. split; [exact Hn|].
    apply (within_mono 0 1); [lia| | |by apply within_exact].
    + apply Qlt_le_weak, inject_pos. lia.
    + rewrite Hv. apply Qlt_le_weak, inject_pos. lia.
  - destruct z as [|p|p]; try lia. unfold of_int. cbn [binary_normalize].
    assert (Hd : 54 <= Zdigits2 (Zpos p)).
    { rewrite Zdigits2_log2 by lia. assert (53 <= Z.log2 (Zpos p)); [|lia]. apply Z.log2_le_pow2; lia. }
    assert (Hu : Zdigits2 (Zpos p) <= 500) by (apply Zdigits2_le; lia).
    rewrite binary_round_no_shift by lia.
    destruct (round_nearest (Zpos p) 0 loc_Exact (Zpos p) 1 (inject_Z (Zpos p))) as (e & _ & Hn & Hr);
      [lia| |lia|lia|lia|lia|change (inject_Z 1) with 1%Q; ring|].
    { unfold bracket. cbn. lia. }
    exists e. split; [exact Hn|]. change (bpow 0) with 1%Q in Hr.
    assert (E : (inject_Z (Zpos p) * 1 == inject_Z (Zpos p))%Q) by ring.
    apply nearest_near in Hr. unfold near in Hr. rewrite E in Hr. apply near_within; [|exact Hr]. apply Qlt_le_weak, inject_pos. lia.
Qed.

Lemma of_int_width z k : 0 < k <= 500 -> 0 < z < 2 ^ k ->
  exists e, normal (of_int z) e /\ -53 <= e < k - 51 /\ within 1 (of_int z) (inject_Z z).
Proof.
  intros Hk Hz. assert (2 ^ k <= 2 ^ 500) by (apply Z.pow_le_mono_r; lia).
  destruct (of_int_within z) as (e & Hn & Hw); [lia|]. exists e. split; [done|]. split; [|done].
  apply (within_exponent 1 (of_int z) e (inject_Z z) 0 k Hn); [lia|done|]. apply inject_Z_bpow; lia.
Qed.

Lemma trunc_floor x e : normal x e -> exists t, trunc x = Some t /\ (inject_Z t <= valQ x < inject_Z (t + 1))%Q.
Proof.
  intros Hx. destruct (Z.lt_ge_cases e 0) as [He|He].
  - exists (Qfloor (valQ x)). assert (H : (inject_Z (Qfloor (valQ x)) <= valQ x < inject_Z (Qfloor (valQ x) + 1))%Q)
      by (split; [apply Qfloor_le|apply Qlt_floor]).
    split; [|done]. by apply (trunc_between x e).
  - destruct Hx as (p & -> & Hp). cbn [trunc valQ]. exists (Z.shiftl (Zpos p) e).
    split; [by destruct e|]. rewrite Z.shiftl_mul_pow2, (bpow_Z e), <- inject_Z_mult, <- Zle_Qle, <- Zlt_Qlt by done. lia.
Qed.

Lemma trunc_mono x y e f t u : normal x e -> normal y f -> trunc x = Some t -> trunc y = Some u ->
  (valQ x <= valQ y)%Q -> t <= u.
Proof.
  intros Hx Hy Ht Hu H. destruct (trunc_floor x e Hx) as (t' & Ht' & T1 & _), (trunc_floor y f Hy) as (u' & Hu' & _ & U2).
  simplify_eq. apply Z.lt_succ_r. rewrite <- Z.add_1_r, Zlt_Qlt. lra.
Qed.

Lemma to_int64_floor x e : normal x e -> (valQ x < inject_Z (2 ^ 63))%Q ->
  (inject_Z (to_int64 x) <= valQ x < inject_Z (to_int64 x) + 1)%Q.
Proof.
  intros Hx Hb. destruct (trunc_floor x e Hx) as (t & Ht & H1 & H2). pose proof (normal_valQ x e Hx) as H0.
  unfold to_int64. rewrite Ht.
  assert (0 < t + 1) by (rewrite Zlt_Qlt; change (inject_Z 0) with 0%Q; lra).
  assert (t < 2 ^ 63) by (rewrite Zlt_Qlt; lra).
  rewrite (proj2 (Z.leb_le _ _)), (proj2 (Z.ltb_lt _ _)) by lia. cbn [andb].
  rewrite inject_Z_plus in H2. by split.
Qed.

(** ** Integers multiplied *)

(** A positive integer below 2^53 is represented in one way. *)
Lemma is_int_pos x z : is_int x z -> 0 < z -> x = of_int z.
Proof.
  intros Hx Hz. pose proof (is_int_bound _ _ Hx).
  destruct Hx as [[-> _]|[_ ->]]; [lia|]. destruct (is_int_of_int z ltac:(lia)) as [[-> _]|[_ ->]]; [lia|done].
Qed.

Lemma is_int_valQ x z : is_int x z -> (valQ x == inject_Z z)%Q.
Proof.
  intros [[-> [s ->]]|[Hz ->]]; [done|]. destruct (Z.ltb_spec z 0) as [Hs|Hs].
  - destruct (of_int_normal (- z) ltac:(lia)) as [_ Hv]. destruct (is_int_of_int (- z) ltac:(lia)) as [[? _]|[_ E]]; [lia|].
    rewrite E, (proj2 (Z.ltb_ge _ _)), inject_Z_opp in Hv by lia. rewrite Z.abs_opp in Hv.
    unfold canon in *; cbn [valQ] in *. rewrite Qmult_opp_l || idtac. lra.
  - destruct (of_int_normal z ltac:(lia)) as [_ Hv]. destruct (is_int_of_int z ltac:(lia)) as [[? _]|[_ E]]; [lia|].
    by rewrite E, (proj2 (Z.ltb_ge _ _)) in Hv by lia.
Qed.

Lemma sign_mul a b : a <> 0 -> b <> 0 -> xorb (a <? 0) (b <? 0) = (a * b <? 0).
Proof. intros Ha Hb. zcases; cbn; done || nia. Qed.

Lemma is_int_mul x y a b : is_int x a -> is_int y b -> Z.abs (a * b) < 2 ^ 53 -> is_int (x * y)%D (a * b).
Proof.
  intros [[-> [s ->]]|[Ha ->]] Hy Hb.
  { left. split; [done|]. destruct Hy as [[-> [s' ->]]|[_ ->]]; by eexists. }
  destruct Hy as [[-> [s ->]]|[Hb' ->]]; [left; split; [lia|by eexists]|].
  assert (H0 : a <> 0 /\ b <> 0) by lia. destruct H0 as [Ha0 Hb0].
  assert (H0 : 0 < Z.abs (a * b)) by (apply Z.abs_pos, Z.neq_mul_0; by split).
  right. split; [by split|].
  pose proof (canon_mantissa (Z.abs a) ltac:(lia) ltac:(lia)) as Ma. pose proof (log2_53 (Z.abs a) ltac:(lia)) as La.
  pose proof (canon_mantissa (Z.abs b) ltac:(lia) ltac:(lia)) as Mb. pose proof (log2_53 (Z.abs b) ltac:(lia)) as Lb.
  unfold canon, fmul; cbn [SFmul].
  set (ka := 52 - Z.log2 (Z.abs a)) in *. set (kb := 52 - Z.log2 (Z.abs b)) in *.
  assert (HM : Zpos (Z.to_pos (Z.abs a * 2 ^ ka) * Z.to_pos (Z.abs b * 2 ^ kb)) = Z.abs (a * b) * 2 ^ (ka + kb)).
  { rewrite Pos2Z.inj_mul, !Z2Pos.id, Z.pow_add_r, Z.abs_mul by lia. ring. }
  assert (Hd : 104 <= Z.log2 (Zpos (Z.to_pos (Z.abs a * 2 ^ ka) * Z.to_pos (Z.abs b * 2 ^ kb)))).
  { apply Z.log2_le_pow2; [lia|]. rewrite Pos2Z.inj_mul, !Z2Pos.id by lia.
    change (2 ^ 104) with (2 ^ 52 * 2 ^ 52). apply Z.mul_le_mono_nonneg; lia. }
  rewrite <- binary_round_no_shift by (rewrite Zdigits2_log2; lia).
  replace (Z.log2 (Z.abs a) - 52 + (Z.log2 (Z.abs b) - 52)) with (- (ka + kb)) by lia.
  rewrite (binary_round_int _ (Z.abs (a * b)) (ka + kb)) by (done || lia). by rewrite sign_mul.
Qed.
