(* ===== verification/Float64Signed.v ===== *)
(** * Rounding errors of signed numbers

    [Float64] bounds the error of one operation on positive normal numbers.
    Here for sums, differences and products of any finite ones, whose exact
    result may be zero: [rounds x v] says that [x] is the finite result of one
    rounding of [v].  A sum is never inexact for being small; a product is
    kept away from the subnormal numbers by its factors. *)

From Stdlib Require Import QArith Qabs Floats.SpecFloat Lqa.
From S2P Require Import Prelude Float64 Float64Valid Float64Accuracy.

Local Open Scope Z_scope.

Definition finite (x : double) : Prop :=
  match x with S754_zero _ | S754_finite _ _ _ => True | _ => False end.

Definition rounds (x : double) (v : Q) : Prop :=
  finite x /\ is_double x /\ (Qabs (valQ x - v) <= u53 * Qabs v)%Q.

#[export] Instance rounds_proper x : Proper (Qeq ==> iff) (rounds x).
Proof. intros v w E. unfold rounds. by rewrite E. Qed.

Lemma rounds_self x v : finite x -> is_double x -> (valQ x == v)%Q -> rounds x v.
Proof.
  intros Hf Hx E. split; [done|]. split; [done|]. assert (E0 : (valQ x - v == 0)%Q) by (rewrite E; ring).
  rewrite E0. apply Qmult_le_0_compat; [done|apply Qabs_nonneg].
Qed.

(** ** Rounding *)

Definition signedQ (s : bool) (v : Q) : Q := if s then (- v)%Q else v.

Lemma pack_value s m e : 0 <= m <= 2 ^ 53 -> e + 1 <= 971 ->
  finite (pack s m e) /\ (valQ (pack s m e) == signedQ s (inject_Z m * bpow e))%Q.
Proof.
  intros Hm He. unfold pack. destruct m as [|p|p]; [| |lia].
  - split; [done|]. destruct s; cbn [valQ signedQ]; change (inject_Z 0) with 0%Q; ring.
  - destruct (Z.eqb_spec (Zpos p) (2 ^ 53)) as [->|Hne].
    + rewrite (proj2 (Z.leb_le _ _) He). split; [done|]. cbn [valQ]. rewrite bpow_plus. change (bpow 1) with 2%Q.
      change (inject_Z 4503599627370496) with (4503599627370496 # 1)%Q.
      change (inject_Z (2 ^ 53)) with (9007199254740992 # 1)%Q. destruct s; cbn [signedQ]; ring.
    + rewrite (proj2 (Z.leb_le e 971)) by lia. split; [done|]. destruct s; cbn [valQ signedQ]; ring.
Qed.

(** Rounding an integer mantissa: the result and the exact value over a common
    exponent. *)
Lemma round_mantissa s m e : -1074 <= e -> Zdigits2 (Zpos m) + e <= 1000 ->
  exists mr e1 e0, binary_round PREC EMAX s m e = pack s mr e1 /\ 0 <= mr <= 2 ^ 53 /\ e1 + 1 <= 971 /\
    e0 <= e /\ e0 <= e1 /\ 2 ^ 53 * Z.abs (mr * 2 ^ (e1 - e0) - Zpos m * 2 ^ (e - e0)) <= Zpos m * 2 ^ (e - e0).
Proof.
  intros He Hd. unfold binary_round. rewrite fexp_eq. change (Zpos (digits2_pos m)) with (Zdigits2 (Zpos m)).
  set (e1 := Z.max (Zdigits2 (Zpos m) + e - 53) (-1074)).
  destruct (shl_align_eq m e e1) as (m' & -> & Hm'). set (e0 := Z.min e e1) in *.
  replace (Z.max 0 (e - e1)) with (e - e0) in Hm' by lia.
  assert (Hdm : Zdigits2 (Zpos m') + e0 = Zdigits2 (Zpos m) + e)
    by (rewrite Hm', digits_mul_pow2, Zdigits2_log2 by lia; lia).
  destruct (round_core s (Zpos m') e0 loc_Exact (Zpos m') 1) as (mr & Hmr & Herr & Hex & _ & ->);
    [lia|lia|unfold bracket; cbn -[Z.mul]; lia|].
  rewrite Hdm in *. fold e1 in Herr, Hex |- *. replace (Z.max e0 e1) with e1 in * by lia.
  exists mr, e1, e0. split_and!; try done; try lia.
  - rewrite !Z.mul_1_r in *. rewrite <- Hm'. destruct (Z.le_gt_cases e1 e) as [H|H].
    + replace (e1 - e0) with 0 in * by lia. rewrite Hex by apply Z.divide_1_l. lia.
    + (* more than 53 digits: half a unit of the last place *)
      assert (Hdig : Zdigits2 (Zpos m') - 1 = 52 + (e1 - e0)) by lia.
      pose proof (Zdigits2_bounds (Zpos m') ltac:(lia)) as [Hlo _].
      rewrite Hdig, Z.pow_add_r in Hlo by lia. lia.
Qed.

Lemma u53_bound (a m b : Q) : (0 <= b)%Q ->
  (9007199254740992 * Qabs (a - m) <= m)%Q -> (Qabs (a * b - m * b) <= u53 * Qabs (m * b))%Q.
Proof.
  intros Hb H. assert (E : (a * b - m * b == (a - m) * b)%Q) by ring. rewrite E, !Qabs_Qmult, (Qabs_pos b) by done.
  rewrite Qmult_assoc. apply Qmult_le_compat_r; [|done]. pose proof (Qle_Qabs m).
  unfold u53. change (2 ^ 53)%positive with 9007199254740992%positive. lra.
Qed.

Lemma rounds_opp x v : rounds x v -> rounds (- x)%D (- v)%Q.
Proof.
  intros (Hf & Hx & He). split; [by destruct x|]. split; [by apply fopp_double|].
  assert (E : (valQ (- x)%D - - v == - (valQ x - v))%Q).
  { destruct x as [| | |s m e]; cbn; try ring. by destruct s; cbn; ring. }
  by rewrite E, !Qabs_opp.
Qed.

Lemma round_any s m e : -1074 <= e -> Zdigits2 (Zpos m) + e <= 1000 ->
  rounds (binary_round PREC EMAX s m e) (signedQ s (inject_Z (Zpos m) * bpow e)).
Proof.
  intros He Hd. destruct (round_mantissa s m e He Hd) as (mr & e1 & e0 & Hr & Hmr & He1 & H0 & H01 & Herr).
  destruct (pack_value s mr e1 Hmr He1) as [Hf Hv]. split; [by rewrite Hr|]. split; [apply round_double|].
  rewrite Hr, Hv. clear Hr Hf Hv.
  assert (Ea : (inject_Z mr * bpow e1 == inject_Z (mr * 2 ^ (e1 - e0)) * bpow e0)%Q).
  { rewrite inject_Z_mult, <- (bpow_Z (e1 - e0)), <- Qmult_assoc, <- bpow_plus by lia. by rewrite Z.sub_add. }
  assert (Em : (inject_Z (Zpos m) * bpow e == inject_Z (Zpos m * 2 ^ (e - e0)) * bpow e0)%Q).
  { rewrite inject_Z_mult, <- (bpow_Z (e - e0)), <- Qmult_assoc, <- bpow_plus by lia. by rewrite Z.sub_add. }
  set (a := mr * 2 ^ (e1 - e0)) in *. set (b := Zpos m * 2 ^ (e - e0)) in *.
  assert (H : (Qabs (inject_Z mr * bpow e1 - inject_Z (Zpos m) * bpow e) <= u53 * Qabs (inject_Z (Zpos m) * bpow e))%Q).
  { rewrite Ea, Em. apply u53_bound; [apply Qlt_le_weak, bpow_pos|].
    unfold Qminus. rewrite <- inject_Z_opp, <- inject_Z_plus, Z.add_opp_r.
    change 9007199254740992%Q with (inject_Z (2 ^ 53)). change (Qabs (inject_Z (a - b))) with (inject_Z (Z.abs (a - b))).
    by rewrite <- inject_Z_mult, <- Zle_Qle. }
  destruct s; cbn [signedQ]; [|done]. rewrite Qabs_opp.
  assert (E : (- (inject_Z mr * bpow e1) - - (inject_Z (Zpos m) * bpow e) ==
    - (inject_Z mr * bpow e1 - inject_Z (Zpos m) * bpow e))%Q) by ring. by rewrite E, Qabs_opp.
Qed.

Lemma digits_bound p e k : (inject_Z (Zpos p) * bpow e < bpow k)%Q -> Zdigits2 (Zpos p) + e <= k.
Proof.
  intros Hp. pose proof (Zdigits2_bounds (Zpos p) ltac:(lia)) as [Hlo _].
  enough (Zdigits2 (Zpos p) - 1 + e < k) by lia. apply bpow_lt_inv. rewrite bpow_plus.
  assert (0 <= Zdigits2 (Zpos p) - 1) by (pose proof (Z.log2_nonneg (Zpos p)); rewrite Zdigits2_log2; lia).
  rewrite bpow_Z by done. eapply Qle_lt_trans; [|exact Hp].
  apply Qmult_le_compat_r; [by rewrite <- Zle_Qle|apply Qlt_le_weak, bpow_pos].
Qed.

(** ** Sums *)

Lemma normalize_any z e sz : -1074 <= e -> (Qabs (inject_Z z * bpow e) < bpow 1000)%Q ->
  rounds (binary_normalize PREC EMAX z e sz) (inject_Z z * bpow e).
Proof.
  intros He Hb. pose proof (fun p => digits_bound p e 1000) as Hd.
  destruct z as [|p|p]; cbn [binary_normalize].
  - apply rounds_self; [by destruct sz|by destruct sz|]. change (inject_Z 0) with 0%Q. destruct sz; cbn; ring.
  - apply (round_any false); [done|]. apply Hd. eapply Qle_lt_trans; [apply Qle_Qabs|exact Hb].
  - assert (E : (inject_Z (Zneg p) * bpow e == - (inject_Z (Zpos p) * bpow e))%Q).
    { rewrite <- Pos2Z.opp_pos, inject_Z_opp. ring. }
    rewrite E in Hb |- *. rewrite Qabs_opp in Hb.
    apply (round_any true); [done|]. apply Hd. eapply Qle_lt_trans; [apply Qle_Qabs|exact Hb].
Qed.

Lemma valQ_signed s m e : (valQ (S754_finite s m e) == inject_Z (cond_Zopp s (Zpos m)) * bpow e)%Q.
Proof. destruct s; cbn [valQ cond_Zopp]; [by rewrite inject_Z_opp|done]. Qed.

Lemma cond_Zopp_mul s m k : cond_Zopp s (m * k) = cond_Zopp s m * k.
Proof. destruct s; cbn [cond_Zopp]; lia. Qed.

(** The exact sum of two finite numbers, over the smaller exponent. *)
Lemma fadd_mantissa sx p ex sy q ey : exists z,
  (S754_finite sx p ex + S754_finite sy q ey)%D = binary_normalize PREC EMAX z (Z.min ex ey) false /\
  (valQ (S754_finite sx p ex) + valQ (S754_finite sy q ey) == inject_Z z * bpow (Z.min ex ey))%Q.
Proof.
  unfold fadd, SFadd. set (ez := Z.min ex ey).
  destruct (shl_align_eq p ex ez) as (p' & -> & Hp'). destruct (shl_align_eq q ey ez) as (q' & -> & Hq').
  cbn [fst]. rewrite Z.max_r in Hp', Hq' by lia. eexists. split; [reflexivity|].
  rewrite !valQ_signed, Hp', Hq', !cond_Zopp_mul, inject_Z_plus, !inject_Z_mult, <- !bpow_Z by lia.
  rewrite Qmult_plus_distr_l, <- !Qmult_assoc, <- !bpow_plus, !Z.sub_add. done.
Qed.

Lemma fadd_rounds x y : finite x -> finite y -> is_double x -> is_double y ->
  (Qabs (valQ x + valQ y) < bpow 1000)%Q -> rounds (x + y)%D (valQ x + valQ y).
Proof.
  intros Hfx Hfy Hx Hy Hb.
  destruct x as [sx| | |sx p ex]; [|done|done|]; (destruct y as [sy| | |sy q ey]; [|done|done|]).
  - apply rounds_self; destruct sx, sy; done.
  - change (S754_zero sx + S754_finite sy q ey)%D with (S754_finite sy q ey).
    apply rounds_self; [done..|]. cbn [valQ]. ring.
  - change (S754_finite sx p ex + S754_zero sy)%D with (S754_finite sx p ex).
    apply rounds_self; [done..|]. cbn [valQ]. ring.
  - apply finite_digits in Hx as (_ & Hex & _), Hy as (_ & Hey & _).
    destruct (fadd_mantissa sx p ex sy q ey) as (z & -> & E). rewrite E in Hb |- *. apply normalize_any; [lia|done].
Qed.

Lemma valQ_opp x : (valQ (- x)%D == - valQ x)%Q.
Proof. destruct x as [| | |s m e]; cbn; try ring. destruct s; cbn; ring. Qed.

Lemma fsub_rounds x y : finite x -> finite y -> is_double x -> is_double y ->
  (Qabs (valQ x - valQ y) < bpow 1000)%Q -> rounds (x - y)%D (valQ x - valQ y).
Proof.
  intros Hfx Hfy Hx Hy Hb. rewrite fsub_fadd.
  assert (E : (valQ x - valQ y == valQ x + valQ (- y)%D)%Q) by (rewrite valQ_opp; ring). rewrite E in Hb |- *.
  apply fadd_rounds; try done; [by destruct y|by apply fopp_double].
Qed.

(** ** Grids

    A sum of multiples of [bpow g] is rounded to one, so that it is zero or at
    least [bpow g]. *)

Definition on_grid (g : Z) (v : Q) : Prop := exists z, (v == inject_Z z * bpow g)%Q.

#[export] Instance on_grid_proper g : Proper (Qeq ==> iff) (on_grid g).
Proof. intros v w E. unfold on_grid. by setoid_rewrite E. Qed.

Lemma grid_le g e z : g <= e -> on_grid g (inject_Z z * bpow e).
Proof.
  intros H. exists (z * 2 ^ (e - g)). rewrite inject_Z_mult, <- bpow_Z, <- Qmult_assoc, <- bpow_plus by lia.
  by rewrite Z.sub_add.
Qed.

Lemma grid_opp g v : on_grid g v -> on_grid g (- v).
Proof. intros [z E]. exists (- z). rewrite E, inject_Z_opp. ring. Qed.

Lemma grid_plus g v w : on_grid g v -> on_grid g w -> on_grid g (v + w).
Proof. intros [z E] [y F]. exists (z + y). rewrite E, F, inject_Z_plus. ring. Qed.

Lemma grid_small g v : on_grid g v -> (v == 0)%Q \/ (bpow g <= Qabs v)%Q.
Proof.
  intros [z E]. pose proof (bpow_pos g). destruct (Z.eq_dec z 0) as [->|Hz]; [left; rewrite E; change (inject_Z 0) with 0%Q; ring|].
  right. rewrite E, Qabs_Qmult, (Qabs_pos (bpow g)) by lra. change (Qabs (inject_Z z)) with (inject_Z (Z.abs z)).
  assert (1 <= inject_Z (Z.abs z))%Q by (change 1%Q with (inject_Z 1); rewrite <- Zle_Qle; lia).
  assert (1 * bpow g <= inject_Z (Z.abs z) * bpow g)%Q by (apply Qmult_le_compat_r; lra). lra.
Qed.

Lemma grid_divide g e m : on_grid g (inject_Z m * bpow e) -> e <= g -> (2 ^ (g - e) | m).
Proof.
  intros [z E] He. exists z. apply inject_Z_injective. rewrite inject_Z_mult, <- bpow_Z by lia.
  pose proof (bpow_pos e). apply (Qmult_inj_r _ _ (bpow e)); [lra|].
  rewrite E, <- Qmult_assoc, <- bpow_plus. by rewrite Z.sub_add.
Qed.

Lemma round_grid g s m e : -1074 <= e -> Zdigits2 (Zpos m) + e <= 1000 ->
  on_grid g (inject_Z (Zpos m) * bpow e) -> on_grid g (valQ (binary_round PREC EMAX s m e)).
Proof.
  intros He Hd Hg. unfold binary_round. rewrite fexp_eq. change (Zpos (digits2_pos m)) with (Zdigits2 (Zpos m)).
  set (e1 := Z.max (Zdigits2 (Zpos m) + e - 53) (-1074)).
  destruct (shl_align_eq m e e1) as (m' & -> & Hm'). set (e0 := Z.min e e1) in *.
  replace (Z.max 0 (e - e1)) with (e - e0) in Hm' by lia.
  assert (Hdm : Zdigits2 (Zpos m') + e0 = Zdigits2 (Zpos m) + e)
    by (rewrite Hm', digits_mul_pow2, Zdigits2_log2 by lia; lia).
  assert (Hv : (inject_Z (Zpos m) * bpow e == inject_Z (Zpos m') * bpow e0)%Q).
  { rewrite Hm', inject_Z_mult, <- bpow_Z, <- Qmult_assoc, <- bpow_plus by lia. by rewrite Z.sub_add. }
  rewrite Hv in Hg.
  destruct (round_core s (Zpos m') e0 loc_Exact (Zpos m') 1) as (mr & Hmr & _ & Hex & _ & ->);
    [lia|lia|unfold bracket; cbn -[Z.mul]; lia|].
  rewrite Hdm in *. fold e1 in Hex |- *. replace (Z.max e0 e1) with e1 in * by lia.
  destruct (pack_value s mr e1 Hmr ltac:(lia)) as [_ Hp]. rewrite Hp.
  enough (H : on_grid g (inject_Z mr * bpow e1)) by (destruct s; cbn [signedQ]; [by apply grid_opp|done]).
  destruct (Z.le_gt_cases e1 g) as [H|H]; [|apply grid_le; lia].
  assert (He0 : e0 <= e1) by (unfold e0; lia). assert (Hdiv : (2 ^ (e1 - e0) | Zpos m')).
  { transitivity (2 ^ (g - e0)); [|apply (grid_divide g e0); [exact Hg|lia]].
    exists (2 ^ (g - e1)). rewrite <- Z.pow_add_r by lia. f_equal. lia. }
  rewrite !Z.mul_1_r in Hex. specialize (Hex Hdiv).
  replace e1 with (e1 - e0 + e0) by lia. rewrite bpow_plus, (bpow_Z (e1 - e0)), Qmult_assoc, <- inject_Z_mult, Hex by lia.
  exact Hg.
Qed.

Lemma fadd_grid g x y : finite x -> finite y -> is_double x -> is_double y ->
  (Qabs (valQ x + valQ y) < bpow 1000)%Q -> on_grid g (valQ x + valQ y) -> on_grid g (valQ (x + y)%D).
Proof.
  intros Hfx Hfy Hx Hy Hb Hg.
  destruct x as [sx| | |sx p ex]; [|done|done|]; (destruct y as [sy| | |sy q ey]; [|done|done|]).
  - exists 0. destruct sx, sy; reflexivity.
  - change (S754_zero sx + S754_finite sy q ey)%D with (S754_finite sy q ey).
    cbn [valQ] in Hg |- *. by rewrite Qplus_0_l in Hg.
  - change (S754_finite sx p ex + S754_zero sy)%D with (S754_finite sx p ex).
    cbn [valQ] in Hg |- *. by rewrite Qplus_0_r in Hg.
  - apply finite_digits in Hx as (_ & Hex & _), Hy as (_ & Hey & _). revert Hb Hg.
    destruct (fadd_mantissa sx p ex sy q ey) as (z & -> & E). rewrite E. intros Hb Hg.
    assert (He : -1074 <= Z.min ex ey) by lia. generalize dependent (Z.min ex ey). intros ez _ Hb Hg He.
    pose proof (fun r => digits_bound r ez 1000) as Hd. destruct z as [|r|r]; cbn [binary_normalize].
    + by exists 0.
    + apply round_grid; [done| |done]. apply Hd. eapply Qle_lt_trans; [apply Qle_Qabs|exact Hb].
    + assert (E' : (inject_Z (Zneg r) * bpow ez == - (inject_Z (Zpos r) * bpow ez))%Q)
        by (rewrite <- Pos2Z.opp_pos, inject_Z_opp; ring).
      rewrite E' in Hb, Hg. rewrite Qabs_opp in Hb.
      apply round_grid; [done|apply Hd; eapply Qle_lt_trans; [apply Qle_Qabs|exact Hb]|].
      apply grid_opp in Hg. by rewrite Qopp_involutive in Hg.
Qed.

(** ** Products *)

(** Zero, or too large to be subnormal. *)
Definition sizeable (x : double) : Prop := (valQ x == 0)%Q \/ (bpow (-400) <= Qabs (valQ x))%Q.

Lemma Qabs_finite s p e : (Qabs (valQ (S754_finite s p e)) == inject_Z (Zpos p) * bpow e)%Q.
Proof.
  pose proof (inject_pos (Zpos p) ltac:(lia)). pose proof (bpow_pos e).
  assert (0 < inject_Z (Zpos p) * bpow e)%Q by (by apply Qmult_lt_0_compat).
  destruct s; cbn [valQ]; [|by apply Qabs_pos, Qlt_le_weak].
  assert (E : (- inject_Z (Zpos p) * bpow e == - (inject_Z (Zpos p) * bpow e))%Q) by ring.
  rewrite E, Qabs_opp. by apply Qabs_pos, Qlt_le_weak.
Qed.

Lemma sizeable_digits s p e : is_double (S754_finite s p e) -> sizeable (S754_finite s p e) ->
  Zdigits2 (Zpos p) = 53 /\ -453 <= e.
Proof.
  intros Hx [H0|Hs].
  - exfalso. pose proof (Qabs_finite s p e) as E. rewrite H0 in E. pose proof (inject_pos (Zpos p) ltac:(lia)). pose proof (bpow_pos e).
    assert (0 < inject_Z (Zpos p) * bpow e)%Q by (by apply Qmult_lt_0_compat). change (Qabs 0) with 0%Q in E. lra.
  - rewrite Qabs_finite in Hs. apply finite_digits in Hx as (Hd & He & Hc).
    assert (H : -400 < Zdigits2 (Zpos p) + e).
    { apply bpow_lt_inv. rewrite bpow_plus. eapply Qle_lt_trans; [exact Hs|].
      apply Qmult_lt_compat_r; [apply bpow_pos|]. rewrite bpow_Z, <- Zlt_Qlt by lia. apply Zdigits2_bounds. lia. }
    lia.
Qed.

Lemma valQ_times s p e s' q e' : (valQ (S754_finite s p e) * valQ (S754_finite s' q e') ==
  signedQ (xorb s s') (inject_Z (Zpos (p * q)) * bpow (e + e')))%Q.
Proof.
  destruct s, s'; cbn [valQ xorb signedQ]; rewrite bpow_plus, Pos2Z.inj_mul, inject_Z_mult; ring.
Qed.

Lemma fmul_rounds x y : finite x -> finite y -> is_double x -> is_double y -> sizeable x -> sizeable y ->
  (Qabs (valQ x * valQ y) < bpow 1000)%Q -> rounds (x * y)%D (valQ x * valQ y).
Proof.
  intros Hfx Hfy Hx Hy Sx Sy Hb.
  destruct x as [sx| | |sx p ex]; [|done|done|]; (destruct y as [sy| | |sy q ey]; [|done|done|]).
  - by apply rounds_self.
  - apply rounds_self; [done..|]. cbn [valQ]. change (valQ (S754_zero sx * S754_finite sy q ey)%D) with 0%Q. ring.
  - apply rounds_self; [done..|]. cbn [valQ]. change (valQ (S754_finite sx p ex * S754_zero sy)%D) with 0%Q. ring.
  - destruct (sizeable_digits _ _ _ Hx Sx) as [Dx Ex], (sizeable_digits _ _ _ Hy Sy) as [Dy Ey].
    assert (Hlo : 105 <= Zdigits2 (Zpos (p * q))).
    { rewrite Zdigits2_log2, Pos2Z.inj_mul in * by lia.
      pose proof (Z.log2_mul_below (Zpos p) (Zpos q) ltac:(lia) ltac:(lia)). lia. }
    rewrite valQ_times in Hb |- *. unfold fmul, SFmul.
    rewrite <- binary_round_no_shift by lia. apply round_any; [lia|]. apply digits_bound.
    eapply Qle_lt_trans; [|exact Hb]. destruct (xorb sx sy); cbn [signedQ]; [rewrite Qabs_opp|]; apply Qle_Qabs.
Qed.

(** A difference of normal numbers is zero or not small. *)
Lemma fsub_sizeable x y ex ey : normal x ex -> normal y ey -> -300 <= ex <= 300 -> -300 <= ey <= 300 ->
  rounds (x - y)%D (valQ x - valQ y) -> sizeable (x - y)%D.
Proof.
  intros (p & -> & Hp) (q & -> & Hq) Hex Hey (_ & _ & Hr). set (v := (valQ (S754_finite false p ex) - valQ (S754_finite false q ey))%Q) in Hr.
  set (g := Z.min ex ey). assert (Ev : (v == inject_Z (Zpos p * 2 ^ (ex - g) - Zpos q * 2 ^ (ey - g)) * bpow g)%Q).
  { assert (Hs : forall a b, (inject_Z (a - b) == inject_Z a - inject_Z b)%Q)
      by (intros a b; rewrite <- Z.add_opp_r, inject_Z_plus, inject_Z_opp; ring).
    unfold v. cbn [valQ]. rewrite Hs, !inject_Z_mult, <- !bpow_Z, !bpow_minus by lia.
    field. pose proof (bpow_pos g). lra. }
  set (z := Zpos p * 2 ^ (ex - g) - Zpos q * 2 ^ (ey - g)) in Ev. clearbody z v. pose proof (bpow_pos g) as Hg.
  unfold u53 in Hr. change (2 ^ 53)%positive with 9007199254740992%positive in Hr.
  destruct (Z.eq_dec z 0) as [->|Hz].
  - left. assert (E0 : (v == 0)%Q) by (rewrite Ev; change (inject_Z 0) with 0%Q; ring).
    rewrite E0 in Hr. change (Qabs 0) with 0%Q in Hr. apply Qabs_Qle_condition in Hr. lra.
  - right. assert (Hv : (bpow g <= Qabs v)%Q).
    { rewrite Ev, Qabs_Qmult, (Qabs_pos (bpow g)) by lra. change (Qabs (inject_Z z)) with (inject_Z (Z.abs z)).
      assert (1 <= inject_Z (Z.abs z))%Q by (change 1%Q with (inject_Z 1); rewrite <- Zle_Qle; lia).
      assert (1 * bpow g <= inject_Z (Z.abs z) * bpow g)%Q by (apply Qmult_le_compat_r; lra). lra. }
    pose proof (Qabs_triangle_reverse v (valQ (S754_finite false p ex - S754_finite false q ey)%D)) as Ht.
    rewrite (Qabs_Qminus v) in Ht.
    pose proof (bpow_le (-399) g ltac:(lia)) as Hl. change (-399) with (-400 + 1) in Hl. rewrite bpow_plus in Hl.
    change (bpow 1) with 2%Q in Hl. pose proof (bpow_pos (-400)). lra.
Qed.
