(* ===== verification/CString.v ===== *)
(** * Fixed-size char arrays and the C string functions

    A [char\[n\]] is a list of [n] bytes.  The functions of [<cstring>] the
    sources call are modelled here: [strncpy], [memcpy], [memchr], the C
    string held by an array, and the [memcpy] of eight bytes into a
    [uint64_t] that every [sym_key] of the program performs. *)

From S2P Require Import Prelude.
From Stdlib Require Import Ascii.

Local Open Scope Z_scope.

Definition zeros (n : nat) : bytes := replicate n NUL.

(** The C string held by an array: the bytes before the first NUL (the whole
    array when it holds none). *)
Fixpoint c_str (a : bytes) : bytes :=
  match a with
  | [] => []
  | c :: r => if decide (c = NUL) then [] else c :: c_str r
  end.

(** [strncpy(dst, src, n)]: at most [n] bytes of the C string, padded with
    NUL up to [n]; the bytes of [dst] from [n] on are kept. *)
Definition strncpy (dst src : bytes) (n : nat) : bytes :=
  let s := take n (c_str src) in
  s ++ zeros (n - length s) ++ drop n dst.

(** [memcpy(dst, src, n)] with [n] at most both sizes. *)
Definition memcpy (dst src : bytes) (n : nat) : bytes := take n src ++ drop n dst.

(** [memchr(s, c, length s)]: the offset of the first [c]. *)
Fixpoint memchr (s : bytes) (c : ascii) : option nat :=
  match s with
  | [] => None
  | d :: r => if decide (d = c) then Some 0%nat else S <$> memchr r c
  end.

Definition byte_val (c : ascii) : Z := Z.of_N (N_of_ascii c).

(** A plain [char] promoted to [int] (signed on the supported targets). *)
Definition char_val (c : ascii) : Z :=
  if byte_val c <? 128 then byte_val c else byte_val c - 256.

(** The [uint64_t] whose object representation is the array (little-endian
    targets: x86-64 and ARM64). *)
Fixpoint le_word (a : bytes) : Z :=
  match a with
  | [] => 0
  | c :: r => byte_val c + 256 * le_word r
  end.

(** ** Lemmas *)

Lemma byte_val_range c : 0 <= byte_val c < 256.
Proof. destruct c as [[] [] [] [] [] [] [] []]; vm_compute; split; congruence. Qed.

Lemma byte_val_inj c d : byte_val c = byte_val d -> c = d.
Proof.
  unfold byte_val; intros H. apply (inj Z.of_N) in H.
  by rewrite <- (ascii_N_embedding c), H, ascii_N_embedding.
Qed.

Lemma le_word_range a : 0 <= le_word a < 256 ^ Z.of_nat (length a).
Proof.
  induction a as [|c a IH]; cbn [le_word length]; [lia|].
  rewrite Nat2Z.inj_succ, Z.pow_succ_r by lia.
  pose proof (byte_val_range c). lia.
Qed.

Lemma le_word_inj a b : length a = length b -> le_word a = le_word b -> a = b.
Proof.
  revert b; induction a as [|c a IH]; intros [|d b] Hlen Heq; try discriminate; [done|].
  cbn [le_word] in Heq. cbn in Hlen.
  pose proof (byte_val_range c). pose proof (byte_val_range d).
  assert (byte_val c = byte_val d /\ le_word a = le_word b) as [Hc Ha] by lia.
  f_equal; [by apply byte_val_inj|apply IH; [lia|done]].
Qed.

Lemma c_str_length a : (length (c_str a) <= length a)%nat.
Proof. induction a as [|c a IH]; cbn; [lia|]. case_decide; cbn; lia. Qed.

Lemma c_str_no_nul a : NUL ∉ c_str a.
Proof.
  induction a as [|c a IH]; cbn; [apply not_elem_of_nil|].
  case_decide; [apply not_elem_of_nil|]. apply not_elem_of_cons; auto.
Qed.

Lemma c_str_app_nul s r : NUL ∉ s -> c_str (s ++ NUL :: r) = s.
Proof.
  induction s as [|c s IH]; cbn; [done|].
  intros [Hc Hs]%not_elem_of_cons. rewrite decide_False by congruence.
  by rewrite IH.
Qed.

Lemma c_str_id s : NUL ∉ s -> c_str s = s.
Proof.
  induction s as [|c s IH]; cbn; [done|].
  intros [Hc Hs]%not_elem_of_cons. rewrite decide_False by congruence.
  by rewrite IH.
Qed.

Lemma zeros_length n : length (zeros n) = n.
Proof. apply length_replicate. Qed.

Lemma strncpy_length dst src n :
  (n <= length dst)%nat -> length (strncpy dst src n) = length dst.
Proof.
  intros. unfold strncpy.
  rewrite !length_app, zeros_length, length_drop, length_take.
  lia.
Qed.

Lemma memcpy_length dst src n :
  (n <= length dst)%nat -> (n <= length src)%nat -> length (memcpy dst src n) = length dst.
Proof. intros. unfold memcpy. rewrite length_app, length_take, length_drop. lia. Qed.

Lemma memchr_Some s c i : memchr s c = Some i ->
  s !! i = Some c /\ c ∉ take i s.
Proof.
  revert i; induction s as [|d s IH]; intros i; cbn; [done|].
  case_decide as Hd.
  - intros [= <-]. cbn. split; [by subst|apply not_elem_of_nil].
  - destruct (memchr s c) as [j|]; cbn; [|done]. intros [= <-].
    destruct (IH j eq_refl) as [H1 H2]. cbn. split; [done|].
    apply not_elem_of_cons; auto.
Qed.

Lemma memchr_None s c : memchr s c = None <-> c ∉ s.
Proof.
  induction s as [|d s IH]; cbn.
  - split; [intros _; apply not_elem_of_nil|done].
  - case_decide as Hd.
    + subst. split; [done|]. intros H; exfalso; apply H; left.
    + rewrite fmap_None, IH, not_elem_of_cons.
      split; [intros H; split; [congruence|done]|by intros [_ H]].
Qed.

(** The first occurrence in a concatenation whose first part has none. *)
Lemma memchr_app s c r : c ∉ s -> memchr (s ++ c :: r) c = Some (length s).
Proof.
  induction s as [|d s IH]; cbn.
  - by rewrite decide_True.
  - intros [Hd Hs]%not_elem_of_cons. rewrite decide_False by congruence.
    by rewrite IH.
Qed.

(** A zero-initialised array after [strncpy] holds the truncated string and
    is NUL-terminated as long as [n] leaves room. *)
Lemma c_str_strncpy m src n :
  (n < m)%nat -> c_str (strncpy (zeros m) src n) = take n (c_str src).
Proof.
  intros Hnm. unfold strncpy, zeros.
  rewrite drop_replicate, <- replicate_add.
  set (s := take n (c_str src)).
  assert (Hs : (length s <= n)%nat) by (unfold s; rewrite length_take; lia).
  replace (n - length s + (m - n))%nat with (S (m - length s - 1)) by lia.
  cbn [replicate]. apply c_str_app_nul.
  intros H. apply elem_of_take in H as (i & H & _).
  by apply (c_str_no_nul src), list_elem_of_lookup; exists i.
Qed.

#[export] Hint Rewrite strncpy_length memcpy_length using lia : trading.
#[export] Hint Rewrite zeros_length : trading.
