(* ===== verification/Messages.v ===== *)
(** * The plain-data messages: [Order], [Execution] and [Tick]

    Structs of order.h, execution.h and tick.h.  A [char\[n\]] field is a list of
    bytes; the intrusive link [Order::next] is a pointer into the slab of
    the order pool, i.e. an optional slot index. *)

From S2P Require Import Prelude Float64 CString.

Local Open Scope Z_scope.

(** A [T*] into a slab: [None] is [nullptr], [Some i] is [&slab_\[i\]]. *)
Abbreviation ptr := (option Z).
Abbreviation nullptr := (@None Z).

Inductive OrderType := BUY | SELL.

#[export] Instance OrderType_eq_dec : EqDecision OrderType.
Proof. solve_decision. Defined.

Record Order := mkOrder {
  id : bytes;               (* char[16] *)
  symbol : bytes;           (* char[8] *)
  price : double;
  order_type : OrderType;
  quantity : Z;             (* int32_t *)
  arrival_ns : Z;           (* int64_t *)
  next : ptr }.

(** [Order order{}]: value initialisation. *)
Definition Order_zero : Order := mkOrder (zeros 16) (zeros 8) fzero BUY 0 0 nullptr.

#[export] Instance Order_inhabited : Inhabited Order := populate Order_zero.

Definition set_next (o : Order) (n : ptr) : Order :=
  mkOrder (id o) (symbol o) (price o) (order_type o) (quantity o) (arrival_ns o) n.

Definition set_quantity (o : Order) (q : Z) : Order :=
  mkOrder (id o) (symbol o) (price o) (order_type o) q (arrival_ns o) (next o).

Inductive Side := Side_BUY | Side_SELL.

#[export] Instance Side_eq_dec : EqDecision Side.
Proof. solve_decision. Defined.

Record Execution := mkExecution {
  buy_id : bytes;           (* char[16] *)
  sell_id : bytes;          (* char[16] *)
  exec_symbol : bytes;      (* char[8] *)
  trade_price : double;
  exec_quantity : double;
  side : Side;
  exec_arrival_ns : Z;      (* int64_t *)
  order_arrival_ns : Z }.   (* int64_t *)

(** [Execution exec{}]. *)
Definition Execution_zero : Execution :=
  mkExecution (zeros 16) (zeros 16) (zeros 8) fzero fzero Side_BUY 0 0.

Record Tick := mkTick {
  tick_symbol : bytes;      (* char[8] *)
  bid : double;
  ask : double;
  last_price : double;
  timestamp_ns : Z }.       (* int64_t *)

(** An order as the matching rules see it: everything but its position in
    memory. *)
Definition payload (o : Order) : Order := set_next o nullptr.

Lemma payload_set_next o n : payload (set_next o n) = payload o.
Proof. done. Qed.

Lemma payload_set_quantity o q : payload (set_quantity o q) = set_quantity (payload o) q.
Proof. done. Qed.

Lemma payload_payload o : payload (payload o) = payload o.
Proof. done. Qed.

#[export] Hint Rewrite payload_set_next payload_set_quantity payload_payload : trading.
