(* ===== verification/ObjectPool.v ===== *)
(** * ObjectPool: the slab allocator of object_pool.h

    [slab_] is the vector of objects, [free_stack_] the vector of pointers
    into it, [top_] the height of the stack.  The template parameter
    [CAPACITY] is a section variable.  The contract: seen through [pool_rep],
    the pool is a LIFO stack of free slots; [alloc] pops it, [release]
    pushes. *)

From S2P Require Import Prelude Messages.

Local Open Scope Z_scope.

Section ObjectPool.
Context {T : Type} (T_zero : T).
Variable CAPACITY : Z.

Record ObjectPool := mkPool {
  slab_ : gmap Z T;
  free_stack_ : gmap Z ptr;
  top_ : Z }.                 (* size_t *)

(** The constructor: [free_stack_\[i\] = &slab_\[i\]] for every [i]. *)
Fixpoint init_free_stack (n : nat) : gmap Z ptr :=
  match n with
  | O => ∅
  | S m => <[Z.of_nat m := Some (Z.of_nat m)]> (init_free_stack m)
  end.

Definition ObjectPool_new : ObjectPool :=
  mkPool ∅ (init_free_stack (Z.to_nat CAPACITY)) CAPACITY.

Definition alloc (p : ObjectPool) : ptr * ObjectPool :=
  if top_ p =? 0 then (nullptr, p)
  else let t := top_ p - 1 in
       (vget nullptr (free_stack_ p) t, mkPool (slab_ p) (free_stack_ p) t).

Definition release (p : ObjectPool) (obj : ptr) : ObjectPool :=
  mkPool (slab_ p) (<[top_ p := obj]> (free_stack_ p)) (wrap_u64 (top_ p + 1)).

Definition available (p : ObjectPool) : Z := top_ p.

Definition capacity : Z := CAPACITY.

(** Reading and writing an object through a pointer into the slab. *)
Definition deref (p : ObjectPool) (i : Z) : T := vget T_zero (slab_ p) i.

Definition store (p : ObjectPool) (i : Z) (x : T) : ObjectPool :=
  mkPool (<[i := x]> (slab_ p)) (free_stack_ p) (top_ p).

(** ** The abstract view: a stack of free slots, bottom first *)

Definition pool_rep (p : ObjectPool) (fs : list Z) : Prop :=
  top_ p = Z.of_nat (length fs) /\
  forall i x, fs !! i = Some x -> vget nullptr (free_stack_ p) (Z.of_nat i) = Some x.

Lemma init_free_stack_lookup n i :
  (i < n)%nat -> init_free_stack n !! Z.of_nat i = Some (Some (Z.of_nat i)).
Proof.
  induction n as [|n IH]; cbn [init_free_stack]; [lia|]; intros Hi.
  destruct (decide (i = n)) as [->|]; [by rewrite lookup_insert_eq|].
  rewrite lookup_insert_ne by lia. apply IH; lia.
Qed.

Lemma pool_rep_new : 0 <= CAPACITY ->
  pool_rep ObjectPool_new (seqZ 0 CAPACITY).
Proof.
  intros HC. split; [rewrite length_seqZ; cbn; lia|].
  intros i x [Hx Hi]%lookup_seqZ. unfold vget; cbn.
  rewrite init_free_stack_lookup by lia. cbn. f_equal; lia.
Qed.

Lemma alloc_nil p : pool_rep p [] -> alloc p = (nullptr, p).
Proof. intros [Ht _]. unfold alloc. by rewrite Ht. Qed.

Lemma alloc_snoc p fs x : pool_rep p (fs ++ [x]) ->
  exists p', alloc p = (Some x, p') /\ pool_rep p' fs /\ slab_ p' = slab_ p.
Proof.
  intros [Ht Hf]. rewrite length_app in Ht; cbn in Ht. unfold alloc.
  rewrite (proj2 (Z.eqb_neq _ _)) by lia.
  replace (top_ p - 1) with (Z.of_nat (length fs)) by lia.
  rewrite (Hf (length fs) x) by (by rewrite lookup_app_r, Nat.sub_diag by lia).
  eexists; split; [done|]. split; [|done]. split; [done|].
  intros i y Hi; cbn. apply Hf. by apply lookup_app_l_Some.
Qed.

Lemma release_rep p fs x :
  Z.of_nat (length fs) + 1 < 2 ^ 64 -> pool_rep p fs ->
  pool_rep (release p (Some x)) (fs ++ [x]) /\ slab_ (release p (Some x)) = slab_ p.
Proof.
  intros Hlen [Ht Hf]. split; [|done]. split.
  - cbn. rewrite wrap_u_id by lia. rewrite length_app; cbn; lia.
  - intros i y [Hi|[Hi Hy]]%lookup_app_Some; cbn.
    + apply lookup_lt_Some in Hi as Hlt. rewrite vget_insert_ne by lia. by apply Hf.
    + apply list_lookup_singleton_Some in Hy as [? ->].
      replace (Z.of_nat i) with (top_ p) by lia. by rewrite vget_insert_eq.
Qed.

Lemma store_rep p fs i x : pool_rep p fs -> pool_rep (store p i x) fs.
Proof. done. Qed.

Lemma pool_rep_available p fs : pool_rep p fs -> available p = Z.of_nat (length fs).
Proof. by intros [? _]. Qed.

Lemma deref_store p i j x :
  deref (store p i x) j = if decide (i = j) then x else deref p j.
Proof. apply vget_insert. Qed.
End ObjectPool.

Arguments ObjectPool : clear implicits.
Arguments mkPool {_} _ _ _.
Arguments slab_ {_} _.
Arguments free_stack_ {_} _.
Arguments top_ {_} _.

#[export] Hint Resolve store_rep : trading.

(** ** Clients of the pool *)

Section Client.
Context {T : Type}.
Variable CAPACITY : Z.

Inductive pool_op := Alloc | Release (x : Z).

(** A client that releases only what it holds ([None] otherwise). *)
Fixpoint pool_run (p : ObjectPool T) (held : list Z) (ops : list pool_op) :
    option (ObjectPool T * list Z) :=
  match ops with
  | [] => Some (p, held)
  | Alloc :: ops' =>
      let '(x, p') := alloc p in
      pool_run p' (match x with Some x => x :: held | None => held end) ops'
  | Release x :: ops' =>
      if decide (x ∈ held) then
        pool_run (release p (Some x)) (filter (fun y => y <> x) held) ops'
      else None
  end.

Definition pool_split (p : ObjectPool T) (held : list Z) : Prop :=
  exists fs, pool_rep p fs /\ fs ++ held ≡ₚ seqZ 0 CAPACITY.

Lemma pool_split_facts p held : 0 <= CAPACITY -> pool_split p held ->
  NoDup held /\ (forall x, x ∈ held -> 0 <= x < CAPACITY) /\
  available p + Z.of_nat (length held) = CAPACITY.
Proof.
  intros HC (fs & Hrep & Hp). pose proof (NoDup_seqZ 0 CAPACITY) as Hnd.
  rewrite <- Hp in Hnd. apply NoDup_app in Hnd as (_ & _ & Hnd). split; [done|]. split.
  - intros x Hx. assert (x ∈ seqZ 0 CAPACITY) as Hin; [|apply elem_of_seqZ in Hin; lia].
    rewrite <- Hp. apply elem_of_app. by right.
  - apply Permutation_length in Hp. rewrite length_app, length_seqZ in Hp.
    rewrite (pool_rep_available _ _ Hrep). lia.
Qed.

Lemma filter_ne_id (x : Z) (l : list Z) : x ∉ l -> filter (fun y => y <> x) l = l.
Proof.
  induction l as [|y l IH]; [done|]. intros [? ?]%not_elem_of_cons.
  rewrite filter_cons, decide_True by congruence. f_equal. by apply IH.
Qed.

Lemma filter_ne_perm (x : Z) (l : list Z) : NoDup l -> x ∈ l -> x :: filter (fun y => y <> x) l ≡ₚ l.
Proof.
  induction 1 as [|y l Hy Hnd IH]; intros Hx; [by apply elem_of_nil in Hx|].
  rewrite filter_cons. destruct (decide (y = x)) as [->|Hne].
  - rewrite decide_False by congruence. by rewrite filter_ne_id.
  - rewrite decide_True by done. apply elem_of_cons in Hx as [->|Hx]; [done|].
    rewrite Permutation_swap. f_equiv. by apply IH.
Qed.

Lemma pool_run_split ops : forall p held p' held',
  0 <= CAPACITY < 2 ^ 64 -> pool_split p held -> pool_run p held ops = Some (p', held') ->
  pool_split p' held'.
Proof.
  induction ops as [|[|x] ops IH]; intros p held p' held' HC Hs Hrun; cbn [pool_run] in Hrun.
  - by injection Hrun as <- <-.
  - destruct Hs as (fs & Hrep & Hp). destruct fs as [|x fs _] using rev_ind.
    + rewrite (alloc_nil _ Hrep) in Hrun. eapply IH; [done| |exact Hrun]. by exists [].
    + destruct (alloc_snoc _ _ _ Hrep) as (p1 & E & Hrep1 & _). rewrite E in Hrun.
      eapply IH; [done| |exact Hrun]. exists fs. split; [done|].
      rewrite <- Hp. by rewrite <- app_assoc.
  - case_decide as Hx; [|done]. eapply IH; [done| |exact Hrun].
    destruct (pool_split_facts _ _ ltac:(lia) Hs) as (Hnd & _ & Hav).
    destruct Hs as (fs & Hrep & Hp).
    rewrite (pool_rep_available _ _ Hrep) in Hav.
    assert (Hlen : (length held <> 0)%nat) by (destruct held; [by apply elem_of_nil in Hx|done]).
    exists (fs ++ [x]). split; [apply release_rep; [lia|done]|].
    rewrite <- app_assoc. cbn. by rewrite filter_ne_perm.
Qed.
End Client.

(** The object pool never hands out an object twice: whatever sequence of
    [alloc] and [release] a client makes that releases only what it holds, the
    objects it holds are distinct slots of the slab, they and the available
    ones are together the capacity, and [alloc] returns [nullptr] exactly when
    all are held. *)
Theorem pool_no_double_allocation {T : Type} (CAPACITY : Z) (ops : list pool_op)
    (p : ObjectPool T) (held : list Z) :
  0 <= CAPACITY < 2 ^ 64 ->
  pool_run (ObjectPool_new CAPACITY) [] ops = Some (p, held) ->
  NoDup held /\ (forall x, x ∈ held -> 0 <= x < CAPACITY) /\
  available p + Z.of_nat (length held) = capacity CAPACITY /\
  ((alloc p).1 = nullptr <-> Z.of_nat (length held) = CAPACITY).
Proof.
  intros HC Hrun.
  assert (Hs : pool_split CAPACITY p held).
  { eapply pool_run_split; [done| |exact Hrun]. exists (seqZ 0 CAPACITY).
    split; [apply pool_rep_new; lia|by rewrite app_nil_r]. }
  destruct (pool_split_facts CAPACITY p held ltac:(lia) Hs) as (H1 & H2 & H3).
  split_and!; [done|done|done|]. destruct Hs as (fs & Hrep & _).
  rewrite (pool_rep_available _ _ Hrep) in H3. unfold capacity in H3. destruct fs as [|x fs _] using rev_ind.
  - rewrite (alloc_nil _ Hrep). cbn [length fst] in *. split; [lia|done].
  - destruct (alloc_snoc _ _ _ Hrep) as (p1 & -> & _). rewrite length_app in H3. cbn [length fst] in *.
    split; [done|lia].
Qed.

Lemma pool_no_double_allocation_witness :
  exists p : ObjectPool Z,
    pool_run (ObjectPool_new 3) [] [Alloc; Alloc; Release 2; Alloc; Alloc; Alloc] = Some (p, [0; 2; 1]) /\
    available p + 3 = capacity 3 /\ NoDup [0; 2; 1] /\ (alloc p).1 = nullptr.
Proof.
  eexists. split; [vm_compute; reflexivity|].
  pose proof (pool_no_double_allocation (T := Z) 3 [Alloc; Alloc; Release 2; Alloc; Alloc; Alloc] _
    [0; 2; 1] ltac:(lia) eq_refl) as (H1 & _ & H3 & H4).
  split; [exact H3|]. split; [exact H1|]. by apply H4.
Defined.
