(* ===== verification/PriceLevel.v ===== *)
(** * PriceLevel: the intrusive FIFO queue of order_book.h

    The list cells are the orders themselves, linked by [Order::next] through
    the slab of the pool.  [level_rep slab lv l] says that the level [lv]
    holds, front first, the orders in the slots [l]; the operations refine
    appending to and removing the head of that list. *)

From S2P Require Import Prelude Messages.

Local Open Scope Z_scope.

Record PriceLevel := mkPriceLevel {
  head : ptr;
  tail : ptr;
  count : Z }.      (* uint32_t *)

Definition PriceLevel_zero : PriceLevel := mkPriceLevel nullptr nullptr 0.

Abbreviation slab := (gmap Z Order).

(** The object a valid pointer designates. *)
Definition order_at (h : slab) (i : Z) : Order := vget Order_zero h i.

(** [p->next = n]. *)
Definition write_next (h : slab) (i : Z) (n : ptr) : slab :=
  <[i := set_next (order_at h i) n]> h.

Definition level_push (h : slab) (lv : PriceLevel) (o : Z) : slab * PriceLevel :=
  let h := write_next h o nullptr in
  let '(h, hd) :=
    match head lv with
    | None => (h, Some o)
    | Some _ =>
        match tail lv with
        | Some t => (write_next h t (Some o), head lv)
        | None => (h, head lv)     (* a null [tail] with a non-null [head] *)
        end
    end in
  (h, mkPriceLevel hd (Some o) (wrap_u32 (count lv + 1))).

Definition level_front (lv : PriceLevel) : ptr := head lv.

Definition level_pop_front (h : slab) (lv : PriceLevel) : ptr * PriceLevel :=
  match head lv with
  | None => (nullptr, lv)
  | Some o =>
      let hd := next (order_at h o) in
      (Some o,
       mkPriceLevel hd (match hd with Some _ => tail lv | None => nullptr end) (wrap_u32 (count lv - 1)))
  end.

Definition level_empty (lv : PriceLevel) : bool := match head lv with Some _ => false | None => true end.

(** ** Representation *)

(** The links of the slots [l] run from each slot to the next. *)
Definition chain (h : slab) (l : list Z) : Prop :=
  forall i x, l !! i = Some x -> next (order_at h x) = l !! S i.

Definition level_rep (h : slab) (lv : PriceLevel) (l : list Z) : Prop :=
  head lv = l !! 0%nat /\ tail lv = last l /\
  count lv = wrap_u32 (Z.of_nat (length l)) /\ chain h l /\ NoDup l.

Lemma level_rep_zero h : level_rep h PriceLevel_zero [].
Proof. repeat split; [|constructor]. intros i x H; done. Qed.

Lemma level_rep_front h lv l : level_rep h lv l -> level_front lv = l !! 0%nat.
Proof. by intros (? & _). Qed.

Lemma level_rep_empty h lv l : level_rep h lv l -> level_empty lv = bool_decide (l = []).
Proof.
  intros (Hh & _). unfold level_empty; rewrite Hh. by destruct l.
Qed.

Lemma order_at_write_next h i n j :
  order_at (write_next h i n) j =
  if decide (i = j) then set_next (order_at h i) n else order_at h j.
Proof. unfold order_at, write_next. apply vget_insert. Qed.

Lemma payload_write_next h i n j :
  payload (order_at (write_next h i n) j) = payload (order_at h j).
Proof. rewrite order_at_write_next. case_decide; by subst. Qed.

Lemma chain_frame h h' l :
  (forall x, x ∈ l -> next (order_at h' x) = next (order_at h x)) ->
  chain h l -> chain h' l.
Proof.
  intros Hf Hc i x Hi. rewrite Hf by (by eapply list_elem_of_lookup_2). by apply Hc.
Qed.

(** A level only depends on the links of its own slots. *)
Lemma level_rep_frame h h' lv l :
  (forall x, x ∈ l -> next (order_at h' x) = next (order_at h x)) ->
  level_rep h lv l -> level_rep h' lv l.
Proof.
  intros Hf (? & ? & ? & Hc & ?). repeat split; eauto using chain_frame.
Qed.

(** Linking [o] behind the last slot. *)
Lemma chain_snoc h l y o :
  chain h (l ++ [y]) -> NoDup (l ++ [y]) -> o ∉ l ++ [y] ->
  chain (write_next (write_next h o nullptr) y (Some o)) ((l ++ [y]) ++ [o]).
Proof.
  intros Hc Hnd Ho i x Hi. rewrite !order_at_write_next.
  assert (Hy : o <> y).
  { intros ->. apply Ho, elem_of_app. right. by apply list_elem_of_singleton. }
  assert (Hlast : (l ++ [y]) !! length l = Some y) by (by rewrite lookup_app_r, Nat.sub_diag).
  apply lookup_app_Some in Hi as [Hi|[Hi Hx]].
  - assert (x <> o) by (intros ->; apply Ho; by eapply list_elem_of_lookup_2).
    destruct (decide (y = x)) as [<-|Hyx].
    + assert (i = length l) as -> by exact (NoDup_lookup _ _ _ _ Hnd Hi Hlast).
      cbn. rewrite lookup_app_r by (rewrite length_app; cbn; lia).
      rewrite length_app; cbn. by replace (S (length l) - (length l + 1))%nat with 0%nat by lia.
    + rewrite decide_False by congruence. rewrite (Hc i x Hi).
      apply lookup_lt_Some in Hi as Hlt. rewrite length_app in Hlt; cbn in Hlt.
      assert (i <> length l) by (intros ->; congruence).
      symmetry. apply lookup_app_l. rewrite length_app; cbn; lia.
  - apply list_lookup_singleton_Some in Hx as [Hi0 <-].
    rewrite (decide_False (P := y = o)) by congruence. rewrite decide_True by done. cbn.
    symmetry. apply lookup_ge_None_2. rewrite !length_app in *; cbn in *; lia.
Qed.

Lemma level_push_rep h lv l o :
  level_rep h lv l -> o ∉ l ->
  let '(h', lv') := level_push h lv o in
  level_rep h' lv' (l ++ [o]) /\
  (forall x, payload (order_at h' x) = payload (order_at h x)) /\
  (forall x, x ∉ l -> x <> o -> order_at h' x = order_at h x).
Proof.
  intros (Hh & Ht & Hn & Hc & Hnd) Ho. unfold level_push. rewrite Hh, Ht.
  assert (Hnd' : NoDup (l ++ [o])).
  { apply NoDup_app. split; [done|]. split; [|apply NoDup_singleton].
    intros x Hx ->%list_elem_of_singleton. done. }
  assert (Hcount : wrap_u32 (count lv + 1) = wrap_u32 (Z.of_nat (length (l ++ [o])))).
  { rewrite Hn, wrap_u_add, length_app. f_equal. cbn; lia. }
  destruct l as [|y l'] using rev_ind; cbn [lookup list_lookup last].
  - cbn. repeat split; try done.
    + intros [|i] x; cbn; [intros [= <-]|done]. by rewrite order_at_write_next, decide_True.
    + intros x. apply payload_write_next.
    + intros x _ Hx. rewrite order_at_write_next, decide_False by congruence. done.
  - clear IHl'. rewrite last_snoc.
    assert (exists z, (l' ++ [y]) !! 0%nat = Some z) as [z Hz] by (destruct l'; cbn; eauto).
    rewrite Hz. split; [|split].
    + repeat split; cbn; [|by rewrite last_snoc|done| |done].
      * by rewrite lookup_app, Hz.
      * by apply chain_snoc.
    + intros x. by rewrite !payload_write_next.
    + intros x Hx Hxo. rewrite !order_at_write_next.
      assert (y <> x) by (intros ->; apply Hx, elem_of_app; right; by apply list_elem_of_singleton).
      by rewrite !decide_False by congruence.
Qed.

Lemma level_pop_rep h lv x l :
  level_rep h lv (x :: l) ->
  exists lv', level_pop_front h lv = (Some x, lv') /\ level_rep h lv' l.
Proof.
  intros (Hh & Ht & Hn & Hc & Hnd). unfold level_pop_front.
  cbn in Hh. rewrite Hh. eexists; split; [done|].
  pose proof (Hc 0%nat x eq_refl) as Hx. cbn in Hx. rewrite Hx.
  apply NoDup_cons in Hnd as [Hxl Hnd].
  repeat split; cbn; [| |intros i y Hi; by apply (Hc (S i))|done].
  - rewrite Ht. destruct l; done.
  - rewrite Hn. unfold Z.sub. rewrite wrap_u_add. f_equal. cbn [length]; lia.
Qed.

#[export] Hint Rewrite payload_write_next : trading.

(** ** A level is a FIFO queue *)

Inductive level_op := Push (o : Z) | Pop.

(** A client of one level, and what the level returns to it. *)
Fixpoint level_run (h : slab) (lv : PriceLevel) (ops : list level_op) : list ptr * slab * PriceLevel :=
  match ops with
  | [] => ([], h, lv)
  | Push o :: ops' => let '(h', lv') := level_push h lv o in level_run h' lv' ops'
  | Pop :: ops' =>
      let '(x, lv') := level_pop_front h lv in
      let '(outs, h', lv'') := level_run h lv' ops' in (x :: outs, h', lv'')
  end.

(** The reference queue; [None] when an order is pushed while it is queued. *)
Fixpoint fifo_run (l : list Z) (ops : list level_op) : option (list ptr * list Z) :=
  match ops with
  | [] => Some ([], l)
  | Push o :: ops' => if decide (o ∈ l) then None else fifo_run (l ++ [o]) ops'
  | Pop :: ops' =>
      '(outs, l') ← fifo_run (tl l) ops'; Some ((l !! 0%nat) :: outs, l')
  end.

Lemma level_run_rep ops : forall h lv l outs l',
  level_rep h lv l -> fifo_run l ops = Some (outs, l') ->
  exists h' lv', level_run h lv ops = (outs, h', lv') /\ level_rep h' lv' l'.
Proof.
  induction ops as [|[o|] ops IH]; intros h lv l outs l' Hrep Hrun; cbn [fifo_run level_run] in *.
  - injection Hrun as <- <-. eauto.
  - case_decide as Ho; [done|]. pose proof (level_push_rep h lv l o Hrep Ho) as Hp.
    destruct (level_push h lv o) as [h1 lv1]. destruct Hp as (Hrep1 & _). eauto.
  - destruct (fifo_run (tl l) ops) as [[outs1 l1]|] eqn:E; [|done]. injection Hrun as <- <-.
    destruct l as [|x l].
    + assert (Hpop : level_pop_front h lv = (nullptr, lv)).
      { destruct Hrep as (Hh & _). unfold level_pop_front. by rewrite Hh. }
      rewrite Hpop. destruct (IH _ _ _ _ _ Hrep E) as (h' & lv' & -> & H). eauto.
    + destruct (level_pop_rep h lv x l Hrep) as (lv1 & -> & Hrep1).
      destruct (IH _ _ _ _ _ Hrep1 E) as (h' & lv' & -> & H). eauto.
Qed.

(** A price level is a FIFO queue: as long as no order is pushed while it
    is queued, any sequence of [push] and [pop_front] on an empty level returns
    what a list queue returns, whatever the rest of the slab holds, and [empty]
    and [front] agree with the queue at the end. *)
Theorem level_fifo (h : slab) (ops : list level_op) (outs : list ptr) (l : list Z) :
  fifo_run [] ops = Some (outs, l) ->
  exists h' lv', level_run h PriceLevel_zero ops = (outs, h', lv') /\
    level_front lv' = l !! 0%nat /\ level_empty lv' = bool_decide (l = []) /\
    count lv' = wrap_u32 (Z.of_nat (length l)).
Proof.
  intros H. destruct (level_run_rep ops h _ _ _ _ (level_rep_zero h) H) as (h' & lv' & Hr & Hrep).
  exists h', lv'. split; [done|]. split; [by eapply level_rep_front|].
  split; [by eapply level_rep_empty|]. apply Hrep.
Qed.

Lemma level_fifo_witness : exists h' lv',
  level_run ∅ PriceLevel_zero [Push 4; Push 9; Pop; Push 4; Pop; Pop; Pop; Push 2] =
    ([Some 4; Some 9; Some 4; nullptr], h', lv') /\ level_front lv' = Some 2 /\
  level_empty lv' = false /\ count lv' = 1.
Proof. exact (level_fifo ∅ [Push 4; Push 9; Pop; Push 4; Pop; Pop; Pop; Push 2] _ [2] eq_refl). Defined.
