(* ===== verification/TickBitset.v ===== *)
(** * The occupancy bitset of [SymbolBook]

    One bit per tick in 64-bit words; [bid_set], [bid_clear], [highest_bid]
    and their ask counterparts of order_book.h.  The scans are proved to
    return the nearest occupied tick. *)

From S2P Require Import Prelude.

Local Open Scope Z_scope.

Definition MAX_TICKS : Z := 500000.
Definition BITSET_WORDS : Z := (MAX_TICKS + 63) / 64.

(** [std::array<uint64_t, BITSET_WORDS>], zero-initialised. *)
Abbreviation words := (gmap Z Z).
Definition word (b : words) (w : Z) : Z := vget 0 b w.

Definition not_u64 (x : Z) : Z := 2 ^ 64 - 1 - x.

(** [bits\[t >> 6\] |= 1ULL << (t & 63)] *)
Definition bit_set (b : words) (t : Z) : words :=
  let w := Z.shiftr t 6 in
  <[w := Z.lor (word b w) (wrap_u64 (Z.shiftl 1 (Z.land t 63)))]> b.

(** [bits\[t >> 6\] &= ~(1ULL << (t & 63))] *)
Definition bit_clear (b : words) (t : Z) : words :=
  let w := Z.shiftr t 6 in
  <[w := Z.land (word b w) (not_u64 (wrap_u64 (Z.shiftl 1 (Z.land t 63))))]> b.

(** [__builtin_clzll] and [__builtin_ctzll] of a non-zero 64-bit word. *)
Definition builtin_clzll (x : Z) : Z := 63 - Z.log2 x.

Fixpoint pos_ctz (p : positive) : Z :=
  match p with
  | xO q => 1 + pos_ctz q
  | _ => 0
  end.

Definition builtin_ctzll (x : Z) : Z :=
  match x with Zpos p => pos_ctz p | _ => 64 end.

(** [while (mask == 0 && w > 0) mask = bits\[--w\];] — [w] is a word index, the
    loop variable itself is the measure. *)
Fixpoint scan_down (b : words) (w : nat) (mask : Z) : nat * Z :=
  if mask =? 0 then
    match w with
    | O => (O, mask)
    | S w' => scan_down b w' (word b (Z.of_nat w'))
    end
  else (w, mask).

Definition highest_bid (b : words) (from_tick : Z) : Z :=
  if from_tick <? 0 then -1 else
  let w := Z.shiftr from_tick 6 in
  let mask := Z.land (word b w) (wrap_u64 (wrap_u64 (Z.shiftl 2 (Z.land from_tick 63)) - 1)) in
  let '(w, mask) := scan_down b (Z.to_nat w) mask in
  if mask =? 0 then -1
  else Z.shiftl (Z.of_nat w) 6 + 63 - builtin_clzll mask.

(** [while (mask == 0 && w < max_w) mask = bits\[++w\];] with [n = max_w - w]. *)
Fixpoint scan_up (b : words) (n : nat) (w mask : Z) : Z * Z :=
  if mask =? 0 then
    match n with
    | O => (w, mask)
    | S n' => scan_up b n' (w + 1) (word b (w + 1))
    end
  else (w, mask).

Definition lowest_ask (b : words) (from_tick : Z) : Z :=
  if MAX_TICKS <=? from_tick then MAX_TICKS else
  let w := Z.shiftr from_tick 6 in
  let max_w := Z.shiftr (MAX_TICKS - 1) 6 in
  let mask := Z.land (word b w) (not_u64 (wrap_u64 (Z.shiftl 1 (Z.land from_tick 63)) - 1)) in
  let '(w, mask) := scan_up b (Z.to_nat (max_w - w)) w mask in
  if mask =? 0 then MAX_TICKS
  else Z.shiftl w 6 + builtin_ctzll mask.

Example highest_bid_run :
  highest_bid (bit_set (bit_set ∅ 15000) 14900) 14999 = 14900 /\
  highest_bid (bit_set ∅ 15000) 15000 = 15000 /\ highest_bid ∅ 15000 = -1.
Proof. vm_compute. done. Qed.

Example lowest_ask_run :
  lowest_ask (bit_set (bit_set ∅ 15000) 15100) 15001 = 15100 /\
  lowest_ask (bit_set ∅ 499999) 0 = 499999 /\ lowest_ask ∅ 0 = 500000.
Proof. vm_compute. done. Qed.

(** ** Bits *)

Definition bit (b : words) (t : Z) : bool := Z.testbit (word b (t / 64)) (t mod 64).

(** A 64-bit word: non-negative, no bit from 64 on. *)
Definition word_ok (x : Z) : Prop := 0 <= x /\ forall i, 64 <= i -> Z.testbit x i = false.
Definition words_ok (b : words) : Prop := forall w, word_ok (word b w).

Lemma word_ok_range x : 0 <= x < 2 ^ 64 -> word_ok x.
Proof.
  intros Hx. split; [lia|]. intros i Hi.
  destruct (decide (x = 0)) as [->|]; [apply Z.bits_0|].
  apply Z.bits_above_log2; [lia|].
  assert (Z.log2 x < 64) by (apply Z.log2_lt_pow2; lia). lia.
Qed.

Lemma word_ok_lt x : word_ok x -> 0 <= x < 2 ^ 64.
Proof.
  intros [Hx Hb]. split; [done|]. destruct (decide (x = 0)) as [->|]; [lia|].
  apply Z.log2_lt_pow2; [lia|].
  apply Z.nle_gt. intros Hle. specialize (Hb _ Hle).
  rewrite Z.bit_log2 in Hb by lia. done.
Qed.

Lemma words_ok_empty : words_ok ∅.
Proof. intros w. unfold word. rewrite vget_empty. by apply word_ok_range. Qed.

Lemma word_index t : Z.shiftr t 6 = t / 64.
Proof. by rewrite Z.shiftr_div_pow2. Qed.

Lemma bit_index t : Z.land t 63 = t mod 64.
Proof. exact (Z.land_ones t 6 ltac:(lia)). Qed.

Lemma tick_split t : t = 64 * (t / 64) + t mod 64 /\ 0 <= t mod 64 < 64.
Proof. pose proof (Z.div_mod t 64). pose proof (Z.mod_pos_bound t 64). lia. Qed.

Lemma same_word_eqb t j : t / 64 = j / 64 -> (t mod 64 =? j mod 64) = (j =? t).
Proof.
  intros Hw. pose proof (tick_split t). pose proof (tick_split j).
  destruct (Z.eqb_spec (t mod 64) (j mod 64)), (Z.eqb_spec j t); try done; exfalso; lia.
Qed.

Lemma word_tick w p : 0 <= p < 64 -> (64 * w + p) / 64 = w /\ (64 * w + p) mod 64 = p.
Proof.
  intros Hp. rewrite Z.mul_comm. split.
  - rewrite Z.div_add_l, Z.div_small by lia. lia.
  - rewrite Z.add_comm, Z.mod_add, Z.mod_small by lia. done.
Qed.

Lemma one_shl k : 0 <= k < 64 -> wrap_u64 (Z.shiftl 1 k) = 2 ^ k.
Proof.
  intros. rewrite Z.shiftl_1_l. apply wrap_u_id.
  split; [apply Z.pow_nonneg; lia|apply Z.pow_lt_mono_r; lia].
Qed.

Lemma not_u64_bits x i : word_ok x -> 0 <= i ->
  Z.testbit (not_u64 x) i = (i <? 64) && negb (Z.testbit x i).
Proof.
  intros Hx Hi. apply word_ok_lt in Hx.
  assert (not_u64 x = Z.land (Z.lnot x) (Z.ones 64)) as ->.
  { rewrite Z.land_ones by lia. unfold not_u64, Z.lnot, Z.pred.
    apply (Z.mod_unique_pos _ _ (-1)); lia. }
  rewrite Z.land_spec, Z.lnot_spec by lia. rewrite andb_comm. f_equal.
  destruct (Z.ltb_spec i 64); [by apply Z.ones_spec_low|by apply Z.ones_spec_high].
Qed.

Lemma pow2_word_ok k : 0 <= k < 64 -> word_ok (2 ^ k).
Proof.
  intros. apply word_ok_range.
  split; [apply Z.pow_nonneg; lia|apply Z.pow_lt_mono_r; lia].
Qed.

Lemma word_insert b w x v : word (<[w := x]> b) v = if decide (w = v) then x else word b v.
Proof. apply vget_insert. Qed.

Lemma bit_set_ok b t : words_ok b -> words_ok (bit_set b t).
Proof.
  intros Hb w. unfold bit_set. rewrite word_insert, bit_index.
  case_decide; [|apply Hb]. destruct (tick_split t) as [_ Hm].
  rewrite one_shl by done. destruct (Hb (Z.shiftr t 6)) as [H0 H1].
  destruct (pow2_word_ok (t mod 64) Hm) as [H2 H3]. split.
  - by apply Z.lor_nonneg.
  - intros i Hi. by rewrite Z.lor_spec, H1, H3.
Qed.

Lemma bit_clear_ok b t : words_ok b -> words_ok (bit_clear b t).
Proof.
  intros Hb w. unfold bit_clear. rewrite word_insert.
  case_decide; [|apply Hb]. destruct (Hb (Z.shiftr t 6)) as [H0 H1]. split.
  - apply Z.land_nonneg; auto.
  - intros i Hi. by rewrite Z.land_spec, H1.
Qed.

Lemma bit_bit_set b t j : bit (bit_set b t) j = (j =? t) || bit b j.
Proof.
  unfold bit, bit_set. rewrite word_insert, bit_index, word_index.
  destruct (tick_split t) as [_ Hm]. rewrite one_shl by done.
  pose proof (tick_split j) as [_ Hj].
  case_decide as Hw.
  - rewrite Z.lor_spec, Z.pow2_bits_eqb, Hw, orb_comm by lia. f_equal.
    by apply same_word_eqb.
  - rewrite (proj2 (Z.eqb_neq j t)); [done|]. intros ->. done.
Qed.

Lemma bit_bit_clear b t j : bit (bit_clear b t) j = negb (j =? t) && bit b j.
Proof.
  unfold bit, bit_clear. rewrite word_insert, bit_index, word_index.
  destruct (tick_split t) as [_ Hm]. rewrite one_shl by done.
  pose proof (tick_split j) as [_ Hj].
  case_decide as Hw.
  - rewrite Z.land_spec, not_u64_bits, Z.pow2_bits_eqb, Hw, andb_comm
      by (try apply pow2_word_ok; lia).
    rewrite (proj2 (Z.ltb_lt _ _)) by lia. cbn. do 2 f_equal.
    by apply same_word_eqb.
  - rewrite (proj2 (Z.eqb_neq j t)); [done|]. intros ->. done.
Qed.

(** ** The scans *)

(** What a scan that starts in word [w] with the masked word [mask] reads. *)
Definition seen (b : words) (w mask v : Z) : Z :=
  if decide (v = w) then mask else word b v.

Lemma seen_start b w mask : seen b w mask w = mask.
Proof. unfold seen. by rewrite decide_True. Qed.

Lemma seen_other b w mask v : v <> w -> seen b w mask v = word b v.
Proof. intros. unfold seen. by rewrite decide_False. Qed.

Lemma seen_next b w v : seen b w (word b w) v = word b v.
Proof. unfold seen. by case_decide as E; [rewrite E|]. Qed.

Lemma scan_down_spec b w mask w' mask' :
  scan_down b w mask = (w', mask') ->
  (w' <= w)%nat /\ mask' = seen b (Z.of_nat w) mask (Z.of_nat w') /\
  (forall v, Z.of_nat w' < v <= Z.of_nat w -> seen b (Z.of_nat w) mask v = 0) /\
  (mask' = 0 -> w' = 0%nat).
Proof.
  revert mask; induction w as [|w IH]; intros mask; cbn [scan_down];
    destruct (Z.eqb_spec mask 0) as [->|Hm]; try (intros [= <- <-]; rewrite seen_start);
    try (split_and!; intros; (done || lia)).
  intros Hs. destruct (IH _ Hs) as (H1 & H2 & H3 & H4).
  rewrite seen_next in H2. setoid_rewrite seen_next in H3.
  repeat split; [lia|rewrite seen_other by lia; done| |done].
  intros v Hv. destruct (decide (v = Z.of_nat (S w))) as [->|]; [apply seen_start|].
  rewrite seen_other by done. apply H3; lia.
Qed.

Lemma scan_up_spec b n : forall w mask w' mask',
  scan_up b n w mask = (w', mask') ->
  w <= w' <= w + Z.of_nat n /\ mask' = seen b w mask w' /\
  (forall v, w <= v < w' -> seen b w mask v = 0) /\
  (mask' = 0 -> w' = w + Z.of_nat n).
Proof.
  induction n as [|n IH]; intros w mask w' mask'; cbn [scan_up];
    destruct (Z.eqb_spec mask 0) as [->|Hm]; try (intros [= <- <-]; rewrite seen_start);
    try (split_and!; intros; (done || lia)).
  intros Hs. destruct (IH _ _ _ _ Hs) as (H1 & H2 & H3 & H4).
  rewrite seen_next in H2. setoid_rewrite seen_next in H3.
  repeat split; [lia|lia|rewrite seen_other by lia; done| |intros; rewrite H4 by done; lia].
  intros v Hv. destruct (decide (v = w)) as [->|]; [apply seen_start|].
  rewrite seen_other by done. apply H3; lia.
Qed.

Lemma low_mask k : 0 <= k < 64 ->
  wrap_u64 (wrap_u64 (Z.shiftl 2 k) - 1) = Z.ones (k + 1).
Proof.
  intros Hk. rewrite Z.shiftl_mul_pow2, Z.ones_equiv by lia.
  replace (2 * 2 ^ k) with (2 ^ (k + 1)) by (rewrite Z.pow_add_r by lia; lia).
  destruct (decide (k = 63)) as [->|]; [done|].
  assert (0 < 2 ^ (k + 1)) by (apply Z.pow_pos_nonneg; lia).
  assert (2 ^ (k + 1) < 2 ^ 64) by (apply Z.pow_lt_mono_r; lia).
  rewrite (wrap_u_id 64 (2 ^ (k + 1))) by lia. apply wrap_u_id; lia.
Qed.

Lemma high_mask_bits k i : 0 <= k < 64 -> 0 <= i ->
  Z.testbit (not_u64 (wrap_u64 (Z.shiftl 1 k) - 1)) i = (i <? 64) && (k <=? i).
Proof.
  intros Hk Hi. rewrite one_shl by done.
  replace (2 ^ k - 1) with (Z.ones k) by (rewrite Z.ones_equiv; lia).
  assert (Hones : word_ok (Z.ones k)).
  { apply word_ok_range. rewrite Z.ones_equiv.
    assert (0 < 2 ^ k) by (apply Z.pow_pos_nonneg; lia).
    assert (2 ^ k <= 2 ^ 63) by (apply Z.pow_le_mono_r; lia). lia. }
  rewrite not_u64_bits by done. f_equal.
  destruct (Z.leb_spec k i); [by rewrite Z.ones_spec_high by lia|by rewrite Z.ones_spec_low by lia].
Qed.

Lemma word_ok_land x y : word_ok x -> word_ok (Z.land x y).
Proof.
  intros [H0 H1]. split; [apply Z.land_nonneg; auto|].
  intros i Hi. by rewrite Z.land_spec, H1.
Qed.

(** A tick read through the masked first word is the tick of the bitset. *)
Lemma seen_bit b w mask j :
  (j / 64 = w -> Z.testbit mask (j mod 64) = bit b j) ->
  Z.testbit (seen b w mask (j / 64)) (j mod 64) = bit b j.
Proof. intros Hm. unfold seen. case_decide as E; [by apply Hm|done]. Qed.

Lemma low_masked x k i : 0 <= k < 64 -> 0 <= i ->
  Z.testbit (Z.land x (Z.ones (k + 1))) i = Z.testbit x i && (i <=? k).
Proof.
  intros Hk Hi. rewrite Z.land_spec. f_equal.
  destruct (Z.leb_spec i k); [apply Z.ones_spec_low|apply Z.ones_spec_high]; lia.
Qed.

Lemma high_masked x k i : 0 <= k < 64 -> 0 <= i < 64 ->
  Z.testbit (Z.land x (not_u64 (wrap_u64 (Z.shiftl 1 k) - 1))) i = Z.testbit x i && (k <=? i).
Proof.
  intros Hk Hi. rewrite Z.land_spec, high_mask_bits by lia. by rewrite (proj2 (Z.ltb_lt i 64)) by lia.
Qed.

Lemma seen_word_ok b w m v : words_ok b -> word_ok (seen b w (Z.land (word b w) m) v).
Proof. intros Hok. unfold seen. case_decide; [by apply word_ok_land|apply Hok]. Qed.

(** The highest bit of a word, and the lowest. *)
Lemma top_bit x : word_ok x -> x <> 0 ->
  0 <= Z.log2 x < 64 /\ Z.testbit x (Z.log2 x) = true /\ forall i, Z.log2 x < i -> Z.testbit x i = false.
Proof.
  intros Hlt%word_ok_lt H0. split_and!; [apply Z.log2_nonneg|apply Z.log2_lt_pow2; lia|apply Z.bit_log2; lia|].
  intros i Hi. apply Z.bits_above_log2; lia.
Qed.

Lemma ctz_spec p :
  0 <= pos_ctz p /\ Z.testbit (Zpos p) (pos_ctz p) = true /\
  forall i, 0 <= i < pos_ctz p -> Z.testbit (Zpos p) i = false.
Proof.
  induction p as [p IH|p (H0 & H1 & H2)|]; cbn [pos_ctz].
  - split_and!; [lia|done|intros; lia].
  - rewrite (Pos2Z.inj_xO p). split_and!; [lia| |].
    + replace (1 + pos_ctz p) with (Z.succ (pos_ctz p)) by lia.
      by rewrite Z.double_bits_succ.
    + intros i Hi. destruct (decide (i = 0)) as [->|]; [by rewrite Z.testbit_even_0|].
      replace i with (Z.succ (i - 1)) by lia. rewrite Z.double_bits_succ. apply H2; lia.
  - split_and!; [lia|done|intros; lia].
Qed.

Lemma low_bit x : word_ok x -> x <> 0 ->
  0 <= builtin_ctzll x < 64 /\ Z.testbit x (builtin_ctzll x) = true /\
  forall i, 0 <= i < builtin_ctzll x -> Z.testbit x i = false.
Proof.
  intros Hok H0. pose proof (word_ok_lt _ Hok). destruct x as [|p|p]; [done| |lia]. cbn [builtin_ctzll].
  destruct (ctz_spec p) as (Hc0 & Hc1 & Hc2). split_and!; [done| |done|done].
  apply Z.nle_gt. intros Hle. by rewrite (proj2 Hok _ Hle) in Hc1.
Qed.

Lemma highest_bid_spec b t :
  words_ok b -> 0 <= t ->
  let r := highest_bid b t in
  (r = -1 /\ forall j, 0 <= j <= t -> bit b j = false) \/
  (0 <= r <= t /\ bit b r = true /\ forall j, r < j <= t -> bit b j = false).
Proof.
  intros Hok Ht. unfold highest_bid. rewrite (proj2 (Z.ltb_ge t 0)) by lia.
  rewrite word_index, bit_index. destruct (tick_split t) as [Hsplit Hmod].
  rewrite low_mask by done. set (w := t / 64) in *. set (k := t mod 64) in *.
  pose proof (fun v => seen_word_ok b w (Z.ones (k + 1)) v Hok) as Hwok.
  pose proof (low_masked (word b w) k) as Hmk. set (mask := Z.land (word b w) _) in *.
  destruct (scan_down b (Z.to_nat w) mask) as [w' mask'] eqn:Hs.
  apply scan_down_spec in Hs as (H1 & H2 & H3 & H4).
  rewrite Z2Nat.id in H2, H3 by (apply Z.div_pos; lia).
  assert (Hseen : forall j, 0 <= j <= t -> Z.testbit (seen b w mask (j / 64)) (j mod 64) = bit b j).
  { intros j Hj. apply seen_bit. intros Hw. pose proof (tick_split j).
    rewrite Hmk by lia. rewrite (proj2 (Z.leb_le _ _)), andb_true_r by lia. unfold bit. by rewrite Hw. }
  assert (Habove : forall j, 0 <= j <= t -> Z.of_nat w' < j / 64 -> bit b j = false).
  { intros j Hj Hlt. pose proof (Z.div_le_mono j t 64). rewrite <- Hseen, H3 by lia. apply Z.bits_0. }
  destruct (Z.eqb_spec mask' 0) as [H0|H0].
  - left. split; [done|]. intros j Hj. specialize (H4 H0). subst w'. pose proof (Z.div_pos j 64).
    destruct (decide (j / 64 = Z.of_nat 0)) as [Hz|Hz]; [|apply Habove; lia].
    rewrite <- Hseen, Hz, <- H2, H0 by done. apply Z.bits_0.
  - right. specialize (Hwok (Z.of_nat w')). rewrite <- H2 in Hwok.
    destruct (top_bit _ Hwok H0) as (Hlog & Htop & Hover).
    rewrite Z.shiftl_mul_pow2 by lia. unfold builtin_clzll.
    replace (Z.of_nat w' * 2 ^ 6 + 63 - (63 - Z.log2 mask')) with (64 * Z.of_nat w' + Z.log2 mask') by lia.
    destruct (word_tick (Z.of_nat w') _ Hlog) as [Hr1 Hr2]. set (r := 64 * Z.of_nat w' + Z.log2 mask') in *.
    assert (Hrt : r <= t).
    { destruct (decide (Z.of_nat w' = w)) as [Hww|Hww]; [|lia].
      assert (Hm' : mask' = mask) by (rewrite H2, Hww; apply seen_start).
      pose proof Htop as Hk. rewrite Hm' in Hk at 1. rewrite Hmk in Hk by lia.
      apply andb_true_iff in Hk as [_ Hle%Z.leb_le]. lia. }
    split; [lia|]. split.
    + by rewrite <- Hseen, Hr1, Hr2, <- H2 by lia.
    + intros j Hj. pose proof (tick_split j) as [Hj1 Hj2].
      destruct (decide (j / 64 = Z.of_nat w')) as [Hjw|Hjw]; [|apply Habove; lia].
      rewrite <- Hseen, Hjw, <- H2 by lia. apply Hover; lia.
Qed.

(** ** The scan for the lowest occupied tick *)

Definition bits_in_range (b : words) : Prop := forall j, MAX_TICKS <= j -> bit b j = false.

Lemma lowest_ask_spec b t :
  words_ok b -> bits_in_range b -> 0 <= t ->
  let r := lowest_ask b t in
  (r = MAX_TICKS /\ forall j, t <= j -> bit b j = false) \/
  (t <= r < MAX_TICKS /\ bit b r = true /\ forall j, t <= j < r -> bit b j = false).
Proof.
  intros Hok Hrange Ht. unfold lowest_ask.
  destruct (Z.leb_spec MAX_TICKS t) as [Hmax|Hmax].
  { left. split; [done|]. intros j Hj. apply Hrange; lia. }
  rewrite (word_index t), (bit_index t). destruct (tick_split t) as [Hsplit Hmod].
  set (w := t / 64) in *. set (k := t mod 64) in *. change (Z.shiftr (MAX_TICKS - 1) 6) with 7812.
  assert (Hw : 0 <= w <= 7812) by (unfold MAX_TICKS in *; lia).
  pose proof (fun v => seen_word_ok b w (not_u64 (wrap_u64 (Z.shiftl 1 k) - 1)) v Hok) as Hwok.
  pose proof (high_masked (word b w) k) as Hmk. set (mask := Z.land (word b w) _) in *.
  destruct (scan_up b (Z.to_nat (7812 - w)) w mask) as [w' mask'] eqn:Hs.
  apply scan_up_spec in Hs as (H1 & H2 & H3 & H4). rewrite Z2Nat.id in H1, H4 by lia.
  assert (Hseen : forall j, t <= j -> Z.testbit (seen b w mask (j / 64)) (j mod 64) = bit b j).
  { intros j Hj. apply seen_bit. intros Hjw. pose proof (tick_split j).
    rewrite Hmk by lia. rewrite (proj2 (Z.leb_le _ _)), andb_true_r by lia. unfold bit. by rewrite Hjw. }
  assert (Hbelow : forall j, t <= j -> j / 64 < w' -> bit b j = false).
  { intros j Hj Hlt. rewrite <- Hseen, H3 by (pose proof (Z.div_le_mono t j 64); lia). apply Z.bits_0. }
  destruct (Z.eqb_spec mask' 0) as [H0|H0].
  - left. split; [done|]. intros j Hj. specialize (H4 H0).
    destruct (Z.lt_trichotomy (j / 64) w') as [?|[Hjw|?]]; [by apply Hbelow| |].
    + rewrite <- Hseen, Hjw, <- H2, H0 by done. apply Z.bits_0.
    + apply Hrange. unfold MAX_TICKS. pose proof (tick_split j). lia.
  - right. specialize (Hwok w'). rewrite <- H2 in Hwok.
    destruct (low_bit _ Hwok H0) as (Hc & Hc1 & Hc2). set (c := builtin_ctzll mask') in *.
    rewrite Z.shiftl_mul_pow2 by lia. replace (w' * 2 ^ 6 + c) with (64 * w' + c) by lia.
    destruct (word_tick w' _ Hc) as [Hr1 Hr2]. set (r := 64 * w' + c) in *.
    assert (Hrt : t <= r).
    { destruct (decide (w' = w)) as [Hww|Hww]; [|lia].
      rewrite H2, Hww, seen_start, Hmk in Hc1 by lia. apply andb_true_iff in Hc1 as [_ Hle%Z.leb_le]. lia. }
    assert (Hbit : bit b r = true) by (rewrite <- Hseen, Hr1, Hr2, <- H2 by lia; done).
    split_and!; [done| |done|].
    + apply Z.nle_gt. intros Hle. by rewrite Hrange in Hbit.
    + intros j Hj. pose proof (tick_split j) as [Hj1 Hj2].
      destruct (decide (j / 64 = w')) as [Hjw|Hjw]; [|apply Hbelow; lia].
      rewrite <- Hseen, Hjw, <- H2 by lia. apply Hc2; lia.
Qed.

#[export] Hint Resolve bit_set_ok bit_clear_ok words_ok_empty : trading.
#[export] Hint Rewrite bit_bit_set bit_bit_clear : trading.

(** ** The scans against the set of occupied ticks *)

(** The bitset of a list of ticks. *)
Definition occupy (ts : list Z) : words := foldr (fun t b => bit_set b t) ∅ ts.

Lemma occupy_ok ts : words_ok (occupy ts).
Proof. induction ts; [apply words_ok_empty|by apply bit_set_ok]. Qed.

Lemma bit_empty t : bit ∅ t = false.
Proof. unfold bit, word. by rewrite vget_empty, Z.bits_0. Qed.

Lemma bit_occupy ts t : bit (occupy ts) t = true <-> t ∈ ts.
Proof.
  induction ts as [|x ts IH]; cbn [occupy foldr].
  - rewrite bit_empty. split; [done|]. intros H. by apply elem_of_nil in H.
  - rewrite bit_bit_set, orb_true_iff, Z.eqb_eq, IH, elem_of_cons. done.
Qed.

Lemma bit_occupy_false ts t : bit (occupy ts) t = false <-> t ∉ ts.
Proof. rewrite <- bit_occupy. by destruct (bit _ _). Qed.

(** On the bitset of any set of ticks, [highest_bid from] is the highest
    occupied tick up to [from], -1 when there is none. *)
Theorem highest_bid_correct (ts : list Z) (from : Z) :
  0 <= from ->
  let r := highest_bid (occupy ts) from in
  (r = -1 /\ forall t, 0 <= t <= from -> t ∉ ts) \/
  (r ∈ ts /\ 0 <= r <= from /\ forall t, t ∈ ts -> 0 <= t <= from -> t <= r).
Proof.
  intros Hf r. destruct (highest_bid_spec (occupy ts) from (occupy_ok ts) Hf) as [[H1 H2]|(H1 & H2 & H3)].
  - left. split; [done|]. intros t Ht. by apply bit_occupy_false, H2.
  - right. apply bit_occupy in H2. split_and!; [done|apply H1|apply H1|].
    intros t Ht Hle. destruct (decide (t <= r)); [done|].
    assert (t ∉ ts); [|done]. apply bit_occupy_false, H3. fold r. lia.
Qed.

Lemma highest_bid_correct_witness :
  0 <= 14999 /\ let r := highest_bid (occupy [15000; 14900; 3]) 14999 in
  (r = -1 /\ forall t, 0 <= t <= 14999 -> t ∉ [15000; 14900; 3]) \/
  (r ∈ [15000; 14900; 3] /\ 0 <= r <= 14999 /\
   forall t, t ∈ [15000; 14900; 3] -> 0 <= t <= 14999 -> t <= r).
Proof.
  assert (H : 0 <= 14999) by lia. split; [exact H|].
  exact (highest_bid_correct [15000; 14900; 3] 14999 H).
Defined.

(** Likewise [lowest_ask from] is the lowest occupied tick from [from]
    on, [MAX_TICKS] when there is none. *)
Theorem lowest_ask_correct (ts : list Z) (from : Z) :
  0 <= from -> (forall t, t ∈ ts -> t < MAX_TICKS) ->
  let r := lowest_ask (occupy ts) from in
  (r = MAX_TICKS /\ forall t, from <= t -> t ∉ ts) \/
  (r ∈ ts /\ from <= r < MAX_TICKS /\ forall t, t ∈ ts -> from <= t -> r <= t).
Proof.
  intros Hf Hts r.
  assert (Hr : bits_in_range (occupy ts)).
  { intros j Hj. apply bit_occupy_false. intros Hin. specialize (Hts j Hin). lia. }
  destruct (lowest_ask_spec (occupy ts) from (occupy_ok ts) Hr Hf) as [[H1 H2]|(H1 & H2 & H3)].
  - left. split; [done|]. intros t Ht. by apply bit_occupy_false, H2.
  - right. apply bit_occupy in H2. split_and!; [done|apply H1|apply H1|].
    intros t Ht Hle. destruct (decide (r <= t)); [done|].
    assert (t ∉ ts); [|done]. apply bit_occupy_false, H3. fold r. lia.
Qed.

Lemma lowest_ask_correct_witness :
  let ts := [15000; 15100; 499999] in let r := lowest_ask (occupy ts) 15001 in
  (r = MAX_TICKS /\ forall t, 15001 <= t -> t ∉ ts) \/
  (r ∈ ts /\ 15001 <= r < MAX_TICKS /\ forall t, t ∈ ts -> 15001 <= t -> r <= t).
Proof.
  assert (H : forall t, t ∈ [15000; 15100; 499999] -> t < MAX_TICKS).
  { intros t. rewrite !elem_of_cons, elem_of_nil. unfold MAX_TICKS. lia. }
  exact (lowest_ask_correct [15000; 15100; 499999] 15001 ltac:(lia) H).
Defined.

(** Both scans on the bitset of any set of ticks of the book:
    [highest_bid from] is the highest occupied tick up to [from], -1 when there
    is none, and [lowest_ask from] the lowest from [from] on, [MAX_TICKS] when
    there is none. *)
Theorem scans_correct (ts : list Z) (from : Z) :
  0 <= from -> (forall t, t ∈ ts -> t < MAX_TICKS) ->
  (let r := highest_bid (occupy ts) from in
   (r = -1 /\ forall t, 0 <= t <= from -> t ∉ ts) \/
   (r ∈ ts /\ 0 <= r <= from /\ forall t, t ∈ ts -> 0 <= t <= from -> t <= r)) /\
  (let r := lowest_ask (occupy ts) from in
   (r = MAX_TICKS /\ forall t, from <= t -> t ∉ ts) \/
   (r ∈ ts /\ from <= r < MAX_TICKS /\ forall t, t ∈ ts -> from <= t -> r <= t)).
Proof. intros Hf Hts. split; [by apply highest_bid_correct|by apply lowest_ask_correct]. Qed.

Lemma scans_correct_witness :
  let ts := [15000; 15100; 499999] in
  (let r := highest_bid (occupy ts) 15050 in
   (r = -1 /\ forall t, 0 <= t <= 15050 -> t ∉ ts) \/
   (r ∈ ts /\ 0 <= r <= 15050 /\ forall t, t ∈ ts -> 0 <= t <= 15050 -> t <= r)) /\
  (let r := lowest_ask (occupy ts) 15050 in
   (r = MAX_TICKS /\ forall t, 15050 <= t -> t ∉ ts) \/
   (r ∈ ts /\ 15050 <= r < MAX_TICKS /\ forall t, t ∈ ts -> 15050 <= t -> r <= t)).
Proof.
  assert (H : forall t, t ∈ [15000; 15100; 499999] -> t < MAX_TICKS).
  { intros t. rewrite !elem_of_cons, elem_of_nil. unfold MAX_TICKS. lia. }
  exact (scans_correct [15000; 15100; 499999] 15050 ltac:(lia) H).
Defined.
