(* ===== verification/PriceTick.v ===== *)
(** * Prices and ticks

    [OrderBook::priceToTick] and [OrderBook::tickToPrice] of order_book.h on
    binary64 numbers, and the proof that the two roundings involved never
    move a price to another tick. *)

From Stdlib Require Import QArith Lqa.
From S2P Require Import Prelude Float64 TickBitset.

Local Open Scope Z_scope.

(** [static_cast<int>(p * 100.0 + 0.5)] *)
Definition priceToTick (p : double) : Z := to_int32 (p * lit 100 + lit (1 # 2))%D.

(** [t / 100.0] *)
Definition tickToPrice (t : Z) : double := (of_int t / lit 100)%D.

Example priceToTick_150 : priceToTick (lit 150) = 15000.
Proof. reflexivity. Qed.

Lemma lit_100 : lit 100 = of_int 100.
Proof. reflexivity. Qed.

(** From a double within one rounding of [t] cents, the tick is [t]. *)
Lemma priceToTick_near x ex t :
  0 < t < MAX_TICKS -> normal x ex -> -60 <= ex <= -38 ->
  near x (inject_Z t / 100) -> priceToTick x = t.
Proof.
  intros Ht Hx Hex Hnear. unfold priceToTick. rewrite lit_100.
  destruct (of_int_normal 100 ltac:(lia)) as [H100 V100].
  change (Z.log2 100 - 52) with (-46) in H100.
  destruct (fmul_error x (of_int 100) ex (-46)) as (e2 & He2 & N2 & V2); [done|done|lia|].
  assert (Hhalf : normal (lit (1 # 2)) (-53)) by (eexists; split; [reflexivity|lia]).
  assert (Vhalf : (valQ (lit (1 # 2)) == 1 # 2)%Q) by reflexivity.
  destruct (fadd_error _ (lit (1 # 2)) e2 (-53) N2 Hhalf) as (e3 & He3 & N3 & V3); [lia|lia|].
  unfold near in *. rewrite V100 in V2. rewrite Vhalf in V3.
  assert (Htq : (1 <= inject_Z t <= 499999)%Q).
  { unfold MAX_TICKS in Ht. change 1%Q with (inject_Z 1).
    change 499999%Q with (inject_Z 499999). rewrite <- !Zle_Qle. lia. }
  change (inject_Z 100) with 100%Q in *.
  unfold u53 in *. change (2 ^ 53)%positive with 9007199254740992%positive in *.
  assert (Hdiv : (inject_Z t / 100 == inject_Z t * (1 # 100))%Q) by reflexivity.
  rewrite Hdiv in Hnear. clear Hdiv.
  unfold to_int32. rewrite (trunc_between _ e3 t N3).
  - unfold MAX_TICKS in Ht. rewrite (proj2 (Z.leb_le _ _)), (proj2 (Z.leb_le _ _)) by lia. done.
  - (* the value is below 2^20, so the last bit has a negative exponent *)
    apply Z.nle_gt. intros Hge.
    destruct N3 as (p & E & Hp). rewrite E in V3. cbn [valQ] in V3.
    assert (1 <= bpow e3)%Q.
    { rewrite bpow_Z by done. change 1%Q with (inject_Z 1). rewrite <- Zle_Qle.
      change 1 with (2 ^ 0). apply Z.pow_le_mono_r; lia. }
    assert (4503599627370496 <= inject_Z (Zpos p))%Q.
    { change 4503599627370496%Q with (inject_Z 4503599627370496). rewrite <- Zle_Qle. lia. }
    nra.
  - rewrite inject_Z_plus. change (inject_Z 1) with 1%Q. split; lra.
Qed.

Lemma log2_tick t : 0 < t < MAX_TICKS -> 0 <= Z.log2 t <= 18.
Proof.
  unfold MAX_TICKS; intros Ht. split; [apply Z.log2_nonneg|].
  apply Z.lt_succ_r, Z.log2_lt_pow2; simpl; lia.
Qed.

Lemma tickToPrice_near t : 0 < t < MAX_TICKS ->
  exists e, normal (tickToPrice t) e /\ -60 <= e <= -38 /\ near (tickToPrice t) (inject_Z t / 100).
Proof.
  intros Ht. pose proof (log2_tick t Ht) as Hl. unfold MAX_TICKS in Ht.
  destruct (of_int_normal t ltac:(lia)) as [Nt Vt].
  destruct (of_int_normal 100 ltac:(lia)) as [N100 V100].
  change (Z.log2 100 - 52) with (-46) in N100.
  unfold tickToPrice. rewrite lit_100.
  destruct (fdiv_error _ _ _ _ Nt N100) as (e & He & N & V); [lia|].
  exists e. split; [done|]. split; [lia|]. unfold near in *. rewrite Vt, V100 in V. exact V.
Qed.

Lemma priceToTick_tickToPrice_pos t : 0 < t < MAX_TICKS -> priceToTick (tickToPrice t) = t.
Proof. intros Ht. destruct (tickToPrice_near t Ht) as (e & N & He & V). by apply (priceToTick_near _ e). Qed.

(** A price written with two decimals is read as the nearest double. *)
Lemma cents_near c : 0 < Zpos c < MAX_TICKS ->
  exists e, normal (lit (Zpos c # 100)) e /\ -60 <= e <= -38 /\ near (lit (Zpos c # 100)) (inject_Z (Zpos c) / 100).
Proof.
  intros Hc. pose proof (log2_tick _ Hc) as Hl. change (lit (Zpos c # 100)) with (of_ratio false c 100).
  assert (Hd : Zdigits2 (Zpos c) = Z.log2 (Zpos c) + 1) by (apply Zdigits2_log2; lia).
  destruct (fratio_error (Zpos c) 0 100 0) as (e & He & N & V); [lia|lia|rewrite Hd; change (Zdigits2 100) with 7; lia|].
  rewrite Hd in He. change (Zdigits2 100) with 7 in He.
  exists e. split; [exact N|]. split; [lia|].
  unfold near in *. cbv zeta in V. change (bpow (0 - 0)) with 1%Q in V.
  change (inject_Z 100) with 100%Q in V.
  rewrite Qmult_1_r in V. exact V.
Qed.

(** It is on the tick of its cents. *)
Lemma priceToTick_decimal_pos c : 0 < Zpos c < MAX_TICKS -> priceToTick (lit (Zpos c # 100)) = Zpos c.
Proof. intros Hc. destruct (cents_near c Hc) as (e & N & He & V). by apply (priceToTick_near _ e). Qed.

(** ** Ticks and prices *)

(** Converting a tick to its price and back is the identity on every
    tick of the book. *)
Theorem priceToTick_tickToPrice (t : Z) :
  0 <= t < MAX_TICKS -> priceToTick (tickToPrice t) = t.
Proof.
  intros Ht. destruct (decide (t = 0)) as [->|]; [reflexivity|].
  apply priceToTick_tickToPrice_pos. lia.
Qed.

Lemma priceToTick_tickToPrice_witness : 0 <= 14999 < MAX_TICKS /\ priceToTick (tickToPrice 14999) = 14999.
Proof.
  assert (H : 0 <= 14999 < MAX_TICKS) by (unfold MAX_TICKS; lia).
  split; [exact H|exact (priceToTick_tickToPrice 14999 H)].
Defined.

(** A price of [c] cents, whose binary64 value is not exact, is on tick
    [c]: the two roundings of [p * 100.0 + 0.5] never move it. *)
Lemma priceToTick_cents (c : Z) :
  0 <= c < MAX_TICKS -> priceToTick (lit (c # 100)) = c.
Proof.
  intros Hc. destruct c as [|c|c]; [reflexivity| |lia].
  exact (priceToTick_decimal_pos c ltac:(lia)).
Qed.
