(* ===== verification/OrderBook.v ===== *)
(** * The order book: order_book.h and order_book.cpp

    State: the order pool (slab, free stack) and one [SymbolBook] per symbol
    key.  [acceptNewOrder] and [matchOrders] follow the code statement by
    statement on the slab, the intrusive queues and the bitsets; array and
    pool accesses go through the operations of [ObjectPool], [PriceLevel] and
    [TickBitset].

    The execution callback is a transformer of a client state; the readings
    of the steady clock are a function of their index, one per execution
    built during a call.  [__builtin_prefetch] has no effect on the state
    and is left out.  [matchOrders] is a loop; it runs on fuel and
    [OrderBookRefinement] proves that the fuel given is always enough. *)

From S2P Require Import Prelude Float64 CString Messages ObjectPool PriceLevel TickBitset.
From S2P Require Import PriceTick.

Local Open Scope Z_scope.

(** [ObjectPool<Order, 65536>] *)
Definition POOL_CAPACITY : Z := 65536.

Record SymbolBook := mkSymbolBook {
  bids : gmap Z PriceLevel;     (* std::vector<PriceLevel>(MAX_TICKS) *)
  asks : gmap Z PriceLevel;
  bid_bits : words;
  ask_bits : words;
  best_bid_tick : Z;            (* int, -1 = no bids *)
  best_ask_tick : Z }.          (* int, MAX_TICKS = no asks *)

Definition SymbolBook_new : SymbolBook :=
  mkSymbolBook ∅ ∅ ∅ ∅ (-1) MAX_TICKS.

(** [bids\[t\]], [asks\[t\]] *)
Definition level_at (v : gmap Z PriceLevel) (t : Z) : PriceLevel := vget PriceLevel_zero v t.

Record OrderBook := mkOrderBook {
  pool_ : ObjectPool Order;
  books_ : gmap Z SymbolBook }.   (* std::unordered_map<uint64_t, SymbolBook> *)

Definition OrderBook_new : OrderBook :=
  mkOrderBook (ObjectPool_new POOL_CAPACITY) ∅.

(** [books_\[key\]] default-constructs a missing book. *)
Definition book_at (ob : OrderBook) (k : Z) : SymbolBook :=
  default SymbolBook_new (books_ ob !! k).

(** [memcpy(&k, s, sizeof k)] *)
Definition sym_key (s : bytes) : Z := le_word (take 8 s).

Definition poolAvailable (ob : OrderBook) : Z := available (pool_ ob).

Definition deref_order (p : ObjectPool Order) (i : Z) : Order := deref Order_zero p i.

Definition buildExecution (tradeQty : Z) (ask bid : Order) (sym : bytes)
    (aggressor : OrderType) (now : Z) : Execution :=
  let exec := Execution_zero in
  {| side := match aggressor with BUY => Side_BUY | SELL => Side_SELL end;
     buy_id := strncpy (buy_id exec) (id bid) 15;
     sell_id := strncpy (sell_id exec) (id ask) 15;
     exec_symbol := strncpy (exec_symbol exec) sym 7;
     exec_quantity := of_int tradeQty;
     trade_price := match aggressor with BUY => price ask | SELL => price bid end;
     exec_arrival_ns := now;
     order_arrival_ns := match aggressor with
                         | BUY => arrival_ns bid | SELL => arrival_ns ask end |}.

(** The best bid was filled: [pop_front], [release], then the bitset scan
    when its level is empty. *)
Definition consume_bid (p : ObjectPool Order) (b : SymbolBook) (o : Z) :
    ObjectPool Order * SymbolBook :=
  let t := best_bid_tick b in
  let lv := (level_pop_front (slab_ p) (level_at (bids b) t)).2 in
  let b := mkSymbolBook (<[t := lv]> (bids b)) (asks b) (bid_bits b) (ask_bits b)
             (best_bid_tick b) (best_ask_tick b) in
  let p := release p (Some o) in
  if level_empty (level_at (bids b) t) then
    let bits := bit_clear (bid_bits b) t in
    (p, mkSymbolBook (bids b) (asks b) bits (ask_bits b)
          (highest_bid bits t) (best_ask_tick b))
  else (p, b).

Definition consume_ask (p : ObjectPool Order) (b : SymbolBook) (o : Z) :
    ObjectPool Order * SymbolBook :=
  let t := best_ask_tick b in
  let lv := (level_pop_front (slab_ p) (level_at (asks b) t)).2 in
  let b := mkSymbolBook (bids b) (<[t := lv]> (asks b)) (bid_bits b) (ask_bits b)
             (best_bid_tick b) (best_ask_tick b) in
  let p := release p (Some o) in
  if level_empty (level_at (asks b) t) then
    let bits := bit_clear (ask_bits b) t in
    (p, mkSymbolBook (bids b) (asks b) (bid_bits b) bits
          (best_bid_tick b) (lowest_ask bits t))
  else (p, b).

(** [o->quantity -= q] *)
Definition reduce_quantity (p : ObjectPool Order) (o : Z) (q : Z) : ObjectPool Order :=
  store p o (set_quantity (deref_order p o) (wrap_i32 (quantity (deref_order p o) - q))).

(** The state of the loop of [matchOrders]. *)
Record MatchState (St : Type) := mkMatch {
  ms_pool : ObjectPool Order;
  ms_book : SymbolBook;
  ms_reads : nat;               (* readings of the clock so far *)
  ms_client : St }.
Arguments mkMatch {_} _ _ _ _.
Arguments ms_pool {_} _.
Arguments ms_book {_} _.
Arguments ms_reads {_} _.
Arguments ms_client {_} _.

Section Matching.
Context {St : Type}.
Variable onExecution_ : option (Execution -> St -> St).
Variable now : nat -> Z.

(** [if (onExecution_) onExecution_(exec);] *)
Definition notify (e : Execution) (s : St) : St :=
  match onExecution_ with Some f => f e s | None => s end.

(** One iteration of the loop; [None] is a return.  [sym] is the slot
    whose [symbol] field the parameter [const char* symbol] points to. *)
Definition match_step (sym : Z) (aggressor : OrderType) (ms : MatchState St) :
    option (MatchState St) :=
  let book := ms_book ms in
  let pool := ms_pool ms in
  if (best_bid_tick book =? -1) || (best_ask_tick book =? MAX_TICKS) then None
  else if best_bid_tick book <? best_ask_tick book then None
  else
    match level_front (level_at (bids book) (best_bid_tick book)),
          level_front (level_at (asks book) (best_ask_tick book)) with
    | Some bid, Some ask =>
        let obid := deref_order pool bid in
        let oask := deref_order pool ask in
        let tradeQty := Z.min (quantity oask) (quantity obid) in
        let exec := buildExecution tradeQty oask obid (symbol (deref_order pool sym))
                      aggressor (now (ms_reads ms)) in
        let client := notify exec (ms_client ms) in
        let pool := reduce_quantity pool bid tradeQty in
        let pool := reduce_quantity pool ask tradeQty in
        let '(pool, book) :=
          if quantity (deref_order pool bid) =? 0
          then consume_bid pool book bid else (pool, book) in
        let '(pool, book) :=
          if quantity (deref_order pool ask) =? 0
          then consume_ask pool book ask else (pool, book) in
        Some (mkMatch pool book (S (ms_reads ms)) client)
    | _, _ => None   (* a null dereference; never reached, see match_step_refines *)
    end.

(** [while (true) { ... }]; [None] when the fuel runs out. *)
Fixpoint matchOrders (fuel : nat) (sym : Z) (aggressor : OrderType)
    (ms : MatchState St) : option (MatchState St) :=
  match fuel with
  | O => None
  | S fuel' =>
      match match_step sym aggressor ms with
      | None => Some ms
      | Some ms' => matchOrders fuel' sym aggressor ms'
      end
  end.

(** The bid or ask side of [acceptNewOrder] before matching. *)
Definition enqueue (p : ObjectPool Order) (b : SymbolBook) (o tick : Z) :
    ObjectPool Order * SymbolBook :=
  match order_type (deref_order p o) with
  | BUY =>
      let '(h, lv) := level_push (slab_ p) (level_at (bids b) tick) o in
      (mkPool h (free_stack_ p) (top_ p),
       mkSymbolBook (<[tick := lv]> (bids b)) (asks b)
         (bit_set (bid_bits b) tick) (ask_bits b)
         (if best_bid_tick b <? tick then tick else best_bid_tick b) (best_ask_tick b))
  | SELL =>
      let '(h, lv) := level_push (slab_ p) (level_at (asks b) tick) o in
      (mkPool h (free_stack_ p) (top_ p),
       mkSymbolBook (bids b) (<[tick := lv]> (asks b))
         (bid_bits b) (bit_set (ask_bits b) tick)
         (best_bid_tick b) (if tick <? best_ask_tick b then tick else best_ask_tick b))
  end.

(** An iteration releases at least one of the orders out of the pool. *)
Definition match_fuel (p : ObjectPool Order) : nat :=
  S (Z.to_nat (POOL_CAPACITY - available p)).

Definition acceptNewOrder (ob : OrderBook) (order : Order) (s : St) :
    option (OrderBook * St) :=
  let tick := priceToTick (price order) in
  if (tick <? 0) || (MAX_TICKS <=? tick) then Some (ob, s) else
  match alloc (pool_ ob) with
  | (None, _) => Some (ob, s)     (* "pool exhausted — order dropped" on cerr *)
  | (Some o, pool) =>
      let pool := store pool o order in
      let pool := store pool o (set_next (deref_order pool o) nullptr) in
      let key := sym_key (symbol (deref_order pool o)) in
      let book := book_at ob key in
      let '(pool, book) := enqueue pool book o tick in
      match matchOrders (match_fuel pool) o (order_type (deref_order pool o))
              (mkMatch pool book 0 s) with
      | Some ms => Some (mkOrderBook (ms_pool ms) (<[key := ms_book ms]> (books_ ob)),
                         ms_client ms)
      | None => None
      end
  end.
End Matching.

(** [bestBid(symbol)] and [bestAsk(symbol)]: 0.0 for an unknown symbol or an
    empty side. *)
Definition query_key (s : bytes) : Z := sym_key (strncpy (zeros 8) s 7).

Definition bestBid (ob : OrderBook) (s : bytes) : double :=
  match books_ ob !! query_key s with
  | Some b => if negb (best_bid_tick b =? -1) then tickToPrice (best_bid_tick b) else fzero
  | None => fzero
  end.

Definition bestAsk (ob : OrderBook) (s : bytes) : double :=
  match books_ ob !! query_key s with
  | Some b => if negb (best_ask_tick b =? MAX_TICKS) then tickToPrice (best_ask_tick b) else fzero
  | None => fzero
  end.

(** A session: the orders are accepted one after the other; [now i] is the
    clock during the call for the [i]-th order. *)
Section Session.
Context {St : Type}.
Variable onExecution_ : option (Execution -> St -> St).
Variable now : nat -> nat -> Z.

Fixpoint accept_all (i : nat) (ob : OrderBook) (s : St) (os : list Order) :
    option (OrderBook * St) :=
  match os with
  | [] => Some (ob, s)
  | o :: os' =>
      match acceptNewOrder onExecution_ (now i) ob o s with
      | Some (ob', s') => accept_all (S i) ob' s' os'
      | None => None
      end
  end.
End Session.

(** The callback of the tests and of main.cpp's first use: record the
    executions in order. *)
Definition record_execution (e : Execution) (l : list Execution) : list Execution := l ++ [e].
