(* ===== verification/OrderBookSpec.v ===== *)
(** * What the order book promises: price-time priority matching

    The specification has no memory: one book is two lists of resting
    orders, best first, and within one tick in order of arrival.  A new order
    is inserted behind every order at least as good; then, while the best
    bid reaches the best ask, the two heads trade the smaller quantity at
    the price of the resting order.  A second, closed form ([sweep])
    describes an incoming order that meets an uncrossed book: one pass over
    the opposite side. *)

From S2P Require Import Prelude Float64 CString Messages TickBitset PriceTick OrderBook.

Local Open Scope Z_scope.

(** ** Insertion by priority *)

Section Insert.
Context {A : Type}.

(** Insert [x] behind the longest prefix of elements to keep in front. *)
Fixpoint insert_prio (keep : A -> bool) (x : A) (l : list A) : list A :=
  match l with
  | [] => [x]
  | y :: r => if keep y then y :: insert_prio keep x r else x :: l
  end.

Lemma insert_prio_split keep x l : exists l1 l2,
  l = l1 ++ l2 /\ insert_prio keep x l = l1 ++ x :: l2 /\
  Forall (fun y => keep y = true) l1 /\
  match l2 with [] => True | y :: _ => keep y = false end.
Proof.
  induction l as [|y r (l1 & l2 & -> & Hi & H1 & H2)]; cbn.
  - by exists [], [].
  - destruct (keep y) eqn:Hy.
    + exists (y :: l1), l2. rewrite Hi. split_and!; [done|done|by constructor|done].
    + exists [], (y :: l1 ++ l2). by rewrite Hy.
Qed.

Lemma insert_prio_perm keep x l : insert_prio keep x l ≡ₚ x :: l.
Proof.
  destruct (insert_prio_split keep x l) as (l1 & l2 & -> & -> & _).
  symmetry. apply Permutation_middle.
Qed.

Lemma insert_prio_length keep x l : length (insert_prio keep x l) = S (length l).
Proof. by rewrite insert_prio_perm. Qed.
End Insert.

Lemma insert_prio_fmap {A B} (f : A -> B) keep keep' x l :
  (forall y, y ∈ l -> keep' (f y) = keep y) ->
  insert_prio keep' (f x) (f <$> l) = f <$> insert_prio keep x l.
Proof.
  induction l as [|y r IH]; intros H; cbn; [done|].
  rewrite H by left. destruct (keep y); cbn; [|done].
  f_equal. apply IH. intros z Hz. apply H. by right.
Qed.

(** ** The specification state *)

Definition tick_of (o : Order) : Z := priceToTick (price o).

(** [at_least sd t t']: on side [sd] a resting tick [t] is at least as good
    as [t']. *)
Definition at_least (sd : OrderType) (t t' : Z) : bool :=
  match sd with BUY => t' <=? t | SELL => t <=? t' end.

Record SpecBook := mkSpec {
  s_bids : list Order;
  s_asks : list Order }.

Definition spec_empty : SpecBook := mkSpec [] [].

Definition spec_side (sd : OrderType) (b : SpecBook) : list Order :=
  match sd with BUY => s_bids b | SELL => s_asks b end.

Definition spec_size (b : SpecBook) : nat := length (s_bids b) + length (s_asks b).

Definition spec_insert_side (sd : OrderType) (o : Order) (l : list Order) : list Order :=
  insert_prio (fun y => at_least sd (tick_of y) (tick_of o)) o l.

Definition spec_insert (o : Order) (b : SpecBook) : SpecBook :=
  match order_type o with
  | BUY => mkSpec (spec_insert_side BUY o (s_bids b)) (s_asks b)
  | SELL => mkSpec (s_bids b) (spec_insert_side SELL o (s_asks b))
  end.

(** [quantity -= q] on an [int32_t]. *)
Definition fill (q : Z) (o : Order) : Order := set_quantity o (wrap_i32 (quantity o - q)).

Definition unless_filled (o : Order) (l : list Order) : list Order :=
  if quantity o =? 0 then l else o :: l.

(** One trade between the two heads, if they cross. *)
Definition spec_step (sym : bytes) (aggressor : OrderType) (now : Z) (b : SpecBook) :
    option (Execution * SpecBook) :=
  match s_bids b, s_asks b with
  | bd :: bs, ak :: as_ =>
      if tick_of bd <? tick_of ak then None
      else
        let q := Z.min (quantity ak) (quantity bd) in
        Some (buildExecution q ak bd sym aggressor now,
              mkSpec (unless_filled (fill q bd) bs) (unless_filled (fill q ak) as_))
  | _, _ => None
  end.

Fixpoint spec_match (fuel : nat) (sym : bytes) (aggressor : OrderType) (now : nat -> Z)
    (i : nat) (b : SpecBook) : list Execution * SpecBook :=
  match fuel with
  | O => ([], b)
  | S n =>
      match spec_step sym aggressor (now i) b with
      | None => ([], b)
      | Some (e, b') =>
          let '(es, b'') := spec_match n sym aggressor now (S i) b' in (e :: es, b'')
      end
  end.

(** The whole engine: a book per symbol key and the number of live orders. *)
Record SpecState := mkSpecState {
  sp_books : gmap Z SpecBook;
  sp_live : Z }.

Definition spec_new : SpecState := mkSpecState ∅ 0.

Definition sp_book_at (sp : SpecState) (k : Z) : SpecBook :=
  default spec_empty (sp_books sp !! k).

Definition spec_accept (now : nat -> Z) (sp : SpecState) (order : Order) :
    SpecState * list Execution :=
  let t := tick_of order in
  if (t <? 0) || (MAX_TICKS <=? t) then (sp, []) else
  if sp_live sp =? POOL_CAPACITY then (sp, []) else
  let o := payload order in
  let k := sym_key (symbol order) in
  let b := spec_insert o (sp_book_at sp k) in
  let '(es, b') := spec_match (S (spec_size b)) (symbol order) (order_type order) now 0 b in
  (mkSpecState (<[k := b']> (sp_books sp))
     (sp_live sp + Z.of_nat (spec_size b') - Z.of_nat (spec_size (sp_book_at sp k))), es).

Fixpoint spec_accept_all (now : nat -> nat -> Z) (i : nat) (sp : SpecState)
    (os : list Order) : SpecState * list Execution :=
  match os with
  | [] => (sp, [])
  | o :: os' =>
      let '(sp', es) := spec_accept (now i) sp o in
      let '(sp'', es') := spec_accept_all now (S i) sp' os' in
      (sp'', es ++ es')
  end.

Definition spec_best (sd : OrderType) (b : SpecBook) : option Z :=
  tick_of <$> head (spec_side sd b).

(** ** The specification's loop terminates *)

Lemma wrap_i32_0 : wrap_i32 0 = 0.
Proof. reflexivity. Qed.

Lemma unless_filled_length q o l : (length (unless_filled (fill q o) l) <= S (length l))%nat.
Proof. unfold unless_filled. case_match; cbn; lia. Qed.

Lemma unless_filled_all o l : unless_filled (fill (quantity o) o) l = l.
Proof. unfold unless_filled, fill; cbn. by rewrite Z.sub_diag, wrap_i32_0. Qed.

(** Every trade fills at least one of the two orders. *)
Lemma spec_step_decreases sym aggressor t b e b' :
  spec_step sym aggressor t b = Some (e, b') -> (spec_size b' < spec_size b)%nat.
Proof.
  unfold spec_step, spec_size. destruct b as [[|bd bs] [|ak as_]]; cbn; try done.
  destruct (tick_of bd <? tick_of ak); [done|]. intros [= _ <-]; cbn.
  destruct (Z.min_spec (quantity ak) (quantity bd)) as [[_ ->]|[_ ->]];
    rewrite unless_filled_all;
    match goal with |- context [unless_filled (fill ?q ?o) ?l] =>
      pose proof (unless_filled_length q o l) end; lia.
Qed.

Lemma spec_match_fuel sym aggressor now n : forall n' i b,
  (spec_size b < n)%nat -> (spec_size b < n')%nat ->
  spec_match n sym aggressor now i b = spec_match n' sym aggressor now i b.
Proof.
  induction n as [|n IH]; intros [|n'] i b Hn Hn'; [lia|lia|lia|]. cbn [spec_match].
  destruct (spec_step sym aggressor (now i) b) as [[e b']|] eqn:E; [|done].
  apply spec_step_decreases in E. by rewrite (IH n') by lia.
Qed.

(** The loop stops at a book that no longer crosses. *)
Lemma spec_match_stops sym aggressor now n : forall i b,
  (spec_size b < n)%nat ->
  let '(_, b') := spec_match n sym aggressor now i b in
  forall t, spec_step sym aggressor t b' = None.
Proof.
  assert (Hnone : forall t t' b, spec_step sym aggressor t b = None ->
            spec_step sym aggressor t' b = None).
  { intros t t' [[|bd bs] [|ak as_]]; cbn; try done. by destruct (tick_of bd <? tick_of ak). }
  induction n as [|n IH]; intros i b Hn; [lia|]. cbn [spec_match].
  destruct (spec_step sym aggressor (now i) b) as [[e b']|] eqn:E; [|eauto].
  apply spec_step_decreases in E. specialize (IH (S i) b' ltac:(lia)).
  by destruct (spec_match n sym aggressor now (S i) b').
Qed.

Lemma spec_match_shrinks sym aggressor now n : forall i b,
  (spec_size (spec_match n sym aggressor now i b).2 <= spec_size b)%nat.
Proof.
  induction n as [|n IH]; intros i b; cbn [spec_match]; [done|].
  destruct (spec_step sym aggressor (now i) b) as [[e b']|] eqn:E; [|done].
  apply spec_step_decreases in E. specialize (IH (S i) b').
  destruct (spec_match n sym aggressor now (S i) b'); cbn in *. lia.
Qed.

Lemma spec_insert_size o b : spec_size (spec_insert o b) = S (spec_size b).
Proof.
  unfold spec_insert, spec_size, spec_insert_side.
  destruct (order_type o); cbn; rewrite insert_prio_length; lia.
Qed.
