(* ===== verification/OrderBookSweep.v ===== *)
(** * The specification in closed form: an incoming order sweeps the other side

    On an uncrossed book whose quantities are positive, the matching loop
    started by a new order is one pass over the opposite side: the order
    trades with the resting orders in priority order until it is filled or
    the next one is out of its limit, and what is left rests.  The
    consequences for the executions (price, quantity, priority) are read off
    the pass. *)

From S2P Require Import Prelude Float64 CString Messages TickBitset PriceTick OrderBook.
From S2P Require Import OrderBookSpec.

Local Open Scope Z_scope.

Definition opposite (sd : OrderType) : OrderType :=
  match sd with BUY => SELL | SELL => BUY end.

(** The book with side [sd] and the opposite side given. *)
Definition mk_book (sd : OrderType) (own opp : list Order) : SpecBook :=
  match sd with BUY => mkSpec own opp | SELL => mkSpec opp own end.

(** The execution between the resting order [r] and the incoming order [o]. *)
Definition trade (q : Z) (r o : Order) (sym : bytes) (sd : OrderType) (t : Z) : Execution :=
  match sd with
  | BUY => buildExecution q r o sym BUY t
  | SELL => buildExecution q o r sym SELL t
  end.

(** The pass: executions, what is left of the order, the opposite side. *)
Fixpoint sweep (sym : bytes) (sd : OrderType) (now : nat -> Z) (i : nat) (o : Order)
    (opp : list Order) : list Execution * option Order * list Order :=
  match opp with
  | [] => ([], Some o, [])
  | r :: opp' =>
      if at_least sd (tick_of o) (tick_of r) then
        let q := Z.min (quantity r) (quantity o) in
        let e := trade q r o sym sd (now i) in
        if quantity o <? quantity r then ([e], None, fill q r :: opp')
        else if quantity o =? quantity r then ([e], None, opp')
        else let '(es, rest, opp'') := sweep sym sd now (S i) (fill q o) opp' in
             (e :: es, rest, opp'')
      else ([], Some o, opp)
  end.

Definition rest_in (sd : OrderType) (rest : option Order) (own : list Order) : list Order :=
  match rest with None => own | Some o => spec_insert_side sd o own end.

(** ** Well-formed books *)

Definition positive_order (o : Order) : Prop := 0 < quantity o <= INT32_MAX.

Definition sorted_side (sd : OrderType) (l : list Order) : Prop :=
  StronglySorted (fun a b => at_least sd (tick_of a) (tick_of b) = true) l.

(** No order of [l] is within the limit of the first order of [own]. *)
Definition no_cross (sd : OrderType) (own l : list Order) : Prop :=
  match own with
  | [] => True
  | w :: _ => Forall (fun r => at_least sd (tick_of w) (tick_of r) = false) l
  end.

Lemma fill_positive q o :
  positive_order o -> 0 <= q <= quantity o -> quantity (fill q o) = quantity o - q.
Proof. intros Ho Hq. apply wrap_i32_id. unfold positive_order, in_i32 in *. lia. Qed.

Lemma unless_filled_positive q o l :
  positive_order o -> 0 <= q <= quantity o ->
  unless_filled (fill q o) l = if quantity o =? q then l else fill q o :: l.
Proof.
  intros Ho Hq. unfold unless_filled. rewrite fill_positive by done. zcases; lia || done.
Qed.

Lemma at_least_refl sd t : at_least sd t t = true.
Proof. destruct sd; apply Z.leb_refl. Qed.

Lemma at_least_trans sd a b c :
  at_least sd a b = true -> at_least sd b c = true -> at_least sd a c = true.
Proof. unfold at_least. destruct sd; rewrite !Z.leb_le; lia. Qed.

(** On the opposite side, an order at most as good as one that is out of the
    limit is out of it too. *)
Lemma at_least_opposite sd t r r' :
  at_least sd t r = false -> at_least (opposite sd) r r' = true -> at_least sd t r' = false.
Proof. unfold at_least, opposite. destruct sd; rewrite !Z.leb_gt, Z.leb_le; lia. Qed.

Lemma at_least_false_trans sd t t' r :
  at_least sd t' r = false -> at_least sd t' t = true -> at_least sd t r = false.
Proof. unfold at_least. destruct sd; rewrite !Z.leb_gt, Z.leb_le; lia. Qed.

Lemma spec_step_mk sym sd t o own r opp :
  spec_step sym sd t (mk_book sd (o :: own) (r :: opp)) =
  if at_least sd (tick_of o) (tick_of r) then
    let q := Z.min (quantity r) (quantity o) in
    Some (trade q r o sym sd t,
          mk_book sd (unless_filled (fill q o) own) (unless_filled (fill q r) opp))
  else None.
Proof.
  destruct sd; cbn [mk_book spec_step s_bids s_asks at_least trade]; zcases; try lia; try done.
  by rewrite Z.min_comm.
Qed.

Lemma spec_step_no_cross sym sd sd' t own opp :
  no_cross sd own opp -> spec_step sym sd' t (mk_book sd own opp) = None.
Proof.
  unfold no_cross, spec_step. destruct own as [|w own], opp as [|r opp], sd; cbn; try done;
    intros H; apply Forall_cons in H as [H _]; apply Z.leb_gt in H;
    by rewrite (proj2 (Z.ltb_lt _ _)).
Qed.

Lemma spec_match_stuck sym sd now n i b :
  (forall t, spec_step sym sd t b = None) -> spec_match n sym sd now i b = ([], b).
Proof. intros H. destruct n; cbn; [done|]. by rewrite H. Qed.

Lemma no_cross_fill sd own q r opp :
  no_cross sd own (r :: opp) -> no_cross sd own (fill q r :: opp) /\ no_cross sd own opp.
Proof.
  destruct own as [|w own]; cbn; [done|]. intros [H1 H2]%Forall_cons.
  split; [by constructor|done].
Qed.

(** The pass of an order standing in front of its own side. *)
Lemma sweep_front sym sd now own : forall opp o i n,
  no_cross sd own opp -> sorted_side (opposite sd) opp ->
  positive_order o -> Forall positive_order opp ->
  (length opp + length own + 1 < n)%nat ->
  spec_match n sym sd now i (mk_book sd (o :: own) opp) =
  let '(es, rest, opp') := sweep sym sd now i o opp in
  (es, mk_book sd (match rest with Some o' => o' :: own | None => own end) opp').
Proof.
  induction opp as [|r opp IH]; intros o i n Hnc Hs Ho Hopp Hn; cbn [sweep].
  { apply spec_match_stuck. intros t. apply spec_step_no_cross. constructor. }
  apply StronglySorted_inv in Hs as [Hs Hr].
  apply Forall_cons in Hopp as [Hrpos Hopp].
  destruct n as [|n]; [cbn in Hn; lia|]. cbn [length] in Hn.
  destruct (at_least sd (tick_of o) (tick_of r)) eqn:Hcross.
  2:{ apply spec_match_stuck. intros t. apply spec_step_no_cross. cbn. constructor; [done|].
      eapply Forall_impl; [exact Hr|]. intros r' Hr'; cbn in Hr'. by eapply at_least_opposite. }
  cbn [spec_match]. rewrite spec_step_mk, Hcross. cbv zeta.
  destruct (no_cross_fill _ _ (Z.min (quantity r) (quantity o)) _ _ Hnc) as [Hnc1 Hnc2].
  unfold positive_order in Ho, Hrpos.
  rewrite !unless_filled_positive by (unfold positive_order; lia).
  destruct (Z.ltb_spec (quantity o) (quantity r)).
  { rewrite Z.min_r in * by lia. rewrite (proj2 (Z.eqb_eq _ _)), (proj2 (Z.eqb_neq (quantity r) _)) by lia.
    rewrite spec_match_stuck; [done|]. intros t. by apply spec_step_no_cross. }
  destruct (Z.eqb_spec (quantity o) (quantity r)) as [E|E].
  { rewrite E, Z.min_id, Z.eqb_refl.
    rewrite spec_match_stuck; [done|]. intros t. by apply spec_step_no_cross. }
  rewrite Z.min_l in * by lia. rewrite Z.eqb_refl, (proj2 (Z.eqb_neq (quantity o) _)) by lia.
  rewrite IH; [|done|done| |done|lia].
  - by destruct (sweep _ _ _ _ _ _) as [[es rest] opp'].
  - unfold positive_order. rewrite fill_positive by (unfold positive_order; lia). lia.
Qed.

Lemma rest_in_front sd o own :
  match own with [] => True | w :: _ => at_least sd (tick_of w) (tick_of o) = false end ->
  spec_insert_side sd o own = o :: own.
Proof. unfold spec_insert_side. destruct own as [|w own]; cbn; [done|]. by intros ->. Qed.

Lemma sweep_rest_tick sym sd now : forall opp o i es o' opp',
  sweep sym sd now i o opp = (es, Some o', opp') -> tick_of o' = tick_of o.
Proof.
  induction opp as [|r opp IH]; intros o i es o' opp'; cbn [sweep]; [by intros [= _ <- _]|].
  destruct (at_least _ _ _); [|by intros [= _ <- _]].
  destruct (quantity o <? quantity r); [done|]. destruct (quantity o =? quantity r); [done|].
  destruct (sweep _ _ _ _ _ opp) as [[es1 rest] opp1] eqn:E. intros [= _ -> _].
  exact (IH (fill (Z.min (quantity r) (quantity o)) o) _ _ _ _ E).
Qed.

(** The matching loop after an insertion is the pass. *)
Lemma spec_match_sweep sym sd now i o own opp n :
  no_cross sd own opp -> sorted_side sd own -> sorted_side (opposite sd) opp ->
  positive_order o -> Forall positive_order opp ->
  (length opp + length own + 1 < n)%nat ->
  spec_match n sym sd now i (mk_book sd (spec_insert_side sd o own) opp) =
  let '(es, rest, opp') := sweep sym sd now i o opp in
  (es, mk_book sd (rest_in sd rest own) opp').
Proof.
  intros Hnc Hown Hopp Ho Hpos Hn.
  assert (Hdec : match own with [] => True
                 | w :: _ => at_least sd (tick_of w) (tick_of o) = false end \/
                 exists w own', own = w :: own' /\ at_least sd (tick_of w) (tick_of o) = true).
  { destruct own as [|w own']; [by left|]. destruct (at_least _ _ _) eqn:E; eauto. }
  destruct Hdec as [Hfront|(w & own' & -> & Hw)].
  - rewrite rest_in_front, sweep_front by done.
    destruct (sweep sym sd now i o opp) as [[es [o'|]] opp'] eqn:E; [|done].
    cbn [rest_in]. rewrite rest_in_front; [done|].
    destruct own as [|w own]; [done|]. by rewrite (sweep_rest_tick _ _ _ _ _ _ _ _ _ E).
  - (* a resting order of the same side is at least as good: nothing crosses *)
    cbn in Hnc.
    assert (Hsweep : sweep sym sd now i o opp = ([], Some o, opp)).
    { destruct opp as [|r opp]; [done|]. cbn [sweep]. apply Forall_cons in Hnc as [Hr _].
      by rewrite (at_least_false_trans _ _ _ _ Hr Hw). }
    rewrite Hsweep. apply spec_match_stuck. intros t. apply spec_step_no_cross.
    cbn [rest_in]. unfold spec_insert_side. cbn [insert_prio]. by rewrite Hw.
Qed.
