(* ===== verification/OrderBookRefinement.v ===== *)
(** * The order book implements its specification

    The ghost state of one side of a book is the list of its [(slot, tick)]
    entries, best first.  [side_rep] relates it to the price levels, the
    bitset and the cached best tick; [match_inv] adds the pool: the free
    slots, the slots of the bids and the slots of the asks are together a
    fixed set of slots, each exactly once.  Every operation is shown to keep
    these relations and to act on the ghost state as [OrderBookSpec] says. *)

From S2P Require Import Prelude Float64 CString Messages ObjectPool PriceLevel TickBitset.
From S2P Require Import PriceTick OrderBook OrderBookSpec.

Local Open Scope Z_scope.

Abbreviation entry := (Z * Z)%type.

(** The slots resting at tick [t], oldest first. *)
Definition slots_at (t : Z) (es : list entry) : list Z :=
  (filter (fun e => e.2 = t) es).*1.

Definition better (sd : OrderType) (t t' : Z) : Prop := at_least sd t t' = true.

Definition best_of (sd : OrderType) (ts : list Z) : Z :=
  match ts with
  | [] => match sd with BUY => -1 | SELL => MAX_TICKS end
  | t :: _ => t
  end.

(** What the ghost state says about the order in a slot. *)
Definition entry_ok (h : slab) (sd : OrderType) (k : Z) (e : entry) : Prop :=
  0 <= e.2 < MAX_TICKS /\ tick_of (order_at h e.1) = e.2 /\
  order_type (order_at h e.1) = sd /\ sym_key (symbol (order_at h e.1)) = k.

Record side_rep (h : slab) (sd : OrderType) (k : Z) (levels : gmap Z PriceLevel)
    (bits : words) (best : Z) (es : list entry) : Prop := {
  sr_levels : forall t, level_rep h (level_at levels t) (slots_at t es);
  sr_words : words_ok bits;
  sr_bits : forall t, bit bits t = true <-> t ∈ es.*2;
  sr_sorted : StronglySorted (better sd) (es.*2);
  sr_orders : forall e, e ∈ es -> entry_ok h sd k e;
  sr_best : best = best_of sd (es.*2) }.

(** The orders of a side as the specification sees them. *)
Definition view (h : slab) (es : list entry) : list Order :=
  (fun e => payload (order_at h e.1)) <$> es.

(** ** Frames *)

(** The fields on which [side_rep] depends. *)
Definition same_static (o o' : Order) : Prop :=
  next o' = next o /\ price o' = price o /\ order_type o' = order_type o /\
  symbol o' = symbol o.

Lemma slots_at_subset t es x : x ∈ slots_at t es -> x ∈ es.*1.
Proof.
  unfold slots_at. rewrite !list_elem_of_fmap. intros (e & -> & He).
  apply list_elem_of_filter in He as [_ He]. eauto.
Qed.

Lemma entry_ok_frame h h' sd k e :
  price (order_at h' e.1) = price (order_at h e.1) ->
  order_type (order_at h' e.1) = order_type (order_at h e.1) ->
  symbol (order_at h' e.1) = symbol (order_at h e.1) ->
  entry_ok h sd k e -> entry_ok h' sd k e.
Proof. unfold entry_ok, tick_of. by intros -> -> ->. Qed.

Lemma side_rep_frame h h' sd k levels bits best es :
  (forall x, x ∈ es.*1 -> same_static (order_at h x) (order_at h' x)) ->
  side_rep h sd k levels bits best es -> side_rep h' sd k levels bits best es.
Proof.
  intros Hf [H1 H2 H3 H4 H5 H6]. split; try done.
  - intros t. eapply level_rep_frame; [|apply H1].
    intros x Hx. apply slots_at_subset in Hx. by apply Hf.
  - intros e He. destruct (Hf e.1) as (_ & Hp & Ht & Hs).
    { apply list_elem_of_fmap. eauto. }
    eapply entry_ok_frame; [..|by apply H5]; done.
Qed.

Lemma view_frame h h' es :
  (forall x, x ∈ es.*1 -> payload (order_at h' x) = payload (order_at h x)) ->
  view h' es = view h es.
Proof.
  intros Hf. unfold view. apply list_fmap_ext. intros i e He.
  apply Hf. apply list_elem_of_fmap. eexists; split; [done|]. by eapply list_elem_of_lookup_2.
Qed.

(** ** Empty side, front of a side *)

Lemma side_rep_empty h sd k :
  side_rep h sd k ∅ ∅ (best_of sd []) [].
Proof.
  split; try done.
  - intros t. unfold level_at. rewrite vget_empty. apply level_rep_zero.
  - apply words_ok_empty.
  - intros t. unfold bit, word. rewrite vget_empty, Z.bits_0.
    split; [done|]. intros H. by apply elem_of_nil in H.
  - constructor.
  - intros e H. by apply elem_of_nil in H.
Qed.

Lemma slots_at_cons t s t' es :
  slots_at t ((s, t') :: es) =
  if decide (t' = t) then s :: slots_at t es else slots_at t es.
Proof. unfold slots_at. rewrite filter_cons. cbn. by case_decide. Qed.

Lemma slots_at_nil t es : slots_at t es = [] <-> t ∉ es.*2.
Proof.
  induction es as [|[s t'] es IH]; [split; [intros _; apply not_elem_of_nil|done]|].
  rewrite slots_at_cons. cbn [fmap list_fmap]. rewrite not_elem_of_cons.
  case_decide as H; cbn.
  - split; [done|]. intros [Hne _]. congruence.
  - rewrite IH. split; [intros ?; split; congruence|by intros [_ ?]].
Qed.

Lemma side_front h sd k levels bits best s t es :
  side_rep h sd k levels bits best ((s, t) :: es) ->
  best = t /\ level_front (level_at levels best) = Some s.
Proof.
  intros [H1 _ _ _ _ ->]. split; [done|]. cbn [best_of fmap list_fmap].
  erewrite level_rep_front by apply H1. rewrite slots_at_cons. by rewrite decide_True.
Qed.

Lemma side_none h sd k levels bits best :
  side_rep h sd k levels bits best [] -> best = best_of sd [].
Proof. by intros [? ? ? ? ? ->]. Qed.

Lemma side_best_range h sd k levels bits best e es :
  side_rep h sd k levels bits best (e :: es) -> 0 <= best < MAX_TICKS.
Proof.
  intros H. destruct e as [s t]. destruct (side_front _ _ _ _ _ _ _ _ _ H) as [-> _].
  destruct (sr_orders _ _ _ _ _ _ _ H (s, t)) as [? _]; [left|done].
Qed.

(** ** Removing the front of a side *)

Definition next_best (sd : OrderType) (bits : words) (t : Z) : Z :=
  match sd with BUY => highest_bid bits t | SELL => lowest_ask bits t end.

(** The bitset scan returns the head of the remaining entries. *)
Lemma next_best_correct sd bits t ts :
  words_ok bits -> 0 <= t < MAX_TICKS ->
  (forall t', bit bits t' = true <-> t' ∈ ts) ->
  StronglySorted (better sd) ts ->
  (forall t', t' ∈ ts -> 0 <= t' < MAX_TICKS /\ better sd t t') ->
  next_best sd bits t = best_of sd ts.
Proof.
  intros Hok Ht Hbits Hsort Hts.
  assert (Hno : forall t', bit bits t' = false -> t' ∉ ts)
    by (intros t' Hf Hin%Hbits; congruence).
  assert (Hhead : forall r, r ∈ ts -> (forall t', t' ∈ ts -> better sd r t') -> r = best_of sd ts).
  { intros r Hr Hall. destruct ts as [|t0 ts']; [by apply elem_of_nil in Hr|]. cbn [best_of].
    apply StronglySorted_inv in Hsort as [_ Hs]. rewrite Forall_forall in Hs.
    apply elem_of_cons in Hr as [?|Hr]; [done|].
    specialize (Hs r Hr). specialize (Hall t0 ltac:(left)).
    unfold better, at_least in *. destruct sd; apply Z.leb_le in Hs, Hall; lia. }
  assert (Hnil : (forall r, r ∉ ts) -> best_of sd ts = best_of sd []).
  { destruct ts as [|t0 ts']; [done|]. intros H. by destruct (H t0 ltac:(left)). }
  unfold next_best, better, at_least in *. destruct sd.
  - destruct (highest_bid_spec bits t Hok) as [[Hr Hf]|(Hr & Hb & Hf)]; [lia| |].
    + rewrite Hr, Hnil; [done|]. intros r Hin. destruct (Hts r Hin) as [? ?%Z.leb_le].
      apply (Hno r); [|done]. apply Hf; lia.
    + apply Hhead; [by apply Hbits|]. intros t' Hin. destruct (Hts t' Hin) as [? ?%Z.leb_le].
      apply Z.leb_le, Z.nlt_ge. intros Hlt. apply (Hno t'); [|done]. apply Hf; lia.
  - assert (Hrange : bits_in_range bits).
    { intros j Hj. destruct (bit bits j) eqn:Hb; [|done].
      apply Hbits, Hts in Hb as [? _]. lia. }
    destruct (lowest_ask_spec bits t Hok Hrange) as [[Hr Hf]|(Hr & Hb & Hf)]; [lia| |].
    + rewrite Hr, Hnil; [done|]. intros r Hin. destruct (Hts r Hin) as [? ?%Z.leb_le].
      apply (Hno r); [|done]. apply Hf; lia.
    + apply Hhead; [by apply Hbits|]. intros t' Hin. destruct (Hts t' Hin) as [? ?%Z.leb_le].
      apply Z.leb_le, Z.nlt_ge. intros Hlt. apply (Hno t'); [|done]. apply Hf; lia.
Qed.

(** After the front order left its queue, the side is restored either as it
    is or by clearing the bit and scanning, as the emptiness test says. *)
Lemma side_pop h sd k levels bits best s t es :
  side_rep h sd k levels bits best ((s, t) :: es) ->
  let levels' := <[t := (level_pop_front h (level_at levels t)).2]> levels in
  if level_empty (level_at levels' t)
  then side_rep h sd k levels' (bit_clear bits t) (next_best sd (bit_clear bits t) t) es
  else side_rep h sd k levels' bits t es.
Proof.
  intros [H1 H2 H3 H4 H5 H6] levels'.
  assert (Hlv : forall t', level_rep h (level_at levels' t') (slots_at t' es)).
  { intros t'. unfold levels', level_at. rewrite vget_insert.
    specialize (H1 t'). rewrite slots_at_cons in H1. case_decide as Ht; [|exact H1].
    subst t'. destruct (level_pop_rep _ _ _ _ H1) as (lv' & Hpop & Hrep).
    unfold level_at in Hpop. by rewrite Hpop. }
  cbn in H4. apply StronglySorted_inv in H4 as [Hs Hall]. rewrite Forall_forall in Hall.
  assert (Hord : forall e, e ∈ es -> entry_ok h sd k e) by (intros; apply H5; by right).
  assert (Hrange : forall t', t' ∈ es.*2 -> 0 <= t' < MAX_TICKS /\ better sd t t').
  { intros t' Hin. split; [|by apply Hall].
    apply list_elem_of_fmap in Hin as (e & -> & He). by apply Hord. }
  rewrite (level_rep_empty _ _ _ (Hlv t)).
  destruct (H5 (s, t)) as [Ht _]; [left|]. cbn in Ht.
  case_bool_decide as Hempty.
  - rewrite slots_at_nil in Hempty.
    assert (Hb' : forall t', bit (bit_clear bits t) t' = true <-> t' ∈ es.*2).
    { intros t'. rewrite bit_bit_clear, andb_true_iff, negb_true_iff, Z.eqb_neq, H3.
      cbn. rewrite elem_of_cons. split; [intros [? [?|?]]; done|].
      intros Hin. split; [congruence|by right]. }
    split; try done; [by apply bit_clear_ok|].
    apply next_best_correct; try done. by apply bit_clear_ok.
  - rewrite slots_at_nil in Hempty. apply dec_stable in Hempty.
    split; try done.
    + intros t'. rewrite H3. cbn. rewrite elem_of_cons.
      split; [by intros [->|]|by right].
    + destruct (es.*2) as [|t0 ts]; [by apply elem_of_nil in Hempty|]. cbn [best_of].
      apply elem_of_cons in Hempty as [?|Hin]; [done|].
      destruct (Hrange t0) as [_ Hb1]; [left|].
      apply StronglySorted_inv in Hs as [_ Hs]. rewrite Forall_forall in Hs.
      specialize (Hs t Hin). unfold better, at_least in *.
      destruct sd; apply Z.leb_le in Hs, Hb1; lia.
Qed.

(** ** Queueing an order *)

Lemma slots_at_app t l1 l2 : slots_at t (l1 ++ l2) = slots_at t l1 ++ slots_at t l2.
Proof. unfold slots_at. by rewrite filter_app, fmap_app. Qed.

Definition insert_entry (sd : OrderType) (e : entry) (es : list entry) : list entry :=
  insert_prio (fun y => at_least sd y.2 e.2) e es.

Lemma better_trans sd a b c : better sd a b -> better sd b c -> better sd a c.
Proof. unfold better, at_least. destruct sd; rewrite !Z.leb_le; lia. Qed.

(** The entries behind the insertion point are strictly worse. *)
Lemma insert_entry_split sd e es :
  StronglySorted (better sd) (es.*2) -> exists l1 l2,
  es = l1 ++ l2 /\ insert_entry sd e es = l1 ++ e :: l2 /\
  Forall (fun y => at_least sd y.2 e.2 = true) l1 /\
  Forall (fun y => at_least sd y.2 e.2 = false) l2.
Proof.
  intros Hs. unfold insert_entry.
  destruct (insert_prio_split (fun y => at_least sd y.2 e.2) e es)
    as (l1 & l2 & -> & Hi & H1 & H2).
  exists l1, l2. split_and!; [done|done|done|].
  destruct l2 as [|y l2]; [constructor|]. constructor; [done|].
  rewrite fmap_app in Hs. apply StronglySorted_app_1_r in Hs. cbn in Hs.
  apply StronglySorted_inv in Hs as [_ Hs]. rewrite Forall_fmap in Hs.
  eapply Forall_impl; [exact Hs|]. intros z Hz; cbn in Hz.
  destruct (at_least sd z.2 e.2) eqn:E; [|done].
  by rewrite (better_trans _ _ _ _ Hz E) in H2.
Qed.

Lemma slots_at_insert sd s t es t' :
  StronglySorted (better sd) (es.*2) ->
  slots_at t' (insert_entry sd (s, t) es) =
  if decide (t = t') then slots_at t' es ++ [s] else slots_at t' es.
Proof.
  intros Hs. destruct (insert_entry_split sd (s, t) es Hs) as (l1 & l2 & -> & -> & _ & H2).
  rewrite !slots_at_app, slots_at_cons. case_decide as Ht; [subst t'|done].
  assert (slots_at t l2 = []) as ->; [|by rewrite app_nil_r].
  apply slots_at_nil. rewrite list_elem_of_fmap. intros (e & -> & He).
  rewrite Forall_forall in H2. specialize (H2 e He). cbn in H2.
  unfold at_least in H2. destruct sd; apply Z.leb_gt in H2; lia.
Qed.

Lemma insert_entry_sorted sd e es :
  StronglySorted (better sd) (es.*2) ->
  StronglySorted (better sd) ((insert_entry sd e es).*2).
Proof.
  intros Hs. destruct (insert_entry_split sd e es Hs) as (l1 & l2 & -> & -> & H1 & H2).
  rewrite fmap_app in *. cbn [fmap list_fmap].
  apply StronglySorted_app in Hs as (Hcross & Hs1 & Hs2).
  assert (Hle : forall y, y ∈ l2.*2 -> better sd e.2 y).
  { intros y Hy. apply list_elem_of_fmap in Hy as (z & -> & Hz).
    rewrite Forall_forall in H2. specialize (H2 z Hz).
    unfold better, at_least in *. destruct sd; apply Z.leb_gt in H2; apply Z.leb_le; lia. }
  apply StronglySorted_app; split_and!; [|done|].
  - intros x y Hx Hy. apply elem_of_cons in Hy as [->|Hy]; [|by apply Hcross].
    apply list_elem_of_fmap in Hx as (z & -> & Hz).
    rewrite Forall_forall in H1. by apply H1.
  - constructor; [done|]. by rewrite Forall_forall.
Qed.

Lemma entries_unique (es : list entry) e e' :
  NoDup es.*1 -> e ∈ es -> e' ∈ es -> e.1 = e'.1 -> e = e'.
Proof.
  intros Hnd (i & Hi)%list_elem_of_lookup (j & Hj)%list_elem_of_lookup Heq.
  assert (Hi' : es.*1 !! i = Some e.1) by (by rewrite list_lookup_fmap, Hi).
  assert (Hj' : es.*1 !! j = Some e.1) by (by rewrite list_lookup_fmap, Hj, Heq).
  assert (i = j) by exact (NoDup_lookup _ _ _ _ Hnd Hi' Hj'). congruence.
Qed.

Lemma slots_at_disjoint es t t' x :
  NoDup es.*1 -> x ∈ slots_at t es -> x ∈ slots_at t' es -> t = t'.
Proof.
  unfold slots_at. intros Hnd. rewrite !list_elem_of_fmap.
  intros (e & -> & He) (e' & Heq & He').
  apply list_elem_of_filter in He as [<- He], He' as [<- He'].
  by rewrite (entries_unique es e e').
Qed.

Definition new_best (sd : OrderType) (best t : Z) : Z :=
  match sd with
  | BUY => if best <? t then t else best
  | SELL => if t <? best then t else best
  end.

Lemma insert_entry_best sd s t es :
  0 <= t < MAX_TICKS ->
  new_best sd (best_of sd (es.*2)) t = best_of sd ((insert_entry sd (s, t) es).*2).
Proof.
  intros Ht. unfold new_best, insert_entry, at_least.
  destruct es as [|e es]; cbn; [destruct sd; zcases; lia|].
  destruct sd; zcases; cbn; lia.
Qed.

Lemma side_push h sd k levels bits best es o t :
  side_rep h sd k levels bits best es -> NoDup es.*1 -> o ∉ es.*1 ->
  entry_ok h sd k (o, t) ->
  let '(h', lv) := level_push h (level_at levels t) o in
  side_rep h' sd k (<[t := lv]> levels) (bit_set bits t) (new_best sd best t)
    (insert_entry sd (o, t) es) /\
  (forall x, payload (order_at h' x) = payload (order_at h x)) /\
  (forall x, x ∉ es.*1 -> x <> o -> order_at h' x = order_at h x).
Proof.
  intros [H1 H2 H3 H4 H5 H6] Hnd Ho Hok.
  assert (Hol : forall t', o ∉ slots_at t' es) by (intros t' ?%slots_at_subset; done).
  pose proof (level_push_rep h _ _ o (H1 t) (Hol t)) as Hpush.
  destruct (level_push h (level_at levels t) o) as [h' lv].
  destruct Hpush as (Hlv & Hpay & Hframe).
  split; [|split; [done|]].
  2:{ intros x Hx Hxo. apply Hframe; [|done]. by intros ?%slots_at_subset. }
  assert (Hent : forall e, entry_ok h sd k e -> entry_ok h' sd k e).
  { intros e. specialize (Hpay e.1).
    apply entry_ok_frame; unfold payload, set_next in Hpay; congruence. }
  split.
  - intros t'. rewrite slots_at_insert by done. unfold level_at. rewrite vget_insert.
    case_decide as Ht; [by subst|]. apply (level_rep_frame h); [|apply H1].
    intros x Hx. f_equal. apply Hframe; [|intros ->; by apply (Hol t')].
    intros Hx'. by rewrite (slots_at_disjoint es t t' x Hnd) in Ht.
  - by apply bit_set_ok.
  - intros t'. rewrite bit_bit_set, orb_true_iff, Z.eqb_eq, H3.
    unfold insert_entry. rewrite insert_prio_perm. cbn. by rewrite elem_of_cons.
  - by apply insert_entry_sorted.
  - intros e He. unfold insert_entry in He. rewrite insert_prio_perm in He.
    apply elem_of_cons in He as [->|He]; auto.
  - rewrite H6. apply insert_entry_best. apply Hok.
Qed.

(** ** The loop invariant of [matchOrders] *)

Definition book_rep (h : slab) (k : Z) (b : SymbolBook) (B A : list entry) : Prop :=
  side_rep h BUY k (bids b) (bid_bits b) (best_bid_tick b) B /\
  side_rep h SELL k (asks b) (ask_bits b) (best_ask_tick b) A.

Definition spec_of (h : slab) (B A : list entry) : SpecBook := mkSpec (view h B) (view h A).

(** [R] is the fixed set of slots that are free or rest in this book; [h0]
    is the slab when the loop starts. *)
Record match_inv (h0 : slab) (R : list Z) (k : Z) (p : ObjectPool Order) (b : SymbolBook)
    (fs : list Z) (B A : list entry) : Prop := {
  mi_pool : pool_rep p fs;
  mi_book : book_rep (slab_ p) k b B A;
  mi_perm : fs ++ B.*1 ++ A.*1 ≡ₚ R;
  mi_frame : forall s, s ∉ R -> order_at (slab_ p) s = order_at h0 s;
  mi_symbol : forall s, symbol (order_at (slab_ p) s) = symbol (order_at h0 s) }.

Lemma order_at_reduce p o q x :
  order_at (slab_ (reduce_quantity p o q)) x =
  if decide (o = x) then fill q (order_at (slab_ p) o) else order_at (slab_ p) x.
Proof. unfold order_at, reduce_quantity, store; cbn. apply vget_insert. Qed.

Lemma reduce_static p o q x :
  same_static (order_at (slab_ p) x) (order_at (slab_ (reduce_quantity p o q)) x).
Proof. rewrite order_at_reduce. case_decide; by subst. Qed.

Lemma view_cons h s t es : view h ((s, t) :: es) = payload (order_at h s) :: view h es.
Proof. done. Qed.

Lemma view_reduce_other p o q es :
  o ∉ es.*1 -> view (slab_ (reduce_quantity p o q)) es = view (slab_ p) es.
Proof.
  intros Ho. apply view_frame. intros x Hx. rewrite order_at_reduce.
  by rewrite decide_False by (intros ->; done).
Qed.

(** ** One side gives up its front order, if it was filled *)

Lemma consume_bid_rep (c : bool) p b s t B A k fs :
  book_rep (slab_ p) k b ((s, t) :: B) A -> pool_rep p fs ->
  Z.of_nat (length fs) + 1 < 2 ^ 64 ->
  let '(p', b') := if c then consume_bid p b s else (p, b) in
  slab_ p' = slab_ p /\ pool_rep p' (if c then fs ++ [s] else fs) /\
  book_rep (slab_ p) k b' (if c then B else (s, t) :: B) A.
Proof.
  intros [HB HA] Hp Hlen. destruct c; [|done].
  destruct (side_front _ _ _ _ _ _ _ _ _ HB) as [Ht _].
  unfold consume_bid. cbn [bids asks bid_bits ask_bits best_bid_tick best_ask_tick].
  rewrite Ht. apply side_pop in HB. cbv zeta in HB. cbn [next_best] in HB.
  destruct (release_rep p fs s Hlen Hp) as [Hrel _].
  destruct (level_empty _); (split; [done|split; [done|split; done]]).
Qed.

Lemma consume_ask_rep (c : bool) p b s t B A k fs :
  book_rep (slab_ p) k b B ((s, t) :: A) -> pool_rep p fs ->
  Z.of_nat (length fs) + 1 < 2 ^ 64 ->
  let '(p', b') := if c then consume_ask p b s else (p, b) in
  slab_ p' = slab_ p /\ pool_rep p' (if c then fs ++ [s] else fs) /\
  book_rep (slab_ p) k b' B (if c then A else (s, t) :: A).
Proof.
  intros [HB HA] Hp Hlen. destruct c; [|done].
  destruct (side_front _ _ _ _ _ _ _ _ _ HA) as [Ht _].
  unfold consume_ask. cbn [bids asks bid_bits ask_bits best_bid_tick best_ask_tick].
  rewrite Ht. apply side_pop in HA. cbv zeta in HA. cbn [next_best] in HA.
  destruct (release_rep p fs s Hlen Hp) as [Hrel _].
  destruct (level_empty _); (split; [done|split; [done|split; done]]).
Qed.

Lemma perm_consume (c : bool) fs (e : entry) B X :
  (if c then fs ++ [e.1] else fs) ++ (if c then B else e :: B).*1 ++ X ≡ₚ
  fs ++ (e :: B).*1 ++ X.
Proof. destruct c; cbn; [|done]. by rewrite <- app_assoc. Qed.

Lemma view_unless_filled h (c : bool) s t B q o :
  payload (order_at h s) = fill q o -> (quantity (fill q o) =? 0) = c ->
  view h (if c then B else (s, t) :: B) = unless_filled (fill q o) (view h B).
Proof. intros Ho Hc. unfold unless_filled. rewrite Hc. destruct c; [done|]. by rewrite view_cons, Ho. Qed.

Section Loop.
Context {St : Type}.
Variables (cb : option (Execution -> St -> St)) (now : nat -> Z).
Variables (h0 : slab) (R : list Z) (k : Z).
Hypothesis HR : NoDup R.
Hypothesis HRlen : Z.of_nat (length R) + 1 < 2 ^ 64.

Abbreviation inv p b fs B A := (match_inv h0 R k p b fs B A).

Lemma inv_front_ticks p b fs sb tb B sa ta A :
  inv p b fs ((sb, tb) :: B) ((sa, ta) :: A) ->
  best_bid_tick b = tb /\ best_ask_tick b = ta /\
  level_front (level_at (bids b) tb) = Some sb /\
  level_front (level_at (asks b) ta) = Some sa /\
  tick_of (order_at (slab_ p) sb) = tb /\ tick_of (order_at (slab_ p) sa) = ta /\
  0 <= tb < MAX_TICKS /\ 0 <= ta < MAX_TICKS.
Proof.
  intros [_ [HB HA] _ _ _].
  destruct (side_front _ _ _ _ _ _ _ _ _ HB) as [Htb Hb].
  destruct (side_front _ _ _ _ _ _ _ _ _ HA) as [Hta Ha].
  destruct (sr_orders _ _ _ _ _ _ _ HB (sb, tb)) as (Rb & Tb & _); [left|].
  destruct (sr_orders _ _ _ _ _ _ _ HA (sa, ta)) as (Ra & Ta & _); [left|].
  rewrite Htb in Hb; rewrite Hta in Ha. done.
Qed.

Lemma inv_nodup p b fs B A : inv p b fs B A -> NoDup (fs ++ B.*1 ++ A.*1).
Proof using HR. intros H. by rewrite (mi_perm _ _ _ _ _ _ _ _ H). Qed.

Lemma inv_lengths p b fs B A : inv p b fs B A ->
  (length fs + length B + length A)%nat = length R.
Proof.
  intros H. rewrite <- (Permutation_length (mi_perm _ _ _ _ _ _ _ _ H)).
  rewrite !length_app, !length_fmap. lia.
Qed.

(** Reducing the quantity of a resting order keeps the invariant. *)
Lemma inv_reduce p b fs B A o q :
  o ∈ B.*1 ++ A.*1 -> inv p b fs B A -> inv (reduce_quantity p o q) b fs B A.
Proof.
  intros Ho [H1 [HB HA] H3 H4 H5]. split.
  - exact H1.
  - split; (eapply side_rep_frame; [|done]); intros x _; apply reduce_static.
  - done.
  - intros s Hs. rewrite order_at_reduce, decide_False; [by apply H4|].
    intros ->. apply Hs. rewrite <- H3. apply elem_of_app; by right.
  - intros s. destruct (reduce_static p o q s) as (_ & _ & _ & ->). apply H5.
Qed.
(** After both quantities are reduced, the two consumptions give the views
    the specification computes. *)
Lemma consume_both p b fs sb tb B sa ta A q ob oa :
  inv p b fs ((sb, tb) :: B) ((sa, ta) :: A) ->
  payload (order_at (slab_ p) sb) = fill q ob ->
  payload (order_at (slab_ p) sa) = fill q oa ->
  let '(p1, b1) := if quantity (deref_order p sb) =? 0
                   then consume_bid p b sb else (p, b) in
  let '(p2, b2) := if quantity (deref_order p1 sa) =? 0
                   then consume_ask p1 b1 sa else (p1, b1) in
  exists fs' B' A', inv p2 b2 fs' B' A' /\
    spec_of (slab_ p2) B' A' =
      mkSpec (unless_filled (fill q ob) (view (slab_ p) B))
             (unless_filled (fill q oa) (view (slab_ p) A)).
Proof using HR HRlen.
  intros Hinv Hob Hoa.
  pose proof (inv_lengths _ _ _ _ _ Hinv) as Hlen. cbn in Hlen.
  destruct Hinv as [Hp Hbook Hperm Hframe Hsym].
  assert (Hq1 : quantity (deref_order p sb) = quantity (fill q ob)) by (by rewrite <- Hob).
  rewrite Hq1. set (c1 := quantity (fill q ob) =? 0).
  pose proof (consume_bid_rep c1 p b sb tb B ((sa, ta) :: A) k fs Hbook Hp ltac:(lia)) as H1.
  destruct (if c1 then consume_bid p b sb else (p, b)) as [p1 b1].
  destruct H1 as (E1 & Hp1 & Hb1).
  assert (Hq2 : quantity (deref_order p1 sa) = quantity (fill q oa)).
  { rewrite <- Hoa. unfold deref_order, deref, order_at. by rewrite E1. }
  rewrite Hq2. set (c2 := quantity (fill q oa) =? 0).
  rewrite <- E1 in Hb1.
  pose proof (consume_ask_rep c2 p1 b1 sa ta _ A k _ Hb1 Hp1) as H2.
  destruct (if c2 then consume_ask p1 b1 sa else (p1, b1)) as [p2 b2].
  destruct H2 as (E2 & Hp2 & Hb2); [destruct c1; rewrite ?length_app; cbn; lia|].
  eexists _, _, _. split.
  - split; [exact Hp2|by rewrite E2| | |]; rewrite ?E2, ?E1; [|done|done].
    rewrite <- Hperm. transitivity
      ((if c1 then fs ++ [sb] else fs) ++ (if c1 then B else (sb, tb) :: B).*1 ++ ((sa, ta) :: A).*1).
    + destruct c1, c2; cbn; rewrite <- ?app_assoc; cbn; solve_Permutation.
    + apply (perm_consume c1 fs (sb, tb)).
  - rewrite E2, E1. unfold spec_of. f_equal; by apply view_unless_filled.
Qed.

Lemma match_step_refines sym aggressor ms fs B A :
  inv (ms_pool ms) (ms_book ms) fs B A ->
  match spec_step (symbol (order_at h0 sym)) aggressor (now (ms_reads ms))
          (spec_of (slab_ (ms_pool ms)) B A) with
  | None => match_step cb now sym aggressor ms = None
  | Some (e, sb') =>
      exists ms' fs' B' A', match_step cb now sym aggressor ms = Some ms' /\
        inv (ms_pool ms') (ms_book ms') fs' B' A' /\
        spec_of (slab_ (ms_pool ms')) B' A' = sb' /\
        ms_reads ms' = S (ms_reads ms) /\ ms_client ms' = notify cb e (ms_client ms)
  end.
Proof using HR HRlen.
  destruct ms as [p b n c]; unfold match_step; cbn [ms_pool ms_book ms_reads ms_client].
  intros Hinv. destruct B as [|[sb tb] B], A as [|[sa ta] A];
    try (cbn; destruct Hinv as [_ [HB HA] _ _ _];
         rewrite ?(side_none _ _ _ _ _ _ HB), ?(side_none _ _ _ _ _ _ HA); cbn;
         by rewrite ?orb_true_r).
  destruct (inv_front_ticks _ _ _ _ _ _ _ _ _ Hinv)
    as (-> & -> & -> & -> & Tb & Ta & Rb & Ra).
  rewrite (proj2 (Z.eqb_neq tb (-1))), (proj2 (Z.eqb_neq ta MAX_TICKS)) by lia. cbn [orb].
  unfold spec_step. cbn [spec_of s_bids s_asks]. rewrite !view_cons. cbn [s_bids s_asks].
  change (tick_of (payload ?o)) with (tick_of o). rewrite Tb, Ta.
  destruct (tb <? ta); [done|].
  pose proof (inv_nodup _ _ _ _ _ Hinv) as Hnd. cbn in Hnd.
  apply NoDup_app in Hnd as (_ & _ & Hnd). apply NoDup_cons in Hnd as [Hsb Hnd].
  apply NoDup_app in Hnd as (_ & HBA & Hnd). apply NoDup_cons in Hnd as [Hsa _].
  rewrite elem_of_app, elem_of_cons in Hsb.
  set (ob := order_at (slab_ p) sb). set (oa := order_at (slab_ p) sa).
  change (deref_order p sb) with ob. change (deref_order p sa) with oa.
  set (q := Z.min (quantity oa) (quantity ob)).
  assert (Isb : sb ∈ ((sb, tb) :: B).*1 ++ ((sa, ta) :: A).*1) by (cbn; left).
  assert (Isa : sa ∈ ((sb, tb) :: B).*1 ++ ((sa, ta) :: A).*1)
    by (cbn; right; apply elem_of_app; right; left).
  pose proof (inv_reduce _ _ _ _ _ sb q Isb Hinv) as Hinv1.
  pose proof (inv_reduce _ _ _ _ _ sa q Isa Hinv1) as Hinv2.
  set (p2 := reduce_quantity (reduce_quantity p sb q) sa q) in *.
  assert (Eb : payload (order_at (slab_ p2) sb) = fill q (payload ob)).
  { unfold p2. rewrite !order_at_reduce, decide_False by (intros <-; tauto).
    by rewrite decide_True. }
  assert (Ea : payload (order_at (slab_ p2) sa) = fill q (payload oa)).
  { unfold p2. rewrite !order_at_reduce, decide_True by done.
    by rewrite decide_False by (intros <-; tauto). }
  pose proof (consume_both _ _ _ _ _ _ _ _ _ q _ _ Hinv2 Eb Ea) as Hc.
  destruct (if quantity (deref_order p2 sb) =? 0 then _ else _) as [p3 b3].
  destruct (if quantity (deref_order p3 sa) =? 0 then _ else _) as [p4 b4].
  destruct Hc as (fs' & B' & A' & Hinv' & Hspec).
  eexists _, fs', B', A'. split; [reflexivity|]. cbn [ms_pool ms_book ms_reads ms_client].
  split; [exact Hinv'|]. split; [|split; [done|]].
  - rewrite Hspec. unfold p2.
    rewrite !view_reduce_other by (try done; intros ?; try tauto; by apply (HBA sa); [|left]).
    done.
  - do 2 f_equal. destruct Hinv as [_ _ _ _ Hsym].
    change (deref_order p sym) with (order_at (slab_ p) sym). by rewrite Hsym.
Qed.
(** The loop ends within the fuel and computes what the specification does. *)
Lemma matchOrders_refines sym aggressor fuel : forall n ms fs B A,
  inv (ms_pool ms) (ms_book ms) fs B A ->
  (spec_size (spec_of (slab_ (ms_pool ms)) B A) < fuel)%nat ->
  (spec_size (spec_of (slab_ (ms_pool ms)) B A) < n)%nat ->
  let '(es, sb') := spec_match n (symbol (order_at h0 sym)) aggressor now (ms_reads ms)
                      (spec_of (slab_ (ms_pool ms)) B A) in
  exists ms' fs' B' A', matchOrders cb now fuel sym aggressor ms = Some ms' /\
    inv (ms_pool ms') (ms_book ms') fs' B' A' /\
    spec_of (slab_ (ms_pool ms')) B' A' = sb' /\
    ms_client ms' = foldl (fun s e => notify cb e s) (ms_client ms) es.
Proof using HR HRlen.
  induction fuel as [|fuel IH]; intros n ms fs B A Hinv Hf Hn; [lia|].
  destruct n as [|n]; [lia|]. cbn [spec_match matchOrders].
  pose proof (match_step_refines sym aggressor ms fs B A Hinv) as Hstep.
  destruct (spec_step _ _ _ _) as [[e sb']|] eqn:E.
  - destruct Hstep as (ms1 & fs1 & B1 & A1 & -> & Hinv1 & <- & Hreads & Hcl).
    apply spec_step_decreases in E.
    specialize (IH n ms1 fs1 B1 A1 Hinv1 ltac:(lia) ltac:(lia)). rewrite Hreads in IH.
    destruct (spec_match n _ _ _ _ _) as [es sb''].
    destruct IH as (ms' & fs' & B' & A' & ? & ? & ? & Hcl').
    exists ms', fs', B', A'. split_and!; try done. cbn. by rewrite Hcl', Hcl.
  - rewrite Hstep. by exists ms, fs, B, A.
Qed.
End Loop.

(** ** Queueing the new order in its book *)

Definition insert_entries (sd : OrderType) (e : entry) (B A : list entry) :
    list entry * list entry :=
  match sd with
  | BUY => (insert_entry BUY e B, A)
  | SELL => (B, insert_entry SELL e A)
  end.

Lemma side_rep_same h h' sd k levels bits best es :
  (forall x, x ∈ es.*1 -> order_at h' x = order_at h x) ->
  side_rep h sd k levels bits best es -> side_rep h' sd k levels bits best es.
Proof. intros Hf. apply side_rep_frame. intros x Hx. by rewrite Hf. Qed.

Lemma enqueue_rep p b k B A o t :
  book_rep (slab_ p) k b B A -> NoDup (o :: B.*1 ++ A.*1) ->
  entry_ok (slab_ p) (order_type (order_at (slab_ p) o)) k (o, t) ->
  let '(p', b') := enqueue p b o t in
  let '(B', A') := insert_entries (order_type (order_at (slab_ p) o)) (o, t) B A in
  free_stack_ p' = free_stack_ p /\ top_ p' = top_ p /\
  book_rep (slab_ p') k b' B' A' /\
  (forall x, payload (order_at (slab_ p') x) = payload (order_at (slab_ p) x)) /\
  (forall x, x ∉ o :: B.*1 ++ A.*1 -> order_at (slab_ p') x = order_at (slab_ p) x).
Proof.
  intros [HB HA] Hnd Hok. apply NoDup_cons in Hnd as [Ho Hnd].
  rewrite elem_of_app in Ho. apply NoDup_app in Hnd as (HndB & HBA & HndA).
  unfold enqueue. change (deref_order p o) with (order_at (slab_ p) o).
  destruct (order_type (order_at (slab_ p) o)); cbn [insert_entries].
  - pose proof (side_push _ _ _ _ _ _ _ o t HB HndB ltac:(tauto) Hok) as Hpush.
    unfold level_at in Hpush |- *.
    destruct (level_push _ _ o) as [h lv]. destruct Hpush as (HB' & Hpay & Hframe). cbn.
    split_and!; try done.
    + split; [exact HB'|]. eapply side_rep_same; [|exact HA].
      intros x Hx. apply Hframe; [intros ?; by apply (HBA x)|intros ->; tauto].
    + intros x Hx. rewrite elem_of_cons, elem_of_app in Hx. apply Hframe; tauto.
  - pose proof (side_push _ _ _ _ _ _ _ o t HA HndA ltac:(tauto) Hok) as Hpush.
    unfold level_at in Hpush |- *.
    destruct (level_push _ _ o) as [h lv]. destruct Hpush as (HA' & Hpay & Hframe). cbn.
    split_and!; try done.
    + split; [|exact HA']. eapply side_rep_same; [|exact HB].
      intros x Hx. apply Hframe; [intros ?; by apply (HBA x)|intros ->; tauto].
    + intros x Hx. rewrite elem_of_cons, elem_of_app in Hx. apply Hframe; tauto.
Qed.

Lemma insert_entries_perm sd e B A B' A' :
  insert_entries sd e B A = (B', A') -> B'.*1 ++ A'.*1 ≡ₚ e.1 :: B.*1 ++ A.*1.
Proof.
  unfold insert_entries, insert_entry.
  destruct sd; intros [= <- <-]; rewrite insert_prio_perm; cbn; [done|]. solve_Permutation.
Qed.

(** On the views, the ghost insertion is the specification's insertion. *)
Lemma insert_entries_spec h h' sd k o t B A B' A' :
  (forall x, payload (order_at h' x) = payload (order_at h x)) ->
  order_type (order_at h o) = sd -> tick_of (order_at h o) = t ->
  (forall e, e ∈ B -> entry_ok h BUY k e) -> (forall e, e ∈ A -> entry_ok h SELL k e) ->
  insert_entries sd (o, t) B A = (B', A') ->
  spec_of h' B' A' = spec_insert (payload (order_at h o)) (spec_of h B A).
Proof.
  intros Hpay Hty Ht HB HA Hins.
  assert (Hview : forall es, view h' es = view h es) by (intros; by apply view_frame).
  assert (Hi : forall sd' es, (forall e, e ∈ es -> entry_ok h sd' k e) ->
    view h (insert_entry sd' (o, t) es) =
    spec_insert_side sd' (payload (order_at h o)) (view h es)).
  { intros sd' es Hes. symmetry. unfold view, spec_insert_side, insert_entry.
    rewrite <- (insert_prio_fmap (fun e => payload (order_at h e.1))
      (fun y => at_least sd' y.2 t)
      (fun y => at_least sd' (tick_of y) (tick_of (payload (order_at h o)))) (o, t)); [done|].
    intros e He. destruct (Hes e He) as (_ & Hte & _).
    change (tick_of (payload ?x)) with (tick_of x). by rewrite Hte, Ht. }
  unfold spec_of, spec_insert. rewrite !Hview.
  change (order_type (payload ?x)) with (order_type x). rewrite Hty.
  unfold insert_entries in Hins.
  destruct sd; injection Hins as <- <-; cbn; f_equal; by apply Hi.
Qed.

(** ** The whole order book *)

(** Ghost state: the free slots and the entries of each book. *)
Abbreviation ghost := (Z -> list entry * list entry).

Definition book_slots (G : ghost) (k : Z) : list Z := (G k).1.*1 ++ (G k).2.*1.

Record book_inv (ob : OrderBook) (fs : list Z) (G : ghost) : Prop := {
  bi_pool : pool_rep (pool_ ob) fs;
  bi_books : forall k, book_rep (slab_ (pool_ ob)) k (book_at ob k) (G k).1 (G k).2;
  bi_nodup : forall k, NoDup (fs ++ book_slots G k);
  bi_disjoint : forall k k' s, k <> k' -> s ∈ book_slots G k -> s ∉ book_slots G k';
  bi_cover : forall s, 0 <= s < POOL_CAPACITY <-> s ∈ fs \/ exists k, s ∈ book_slots G k }.

(** The order book [ob] is in the state [sp] of the specification. *)
Definition refines (ob : OrderBook) (sp : SpecState) : Prop :=
  exists fs G, book_inv ob fs G /\
    (forall k, sp_book_at sp k = spec_of (slab_ (pool_ ob)) (G k).1 (G k).2) /\
    sp_live sp + Z.of_nat (length fs) = POOL_CAPACITY.

Lemma region_length fs G ob k : book_inv ob fs G ->
  Z.of_nat (length (fs ++ book_slots G k)) <= POOL_CAPACITY.
Proof.
  intros Hinv. assert (Hsub : fs ++ book_slots G k ⊆+ seqZ 0 POOL_CAPACITY).
  { apply NoDup_submseteq; [apply (bi_nodup _ _ _ Hinv)|].
    intros s Hs. rewrite elem_of_seqZ. apply elem_of_app in Hs.
    assert (0 <= s < POOL_CAPACITY); [|lia]. apply (bi_cover _ _ _ Hinv).
    destruct Hs as [?|?]; eauto. }
  apply submseteq_length in Hsub. rewrite length_seqZ in Hsub. unfold POOL_CAPACITY in *. lia.
Qed.

Lemma refines_new : refines OrderBook_new spec_new.
Proof.
  exists (seqZ 0 POOL_CAPACITY), (fun _ => ([], [])). split; [|split].
  - split.
    + by apply pool_rep_new.
    + intros k. unfold book_at; cbn. rewrite lookup_empty. cbn.
      split; apply side_rep_empty.
    + intros k. unfold book_slots; cbn. rewrite app_nil_r. apply NoDup_seqZ.
    + intros k k' s _ Hs. by apply elem_of_nil in Hs.
    + intros s. rewrite elem_of_seqZ. split; [left; lia|].
      intros [?|[k Hk]]; [lia|by apply elem_of_nil in Hk].
  - intros k. unfold sp_book_at; cbn. by rewrite lookup_empty.
  - cbn [sp_live spec_new]. rewrite length_seqZ. unfold POOL_CAPACITY. lia.
Qed.

Section Accept.
Context {St : Type}.
Variables (cb : option (Execution -> St -> St)) (now : nat -> Z).

Definition upd_ghost (G : ghost) (k : Z) (e : list entry * list entry) : ghost :=
  fun k' => if decide (k = k') then e else G k'.

Lemma upd_ghost_slots G k B A : book_slots (upd_ghost G k (B, A)) k = B.*1 ++ A.*1.
Proof. unfold book_slots, upd_ghost. by rewrite decide_True. Qed.

Lemma upd_ghost_other G k x k' : k <> k' -> book_slots (upd_ghost G k x) k' = book_slots G k'.
Proof. intros Hk. unfold book_slots, upd_ghost. by rewrite decide_False. Qed.

(** The slots [R] of one region, the free ones and those of book [k], are
    redistributed between the free stack [fs] and the queues [B] and [A]. *)
Section Redistribute.
Variables (ob : OrderBook) (fs0 fs : list Z) (G : ghost) (k : Z) (B A : list entry).
Hypothesis Hinv : book_inv ob fs0 G.
Hypothesis Hperm : fs ++ B.*1 ++ A.*1 ≡ₚ fs0 ++ book_slots G k.

Lemma region_in s : s ∈ fs ++ B.*1 ++ A.*1 <-> s ∈ fs0 ++ book_slots G k.
Proof. by rewrite Hperm. Qed.

(** The slots of another book are none of them. *)
Lemma region_foreign k' s : k <> k' -> s ∈ book_slots G k' -> s ∉ fs ++ B.*1 ++ A.*1.
Proof.
  intros Hk Hs Hx. apply region_in, elem_of_app in Hx as [Hx|Hx]; [|by apply (bi_disjoint _ _ _ Hinv k k' s)].
  pose proof (bi_nodup _ _ _ Hinv k') as Hnd. apply NoDup_app in Hnd as (_ & Hnd & _). by apply (Hnd s).
Qed.

Lemma redistribute_nodup k' : NoDup (fs ++ book_slots (upd_ghost G k (B, A)) k').
Proof.
  destruct (decide (k = k')) as [<-|Hk].
  - rewrite upd_ghost_slots, Hperm. apply (bi_nodup _ _ _ Hinv).
  - rewrite upd_ghost_other by done. pose proof (bi_nodup _ _ _ Hinv k') as Hk'.
    apply NoDup_app in Hk' as (_ & _ & Hk'). apply NoDup_app. split_and!; [|intros s Hs Hs'|done].
    + pose proof (bi_nodup _ _ _ Hinv k) as Hnd. rewrite <- Hperm in Hnd. by apply NoDup_app in Hnd as [? _].
    + apply (region_foreign k' s Hk Hs'). apply elem_of_app; by left.
Qed.

Lemma redistribute_disjoint k1 k2 s : k1 <> k2 ->
  s ∈ book_slots (upd_ghost G k (B, A)) k1 -> s ∈ book_slots (upd_ghost G k (B, A)) k2 -> False.
Proof.
  intros Hne H1 H2. destruct (decide (k = k1)) as [<-|], (decide (k = k2)) as [<-|]; try done.
  - rewrite upd_ghost_slots in H1. rewrite upd_ghost_other in H2 by done.
    apply (region_foreign k2 s); [done|done|]. apply elem_of_app; by right.
  - rewrite upd_ghost_slots in H2. rewrite upd_ghost_other in H1 by done.
    apply (region_foreign k1 s); [done|done|]. apply elem_of_app; by right.
  - rewrite upd_ghost_other in H1, H2 by done. by apply (bi_disjoint _ _ _ Hinv k1 k2 s).
Qed.

Lemma redistribute_cover s :
  (s ∈ fs0 \/ exists k', s ∈ book_slots G k') <->
  (s ∈ fs \/ exists k', s ∈ book_slots (upd_ghost G k (B, A)) k').
Proof.
  split.
  - intros Hs. destruct (decide (s ∈ fs ++ B.*1 ++ A.*1)) as [Hx|Hx].
    + apply elem_of_app in Hx as [?|?]; [by left|right; exists k; by rewrite upd_ghost_slots].
    + rewrite region_in, elem_of_app in Hx. destruct Hs as [?|[k' Hk']]; [tauto|].
      assert (k <> k') by (intros ->; tauto). right; exists k'. by rewrite upd_ghost_other.
  - assert (Hback : s ∈ fs ++ B.*1 ++ A.*1 -> s ∈ fs0 \/ exists k', s ∈ book_slots G k').
    { intros Hx. apply region_in, elem_of_app in Hx as [?|?]; eauto. }
    intros [Hs|[k' Hk']]; [apply Hback, elem_of_app; by left|].
    destruct (decide (k = k')) as [<-|]; [|rewrite upd_ghost_other in Hk' by done; eauto].
    rewrite upd_ghost_slots in Hk'. apply Hback, elem_of_app; by right.
Qed.
End Redistribute.

(** From the end of the matching loop back to the global invariant. *)
Lemma book_inv_restore ob fs0 fs G k h0 p b B A :
  book_inv ob fs0 G ->
  match_inv h0 (fs0 ++ book_slots G k) k p b fs B A ->
  (forall s, s ∉ fs0 ++ book_slots G k -> order_at h0 s = order_at (slab_ (pool_ ob)) s) ->
  book_inv (mkOrderBook p (<[k := b]> (books_ ob))) fs (upd_ghost G k (B, A)) /\
  (forall k', k <> k' ->
     spec_of (slab_ p) (G k').1 (G k').2 = spec_of (slab_ (pool_ ob)) (G k').1 (G k').2).
Proof.
  intros Hinv [M1 M2 M3 M4 M5] Hh0.
  assert (Hother : forall k' s, k <> k' -> s ∈ book_slots G k' ->
    order_at (slab_ p) s = order_at (slab_ (pool_ ob)) s).
  { intros k' s Hk Hs. assert (s ∉ fs0 ++ book_slots G k); [|by rewrite M4, Hh0].
    rewrite <- (region_in fs0 fs G k B A M3 s). by apply (region_foreign ob fs0 fs G k B A Hinv M3 k'). }
  split; [split|].
  - exact M1.
  - intros k'. unfold book_at, upd_ghost; cbn. case_decide as Hk.
    + subst k'. by rewrite lookup_insert_eq.
    + rewrite lookup_insert_ne by done. destruct (bi_books _ _ _ Hinv k') as [HB HA].
      split; (eapply side_rep_same; [|eassumption]); intros s Hs;
        apply (Hother k'); try done; apply elem_of_app; auto.
  - exact (redistribute_nodup ob fs0 fs G k B A Hinv M3).
  - intros k1 k2 s Hne H1 H2. by apply (redistribute_disjoint ob fs0 fs G k B A Hinv M3 k1 k2 s).
  - intros s. rewrite (bi_cover _ _ _ Hinv s). exact (redistribute_cover fs0 fs G k B A M3 s).
  - intros k' Hk. unfold spec_of. f_equal; apply view_frame; intros s Hs;
      rewrite (Hother k'); try done; apply elem_of_app; auto.
Qed.
Lemma pool_rep_ext (p p' : ObjectPool Order) fs :
  free_stack_ p' = free_stack_ p -> top_ p' = top_ p -> pool_rep p fs -> pool_rep p' fs.
Proof. unfold pool_rep. by intros -> ->. Qed.

Lemma order_at_store (p : ObjectPool Order) i o x :
  order_at (slab_ (store p i o)) x = if decide (i = x) then o else order_at (slab_ p) x.
Proof. apply vget_insert. Qed.

(** Up to the call of [matchOrders]: the new order sits in the slot the
    pool gave, in its queue, and the loop invariant holds. *)
Lemma accept_enqueue ob fs x G order :
  book_inv ob (fs ++ [x]) G -> 0 <= tick_of order < MAX_TICKS ->
  let k := sym_key (symbol order) in
  exists p p3 b3 B A, alloc (pool_ ob) = (Some x, p) /\
    (let p2 := store (store p x order) x
                 (set_next (deref_order (store p x order) x) nullptr) in
     sym_key (symbol (deref_order p2 x)) = k /\
     enqueue p2 (book_at ob k) x (tick_of order) = (p3, b3)) /\
    payload (order_at (slab_ p3) x) = payload order /\
    match_inv (slab_ p3) ((fs ++ [x]) ++ book_slots G k) k p3 b3 fs B A /\
    (forall s, s ∉ (fs ++ [x]) ++ book_slots G k ->
       order_at (slab_ p3) s = order_at (slab_ (pool_ ob)) s) /\
    spec_of (slab_ p3) B A =
      spec_insert (payload order) (spec_of (slab_ (pool_ ob)) (G k).1 (G k).2).
Proof.
  intros Hinv Ht k. destruct (alloc_snoc _ _ _ (bi_pool _ _ _ Hinv)) as (p & Halloc & Hp & Hslab).
  set (p2 := store (store p x order) x (set_next (deref_order (store p x order) x) nullptr)).
  assert (Hx : order_at (slab_ p2) x = payload order).
  { unfold p2. rewrite order_at_store, decide_True by done.
    change (deref_order ?q x) with (order_at (slab_ q) x).
    by rewrite order_at_store, decide_True. }
  assert (Hother : forall y, x <> y -> order_at (slab_ p2) y = order_at (slab_ (pool_ ob)) y).
  { intros y Hy. unfold p2. by rewrite !order_at_store, !decide_False, Hslab by done. }
  pose proof (bi_nodup _ _ _ Hinv k) as Hnd. rewrite <- app_assoc in Hnd; cbn in Hnd.
  apply NoDup_app in Hnd as (_ & _ & Hnd).
  assert (Hxs : forall s, s ∈ book_slots G k -> order_at (slab_ p2) s = order_at (slab_ (pool_ ob)) s).
  { intros s Hs. apply Hother. intros ->. by apply NoDup_cons in Hnd as [? _]. }
  assert (Hbook : book_rep (slab_ p2) k (book_at ob k) (G k).1 (G k).2).
  { destruct (bi_books _ _ _ Hinv k) as [HB HA].
    split; (eapply side_rep_same; [|eassumption]); intros s Hs; apply Hxs;
      apply elem_of_app; auto. }
  pose proof (enqueue_rep p2 _ _ _ _ x (tick_of order) Hbook Hnd) as Henq.
  rewrite Hx in Henq. specialize (Henq ltac:(unfold entry_ok; cbn [fst snd]; rewrite Hx; done)).
  destruct (enqueue p2 (book_at ob k) x (tick_of order)) as [p3 b3] eqn:E.
  destruct (insert_entries _ _ _ _) as [B A] eqn:Eins.
  destruct Henq as (Hfree & Htop & Hbook3 & Hpay & Hframe).
  exists p, p3, b3, B, A. split; [done|]. fold p2. split.
  { split; [|done]. change (deref_order p2 x) with (order_at (slab_ p2) x). by rewrite Hx. }
  split; [by rewrite Hpay, Hx|]. split; [|split].
  - split; [|exact Hbook3| |done|done].
    + apply (pool_rep_ext p2); [done|done|]. exact Hp.
    + rewrite (insert_entries_perm _ _ _ _ _ _ Eins). by rewrite <- app_assoc.
  - intros s Hs. rewrite <- app_assoc in Hs. cbn in Hs.
    rewrite elem_of_app in Hs. rewrite Hframe by tauto. apply Hother.
    intros ->. apply Hs. right; left.
  - rewrite (insert_entries_spec (slab_ p2) (slab_ p3) (order_type order) k x (tick_of order)
      (G k).1 (G k).2 B A Hpay); [|by rewrite Hx|by rewrite Hx|apply Hbook|apply Hbook|done].
    rewrite Hx. f_equal. unfold spec_of. f_equal; apply view_frame; intros s Hs;
      rewrite Hxs; try done; apply elem_of_app; auto.
Qed.

Lemma spec_of_size h B A : spec_size (spec_of h B A) = (length B + length A)%nat.
Proof. unfold spec_size, spec_of, view; cbn. by rewrite !length_fmap. Qed.

(** The states after the loop, when the one of the book is [B'] and [A']. *)
Lemma refines_restore ob sp fs fs' G k h0 p b B' A' :
  book_inv ob fs G -> (forall k, sp_book_at sp k = spec_of (slab_ (pool_ ob)) (G k).1 (G k).2) ->
  sp_live sp + Z.of_nat (length fs) = POOL_CAPACITY ->
  match_inv h0 (fs ++ book_slots G k) k p b fs' B' A' ->
  (forall s, s ∉ fs ++ book_slots G k -> order_at h0 s = order_at (slab_ (pool_ ob)) s) ->
  refines (mkOrderBook p (<[k := b]> (books_ ob)))
    (mkSpecState (<[k := spec_of (slab_ p) B' A']> (sp_books sp))
       (sp_live sp + Z.of_nat (spec_size (spec_of (slab_ p) B' A')) - Z.of_nat (spec_size (sp_book_at sp k)))).
Proof.
  intros Hinv Hsp Hlive Hm Hframe.
  destruct (book_inv_restore _ _ _ _ _ _ _ _ _ _ Hinv Hm Hframe) as [Hinv' Hothers].
  exists fs', (upd_ghost G k (B', A')). split; [exact Hinv'|]. split.
  - intros k'. unfold sp_book_at, upd_ghost; cbn. case_decide as Hkk.
    + subst k'. by rewrite lookup_insert_eq.
    + rewrite lookup_insert_ne, Hothers by done. apply Hsp.
  - pose proof (inv_lengths _ _ _ _ _ _ _ _ Hm) as Hlens.
    rewrite Hsp, !spec_of_size; cbn. unfold book_slots in Hlens.
    rewrite !length_app, !length_fmap in Hlens. lia.
Qed.

Lemma acceptNewOrder_refines ob sp order s :
  refines ob sp ->
  let '(sp', es) := spec_accept now sp order in
  exists ob', acceptNewOrder cb now ob order s =
      Some (ob', foldl (fun s e => notify cb e s) s es) /\ refines ob' sp'.
Proof.
  intros (fs & G & Hinv & Hsp & Hlive). unfold acceptNewOrder, spec_accept.
  change (priceToTick (price order)) with (tick_of order). set (t := tick_of order).
  destruct ((t <? 0) || (MAX_TICKS <=? t)) eqn:Hrange.
  { exists ob. split; [done|]. by exists fs, G. }
  apply orb_false_iff in Hrange as [H0%Z.ltb_ge H1%Z.leb_gt].
  destruct fs as [|x fs _] using rev_ind.
  { rewrite (alloc_nil _ (bi_pool _ _ _ Hinv)).
    rewrite (proj2 (Z.eqb_eq _ _)) by (cbn in Hlive; lia).
    exists ob. split; [done|]. by exists [], G. }
  rewrite (proj2 (Z.eqb_neq _ _)) by (rewrite length_app in Hlive; cbn in Hlive; lia).
  set (k := sym_key (symbol order)).
  destruct (accept_enqueue ob fs x G order Hinv ltac:(lia))
    as (p & p3 & b3 & B & A & -> & [Hk Henq] & Hx & Hm & Hframe & Hspec).
  cbv zeta in Hk, Henq. rewrite Hk. fold t k in Henq |- *. rewrite Henq.
  fold k in Hm, Hframe, Hspec. rewrite <- Hsp in Hspec.
  pose proof (region_length _ G ob k Hinv) as HR.
  pose proof (inv_lengths _ _ _ _ _ _ _ _ Hm) as Hlens.
  change (deref_order p3 x) with (order_at (slab_ p3) x).
  assert (Hty : order_type (order_at (slab_ p3) x) = order_type order)
    by (unfold payload, set_next in Hx; congruence).
  assert (Hsy : symbol (order_at (slab_ p3) x) = symbol order)
    by (unfold payload, set_next in Hx; congruence).
  pose proof (spec_of_size (slab_ p3) B A) as Hsize.
  pose proof (matchOrders_refines cb now (slab_ p3) ((fs ++ [x]) ++ book_slots G k) k
    (bi_nodup _ _ _ Hinv k) ltac:(unfold POOL_CAPACITY in HR; lia) x (order_type order)
    (match_fuel p3) (S (spec_size (spec_of (slab_ p3) B A))) (mkMatch p3 b3 0 s) fs B A Hm)
    as Hloop.
  cbn [ms_pool ms_reads ms_client] in Hloop. rewrite Hsy in Hloop. rewrite Hty, <- Hspec.
  specialize (Hloop ltac:(unfold match_fuel; rewrite (pool_rep_available _ _ (mi_pool _ _ _ _ _ _ _ _ Hm)); lia) ltac:(lia)).
  destruct (spec_match _ _ _ _ _ _) as [es sb'].
  destruct Hloop as ([p4 b4 n4 s4] & fs' & B' & A' & -> & Hm' & <- & ->).
  cbn [ms_pool ms_book ms_client] in *. eexists. split; [reflexivity|].
  by eapply refines_restore.
Qed.
End Accept.
