(* ===== verification/OrderBookHistory.v ===== *)
(** * What a session leaves behind: invariants of the specification

    Over any sequence of orders, the specification keeps: every resting order
    is one of the orders accepted, at its price and with what is left of its
    quantity; each side is in price-time priority, the time being the position
    in the sequence; the two sides of a book do not cross; every execution is
    between a buy and a sell order of the sequence with the same symbol key
    whose prices cross, at the price of the earlier of the two.  The totals of
    quantities and of resting orders balance. *)

From S2P Require Import Prelude Float64 CString Messages TickBitset PriceTick OrderBook.
From S2P Require Import OrderBookSpec OrderBookSweep.

Local Open Scope Z_scope.

(** ** Origin of a resting order *)

(** An order with its position in the session. *)
Abbreviation dated := (Order * nat)%type.

Definition in_range (t : Z) : Prop := 0 <= t < MAX_TICKS.

Definition origin (os : list Order) (sd : OrderType) (k : Z) (p : dated) : Prop :=
  exists o, os !! p.2 = Some o /\ order_type o = sd /\ sym_key (symbol o) = k /\
    in_range (tick_of o) /\ p.1 = set_quantity (payload o) (quantity p.1) /\
    (Forall positive_order os -> 0 < quantity p.1 <= quantity o).

(** Price first, then time. *)
Definition prio (sd : OrderType) (p p' : dated) : Prop :=
  at_least sd (tick_of p.1) (tick_of p'.1) = true /\
  (tick_of p.1 = tick_of p'.1 -> (p.2 < p'.2)%nat).

Definition side_history (os : list Order) (sd : OrderType) (k : Z) (L : list dated) : Prop :=
  Forall (origin os sd k) L /\ StronglySorted (prio sd) L.

(** The side [l] of the book [k] in priority order, each order with its origin. *)
Definition in_priority (os : list Order) (sd : OrderType) (k : Z) (l : list Order) : Prop :=
  exists L, l = L.*1 /\ side_history os sd k L.

(** [e] trades a buy order and a sell order of [os], given by their positions. *)
Definition explains (os : list Order) (e : Execution) (i j : nat) : Prop :=
  exists bd ak, os !! i = Some bd /\ os !! j = Some ak /\
    order_type bd = BUY /\ order_type ak = SELL /\
    sym_key (symbol bd) = sym_key (symbol ak) /\ tick_of ak <= tick_of bd /\
    buy_id e = strncpy (zeros 16) (id bd) 15 /\ sell_id e = strncpy (zeros 16) (id ak) 15 /\
    exec_symbol e = strncpy (zeros 8) (symbol (if decide (i < j)%nat then ak else bd)) 7 /\
    trade_price e = price (if decide (i < j)%nat then bd else ak) /\
    side e = (if decide (i < j)%nat then Side_SELL else Side_BUY) /\
    order_arrival_ns e = arrival_ns (if decide (i < j)%nat then ak else bd) /\
    (Forall positive_order os -> exists q, exec_quantity e = of_int q /\
       0 < q <= Z.min (quantity bd) (quantity ak)).

Definition explained (os : list Order) (e : Execution) : Prop :=
  exists i j, i <> j /\ explains os e i j.

(** No bid of the book reaches an ask. *)
Definition uncrossed (b : SpecBook) : Prop :=
  forall bd ak, bd ∈ s_bids b -> ak ∈ s_asks b -> tick_of bd < tick_of ak.

(** ** A longer session *)

Lemma origin_app os os' sd k p : origin os sd k p -> origin (os ++ os') sd k p.
Proof.
  intros (o & Ho & ? & ? & ? & ? & Hq). exists o. split_and!; try done.
  - by apply lookup_app_l_Some.
  - intros [? _]%Forall_app. auto.
Qed.

Lemma in_priority_app os os' sd k l : in_priority os sd k l -> in_priority (os ++ os') sd k l.
Proof.
  intros (L & -> & HL & Hs). exists L. split; [done|]. split; [|done].
  eapply Forall_impl; [done|]. intros p. apply origin_app.
Qed.

Lemma explained_app os os' e : explained os e -> explained (os ++ os') e.
Proof.
  intros (i & j & Hij & bd & ak & Hi & Hj & H). exists i, j. split; [done|].
  exists bd, ak. split_and!; try by apply lookup_app_l_Some.
  all: unpack; try done. intros [? _]%Forall_app. auto.
Qed.

Lemma origin_old os sd k p : origin os sd k p -> (p.2 < length os)%nat.
Proof. intros (o & Ho & _). by apply lookup_lt_Some in Ho. Qed.

(** ** Sides: insertion, filling, removal *)

Lemma prio_fill sd o i q p : prio sd (o, i) p -> prio sd (fill q o, i) p.
Proof. done. Qed.

Lemma side_history_tail os sd k p L : side_history os sd k (p :: L) -> side_history os sd k L.
Proof.
  intros [HL Hs]. split; [by apply Forall_cons in HL as [_ ?]|].
  by apply StronglySorted_inv in Hs as [? _].
Qed.

(** The head of a side after a trade of [q]. *)
Lemma side_history_fill os sd k o i q L :
  (Forall positive_order os -> 0 <= q <= quantity o) ->
  side_history os sd k ((o, i) :: L) ->
  exists L', unless_filled (fill q o) L.*1 = L'.*1 /\ side_history os sd k L' /\
    (L' = L \/ L' = (fill q o, i) :: L).
Proof.
  intros Hq HL. unfold unless_filled. destruct (Z.eqb_spec (quantity (fill q o)) 0) as [E|E].
  { exists L. split_and!; [done|by eapply side_history_tail|by left]. }
  exists ((fill q o, i) :: L). split_and!; [done| |by right].
  destruct HL as [(Ho & HL)%Forall_cons [Hs Hp]%StronglySorted_inv].
  split; [|by constructor]. constructor; [|done].
  destruct Ho as (o' & ? & ? & ? & ? & Heq & Hpos). cbn [fst snd] in *.
  exists o'. split_and!; try done.
  - cbn [fst]. unfold fill. rewrite Heq. done.
  - intros Hall. specialize (Hpos Hall). specialize (Hq Hall).
    assert (positive_order o').
    { rewrite Forall_forall in Hall. apply Hall. by eapply list_elem_of_lookup_2. }
    cbn in E |- *. unfold positive_order in *.
    rewrite wrap_i32_id in * by (unfold in_i32; lia). lia.
Qed.

(** A new order goes behind every order at least as good. *)
Definition insert_dated (sd : OrderType) (o : Order) (n : nat) (L : list dated) : list dated :=
  insert_prio (fun p : dated => at_least sd (tick_of p.1) (tick_of o)) (o, n) L.

Lemma side_history_insert os sd k o n L :
  side_history os sd k L -> origin os sd k (o, n) -> Forall (fun p => (p.2 < n)%nat) L ->
  spec_insert_side sd o L.*1 = (insert_dated sd o n L).*1 /\
  side_history os sd k (insert_dated sd o n L).
Proof.
  intros [HL Hs] Ho Hn.
  unfold insert_dated. split.
  { unfold spec_insert_side.
    by apply (insert_prio_fmap fst _ (fun y => at_least sd (tick_of y) (tick_of o)) (o, n)). }
  split; [rewrite insert_prio_perm; by constructor|]. clear HL Ho.
  induction L as [|p L IH]; cbn [insert_prio]; [by repeat constructor|].
  apply StronglySorted_inv in Hs as [Hs Hp]. apply Forall_cons in Hn as [Hpn Hn].
  destruct (at_least sd (tick_of p.1) (tick_of o)) eqn:E.
  - constructor; [by apply IH|]. rewrite insert_prio_perm. constructor; [|done]. split; [done|].
    by intros _.
  - assert (Hlt : forall p', at_least sd (tick_of p.1) (tick_of p'.1) = true ->
      prio sd (o, n) p').
    { intros p' Hp'. unfold prio, at_least in *; cbn [fst snd] in *.
      destruct sd; rewrite !Z.leb_le, Z.leb_gt in *; lia. }
    constructor; [by constructor|]. constructor; [apply Hlt, at_least_refl|].
    eapply Forall_impl; [exact Hp|]. intros p' [? _]. by apply Hlt.
Qed.

(** ** The matching loop *)

Lemma trade_explained os sd k q r j o n sym t :
  origin os (opposite sd) k (r, j) -> origin os sd k (o, n) -> (j < n)%nat ->
  at_least sd (tick_of o) (tick_of r) = true -> q = Z.min (quantity r) (quantity o) ->
  (forall o', os !! n = Some o' -> sym = symbol o') ->
  explained os (trade q r o sym sd t).
Proof.
  intros (r' & Hr & Hrt & Hrk & _ & Hreq & Hrq) (o' & Ho & Hot & Hok & _ & Hoeq & Hoq)
    Hjn Hat -> Hsym.
  cbn [fst snd] in *. specialize (Hsym _ Ho) as ->.
  assert (Hf : forall x x', x = set_quantity (payload x') (quantity x) ->
    id x = id x' /\ price x = price x' /\ arrival_ns x = arrival_ns x')
    by (intros x x' ->; done).
  destruct (Hf _ _ Hreq) as (Hr1 & Hr2 & Hr3), (Hf _ _ Hoeq) as (Ho1 & Ho2 & Ho3).
  assert (Hq : Forall positive_order os -> exists q,
    of_int (Z.min (quantity r) (quantity o)) = of_int q /\
    0 < q <= Z.min (quantity r') (quantity o')).
  { intros Hall. eexists; split; [done|]. specialize (Hrq Hall). specialize (Hoq Hall). lia. }
  unfold tick_of in Hat. rewrite Hr2, Ho2 in Hat.
  destruct sd; cbn [opposite trade at_least] in *; apply Z.leb_le in Hat.
  - exists n, j. split; [lia|]. exists o', r'. rewrite !decide_False by lia.
    setoid_rewrite (Z.min_comm (quantity r')) in Hq. cbn.
    split_and!; [congruence..|exact Hat| | | | | | |exact Hq]; congruence.
  - exists j, n. split; [lia|]. exists r', o'. rewrite !decide_True by lia. cbn.
    split_and!; [congruence..|exact Hat| | | | | | |exact Hq]; congruence.
Qed.

(** The book [b] of key [k]: both sides in priority order. *)
Definition book_history (os : list Order) (k : Z) (b : SpecBook) : Prop :=
  forall sd, in_priority os sd k (spec_side sd b).

Lemma book_history_mk os k sd own opp :
  side_history os sd k own -> side_history os (opposite sd) k opp ->
  book_history os k (mk_book sd own.*1 opp.*1).
Proof. intros H1 H2 sd'. destruct sd, sd'; by eexists. Qed.

Lemma spec_match_history os sd k n sym now fuel : forall i o own opp,
  side_history os sd k ((o, n) :: own) -> side_history os (opposite sd) k opp ->
  no_cross sd own.*1 opp.*1 -> Forall (fun p => (p.2 < n)%nat) opp ->
  (forall o', os !! n = Some o' -> sym = symbol o') ->
  let '(es, b) := spec_match fuel sym sd now i (mk_book sd (o :: own.*1) opp.*1) in
  Forall (explained os) es /\ book_history os k b.
Proof.
  induction fuel as [|fuel IH]; intros i o own opp Hown Hopp Hnc Hlt Hsym; cbn [spec_match].
  { split; [done|]. by apply (book_history_mk os k sd ((o, n) :: own) opp). }
  destruct opp as [|[r j] opp].
  { replace (spec_step _ _ _ _) with (@None (Execution * SpecBook)) by by destruct sd.
    split; [done|]. by apply (book_history_mk os k sd ((o, n) :: own) []). }
  cbn [fmap list_fmap fst]. rewrite spec_step_mk.
  destruct (at_least sd (tick_of o) (tick_of r)) eqn:Hat; cbv zeta.
  2:{ split; [done|]. by apply (book_history_mk os k sd ((o, n) :: own) ((r, j) :: opp)). }
  set (q := Z.min (quantity r) (quantity o)).
  assert (Hq : Forall positive_order os -> 0 <= q <= quantity r /\ 0 <= q <= quantity o).
  { intros Hall. destruct Hown as [[(? & _ & _ & _ & _ & _ & Ho) _]%Forall_cons _].
    destruct Hopp as [[(? & _ & _ & _ & _ & _ & Hr) _]%Forall_cons _].
    specialize (Ho Hall). specialize (Hr Hall). cbn [fst] in *. lia. }
  assert (He : explained os (trade q r o sym sd (now i))).
  { destruct Hown as [[Ho _]%Forall_cons _], Hopp as [[Hr _]%Forall_cons _].
    apply Forall_cons in Hlt as [Hlt _]. by eapply trade_explained. }
  destruct (side_history_fill _ _ _ r j q opp (fun H => proj1 (Hq H)) Hopp)
    as (opp' & -> & Hopp' & Hopp_eq).
  assert (Hnc' : no_cross sd own.*1 opp'.*1).
  { destruct (no_cross_fill _ _ q _ _ Hnc). by destruct Hopp_eq as [->| ->]. }
  assert (Hlt' : Forall (fun p => (p.2 < n)%nat) opp').
  { apply Forall_cons in Hlt as [? ?]. destruct Hopp_eq as [->| ->]; [done|by constructor]. }
  destruct (side_history_fill _ _ _ o n q own (fun H => proj2 (Hq H)) Hown)
    as (own' & -> & Hown' & [->| ->]).
  - rewrite spec_match_stuck by (intros t; by apply spec_step_no_cross).
    split; [by constructor|]. by apply book_history_mk.
  - specialize (IH (S i) (fill q o) own opp' Hown' Hopp' Hnc' Hlt' Hsym).
    cbn [fmap list_fmap fst]. destruct (spec_match fuel _ _ _ _ _) as [es b].
    destruct IH. split; [by constructor|done].
Qed.

(** ** One call *)

Lemma in_priority_sorted os sd k l : in_priority os sd k l -> sorted_side sd l.
Proof.
  intros (L & -> & _ & Hs). unfold sorted_side. induction Hs as [|p L Hs IH Hp]; cbn; constructor; [done|].
  rewrite Forall_fmap. eapply Forall_impl; [exact Hp|]. by intros p' [? _].
Qed.

Lemma sorted_head sd r l : sorted_side sd (r :: l) -> forall x, x ∈ r :: l ->
  at_least sd (tick_of r) (tick_of x) = true.
Proof.
  intros [_ H]%StronglySorted_inv x [->|Hx]%elem_of_cons; [apply at_least_refl|].
  rewrite Forall_forall in H. auto.
Qed.

Lemma uncrossed_stuck os k b : book_history os k b ->
  (forall t, spec_step [] BUY t b = None) -> uncrossed b.
Proof.
  intros Hb Hstuck. specialize (Hstuck 0).
  pose proof (in_priority_sorted _ _ _ _ (Hb BUY)) as HB.
  pose proof (in_priority_sorted _ _ _ _ (Hb SELL)) as HS.
  destruct b as [[|x bs] [|y as_]]; cbn in *; intros bd ak Hbd Hak; cbn in *;
    [by apply elem_of_nil in Hbd|by apply elem_of_nil in Hbd|by apply elem_of_nil in Hak|].
  pose proof (sorted_head _ _ _ HB _ Hbd) as H1. pose proof (sorted_head _ _ _ HS _ Hak) as H2.
  cbn in H1, H2. apply Z.leb_le in H1, H2.
  destruct (Z.ltb_spec (tick_of x) (tick_of y)); [lia|done].
Qed.

Lemma spec_side_mk sd sd' own opp :
  spec_side sd' (mk_book sd own opp) = if decide (sd' = sd) then own else opp.
Proof. by destruct sd, sd'. Qed.

Lemma mk_book_eta sd b : b = mk_book sd (spec_side sd b) (spec_side (opposite sd) b).
Proof. by destruct sd, b. Qed.

Lemma uncrossed_no_cross sd b :
  uncrossed b -> no_cross sd (spec_side sd b) (spec_side (opposite sd) b).
Proof.
  intros Hu. unfold no_cross. destruct (spec_side sd b) as [|w own] eqn:E; [done|].
  apply Forall_forall. intros r Hr. unfold at_least.
  destruct sd; cbn in *; apply Z.leb_gt; apply Hu; cbn; rewrite ?E; done || left.
Qed.

Lemma spec_insert_mk o b :
  spec_insert o b = mk_book (order_type o)
    (spec_insert_side (order_type o) o (spec_side (order_type o) b))
    (spec_side (opposite (order_type o)) b).
Proof. unfold spec_insert. by destruct (order_type o). Qed.

(** The matching loop that follows the insertion of a new order. *)
Lemma insert_match_history os order k b fuel now :
  k = sym_key (symbol order) -> in_range (tick_of order) ->
  book_history os k b -> uncrossed b ->
  let '(es, b') := spec_match fuel (symbol order) (order_type order) now 0
                     (spec_insert (payload order) b) in
  Forall (explained (os ++ [order])) es /\ book_history (os ++ [order]) k b'.
Proof.
  intros -> Hrange Hb Hu. set (os' := os ++ [order]). set (n := length os).
  set (sd := order_type order). set (o := payload order). set (k := sym_key (symbol order)) in *.
  assert (Hn : os' !! n = Some order) by (unfold os', n; by apply list_lookup_middle).
  assert (Ho : origin os' sd k (o, n)).
  { exists order. split_and!; try done. intros [_ [Hp _]%Forall_cons]%Forall_app.
    cbn. unfold positive_order in Hp. lia. }
  destruct (Hb sd) as (own & Hown & HLown). destruct (Hb (opposite sd)) as (opp & Hopp & HLopp).
  assert (Hlt : forall sd L, side_history os sd k L -> Forall (fun p => (p.2 < n)%nat) L).
  { intros ? L [HL _]. eapply Forall_impl; [exact HL|]. intros p. apply origin_old. }
  pose proof (Hlt _ _ HLown) as Hnown. pose proof (Hlt _ _ HLopp) as Hnopp. clear Hlt.
  assert (Happ : forall sd L, side_history os sd k L -> side_history os' sd k L).
  { intros ? L [HL Hs]. split; [|done]. eapply Forall_impl; [exact HL|]. intros p. apply origin_app. }
  apply Happ in HLown, HLopp. clear Happ.
  pose proof (uncrossed_no_cross sd b Hu) as Hnc. rewrite Hown, Hopp in Hnc.
  rewrite spec_insert_mk. change (order_type o) with sd. rewrite Hown, Hopp.
  destruct (side_history_insert os' sd k o n own HLown Ho Hnown) as (Hins & HLown').
  assert (Hfront : insert_dated sd o n own = (o, n) :: own \/
    exists w own1, own = w :: own1 /\ at_least sd (tick_of w.1) (tick_of o) = true).
  { unfold insert_dated. destruct own as [|w own1]; cbn; [by left|].
    destruct (at_least _ _ _) eqn:E; [right; eauto|by left]. }
  destruct Hfront as [Hf|(w & own1 & Ew & Hw)].
  - rewrite Hins, Hf. rewrite Hf in HLown'.
    apply (spec_match_history os' sd k n); try done.
    intros o' Ho'. rewrite Hn in Ho'. by injection Ho' as <-.
  - rewrite spec_match_stuck; [split; [done|]; rewrite Hins; by apply book_history_mk|].
    intros t. apply spec_step_no_cross. rewrite Ew in *. unfold spec_insert_side. cbn.
    by rewrite Hw.
Qed.

(** ** A session *)

Record history (os : list Order) (sp : SpecState) (es : list Execution) : Prop := {
  hi_books : forall k, book_history os k (sp_book_at sp k);
  hi_uncrossed : forall k, uncrossed (sp_book_at sp k);
  hi_execs : Forall (explained os) es }.

Lemma history_new : history [] spec_new [].
Proof.
  split; [intros k sd|intros k bd ak H|constructor].
  - exists []. unfold sp_book_at. cbn. rewrite lookup_empty.
    split; [by destruct sd|]. split; constructor.
  - unfold sp_book_at in H. cbn in H. rewrite lookup_empty in H. by apply elem_of_nil in H.
Qed.

Lemma history_more os os' sp es : history os sp es -> history (os ++ os') sp es.
Proof.
  intros [H1 H2 H3]. split; [intros k sd; apply in_priority_app, H1|done|].
  eapply Forall_impl; [exact H3|]. intros e. apply explained_app.
Qed.

Lemma accept_history os sp es order now :
  history os sp es ->
  let '(sp', es') := spec_accept now sp order in history (os ++ [order]) sp' (es ++ es').
Proof.
  intros H. unfold spec_accept.
  destruct ((tick_of order <? 0) || (MAX_TICKS <=? tick_of order)) eqn:Hr;
    [rewrite app_nil_r; by apply history_more|].
  destruct (sp_live sp =? POOL_CAPACITY); [rewrite app_nil_r; by apply history_more|].
  set (k := sym_key _). apply orb_false_iff in Hr as [?%Z.ltb_ge ?%Z.leb_gt].
  pose proof (insert_match_history os order k (sp_book_at sp k)
    (S (spec_size (spec_insert (payload order) (sp_book_at sp k)))) now
    eq_refl ltac:(split; lia) (hi_books _ _ _ H k) (hi_uncrossed _ _ _ H k)) as Hm.
  pose proof (spec_match_stops (symbol order) (order_type order) now
    (S (spec_size (spec_insert (payload order) (sp_book_at sp k)))) 0
    (spec_insert (payload order) (sp_book_at sp k)) ltac:(lia)) as Hstop.
  destruct (spec_match _ _ _ _ _ _) as [es' b']. destruct Hm as [He Hb].
  pose proof (history_more os [order] sp es H) as [Hb1 Hu1 He1].
  assert (Hat : forall m l, sp_book_at (mkSpecState (<[k:=b']> m) l) k = b')
    by (intros; unfold sp_book_at; cbn; by rewrite lookup_insert_eq).
  assert (Hne : forall l k', k <> k' -> sp_book_at (mkSpecState (<[k:=b']> (sp_books sp)) l) k'
            = sp_book_at sp k')
    by (intros; unfold sp_book_at; cbn; by rewrite lookup_insert_ne).
  split; [intros k'|intros k'|by apply Forall_app].
  - destruct (decide (k = k')) as [<-|]; [by rewrite Hat|by rewrite Hne].
  - destruct (decide (k = k')) as [<-|]; [rewrite Hat|by rewrite Hne].
    eapply uncrossed_stuck; [exact Hb|]. intros t. specialize (Hstop t).
    revert Hstop. unfold spec_step. destruct b' as [[|? ?] [|? ?]]; cbn; try done.
    by destruct (_ <? _).
Qed.

Lemma session_history now os' : forall os sp es i,
  history os sp es ->
  let '(sp', es') := spec_accept_all now i sp os' in history (os ++ os') sp' (es ++ es').
Proof.
  induction os' as [|order os' IH]; intros os sp es i H; cbn [spec_accept_all].
  { by rewrite !app_nil_r. }
  pose proof (accept_history _ _ _ order (now i) H) as H'.
  destruct (spec_accept (now i) sp order) as [sp1 es1].
  specialize (IH _ _ _ (S i) H'). destruct (spec_accept_all now (S i) sp1 os') as [sp2 es2].
  by rewrite <- !app_assoc in IH.
Qed.
