(* ===== verification/OrderBookTotals.v ===== *)
(** * What balances: resting orders and quantities

    Totals over all the books of the specification, and how a session changes
    them: the number of live orders is the number of resting orders, and on
    each side the quantity accepted is the quantity executed plus the quantity
    resting. *)

From S2P Require Import Prelude Float64 CString Messages TickBitset PriceTick OrderBook.
From S2P Require Import OrderBookSpec OrderBookSweep OrderBookHistory.

Local Open Scope Z_scope.

Definition sum_Z (l : list Z) : Z := foldr Z.add 0 l.

Lemma sum_Z_app l1 l2 : sum_Z (l1 ++ l2) = sum_Z l1 + sum_Z l2.
Proof. unfold sum_Z. induction l1; cbn in *; lia. Qed.

Lemma sum_Z_perm l1 l2 : l1 ≡ₚ l2 -> sum_Z l1 = sum_Z l2.
Proof. unfold sum_Z. induction 1; cbn in *; lia. Qed.

(** ** Totals over a map of books *)

Section Total.
Variable f : SpecBook -> Z.
Hypothesis f_empty : f spec_empty = 0.

Definition total (m : gmap Z SpecBook) : Z := sum_Z (f <$> (map_to_list m).*2).

Lemma total_insert_new m k b : m !! k = None -> total (<[k := b]> m) = f b + total m.
Proof.
  intros Hk. unfold total.
  rewrite (sum_Z_perm _ (f <$> ((k, b) :: map_to_list m).*2)); [done|].
  by rewrite map_to_list_insert.
Qed.

Lemma total_insert m k b :
  total (<[k := b]> m) = total m - f (default spec_empty (m !! k)) + f b.
Proof.
  destruct (m !! k) as [b0|] eqn:Hk; cbn.
  - rewrite <- (insert_delete_id m k b0 Hk) at 2. rewrite <- insert_delete_eq.
    rewrite !total_insert_new by apply lookup_delete_eq. lia.
  - rewrite total_insert_new by done. lia.
Qed.
End Total.

(** ** The number of live orders *)

Definition size_Z (b : SpecBook) : Z := Z.of_nat (spec_size b).

Definition resting (sp : SpecState) : Z := total size_Z (sp_books sp).

Lemma accept_live now sp order :
  sp_live sp = resting sp ->
  let '(sp', _) := spec_accept now sp order in sp_live sp' = resting sp'.
Proof.
  intros H. unfold spec_accept. destruct ((_ <? _) || _); [done|].
  destruct (_ =? POOL_CAPACITY); [done|]. destruct (spec_match _ _ _ _ _ _) as [es b'].
  unfold resting. cbn [sp_live sp_books]. rewrite (total_insert size_Z eq_refl).
  rewrite H. unfold resting, size_Z, sp_book_at. lia.
Qed.

Lemma session_live now os : forall sp i,
  sp_live sp = resting sp ->
  let '(sp', _) := spec_accept_all now i sp os in sp_live sp' = resting sp'.
Proof.
  induction os as [|o os IH]; intros sp i H; cbn [spec_accept_all]; [done|].
  pose proof (accept_live (now i) sp o H) as H1. destruct (spec_accept (now i) sp o) as [sp1 ?].
  specialize (IH sp1 (S i) H1). by destruct (spec_accept_all now (S i) sp1 os).
Qed.

(** ** Quantities *)

Definition volume (l : list Order) : Z := sum_Z (quantity <$> l).

(** The quantity of an execution, a [double] holding an integer. *)
Definition executed (e : Execution) : Z := default 0 (trunc (exec_quantity e)).

Definition turnover (es : list Execution) : Z := sum_Z (executed <$> es).

Lemma executed_trade q r o sym sd t : in_i32 q -> executed (trade q r o sym sd t) = q.
Proof.
  intros Hq. unfold in_i32 in Hq. assert (H : trunc (of_int q) = Some q) by (apply trunc_of_int; lia).
  unfold executed. destruct sd; cbn [trade buildExecution exec_quantity]; by rewrite H.
Qed.

Lemma volume_cons o l : volume (o :: l) = quantity o + volume l.
Proof. done. Qed.

Lemma volume_perm l l' : l ≡ₚ l' -> volume l = volume l'.
Proof. intros H. unfold volume. apply sum_Z_perm. by rewrite H. Qed.

Lemma turnover_cons e es : turnover (e :: es) = executed e + turnover es.
Proof. done. Qed.

Lemma volume_unless_filled q o l :
  positive_order o -> 0 <= q <= quantity o ->
  volume (unless_filled (fill q o) l) = volume (o :: l) - q.
Proof.
  intros Ho Hq. rewrite unless_filled_positive by done.
  destruct (Z.eqb_spec (quantity o) q); rewrite !volume_cons; [lia|].
  rewrite fill_positive by done. lia.
Qed.

Lemma positive_unless_filled q o l :
  positive_order o -> 0 <= q <= quantity o -> Forall positive_order l ->
  Forall positive_order (unless_filled (fill q o) l).
Proof.
  intros Ho Hq Hl. rewrite unless_filled_positive by done.
  destruct (Z.eqb_spec (quantity o) q); [done|]. constructor; [|done].
  unfold positive_order. rewrite fill_positive by done. unfold positive_order in Ho. lia.
Qed.

(** A loop moves the same quantity out of both sides. *)
Lemma spec_match_volume sym aggressor now fuel : forall i b,
  (forall sd, Forall positive_order (spec_side sd b)) ->
  let '(es, b') := spec_match fuel sym aggressor now i b in
  forall sd, volume (spec_side sd b) = volume (spec_side sd b') + turnover es.
Proof.
  induction fuel as [|fuel IH]; intros i b Hpos; cbn [spec_match]; [intros; cbn; lia|].
  destruct (spec_step sym aggressor (now i) b) as [[e b1]|] eqn:E; [|intros; cbn; lia].
  destruct b as [[|x bs] [|y as_]]; try done. unfold spec_step in E. cbn [s_bids s_asks] in E.
  destruct (tick_of x <? tick_of y); [done|]. set (q := Z.min (quantity y) (quantity x)) in E.
  injection E as <- <-.
  pose proof (Hpos BUY) as HB. pose proof (Hpos SELL) as HS. cbn [spec_side s_bids s_asks] in HB, HS.
  apply Forall_cons in HB as [Hx HB], HS as [Hy HS].
  assert (Hq : 0 <= q <= quantity x /\ 0 <= q <= quantity y)
    by (unfold positive_order in *; lia).
  destruct Hq as [Hqx Hqy].
  specialize (IH (S i) (mkSpec (unless_filled (fill q x) bs) (unless_filled (fill q y) as_))).
  destruct (spec_match fuel _ _ _ _ _) as [es b']. intros sd.
  rewrite turnover_cons.
  assert (Hex : executed (buildExecution q y x sym aggressor (now i)) = q).
  { assert (Hin : in_i32 q) by (unfold positive_order, in_i32 in *; lia).
    by destruct aggressor;
      [apply (executed_trade q y x sym BUY)|apply (executed_trade q x y sym SELL)]. }
  rewrite Hex.
  assert (Hpos' : forall sd, Forall positive_order (spec_side sd
    (mkSpec (unless_filled (fill q x) bs) (unless_filled (fill q y) as_)))).
  { intros []; cbn; by apply positive_unless_filled. }
  specialize (IH Hpos' sd). revert IH.
  destruct sd; cbn [spec_side s_bids s_asks]; rewrite volume_unless_filled by done; lia.
Qed.

(** ** A session balances *)

Definition spec_accepts (sp : SpecState) (order : Order) : bool :=
  negb ((tick_of order <? 0) || (MAX_TICKS <=? tick_of order)) &&
  negb (sp_live sp =? POOL_CAPACITY).

(** The orders of a session that were not dropped. *)
Fixpoint spec_accepted (now : nat -> nat -> Z) (i : nat) (sp : SpecState) (os : list Order) :
    list Order :=
  match os with
  | [] => []
  | o :: os' =>
      (if spec_accepts sp o then [o] else []) ++
      spec_accepted now (S i) (spec_accept (now i) sp o).1 os'
  end.

(** The quantity resting on side [sd], and the quantity of the orders of [os]
    on side [sd]. *)
Definition side_volume (sd : OrderType) (sp : SpecState) : Z :=
  total (fun b => volume (spec_side sd b)) (sp_books sp).

Definition offered (sd : OrderType) (os : list Order) : Z :=
  volume (filter (fun o => order_type o = sd) os).

Lemma offered_app sd os os' : offered sd (os ++ os') = offered sd os + offered sd os'.
Proof. unfold offered, volume. by rewrite filter_app, fmap_app, sum_Z_app. Qed.

Lemma offered_payload sd o : offered sd [payload o] = offered sd [o].
Proof. unfold offered. rewrite !filter_cons, !filter_nil. change (order_type (payload o)) with (order_type o). by case_decide. Qed.

Lemma volume_insert sd o b :
  volume (spec_side sd (spec_insert o b)) = volume (spec_side sd b) + offered sd [o].
Proof.
  rewrite spec_insert_mk, spec_side_mk. unfold offered. rewrite filter_cons, filter_nil.
  case_decide as H; case_decide; try congruence.
  - rewrite <- H, volume_cons. unfold spec_insert_side.
    rewrite (volume_perm _ (o :: spec_side sd b)) by apply insert_prio_perm.
    rewrite volume_cons. change (volume []) with 0. lia.
  - replace (opposite (order_type o)) with sd by by destruct sd, (order_type o).
    change (volume []) with 0. lia.
Qed.

Lemma history_positive os sp es k sd :
  history os sp es -> Forall positive_order os ->
  Forall positive_order (spec_side sd (sp_book_at sp k)).
Proof.
  intros H Hpos. destruct (hi_books _ _ _ H k sd) as (L & -> & HL & _).
  rewrite Forall_fmap. eapply Forall_impl; [exact HL|].
  intros p (o & Ho & _ & _ & _ & _ & Hq). specialize (Hq Hpos).
  rewrite Forall_forall in Hpos. specialize (Hpos o). unfold positive_order in *. cbn.
  specialize (Hpos ltac:(by eapply list_elem_of_lookup_2)). lia.
Qed.

Lemma insert_positive sd o b :
  positive_order o -> (forall sd, Forall positive_order (spec_side sd b)) ->
  Forall positive_order (spec_side sd (spec_insert o b)).
Proof.
  intros Ho Hb. rewrite spec_insert_mk, spec_side_mk. case_decide; [|apply Hb].
  unfold spec_insert_side. rewrite insert_prio_perm. by constructor.
Qed.

Lemma accept_volume now os sp es order sd :
  history os sp es -> Forall positive_order os -> positive_order order ->
  let '(sp', es') := spec_accept now sp order in
  side_volume sd sp + offered sd (if spec_accepts sp order then [order] else []) =
  side_volume sd sp' + turnover es'.
Proof.
  intros H Hpos Ho. unfold spec_accept, spec_accepts.
  destruct ((_ <? _) || _); cbn [negb andb]; [done|].
  destruct (_ =? POOL_CAPACITY); cbn [negb]; [done|].
  set (b := sp_book_at sp (sym_key (symbol order))).
  pose proof (spec_match_volume (symbol order) (order_type order) now
    (S (spec_size (spec_insert (payload order) b))) 0 (spec_insert (payload order) b)
    (fun sd => insert_positive sd (payload order) b Ho (fun sd => history_positive _ _ _ _ sd H Hpos))) as Hv.
  destruct (spec_match _ _ _ _ _ _) as [es' b']. specialize (Hv sd).
  rewrite volume_insert, offered_payload in Hv.
  unfold side_volume. cbn [sp_books]. rewrite total_insert by by destruct sd.
  fold (sp_book_at sp (sym_key (symbol order))). fold b. lia.
Qed.

Lemma session_volume now sd os' : forall os sp es i,
  history os sp es -> Forall positive_order os -> Forall positive_order os' ->
  let '(sp', es') := spec_accept_all now i sp os' in
  side_volume sd sp + offered sd (spec_accepted now i sp os') = side_volume sd sp' + turnover es'.
Proof.
  induction os' as [|o os' IH]; intros os sp es i H Hpos Hpos'; cbn [spec_accept_all spec_accepted].
  { cbn. lia. }
  apply Forall_cons in Hpos' as [Ho Hpos'].
  pose proof (accept_volume (now i) os sp es o sd H Hpos Ho) as Hv.
  pose proof (accept_history os sp es o (now i) H) as H1.
  destruct (spec_accept (now i) sp o) as [sp1 es1].
  specialize (IH _ _ _ (S i) H1 ltac:(apply Forall_app; split; [done|by constructor]) Hpos').
  cbn [fst]. destruct (spec_accept_all now (S i) sp1 os') as [sp2 es2].
  rewrite offered_app. unfold turnover in *. rewrite fmap_app, sum_Z_app. lia.
Qed.
