(* ===== verification/OrderBookProps.v ===== *)
(** * Properties of the order book

    The theorems about whole sessions: any sequence of orders offered to a
    fresh [OrderBook].  Each carries the specification's results
    ([OrderBookSpec], [OrderBookSweep], [OrderBookHistory],
    [OrderBookTotals]) over to the code through the refinement of
    [OrderBookRefinement]. *)

From Stdlib Require Import QArith.
From S2P Require Import Prelude Float64 CString Messages ObjectPool PriceLevel TickBitset.
From S2P Require Import PriceTick OrderBook OrderBookSpec OrderBookSweep.
From S2P Require Import OrderBookRefinement OrderBookHistory OrderBookTotals.

Local Open Scope Z_scope.

(** ** Running a session *)

Section Session.
Context {St : Type}.
Variable cb : option (Execution -> St -> St).
Variable now : nat -> nat -> Z.

Lemma accept_all_refines os : forall i ob sp s,
  refines ob sp ->
  let '(sp', es) := spec_accept_all now i sp os in
  exists ob', accept_all cb now i ob s os = Some (ob', foldl (fun s e => notify cb e s) s es) /\
    refines ob' sp'.
Proof.
  induction os as [|o os IH]; intros i ob sp s H; cbn [spec_accept_all accept_all].
  { by exists ob. }
  pose proof (acceptNewOrder_refines cb (now i) ob sp o s H) as H1.
  destruct (spec_accept (now i) sp o) as [sp1 es1]. destruct H1 as (ob1 & -> & H1).
  specialize (IH (S i) ob1 sp1 (foldl (fun s e => notify cb e s) s es1) H1).
  destruct (spec_accept_all now (S i) sp1 os) as [sp2 es2]. by rewrite foldl_app.
Qed.
End Session.

Lemma foldl_record es l : foldl (fun s e => notify (Some record_execution) e s) l es = l ++ es.
Proof.
  revert l. induction es as [|e es IH]; intros l; cbn; [by rewrite app_nil_r|].
  rewrite IH. cbn. unfold record_execution. by rewrite <- app_assoc.
Qed.

(** The recorded session: the state of the book and the log of executions. *)
Definition recorded (now : nat -> nat -> Z) (os : list Order) : option (OrderBook * list Execution) :=
  accept_all (Some record_execution) now 0 OrderBook_new [] os.

Definition spec_session (now : nat -> nat -> Z) (os : list Order) : SpecState * list Execution :=
  spec_accept_all now 0 spec_new os.

Lemma recorded_refines now os : exists ob,
  recorded now os = Some (ob, (spec_session now os).2) /\ refines ob (spec_session now os).1.
Proof.
  unfold recorded, spec_session.
  pose proof (accept_all_refines (Some record_execution) now os 0 OrderBook_new spec_new []
    refines_new) as H.
  destruct (spec_accept_all now 0 spec_new os) as [sp es]. by rewrite foldl_record in H.
Qed.

Lemma spec_session_history now os :
  history os (spec_session now os).1 (spec_session now os).2.
Proof.
  pose proof (session_history now os [] spec_new [] 0 history_new) as H.
  unfold spec_session. by destruct (spec_accept_all now 0 spec_new os).
Qed.

Lemma spec_session_live now os :
  sp_live (spec_session now os).1 = resting (spec_session now os).1.
Proof.
  pose proof (session_live now os spec_new 0 eq_refl) as H.
  unfold spec_session. by destruct (spec_accept_all now 0 spec_new os).
Qed.

(** ** Reading the state through the refinement *)

Definition best_tick (sd : OrderType) (b : SymbolBook) : Z :=
  match sd with BUY => best_bid_tick b | SELL => best_ask_tick b end.

Definition no_tick (sd : OrderType) : Z := match sd with BUY => -1 | SELL => MAX_TICKS end.

Definition head_tick (sd : OrderType) (b : SpecBook) : Z :=
  match spec_side sd b with [] => no_tick sd | r :: _ => tick_of r end.

Lemma side_best_tick h sd k levels bits best es :
  side_rep h sd k levels bits best es ->
  best = match view h es with [] => no_tick sd | r :: _ => tick_of r end /\
  forall r, r ∈ view h es -> in_range (tick_of r).
Proof.
  intros [_ _ _ _ Ho ->]. split.
  - destruct es as [|[s t] es]; [done|]. symmetry.
    by destruct (Ho (s, t) ltac:(left)) as (_ & Ht & _).
  - intros r (e & -> & He)%list_elem_of_fmap. destruct (Ho e He) as (Ht & Htt & _).
    unfold in_range. change (tick_of (payload ?o)) with (tick_of o). by rewrite Htt.
Qed.

Lemma refines_best ob sp k sd : refines ob sp ->
  best_tick sd (book_at ob k) = head_tick sd (sp_book_at sp k) /\
  forall r, r ∈ spec_side sd (sp_book_at sp k) -> in_range (tick_of r).
Proof.
  intros (fs & G & Hinv & Hsp & _). destruct (bi_books _ _ _ Hinv k) as [HB HA].
  unfold head_tick. rewrite Hsp.
  destruct sd; [exact (side_best_tick _ _ _ _ _ _ _ HB)|exact (side_best_tick _ _ _ _ _ _ _ HA)].
Qed.

Lemma refines_available ob sp : refines ob sp -> poolAvailable ob = POOL_CAPACITY - sp_live sp.
Proof.
  intros (fs & G & Hinv & _ & Hl). unfold poolAvailable.
  rewrite (pool_rep_available _ _ (bi_pool _ _ _ Hinv)). lia.
Qed.

(** What a side of the book is worth: 0.0 when it is empty. *)
Definition quote (sd : OrderType) (b : SpecBook) : double :=
  match spec_side sd b with [] => fzero | r :: _ => tickToPrice (tick_of r) end.

Lemma book_at_quote sd ob k :
  match books_ ob !! k with
  | Some b => if negb (best_tick sd b =? no_tick sd) then tickToPrice (best_tick sd b) else fzero
  | None => fzero
  end = if best_tick sd (book_at ob k) =? no_tick sd then fzero
        else tickToPrice (best_tick sd (book_at ob k)).
Proof.
  unfold book_at. destruct (books_ ob !! k) as [b|]; cbn; [by destruct (_ =? _)|by destruct sd].
Qed.

Lemma refines_quote sd ob sp k : refines ob sp ->
  (if best_tick sd (book_at ob k) =? no_tick sd then fzero
   else tickToPrice (best_tick sd (book_at ob k))) = quote sd (sp_book_at sp k).
Proof.
  intros H. destruct (refines_best ob sp k sd H) as [-> Hr]. unfold head_tick, quote.
  destruct (spec_side sd (sp_book_at sp k)) as [|r l]; [by rewrite Z.eqb_refl|].
  destruct (Z.eqb_spec (tick_of r) (no_tick sd)) as [E|]; [|done].
  specialize (Hr r ltac:(left)). unfold in_range, MAX_TICKS, no_tick in *.
  destruct sd; unfold MAX_TICKS in *; lia.
Qed.

Lemma bestBid_quote ob sp s : refines ob sp -> bestBid ob s = quote BUY (sp_book_at sp (query_key s)).
Proof. intros H. unfold bestBid. rewrite (book_at_quote BUY ob). by apply (refines_quote BUY). Qed.

Lemma bestAsk_quote ob sp s : refines ob sp -> bestAsk ob s = quote SELL (sp_book_at sp (query_key s)).
Proof. intros H. unfold bestAsk. rewrite (book_at_quote SELL ob). by apply (refines_quote SELL). Qed.

(** ** An accepted order

    On a well-formed book it makes one pass over the opposite side. *)
Lemma spec_accept_sweep now sp o :
  let sd := order_type o in
  let k := sym_key (symbol o) in
  let b := sp_book_at sp k in
  spec_accepts sp o = true -> no_cross sd (spec_side sd b) (spec_side (opposite sd) b) ->
  sorted_side sd (spec_side sd b) -> sorted_side (opposite sd) (spec_side (opposite sd) b) ->
  positive_order o -> Forall positive_order (spec_side (opposite sd) b) ->
  spec_accept now sp o =
  let '(es, rest, opp') := sweep (symbol o) sd now 0 (payload o) (spec_side (opposite sd) b) in
  let b' := mk_book sd (rest_in sd rest (spec_side sd b)) opp' in
  (mkSpecState (<[k := b']> (sp_books sp))
     (sp_live sp + Z.of_nat (spec_size b') - Z.of_nat (spec_size b)), es).
Proof.
  intros sd k b Hacc Hnc Hown Hopp Ho Hpos. unfold spec_accept, spec_accepts in *.
  apply andb_true_iff in Hacc as [H1 H2]. apply negb_true_iff in H1, H2. rewrite H1, H2. fold k sd b.
  assert (Hsize : spec_size b = (length (spec_side (opposite sd) b) + length (spec_side sd b))%nat)
    by (unfold spec_size; destruct sd; cbn; lia).
  rewrite spec_insert_size, spec_insert_mk. change (order_type (payload o)) with sd.
  rewrite (spec_match_sweep (symbol o) sd now 0 (payload o)) by (done || lia).
  by destruct (sweep _ _ _ _ _ _) as [[es rest] opp'].
Qed.

(** ** Sessions *)

(** C1. For every client callback, clock and sequence of orders, a session on
    a fresh [OrderBook] terminates, calls the callback with exactly the
    executions of the price-time specification, in order, and ends in a state
    of the slab, the queues, the bitsets and the cached best ticks that
    represents the state of the specification. *)
Theorem session_refines {St : Type} (cb : option (Execution -> St -> St))
    (now : nat -> nat -> Z) (os : list Order) (s0 : St) :
  exists ob,
    accept_all cb now 0 OrderBook_new s0 os =
      Some (ob, foldl (fun s e => notify cb e s) s0 (spec_session now os).2) /\
    refines ob (spec_session now os).1.
Proof.
  pose proof (accept_all_refines cb now os 0 OrderBook_new spec_new s0 refines_new) as H.
  unfold spec_session. by destruct (spec_accept_all now 0 spec_new os).
Qed.

(** C2. In any session of positive quantities, the next order that is not
    dropped makes one pass over the opposite side in priority order: it trades
    with each resting order the smaller of the two quantities, until it is
    filled or the next order is out of its limit; what is left of it rests
    behind every order at least as good, and the other books are unchanged. *)
Theorem order_sweeps_opposite_side (now : nat -> nat -> Z) (os : list Order) (o : Order) :
  Forall positive_order os -> positive_order o ->
  spec_accepts (spec_session now os).1 o = true ->
  let sd := order_type o in
  let k := sym_key (symbol o) in
  let sp := (spec_session now os).1 in
  let own := spec_side sd (sp_book_at sp k) in
  let '(es, rest, opp') := sweep (symbol o) sd (now (length os)) 0 (payload o)
                             (spec_side (opposite sd) (sp_book_at sp k)) in
  exists ob log ob' sp',
    recorded now os = Some (ob, log) /\ refines ob sp /\
    acceptNewOrder (Some record_execution) (now (length os)) ob o log = Some (ob', log ++ es) /\
    refines ob' sp' /\ sp_book_at sp' k = mk_book sd (rest_in sd rest own) opp' /\
    (forall k', k' <> k -> sp_book_at sp' k' = sp_book_at sp k').
Proof.
  intros Hpos Ho Hacc sd k sp own.
  destruct (recorded_refines now os) as (ob & Hrun & Href).
  pose proof (spec_session_history now os) as Hh. fold sp in Hh, Href, Hacc.
  pose proof (hi_books _ _ _ Hh k) as Hb.
  pose proof (uncrossed_no_cross sd _ (hi_uncrossed _ _ _ Hh k)) as Hnc.
  pose proof (acceptNewOrder_refines (Some record_execution) (now (length os)) ob sp o
    (spec_session now os).2 Href) as H.
  rewrite spec_accept_sweep in H; [|done|done|exact (in_priority_sorted _ _ _ _ (Hb sd))
    |exact (in_priority_sorted _ _ _ _ (Hb (opposite sd)))|done|exact (history_positive _ _ _ _ _ Hh Hpos)].
  fold sd k own in H. destruct (sweep _ _ _ _ _ _) as [[es rest] opp']. destruct H as (ob' & Hcall & Href').
  rewrite foldl_record in Hcall.
  eexists ob, _, ob', _. split_and!; [exact Hrun|exact Href|exact Hcall|exact Href'| |].
  - unfold sp_book_at; cbn. by rewrite lookup_insert_eq.
  - intros k' Hk. unfold sp_book_at; cbn. by rewrite lookup_insert_ne.
Qed.

(** A session and an order that trades through two resting orders. *)
Definition example_order (i : bytes) (p : Q) (t : OrderType) (q : Z) : Order :=
  mkOrder (strncpy (zeros 16) i 15) (strncpy (zeros 8) (B "AAPL") 7) (lit p) t q 7 nullptr.

Definition example_session : list Order :=
  [example_order (B "S1") (15010 # 100) SELL 100; example_order (B "S2") (15000 # 100) SELL 50;
   example_order (B "B1") 149 BUY 10].

Definition example_buy : Order := example_order (B "B2") (15020 # 100) BUY 120.

Lemma example_positive : Forall positive_order example_session.
Proof. repeat (constructor; [unfold positive_order; cbn; lia|]). constructor. Qed.

Definition example_sweep : list Execution * option Order * list Order :=
  sweep (symbol example_buy) BUY (fun _ => 0) 0 (payload example_buy)
    (spec_side (opposite BUY) (sp_book_at (spec_session (fun _ _ => 0) example_session).1
      (sym_key (symbol example_buy)))).

Lemma example_sweep_value : exists e1 e2 rest opp,
  example_sweep = ([e1; e2], rest, opp) /\
  exec_quantity e1 = of_int 50 /\ trade_price e1 = lit 150 /\
  exec_quantity e2 = of_int 70 /\ trade_price e2 = lit (15010 # 100).
Proof. vm_compute. do 4 eexists. repeat split. Qed.

Lemma order_sweeps_opposite_side_witness :
  exists ob log ob' e1 e2, recorded (fun _ _ => 0) example_session = Some (ob, log) /\
    acceptNewOrder (Some record_execution) (fun _ => 0) ob example_buy log =
      Some (ob', log ++ [e1; e2]) /\
    exec_quantity e1 = of_int 50 /\ trade_price e1 = lit 150 /\
    exec_quantity e2 = of_int 70 /\ trade_price e2 = lit (15010 # 100).
Proof.
  assert (Hacc : spec_accepts (spec_session (fun _ _ => 0) example_session).1 example_buy = true)
    by (vm_compute; reflexivity).
  pose proof (order_sweeps_opposite_side (fun _ _ => 0) example_session example_buy
    example_positive ltac:(unfold positive_order; cbn; lia) Hacc) as H.
  cbv beta zeta in H. change (order_type example_buy) with BUY in H.
  fold example_sweep in H.
  destruct example_sweep_value as (e1 & e2 & rest & opp & E & He).
  rewrite E in H. destruct H as (ob & log & ob' & sp' & H1 & _ & H2 & _).
  exists ob, log, ob', e1, e2. exact (conj H1 (conj H2 He)).
Defined.

(** C9. Every execution a session reports is between a buy order and a sell
    order of the session with the same symbol key whose ticks cross; the later
    of the two is the aggressor, the price is the price of the earlier one,
    and with positive quantities it is positive and at most both. *)
Theorem executions_explained (now : nat -> nat -> Z) (os : list Order) :
  exists ob log, recorded now os = Some (ob, log) /\ Forall (explained os) log.
Proof.
  destruct (recorded_refines now os) as (ob & Hrun & _).
  exists ob, (spec_session now os).2. split; [done|]. apply (hi_execs _ _ _ (spec_session_history now os)).
Qed.

(** C11. After any session the queues of every book hold the live orders in
    price-time priority: better tick first, and within a tick in the order in
    which they were accepted, each with its own price and what is left of its
    quantity. *)
Theorem resting_in_priority (now : nat -> nat -> Z) (os : list Order) :
  exists ob log sp, recorded now os = Some (ob, log) /\ refines ob sp /\
    forall k sd, in_priority os sd k (spec_side sd (sp_book_at sp k)).
Proof.
  destruct (recorded_refines now os) as (ob & Hrun & Href).
  eexists ob, _, _. split; [exact Hrun|]. split; [exact Href|].
  intros k sd. apply (hi_books _ _ _ (spec_session_history now os)).
Qed.

(** C12. No session leaves a crossed book: for every symbol key the cached best
    bid tick is below the cached best ask tick (an empty side is -1 or
    [MAX_TICKS]). *)
Theorem never_crossed (now : nat -> nat -> Z) (os : list Order) :
  exists ob log, recorded now os = Some (ob, log) /\
    forall k, -1 <= best_bid_tick (book_at ob k) < best_ask_tick (book_at ob k) /\
      best_ask_tick (book_at ob k) <= MAX_TICKS.
Proof.
  destruct (recorded_refines now os) as (ob & Hrun & Href).
  exists ob, (spec_session now os).2. split; [done|]. intros k.
  destruct (refines_best ob _ k BUY Href) as [HB HrB].
  destruct (refines_best ob _ k SELL Href) as [HS HrS]. cbn [best_tick] in HB, HS.
  pose proof (hi_uncrossed _ _ _ (spec_session_history now os) k) as Hu.
  rewrite HB, HS. unfold head_tick, uncrossed, in_range in *. cbn [spec_side] in *.
  destruct (s_bids _) as [|x bs], (s_asks _) as [|y as_]; cbn [no_tick];
    try pose proof (HrB x ltac:(left)); try pose proof (HrS y ltac:(left));
    try pose proof (Hu x y ltac:(left) ltac:(left)); unfold MAX_TICKS in *; lia.
Qed.

(** C16. [bestBid] and [bestAsk] quote the tick of the resting order with the
    highest bid, respectively the lowest ask; 0.0 when the side is empty or the
    symbol unknown. *)
Theorem best_quotes (now : nat -> nat -> Z) (os : list Order) :
  exists ob log sp, recorded now os = Some (ob, log) /\ refines ob sp /\
    forall s, let b := sp_book_at sp (query_key s) in
      bestBid ob s = quote BUY b /\ bestAsk ob s = quote SELL b /\
      forall sd r, r ∈ spec_side sd b -> at_least sd (head_tick sd b) (tick_of r) = true.
Proof.
  destruct (recorded_refines now os) as (ob & Hrun & Href).
  eexists ob, _, _. split; [exact Hrun|]. split; [exact Href|]. intros s b.
  split_and!; [by apply bestBid_quote|by apply bestAsk_quote|].
  intros sd r Hr. pose proof (hi_books _ _ _ (spec_session_history now os) (query_key s) sd) as Hb.
  fold b in Hb. apply in_priority_sorted in Hb. unfold head_tick.
  destruct (spec_side sd b) as [|w l]; [by apply elem_of_nil in Hr|].
  by apply (sorted_head sd w l).
Qed.

(** C15. The pool leaks nothing: after any session the free slots and the
    resting orders of all the books are together the capacity of the pool. *)
Theorem pool_accounting (now : nat -> nat -> Z) (os : list Order) :
  exists ob log sp, recorded now os = Some (ob, log) /\ refines ob sp /\
    poolAvailable ob + resting sp = POOL_CAPACITY.
Proof.
  destruct (recorded_refines now os) as (ob & Hrun & Href).
  eexists ob, _, _. split; [exact Hrun|]. split; [exact Href|].
  rewrite (refines_available _ _ Href), spec_session_live. lia.
Qed.

(** C14. Quantity is conserved on each side: with positive quantities, what the
    orders that were not dropped offered is what was executed plus what rests. *)
Theorem quantity_conserved (now : nat -> nat -> Z) (os : list Order) (sd : OrderType) :
  Forall positive_order os ->
  exists ob log sp, recorded now os = Some (ob, log) /\ refines ob sp /\
    offered sd (spec_accepted now 0 spec_new os) = turnover log + side_volume sd sp.
Proof.
  intros Hpos. destruct (recorded_refines now os) as (ob & Hrun & Href).
  eexists ob, _, _. split; [exact Hrun|]. split; [exact Href|].
  pose proof (session_volume now sd os [] spec_new [] 0 history_new ltac:(constructor) Hpos) as H.
  unfold spec_session. destruct (spec_accept_all now 0 spec_new os) as [sp es]. cbn [fst snd].
  change (side_volume sd spec_new) with 0 in H. lia.
Qed.

Lemma quantity_conserved_witness : exists ob log sp,
  recorded (fun _ _ => 0) example_session = Some (ob, log) /\ refines ob sp /\
  offered SELL (spec_accepted (fun _ _ => 0) 0 spec_new example_session) =
    turnover log + side_volume SELL sp.
Proof. exact (quantity_conserved (fun _ _ => 0) example_session SELL example_positive). Defined.
