(* ===== verification/OrderBookLimits.v ===== *)
(** * Limit prices and ticks

    The book compares prices by their ticks of one cent.  Here what that means
    for the limits of the orders: how far [priceToTick] is from the price, that
    a session of whole-cent prices trades within the limits of both sides, and
    how far beyond a limit finer prices can be traded. *)

From Stdlib Require Import QArith Qabs Lqa.
From S2P Require Import Prelude Float64 Float64Accuracy CString Messages TickBitset PriceTick OrderBook.
From S2P Require Import OrderBookSpec OrderBookHistory OrderBookProps.

Local Open Scope Z_scope.

(** ** The tick of a price *)

(** Prices the book can hold that are not far below a cent. *)
Definition quoted (p : double) : Prop := (exists e, normal p e) /\ (1 # 200 <= valQ p <= 5000)%Q.

Lemma quoted_exponent p : quoted p -> exists e, normal p e /\ -60 <= e <= -40.
Proof.
  intros ([e He] & H1 & H2). exists e. split; [done|].
  enough (-8 - 52 <= e < 13 - 52) by lia. apply (normal_exponent p e _ _ He).
  change (bpow (-8)) with (1 # 256)%Q. change (bpow 13) with 8192%Q. lra.
Qed.

(** The two roundings and the truncation of [priceToTick]. *)
Lemma priceToTick_steps p : quoted p ->
  let c := (p * of_int 100)%D in let x := (c + lit (1 # 2))%D in
  exists e f, normal c e /\ nearest c (valQ p * 100) /\ normal x f /\ nearest x (valQ c + (1 # 2)) /\
    trunc x = Some (priceToTick p).
Proof.
  intros Hq c x. destruct (quoted_exponent p Hq) as (ex & Hx & Hex). destruct Hq as (_ & H1 & H2).
  destruct (of_int_normal 100 ltac:(lia)) as [H100 V100]. change (Z.log2 100 - 52) with (-46) in H100.
  destruct (fmul_nearest p (of_int 100) ex (-46)) as (e & He & N & V); [done|done|lia|].
  assert (Hhalf : normal (lit (1 # 2)) (-53)) by (eexists; split; [reflexivity|lia]).
  assert (Vhalf : (valQ (lit (1 # 2)) == 1 # 2)%Q) by reflexivity.
  destruct (fadd_nearest _ (lit (1 # 2)) e (-53) N Hhalf) as (f & Hf & N3 & V3); [lia|lia|].
  rewrite V100 in V. rewrite Vhalf in V3. change (inject_Z 100) with 100%Q in V. fold c in N, V, N3, V3. fold x in N3, V3.
  exists e, f. split_and!; [done..|]. destruct (trunc_floor _ f N3) as (t & Ht & T1 & T2).
  apply nearest_near in V, V3. unfold near, u53 in V, V3. change (2 ^ 53)%positive with 9007199254740992%positive in V, V3.
  rewrite inject_Z_plus in T2. change (inject_Z 1) with 1%Q in T2.
  assert (Hr : -1 < t <= 600000).
  { split; [rewrite Zlt_Qlt; change (inject_Z (-1)) with (-1)%Q|rewrite Zle_Qle; change (inject_Z 600000) with 600000%Q]; lra. }
  unfold priceToTick. rewrite lit_100. fold c. fold x. unfold to_int32. rewrite Ht.
  by rewrite (proj2 (Z.leb_le _ _)), (proj2 (Z.leb_le _ _)) by lia.
Qed.

(** Half a cent, and what two roundings of at most 500000.5 can add. *)
Definition tick_width : Q := ((1 # 200) + (1 # 2 ^ 38))%Q.

Lemma priceToTick_close p : quoted p ->
  (Qabs (valQ p - inject_Z (priceToTick p) / 100) <= tick_width)%Q.
Proof.
  intros Hq. destruct (priceToTick_steps p Hq) as (e & f & N & V & N3 & V3 & Ht). destruct Hq as (_ & H1 & H2).
  destruct (trunc_floor _ f N3) as (t & Ht' & T1 & T2). rewrite Ht in Ht'. injection Ht' as <-.
  apply nearest_near in V, V3. unfold near, u53 in V, V3. change (2 ^ 53)%positive with 9007199254740992%positive in V, V3.
  rewrite inject_Z_plus in T2. change (inject_Z 1) with 1%Q in T2.
  apply Qabs_Qle_condition. unfold tick_width. change (2 ^ 38)%positive with 274877906944%positive.
  assert (E : (inject_Z (priceToTick p) / 100 == inject_Z (priceToTick p) * (1 # 100))%Q) by reflexivity. rewrite E. lra.
Qed.

(** A higher price is never on a lower tick. *)
Lemma priceToTick_mono p q : quoted p -> quoted q -> (valQ p <= valQ q)%Q -> priceToTick p <= priceToTick q.
Proof.
  intros Hp Hq Hle.
  destruct (priceToTick_steps p Hp) as (e & f & N & V & N' & V' & T), (priceToTick_steps q Hq) as (g & h & M & W & M' & W' & U).
  destruct (Qle_lt_or_eq _ _ Hle) as [Hlt|Heq].
  2:{ destruct Hp as [[ep Np] _], Hq as [[eq Nq] _]. by rewrite (normal_inj p q ep eq Np Nq Heq). }
  assert (Hc : (valQ (p * of_int 100)%D <= valQ (q * of_int 100)%D)%Q) by (apply (nearest_mono _ _ _ _ V W); lra).
  destruct (Qle_lt_or_eq _ _ Hc) as [Hclt|Hceq].
  - apply (trunc_mono _ _ f h _ _ N' M' T U). apply (nearest_mono _ _ _ _ V' W'). lra.
  - rewrite (normal_inj _ _ e g N M Hceq) in T. rewrite T in U. injection U as ->. done.
Qed.

(** A price of whole cents, as a FIX message or a CSV file spells it. *)
Definition whole_cents (p : double) : Prop := exists c, 0 < Zpos c < MAX_TICKS /\ p = lit (Zpos c # 100).

Lemma whole_cents_quoted p : whole_cents p -> quoted p.
Proof.
  intros (c & Hc & ->). destruct (cents_near c Hc) as (e & N & _ & V). split; [by eexists|].
  assert (Hq : (1 <= inject_Z (Zpos c) <= 499999)%Q).
  { unfold MAX_TICKS in Hc. change 1%Q with (inject_Z 1). change 499999%Q with (inject_Z 499999). rewrite <- !Zle_Qle. lia. }
  unfold near, u53 in V. change (2 ^ 53)%positive with 9007199254740992%positive in V.
  assert (E : (inject_Z (Zpos c) / 100 == inject_Z (Zpos c) * (1 # 100))%Q) by reflexivity. rewrite E in V. lra.
Qed.

(** On whole cents the ticks compare as the prices do. *)
Lemma whole_cents_order p q : whole_cents p -> whole_cents q -> priceToTick p <= priceToTick q -> (valQ p <= valQ q)%Q.
Proof.
  intros (c & Hc & ->) (d & Hd & ->). rewrite !priceToTick_decimal_pos by done.
  intros [Hlt|Heq]%Z.le_lteq; [|rewrite Heq; lra].
  destruct (cents_near c Hc) as (_ & _ & _ & Vc), (cents_near d Hd) as (_ & _ & _ & Vd).
  assert (Hq : (inject_Z (Zpos c) + 1 <= inject_Z (Zpos d) <= 499999)%Q).
  { unfold MAX_TICKS in Hd. change 499999%Q with (inject_Z 499999). change 1%Q with (inject_Z 1).
    rewrite <- inject_Z_plus, <- !Zle_Qle. lia. }
  assert (0 < inject_Z (Zpos c))%Q by (apply inject_pos; lia).
  unfold near, u53 in *. change (2 ^ 53)%positive with 9007199254740992%positive in *.
  assert (Ec : (inject_Z (Zpos c) / 100 == inject_Z (Zpos c) * (1 # 100))%Q) by reflexivity. rewrite Ec in Vc.
  assert (Ed : (inject_Z (Zpos d) / 100 == inject_Z (Zpos d) * (1 # 100))%Q) by reflexivity. rewrite Ed in Vd. lra.
Qed.

(** In general they tell prices apart up to a cent. *)
Lemma tick_order p q : quoted p -> quoted q -> priceToTick p <= priceToTick q -> (valQ p <= valQ q + 2 * tick_width)%Q.
Proof.
  intros Hp%priceToTick_close Hq%priceToTick_close Ht. apply Qabs_Qle_condition in Hp, Hq.
  assert (inject_Z (priceToTick p) * (1 # 100) <= inject_Z (priceToTick q) * (1 # 100))%Q
    by (apply Qmult_le_compat_r; [by rewrite <- Zle_Qle|done]).
  unfold Qdiv in *. change (/ 100)%Q with (1 # 100)%Q in *. lra.
Qed.

(** ** Executions and limits *)

(** [e] trades two orders of [os] at a price at most [slack] beyond the limit
    of either. *)
Definition within_limits (slack : Q) (os : list Order) (e : Execution) : Prop :=
  exists bd ak, bd ∈ os /\ ak ∈ os /\ order_type bd = BUY /\ order_type ak = SELL /\
    buy_id e = strncpy (zeros 16) (id bd) 15 /\ sell_id e = strncpy (zeros 16) (id ak) 15 /\
    (valQ (price ak) - slack <= valQ (trade_price e) <= valQ (price bd) + slack)%Q.

Lemma explained_within slack os e : (0 <= slack)%Q ->
  (forall bd ak, bd ∈ os -> ak ∈ os -> tick_of ak <= tick_of bd -> (valQ (price ak) <= valQ (price bd) + slack)%Q) ->
  explained os e -> within_limits slack os e.
Proof.
  intros Hs Hos (i & j & _ & bd & ak & Hi & Hj & Tb & Ta & _ & Ht & Ib & Ia & _ & Hp & _).
  apply list_elem_of_lookup_2 in Hi, Hj. exists bd, ak. split_and!; try done.
  - rewrite Hp. specialize (Hos bd ak Hi Hj Ht). case_decide; lra.
  - rewrite Hp. specialize (Hos bd ak Hi Hj Ht). case_decide; lra.
Qed.

Lemma session_within slack now os : (0 <= slack)%Q ->
  (forall bd ak, bd ∈ os -> ak ∈ os -> tick_of ak <= tick_of bd -> (valQ (price ak) <= valQ (price bd) + slack)%Q) ->
  Forall (within_limits slack os) (spec_session now os).2.
Proof.
  intros Hs Hos. eapply Forall_impl; [apply (hi_execs _ _ _ (spec_session_history now os))|].
  intros e. by apply explained_within.
Qed.

(** A seller at 1.2549 and a buyer at 1.2501, as an FX instrument is quoted. *)
Definition fine_session : list Order :=
  [example_order (B "S1") (12549 # 10000) SELL 100; example_order (B "B1") (12501 # 10000) BUY 100].

(** Below half a cent the conversion to ticks truncates towards zero: a buyer
    at a negative price meets a seller nearly two cents above on tick 0. *)
Definition negative_session : list Order :=
  [example_order (B "S1") (49 # 10000) SELL 100; example_order (B "B1") (- (149 # 10000)) BUY 100].

(** C10. Executions keep to the limit prices of both orders, to the resolution
    of a tick.  When all the orders of a session are priced in whole cents no
    trade is above the buyer's price or below the seller's.  For prices from
    half a cent to 5000 the excess is at most one cent (and 2^-37 for the two
    roundings of [priceToTick]).  A session that quotes as the FX pairs of
    config/instruments.csv do has such an excess: the buyer at 1.2501 pays
    1.2549.  Outside that range it can be larger: the book accepts a buyer at
    -0.0149, who pays 0.0049. *)
Theorem limits_respected (now : nat -> nat -> Z) (os : list Order) :
  Forall (fun o => quoted (price o)) os ->
  (exists ob log, recorded now os = Some (ob, log) /\ Forall (within_limits (2 * tick_width) os) log /\
    (Forall (fun o => whole_cents (price o)) os -> Forall (within_limits 0 os) log)) /\
  (exists ob e, recorded now fine_session = Some (ob, [e]) /\
    Forall (fun o => quoted (price o)) fine_session /\ trade_price e = lit (12549 # 10000)) /\
  (exists ob e, recorded now negative_session = Some (ob, [e]) /\ trade_price e = lit (49 # 10000)).
Proof.
  intros Hq. split; [|split].
  - destruct (recorded_refines now os) as (ob & Hrun & _). eexists ob, _. split; [exact Hrun|]. split.
    + apply session_within; [done|]. intros bd ak Hbd Hak. rewrite Forall_forall in Hq. apply tick_order; by apply Hq.
    + intros Hc. apply session_within; [done|]. intros bd ak Hbd Hak Ht. rewrite Forall_forall in Hc.
      rewrite Qplus_0_r. apply whole_cents_order; [by apply Hc..|done].
  - destruct (recorded_refines now fine_session) as (ob & Hrun & _).
    exists ob. assert (E : exists e, (spec_session now fine_session).2 = [e] /\ trade_price e = lit (12549 # 10000)).
    { eexists. split; [vm_compute; reflexivity|reflexivity]. }
    destruct E as (e & E & He). exists e. rewrite Hrun, E. split; [done|]. split; [|done].
    repeat (constructor; [split; [eexists; eexists; split; [vm_compute; reflexivity|lia]|vm_compute; split; discriminate]|]).
    constructor.
  - destruct (recorded_refines now negative_session) as (ob & Hrun & _).
    exists ob. assert (E : exists e, (spec_session now negative_session).2 = [e] /\ trade_price e = lit (49 # 10000)).
    { eexists. split; [vm_compute; reflexivity|reflexivity]. }
    destruct E as (e & E & He). exists e. rewrite Hrun, E. exact (conj eq_refl He).
Qed.

Lemma limits_respected_witness :
  exists ob log, recorded (fun _ _ => 0) example_session = Some (ob, log) /\
    Forall (within_limits (2 * tick_width) example_session) log.
Proof.
  assert (H : Forall (fun o => quoted (price o)) example_session).
  { repeat (constructor; [split; [eexists; eexists; split; [vm_compute; reflexivity|lia]|vm_compute; split; discriminate]|]).
    constructor. }
  pose proof (limits_respected (fun _ _ => 0) example_session H) as [L _]. clear H.
  destruct L as (ob & log & L). exists ob, log. exact (conj (proj1 L) (proj1 (proj2 L))).
Defined.
