(* ===== verification/OrderBookPrices.v ===== *)
(** * The prices of the resting orders

    The book keeps ticks; here what its invariants say of the prices the
    orders were sent with.  [priceToTick] never puts a higher price on a lower
    tick, so that two orders whose prices cross always trade; the quotes are
    within half a cent of the best resting price. *)

From Stdlib Require Import QArith Qabs Lqa.
From S2P Require Import Prelude Float64 Float64Accuracy CString Messages TickBitset PriceTick OrderBook.
From S2P Require Import OrderBookSpec OrderBookSweep OrderBookHistory OrderBookRefinement OrderBookProps OrderBookLimits.

Local Open Scope Z_scope.

Lemma lower_tick_lower_price p q : quoted p -> quoted q -> priceToTick p < priceToTick q -> (valQ p < valQ q)%Q.
Proof.
  intros Hp Hq Ht. apply Qnot_le_lt. intros Hle%priceToTick_mono; [lia|done..].
Qed.

(** ** Quotes *)

(** What the two roundings of [priceToTick] and that of [tickToPrice] add to
    half a cent. *)
Definition quote_width : Q := (tick_width + (1 # 2 ^ 40))%Q.

Lemma tickToPrice_close t : in_range t -> (Qabs (valQ (tickToPrice t) - inject_Z t / 100) <= 1 # 2 ^ 40)%Q.
Proof.
  intros Ht. destruct (decide (t = 0)) as [->|]; [done|]. unfold in_range in Ht.
  destruct (tickToPrice_near t ltac:(lia)) as (e & _ & _ & V). unfold near, u53 in V.
  assert (Hq : (0 <= inject_Z t <= 500000)%Q).
  { unfold MAX_TICKS in Ht. change 0%Q with (inject_Z 0). change 500000%Q with (inject_Z 500000). rewrite <- !Zle_Qle. lia. }
  assert (E : (inject_Z t / 100 == inject_Z t * (1 # 100))%Q) by reflexivity. rewrite E in *.
  change (2 ^ 53)%positive with 9007199254740992%positive in V. change (2 ^ 40)%positive with 1099511627776%positive.
  apply Qabs_Qle_condition. lra.
Qed.

Lemma quote_close p : quoted p -> in_range (priceToTick p) ->
  (Qabs (valQ (tickToPrice (priceToTick p)) - valQ p) <= quote_width)%Q.
Proof.
  intros Hp Ht. pose proof (priceToTick_close p Hp) as H1. pose proof (tickToPrice_close _ Ht) as H2.
  unfold quote_width. apply Qabs_Qle_condition in H1, H2. apply Qabs_Qle_condition. lra.
Qed.

Lemma tickToPrice_lt t u : in_range t -> in_range u -> t < u -> (valQ (tickToPrice t) < valQ (tickToPrice u))%Q.
Proof.
  intros Ht Hu Htu. pose proof (tickToPrice_close t Ht) as H1. pose proof (tickToPrice_close u Hu) as H2.
  apply Qabs_Qle_condition in H1, H2. change (2 ^ 40)%positive with 1099511627776%positive in *.
  assert (H : (inject_Z t * (1 # 100) + (1 # 100) <= inject_Z u * (1 # 100))%Q).
  { assert (inject_Z t + 1 <= inject_Z u)%Q; [|lra].
    change 1%Q with (inject_Z 1). rewrite <- inject_Z_plus, <- Zle_Qle. lia. }
  unfold Qdiv in *. change (/ 100)%Q with (1 # 100)%Q in *. lra.
Qed.

(** ** Resting orders *)

Section Session.
Variable now : nat -> nat -> Z.
Variable os : list Order.
Let sp := (spec_session now os).1.

Lemma resting_origin k sd r : r ∈ spec_side sd (sp_book_at sp k) ->
  in_range (tick_of r) /\ exists o, o ∈ os /\ price r = price o.
Proof.
  intros Hr. destruct (hi_books _ _ _ (spec_session_history now os) k sd) as (L & E & HL & _). fold sp in E.
  rewrite E in Hr. apply list_elem_of_fmap in Hr as (p & -> & Hp). rewrite Forall_forall in HL.
  destruct (HL p Hp) as (o & Ho & _ & _ & Ht & -> & _). split; [exact Ht|].
  exists o. split; [by eapply list_elem_of_lookup_2|done].
Qed.

Context (Hq : Forall (fun o => quoted (price o)) os).

Lemma resting_quoted k sd r : r ∈ spec_side sd (sp_book_at sp k) -> quoted (price r).
Proof. intros Hr. destruct (resting_origin k sd r Hr) as (_ & o & Ho & ->). rewrite Forall_forall in Hq. by apply Hq. Qed.

Lemma resting_uncrossed k bd ak : bd ∈ s_bids (sp_book_at sp k) -> ak ∈ s_asks (sp_book_at sp k) ->
  (valQ (price bd) < valQ (price ak))%Q.
Proof.
  intros Hbd Hak. apply lower_tick_lower_price; [by apply (resting_quoted k BUY)|by apply (resting_quoted k SELL)|].
  exact (hi_uncrossed _ _ _ (spec_session_history now os) k bd ak Hbd Hak).
Qed.

(** The head of a side is the best up to a cent, and the quote is its price up
    to [quote_width]. *)
Lemma head_quote k sd r l : spec_side sd (sp_book_at sp k) = r :: l ->
  (Qabs (valQ (quote sd (sp_book_at sp k)) - valQ (price r)) <= quote_width)%Q.
Proof.
  intros E. assert (Hr : r ∈ spec_side sd (sp_book_at sp k)) by (rewrite E; left).
  unfold quote. rewrite E. apply quote_close; [by eapply resting_quoted|by eapply resting_origin].
Qed.

Lemma quotes_apart k bd bs ak as_ : s_bids (sp_book_at sp k) = bd :: bs -> s_asks (sp_book_at sp k) = ak :: as_ ->
  (valQ (quote BUY (sp_book_at sp k)) < valQ (quote SELL (sp_book_at sp k)))%Q.
Proof.
  intros Eb Ea. unfold quote. cbn [spec_side]. rewrite Eb, Ea.
  assert (Hbd : bd ∈ s_bids (sp_book_at sp k)) by (rewrite Eb; left).
  assert (Hak : ak ∈ s_asks (sp_book_at sp k)) by (rewrite Ea; left).
  apply tickToPrice_lt; [by apply (resting_origin k BUY)|by apply (resting_origin k SELL)|].
  exact (hi_uncrossed _ _ _ (spec_session_history now os) k bd ak Hbd Hak).
Qed.

(** On whole cents the queues are in the order of the prices. *)
Lemma cents_priority k sd i j r r' : Forall (fun o => whole_cents (price o)) os -> (i < j)%nat ->
  spec_side sd (sp_book_at sp k) !! i = Some r -> spec_side sd (sp_book_at sp k) !! j = Some r' ->
  match sd with BUY => (valQ (price r') <= valQ (price r))%Q | SELL => (valQ (price r) <= valQ (price r'))%Q end.
Proof.
  intros Hc Hij Hi Hj.
  assert (Hw : forall r, r ∈ spec_side sd (sp_book_at sp k) -> whole_cents (price r)).
  { intros x Hx. destruct (resting_origin k sd x Hx) as (_ & o & Ho & ->). rewrite Forall_forall in Hc. by apply Hc. }
  pose proof (Hw r ltac:(by eapply list_elem_of_lookup_2)) as W. pose proof (Hw r' ltac:(by eapply list_elem_of_lookup_2)) as W'.
  pose proof (in_priority_sorted _ _ _ _ (hi_books _ _ _ (spec_session_history now os) k sd)) as Hs. fold sp in Hs.
  assert (Ht : at_least sd (tick_of r) (tick_of r') = true).
  { unfold sorted_side in Hs. rewrite <- (take_drop (S i) (spec_side sd _)) in Hs.
    apply (StronglySorted_app_1_elem_of _ _ _ _ _ Hs); apply list_elem_of_lookup.
    - exists i. rewrite lookup_take_lt by lia. exact Hi.
    - exists (j - S i)%nat. rewrite lookup_drop. by replace (S i + (j - S i))%nat with j by lia. }
  destruct sd; cbn in Ht; apply Z.leb_le in Ht; by apply whole_cents_order.
Qed.
End Session.

(** ** Claims *)

(** C13. No trade is missed and no quote is far from its order, in prices: after any
    session of quoted prices every resting bid is priced strictly below every
    resting ask of its symbol, so that no two orders that could trade are left
    in a book; a quote is within half a cent (and three roundings) of the price
    of the order it stands for, and the quotes of a book with two sides do not
    touch.  When all prices are whole cents the queues are in the order of the
    prices. *)
Theorem resting_prices (now : nat -> nat -> Z) (os : list Order) : Forall (fun o => quoted (price o)) os ->
  exists ob log sp, recorded now os = Some (ob, log) /\ refines ob sp /\
    (forall k bd ak, bd ∈ s_bids (sp_book_at sp k) -> ak ∈ s_asks (sp_book_at sp k) ->
      (valQ (price bd) < valQ (price ak))%Q) /\
    (forall s bd bs ak as_, s_bids (sp_book_at sp (query_key s)) = bd :: bs ->
      s_asks (sp_book_at sp (query_key s)) = ak :: as_ ->
      (Qabs (valQ (bestBid ob s) - valQ (price bd)) <= quote_width)%Q /\
      (Qabs (valQ (bestAsk ob s) - valQ (price ak)) <= quote_width)%Q /\
      (valQ (bestBid ob s) < valQ (bestAsk ob s))%Q) /\
    (Forall (fun o => whole_cents (price o)) os -> forall k sd i j r r', (i < j)%nat ->
      spec_side sd (sp_book_at sp k) !! i = Some r -> spec_side sd (sp_book_at sp k) !! j = Some r' ->
      match sd with BUY => (valQ (price r') <= valQ (price r))%Q | SELL => (valQ (price r) <= valQ (price r'))%Q end).
Proof.
  intros Hq. destruct (recorded_refines now os) as (ob & Hrun & Href). eexists ob, _, _.
  split; [exact Hrun|]. split; [exact Href|]. split_and!.
  - intros k bd ak. by apply resting_uncrossed.
  - intros s bd bs ak as_ Eb Ea.
    rewrite (bestBid_quote _ _ s Href), (bestAsk_quote _ _ s Href). split; [by apply (head_quote now os Hq _ BUY _ bs)|].
    split; [by apply (head_quote now os Hq _ SELL _ as_)|]. by eapply quotes_apart.
  - intros Hc k sd i j r r'. by apply cents_priority.
Qed.

(** A bid and an ask a hundredth of a cent apart, on different ticks. *)
Definition close_session : list Order :=
  [example_order (B "B1") (12349 # 10000) BUY 100; example_order (B "S1") (12350 # 10000) SELL 100].

Lemma resting_prices_witness : exists ob log sp, recorded (fun _ _ => 0) close_session = Some (ob, log) /\ refines ob sp /\
  forall k bd ak, bd ∈ s_bids (sp_book_at sp k) -> ak ∈ s_asks (sp_book_at sp k) -> (valQ (price bd) < valQ (price ak))%Q.
Proof.
  assert (H : Forall (fun o => quoted (price o)) close_session).
  { repeat (constructor; [split; [eexists; eexists; split; [vm_compute; reflexivity|lia]|vm_compute; split; discriminate]|]).
    constructor. }
  pose proof (resting_prices (fun _ _ => 0) close_session H) as L. clear H.
  destruct L as (ob & log & sp & L1 & L2 & L3 & _). exists ob, log, sp. exact (conj L1 (conj L2 L3)).
Defined.
