(* ===== verification/Numerals.v ===== *)
(** * Numerals: [atof] and decimal output

    The conversions between text and numbers of the standard library the
    sources use.  [strtod] follows the C grammar (spaces, sign, decimal or
    hexadecimal digits, exponent, [inf], [nan]) and rounds correctly; the
    printers write unsigned decimal numerals of a given or minimal width. *)

From Stdlib Require Import Ascii QArith_base Floats.SpecFloat.
From S2P Require Import Prelude Float64 CString.

Local Open Scope Z_scope.

(** [lia] knows division and remainder in this file. *)
Ltac Zify.zify_post_hook ::= Z.to_euclidean_division_equations.

(** ** Digits *)

Definition digit_of (base : Z) (c : ascii) : option Z :=
  let v := byte_val c in
  let d := if (48 <=? v) && (v <=? 57) then v - 48
           else if (97 <=? v) && (v <=? 122) then v - 87
           else if (65 <=? v) && (v <=? 90) then v - 55 else 99 in
  if d <? base then Some d else None.

(** The longest prefix of digits, and the rest. *)
Fixpoint span_digits (base : Z) (s : bytes) : list Z * bytes :=
  match s with
  | [] => ([], [])
  | c :: r =>
      match digit_of base c with
      | Some d => let '(ds, r') := span_digits base r in (d :: ds, r')
      | None => ([], s)
      end
  end.

Definition digits_value (base : Z) (ds : list Z) : Z := foldl (fun a d => a * base + d) 0 ds.

Definition is_space (c : ascii) : bool :=
  let v := byte_val c in (v =? 32) || ((9 <=? v) && (v <=? 13)).

Fixpoint skip_space (s : bytes) : bytes :=
  match s with
  | [] => []
  | c :: r => if is_space c then skip_space r else s
  end.

(** An optional sign; [true] is minus. *)
Definition take_sign (s : bytes) : bool * bytes :=
  match s with
  | c :: r => if decide (c = "-"%char) then (true, r)
              else if decide (c = "+"%char) then (false, r) else (false, s)
  | [] => (false, s)
  end.

Definition lower (c : ascii) : ascii :=
  let v := byte_val c in
  if (65 <=? v) && (v <=? 90) then ascii_of_N (Z.to_N (v + 32)) else c.

(** [s] starts with the word [w], letters in either case. *)
Definition starts_with (w s : bytes) : bool := bool_decide (lower <$> take (length w) s = w).

(** ** [strtod] *)

(** The double nearest to [± m * b^e]. *)
Definition scaled (neg : bool) (m b e : Z) : double :=
  if m =? 0 then S754_zero neg
  else if 0 <=? e then of_ratio neg (Z.to_pos (m * b ^ e)) 1
  else of_ratio neg (Z.to_pos m) (Z.to_pos (b ^ (- e))).

(** An exponent introduced by the letter [mark]: 0 when there is none. *)
Definition exponent (mark : ascii) (s : bytes) : Z :=
  match s with
  | c :: r =>
      if decide (lower c = mark) then
        let '(neg, r) := take_sign r in
        let '(ds, _) := span_digits 10 r in
        let e := digits_value 10 ds in if neg then - e else e
      else 0
  | [] => 0
  end.

(** The digits before and after the point, and the rest. *)
Definition mantissa (base : Z) (s : bytes) : list Z * list Z * bytes :=
  let '(ip, r) := span_digits base s in
  match r with
  | c :: r' => if decide (c = "."%char) then let '(fp, r'') := span_digits base r' in (ip, fp, r'')
               else (ip, [], r)
  | [] => (ip, [], r)
  end.

(** What the text says, before rounding: [± m * b^e]. *)
Inductive numeral := NInf (neg : bool) | NNan | NNum (neg : bool) (m b e : Z).

Definition numeral_value (n : numeral) : double :=
  match n with
  | NInf neg => S754_infinity neg
  | NNan => S754_nan
  | NNum neg m b e => scaled neg m b e
  end.

Definition strtod_decimal (neg : bool) (s : bytes) : option numeral :=
  let '(ip, fp, r) := mantissa 10 s in
  match ip ++ fp with
  | [] => None
  | ds => Some (NNum neg (digits_value 10 ds) 10 (exponent "e" r - Z.of_nat (length fp)))
  end.

Definition strtod_hex (neg : bool) (s : bytes) : option numeral :=
  let '(ip, fp, r) := mantissa 16 s in
  match ip ++ fp with
  | [] => None
  | ds => Some (NNum neg (digits_value 16 ds) 2 (exponent "p" r - 4 * Z.of_nat (length fp)))
  end.

(** The longest numeral at the start of [s]; [None] when there is no
    conversion. *)
Definition strtod_numeral (s : bytes) : option numeral :=
  let '(neg, s) := take_sign (skip_space s) in
  if starts_with (B "inf") s then Some (NInf neg)
  else if starts_with (B "nan") s then Some NNan
  else if starts_with (B "0x") s then
    match strtod_hex neg (drop 2 s) with
    | Some x => Some x
    | None => Some (NNum neg 0 10 0)       (* the numeral is the "0" *)
    end
  else strtod_decimal neg s.

Definition strtod (s : bytes) : option double := numeral_value <$> strtod_numeral s.

(** [errno == ERANGE] after the conversion: the rounded value overflows, or is
    subnormal or zero and not the value of the text. *)
Definition erange (n : numeral) : bool :=
  match n with
  | NNum _ m b e =>
      match numeral_value n with
      | S754_infinity _ => true
      | S754_zero _ => negb (m =? 0)
      | S754_finite _ m' e' =>
          (Zpos m' <? 2 ^ 52) &&
          negb (m * b ^ Z.max e 0 * 2 ^ Z.max (- e') 0 =? Zpos m' * 2 ^ Z.max e' 0 * b ^ Z.max (- e) 0)
      | S754_nan => false
      end
  | _ => false
  end.

(** [std::atof(s)] *)
Definition atof (s : bytes) : double := default fzero (strtod (c_str s)).

(** ** Decimal output *)

Definition digit_char (d : Z) : ascii := ascii_of_N (Z.to_N (48 + d)).

(** The last [k] decimal digits of [z]. *)
Fixpoint pad (k : nat) (z : Z) : bytes :=
  match k with
  | O => []
  | S k' => pad k' (z / 10) ++ [digit_char (z mod 10)]
  end.

Fixpoint width_aux (fuel : nat) (z : Z) : nat :=
  match fuel with
  | O => 1
  | S f => if z <? 10 then 1%nat else S (width_aux f (z / 10))
  end.

(** The number of decimal digits of [z >= 0]; an iteration divides by ten. *)
Definition width (z : Z) : nat := width_aux (Z.to_nat z) z.

(** [std::setw(w) << std::setfill('0') << z] *)
Definition show_padded (w : nat) (z : Z) : bytes := pad (Nat.max w (width z)) z.

(** [<< z] *)
Definition show (z : Z) : bytes := show_padded 0 z.

(** [std::to_string] of an integer, also [<< z] of a signed one. *)
Definition to_string (z : Z) : bytes := if z <? 0 then B "-" ++ show (- z) else show z.

(** A number of cents in the format [%.2f]. *)
Definition show_cents (c : Z) : bytes := show (c / 100) ++ B "." ++ pad 2 (c mod 100).

(** A magnitude in hundredths, rounded to nearest, ties to even. *)
Definition hundredths (m : positive) (e : Z) : Z :=
  match e with
  | Zneg e =>
      let n := 100 * Zpos m in let d := 2 ^ Zpos e in
      let q := n / d in let r := n mod d in
      if 2 * r <? d then q else if d <? 2 * r then q + 1 else if Z.even q then q else q + 1
  | _ => 100 * Zpos m * 2 ^ e
  end.

(** [snprintf("%.2f", x)], [std::fixed << std::setprecision(2) << x]. *)
Definition show_fixed2 (x : double) : bytes :=
  match x with
  | S754_finite s m e => (if s then B "-" else []) ++ show_cents (hundredths m e)
  | S754_zero s => (if s then B "-" else []) ++ show_cents 0
  | S754_infinity s => (if s then B "-" else []) ++ B "inf"
  | S754_nan => B "nan"
  end.

(** A newline. *)
Definition NL : bytes := ["010"%char].

Example atof_run : atof (B "150.10|junk") = lit (15010 # 100) /\ atof (B " -2.5e1") = lit (-25) /\
  atof (B "0x1.8p1") = lit 3 /\ atof (B "abc") = fzero /\ atof (B "-inf") = S754_infinity true.
Proof. vm_compute. done. Qed.

Example show_run : show_padded 5 42 = B "00042" /\ show 123456 = B "123456" /\ show 0 = B "0" /\
  show_cents 15007 = B "150.07" /\ show_cents 5 = B "0.05".
Proof. vm_compute. done. Qed.

(** ** Lemmas *)

Lemma digit_cases d : 0 <= d < 10 ->
  d = 0 \/ d = 1 \/ d = 2 \/ d = 3 \/ d = 4 \/ d = 5 \/ d = 6 \/ d = 7 \/ d = 8 \/ d = 9.
Proof. lia. Qed.

Lemma digit_of_char d : 0 <= d < 10 -> digit_of 10 (digit_char d) = Some d.
Proof. intros H. by destruct (digit_cases d H) as [-> | [-> | [-> | [-> | [-> | [-> | [-> | [-> | [-> | ->]]]]]]]]]. Qed.

Lemma char_val_digit d : 0 <= d < 10 -> char_val (digit_char d) = 48 + d.
Proof. intros H. by destruct (digit_cases d H) as [-> | [-> | [-> | [-> | [-> | [-> | [-> | [-> | [-> | ->]]]]]]]]]. Qed.

(** The digits printed by [pad]. *)
Fixpoint pad_digits (k : nat) (z : Z) : list Z :=
  match k with
  | O => []
  | S k' => pad_digits k' (z / 10) ++ [z mod 10]
  end.

Lemma pad_digits_range k : forall z, Forall (fun d => 0 <= d < 10) (pad_digits k z).
Proof.
  induction k as [|k IH]; intros z; cbn [pad_digits]; [constructor|].
  apply Forall_app. split; [done|]. constructor; [apply Z.mod_pos_bound; lia|constructor].
Qed.

Lemma pad_chars k : forall z, pad k z = digit_char <$> pad_digits k z.
Proof.
  induction k as [|k IH]; intros z; cbn [pad pad_digits]; [done|].
  by rewrite fmap_app, IH.
Qed.

Lemma pad_digits_length k z : length (pad_digits k z) = k.
Proof. revert z. induction k as [|k IH]; intros z; cbn; [done|]. rewrite length_app, IH. cbn. lia. Qed.

Lemma pad_length k z : length (pad k z) = k.
Proof. by rewrite pad_chars, length_fmap, pad_digits_length. Qed.

Lemma pad_digits_value k : forall z, 0 <= z -> digits_value 10 (pad_digits k z) = z mod 10 ^ Z.of_nat k.
Proof.
  unfold digits_value. induction k as [|k IH]; intros z Hz; cbn [pad_digits foldl].
  - by rewrite Z.mod_1_r.
  - rewrite foldl_app, IH by lia. cbn [foldl].
    rewrite Nat2Z.inj_succ, Z.pow_succ_r, Z.rem_mul_r by lia. lia.
Qed.

Definition stops (base : Z) (r : bytes) : Prop :=
  match r with [] => True | c :: _ => digit_of base c = None end.

Lemma span_digits_app ds r :
  Forall (fun d => 0 <= d < 10) ds -> stops 10 r ->
  span_digits 10 ((digit_char <$> ds) ++ r) = (ds, r).
Proof.
  intros Hds Hr. induction Hds as [|d ds Hd _ IH]; cbn [fmap list_fmap app span_digits].
  - destruct r as [|c r]; [done|]. cbn in *. by rewrite Hr.
  - by rewrite digit_of_char, IH.
Qed.

Lemma width_aux_spec fuel : forall z, 0 <= z -> z < 10 ^ Z.of_nat (S fuel) ->
  z < 10 ^ Z.of_nat (width_aux fuel z) /\ (1 <= width_aux fuel z)%nat.
Proof.
  induction fuel as [|f IH]; intros z Hz Hlt; cbn [width_aux]; [by split|].
  destruct (Z.ltb_spec z 10); [by split|].
  rewrite (Nat2Z.inj_succ (S f)), Z.pow_succ_r in Hlt by lia.
  destruct (IH (z / 10)) as [H1 H2]; [lia|lia|]. split; [|lia].
  rewrite Nat2Z.inj_succ, Z.pow_succ_r by lia. lia.
Qed.

Lemma pow10_gt z : 0 <= z -> z < 10 ^ z.
Proof. intros. apply Z.pow_gt_lin_r; lia. Qed.

Lemma width_spec z : 0 <= z -> z < 10 ^ Z.of_nat (width z) /\ (1 <= width z)%nat.
Proof.
  intros Hz. apply width_aux_spec; [done|]. rewrite Nat2Z.inj_succ, Z2Nat.id by done.
  rewrite Z.pow_succ_r by lia. pose proof (pow10_gt z Hz). lia.
Qed.

Lemma show_padded_digits w z : 0 <= z -> exists ds, show_padded w z = digit_char <$> ds /\
  Forall (fun d => 0 <= d < 10) ds /\ digits_value 10 ds = z /\ ds <> [].
Proof.
  intros Hz. unfold show_padded. set (k := Nat.max w (width z)).
  destruct (width_spec z Hz) as [H1 H2].
  exists (pad_digits k z). rewrite pad_digits_value by done. split_and!.
  - apply pad_chars.
  - apply pad_digits_range.
  - apply Z.mod_small. split; [done|]. eapply Z.lt_le_trans; [exact H1|].
    apply Z.pow_le_mono_r; [lia|]. lia.
  - intros E. apply (f_equal length) in E. rewrite pad_digits_length in E. cbn in E. lia.
Qed.

Lemma digits_value_app ds ds' :
  digits_value 10 (ds ++ ds') = digits_value 10 ds * 10 ^ Z.of_nat (length ds') + digits_value 10 ds'.
Proof.
  induction ds' as [|d ds' IH] using rev_ind; [rewrite app_nil_r; cbn; lia|].
  unfold digits_value in *. rewrite app_assoc, !(foldl_app _ _ [d]), IH, length_app. cbn [foldl length].
  rewrite Nat2Z.inj_add, Z.pow_add_r by lia. change (10 ^ Z.of_nat 1) with 10. ring.
Qed.

(** A printed integer reads back, whatever follows it. *)
Lemma span_to_string z r : stops 10 r -> exists ds,
  (let '(neg, s) := take_sign (to_string z ++ r) in (neg, span_digits 10 s)) =
    (z <? 0, (ds, r)) /\ digits_value 10 ds = Z.abs z /\ ds <> [].
Proof.
  intros Hr.
  assert (Hpos : forall y, 0 <= y -> exists ds, take_sign (show y ++ r) = (false, show y ++ r) /\
    span_digits 10 (show y ++ r) = (ds, r) /\ digits_value 10 ds = y /\ ds <> []).
  { intros y Hy. destruct (show_padded_digits 0 y Hy) as (ds & E & Hds & Hv & Hne).
    exists ds. unfold show. rewrite E, span_digits_app by done. split_and!; try done.
    destruct ds as [|d ds]; [done|]. apply Forall_cons in Hds as [Hd _].
    cbn [fmap list_fmap app take_sign].
    by destruct (digit_cases d Hd) as [-> | [-> | [-> | [-> | [-> | [-> | [-> | [-> | [-> | ->]]]]]]]]]. }
  unfold to_string. destruct (Z.ltb_spec z 0) as [Hz|Hz].
  - destruct (Hpos (- z) ltac:(lia)) as (ds & _ & H2 & H3 & H4). exists ds.
    change ((B "-" ++ show (- z)) ++ r) with ("-"%char :: (show (- z) ++ r)).
    cbn [take_sign]. rewrite decide_True by done. rewrite H2. split; [done|]. split; [lia|done].
  - destruct (Hpos z Hz) as (ds & H1 & H2 & H3 & H4). exists ds. rewrite H1, H2.
    split; [done|]. split; [lia|done].
Qed.

Lemma digit_neq_nul d : 0 <= d < 10 -> digit_char d <> NUL.
Proof. intros H E. apply (f_equal char_val) in E. rewrite char_val_digit in E by done.
  change (char_val NUL) with 0 in E. lia. Qed.

Lemma digits_no_nul ds : Forall (fun d => 0 <= d < 10) ds -> NUL ∉ digit_char <$> ds.
Proof.
  intros Hds. rewrite list_elem_of_fmap. intros (d & E & Hd).
  rewrite Forall_forall in Hds. by apply (digit_neq_nul d); [apply Hds|].
Qed.

(** A numeral that starts with a digit and whose second byte is a digit or a
    point is decimal. *)
Lemma strtod_digit d s : 0 <= d < 10 ->
  match s with [] => True | c :: _ => lower c <> "x"%char end ->
  strtod_numeral (digit_char d :: s) = strtod_decimal false (digit_char d :: s).
Proof.
  intros Hd Hs. unfold strtod_numeral.
  assert (H0 : skip_space (digit_char d :: s) = digit_char d :: s /\
    take_sign (digit_char d :: s) = (false, digit_char d :: s) /\
    starts_with (B "inf") (digit_char d :: s) = false /\
    starts_with (B "nan") (digit_char d :: s) = false).
  { destruct (digit_cases d Hd) as [-> | [-> | [-> | [-> | [-> | [-> | [-> | [-> | [-> | ->]]]]]]]]];
      by (split_and!; [done|done|..]; apply bool_decide_eq_false; destruct s as [|a [|b s]]). }
  destruct H0 as (-> & -> & -> & ->).
  assert (Hx : starts_with (B "0x") (digit_char d :: s) = false).
  { apply bool_decide_eq_false. destruct s as [|c s]; cbn; [done|].
    intros [= _ E]. done. }
  by rewrite Hx.
Qed.

(** A numeral without a point, or with one before the digits [fs]. *)
Lemma strtod_digits ds fs tail :
  Forall (fun d => 0 <= d < 10) ds -> Forall (fun d => 0 <= d < 10) fs -> ds <> [] ->
  tail = [] /\ fs = [] \/ tail = "."%char :: (digit_char <$> fs) ->
  (NUL ∉ (digit_char <$> ds) ++ tail) /\
  strtod_numeral ((digit_char <$> ds) ++ tail) =
    Some (NNum false (digits_value 10 (ds ++ fs)) 10 (- Z.of_nat (length fs))).
Proof.
  intros Hds Hfs Hne Htail. set (s := (digit_char <$> ds) ++ tail). split.
  { unfold s. rewrite elem_of_app. intros [H|H]; [by apply (digits_no_nul ds)|].
    destruct Htail as [[-> _]| ->]; [by apply elem_of_nil in H|]. apply elem_of_cons in H as [H|H]; [done|].
    by apply (digits_no_nul fs). }
  assert (Hdec : strtod_numeral s = strtod_decimal false s).
  { unfold s. destruct ds as [|d ds]; [done|]. apply Forall_cons in Hds as [Hd Hds].
    cbn [fmap list_fmap app]. apply strtod_digit; [done|].
    destruct ds as [|d' ds]; cbn [fmap list_fmap app]; [by destruct Htail as [[-> _]| ->]|].
    apply Forall_cons in Hds as [Hd' _]. intros E.
    by destruct (digit_cases d' Hd') as [-> | [-> | [-> | [-> | [-> | [-> | [-> | [-> | [-> | ->]]]]]]]]]. }
  rewrite Hdec. unfold strtod_decimal, mantissa, s. rewrite span_digits_app by (done || by destruct Htail as [[-> _]| ->]).
  destruct Htail as [[-> ->]| ->].
  - rewrite app_nil_r. by destruct ds.
  - rewrite decide_True by done. rewrite <- (app_nil_r (digit_char <$> fs)), (span_digits_app fs []) by done.
    destruct (ds ++ fs) as [|x l] eqn:E; [by destruct ds|]. cbn [exponent]. by rewrite Z.sub_0_l.
Qed.
