(* ===== verification/FixParser.v ===== *)
(** * The FIX session reader: fix_session_reader.h, fix_session_reader.cpp

    [parseFixLine] scans a line for [tag=value|] fields; a pointer into the
    line is modelled by the bytes from it to the end.  [start] is the loop
    over the lines of the mapped file; the value of [running_] read before
    each line is a function of the number of lines read so far, since another
    thread may call [stop] at any time. *)

From Stdlib Require Import Ascii QArith_base.
From S2P Require Import Prelude Float64 CString Messages Numerals TickBitset PriceTick.
From S2P Require Import OrderBook.

Local Open Scope Z_scope.

(** ** One line *)

(** [n = min(len, sizeof(dst) - 1); memcpy(dst, val, n); dst\[n\] = 0] *)
Definition copy_field (dst val : bytes) : bytes :=
  let n := Nat.min (length val) (length dst - 1) in
  <[n := NUL]> (memcpy dst val n).

Definition set_id (o : Order) (v : bytes) : Order :=
  mkOrder (copy_field (id o) v) (symbol o) (price o) (order_type o) (quantity o) (arrival_ns o) (next o).

Definition set_symbol (o : Order) (v : bytes) : Order :=
  mkOrder (id o) (copy_field (symbol o) v) (price o) (order_type o) (quantity o) (arrival_ns o) (next o).

Definition set_type (o : Order) (t : OrderType) : Order :=
  mkOrder (id o) (symbol o) (price o) t (quantity o) (arrival_ns o) (next o).

Definition set_price (o : Order) (p : double) : Order :=
  mkOrder (id o) (symbol o) p (order_type o) (quantity o) (arrival_ns o) (next o).

Definition set_arrival (o : Order) (t : Z) : Order :=
  mkOrder (id o) (symbol o) (price o) (order_type o) (quantity o) t (next o).

(** [val_len > 0 && val\[0\] == '1' ? BUY : SELL] *)
Definition parse_side (val : bytes) : OrderType :=
  match val with
  | c :: _ => if decide (c = "1"%char) then BUY else SELL
  | [] => SELL
  end.

(** [char buf\[32\]; memcpy(buf, val, min(val_len, 31)); buf\[n\] = 0; atof(buf)] *)
Definition parse_price (val : bytes) : double := atof (take 31 val).

(** [for (i..) qty = qty * 10 + (val\[i\] - '0')] on [int32_t]; the overflow
    the code does not guard against is taken to wrap around. *)
Definition parse_qty (val : bytes) : Z :=
  foldl (fun q c => wrap_i32 (q * 10 + (char_val c - 48))) 0 val.

(** The [if (tag_len == 2)] chain. *)
Definition apply_field (order : Order) (tag val : bytes) : Order :=
  match tag with
  | [t0; t1] =>
      if decide (t0 = "1"%char /\ t1 = "1"%char) then set_id order val
      else if decide (t0 = "5"%char /\ t1 = "5"%char) then set_symbol order val
      else if decide (t0 = "5"%char /\ t1 = "4"%char) then set_type order (parse_side val)
      else if decide (t0 = "4"%char /\ t1 = "4"%char) then set_price order (parse_price val)
      else if decide (t0 = "3"%char /\ t1 = "8"%char) then set_quantity order (parse_qty val)
      else order
  | _ => order
  end.

(** [while (p < end) { ... }]; every iteration passes an equals sign, so the
    length of the line is enough fuel (see [parse_fields_fuel]). *)
Fixpoint parse_fields (fuel : nat) (p : bytes) (order : Order) : Order :=
  match fuel with
  | O => order
  | S fuel' =>
      match p with
      | [] => order
      | _ =>
          match memchr p "=" with
          | None => order
          | Some eq =>
              let tag := take eq p in
              let rest := drop (S eq) p in
              match memchr rest "|" with
              | None => apply_field order tag rest
              | Some sep =>
                  parse_fields fuel' (drop (S sep) rest) (apply_field order tag (take sep rest))
              end
          end
      end
  end.

Definition parseFixLine (now : Z) (line : bytes) : Order :=
  parse_fields (length line) line (set_arrival Order_zero now).

(** ** The session *)

(** What the operating system makes of the path. *)
Inductive file := OpenFails | StatFails | MapFails | Contents (data : bytes).

Inductive session (St : Type) := Throws (what : bytes) | Returns (s : St).
Arguments Throws {_} _.
Arguments Returns {_} _.

Section Start.
Context {St : Type}.
Variable callback : Order -> St -> St.
Variable now : nat -> Z.          (* the clock, per line *)
Variable running : nat -> bool.   (* running_, as read before each line *)

(** The loop over the lines; [p] is never beyond [end], so [p = line_end + 1]
    past the last byte ends it. *)
Fixpoint read_lines (fuel : nat) (i : nat) (p : bytes) (s : St) : St :=
  match fuel with
  | O => s
  | S fuel' =>
      match p with
      | [] => s
      | _ =>
          if running i then
            let '(line, rest) :=
              match memchr p "010" with
              | Some n => (take n p, drop (S n) p)
              | None => (p, [])
              end in
            let s := if (0 <? length line)%nat then callback (parseFixLine (now i) line) s else s in
            read_lines fuel' (S i) rest s
          else s
      end
  end.

Definition start (f : file) (s : St) : session St :=
  match f with
  | OpenFails => Throws (B "FixSessionReader: cannot open ")
  | StatFails => Throws (B "FixSessionReader: fstat failed")
  | MapFails => Throws (B "FixSessionReader: mmap failed")
  | Contents [] => Returns s
  | Contents data => Returns (read_lines (length data) 0 data s)
  end.
End Start.

(** ** The order simulator (tools/fix_order_simulator.cpp)

    One line of the generated file, without its newline, for the text of the
    price. *)
Definition format_line (i : Z) (sym : bytes) (sd : OrderType) (px : bytes) (qty : Z) : bytes :=
  B "11=ORD" ++ show_padded 5 i ++ B "|35=D" ++ B "|55=" ++ sym ++
  B "|54=" ++ (match sd with BUY => B "1" | SELL => B "2" end) ++
  B "|44=" ++ px ++ B "|38=" ++ show qty.

(** The line for a price of [cents]. *)
Definition format_order (i : Z) (sym : bytes) (sd : OrderType) (cents qty : Z) : bytes :=
  format_line i sym sd (show_cents cents) qty.

Example parse_run : forall now,
  let o := parseFixLine now (B "11=ORD00001|35=D|55=AAPL|54=1|44=150.10|38=50") in
  c_str (id o) = B "ORD00001" /\ c_str (symbol o) = B "AAPL" /\ order_type o = BUY /\
  price o = lit (15010 # 100) /\ quantity o = 50 /\ arrival_ns o = now.
Proof. intros now. vm_compute. done. Qed.

Example format_run :
  format_order 1 (B "TSLA") BUY 19988 30 = B "11=ORD00001|35=D|55=TSLA|54=1|44=199.88|38=30".
Proof. reflexivity. Qed.

(** ** Scanning a line *)

Definition field_bytes (f : bytes * bytes) : bytes := f.1 ++ "="%char :: f.2.

(** The line with the given fields. *)
Fixpoint join (fs : list (bytes * bytes)) : bytes :=
  match fs with
  | [] => []
  | [f] => field_bytes f
  | f :: fs' => field_bytes f ++ "|"%char :: join fs'
  end.

Definition field_ok (f : bytes * bytes) : Prop := ("="%char ∉ f.1) /\ ("|"%char ∉ f.2).

Definition apply_fields (o : Order) (fs : list (bytes * bytes)) : Order :=
  foldl (fun o f => apply_field o f.1 f.2) o fs.

Lemma take_app_exact {A} (l r : list A) n : n = length l -> take n (l ++ r) = l.
Proof. intros ->. by rewrite take_app_le, take_ge by lia. Qed.

Lemma drop_app_exact {A} (l r : list A) n : n = length l -> drop n (l ++ r) = r.
Proof. intros ->. by rewrite drop_app_ge, Nat.sub_diag by lia. Qed.

Lemma drop_app_cons {A} (l r : list A) c n : n = S (length l) -> drop n (l ++ c :: r) = r.
Proof. intros ->. rewrite drop_app_ge by lia. by replace (S (length l) - length l)%nat with 1%nat by lia. Qed.

(** The fuel is irrelevant once it covers the line. *)
Lemma parse_fields_fuel n : forall n' p o,
  (length p <= n)%nat -> (length p <= n')%nat -> parse_fields n p o = parse_fields n' p o.
Proof.
  induction n as [|n IH]; intros [|n'] [|c p] o Hn Hn'; cbn [length] in *; try lia; [done..|].
  cbn [parse_fields]. destruct (memchr (c :: p) "=") as [e|] eqn:E; [|done].
  destruct (memchr _ "|") as [s|]; [|done]. apply IH; rewrite !length_drop; cbn [length]; lia.
Qed.

Lemma parse_fields_join fs : forall n o,
  Forall field_ok fs -> (length (join fs) <= n)%nat ->
  parse_fields n (join fs) o = apply_fields o fs.
Proof.
  induction fs as [|[t v] fs IH]; intros n o Hfs Hn; [by destruct n|].
  apply Forall_cons in Hfs as [[Ht Hv] Hfs]. cbn [fst snd] in *.
  assert (Heq : forall r, memchr (field_bytes (t, v) ++ r) "=" = Some (length t) /\
    take (length t) (field_bytes (t, v) ++ r) = t /\
    drop (S (length t)) (field_bytes (t, v) ++ r) = v ++ r).
  { intros r. unfold field_bytes; cbn [fst snd]. rewrite <- app_assoc. cbn [app].
    split_and!; [by apply memchr_app|by apply take_app_exact|by apply drop_app_cons]. }
  assert (Hcase : join ((t, v) :: fs) = field_bytes (t, v) ++
    (match fs with [] => [] | _ => "|"%char :: join fs end)).
  { destruct fs; cbn [join]; [by rewrite app_nil_r|done]. }
  rewrite Hcase in *. destruct (Heq (match fs with [] => [] | _ => "|"%char :: join fs end)) as (E1 & E2 & E3).
  destruct n as [|n].
  { rewrite length_app in Hn. unfold field_bytes in Hn. rewrite length_app in Hn. cbn in Hn. lia. }
  cbn [parse_fields]. rewrite E1.
  destruct (field_bytes (t, v) ++ _) as [|c p] eqn:Ep; [by destruct t|]. rewrite <- Ep in *.
  cbv zeta. rewrite E2, E3. destruct fs as [|f fs].
  - rewrite app_nil_r, (proj2 (memchr_None _ _) Hv). done.
  - rewrite memchr_app, take_app_exact, drop_app_cons by done. apply (IH n); [done|].
    rewrite length_app in Hn. cbn [length] in Hn. unfold field_bytes in Hn.
    rewrite length_app in Hn. cbn [length] in Hn. lia.
Qed.

(** The parser applies the fields of the line from left to right. *)
Lemma parse_join now fs : Forall field_ok fs ->
  parseFixLine now (join fs) = apply_fields (set_arrival Order_zero now) fs.
Proof. intros H. by apply parse_fields_join. Qed.

(** ** Values *)

Lemma parse_qty_digits ds : Forall (fun d => 0 <= d < 10) ds ->
  parse_qty (digit_char <$> ds) = wrap_i32 (digits_value 10 ds).
Proof.
  intros Hds. unfold parse_qty, digits_value. change 0 with (wrap_i32 0) at 1.
  generalize 0 as q. induction Hds as [|d ds Hd _ IH]; intros q; cbn [fmap list_fmap foldl]; [done|].
  rewrite char_val_digit by done. rewrite <- IH. f_equal.
  replace (48 + d - 48) with d by lia. apply wrap_i32_mul_add.
Qed.

Lemma parse_qty_show z : 0 <= z -> parse_qty (show z) = wrap_i32 z.
Proof.
  intros Hz. destruct (show_padded_digits 0 z Hz) as (ds & E & Hds & <- & _).
  unfold show. by rewrite E, parse_qty_digits.
Qed.

(** [dollars.cents] is read as the double nearest to the number of cents. *)
Lemma atof_decimal ds fs :
  Forall (fun d => 0 <= d < 10) ds -> Forall (fun d => 0 <= d < 10) fs -> ds <> [] ->
  atof ((digit_char <$> ds) ++ "."%char :: (digit_char <$> fs)) =
  scaled false (digits_value 10 (ds ++ fs)) 10 (- Z.of_nat (length fs)).
Proof.
  intros Hds Hfs Hne. destruct (strtod_digits ds fs ("."%char :: (digit_char <$> fs)) Hds Hfs Hne ltac:(by right)) as [Hnul E].
  unfold atof, strtod. by rewrite (c_str_id _ Hnul), E.
Qed.

Lemma scaled_cents c : 0 <= c -> scaled false c 10 (-2) = lit (c # 100).
Proof. intros Hc. unfold scaled. destruct c as [|c|c]; [done| |lia]. reflexivity. Qed.

Lemma show_cents_digits c : 0 <= c -> exists ds, show_cents c = (digit_char <$> ds) ++ "."%char :: (digit_char <$> pad_digits 2 (c mod 100)) /\
  Forall (fun d => 0 <= d < 10) ds /\ digits_value 10 ds = c / 100 /\ ds <> [].
Proof.
  intros Hc. destruct (show_padded_digits 0 (c / 100)) as (ds & E & H); [apply Z.div_pos; lia|].
  exists ds. split; [|done]. unfold show_cents, show. by rewrite E, pad_chars.
Qed.

Lemma width_aux_mono fuel : forall z w, 0 <= z < 10 ^ Z.of_nat w -> (1 <= w)%nat ->
  (width_aux fuel z <= w)%nat.
Proof.
  induction fuel as [|f IH]; intros z w Hz Hw; cbn [width_aux]; [done|].
  destruct (Z.ltb_spec z 10); [done|]. destruct w as [|[|w]]; [lia|cbn in Hz; lia|].
  assert (width_aux f (z / 10) <= S w)%nat; [|lia].
  rewrite Nat2Z.inj_succ, Z.pow_succ_r in Hz by lia.
  apply IH; [|lia]. split; [apply Z.div_pos; lia|]. apply Z.div_lt_upper_bound; lia.
Qed.

Lemma show_cents_length c : 0 <= c < 10 ^ 20 -> (length (show_cents c) <= 31)%nat.
Proof.
  intros Hc. unfold show_cents, show, show_padded. rewrite !length_app, !pad_length. cbn [length Init.Nat.max B].
  assert (width (c / 100) <= 20)%nat; [|cbn; lia].
  apply width_aux_mono; [|lia]. change (Z.of_nat 20) with 20. split; [apply Z.div_pos; lia|].
  apply Z.div_lt_upper_bound; lia.
Qed.

(** The price of the simulator's line is the double nearest to its cents. *)
Lemma parse_price_cents c : 0 <= c < 10 ^ 20 -> parse_price (show_cents c) = lit (c # 100).
Proof.
  intros Hc. unfold parse_price. rewrite take_ge by (by apply show_cents_length).
  destruct (show_cents_digits c ltac:(lia)) as (ds & -> & Hds & Hv & Hne).
  rewrite atof_decimal; [|done|apply pad_digits_range|done].
  rewrite pad_digits_length, digits_value_app, pad_digits_value, pad_digits_length, Hv
    by (apply Z.mod_pos_bound; lia).
  change (10 ^ Z.of_nat 2) with 100. rewrite Z.mod_mod by lia.
  replace (c / 100 * 100 + c mod 100) with c by (rewrite (Z.div_mod c 100) at 1; lia).
  apply scaled_cents; lia.
Qed.

(** A field copied into a zeroed array is [strncpy]. *)
Lemma copy_field_zeros m v : NUL ∉ v -> copy_field (zeros (S m)) v = strncpy (zeros (S m)) v m.
Proof.
  intros Hv. unfold copy_field, memcpy, strncpy. rewrite (c_str_id _ Hv), zeros_length.
  unfold zeros. rewrite !drop_replicate. replace (S m - 1)%nat with m by lia.
  set (n := Nat.min (length v) m).
  assert (Ht : take n v = take m v).
  { unfold n. destruct (decide (length v <= m)%nat).
    - rewrite Nat.min_l by lia. rewrite !take_ge by lia. done.
    - by rewrite Nat.min_r by lia. }
  rewrite Ht. assert (Hl : length (take m v) = n) by (rewrite length_take; unfold n; lia).
  replace (S m - n)%nat with (S (m - n)) by (unfold n; lia). cbn [replicate].
  rewrite insert_app_r_alt by lia. rewrite Hl, Nat.sub_diag. cbn.
  f_equal. rewrite Nat.sub_succ_l, Nat.sub_diag by done. cbn [replicate].
  apply replicate_cons_app.
Qed.

(** ** Well-formed orders *)

(** The char arrays have their sizes and end in NUL, the quantity is an
    [int32_t]. *)
Definition order_ok (o : Order) : Prop :=
  length (id o) = 16%nat /\ last (id o) = Some NUL /\
  length (symbol o) = 8%nat /\ last (symbol o) = Some NUL /\ in_i32 (quantity o).

Lemma copy_field_ok m dst v : length dst = S m -> last dst = Some NUL ->
  length (copy_field dst v) = S m /\ last (copy_field dst v) = Some NUL.
Proof.
  intros Hl Hlast. unfold copy_field. rewrite Hl. set (n := Nat.min (length v) (S m - 1)).
  assert (Hn : (n <= length v)%nat /\ (n <= m)%nat) by (unfold n; lia).
  assert (Hlen : length (memcpy dst v n) = S m) by (rewrite memcpy_length; lia).
  rewrite length_insert. split; [done|]. rewrite last_lookup, length_insert, Hlen. cbn [pred].
  destruct (decide (n = m)) as [->|Hne].
  - apply list_lookup_insert_eq. lia.
  - rewrite list_lookup_insert_ne by done. unfold memcpy.
    rewrite lookup_app_r by (rewrite length_take; lia).
    rewrite length_take, lookup_drop. rewrite last_lookup, Hl in Hlast. cbn [pred] in Hlast.
    by replace (n + (m - n `min` length v))%nat with m by lia.
Qed.

Lemma apply_field_ok o t v : order_ok o -> order_ok (apply_field o t v).
Proof.
  intros (H1 & H2 & H3 & H4 & H5). unfold apply_field.
  destruct t as [|t0 [|t1 [|]]]; try done. repeat case_decide; try done.
  - destruct (copy_field_ok 15 (id o) v H1 H2). by split_and!.
  - destruct (copy_field_ok 7 (symbol o) v H3 H4). by split_and!.
  - split_and!; try done. unfold parse_qty; cbn [quantity set_quantity].
    destruct v as [|c v] using rev_ind; [done|]. rewrite foldl_app. cbn [foldl]. apply wrap_i32_range.
Qed.

Lemma parse_fields_ok n : forall p o, order_ok o -> order_ok (parse_fields n p o).
Proof.
  induction n as [|n IH]; intros p o Ho; cbn [parse_fields]; [done|].
  destruct p as [|c p]; [done|]. destruct (memchr _ _) as [e|]; [|done].
  destruct (memchr _ _); [apply IH|]; by apply apply_field_ok.
Qed.

(** ** Fields commute *)

Lemma apply_field_comm o t v t' v' : t <> t' ->
  apply_field (apply_field o t v) t' v' = apply_field (apply_field o t' v') t v.
Proof.
  intros Hne. unfold apply_field.
  destruct t as [|a [|b [|]]], t' as [|a' [|b' [|]]]; try done;
    repeat case_decide; try done; unpack; subst; done.
Qed.

Lemma apply_fields_permute fs fs' : fs ≡ₚ fs' -> NoDup fs.*1 -> forall o,
  apply_fields o fs = apply_fields o fs'.
Proof.
  unfold apply_fields. induction 1 as [|f l l' Hp IH|f f' l|l1 l2 l3 H1 IH1 H2 IH2];
    intros Hnd o; cbn [foldl fmap list_fmap] in *; [done|..].
  - apply NoDup_cons in Hnd as [_ Hnd]. by apply IH.
  - apply NoDup_cons in Hnd as [Hf _]. rewrite not_elem_of_cons in Hf. destruct Hf as [Hf _].
    by rewrite apply_field_comm by congruence.
  - rewrite IH1 by done. apply IH2. by rewrite <- H1.
Qed.

(** ** Lines of a file *)

(** The bytes of a file with the given lines. *)
Definition file_of (lines : list bytes) : bytes := concat ((fun l => l ++ ["010"%char]) <$> lines).

Definition nonempty (l : bytes) : bool := (0 <? length l)%nat.

(** The callbacks of a session over the given lines. *)
Fixpoint deliver {St} (callback : Order -> St -> St) (now : nat -> Z) (i : nat) (lines : list bytes)
    (s : St) : St :=
  match lines with
  | [] => s
  | l :: ls => deliver callback now (S i) ls (if nonempty l then callback (parseFixLine (now i) l) s else s)
  end.

Lemma read_lines_file {St} (callback : Order -> St -> St) now running lines : forall n i k lst s,
  Forall (fun l : bytes => "010"%char ∉ l) (lst :: lines) ->
  (forall j, (j < k)%nat -> running (i + j)%nat = true) ->
  running (i + k)%nat = false \/ (length (lines ++ [lst]) <= k)%nat ->
  (length (file_of lines ++ lst) <= n)%nat ->
  read_lines callback now running n i (file_of lines ++ lst) s =
  deliver callback now i (take k (lines ++ [lst])) s.
Proof.
  induction lines as [|l lines IH]; intros n i k lst s Hl Hrun Hstop Hn.
  - cbn [file_of fmap list_fmap concat app] in *. destruct lst as [|c lst]; [destruct n, k; by try destruct k|].
    destruct n as [|n]; [cbn in Hn; lia|]. cbn [read_lines]. destruct k as [|k].
    { rewrite Nat.add_0_r in Hstop. destruct Hstop as [->|Hk]; [done|cbn in Hk; lia]. }
    rewrite <- (Nat.add_0_r i), Hrun, Nat.add_0_r by lia.
    apply Forall_cons in Hl as [Hc _]. rewrite (proj2 (memchr_None _ _) Hc). destruct k; by destruct n.
  - apply Forall_cons in Hl as [Hlst [Hc Hl]%Forall_cons].
    assert (E : file_of (l :: lines) ++ lst = l ++ "010"%char :: (file_of lines ++ lst)).
    { unfold file_of. cbn [fmap list_fmap concat]. by rewrite <- !app_assoc. }
    rewrite E in *. rewrite length_app in Hn. cbn [length] in Hn. destruct n as [|n]; [lia|].
    cbn [read_lines]. destruct k as [|k].
    { rewrite Nat.add_0_r in Hstop. destruct Hstop as [->|Hk]; [by destruct l|cbn in Hk; lia]. }
    assert (Hi : running i = true) by (rewrite <- (Nat.add_0_r i); apply Hrun; lia).
    rewrite Hi, memchr_app by done. rewrite take_app_exact, drop_app_cons by done.
    rewrite (IH n (S i) k lst); [|by constructor| | |lia].
    + cbn [app take deliver]. by destruct l.
    + intros j Hj. rewrite Nat.add_succ_l, <- Nat.add_succ_r. apply Hrun. lia.
    + rewrite Nat.add_succ_l, <- Nat.add_succ_r. destruct Hstop as [?|Hk]; [by left|right]. cbn in Hk. lia.
Qed.

(** ** The simulator's line *)

(** A byte that does not occur in a literal. *)
Ltac byte_fresh := apply (bool_decide_unpack _); vm_compute; exact I.

Definition side_bytes (sd : OrderType) : bytes := match sd with BUY => B "1" | SELL => B "2" end.

Definition simulator_fields (i : Z) (sym : bytes) (sd : OrderType) (cents qty : Z) :
    list (bytes * bytes) :=
  [(B "11", B "ORD" ++ show_padded 5 i); (B "35", B "D"); (B "55", sym); (B "54", side_bytes sd);
   (B "44", show_cents cents); (B "38", show qty)].

Lemma format_order_join i sym sd cents qty :
  format_order i sym sd cents qty = join (simulator_fields i sym sd cents qty).
Proof.
  unfold format_order, format_line, simulator_fields, join, field_bytes, side_bytes.
  destruct sd; cbn [fst snd B String.list_ascii_of_string app]; rewrite <- ?app_assoc; done.
Qed.

(** A byte that is not a digit does not occur in a numeral. *)
Lemma not_in_digits c ds : digit_of 10 c = None -> Forall (fun d => 0 <= d < 10) ds ->
  c ∉ digit_char <$> ds.
Proof.
  intros Hc Hds (d & -> & Hd)%list_elem_of_fmap. rewrite Forall_forall in Hds.
  by rewrite digit_of_char in Hc by auto.
Qed.

Lemma not_in_show c w z : 0 <= z -> digit_of 10 c = None -> c ∉ show_padded w z.
Proof.
  intros Hz Hc. destruct (show_padded_digits w z Hz) as (ds & -> & Hds & _).
  by apply not_in_digits.
Qed.

Lemma not_in_app (c : ascii) l l' : c ∉ l -> c ∉ l' -> c ∉ l ++ l'.
Proof. intros H1 H2 [H|H]%elem_of_app; auto. Qed.

Lemma not_in_show_cents c z : 0 <= z -> digit_of 10 c = None -> c ∉ B "." -> c ∉ show_cents z.
Proof.
  intros Hz Hc Hp. unfold show_cents, show.
  apply not_in_app; [apply not_in_show; [apply Z.div_pos; lia|done]|]. apply not_in_app; [done|].
  rewrite pad_chars. apply not_in_digits; [done|apply pad_digits_range].
Qed.

Lemma simulator_fields_ok i sym sd cents qty :
  0 <= i -> 0 <= cents -> 0 <= qty -> "|"%char ∉ sym ->
  Forall field_ok (simulator_fields i sym sd cents qty).
Proof.
  intros Hi Hc Hq Hsym. unfold simulator_fields.
  repeat (apply Forall_cons; split); try constructor; cbn [fst snd]; try byte_fresh; try done.
  - apply not_in_app; [byte_fresh|by apply not_in_show].
  - destruct sd; byte_fresh.
  - apply not_in_show_cents; [lia|done|byte_fresh].
  - by apply not_in_show.
Qed.

(** The tags of the simulator. *)
Lemma apply_field_tags o v :
  apply_field o (B "11") v = set_id o v /\ apply_field o (B "35") v = o /\
  apply_field o (B "55") v = set_symbol o v /\ apply_field o (B "54") v = set_type o (parse_side v) /\
  apply_field o (B "44") v = set_price o (parse_price v) /\
  apply_field o (B "38") v = set_quantity o (parse_qty v).
Proof. repeat split. Qed.

Lemma parse_side_bytes sd : parse_side (side_bytes sd) = sd.
Proof. by destruct sd. Qed.

Lemma apply_simulator_fields now i sym sd cents qty :
  0 <= i -> 0 <= cents < 10 ^ 20 -> 0 <= qty <= INT32_MAX -> NUL ∉ sym ->
  apply_fields (set_arrival Order_zero now) (simulator_fields i sym sd cents qty) =
  mkOrder (strncpy (zeros 16) (B "ORD" ++ show_padded 5 i) 15) (strncpy (zeros 8) sym 7)
    (lit (cents # 100)) sd qty now nullptr.
Proof.
  intros Hi Hc Hq Hnul.
  assert (Hnid : NUL ∉ B "ORD" ++ show_padded 5 i)
    by (apply not_in_app; [byte_fresh|by apply not_in_show]).
  unfold simulator_fields, apply_fields. cbn [foldl fst snd].
  rewrite (proj1 (apply_field_tags _ _)), (proj1 (proj2 (apply_field_tags _ _))).
  destruct (apply_field_tags (set_id (set_arrival Order_zero now) (B "ORD" ++ show_padded 5 i)) sym)
    as (_ & _ & -> & _).
  rewrite (proj1 (proj2 (proj2 (proj2 (apply_field_tags _ (side_bytes sd)))))).
  rewrite (proj1 (proj2 (proj2 (proj2 (proj2 (apply_field_tags _ (show_cents cents))))))).
  rewrite (proj2 (proj2 (proj2 (proj2 (proj2 (apply_field_tags _ (show qty))))))).
  rewrite parse_side_bytes, parse_price_cents, parse_qty_show, wrap_i32_id
    by (done || lia || (unfold in_i32; lia)).
  unfold set_id, set_symbol, set_type, set_price, set_quantity, set_arrival, Order_zero.
  cbn [id symbol price order_type quantity arrival_ns next].
  by rewrite (copy_field_zeros 15), (copy_field_zeros 7).
Qed.

(** The line of the simulator, read back. *)
Lemma parse_format_order now i cents qty sym sd :
  0 <= i -> 0 <= cents < 10 ^ 20 -> 0 <= qty <= INT32_MAX -> NUL ∉ sym -> "|"%char ∉ sym ->
  parseFixLine now (format_order i sym sd cents qty) =
  mkOrder (strncpy (zeros 16) (B "ORD" ++ show_padded 5 i) 15) (strncpy (zeros 8) sym 7)
    (lit (cents # 100)) sd qty now nullptr.
Proof.
  intros. rewrite format_order_join, parse_join by (apply simulator_fields_ok; done || lia).
  by apply apply_simulator_fields.
Qed.

(** A session that is stopped before its turn [k], or gets to the end. *)
Lemma start_stopped {St : Type} (callback : Order -> St -> St) now running lines lst k s :
  Forall (fun l : bytes => "010"%char ∉ l) (lst :: lines) ->
  (forall j, (j < k)%nat -> running j = true) ->
  running k = false \/ (length (lines ++ [lst]) <= k)%nat ->
  start callback now running (Contents (file_of lines ++ lst)) s =
  Returns (deliver callback now 0 (take k (lines ++ [lst])) s).
Proof.
  intros Hl Hrun Hstop. unfold start. destruct (file_of lines ++ lst) as [|c d] eqn:E.
  - apply app_nil in E as [E ->]. destruct lines as [|l lines]; [|unfold file_of in E; cbn in E; by destruct l].
    cbn [app]. by destruct k as [|[|k]].
  - rewrite <- E. f_equal. by apply read_lines_file.
Qed.

(** One that is not stopped. *)
Lemma start_lines {St : Type} (callback : Order -> St -> St) now lines lst s :
  Forall (fun l : bytes => "010"%char ∉ l) (lst :: lines) ->
  start callback now (fun _ => true) (Contents (file_of lines ++ lst)) s =
  Returns (deliver callback now 0 (lines ++ [lst]) s).
Proof.
  intros Hl. rewrite (start_stopped _ _ _ _ _ (length (lines ++ [lst]))) by (done || by right). by rewrite firstn_all.
Qed.

(** The quantity of a line is the value of its digits modulo 2^32, as an
    [int32_t]: exact up to [INT32_MAX], wrapped around above. *)
Lemma quantity_wraps q : 0 <= q -> parse_qty (show q) = wrap_i32 q.
Proof. apply parse_qty_show. Qed.

Example quantity_wraps_run : parse_qty (B "4294967306") = 10.
Proof. reflexivity. Qed.

(** ** Claims *)

(** C23. Round trip with the order simulator: the line written for the order
    number [i], a symbol without separators, a side, a price in cents and a
    quantity is read back as that order — the price as the double nearest to
    the cents, which is on the tick of the cents. *)
Theorem fix_roundtrip (now i cents qty : Z) (sym : bytes) (sd : OrderType) :
  0 <= i -> 0 <= cents < MAX_TICKS -> 0 <= qty <= INT32_MAX ->
  NUL ∉ sym -> "|"%char ∉ sym ->
  let o := parseFixLine now (format_order i sym sd cents qty) in
  o = mkOrder (strncpy (zeros 16) (B "ORD" ++ show_padded 5 i) 15) (strncpy (zeros 8) sym 7)
        (lit (cents # 100)) sd qty now nullptr /\
  priceToTick (price o) = cents.
Proof.
  intros Hi Hc Hq Hnul Hsep o.
  assert (Ho : o = mkOrder (strncpy (zeros 16) (B "ORD" ++ show_padded 5 i) 15)
    (strncpy (zeros 8) sym 7) (lit (cents # 100)) sd qty now nullptr).
  { apply parse_format_order; done || (unfold MAX_TICKS in Hc; lia). }
  split; [exact Ho|]. rewrite Ho. cbn [price].
  by destruct cents as [|c|c]; [|apply priceToTick_decimal_pos; lia|lia].
Qed.

Lemma fix_roundtrip_witness :
  priceToTick (price (parseFixLine 7 (format_order 42 (B "GBPUSD") SELL 125 30))) = 125 /\
  quantity (parseFixLine 7 (format_order 42 (B "GBPUSD") SELL 125 30)) = 30.
Proof.
  assert (H1 : NUL ∉ B "GBPUSD") by byte_fresh.
  assert (H2 : "|"%char ∉ B "GBPUSD") by byte_fresh.
  destruct (fix_roundtrip 7 42 125 30 (B "GBPUSD") SELL ltac:(lia)
    ltac:(unfold MAX_TICKS; lia) ltac:(lia) H1 H2) as [Ho Ht].
  split; [exact Ht|]. rewrite Ho. reflexivity.
Defined.

(** C33. Whatever the bytes of a line, the parser ends and gives an order whose
    identifier and symbol fill their arrays and end in NUL, and whose quantity
    is a 32-bit integer. *)
Theorem parse_well_formed (now : Z) (line : bytes) : order_ok (parseFixLine now line).
Proof. apply parse_fields_ok. by split_and!. Qed.

(** The order of the fields of a line does not matter: two lines with the
    same fields, no tag repeated, are the same order. *)
Theorem field_order_irrelevant (now : Z) (fs fs' : list (bytes * bytes)) :
  Forall field_ok fs -> NoDup fs.*1 -> fs ≡ₚ fs' ->
  parseFixLine now (join fs) = parseFixLine now (join fs').
Proof.
  intros Hok Hnd Hp. rewrite !parse_join by (done || by rewrite <- Hp).
  by apply apply_fields_permute.
Qed.

Lemma field_order_irrelevant_witness :
  parseFixLine 7 (join [(B "55", B "AAPL"); (B "38", B "50")]) =
  parseFixLine 7 (join [(B "38", B "50"); (B "55", B "AAPL")]).
Proof.
  apply (field_order_irrelevant 7 [(B "55", B "AAPL"); (B "38", B "50")]).
  - repeat (apply Forall_cons; split); try constructor; cbn [fst snd]; byte_fresh.
  - apply (bool_decide_unpack _). vm_compute. exact I.
  - apply Permutation_swap.
Defined.

(** C24. A session parses every non-empty line of the file once, in order,
    whether or not the last one ends in a newline, and passes each order to the
    callback, up to the turn [k] at which it finds itself stopped.  It does so
    whatever the line holds: of an execution report (35=8) or of text without
    any field it makes an order with the defaults of the structure. *)
Theorem session_delivers {St : Type} (callback : Order -> St -> St) (now : nat -> Z)
    (running : nat -> bool) (lines : list bytes) (lst : bytes) (k : nat) (s : St) :
  Forall (fun l : bytes => "010"%char ∉ l) (lst :: lines) ->
  (forall j, (j < k)%nat -> running j = true) ->
  running k = false \/ (length (lines ++ [lst]) <= k)%nat ->
  start callback now running (Contents (file_of lines ++ lst)) s =
    Returns (deliver callback now 0 (take k (lines ++ [lst])) s) /\
  start (fun o l => l ++ [o]) now (fun _ => true) (Contents (file_of [B "35=8|150=2"] ++ B "hello")) [] =
    Returns [set_arrival Order_zero (now 0%nat); set_arrival Order_zero (now 1%nat)].
Proof. intros Hl Hrun Hstop. split; [by apply start_stopped|vm_compute; reflexivity]. Qed.

Lemma session_delivers_witness :
  start (fun o (l : list bytes) => l ++ [c_str (symbol o)]) (fun _ => 0) (fun j => (j <? 3)%nat)
    (Contents (file_of [B "55=AAPL|54=1"; []; B "54=2|55=MSFT"] ++ B "55=TSLA")) [] =
  Returns [B "AAPL"; B "MSFT"].
Proof.
  assert (H : Forall (fun l : bytes => "010"%char ∉ l) [B "55=TSLA"; B "55=AAPL|54=1"; []; B "54=2|55=MSFT"])
    by (repeat (apply Forall_cons; split); try constructor; byte_fresh).
  exact (proj1 (session_delivers (fun o (l : list bytes) => l ++ [c_str (symbol o)]) (fun _ => 0) (fun j => (j <? 3)%nat)
    [B "55=AAPL|54=1"; []; B "54=2|55=MSFT"] (B "55=TSLA") 3 [] H
    (fun j Hj => proj2 (Nat.ltb_lt j 3) Hj) (or_introl eq_refl))).
Defined.
