(* ===== verification/PositionManager.v ===== *)
(** * The position manager: position.h, position_manager.cpp

    [apply_fill] is the body of [onExecution] on one position.  It is written
    once over a class of numbers: the code's instance is binary64, and the
    instance of exact rationals is the reading in which the profit-and-loss
    accounting identities hold to the last digit.  On binary64 the quantities,
    being integers, are exact, so every branch is taken as in exact
    arithmetic. *)

From Stdlib Require Import QArith Lqa.
From S2P Require Import Prelude Float64 CString Messages.

Local Open Scope Z_scope.

(** ** Numbers *)

Class Numeric (N : Type) := {
  n_zero : N;
  n_add : N -> N -> N;
  n_sub : N -> N -> N;
  n_mul : N -> N -> N;
  n_div : N -> N -> N;
  n_opp : N -> N;
  n_lt : N -> N -> bool;
  n_le : N -> N -> bool;
  n_eq : N -> N -> bool }.

#[export] Instance double_numeric : Numeric double := {
  n_zero := fzero; n_add := fadd; n_sub := fsub; n_mul := fmul; n_div := fdiv;
  n_opp := fopp; n_lt := flt; n_le := fle; n_eq := feq }.

Definition Qlt_b (a b : Q) : bool := negb (Qle_bool b a).

#[export] Instance exact_numeric : Numeric Q := {
  n_zero := 0%Q; n_add := Qplus; n_sub := Qminus; n_mul := Qmult; n_div := Qdiv;
  n_opp := Qopp; n_lt := Qlt_b; n_le := Qle_bool; n_eq := Qeq_bool }.

(** [std::min(a, b)] *)
Definition n_min {N} `{Numeric N} (a b : N) : N := if n_lt b a then b else a.

(** ** Positions *)

Record Position (N : Type) := mkPosition {
  pos_symbol : bytes;           (* std::string *)
  pos_quantity : N;
  averageEntryPrice : N;
  realisedPnl : N;
  unrealisedPnl : N }.
Arguments mkPosition {_} _ _ _ _ _.
Arguments pos_symbol {_} _.
Arguments pos_quantity {_} _.
Arguments averageEntryPrice {_} _.
Arguments realisedPnl {_} _.
Arguments unrealisedPnl {_} _.

Section Fill.
Context {N : Type} `{Numeric N}.

(** A position default-constructed by [operator\[\]]. *)
Definition Position_zero : Position N := mkPosition [] n_zero n_zero n_zero n_zero.

Definition set_fields (pos : Position N) (qty avg pnl : N) : Position N :=
  mkPosition (pos_symbol pos) qty avg pnl (unrealisedPnl pos).

Definition buy_fill (pos : Position N) (qty px : N) : Position N :=
  let q := pos_quantity pos in
  let avg := averageEntryPrice pos in
  if n_lt q n_zero then
    let coverQty := n_min qty (n_opp q) in
    let pnl := n_add (realisedPnl pos) (n_mul coverQty (n_sub avg px)) in
    let q := n_add q qty in
    set_fields pos q (if n_lt n_zero q then px else avg) pnl
  else
    let newAvg := n_div (n_add (n_mul q avg) (n_mul qty px)) (n_add q qty) in
    set_fields pos (n_add q qty) newAvg (realisedPnl pos).

Definition sell_fill (pos : Position N) (qty px : N) : Position N :=
  let q := pos_quantity pos in
  let avg := averageEntryPrice pos in
  if n_lt n_zero q then
    if n_le q qty then
      let remainder := n_sub qty q in
      let pnl := n_add (realisedPnl pos) (n_mul q (n_sub px avg)) in
      set_fields pos (n_opp remainder) (if n_lt n_zero remainder then px else n_zero) pnl
    else
      let pnl := n_add (realisedPnl pos) (n_mul qty (n_sub px avg)) in
      set_fields pos (n_sub q qty) avg pnl
  else if n_eq q n_zero then
    set_fields pos (n_opp qty) px (realisedPnl pos)
  else
    let existingShort := n_opp q in
    let totalShort := n_add existingShort qty in
    let newAvg := n_div (n_add (n_mul existingShort avg) (n_mul qty px)) totalShort in
    set_fields pos (n_sub q qty) newAvg (realisedPnl pos).

(** The two [if]s on the side of the execution. *)
Definition apply_fill (pos : Position N) (sd : Side) (qty px : N) : Position N :=
  let pos := match sd with Side_BUY => buy_fill pos qty px | Side_SELL => pos end in
  match sd with Side_SELL => sell_fill pos qty px | Side_BUY => pos end.
End Fill.

(** [if (position.symbol.empty()) position.symbol = sym;] *)
Definition name_position {N} (pos : Position N) (sym : bytes) : Position N :=
  match pos_symbol pos with
  | [] => mkPosition sym (pos_quantity pos) (averageEntryPrice pos) (realisedPnl pos) (unrealisedPnl pos)
  | _ => pos
  end.

(** [std::unordered_map<std::string, Position>] *)
Abbreviation positions := (gmap bytes (Position double)).

Definition PositionManager_new : positions := ∅.

Definition onExecution (pm : positions) (exec : Execution) : positions :=
  let sym := c_str (exec_symbol exec) in
  let pos := name_position (default Position_zero (pm !! sym)) sym in
  <[sym := apply_fill pos (side exec) (exec_quantity exec) (trade_price exec)]> pm.

(** [positions_.at(symbol)]: [None] is the exception [std::out_of_range]. *)
Definition getPosition (pm : positions) (symbol : bytes) : option (Position double) := pm !! symbol.

Definition all (pm : positions) : positions := pm.

(** ** Quantities are exact on binary64 *)

(** An execution for [n] units. *)
Definition signed (sd : Side) (n : Z) : Z := match sd with Side_BUY => n | Side_SELL => - n end.

Lemma zero_lt x z : is_int x z -> flt x fzero = (z <? 0).
Proof. intros H. exact (is_int_flt _ _ _ _ H is_int_zero). Qed.

Lemma lt_zero x z : is_int x z -> flt fzero x = (0 <? z).
Proof. intros H. exact (is_int_flt _ _ _ _ is_int_zero H). Qed.

Lemma zero_eq x z : is_int x z -> feq x fzero = (z =? 0).
Proof. intros H. exact (is_int_feq _ _ _ _ H is_int_zero). Qed.

Section Branches.
Variables (pos : Position double) (x px : double) (a n : Z).
Hypothesis Hq : is_int (pos_quantity pos) a.
Hypothesis Hx : is_int x n.
Hypothesis Hn : 0 <= n.
Hypothesis Hbound : Z.abs a + n < 2 ^ 53.

Let Hsum : is_int (pos_quantity pos + x)%D (a + n).
Proof. apply is_int_add; [done|done|lia]. Qed.

Let Hdiff : is_int (pos_quantity pos - x)%D (a - n).
Proof. apply is_int_sub; [done|done|lia]. Qed.

(** The branch the code takes on a buy, decided by the signs of integers. *)
Lemma buy_fill_eq :
  buy_fill pos x px =
  set_fields pos (pos_quantity pos + x)%D
    (if a <? 0 then (if 0 <? a + n then px else averageEntryPrice pos)
     else ((pos_quantity pos * averageEntryPrice pos + x * px) / (pos_quantity pos + x))%D)
    (if a <? 0 then
       (realisedPnl pos + n_min x (- pos_quantity pos)%D * (averageEntryPrice pos - px))%D
     else realisedPnl pos).
Proof.
  unfold buy_fill. cbn [n_lt n_zero double_numeric n_add n_mul n_sub n_div n_opp].
  rewrite (zero_lt _ _ Hq), (lt_zero _ _ Hsum). by destruct (a <? 0).
Qed.

Lemma sell_fill_eq : exists y, is_int y (a - n) /\
  sell_fill pos x px =
  set_fields pos y
    (if 0 <? a then
       (if a <=? n then (if a <? n then px else fzero) else averageEntryPrice pos)
     else if a =? 0 then px
     else ((- pos_quantity pos * averageEntryPrice pos + x * px) / (- pos_quantity pos + x))%D)
    (if 0 <? a then
       (realisedPnl pos + (if (a <=? n)%Z then pos_quantity pos else x) * (px - averageEntryPrice pos))%D
     else realisedPnl pos).
Proof.
  unfold sell_fill.
  cbn [n_lt n_le n_eq n_zero double_numeric n_add n_mul n_sub n_div n_opp].
  rewrite (lt_zero _ _ Hq), (is_int_fle _ _ _ _ Hq Hx), (zero_eq _ _ Hq).
  assert (Hrem : is_int (x - pos_quantity pos)%D (n - a)) by (apply is_int_sub; [done|done|lia]).
  rewrite (lt_zero _ _ Hrem).
  destruct (Z.ltb_spec 0 a); [destruct (Z.leb_spec a n)|destruct (Z.eqb_spec a 0)].
  - eexists; split; [|f_equal].
    + replace (a - n) with (- (n - a)) by lia. by apply is_int_opp.
    + by replace (0 <? n - a) with (a <? n) by (zcases; lia).
  - eexists; split; [exact Hdiff|done].
  - eexists; split; [|done]. replace (a - n) with (- n) by lia. by apply is_int_opp.
  - eexists; split; [exact Hdiff|done].
Qed.

Lemma apply_fill_quantity sd :
  is_int (pos_quantity (apply_fill pos sd x px)) (a + signed sd n).
Proof.
  destruct sd; cbn [apply_fill signed].
  - rewrite buy_fill_eq. exact Hsum.
  - destruct sell_fill_eq as (y & Hy & ->). by rewrite Z.add_opp_r.
Qed.
End Branches.

(** ** Streams of executions *)

Definition exec_key (e : Execution) : bytes := c_str (exec_symbol e).

(** The number of units of an execution (the order book writes an integer). *)
Definition units (e : Execution) : Z := default 0 (trunc (exec_quantity e)).

Definition exec_ok (e : Execution) : Prop := is_int (exec_quantity e) (units e) /\ 0 <= units e.

(** Net and gross units of [sym] over a stream. *)
Fixpoint net_units (sym : bytes) (es : list Execution) : Z :=
  match es with
  | [] => 0
  | e :: r => (if decide (exec_key e = sym) then signed (side e) (units e) else 0) + net_units sym r
  end.

Fixpoint gross_units (es : list Execution) : Z :=
  match es with [] => 0 | e :: r => units e + gross_units r end.

Definition run_executions (pm : positions) (es : list Execution) : positions :=
  foldl onExecution pm es.

(** The quantity of a symbol, 0 for an unknown one. *)
Definition position_of (pm : positions) (sym : bytes) : Position double :=
  default Position_zero (pm !! sym).

(** Naming a position does not change its accounts. *)
Lemma name_fill (p : Position double) sym sd x px :
  apply_fill (name_position p sym) sd x px = name_position (apply_fill p sd x px) sym.
Proof.
  unfold apply_fill, name_position. destruct p as [[|c s] q a r u], sd;
    unfold buy_fill, sell_fill, set_fields; cbn [pos_symbol pos_quantity averageEntryPrice realisedPnl unrealisedPnl];
    repeat case_match; done.
Qed.

Lemma name_quantity (p : Position double) sym : pos_quantity (name_position p sym) = pos_quantity p.
Proof. unfold name_position. by destruct (pos_symbol p). Qed.

Lemma onExecution_eq pm e sym :
  exec_key e = sym ->
  pos_quantity (position_of (onExecution pm e) sym) =
  pos_quantity (apply_fill (position_of pm sym) (side e) (exec_quantity e) (trade_price e)).
Proof.
  intros <-. unfold onExecution, position_of. rewrite lookup_insert_eq.
  cbn [from_option Datatypes.id].
  by rewrite name_fill, name_quantity.
Qed.

Lemma onExecution_ne pm e sym :
  exec_key e <> sym -> position_of (onExecution pm e) sym = position_of pm sym.
Proof. intros H. unfold onExecution, position_of. by rewrite lookup_insert_ne. Qed.

Lemma run_quantity es : forall pm sym a g,
  is_int (pos_quantity (position_of pm sym)) a -> Z.abs a <= g ->
  Forall exec_ok es -> g + gross_units es < 2 ^ 53 ->
  is_int (pos_quantity (position_of (run_executions pm es) sym)) (a + net_units sym es).
Proof.
  induction es as [|e es IH]; intros pm sym a g Ha Hg Hes Hb; cbn [net_units run_executions foldl].
  { by rewrite Z.add_0_r. }
  apply Forall_cons in Hes as [[He Hu] Hes]. cbn [gross_units] in Hb.
  assert (Hgr : 0 <= gross_units es).
  { clear -Hes. induction Hes as [|e es [_ ?] _ IH]; cbn [gross_units]; lia. }
  rewrite Z.add_assoc. destruct (decide (exec_key e = sym)) as [Hk|Hk].
  - apply (IH _ _ _ (g + units e)); [|destruct (side e); cbn; lia|done|lia].
    rewrite (onExecution_eq _ _ _ Hk). apply apply_fill_quantity; done || lia.
  - rewrite Z.add_0_r. apply (IH _ _ _ g); [|done|done|lia]. by rewrite onExecution_ne.
Qed.

(** ** The accounting identity in exact arithmetic *)

Record fill := mkFill { fill_side : Side; fill_qty : Q; fill_px : Q }.

Definition apply_fills (pos : Position Q) (fs : list fill) : Position Q :=
  foldl (fun pos f => apply_fill pos (fill_side f) (fill_qty f) (fill_px f)) pos fs.

(** What the fills paid out. *)
Definition cash_flow (f : fill) : Q :=
  match fill_side f with
  | Side_BUY => (- (fill_qty f * fill_px f))%Q
  | Side_SELL => (fill_qty f * fill_px f)%Q
  end.

Definition cash (fs : list fill) : Q := foldr (fun f c => cash_flow f + c)%Q 0%Q fs.

(** The unrealised profit at the price [m], as the risk report computes it. *)
Definition unrealised_at (pos : Position Q) (m : Q) : Q :=
  ((m - averageEntryPrice pos) * pos_quantity pos)%Q.

Definition balanced (pos : Position Q) (c : Q) : Prop :=
  (realisedPnl pos == c + pos_quantity pos * averageEntryPrice pos)%Q.

Lemma Qlt_b_spec a b : reflect (a < b)%Q (Qlt_b a b).
Proof.
  unfold Qlt_b. destruct (Qle_bool b a) eqn:E; constructor.
  - apply Qle_bool_iff in E. lra.
  - apply Qnot_le_lt. rewrite <- Qle_bool_iff. congruence.
Qed.

Lemma Qle_b_spec a b : reflect (a <= b)%Q (Qle_bool a b).
Proof. apply iff_reflect. symmetry. apply Qle_bool_iff. Qed.

Lemma Qeq_b_spec a b : reflect (a == b)%Q (Qeq_bool a b).
Proof. apply iff_reflect. symmetry. apply Qeq_bool_iff. Qed.

(** The quantity-weighted average times the total quantity. *)
Lemma average_times (x y t : Q) : (0 < t)%Q -> (t * ((x + y) / t) == x + y)%Q.
Proof. intros Ht. apply Qmult_div_r. lra. Qed.

Lemma buy_fill_balanced pos c qty px :
  (0 < qty)%Q -> balanced pos c -> balanced (buy_fill pos qty px) (c - qty * px).
Proof.
  unfold balanced, buy_fill. intros Hq Hb.
  cbn [n_lt n_min n_add n_mul n_sub n_div n_opp n_zero exact_numeric].
  destruct (Qlt_b_spec (pos_quantity pos) 0);
    cbn [set_fields realisedPnl pos_quantity averageEntryPrice].
  - unfold n_min. cbn [n_lt exact_numeric].
    destruct (Qlt_b_spec (- pos_quantity pos) qty), (Qlt_b_spec 0 (pos_quantity pos + qty));
      try lra; rewrite Hb; ring.
  - rewrite average_times by lra. rewrite Hb. ring.
Qed.

Lemma sell_fill_balanced pos c qty px :
  (0 < qty)%Q -> balanced pos c -> balanced (sell_fill pos qty px) (c + qty * px).
Proof.
  unfold balanced, sell_fill. intros Hq Hb.
  cbn [n_lt n_le n_eq n_add n_mul n_sub n_div n_opp n_zero exact_numeric].
  destruct (Qlt_b_spec 0 (pos_quantity pos)); [destruct (Qle_b_spec (pos_quantity pos) qty)|
    destruct (Qeq_b_spec (pos_quantity pos) 0) as [E|]];
    cbn [set_fields realisedPnl pos_quantity averageEntryPrice].
  - destruct (Qlt_b_spec 0 (qty - pos_quantity pos)).
    + rewrite Hb. ring.
    + assert (E : (pos_quantity pos == qty)%Q) by lra. rewrite Hb, E. ring.
  - rewrite Hb. ring.
  - rewrite Hb, E. ring.
  - assert (Ht : (0 < - pos_quantity pos + qty)%Q) by lra.
    pose proof (average_times (- pos_quantity pos * averageEntryPrice pos) (qty * px) _ Ht) as Ha.
    rewrite Hb. set (avg := (_ / _)%Q) in *. lra.
Qed.

Lemma apply_fills_balanced fs : forall pos c,
  Forall (fun f => (0 < fill_qty f)%Q) fs -> balanced pos c ->
  balanced (apply_fills pos fs) (c + cash fs).
Proof.
  induction fs as [|[sd qty px] fs IH]; intros pos c Hfs Hb; cbn [apply_fills foldl cash foldr].
  { unfold balanced in *. rewrite Hb. ring. }
  apply Forall_cons in Hfs as [Hq Hfs]. cbn [fill_qty fill_side fill_px cash_flow] in *.
  assert (Hstep : balanced (apply_fill pos sd qty px)
    (c + cash_flow (mkFill sd qty px))).
  { destruct sd; cbn [apply_fill cash_flow fill_side fill_qty fill_px].
    - by apply buy_fill_balanced.
    - by apply sell_fill_balanced. }
  specialize (IH _ _ Hfs Hstep). unfold balanced, apply_fills, cash in *. rewrite IH. ring.
Qed.

(** ** Claims *)

(** The quantity of every position is exact: over any stream of
    executions for whole non-negative numbers of units, less than 2^53 in
    total, the binary64 quantity of each symbol is the integer bought minus
    sold, with no rounding. *)
Theorem position_quantity_exact (es : list Execution) (sym : bytes) :
  Forall exec_ok es -> gross_units es < 2 ^ 53 ->
  is_int (pos_quantity (position_of (run_executions PositionManager_new es) sym)) (net_units sym es).
Proof.
  intros Hes Hb. apply (run_quantity es PositionManager_new sym 0 0); [|lia|done|lia].
  exact is_int_zero.
Qed.

Definition example_exec (sym : bytes) (sd : Side) (n : Z) (px : Q) : Execution :=
  mkExecution (zeros 16) (zeros 16) (strncpy (zeros 8) sym 7) (lit px) (of_int n) sd 0 0.

Definition example_stream : list Execution :=
  [example_exec (B "AAPL") Side_BUY 100 150; example_exec (B "MSFT") Side_SELL 30 300;
   example_exec (B "AAPL") Side_SELL 130 151; example_exec (B "AAPL") Side_BUY 10 149].

Lemma example_exec_ok sym sd n px : 0 <= n < 2 ^ 53 -> exec_ok (example_exec sym sd n px).
Proof.
  intros Hn. assert (Hu : units (example_exec sym sd n px) = n).
  { unfold units; cbn [exec_quantity example_exec]. rewrite trunc_of_int by lia. done. }
  unfold exec_ok. rewrite Hu. split; [|lia]. apply is_int_of_int. lia.
Qed.

Lemma position_quantity_exact_witness :
  is_int (pos_quantity (position_of (run_executions PositionManager_new example_stream) (B "AAPL"))) (-20).
Proof.
  assert (H : Forall exec_ok example_stream)
    by (unfold example_stream; repeat (constructor; [apply example_exec_ok; lia|]); constructor).
  exact (position_quantity_exact example_stream (B "AAPL") H eq_refl).
Defined.

(** The phase of a position, as the header of position_manager.h names it. *)
Inductive Phase := Flat | Long | Short.

Definition phase (pos : Position double) : Phase :=
  if flt fzero (pos_quantity pos) then Long
  else if flt (pos_quantity pos) fzero then Short else Flat.

Definition phase_of (z : Z) : Phase := if 0 <? z then Long else if z <? 0 then Short else Flat.

Lemma phase_is_int pos z : is_int (pos_quantity pos) z -> phase pos = phase_of z.
Proof. intros H. unfold phase. by rewrite (lt_zero _ _ H), (zero_lt _ _ H). Qed.

(** [closing a sd]: a fill on side [sd] works against a position of [a]. *)
Definition closing (a : Z) (sd : Side) : bool :=
  match sd with Side_BUY => a <? 0 | Side_SELL => 0 <? a end.

(** C29. The state machine of a position.  A fill of [n > 0] units on a
    position of [a] units moves it to the phase of [a + n] or [a - n].  A fill
    against the position realises the smaller quantity times the price
    difference; it keeps the average price on a partial close, takes the fill
    price on a flip (and on a full close keeps it for a short, clears it for a
    long).  Any other fill leaves the realised profit unchanged and makes the
    average price the one weighted by quantities, the units held and the units
    filled over their sum (the fill price itself where a short is opened). *)
Theorem fill_transition (pos : Position double) (sd : Side) (x px : double) (a n : Z) :
  is_int (pos_quantity pos) a -> is_int x n -> 0 < n -> Z.abs a + n < 2 ^ 53 ->
  let pos' := apply_fill pos sd x px in
  phase pos = phase_of a /\ phase pos' = phase_of (a + signed sd n) /\
  if closing a sd then
    exists closed, is_int closed (Z.min n (Z.abs a)) /\
      realisedPnl pos' = (realisedPnl pos + closed *
        match sd with Side_BUY => averageEntryPrice pos - px | Side_SELL => px - averageEntryPrice pos end)%D /\
      averageEntryPrice pos' =
        (if n <? Z.abs a then averageEntryPrice pos
         else if n =? Z.abs a then match sd with Side_BUY => averageEntryPrice pos | Side_SELL => fzero end
         else px)
  else
    realisedPnl pos' = realisedPnl pos /\
    exists held total, is_int held (Z.abs a) /\ is_int total (Z.abs a + n) /\
      averageEntryPrice pos' =
        match sd, decide (a = 0) with
        | Side_SELL, left _ => px
        | _, _ => ((held * averageEntryPrice pos + x * px) / total)%D
        end.
Proof.
  intros Hq Hx Hn Hb pos'.
  pose proof (apply_fill_quantity pos x px a n Hq Hx ltac:(lia) Hb sd) as Hq'.
  split; [by apply phase_is_int|]. split; [by apply phase_is_int|].
  unfold pos'. destruct sd; cbn [closing apply_fill].
  - rewrite (buy_fill_eq pos x px a n Hq Hx ltac:(lia) Hb).
    destruct (Z.ltb_spec a 0); cbn [set_fields realisedPnl averageEntryPrice].
    + exists (fmin x (- pos_quantity pos)%D). split_and!; [|done|by zcases; first [done|exfalso; lia]].
      replace (Z.abs a) with (- a) by lia. by apply is_int_fmin, is_int_opp.
    + split; [done|]. exists (pos_quantity pos), (pos_quantity pos + x)%D.
      rewrite Z.abs_eq by lia. split_and!; [done|apply is_int_add; done || lia|done].
  - destruct (sell_fill_eq pos x px a n Hq Hx ltac:(lia) Hb) as (y & Hy & ->).
    destruct (Z.ltb_spec 0 a); cbn [set_fields realisedPnl averageEntryPrice].
    + exists (if a <=? n then pos_quantity pos else x). split_and!; [|done|by zcases; first [done|exfalso; lia]].
      rewrite Z.abs_eq by lia. destruct (Z.leb_spec a n);
        [rewrite Z.min_r by lia|rewrite Z.min_l by lia]; done.
    + pose proof (is_int_opp _ _ Hq) as Ho. split; [done|].
      exists (- pos_quantity pos)%D, (- pos_quantity pos + x)%D. rewrite Z.abs_neq by lia.
      split_and!; [done|apply is_int_add; done || lia|]. case_decide; zcases; done || lia.
Qed.

Lemma fill_transition_witness :
  let pos := mkPosition (B "AAPL") (of_int 100) (lit 150) fzero fzero in
  phase (apply_fill pos Side_SELL (of_int 130) (lit 151)) = Short /\
  averageEntryPrice (apply_fill pos Side_SELL (of_int 130) (lit 151)) = lit 151 /\
  exists held total, is_int held 100 /\ is_int total 150 /\
    averageEntryPrice (apply_fill pos Side_BUY (of_int 50) (lit 153)) =
      ((held * lit 150 + of_int 50 * lit 153) / total)%D.
Proof.
  destruct (fill_transition (mkPosition (B "AAPL") (of_int 100) (lit 150) fzero fzero) Side_SELL
    (of_int 130) (lit 151) 100 130 (is_int_of_int 100 eq_refl) (is_int_of_int 130 eq_refl)
    eq_refl eq_refl) as (_ & H & closed & _ & _ & Havg).
  destruct (fill_transition (mkPosition (B "AAPL") (of_int 100) (lit 150) fzero fzero) Side_BUY
    (of_int 50) (lit 153) 100 50 (is_int_of_int 100 eq_refl) (is_int_of_int 50 eq_refl)
    eq_refl eq_refl) as (_ & _ & _ & Hext).
  split; [exact H|]. split; [exact Havg|exact Hext].
Defined.

(** C31. The accounting identity, in exact arithmetic: after any fills of
    positive quantities, realised plus unrealised profit at any price [m] is
    the cash the fills paid plus the position valued at [m]. *)
Theorem pnl_identity (fs : list fill) (m : Q) :
  Forall (fun f => (0 < fill_qty f)%Q) fs ->
  let pos := apply_fills Position_zero fs in
  (realisedPnl pos + unrealised_at pos m == cash fs + pos_quantity pos * m)%Q.
Proof.
  intros Hfs pos. assert (H0 : balanced (@Position_zero Q _) 0) by reflexivity.
  pose proof (apply_fills_balanced fs Position_zero 0%Q Hfs H0) as H. fold pos in H.
  unfold balanced, unrealised_at in *. rewrite H. ring.
Qed.

Lemma pnl_identity_witness :
  let fs := [mkFill Side_BUY 100 150; mkFill Side_SELL 130 151; mkFill Side_BUY 10 149] in
  Forall (fun f => (0 < fill_qty f)%Q) fs /\
  (realisedPnl (apply_fills Position_zero fs) + unrealised_at (apply_fills Position_zero fs) 152
   == cash fs + pos_quantity (apply_fills Position_zero fs) * 152)%Q.
Proof.
  assert (H : Forall (fun f => (0 < fill_qty f)%Q)
    [mkFill Side_BUY 100 150; mkFill Side_SELL 130 151; mkFill Side_BUY 10 149])
    by (repeat constructor).
  split; [exact H|exact (pnl_identity _ 152 H)].
Defined.

Lemma buy_nan pos x px z : is_int (pos_quantity pos) z -> 0 <= z ->
  averageEntryPrice pos = S754_nan -> averageEntryPrice (buy_fill pos x px) = S754_nan.
Proof.
  intros Hq Hz Ha. unfold buy_fill. cbn [n_lt n_zero double_numeric].
  rewrite (zero_lt _ _ Hq), (proj2 (Z.ltb_ge _ _) Hz).
  cbn [set_fields averageEntryPrice n_mul n_add n_div]. rewrite Ha.
  by destruct (pos_quantity pos) as [|[]| |].
Qed.

(** Buys of whole quantities, one after the other. *)
Definition buys (pos : Position double) (fs : list (Z * double)) : Position double :=
  foldl (fun pos f => apply_fill pos Side_BUY (of_int f.1) f.2) pos fs.

Lemma buys_nan fs : forall pos z,
  is_int (pos_quantity pos) z -> 0 <= z -> averageEntryPrice pos = S754_nan ->
  Forall (fun f : Z * double => 0 <= f.1) fs -> z + foldr (fun f s => f.1 + s) 0 fs < 2 ^ 53 ->
  averageEntryPrice (buys pos fs) = S754_nan.
Proof.
  induction fs as [|[n px] fs IH]; intros pos z Hq Hz Ha Hfs Hb; [done|].
  apply Forall_cons in Hfs as [Hn Hfs]. cbn [fst foldr] in *.
  assert (0 <= foldr (fun (f : Z * double) s => f.1 + s) 0 fs).
  { clear -Hfs. induction Hfs as [|f fs ? _ IH]; cbn [foldr]; lia. }
  assert (Hx : is_int (of_int n) n) by (apply is_int_of_int; lia).
  apply (IH _ (z + n)); [|lia| |done|lia]; cbn [fst snd].
  - apply (apply_fill_quantity pos (of_int n) px z n Hq Hx Hn ltac:(lia) Side_BUY).
  - by apply (buy_nan _ _ _ z).
Qed.

(** A buy of quantity zero at a finite price on a flat position divides
    zero by zero: the average entry price becomes NaN, and stays NaN through
    every further buy. *)
Theorem zero_quantity_poisons (s : bool) (m : positive) (e : Z) (fs : list (Z * double)) :
  Forall (fun f : Z * double => 0 <= f.1) fs -> foldr (fun f s => f.1 + s) 0 fs < 2 ^ 53 ->
  averageEntryPrice (buys Position_zero ((0, S754_finite s m e) :: fs)) = S754_nan.
Proof.
  intros Hfs Hb. change (buys Position_zero ((0, S754_finite s m e) :: fs))
    with (buys (apply_fill Position_zero Side_BUY fzero (S754_finite s m e)) fs).
  apply (buys_nan _ _ 0); [|lia|by destruct s|done|lia]. by destruct s; left; split; eauto.
Qed.

Lemma zero_quantity_poisons_witness :
  averageEntryPrice (buys Position_zero [(0, lit 150); (100, lit 151)]) = S754_nan.
Proof.
  assert (H : Forall (fun f : Z * double => 0 <= f.1) [(100, lit 151)])
    by (constructor; [cbn; lia|constructor]).
  exact (zero_quantity_poisons false 5277655813324800 (-45) [(100, lit 151)] H eq_refl).
Defined.
