(* ===== verification/PositionAccuracy.v ===== *)
(** * How accurate the average entry price is

    The position manager run on binary64 beside its run on exact rationals:
    the quantities agree, and the average entry prices differ by the rounding
    of at most three operations for each fill of the symbol.  The two runs are
    [onExecution] and [apply_fills] of [PositionManager], the one body of the
    code at its two instances. *)

From Stdlib Require Import QArith Qabs Lqa.
From S2P Require Import Prelude Float64 Float64Accuracy Messages PositionManager.

Local Open Scope Z_scope.

(** An execution as a fill of exact arithmetic, and the fills of one symbol. *)
Definition exact_of (e : Execution) : fill := mkFill (side e) (inject_Z (units e)) (valQ (trade_price e)).

Definition fills_of (sym : bytes) (es : list Execution) : list fill :=
  exact_of <$> filter (fun e => exec_key e = sym) es.

(** Prices far from the ends of the exponent range. *)
Definition moderate (v : Q) : Prop := (bpow (-100) <= v < bpow 100)%Q.

Definition priced (x : double) : Prop := exists e, normal x e /\ moderate (valQ x).

Definition trade_ok (e : Execution) : Prop := exec_ok e /\ 0 < units e /\ priced (trade_price e).

(** [x] is [v] up to [n] roundings, and both are moderate. *)
Definition tracks (n : nat) (x : double) (v : Q) : Prop :=
  (exists e, normal x e) /\ moderate v /\ within n x v.

Lemma moderate_pos v : moderate v -> (0 < v)%Q.
Proof. intros [H _]. pose proof (bpow_pos (-100)). lra. Qed.

Lemma priced_tracks x : priced x -> tracks 0 x (valQ x).
Proof. intros (e & Hn & Hm). split; [by eexists|]. split; [done|]. by apply within_exact. Qed.

Lemma tracks_mono n m x v : (n <= m)%nat -> tracks n x v -> tracks m x v.
Proof.
  intros H ([e Hn] & Hm & Hw). split; [by eexists|]. split; [done|].
  pose proof (normal_valQ x e Hn). apply (within_mono n); [done| |lra|done]. by apply Qlt_le_weak, moderate_pos.
Qed.

#[export] Instance tracks_proper n x : Proper (Qeq ==> iff) (tracks n x).
Proof. intros v w E. unfold tracks, moderate. by rewrite E. Qed.

Lemma tracks_normal n x v : Z.of_nat n <= 2 ^ 50 -> tracks n x v -> exists e, normal x e /\ -153 <= e < 49.
Proof. intros Hn ([e He] & Hm & Hw). exists e. split; [done|]. exact (within_exponent n x e v (-100) 100 He Hn Hw Hm). Qed.

(** ** One weighted average *)

Lemma mean_between (a n v w l h : Q) : (0 < a)%Q -> (0 < n)%Q -> (l <= v < h)%Q -> (l <= w < h)%Q ->
  (l <= (a * v + n * w) / (a + n) < h)%Q.
Proof.
  intros Ha Hn Hv Hw. split; [apply Qle_shift_div_l|apply Qlt_shift_div_r]; try lra; nra.
Qed.

Lemma of_int_units n : 0 < n < 2 ^ 53 ->
  exists e, normal (of_int n) e /\ -53 <= e < 2 /\ within 0 (of_int n) (inject_Z n) /\ (0 < inject_Z n)%Q.
Proof.
  intros Hn. destruct (of_int_normal n Hn) as [H Hv]. eexists. split; [exact H|].
  assert (Hw : within 0 (of_int n) (inject_Z n)) by (apply within_exact; by rewrite Hv).
  split; [|split; [done|apply inject_pos; lia]].
  apply (within_exponent 0 _ _ (inject_Z n) 0 53 H); [done|done|]. apply inject_Z_bpow; lia.
Qed.

Lemma times_width a v : 0 < a < 2 ^ 53 -> moderate v -> (bpow (-100) <= inject_Z a * v < bpow 153)%Q.
Proof.
  intros Ha [V1 V2]. destruct (inject_Z_bpow a 0 53) as [A1 A2]; [lia..|]. pose proof (bpow_pos (-100)) as Hp.
  change (bpow 0) with 1%Q in A1. change 153 with (53 + 100). rewrite bpow_plus. split; nra.
Qed.

Lemma fmul_units a x v k : 0 < a < 2 ^ 53 -> Z.of_nat k <= 2 ^ 49 -> tracks k x v ->
  exists e, normal (of_int a * x)%D e /\ -153 <= e < 102 /\ within (S k) (of_int a * x)%D (inject_Z a * v) /\
    (bpow (-100) <= inject_Z a * v < bpow 153)%Q.
Proof.
  intros Ha Hk Hv. destruct (of_int_units a Ha) as (ea & Na & Ea & Wa & Pa).
  destruct (tracks_normal k x v ltac:(lia) Hv) as (ev & Nv & Ev). destruct Hv as (_ & Mv & Wv).
  destruct (fmul_within 0 k _ _ ea ev _ v Na Nv ltac:(lia) Pa (moderate_pos v Mv) Wa Wv) as (e & N & W).
  pose proof (times_width a v Ha Mv) as Hr. pose proof (within_exponent (S (0 + k)) _ _ (inject_Z a * v) (-100) 153 N ltac:(lia) W Hr).
  exists e. split; [done|]. split; [lia|]. by split.
Qed.

Lemma mean_tracks k a n avg px v w : Z.of_nat k <= 2 ^ 49 -> 0 < a -> 0 < n -> a + n < 2 ^ 53 ->
  tracks k avg v -> tracks 0 px w ->
  tracks (3 + k) ((of_int a * avg + of_int n * px) / of_int (a + n))%D
    ((inject_Z a * v + inject_Z n * w) / inject_Z (a + n)).
Proof.
  intros Hk Ha Hn Hb Hv Hw. destruct (fmul_units a avg v k) as (e1 & N1 & E1 & W1 & R1); [lia..|done|].
  destruct (fmul_units n px w 0) as (e2 & N2 & E2 & W2 & R2); [lia..|done|].
  destruct (of_int_units (a + n)) as (ed & Nd & Ed & Wd & Pd); [lia|].
  pose proof (bpow_pos (-100)). destruct (fadd_within (S k) 1 _ _ e1 e2 (inject_Z a * v) (inject_Z n * w) N1 N2 ltac:(lia) ltac:(lia)
    ltac:(lra) ltac:(lra) W1 W2) as (e3 & N3 & W3).
  assert (R3 : (bpow (-100) <= inject_Z a * v + inject_Z n * w < bpow 154)%Q).
  { split; [lra|]. change 154 with (153 + 1). rewrite bpow_plus. change (bpow 1) with 2%Q. lra. }
  pose proof (within_exponent (S (Nat.max (S k) 1)) _ _ (inject_Z a * v + inject_Z n * w) (-100) 154 N3 ltac:(lia) W3 R3) as E3.
  destruct (fdiv_within (S (Nat.max (S k) 1)) 0 _ _ e3 ed (inject_Z a * v + inject_Z n * w) (inject_Z (a + n)) N3 Nd ltac:(lia) ltac:(lra) Pd W3 Wd) as (e4 & N4 & W4).
  assert (M4 : moderate ((inject_Z a * v + inject_Z n * w) / inject_Z (a + n))).
  { unfold moderate. rewrite inject_Z_plus. apply mean_between; [by apply inject_pos..|apply Hv|apply Hw]. }
  split; [by eexists|]. split; [done|].
  apply (within_mono (S (S (Nat.max (S k) 1) + 0))); [lia|by apply Qlt_le_weak, moderate_pos| |done].
  pose proof (normal_valQ _ _ N4). lra.
Qed.

(** From a flat position the old average is multiplied by zero. *)
Definition unset (x : double) : Prop := (exists s, x = S754_zero s) \/ exists e, normal x e.

Lemma first_tracks n avg px z s w : 0 < n < 2 ^ 53 -> unset avg -> z = S754_zero s -> tracks 0 px w ->
  tracks 3 ((z * avg + of_int n * px) / of_int n)%D w.
Proof.
  intros Hn Ha -> Hw. destruct (fmul_units n px w 0) as (e1 & N1 & E1 & W1 & R1); [lia..|done|].
  assert (Hz : (S754_zero s * avg + of_int n * px = of_int n * px)%D).
  { destruct N1 as (p & -> & _). destruct Ha as [[s' ->]|(e & q & -> & _)]; done. }
  rewrite Hz. destruct (of_int_units n Hn) as (ed & Nd & Ed & Wd & Pd). pose proof (bpow_pos (-100)).
  destruct (fdiv_within 1 0 _ _ e1 ed (inject_Z n * w) (inject_Z n) N1 Nd ltac:(lia) ltac:(lra) Pd W1 Wd) as (e4 & N4 & W4).
  destruct Hw as (_ & Mw & _). pose proof (normal_valQ _ _ N4).
  split; [by eexists|]. split; [done|]. assert (E : (inject_Z n * w / inject_Z n == w)%Q) by (field; lra).
  rewrite E in W4. apply (within_mono 2); [lia|by apply Qlt_le_weak, moderate_pos|lra|done].
Qed.

(** ** The exact run, by the signs of integers *)

Lemma Qlt_b_int a b x y : (x == inject_Z a)%Q -> (y == inject_Z b)%Q -> Qlt_b x y = (a <? b).
Proof.
  intros Hx Hy. apply eq_true_iff_eq. rewrite Z.ltb_lt. destruct (Qlt_b_spec x y) as [H|H];
    rewrite Hx, Hy, <- Zlt_Qlt in H; split; done.
Qed.

Lemma Qle_b_int a b x y : (x == inject_Z a)%Q -> (y == inject_Z b)%Q -> Qle_bool x y = (a <=? b).
Proof.
  intros Hx Hy. apply eq_true_iff_eq. rewrite Z.leb_le. destruct (Qle_b_spec x y) as [H|H];
    rewrite Hx, Hy, <- Zle_Qle in H; split; done.
Qed.

Lemma Qeq_b_int a x : (x == inject_Z a)%Q -> Qeq_bool x 0 = (a =? 0).
Proof.
  intros Hx. apply eq_true_iff_eq. rewrite Z.eqb_eq, Qeq_bool_iff, Hx. change 0%Q with (inject_Z 0).
  split; [by apply inject_Z_injective|by intros ->].
Qed.

Section Exact.
Variables (pos : Position Q) (w : Q) (a n : Z).
Hypothesis Hq : (pos_quantity pos == inject_Z a)%Q.

Lemma exact_buy : (pos_quantity (buy_fill pos (inject_Z n) w) == inject_Z (a + n))%Q /\
  (averageEntryPrice (buy_fill pos (inject_Z n) w) ==
   if (a <? 0)%Z then if (0 <? a + n)%Z then w else averageEntryPrice pos
   else (inject_Z a * averageEntryPrice pos + inject_Z n * w) / inject_Z (a + n))%Q.
Proof.
  assert (Hs : (pos_quantity pos + inject_Z n == inject_Z (a + n))%Q) by (rewrite inject_Z_plus; lra).
  unfold buy_fill. cbn [n_lt n_add n_mul n_sub n_div n_opp n_zero exact_numeric].
  rewrite (Qlt_b_int a 0), (Qlt_b_int 0 (a + n)) by done.
  destruct (a <? 0); cbn [set_fields pos_quantity averageEntryPrice]; [done|]. by rewrite <- Hs, Hq.
Qed.

Lemma exact_sell : (pos_quantity (sell_fill pos (inject_Z n) w) == inject_Z (a - n))%Q /\
  (averageEntryPrice (sell_fill pos (inject_Z n) w) ==
   if (0 <? a)%Z then if (a <=? n)%Z then if (a <? n)%Z then w else 0 else averageEntryPrice pos
   else if (a =? 0)%Z then w
   else (inject_Z (- a) * averageEntryPrice pos + inject_Z n * w) / inject_Z (- a + n))%Q.
Proof.
  assert (Hd : (pos_quantity pos - inject_Z n == inject_Z (a - n))%Q)
    by (unfold Z.sub, Qminus; rewrite inject_Z_plus, inject_Z_opp; lra).
  assert (Hr : (inject_Z n - pos_quantity pos == inject_Z (n - a))%Q)
    by (unfold Z.sub, Qminus; rewrite inject_Z_plus, inject_Z_opp; lra).
  assert (Ho : (- pos_quantity pos == inject_Z (- a))%Q) by (rewrite inject_Z_opp; lra).
  unfold sell_fill. cbn [n_lt n_le n_eq n_add n_mul n_sub n_div n_opp n_zero exact_numeric].
  rewrite (Qlt_b_int 0 a), (Qle_b_int a n), (Qeq_b_int a), (Qlt_b_int 0 (n - a)) by done.
  replace (0 <? n - a) with (a <? n) by (zcases; lia).
  destruct (0 <? a); [destruct (a <=? n)|destruct (Z.eqb_spec a 0) as [->|]];
    cbn [set_fields pos_quantity averageEntryPrice].
  - split; [lra|]. by destruct (a <? n).
  - done.
  - split; [|done]. rewrite <- inject_Z_opp. done.
  - split; [done|]. rewrite inject_Z_plus, Ho. done.
Qed.
End Exact.

(** ** The two runs side by side *)

(** The positions agree that [a] units are held, at average prices [k]
    roundings apart. *)
Definition agree (k : nat) (pf : Position double) (pq : Position Q) (a : Z) : Prop :=
  is_int (pos_quantity pf) a /\ (pos_quantity pq == inject_Z a)%Q /\
  if decide (a = 0) then unset (averageEntryPrice pf) else tracks k (averageEntryPrice pf) (averageEntryPrice pq).

Lemma tracks_unset n x v : tracks n x v -> unset x.
Proof. intros [He _]. by right. Qed.

Lemma agree_intro k pf pq a : is_int (pos_quantity pf) a -> (pos_quantity pq == inject_Z a)%Q ->
  unset (averageEntryPrice pf) -> (a <> 0 -> tracks k (averageEntryPrice pf) (averageEntryPrice pq)) -> agree k pf pq a.
Proof. intros. unfold agree. case_decide; auto. Qed.

Lemma agree_unset k pf pq a : agree k pf pq a -> unset (averageEntryPrice pf).
Proof. intros (_ & _ & H). case_decide; [done|by eapply tracks_unset]. Qed.

Lemma agree_tracks k pf pq a : agree k pf pq a -> a <> 0 -> tracks k (averageEntryPrice pf) (averageEntryPrice pq).
Proof. intros (_ & _ & H) Ha. by rewrite decide_False in H. Qed.

Lemma agree_buy k pf pq a n px : Z.of_nat k <= 2 ^ 49 -> 0 < n -> Z.abs a + n < 2 ^ 53 -> priced px ->
  agree k pf pq a -> agree (3 + k) (buy_fill pf (of_int n) px) (buy_fill pq (inject_Z n) (valQ px)) (a + n).
Proof.
  intros Hk Hn Hb Hp Ha. pose proof (agree_unset _ _ _ _ Ha) as Hu. pose proof (agree_tracks _ _ _ _ Ha) as Ht.
  destruct Ha as (Hf & Hq & _). destruct (exact_buy pq (valQ px) a n Hq) as [Eq Ea].
  pose proof (is_int_of_int n ltac:(lia)) as Hx. pose proof (priced_tracks px Hp) as Tp.
  pose proof (is_int_add _ _ _ _ Hf Hx ltac:(lia)) as Hs.
  rewrite (buy_fill_eq pf (of_int n) px a n Hf Hx ltac:(lia) Hb).
  assert (T : if a <? 0 then True else
    tracks (3 + k) ((pos_quantity pf * averageEntryPrice pf + of_int n * px) / (pos_quantity pf + of_int n))%D
      ((inject_Z a * averageEntryPrice pq + inject_Z n * valQ px) / inject_Z (a + n))%Q).
  { destruct (Z.ltb_spec a 0); [done|]. rewrite (is_int_pos _ _ Hs) by lia.
    destruct (Z.eq_dec a 0) as [->|Ha].
    - rewrite Z.add_0_l. destruct Hf as [[_ [s Hz]]|[? _]]; [|lia]. pose proof (inject_pos n Hn).
      assert (E : ((inject_Z 0 * averageEntryPrice pq + inject_Z n * valQ px) / inject_Z n == valQ px)%Q)
        by (field; lra). rewrite E.
      apply (tracks_mono 3); [lia|]. apply (first_tracks n _ px _ s); [lia|done..].
    - rewrite (is_int_pos _ _ Hf) by lia. apply mean_tracks; [done|lia|done|lia|by apply Ht|done]. }
  apply agree_intro; cbn [set_fields pos_quantity averageEntryPrice]; [done|done| |intros Hne; rewrite Ea].
  - destruct (a <? 0); [|by eapply tracks_unset]. case_match; [by eapply tracks_unset|done].
  - destruct (Z.ltb_spec a 0); [|done]. case_match; [by apply (tracks_mono 0); [lia|]|].
    apply (tracks_mono k); [lia|apply Ht; lia].
Qed.

Lemma agree_sell k pf pq a n px : Z.of_nat k <= 2 ^ 49 -> 0 < n -> Z.abs a + n < 2 ^ 53 -> priced px ->
  agree k pf pq a -> agree (3 + k) (sell_fill pf (of_int n) px) (sell_fill pq (inject_Z n) (valQ px)) (a - n).
Proof.
  intros Hk Hn Hb Hp Ha. pose proof (agree_unset _ _ _ _ Ha) as Hu. pose proof (agree_tracks _ _ _ _ Ha) as Ht.
  destruct Ha as (Hf & Hq & _). destruct (exact_sell pq (valQ px) a n Hq) as [Eq Ea].
  pose proof (is_int_of_int n ltac:(lia)) as Hx. pose proof (priced_tracks px Hp) as Tp.
  pose proof (is_int_opp _ _ Hf) as Ho. pose proof (is_int_add _ _ _ _ Ho Hx ltac:(lia)) as Hs.
  destruct (sell_fill_eq pf (of_int n) px a n Hf Hx ltac:(lia) Hb) as (y & Hy & ->).
  assert (T : a < 0 ->
    tracks (3 + k) ((- pos_quantity pf * averageEntryPrice pf + of_int n * px) / (- pos_quantity pf + of_int n))%D
      ((inject_Z (- a) * averageEntryPrice pq + inject_Z n * valQ px) / inject_Z (- a + n))%Q).
  { intros Ha. rewrite (is_int_pos _ _ Hs), (is_int_pos _ _ Ho) by lia.
    apply mean_tracks; [done|lia|done|lia|apply Ht; lia|done]. }
  apply agree_intro; cbn [set_fields pos_quantity averageEntryPrice]; [done|done| |intros Hne; rewrite Ea].
  - destruct (Z.ltb_spec 0 a); [|destruct (Z.eqb_spec a 0); eapply tracks_unset; [done|apply T; lia]].
    destruct (a <=? n); [|done]. destruct (a <? n); [by eapply tracks_unset|]. left. by exists false.
  - destruct (Z.ltb_spec 0 a); [|destruct (Z.eqb_spec a 0); [by apply (tracks_mono 0); [lia|]|apply T; lia]].
    destruct (Z.leb_spec a n); [|apply (tracks_mono k); [lia|apply Ht; lia]].
    rewrite (proj2 (Z.ltb_lt a n)) by lia. by apply (tracks_mono 0); [lia|].
Qed.

(** The position manager looks at one symbol's executions only. *)
Lemma agree_name k p pq a sym : agree k (name_position p sym) pq a <-> agree k p pq a.
Proof. unfold agree, name_position. by destruct (pos_symbol p). Qed.

Lemma priced_exec sym sd n px : 0 < n < 2 ^ 53 -> priced (lit px) -> trade_ok (example_exec sym sd n px).
Proof.
  intros Hn Hp. split; [apply example_exec_ok; lia|]. split; [|done].
  unfold units; cbn [exec_quantity example_exec]. rewrite trunc_of_int by lia. cbn. lia.
Qed.

Lemma priced_int z : 0 < z < 2 ^ 53 -> priced (of_int z).
Proof.
  intros Hz. destruct (of_int_normal z Hz) as [Hn Hv]. eexists. split; [exact Hn|]. unfold moderate. rewrite Hv.
  destruct (inject_Z_bpow z 0 53) as [H1 H2]; [lia..|]. pose proof (bpow_le (-100) 0 ltac:(lia)).
  pose proof (bpow_le 53 100 ltac:(lia)). lra.
Qed.
