(* ===== verification/ProfitAccuracy.v ===== *)
(** * How accurate the realised profit is

    The realised profit of a position adds up, for every fill that closes
    units, the units closed times a difference of prices.  Each product and
    each sum is rounded and the average entry price has its own error
    ([PositionAccuracy]); here the errors are added up over a stream of
    executions.  The bound is absolute, in terms of the amount traded, since
    the profit itself may cancel to nothing. *)

From Stdlib Require Import QArith Qabs Lqa.
From S2P Require Import Prelude Float64 Float64Valid Float64Accuracy Float64Signed Messages.
From S2P Require Import PositionManager PositionAccuracy.

Local Open Scope Z_scope.

(** ** One closing fill *)

Lemma Qabs_le_scale c x b : (0 <= c)%Q -> (Qabs x <= b)%Q -> (Qabs (c * x) <= c * b)%Q.
Proof. intros Hc Hx. rewrite Qabs_Qmult, (Qabs_pos c), !(Qmult_comm c) by done. by apply Qmult_le_compat_r. Qed.

Lemma Qabs_bound x y e b : (Qabs (y - x) <= e)%Q -> (Qabs x <= b)%Q -> (Qabs y <= b + e)%Q.
Proof. rewrite !Qabs_Qle_condition. lra. Qed.

Lemma Qabs_trans_u53 e x b : (Qabs e <= u53 * Qabs x)%Q -> (Qabs x <= b)%Q -> (Qabs e <= u53 * b)%Q.
Proof. intros He Hx. eapply Qle_trans; [exact He|]. rewrite !(Qmult_comm u53). by apply Qmult_le_compat_r. Qed.

(** The profit of one closing fill: [c] units are closed at prices up to [h],
    [i] fills after the start. *)
Lemma closing_profit (i c h v w dx d t : Q) :
  (0 <= i)%Q -> (17 * i * u53 <= 1)%Q -> (0 <= c)%Q -> (0 < v <= h)%Q -> (0 < w <= h)%Q ->
  (Qabs dx <= 2 * h)%Q -> (Qabs (dx - (v - w)) <= 12 * i * u53 * h)%Q ->
  (Qabs (d - dx) <= u53 * Qabs dx)%Q -> (Qabs (t - c * d) <= u53 * Qabs (c * d))%Q ->
  (Qabs (c * (v - w)) <= c * h)%Q /\
  (Qabs (t - c * (v - w)) <= (12 * i + 5) * u53 * (c * h))%Q.
Proof.
  intros Hi Hiu Hc Hv Hw Hdx Hd Ed Et.
  assert (Hcv : (Qabs (c * (v - w)) <= c * h)%Q) by (apply Qabs_le_scale; [done|apply Qabs_Qle_condition; lra]).
  split; [done|]. pose proof (Qabs_trans_u53 _ _ _ Ed Hdx) as Ed'.
  pose proof (Qabs_bound _ _ _ _ Ed' Hdx) as Hd3.
  apply (Qabs_le_scale c) in Hd3; [|done]. pose proof (Qabs_trans_u53 _ _ _ Et Hd3) as Et'.
  apply (Qabs_le_scale c) in Ed', Hd; [|done..]. rewrite !Qabs_Qle_condition in *.
  assert (0 <= c * h)%Q by (apply Qmult_le_0_compat; lra). unfold u53 in *.
  change (2 ^ 53)%positive with 9007199254740992%positive in *. lra.
Qed.

Lemma closing_size (i g c h p t f r : Q) :
  (0 <= i)%Q -> (17 * i * u53 <= 1)%Q -> (0 <= g)%Q -> (0 <= c)%Q -> (0 <= h)%Q ->
  (Qabs p <= c * h)%Q -> (Qabs (t - p) <= (12 * i + 5) * u53 * (c * h))%Q ->
  (Qabs (f - r) <= 17 * i * u53 * (h * g))%Q -> (Qabs r <= h * g)%Q ->
  (Qabs (f + t) <= 2 * (h * g) + 3 * (c * h))%Q.
Proof.
  intros Hi Hiu Hg Hc Hh Hp Ht Hf Hr. assert (Hch : (0 <= c * h)%Q) by (apply Qmult_le_0_compat; lra).
  assert (Hhg : (0 <= h * g)%Q) by (apply Qmult_le_0_compat; lra).
  assert (Hiu1 : (17 * i * u53 * (c * h) <= 1 * (c * h))%Q) by (apply Qmult_le_compat_r; done).
  assert (Hiu2 : (17 * i * u53 * (h * g) <= 1 * (h * g))%Q) by (apply Qmult_le_compat_r; done).
  unfold u53 in *. change (2 ^ 53)%positive with 9007199254740992%positive in *. rewrite !Qabs_Qle_condition in *. lra.
Qed.

(** Adding it to the profit so far, after [g] units. *)
Lemma closing_total (i g n c h p t f r f1 : Q) :
  (0 <= i)%Q -> (17 * i * u53 <= 1)%Q -> (0 <= g)%Q -> (0 <= c <= n)%Q -> (0 <= h)%Q ->
  (Qabs p <= c * h)%Q -> (Qabs (t - p) <= (12 * i + 5) * u53 * (c * h))%Q ->
  (Qabs (f - r) <= 17 * i * u53 * (h * g))%Q -> (Qabs r <= h * g)%Q ->
  (Qabs (f1 - (f + t)) <= u53 * Qabs (f + t))%Q ->
  (Qabs (f1 - (r + p)) <= 17 * (i + 1) * u53 * (h * (g + n)))%Q /\ (Qabs (r + p) <= h * (g + n))%Q.
Proof.
  intros Hi Hiu Hg Hc Hh Hp Ht Hf Hr Ef.
  pose proof (closing_size i g c h p t f r Hi Hiu Hg (proj1 Hc) Hh Hp Ht Hf Hr) as Hft.
  assert (Hch : (0 <= c * h)%Q) by (apply Qmult_le_0_compat; lra).
  assert (Hhg : (0 <= h * g)%Q) by (apply Qmult_le_0_compat; lra).
  assert (Hn : (c * h <= n * h)%Q) by (apply Qmult_le_compat_r; lra).
  assert (Hin : (i * (c * h) <= i * (n * h))%Q) by (rewrite !(Qmult_comm i); apply Qmult_le_compat_r; lra).
  pose proof (Qabs_trans_u53 _ _ _ Ef Hft) as Ef'. unfold u53 in *.
  change (2 ^ 53)%positive with 9007199254740992%positive in *. rewrite !Qabs_Qle_condition in *. split; lra.
Qed.

(** ** On binary64 *)

Definition natQ (i : nat) : Q := inject_Z (Z.of_nat i).

Lemma natQ_S i : (natQ (S i) == natQ i + 1)%Q.
Proof. unfold natQ. rewrite Nat2Z.inj_succ. unfold Z.succ. by rewrite inject_Z_plus. Qed.

Lemma natQ_nonneg i : (0 <= natQ i)%Q.
Proof. unfold natQ. change 0%Q with (inject_Z 0). rewrite <- Zle_Qle. lia. Qed.

(** A realised profit [f] that stands for [r], after [i] fills for [g] units at
    prices up to [h]. *)
Record profit_ok (h : Q) (i : nat) (g : Q) (f : double) (r : Q) : Prop := {
  po_finite : finite f;
  po_double : is_double f;
  po_error : (Qabs (valQ f - r) <= 17 * natQ i * u53 * (h * g))%Q;
  po_size : (Qabs r <= h * g)%Q }.

#[export] Instance profit_ok_proper h i : Proper (Qeq ==> eq ==> Qeq ==> iff) (profit_ok h i).
Proof.
  intros g g' Eg f _ <- r r' Er. split; intros [A B C D]; (split; [done|done| |]).
  - by rewrite <- Er, <- Eg.
  - by rewrite <- Er, <- Eg.
  - by rewrite Er, Eg.
  - by rewrite Er, Eg.
Qed.

Lemma is_int_sizeable x c : is_int x c -> 0 < c -> finite x /\ is_double x /\ sizeable x /\ (valQ x == inject_Z c)%Q.
Proof.
  intros Hx Hc. pose proof (is_int_valQ x c Hx) as Hv. rewrite (is_int_pos x c Hx Hc) in *.
  pose proof (is_int_bound _ _ Hx). destruct (of_int_normal c ltac:(lia)) as [(p & E & _) _].
  split_and!; [by rewrite E|apply of_int_double| |done]. right. rewrite Hv.
  assert (1 <= inject_Z c)%Q by (change 1%Q with (inject_Z 1); rewrite <- Zle_Qle; lia).
  pose proof (bpow_le (-400) 0 ltac:(lia)) as H1. change (bpow 0) with 1%Q in H1. rewrite Qabs_pos; lra.
Qed.

Lemma tracks_finite k x v : tracks k x v -> Z.of_nat k <= 2 ^ 49 ->
  exists e, normal x e /\ -153 <= e < 49 /\ finite x /\ is_double x /\ (0 < valQ x <= 2 * v)%Q.
Proof.
  intros Hx Hk. destruct (tracks_normal k x v ltac:(lia) Hx) as (e & Hn & He). destruct Hx as (_ & Hm & Hw).
  pose proof (normal_valQ x e Hn) as H0.
  destruct (within_twice k x v (moderate_pos v Hm) ltac:(lra) ltac:(lia) Hw) as [_ H2].
  assert (finite x /\ is_double x) as [Hf Hd].
  { destruct Hn as (p & -> & Hp). split; [done|]. apply finite_cases. left. lia. }
  exists e. exact (conj Hn (conj He (conj Hf (conj Hd (conj H0 H2))))).
Qed.

Section Step.
Variables (h g : Q) (i : nat).
Hypothesis Hh : (0 <= h <= bpow 100)%Q.
Hypothesis Hg : (0 <= g <= bpow 53)%Q.
Hypothesis Hi : Z.of_nat i <= 2 ^ 47.

Let Hi0 : (0 <= natQ i)%Q := natQ_nonneg i.

Lemma natQ_u53 : (17 * natQ i * u53 <= 1)%Q.
Proof.
  assert (H : (natQ i <= 140737488355328)%Q).
  { change 140737488355328%Q with (inject_Z (2 ^ 47)). unfold natQ. by rewrite <- Zle_Qle. }
  unfold u53. change (2 ^ 53)%positive with 9007199254740992%positive. lra.
Qed.

Lemma profit_grows n f r : (0 <= n)%Q -> profit_ok h i g f r -> profit_ok h (S i) (g + n) f r.
Proof.
  intros Hn [A B C D]. assert (H0 : (0 <= h * g)%Q) by (apply Qmult_le_0_compat; lra).
  assert (H1 : (0 <= h * n)%Q) by (apply Qmult_le_0_compat; lra).
  assert (H2 : (0 <= natQ i * (h * n))%Q) by (by apply Qmult_le_0_compat).
  split; [done|done| |lra]. rewrite natQ_S. unfold u53 in *.
  change (2 ^ 53)%positive with 9007199254740992%positive in *. lra.
Qed.

Lemma profit_step k x y v w closed c n f r : Z.of_nat k <= 2 ^ 49 -> tracks k x v -> tracks k y w ->
  (v <= h)%Q -> (w <= h)%Q -> (Qabs (valQ x - valQ y - (v - w)) <= 12 * natQ i * u53 * h)%Q ->
  is_int closed c -> 0 < c <= n -> profit_ok h i g f r ->
  profit_ok h (S i) (g + inject_Z n) (f + closed * (x - y))%D (r + inject_Z c * (v - w)).
Proof.
  intros Hk Tx Ty Hv Hw Hd Hcl Hc [Ff Fd Fe Fs].
  destruct (is_int_sizeable closed c Hcl ltac:(lia)) as (Cf & Cd & Cs & Cv). pose proof (is_int_bound _ _ Hcl).
  pose proof (moderate_pos v (proj1 (proj2 Tx))) as Pv. pose proof (moderate_pos w (proj1 (proj2 Ty))) as Pw.
  destruct (tracks_finite k x v Tx Hk) as (ex & Nx & Ex & Xf & Xd & Xv).
  destruct (tracks_finite k y w Ty Hk) as (ey & Ny & Ey & Yf & Yd & Yv).
  assert (Hcq : (0 <= inject_Z c <= inject_Z n /\ inject_Z c <= bpow 53)%Q).
  { change 0%Q with (inject_Z 0). rewrite (bpow_Z 53), <- !Zle_Qle by done. lia. }
  assert (Hdx : (Qabs (valQ x - valQ y) <= 2 * h)%Q) by (apply Qabs_Qle_condition; lra).
  assert (B1 : (4 * bpow 100 < bpow 1000)%Q) by reflexivity.
  assert (B2 : (5 * (bpow 100 * bpow 53) < bpow 1000)%Q) by reflexivity.
  assert (Hch : (inject_Z c * h <= bpow 100 * bpow 53)%Q)
    by (rewrite Qmult_comm; apply Qmult_le_compat_nonneg; lra).
  assert (Hhg : (h * g <= bpow 100 * bpow 53)%Q) by (apply Qmult_le_compat_nonneg; lra).
  pose proof (fsub_rounds x y Xf Yf Xd Yd ltac:(lra)) as Rd.
  pose proof (fsub_sizeable x y ex ey Nx Ny ltac:(lia) ltac:(lia) Rd) as Sd. destruct Rd as (Df & Dd & De).
  (* the product *)
  pose proof (Qabs_bound _ _ _ _ (Qabs_trans_u53 _ _ _ De Hdx) Hdx) as Hd3.
  pose proof (Qabs_le_scale (inject_Z c) _ _ ltac:(lra) Hd3) as Hcd.
  assert (Rt : rounds (closed * (x - y))%D (inject_Z c * valQ (x - y)%D)).
  { rewrite <- Cv. apply fmul_rounds; try done. rewrite Cv. unfold u53 in Hcd.
    change (2 ^ 53)%positive with 9007199254740992%positive in Hcd. lra. }
  destruct Rt as (Tf & Td & Te).
  destruct (closing_profit _ _ h v w _ _ _ Hi0 natQ_u53 (proj1 (proj1 Hcq)) ltac:(lra) ltac:(lra) Hdx Hd De Te)
    as [Hp Ht].
  (* the sum *)
  assert (Rf : rounds (f + closed * (x - y))%D (valQ f + valQ (closed * (x - y))%D)).
  { apply fadd_rounds; try done. 
    pose proof (closing_size _ g _ h _ _ _ _ Hi0 natQ_u53 (proj1 Hg) (proj1 (proj1 Hcq)) (proj1 Hh) Hp Ht Fe Fs). lra. }
  destruct Rf as (Rf1 & Rf2 & Rf3).
  destruct (closing_total _ g (inject_Z n) _ h _ _ _ _ _ Hi0 natQ_u53 (proj1 Hg) (proj1 Hcq) (proj1 Hh) Hp Ht Fe Fs Rf3).
  split; [done|done| |done]. by rewrite natQ_S.
Qed.
End Step.

(** ** The two runs *)

Section Exact.
Variables (pos : Position Q) (w h : Q) (a n : Z).
Hypothesis Hq : (pos_quantity pos == inject_Z a)%Q.
Hypothesis Hn : 0 < n.

Lemma exact_buy_profit : (realisedPnl (buy_fill pos (inject_Z n) w) ==
  if (a <? 0)%Z then realisedPnl pos + inject_Z (Z.min n (- a)) * (averageEntryPrice pos - w) else realisedPnl pos)%Q.
Proof.
  assert (Ho : (- pos_quantity pos == inject_Z (- a))%Q) by (rewrite inject_Z_opp, Hq; done).
  unfold buy_fill. cbn [n_lt n_add n_mul n_sub n_div n_opp n_zero exact_numeric]. rewrite (Qlt_b_int a 0) by done.
  destruct (a <? 0); cbn [set_fields realisedPnl]; [|done].
  unfold n_min. cbn [n_lt exact_numeric]. rewrite (Qlt_b_int (- a) n) by done.
  destruct (Z.ltb_spec (- a) n); [rewrite Z.min_r, Ho by lia|rewrite Z.min_l by lia]; done.
Qed.

Lemma exact_sell_profit : (realisedPnl (sell_fill pos (inject_Z n) w) ==
  if (0 <? a)%Z then realisedPnl pos + inject_Z (if (a <=? n)%Z then a else n) * (w - averageEntryPrice pos)
  else realisedPnl pos)%Q.
Proof.
  unfold sell_fill. cbn [n_lt n_le n_eq n_add n_mul n_sub n_div n_opp n_zero exact_numeric].
  rewrite (Qlt_b_int 0 a), (Qle_b_int a n), (Qeq_b_int a) by done.
  destruct (0 <? a); [destruct (a <=? n)|destruct (a =? 0)]; cbn [set_fields realisedPnl]; [by rewrite Hq|done..].
Qed.

Hypothesis Hw : (w <= h)%Q.
Hypothesis Hv : (a <> 0%Z -> averageEntryPrice pos <= h)%Q.

Lemma mean_le x v : 0 < x -> (v <= h)%Q -> ((inject_Z x * v + inject_Z n * w) / inject_Z (x + n) <= h)%Q.
Proof.
  intros Hx Hvh. pose proof (inject_pos x Hx). pose proof (inject_pos n Hn). rewrite inject_Z_plus.
  apply Qle_shift_div_r; [lra|]. nra.
Qed.

Lemma exact_buy_le : a + n <> 0 -> (averageEntryPrice (buy_fill pos (inject_Z n) w) <= h)%Q.
Proof.
  intros Hne. destruct (exact_buy pos w a n Hq) as [_ ->]. destruct (Z.ltb_spec a 0).
  - case_match; [done|apply Hv; lia].
  - destruct (Z.eq_dec a 0) as [->|]; [|apply mean_le; [lia|by apply Hv]].
    rewrite Z.add_0_l. pose proof (inject_pos n Hn). apply Qle_shift_div_r; [done|].
    change (inject_Z 0) with 0%Q. nra.
Qed.

Lemma exact_sell_le : a - n <> 0 -> (averageEntryPrice (sell_fill pos (inject_Z n) w) <= h)%Q.
Proof.
  intros Hne. destruct (exact_sell pos w a n Hq) as [_ ->]. destruct (Z.ltb_spec 0 a).
  - destruct (Z.leb_spec a n); [|apply Hv; lia]. by rewrite (proj2 (Z.ltb_lt a n)) by lia.
  - destruct (Z.eqb_spec a 0) as [->|]; [done|]. apply mean_le; [lia|by apply Hv].
Qed.
End Exact.

Record accurate (h : Q) (i : nat) (g : Q) (pf : Position double) (pq : Position Q) (a : Z) : Prop := {
  ac_agree : agree (3 * i) pf pq a;
  ac_average : (a <> 0%Z -> averageEntryPrice pq <= h)%Q;
  ac_profit : profit_ok h i g (realisedPnl pf) (realisedPnl pq) }.

Lemma tracks_error i x v h : Z.of_nat i <= 2 ^ 47 -> tracks (3 * i) x v -> (v <= h)%Q ->
  (Qabs (valQ x - v) <= 12 * natQ i * u53 * h)%Q.
Proof.
  intros Hi ([e He] & Hm & Hw) Hv. pose proof (moderate_pos v Hm). pose proof (normal_valQ x e He). pose proof (natQ_nonneg i) as Hnat.
  eapply Qle_trans; [apply (within_error (3 * i)); [done|lra|lia|done]|].
  assert (E : (inject_Z (Z.of_nat (3 * i)) == 3 * natQ i)%Q).
  { rewrite Nat2Z.inj_mul, inject_Z_mult. done. }
  rewrite E. assert (natQ i * v <= natQ i * h)%Q by (rewrite !(Qmult_comm (natQ i)); by apply Qmult_le_compat_r).
  unfold u53. change (2 ^ 53)%positive with 9007199254740992%positive. change (2 ^ 51)%positive with 2251799813685248%positive. lra.
Qed.

Section Fills.
Variables (h g : Q) (i : nat) (pf : Position double) (pq : Position Q) (a n : Z) (px : double).
Hypothesis Hh : (0 <= h <= bpow 100)%Q.
Hypothesis Hg : (0 <= g <= bpow 53)%Q.
Hypothesis Hi : Z.of_nat i <= 2 ^ 47.
Hypothesis Hn : 0 < n.
Hypothesis Hb : Z.abs a + n < 2 ^ 53.
Hypothesis Hp : priced px.
Hypothesis Hpx : (valQ px <= h)%Q.
Hypothesis Ha : accurate h i g pf pq a.

Let Hk : Z.of_nat (3 * i) <= 2 ^ 49.
Proof. lia. Qed.

Let Hx : is_int (of_int n) n.
Proof. apply is_int_of_int. lia. Qed.

Let Hpt : tracks (3 * i) px (valQ px).
Proof. apply (tracks_mono 0); [lia|]. by apply priced_tracks. Qed.

Lemma accurate_buy :
  accurate h (S i) (g + inject_Z n) (buy_fill pf (of_int n) px) (buy_fill pq (inject_Z n) (valQ px)) (a + n).
Proof.
  destruct Ha as [Hag Hav Hpr]. pose proof Hag as (Hf & Hq & _). split.
  - replace (3 * S i)%nat with (3 + 3 * i)%nat by lia. by apply agree_buy.
  - by apply exact_buy_le.
  - rewrite exact_buy_profit, (buy_fill_eq pf (of_int n) px a n Hf Hx ltac:(lia) Hb) by done.
    cbn [set_fields realisedPnl]. destruct (Z.ltb_spec a 0) as [Hneg|].
    + pose proof (agree_tracks _ _ _ _ Hag ltac:(lia)) as Ht. specialize (Hav ltac:(lia)).
      apply (profit_step h g i Hh Hg Hi (3 * i)); try done; [| |lia].
      * pose proof (tracks_error i _ _ h Hi Ht Hav) as He. by rewrite !Qabs_Qle_condition in *; lra.
      * by apply is_int_fmin, is_int_opp.
    + apply profit_grows; try done. apply Qlt_le_weak, inject_pos. lia.
Qed.

Lemma accurate_sell :
  accurate h (S i) (g + inject_Z n) (sell_fill pf (of_int n) px) (sell_fill pq (inject_Z n) (valQ px)) (a - n).
Proof.
  destruct Ha as [Hag Hav Hpr]. pose proof Hag as (Hf & Hq & _). split.
  - replace (3 * S i)%nat with (3 + 3 * i)%nat by lia. by apply agree_sell.
  - by apply exact_sell_le.
  - rewrite (exact_sell_profit _ _ a) by done.
    destruct (sell_fill_eq pf (of_int n) px a n Hf Hx ltac:(lia) Hb) as (y & _ & ->).
    cbn [set_fields realisedPnl]. destruct (Z.ltb_spec 0 a) as [Hpos|].
    + pose proof (agree_tracks _ _ _ _ Hag ltac:(lia)) as Ht. specialize (Hav ltac:(lia)).
      apply (profit_step h g i Hh Hg Hi (3 * i)); try done.
      * pose proof (tracks_error i _ _ h Hi Ht Hav) as He. by rewrite !Qabs_Qle_condition in *; lra.
      * by destruct (a <=? n).
      * destruct (Z.leb_spec a n); lia.
    + apply profit_grows; try done. apply Qlt_le_weak, inject_pos. lia.
Qed.
End Fills.

Lemma accurate_fill h G i pf pq a sd n px : (0 <= h <= bpow 100)%Q -> Z.abs a <= G -> Z.of_nat i <= G -> 0 < n ->
  G + n < 2 ^ 47 -> priced px -> (valQ px <= h)%Q -> accurate h i (inject_Z G) pf pq a ->
  accurate h (S i) (inject_Z (G + n)) (apply_fill pf sd (of_int n) px) (apply_fill pq sd (inject_Z n) (valQ px))
    (a + signed sd n).
Proof.
  intros Hh HaG HiG Hn Hb Hp Hpx Ha.
  assert (Hg : (0 <= inject_Z G <= bpow 53)%Q).
  { change 0%Q with (inject_Z 0). rewrite (bpow_Z 53), <- !Zle_Qle by done. lia. }
  assert (H : accurate h (S i) (inject_Z G + inject_Z n) (apply_fill pf sd (of_int n) px)
    (apply_fill pq sd (inject_Z n) (valQ px)) (a + signed sd n)).
  { destruct sd; cbn [apply_fill signed]; [|rewrite Z.add_opp_r]; [apply accurate_buy|apply accurate_sell]; done || lia. }
  destruct H as [A B C]. split; [done|done|]. by rewrite inject_Z_plus.
Qed.

(** The units of one symbol, bought and sold. *)
Fixpoint traded (sym : bytes) (es : list Execution) : Z :=
  match es with
  | [] => 0
  | e :: r => (if decide (exec_key e = sym) then units e else 0) + traded sym r
  end.

Lemma accurate_name h i g p pq a sym : accurate h i g (name_position p sym) pq a <-> accurate h i g p pq a.
Proof.
  assert (E : realisedPnl (name_position p sym) = realisedPnl p) by (unfold name_position; by destruct (pos_symbol p)).
  split; intros [A B C]; (split; [by rewrite agree_name in *|done|]); [by rewrite E in C|by rewrite E].
Qed.

Lemma traded_bounds sym es : Forall trade_ok es -> 0 <= traded sym es <= gross_units es /\
  Z.of_nat (length (fills_of sym es)) <= traded sym es.
Proof.
  unfold fills_of. induction 1 as [|e es (_ & Hu & _) _ IH]; [done|]. rewrite filter_cons. cbn [gross_units traded].
  destruct (decide (exec_key e = sym)); cbn [fmap list_fmap length]; lia.
Qed.

Lemma run_accurate h es sym : (0 <= h <= bpow 100)%Q -> forall i pm pq a G,
  Forall trade_ok es -> Forall (fun e => valQ (trade_price e) <= h)%Q es ->
  Z.abs a <= G -> Z.of_nat i <= G -> G + gross_units es < 2 ^ 47 ->
  accurate h i (inject_Z G) (position_of pm sym) pq a ->
  accurate h (length (fills_of sym es) + i) (inject_Z (G + traded sym es)) (position_of (run_executions pm es) sym)
    (apply_fills pq (fills_of sym es)) (a + net_units sym es).
Proof.
  intros Hh. induction es as [|e es IH]; intros i pm pq a G Hes Hps Ha Hi Hb H; cbn [net_units traded run_executions foldl].
  { by rewrite !Z.add_0_r. }
  apply Forall_cons in Hes as [He Hes]. apply Forall_cons in Hps as [Hpe Hps]. cbn [gross_units] in *.
  pose proof (traded_bounds sym es Hes) as [Ht _]. destruct He as ([Hx _] & Hu & Hp).
  rewrite !Z.add_assoc. unfold fills_of in *. rewrite filter_cons. fold (run_executions (onExecution pm e) es).
  destruct (decide (exec_key e = sym)) as [E|E]; cbn [fmap list_fmap length apply_fills foldl exact_of fill_side fill_qty fill_px].
  - rewrite Nat.add_succ_comm. apply IH; try done; try lia.
    + destruct (side e); cbn [signed]; lia.
    + subst sym. unfold onExecution, position_of in *. rewrite lookup_insert_eq. cbn [from_option Datatypes.id].
      rewrite name_fill, accurate_name, (is_int_pos _ _ Hx) by done. by apply accurate_fill; try lia.
  - rewrite !Z.add_0_r. apply IH; try done; try lia. by rewrite onExecution_ne.
Qed.

(** C30. The accounts of a position are accurate.  After any stream of
    executions for positive whole quantities, less than 2^47 units in total, at
    prices from 2^-100 up to [h], the binary64 position of a symbol stands
    beside the accounting on rationals ([pnl_identity]) of the symbol's [k]
    executions: it holds exactly as many units; unless it is flat its average
    entry price has a relative error of at most 3 k * 2^-51; and its realised
    profit is off by at most 17 k * 2^-53 of [h] times the units traded -
    whichever of the executions opened, extended, reduced, closed or turned
    the position, and however much of the profit cancelled. *)
Theorem position_accuracy (h : Q) (es : list Execution) (sym : bytes) :
  (0 <= h <= bpow 100)%Q -> Forall trade_ok es -> Forall (fun e => valQ (trade_price e) <= h)%Q es ->
  gross_units es < 2 ^ 47 ->
  let pos := position_of (run_executions PositionManager_new es) sym in
  let exact := apply_fills Position_zero (fills_of sym es) in
  let k := natQ (length (fills_of sym es)) in
  (valQ (pos_quantity pos) == pos_quantity exact)%Q /\
  (net_units sym es <> 0%Z ->
    Qabs (valQ (averageEntryPrice pos) - averageEntryPrice exact) <= 3 * k * (1 # 2 ^ 51) * averageEntryPrice exact)%Q /\
  (Qabs (valQ (realisedPnl pos) - realisedPnl exact) <= 17 * k * u53 * (h * inject_Z (traded sym es)))%Q.
Proof.
  intros Hh Hes Hps Hb pos exact k.
  assert (H0 : accurate h 0 (inject_Z 0) (position_of PositionManager_new sym) Position_zero 0).
  { split; [|done|].
    - split; [exact is_int_zero|]. split; [done|]. cbn. left. by exists false.
    - assert (E : (h * inject_Z 0 == 0)%Q) by (change (inject_Z 0) with 0%Q; ring).
      split; [done|done|rewrite E|rewrite E]; done. }
  pose proof (run_accurate h es sym Hh 0 _ _ 0 0 Hes Hps ltac:(lia) ltac:(lia) ltac:(lia) H0) as [Ha _ Hpr].
  fold pos exact in Ha, Hpr. rewrite Nat.add_0_r in *. split; [|split].
  - destruct Ha as (Hf & -> & _). by apply is_int_valQ.
  - intros Hne. pose proof (agree_tracks _ _ _ _ Ha Hne) as ([e He] & Hm & Hw).
    pose proof (normal_valQ _ _ He). pose proof (traded_bounds sym es Hes).
    pose proof (within_error (3 * length (fills_of sym es)) (averageEntryPrice pos) (averageEntryPrice exact) (moderate_pos _ Hm) ltac:(lra) ltac:(lia) Hw) as Herr.
    unfold k, natQ. by rewrite Nat2Z.inj_mul, inject_Z_mult in Herr.
  - exact (po_error _ _ _ _ _ Hpr).
Qed.

Definition example_fills : list Execution :=
  [example_exec (B "AAPL") Side_BUY 100 150; example_exec (B "AAPL") Side_SELL 130 151;
   example_exec (B "AAPL") Side_BUY 10 149].

(** Bought at 150, sold short at 151, partly covered at 149. *)
Lemma position_accuracy_witness :
  let pos := position_of (run_executions PositionManager_new example_fills) (B "AAPL") in
  let exact := apply_fills Position_zero (fills_of (B "AAPL") example_fills) in
  (valQ (pos_quantity pos) == pos_quantity exact)%Q /\
  (Qabs (valQ (realisedPnl pos) - realisedPnl exact) <=
    17 * natQ (length (fills_of (B "AAPL") example_fills)) * u53 *
    (200 * inject_Z (traded (B "AAPL") example_fills)))%Q.
Proof.
  assert (Hes : Forall trade_ok example_fills).
  { repeat (constructor; [apply priced_exec; [lia|]|]); [| | |constructor];
      [apply (priced_int 150)|apply (priced_int 151)|apply (priced_int 149)]; lia. }
  assert (Hps : Forall (fun e => valQ (trade_price e) <= 200)%Q example_fills) by (repeat (constructor; [discriminate|]); constructor).
  assert (Hh : (0 <= 200 <= bpow 100)%Q) by (split; discriminate).
  pose proof (position_accuracy 200 example_fills (B "AAPL") Hh Hes Hps eq_refl) as (H1 & _ & H2).
  exact (conj H1 H2).
Defined.
