(* ===== verification/SpscQueue.v ===== *)
(** * The lock-free queue of spsc_queue.h

    First the operations as the code runs them on one thread: a ring of
    [capacity_] slots, one of which stays empty.  They refine a bounded list
    queue.  Then the same operations as a step relation for two threads: each
    load and store of an index, and each access to a slot, is a step of its
    own, and a thread may read a value of the other thread's index that is no
    longer the newest, as the release/acquire orders of the code allow. *)

From S2P Require Import Prelude.

Local Open Scope Z_scope.

Section Spsc.
Context {T : Type} (T_zero : T).

Record SpscQueue := mkSpsc {
  capacity_ : Z;          (* size_t *)
  buffer_ : gmap Z T;     (* std::vector<T>(capacity) *)
  head_ : Z;
  tail_ : Z }.

Definition SpscQueue_new (capacity : Z) : SpscQueue := mkSpsc capacity ∅ 0 0.

Definition push (q : SpscQueue) (item : T) : bool * SpscQueue :=
  let current_tail := tail_ q in
  let next_tail := (current_tail + 1) mod capacity_ q in
  if next_tail =? head_ q then (false, q)
  else (true, mkSpsc (capacity_ q) (<[current_tail := item]> (buffer_ q)) (head_ q) next_tail).

(** [pop(item)]: the item is [None] when it returns [false]. *)
Definition pop (q : SpscQueue) : option T * SpscQueue :=
  let current_head := head_ q in
  if current_head =? tail_ q then (None, q)
  else (Some (vget T_zero (buffer_ q) current_head),
        mkSpsc (capacity_ q) (buffer_ q) ((current_head + 1) mod capacity_ q) (tail_ q)).

Definition size (q : SpscQueue) : Z :=
  if head_ q <=? tail_ q then tail_ q - head_ q else capacity_ q - head_ q + tail_ q.

(** [while (queue.pop(item)) body(item);] — the drain loop of main.cpp, with
    no concurrent producer: it ends after [size] items. *)
Fixpoint drain {St} (fuel : nat) (body : T -> St -> St) (q : SpscQueue) (s : St) : SpscQueue * St :=
  match fuel with
  | O => (q, s)
  | S f =>
      match pop q with
      | (Some x, q') => drain f body q' (body x s)
      | (None, q') => (q', s)
      end
  end.

(** ** Refinement of a bounded list *)

Record queue_rep (q : SpscQueue) (l : list T) : Prop := {
  qr_head : 0 <= head_ q < capacity_ q;
  qr_tail : tail_ q = (head_ q + Z.of_nat (length l)) mod capacity_ q;
  qr_room : Z.of_nat (length l) < capacity_ q;
  qr_items : forall i x, l !! i = Some x ->
    vget T_zero (buffer_ q) ((head_ q + Z.of_nat i) mod capacity_ q) = x }.

Lemma mod_inj c a b : 0 < c -> a mod c = b mod c -> Z.abs (a - b) < c -> a = b.
Proof.
  intros Hc Heq Hab. pose proof (Z.div_mod a c ltac:(lia)) as Ha.
  pose proof (Z.div_mod b c ltac:(lia)) as Hb.
  assert (a - b = c * (a / c - b / c)) by lia.
  assert (a / c - b / c = 0) by nia. lia.
Qed.

Lemma succ_mod c a : 0 < c -> (a mod c + 1) mod c = (a + 1) mod c.
Proof. intros. apply Zplus_mod_idemp_l. Qed.

Lemma queue_rep_new c : 0 < c -> queue_rep (SpscQueue_new c) [].
Proof. intros Hc. split; cbn; try lia; [by rewrite Z.mod_0_l by lia|done]. Qed.

Lemma push_rep q l x : queue_rep q l ->
  if Z.of_nat (length l) =? capacity_ q - 1 then push q x = (false, q)
  else exists q', push q x = (true, q') /\ capacity_ q' = capacity_ q /\ queue_rep q' (l ++ [x]).
Proof.
  intros [Hh Ht Hr Hi]. unfold push. rewrite Ht, succ_mod by lia.
  set (n := Z.of_nat (length l)) in *. set (c := capacity_ q) in *.
  destruct (Z.eqb_spec n (c - 1)) as [E|E].
  - replace (head_ q + n + 1) with (head_ q + 1 * c) by lia.
    by rewrite Z.mod_add, Z.mod_small, Z.eqb_refl by lia.
  - destruct (Z.eqb_spec ((head_ q + n + 1) mod c) (head_ q)) as [E'|_].
    { rewrite <- (Z.mod_small (head_ q) c) in E' at 2 by lia.
      apply mod_inj in E'; lia. }
    eexists; split; [done|]. split; [done|]. split; cbn; fold c.
    + done.
    + rewrite length_app, Nat2Z.inj_add. fold n. f_equal. cbn. lia.
    + rewrite length_app, Nat2Z.inj_add. fold n. cbn. lia.
    + intros i y Hy. rewrite vget_insert. apply lookup_app_Some in Hy as [Hy|[Hge Hy]].
      * apply lookup_lt_Some in Hy as Hlt.
        rewrite decide_False; [by apply Hi|]. intros E'.
        apply mod_inj in E'; [unfold n in *; lia|lia|unfold n in *; lia].
      * apply list_lookup_singleton_Some in Hy as [Hi0 ->].
        rewrite decide_True; [done|]. do 2 f_equal. unfold n. lia.
Qed.

Lemma pop_rep q l : queue_rep q l ->
  match l with
  | [] => pop q = (None, q)
  | x :: l' => exists q', pop q = (Some x, q') /\ capacity_ q' = capacity_ q /\ queue_rep q' l'
  end.
Proof.
  intros [Hh Ht Hr Hi]. unfold pop. rewrite Ht. set (c := capacity_ q) in *.
  destruct l as [|x l].
  - cbn [length]. by rewrite Z.add_0_r, Z.mod_small, Z.eqb_refl by lia.
  - cbn [length] in *. destruct (Z.eqb_spec (head_ q) ((head_ q + Z.of_nat (S (length l))) mod c)) as [E|_].
    { rewrite <- (Z.mod_small (head_ q) c) in E at 1 by lia. apply mod_inj in E; lia. }
    specialize (Hi 0%nat x eq_refl) as H0. rewrite Z.add_0_r, Z.mod_small in H0 by lia.
    eexists. rewrite H0. split; [done|]. split; [done|]. split; cbn; fold c.
    + apply Z.mod_pos_bound. lia.
    + rewrite Zplus_mod_idemp_l. f_equal. lia.
    + lia.
    + intros i y Hy. specialize (Hi (S i) y Hy).
      rewrite Zplus_mod_idemp_l. rewrite <- Hi. do 2 f_equal. lia.
Qed.

Lemma size_rep q l : queue_rep q l -> size q = Z.of_nat (length l).
Proof.
  intros [Hh Ht Hr _]. unfold size. rewrite Ht. set (n := Z.of_nat (length l)) in *.
  destruct (decide (head_ q + n < capacity_ q)).
  - rewrite Z.mod_small by lia. zcases; lia.
  - replace ((head_ q + n) mod capacity_ q) with (head_ q + n - capacity_ q); [zcases; lia|].
    rewrite <- (Z.mod_small (head_ q + n - capacity_ q) (capacity_ q)) by lia.
    replace (head_ q + n - capacity_ q) with (head_ q + n + (-1) * capacity_ q) by lia.
    by rewrite Z.mod_add by lia.
Qed.

Lemma drain_rep {St} (body : T -> St -> St) l : forall n q s,
  queue_rep q l -> (length l < n)%nat ->
  exists q', drain n body q s = (q', foldl (fun s x => body x s) s l) /\ queue_rep q' [].
Proof.
  induction l as [|x l IH]; intros [|n] q s Hq Hn; cbn [length] in *; try lia; cbn [drain].
  - rewrite (pop_rep _ _ Hq). eauto.
  - destruct (pop_rep _ _ Hq) as (q' & -> & _ & Hq'). apply IH; [done|lia].
Qed.
End Spsc.

Arguments SpscQueue : clear implicits.
Arguments mkSpsc {_} _ _ _ _.
Arguments capacity_ {_} _.
Arguments buffer_ {_} _.
Arguments head_ {_} _.
Arguments tail_ {_} _.

(** ** Two threads *)

Section Concurrent.
Context {T : Type} (T_zero : T).
Variable capacity : nat.

(** Where a thread is inside its operation.  [PWrite] is before the store to
    the slot, [PPublish] before the release store of [tail_]; [CRead] is
    before the load of the slot, [CPublish] before the store of [head_]. *)
Inductive producer_pc := PIdle | PWrite (item : T) | PPublish (item : T).
Inductive consumer_pc := CIdle | CRead | CPublish (item : T).

(** The shared memory keeps every value an index has had, oldest first; a
    thread has seen the other's index up to a position of that history and,
    loads of one location being coherent, never reads before it. *)
Record memory := mkMemory {
  m_buffer : gmap nat T;
  m_heads : list nat;
  m_tails : list nat;
  m_seen_head : nat;            (* by the producer *)
  m_seen_tail : nat;            (* by the consumer *)
  m_producer : producer_pc;
  m_consumer : consumer_pc;
  m_pushed : list T;            (* the items of the pushes that returned true *)
  m_popped : list T }.          (* the items of the pops that returned true *)

Definition memory_new : memory := mkMemory ∅ [0%nat] [0%nat] 0 0 PIdle CIdle [] [].

(** The index a thread owns: the newest value, since only it stores there. *)
Definition own_index (h : list nat) : nat := default 0%nat (last h).

Definition slot (m : memory) (i : nat) : T := default T_zero (m_buffer m !! i).

Definition next_index (i : nat) : nat := ((i + 1) mod capacity)%nat.

(** One operation inside [push(item)], with what the call returns when it ends
    there. *)
Inductive push_step (item : T) (m : memory) : option bool -> memory -> Prop :=
| push_full v hd :          (* next_tail == head_: return false *)
    m_producer m = PIdle -> (m_seen_head m <= v)%nat -> m_heads m !! v = Some hd ->
    next_index (own_index (m_tails m)) = hd ->
    push_step item m (Some false)
      (mkMemory (m_buffer m) (m_heads m) (m_tails m) v (m_seen_tail m)
              PIdle (m_consumer m) (m_pushed m) (m_popped m))
| push_start v hd :         (* there is room *)
    m_producer m = PIdle -> (m_seen_head m <= v)%nat -> m_heads m !! v = Some hd ->
    next_index (own_index (m_tails m)) <> hd ->
    push_step item m None
      (mkMemory (m_buffer m) (m_heads m) (m_tails m) v (m_seen_tail m)
              (PWrite item) (m_consumer m) (m_pushed m) (m_popped m))
| push_write :              (* buffer_[current_tail] = item *)
    m_producer m = PWrite item ->
    push_step item m None
      (mkMemory (<[own_index (m_tails m) := item]> (m_buffer m)) (m_heads m) (m_tails m)
              (m_seen_head m) (m_seen_tail m) (PPublish item) (m_consumer m)
              (m_pushed m) (m_popped m))
| push_publish :            (* tail_.store(next_tail, release); return true *)
    m_producer m = PPublish item ->
    push_step item m (Some true)
      (mkMemory (m_buffer m) (m_heads m)
              (m_tails m ++ [next_index (own_index (m_tails m))]) (m_seen_head m)
              (m_seen_tail m) PIdle (m_consumer m) (m_pushed m ++ [item]) (m_popped m)).

(** One operation inside [pop(item)]: the result of a call is [None] when it
    returns false. *)
Inductive pop_step (m : memory) : option (option T) -> memory -> Prop :=
| pop_empty v tl :          (* current_head == tail_: return false *)
    m_consumer m = CIdle -> (m_seen_tail m <= v)%nat -> m_tails m !! v = Some tl ->
    own_index (m_heads m) = tl ->
    pop_step m (Some None)
      (mkMemory (m_buffer m) (m_heads m) (m_tails m) (m_seen_head m) v
              (m_producer m) CIdle (m_pushed m) (m_popped m))
| pop_start v tl :
    m_consumer m = CIdle -> (m_seen_tail m <= v)%nat -> m_tails m !! v = Some tl ->
    own_index (m_heads m) <> tl ->
    pop_step m None
      (mkMemory (m_buffer m) (m_heads m) (m_tails m) (m_seen_head m) v
              (m_producer m) CRead (m_pushed m) (m_popped m))
| pop_read :                (* item = buffer_[current_head] *)
    m_consumer m = CRead ->
    pop_step m None
      (mkMemory (m_buffer m) (m_heads m) (m_tails m) (m_seen_head m) (m_seen_tail m)
              (m_producer m) (CPublish (slot m (own_index (m_heads m))))
              (m_pushed m) (m_popped m))
| pop_publish item :        (* head_.store(.., release); return true *)
    m_consumer m = CPublish item ->
    pop_step m (Some (Some item))
      (mkMemory (m_buffer m) (m_heads m ++ [next_index (own_index (m_heads m))])
              (m_tails m) (m_seen_head m) (m_seen_tail m) (m_producer m) CIdle
              (m_pushed m) (m_popped m ++ [item])).

(** One operation of either thread, with any items. *)
Inductive step (m m' : memory) : Prop :=
| pushing item r : push_step item m r m' -> step m m'
| popping r : pop_step m r m' -> step m m'.

Definition reachable : memory -> Prop := rtc step memory_new.

(** *** The invariant *)

(** [l] is the history of an index that was advanced [n] times. *)
Definition counts (l : list nat) (n : nat) : Prop :=
  length l = S n /\ forall i v, l !! i = Some v -> v = (i mod capacity)%nat.

Record inv (m : memory) : Prop := {
  i_heads : counts (m_heads m) (length (m_popped m));
  i_tails : counts (m_tails m) (length (m_pushed m));
  i_seen_head : (m_seen_head m <= length (m_popped m))%nat;
  i_seen_tail : (length (m_popped m) <= m_seen_tail m <= length (m_pushed m))%nat;
  i_room : (length (m_pushed m) < m_seen_head m + capacity)%nat;
  i_items : forall i x, (length (m_popped m) <= i)%nat -> m_pushed m !! i = Some x ->
    slot m (i mod capacity) = x;
  i_popped : m_popped m = take (length (m_popped m)) (m_pushed m);
  i_producer : match m_producer m with
    | PIdle => True
    | PWrite _ => (length (m_pushed m) + 1 < m_seen_head m + capacity)%nat
    | PPublish x => (length (m_pushed m) + 1 < m_seen_head m + capacity)%nat /\
        slot m (length (m_pushed m) mod capacity) = x
    end;
  i_consumer : match m_consumer m with
    | CIdle => True
    | CRead => (length (m_popped m) < m_seen_tail m)%nat
    | CPublish x => (length (m_popped m) < m_seen_tail m)%nat /\
        m_pushed m !! length (m_popped m) = Some x
    end }.

Lemma counts_own l n : counts l n -> own_index l = (n mod capacity)%nat.
Proof.
  intros [Hl Hv]. unfold own_index. rewrite last_lookup, Hl. cbn [pred].
  destruct (lookup_lt_is_Some_2 l n ltac:(lia)) as [v Hn]. rewrite Hn. by apply Hv.
Qed.

Lemma next_index_mod n : (0 < capacity)%nat -> next_index (n mod capacity) = (S n mod capacity)%nat.
Proof.
  intros. unfold next_index. rewrite Nat.Div0.add_mod_idemp_l. f_equal. lia.
Qed.

Lemma counts_snoc l n : (0 < capacity)%nat -> counts l n ->
  counts (l ++ [next_index (own_index l)]) (S n).
Proof.
  intros Hc H. rewrite (counts_own _ _ H), next_index_mod by done. destruct H as [Hl Hv].
  split; [rewrite length_app; cbn; lia|].
  intros i v [Hi|[Hi Hx]]%lookup_app_Some; [by apply Hv|].
  apply list_lookup_singleton_Some in Hx as [? <-]. f_equal. lia.
Qed.

Lemma nat_mod_inj a b : (a mod capacity)%nat = (b mod capacity)%nat ->
  (a <= b < a + capacity)%nat -> a = b.
Proof.
  intros Heq Hab. pose proof (Nat.div_mod_eq a capacity). pose proof (Nat.div_mod_eq b capacity).
  assert (b - a = capacity * (b / capacity - a / capacity))%nat by nia. nia.
Qed.

Lemma inv_new : (0 < capacity)%nat -> inv memory_new.
Proof.
  intros Hc. assert (counts [0%nat] 0).
  { split; [done|]. intros [|i] v; cbn; [|done]. intros [= <-]. by rewrite Nat.Div0.mod_0_l. }
  split; cbn; try done; try lia.
Qed.

Lemma step_inv m m' : (0 < capacity)%nat -> inv m -> step m m' -> inv m'.
Proof.
  intros Hc [Hh Ht Hsh Hst Hroom Hitems Hpop Hprod Hcons] Hstep.
  destruct Hstep as [item r [v hd Hp Hv Hhd _|v hd Hp Hv Hhd Hne|Hp|Hp]
    |r [v tl Hp Hv Htl _|v tl Hp Hv Htl Hne|Hp|item Hp]]; rewrite Hp in *.
  - assert (v < length (m_heads m))%nat by (by eapply lookup_lt_Some).
    rewrite (proj1 Hh) in *. split; cbn; try done; lia.
  - assert (v < length (m_heads m))%nat by (by eapply lookup_lt_Some).
    rewrite (proj1 Hh) in *. split; cbn; try done; try lia.
    rewrite (counts_own _ _ Ht), next_index_mod, (proj2 Hh _ _ Hhd) in Hne by done.
    destruct (decide (length (m_pushed m) + 1 = v + capacity)%nat) as [E|]; [|lia].
    destruct Hne. replace (S (length (m_pushed m))) with (v + 1 * capacity)%nat by lia.
    by rewrite Nat.Div0.mod_add.
  - rewrite (counts_own _ _ Ht) in *. split; cbn; try done.
    + intros i x Hi Hx. rewrite <- (Hitems i x Hi Hx). unfold slot; cbn.
      apply lookup_lt_Some in Hx. rewrite lookup_insert_ne; [done|].
      intros E. symmetry in E. apply nat_mod_inj in E; lia.
    + split; [done|]. unfold slot; cbn. by rewrite lookup_insert_eq.
  - destruct Hprod as [Hp1 Hp2]. split; cbn; rewrite ?length_app; cbn [length]; try done; try lia.
    + rewrite Nat.add_1_r. by apply counts_snoc.
    + intros i x Hi [Hx|[Hge Hx]]%lookup_app_Some; [by apply Hitems|].
      apply list_lookup_singleton_Some in Hx as [? <-].
      replace i with (length (m_pushed m)) by lia. done.
    + rewrite take_app_le by lia. done.
    + destruct (m_consumer m) as [| |x]; [done|done|]. destruct Hcons. split; [done|].
      by apply lookup_app_l_Some.
  - assert (v < length (m_tails m))%nat by (by eapply lookup_lt_Some).
    rewrite (proj1 Ht) in *. split; cbn; try done; lia.
  - assert (v < length (m_tails m))%nat by (by eapply lookup_lt_Some).
    rewrite (proj1 Ht) in *. split; cbn; try done; try lia.
    rewrite (counts_own _ _ Hh), (proj2 Ht _ _ Htl) in Hne.
    destruct (decide (v = length (m_popped m))) as [->|]; [done|lia].
  - split; cbn; try done. rewrite (counts_own _ _ Hh). split; [done|].
    destruct (lookup_lt_is_Some_2 (m_pushed m) (length (m_popped m)) ltac:(lia)) as [x Hx].
    rewrite Hx. f_equal. symmetry. by apply Hitems.
  - destruct Hcons as [Hc1 Hc2]. split; cbn; rewrite ?length_app; cbn [length]; try done; try lia.
    + rewrite Nat.add_1_r. by apply counts_snoc.
    + intros i x Hi Hx. apply Hitems; [lia|done].
    + rewrite Hpop at 1. rewrite Nat.add_1_r. by rewrite (take_S_r _ _ item).
Qed.

Lemma reachable_inv m : (0 < capacity)%nat -> reachable m -> inv m.
Proof.
  intros Hc Hr. pose proof (inv_new Hc) as Hi. unfold reachable in Hr. revert Hi.
  induction Hr as [|x y z Hxy _ IH]; intros Hi; [done|]. apply IH. by eapply step_inv.
Qed.
End Concurrent.

(** ** Claims *)

Inductive queue_op (T : Type) := OpPush (x : T) | OpPop | OpSize.
Arguments OpPush {_} _.
Arguments OpPop {_}.
Arguments OpSize {_}.

Inductive queue_ret (T : Type) := RetPush (ok : bool) | RetPop (x : option T) | RetSize (n : Z).
Arguments RetPush {_} _.
Arguments RetPop {_} _.
Arguments RetSize {_} _.

(** A client on one thread, and the bounded list it should see. *)
Fixpoint ring_run {T} (z : T) (q : SpscQueue T) (ops : list (queue_op T)) : list (queue_ret T) :=
  match ops with
  | [] => []
  | OpPush x :: ops' => let '(ok, q') := push q x in RetPush ok :: ring_run z q' ops'
  | OpPop :: ops' => let '(x, q') := pop z q in RetPop x :: ring_run z q' ops'
  | OpSize :: ops' => RetSize (size q) :: ring_run z q ops'
  end.

Fixpoint list_run {T} (capacity : Z) (l : list T) (ops : list (queue_op T)) : list (queue_ret T) :=
  match ops with
  | [] => []
  | OpPush x :: ops' =>
      if Z.of_nat (length l) =? capacity - 1 then RetPush false :: list_run capacity l ops'
      else RetPush true :: list_run capacity (l ++ [x]) ops'
  | OpPop :: ops' =>
      match l with
      | [] => RetPop None :: list_run capacity [] ops'
      | x :: l' => RetPop (Some x) :: list_run capacity l' ops'
      end
  | OpSize :: ops' => RetSize (Z.of_nat (length l)) :: list_run capacity l ops'
  end.

Lemma ring_run_list {T} (z : T) ops : forall q l, queue_rep z q l ->
  ring_run z q ops = list_run (capacity_ q) l ops.
Proof.
  induction ops as [|[x| |] ops IH]; intros q l Hq; cbn [ring_run list_run]; [done|..].
  - pose proof (push_rep z q l x Hq) as Hp. destruct (_ =? _).
    + rewrite Hp. by rewrite (IH _ _ Hq).
    + destruct Hp as (q' & -> & Hc & Hq'). by rewrite (IH _ _ Hq'), Hc.
  - pose proof (pop_rep z q l Hq) as Hp. destruct l as [|x l].
    + rewrite Hp. by rewrite (IH _ _ Hq).
    + destruct Hp as (q' & -> & Hc & Hq'). by rewrite (IH _ _ Hq'), Hc.
  - rewrite (size_rep z q l Hq). by rewrite (IH _ _ Hq).
Qed.

(** C27. On one thread the ring of [capacity] slots is a FIFO queue bounded by
    [capacity - 1]: any sequence of [push], [pop] and [size] answers as the
    list does, [push] failing exactly when the list is full. *)
Theorem ring_is_bounded_queue {T} (z : T) (capacity : Z) (ops : list (queue_op T)) :
  0 < capacity ->
  ring_run z (SpscQueue_new capacity) ops = list_run capacity [] ops.
Proof. intros Hc. by apply (ring_run_list z ops (SpscQueue_new capacity) []), queue_rep_new. Qed.

Lemma ring_is_bounded_queue_witness :
  ring_run 0 (SpscQueue_new 3) [OpPush 7; OpPush 8; OpPush 9; OpSize; OpPop; OpPush 9; OpPop; OpPop; OpPop] =
  [RetPush true; RetPush true; RetPush false; RetSize 2; RetPop (Some 7); RetPush true;
   RetPop (Some 8); RetPop (Some 9); RetPop None].
Proof. exact (ring_is_bounded_queue 0 3 _ eq_refl). Defined.

(** Two threads, any interleaving and any admissible stale read of the other
    thread's index: what the consumer has popped is a prefix of what the
    producer has pushed, in order; the items in flight are fewer than the
    capacity; and the item a pop is about to return is the next one pushed. *)
Lemma concurrent_fifo {T} (z : T) (capacity : nat) (m : memory) :
  (0 < capacity)%nat -> reachable (T := T) z capacity m ->
  m_popped m `prefix_of` m_pushed m /\
  (length (m_pushed m) < length (m_popped m) + capacity)%nat /\
  forall x, m_consumer m = CPublish x -> m_pushed m !! length (m_popped m) = Some x.
Proof.
  intros Hc Hr. destruct (reachable_inv z capacity m Hc Hr) as [_ _ H1 _ H2 _ H3 _ H4].
  split_and!; [|lia|].
  - rewrite H3. exists (drop (length (m_popped m)) (m_pushed m)). by rewrite take_drop.
  - intros x E. rewrite E in H4. apply H4.
Qed.

(** No data race on a slot. *)
Lemma concurrent_race_free {T} (z : T) (capacity : nat) (m : memory) (item : T) :
  (0 < capacity)%nat -> reachable (T := T) z capacity m ->
  m_producer m = PWrite item -> m_consumer m = CRead ->
  own_index (m_tails m) <> own_index (m_heads m) /\ (length (m_popped m) < m_seen_tail m)%nat.
Proof.
  intros Hc Hr Hp Hq. destruct (reachable_inv z capacity m Hc Hr) as [Hh Ht H1 H2 H3 _ _ H4 H5].
  rewrite Hp in H4. rewrite Hq in H5. split; [|done].
  rewrite (counts_own _ _ _ Hh), (counts_own _ _ _ Ht). intros E. symmetry in E.
  apply nat_mod_inj in E; lia.
Qed.

(** C17. Two threads, any interleaving and any admissible stale read of the
    other thread's index: what the consumer has popped is a prefix of what the
    producer has pushed, in order, nothing lost, duplicated or invented; the
    items in flight are fewer than the capacity; the item a pop is about to
    return is the next one pushed; and there is no data race on a slot: when
    the producer is about to write one and the consumer about to read one, the
    slots differ, and the item the consumer is about to read was published
    before the value of [tail_] the consumer acquired. *)
Theorem concurrent_queue {T} (z : T) (capacity : nat) (m : memory) :
  (0 < capacity)%nat -> reachable (T := T) z capacity m ->
  m_popped m `prefix_of` m_pushed m /\
  (length (m_pushed m) < length (m_popped m) + capacity)%nat /\
  (forall x, m_consumer m = CPublish x -> m_pushed m !! length (m_popped m) = Some x) /\
  (forall item, m_producer m = PWrite item -> m_consumer m = CRead ->
    own_index (m_tails m) <> own_index (m_heads m) /\ (length (m_popped m) < m_seen_tail m)%nat).
Proof.
  intros Hc Hr. destruct (concurrent_fifo z capacity m Hc Hr) as (H1 & H2 & H3).
  split_and!; [done..|]. intros item. by apply (concurrent_race_free z capacity).
Qed.

(** Capacity 3: one item pushed, a second push between its check and its
    write while a pop is between its check and its read. *)
Definition example_memory : memory (T := Z) :=
  mkMemory {[0%nat := 7]} [0%nat] [0%nat; 1%nat] 0 1 (PWrite 8) CRead [7] [].

Lemma example_reachable : reachable 0 3 example_memory.
Proof.
  eapply rtc_l; [eapply (pushing 0 3 memory_new), (push_start 3 7 memory_new 0 0); done|].
  eapply rtc_l; [eapply (pushing 0 3), (push_write 3 7); done|].
  eapply rtc_l; [eapply (pushing 0 3), (push_publish 3 7); done|].
  eapply rtc_l; [eapply (pushing 0 3), (push_start 3 8 _ 0 0); done|].
  eapply rtc_l; [eapply (popping 0 3), (pop_start 0 3 _ 1 1); [done|cbn; lia|done|done]|].
  apply rtc_refl.
Qed.

Lemma concurrent_fifo_witness :
  m_popped example_memory `prefix_of` m_pushed example_memory.
Proof. exact (proj1 (concurrent_fifo 0 3 example_memory ltac:(lia) example_reachable)). Defined.

Lemma concurrent_race_free_witness :
  own_index (m_tails example_memory) <> own_index (m_heads example_memory) /\ (0 < 1)%nat.
Proof.
  exact (concurrent_race_free 0 3 example_memory 8 ltac:(lia) example_reachable eq_refl eq_refl).
Defined.

Lemma concurrent_queue_witness :
  m_popped example_memory `prefix_of` m_pushed example_memory /\
  own_index (m_tails example_memory) <> own_index (m_heads example_memory).
Proof.
  destruct (concurrent_queue 0 3 example_memory ltac:(lia) example_reachable) as (H1 & _ & _ & H2).
  split; [exact H1|exact (proj1 (H2 8 eq_refl eq_refl))].
Defined.
