(* ===== verification/SpscTransfer.v ===== *)
(** * A producer that retries and a consumer that waits: spsc_queue.h

    What a client of the queue does that may lose nothing: the producer repeats
    each [push] until it succeeds, the consumer repeats [pop] until it has as
    many items.  The threaded tests of test_spsc_queue.cpp are of this form.
    The calls are the steps of [SpscQueue], with its stale reads of the
    indices; what the threads do with an item after a call is a step of its
    own. *)

From S2P Require Import Prelude Threads SpscQueue.

Section Transfer.
Context {T : Type} (T_zero : T).
Variable capacity : nat.
Variable wanted : nat.     (* the items the consumer waits for *)

Record transfer := mkTransfer {
  t_queue : memory (T := T);
  t_items : list T;          (* still to be pushed, the current one included *)
  t_noting : option T;       (* pushed, before [sum_sent.fetch_add] *)
  t_sent : list T;
  t_got : option T;          (* popped, before it is stored *)
  t_received : list T }.

(** The loops of the two threads.  The label says that the step is the turn of a
    loop that waits. *)
Inductive transfer_step : bool -> transfer -> transfer -> Prop :=
| turn_push m m' x xs r sent got rcv :        (* while (!q.push(x)) {} *)
    push_step capacity x m r m' ->
    transfer_step (match r with Some false => true | _ => false end)
      (mkTransfer m (x :: xs) None sent got rcv)
      (match r with
       | Some true => mkTransfer m' xs (Some x) sent got rcv
       | _ => mkTransfer m' (x :: xs) None sent got rcv
       end)
| note_sent m xs x sent got rcv :
    transfer_step false (mkTransfer m xs (Some x) sent got rcv) (mkTransfer m xs None (sent ++ [x]) got rcv)
| turn_pop m m' xs noting sent rcv r :        (* while (received < n) if (q.pop(v)) *)
    (length rcv < wanted)%nat -> pop_step T_zero capacity m r m' ->
    transfer_step (match r with Some None => true | _ => false end)
      (mkTransfer m xs noting sent None rcv)
      (mkTransfer m' xs noting sent (match r with Some o => o | None => None end) rcv)
| note_received m xs noting sent v rcv :
    transfer_step false (mkTransfer m xs noting sent (Some v) rcv) (mkTransfer m xs noting sent None (rcv ++ [v])).

Definition transfer_any (s s' : transfer) : Prop := exists b, transfer_step b s s'.

Definition transfer_begin (items : list T) : transfer := mkTransfer memory_new items None [] None [].

(** Some turns of waiting, then a step that is not one. *)
Definition transfer_moves (s s' : transfer) : Prop :=
  exists s1, rtc (transfer_step true) s s1 /\ transfer_step false s1 s'.

(** ** The invariant *)

Definition pushing_item (p : producer_pc (T := T)) : option T :=
  match p with PIdle => None | PWrite x | PPublish x => Some x end.

Record transfer_inv (items : list T) (s : transfer) : Prop := {
  ti_queue : inv T_zero capacity (t_queue s);
  ti_pushed : m_pushed (t_queue s) ++ t_items s = items;
  ti_sent : m_pushed (t_queue s) = t_sent s ++ option_list (t_noting s);
  ti_popped : m_popped (t_queue s) = t_received s ++ option_list (t_got s);
  ti_producer : forall x, pushing_item (m_producer (t_queue s)) = Some x ->
    t_noting s = None /\ exists xs, t_items s = x :: xs;
  ti_consumer : m_consumer (t_queue s) <> CIdle -> t_got s = None /\ (length (t_received s) < wanted)%nat;
  ti_wanted : (length (t_received s) + length (option_list (t_got s)) <= wanted)%nat }.

Lemma transfer_begin_inv items : (0 < capacity)%nat -> transfer_inv items (transfer_begin items).
Proof. intros Hc. split; cbn; try done; [by apply inv_new|lia]. Qed.

Lemma transfer_step_inv items b s s' : (0 < capacity)%nat ->
  transfer_inv items s -> transfer_step b s s' -> transfer_inv items s'.
Proof.
  intros Hc [Hq Hp Hs Hr Hprod Hcons Hw] Hstep.
  destruct Hstep as [m m' x xs r sent got rcv Hm|m xs x sent got rcv|m m' xs noting sent rcv r Hlt Hm|m xs noting sent v rcv];
    cbn [t_queue t_items t_noting t_sent t_got t_received option_list] in *.
  - assert (Hq' : inv T_zero capacity m') by (eapply step_inv; [done|exact Hq|by eapply pushing]).
    rewrite app_nil_r in Hs.
    destruct Hm as [v hd Hi Hv Hhd _|v hd Hi Hv Hhd Hne|Hi|Hi]; split; cbn in *; try done;
      rewrite ?app_nil_r; try done; try (intros y [= <-]; split; [done|by exists xs]).
    + by rewrite <- app_assoc.
    + by rewrite Hs.
  - split; cbn; try done; [by rewrite app_nil_r|]. intros y Hy. by destruct (Hprod y Hy).
  - assert (Hq' : inv T_zero capacity m') by (eapply step_inv; [done|exact Hq|by eapply popping]).
    rewrite app_nil_r in Hr.
    destruct Hm as [v tl Hi Hv Htl _|v tl Hi Hv Htl Hne|Hi|item Hi]; split; cbn in *; try done;
      rewrite ?app_nil_r; try done; try lia. by rewrite Hr.
  - rewrite Nat.add_1_r in Hw. split; cbn; rewrite ?app_nil_r, ?length_app; cbn; try done; try lia.
    intros H. by destruct (Hcons H).
Qed.

Lemma transfer_reachable_inv items s s' : (0 < capacity)%nat -> rtc transfer_any s s' ->
  transfer_inv items s -> transfer_inv items s'.
Proof. intros Hc. induction 1 as [|s1 s2 s3 [b H1] _ IH]; [done|]. intros Hi. by eapply IH, transfer_step_inv. Qed.

(** ** Progress *)

Definition pushing_work (p : producer_pc (T := T)) : nat :=
  match p with PIdle => 0 | PWrite _ => 1 | PPublish _ => 2 end.
Definition popping_work (p : consumer_pc (T := T)) : nat :=
  match p with CIdle => 0 | CRead => 1 | CPublish _ => 2 end.

(** Four steps an item and a thread. *)
Definition transfer_work (s : transfer) : nat :=
  (4 * length (t_items s) + length (option_list (t_noting s)) - pushing_work (m_producer (t_queue s)) +
   (4 * (wanted - length (t_received s)) - 3 * length (option_list (t_got s)) - popping_work (m_consumer (t_queue s))))%nat.

Lemma transfer_progress items b s s' : transfer_inv items s -> transfer_step b s s' ->
  if b then transfer_work s' = transfer_work s else (transfer_work s' < transfer_work s)%nat.
Proof.
  intros [Hq Hp Hs Hr Hprod Hcons Hw] Hstep.
  destruct Hstep as [m m' x xs r sent got rcv Hm|m xs x sent got rcv|m m' xs noting sent rcv r Hlt Hm|m xs noting sent v rcv];
    unfold transfer_work; cbn [t_queue t_items t_noting t_sent t_got t_received option_list length] in *.
  - destruct Hm as [v hd Hi Hv Hhd _|v hd Hi Hv Hhd Hne|Hi|Hi]; rewrite Hi; cbn; lia.
  - destruct (m_producer m) as [|y|y] eqn:E; [cbn; lia|..]; by destruct (Hprod y eq_refl).
  - destruct Hm as [v tl Hi Hv Htl _|v tl Hi Hv Htl Hne|Hi|item Hi]; rewrite Hi; cbn; lia.
  - destruct (m_consumer m) as [| |y] eqn:E; [rewrite length_app; cbn in *; lia|..]; by destruct (Hcons ltac:(done)).
Qed.

Lemma waiting_work items s s' : (0 < capacity)%nat -> rtc (transfer_step true) s s' -> transfer_inv items s ->
  transfer_inv items s' /\ transfer_work s' = transfer_work s.
Proof.
  intros Hc. induction 1 as [|s1 s2 s3 H1 _ IH]; [done|]. intros Hi.
  destruct (IH (transfer_step_inv _ _ _ _ Hc Hi H1)) as [H2 H3]. split; [done|].
  rewrite H3. exact (transfer_progress _ _ _ _ Hi H1).
Qed.

Lemma transfer_ends items s : (0 < capacity)%nat -> transfer_inv items s -> sn transfer_moves s.
Proof.
  intros Hc. apply (measure_sn transfer_moves (transfer_inv items) transfer_work).
  intros x y Hx (z & Hw & Hm). destruct (waiting_work _ _ _ Hc Hw Hx) as [Hz Ew].
  split; [by eapply transfer_step_inv|]. rewrite <- Ew. exact (transfer_progress _ _ _ _ Hz Hm).
Qed.

(** The consumer can take a step that is no waiting when there is an item it
    wants, or when it is inside a call. *)
Lemma consumer_can_move items s : (0 < capacity)%nat -> transfer_inv items s -> t_got s = None ->
  m_consumer (t_queue s) <> CIdle \/
    (length (t_received s) < wanted)%nat /\ (length (m_popped (t_queue s)) < length (m_pushed (t_queue s)))%nat ->
  exists s', transfer_step false s s'.
Proof.
  intros Hc [Hq Hp Hs Hr Hprod Hcons Hw] Hg Hor.
  destruct s as [m xs noting sent got rcv]; cbn [t_queue t_items t_noting t_sent t_got t_received] in *. subst got.
  assert (Hlt : (length rcv < wanted)%nat) by (destruct Hor as [H|[H _]]; [by apply Hcons|done]).
  destruct (m_consumer m) as [| |v] eqn:E.
  - destruct Hor as [?|[_ Hn]]; [done|]. destruct Hq as [Hh Ht Hsh Hst Hroom _ _ _ _].
    destruct (lookup_lt_is_Some_2 (m_tails m) (length (m_pushed m))) as [tl Htl]; [rewrite (proj1 Ht); lia|].
    eexists. refine (turn_pop m _ xs noting sent rcv None Hlt _).
    apply (pop_start _ _ m (length (m_pushed m)) tl); [done|lia|done|].
    rewrite (counts_own _ _ _ Hh), (proj2 Ht _ _ Htl). intros Heq.
    apply nat_mod_inj in Heq; lia.
  - eexists. refine (turn_pop m _ xs noting sent rcv None Hlt _). by apply pop_read.
  - eexists. refine (turn_pop m _ xs noting sent rcv (Some (Some v)) Hlt _). by apply pop_publish.
Qed.

Lemma producer_can_move items s x xs : (0 < capacity)%nat -> transfer_inv items s ->
  t_noting s = None -> t_items s = x :: xs ->
  (length (m_pushed (t_queue s)) + 1 < length (m_popped (t_queue s)) + capacity)%nat ->
  exists s', transfer_step false s s'.
Proof.
  intros Hc [Hq Hp Hs Hr Hprod Hcons Hw] Hn Hx Hroom.
  destruct s as [m its noting sent got rcv]; cbn [t_queue t_items t_noting t_sent t_got t_received] in *. subst noting its.
  destruct (m_producer m) as [|y|y] eqn:E.
  - destruct Hq as [Hh Ht Hsh Hst _ _ _ _ _].
    destruct (lookup_lt_is_Some_2 (m_heads m) (length (m_popped m))) as [hd Hhd]; [rewrite (proj1 Hh); lia|].
    eexists. refine (turn_push m _ x xs None sent got rcv _).
    apply (push_start _ _ m (length (m_popped m)) hd); [done|lia|done|].
    rewrite (counts_own _ _ _ Ht), next_index_mod, (proj2 Hh _ _ Hhd) by done. intros Heq. symmetry in Heq.
    apply nat_mod_inj in Heq; lia.
  - destruct (Hprod y eq_refl) as [_ [xs' [= -> ->]]].
    eexists. refine (turn_push m _ y xs' None sent got rcv _). by apply push_write.
  - destruct (Hprod y eq_refl) as [_ [xs' [= -> ->]]].
    eexists. refine (turn_push m _ y xs' (Some true) sent got rcv _). by apply push_publish.
Qed.

(** Both threads have left their loops. *)
Definition transfer_joined (s : transfer) : Prop :=
  t_items s = [] /\ t_noting s = None /\ t_got s = None /\ length (t_received s) = wanted.

Lemma joined_exact items s : wanted = length items -> transfer_inv items s -> transfer_joined s ->
  t_sent s = items /\ t_received s = items.
Proof.
  intros Hwn [Hq Hp Hs Hr Hprod Hcons Hw] (Hi & Hn & Hg & Hl).
  rewrite Hn, app_nil_r in Hs. rewrite Hg, app_nil_r in Hr. rewrite Hi, app_nil_r in Hp.
  split; [by rewrite <- Hs|]. rewrite <- Hr, (i_popped _ _ _ Hq), Hp, take_ge; [done|]. rewrite Hr. lia.
Qed.

(** With room for an item, and as many items as the consumer waits for, the
    threads only stop when they are done. *)
Lemma transfer_done items s : (2 <= capacity)%nat -> wanted = length items -> transfer_inv items s ->
  (forall s', ~ transfer_step false s s') -> transfer_joined s.
Proof.
  intros Hc Hwn Hi Hnf. pose proof Hi as [Hq Hp Hs Hr Hprod Hcons Hw].
  assert (Hn : t_noting s = None).
  { destruct s as [m xs [x|] sent got rcv]; [|done]. exfalso. eapply Hnf, note_sent. }
  assert (Hg : t_got s = None).
  { destruct s as [m xs noting sent [v|] rcv]; [|done]. exfalso. eapply Hnf, note_received. }
  rewrite Hn, app_nil_r in Hs. rewrite Hg, app_nil_r in Hr.
  assert (Hlen : (length (m_pushed (t_queue s)) + length (t_items s) = wanted)%nat).
  { rewrite Hwn, <- Hp. by rewrite length_app. }
  assert (Hle : (length (m_popped (t_queue s)) <= length (m_pushed (t_queue s)))%nat) by (pose proof (i_seen_tail _ _ _ Hq); lia).
  assert (Hidle : length (m_popped (t_queue s)) = length (m_pushed (t_queue s))).
  { destruct (decide (length (m_popped (t_queue s)) = length (m_pushed (t_queue s)))); [done|exfalso].
    destruct (consumer_can_move items s ltac:(lia) Hi Hg) as [s' H]; [|by eapply Hnf].
    right. rewrite <- Hr. lia. }
  assert (Hnil : t_items s = []).
  { destruct (t_items s) as [|x xs] eqn:E; [done|exfalso].
    destruct (producer_can_move items s x xs ltac:(lia) Hi Hn E ltac:(lia)) as [s' H]. by eapply Hnf. }
  split_and!; [done..|]. rewrite Hnil in Hlen. cbn in Hlen. rewrite <- Hr. lia.
Qed.
End Transfer.

(** The tests look at what the threads leave when both have returned. *)
Lemma transfer_joined_exact {T} (z : T) capacity items s : (0 < capacity)%nat ->
  rtc (transfer_any z capacity (length items)) (transfer_begin items) s -> transfer_joined (length items) s ->
  t_sent s = items /\ t_received s = items.
Proof.
  intros Hc Hs Hj. eapply joined_exact; [reflexivity| |exact Hj].
  eapply transfer_reachable_inv; [|exact Hs|by apply transfer_begin_inv]; done.
Qed.

(** ** Claims *)

(** C18. A producer that repeats each push until it succeeds and a consumer that pops
    until it has all the items transfer them exactly, for any queue of at
    least two slots, in every interleaving and with every admissible stale read
    of the indices: at any time what has been received is a prefix of the
    items; only turns of the two waiting loops can go on for ever; when nothing
    else is left to do, both threads have left their loops; and then all items
    have been sent, and received in order. *)
Theorem transfer_exact {T} (z : T) (capacity : nat) (items : list T) (s : transfer) : (2 <= capacity)%nat ->
  rtc (transfer_any z capacity (length items)) (transfer_begin items) s ->
  t_received s `prefix_of` items /\ t_sent s `prefix_of` items /\
  sn (transfer_moves z capacity (length items)) s /\
  (nf (transfer_moves z capacity (length items)) s -> transfer_joined (length items) s) /\
  (transfer_joined (length items) s -> t_sent s = items /\ t_received s = items).
Proof.
  intros Hc Hs. assert (Hi : transfer_inv z capacity (length items) items s).
  { eapply transfer_reachable_inv; [|exact Hs|apply transfer_begin_inv]; lia. }
  split_and!.
  - destruct Hi as [Hq Hp _ Hr _ _ _]. rewrite (i_popped _ _ _ Hq) in Hr.
    transitivity (t_received s ++ option_list (t_got s)); [by eexists|]. rewrite <- Hr.
    etrans; [apply prefix_take|]. rewrite <- Hp. by eexists.
  - destruct Hi as [_ Hp Hs' _ _ _ _]. transitivity (t_sent s ++ option_list (t_noting s)); [by eexists|].
    rewrite <- Hs', <- Hp. by eexists.
  - apply (transfer_ends z capacity (length items) items); [lia|done].
  - intros Hnf. apply (transfer_done z capacity (length items) items s Hc eq_refl Hi).
    intros s' Hm. apply Hnf. exists s'. exists s. split; [apply rtc_refl|done].
  - intros Hj. by apply (joined_exact z capacity (length items) items s eq_refl Hi).
Qed.

(** Two items through two slots: the second push first finds the queue full. *)
Definition example_at (tails : list nat) (heads : list nat) (seen : nat) (p : producer_pc (T := Z)) (c : consumer_pc (T := Z))
    (popped : list Z) : memory (T := Z) :=
  mkMemory {[0 := 7%Z]} heads tails 0 seen p c [7%Z] popped.

Definition transfer_example : transfer (T := Z) :=
  mkTransfer (example_at [0; 1] [0; 1] 1 PIdle CIdle [7%Z]) [8%Z] None [7%Z] None [7%Z].

Lemma transfer_example_reachable : rtc (transfer_any 0%Z 2 2) (transfer_begin [7%Z; 8%Z]) transfer_example.
Proof.
  apply (rtc_l _ _ (mkTransfer (mkMemory ∅ [0] [0] 0 0 (PWrite 7%Z) CIdle [] []) [7%Z; 8%Z] None [] None []));
    [eexists; by eapply (turn_push 0%Z 2 2 _ _ 7%Z _ None), (push_start 2 7%Z memory_new 0 0)|].
  apply (rtc_l _ _ (mkTransfer (mkMemory {[0 := 7%Z]} [0] [0] 0 0 (PPublish 7%Z) CIdle [] []) [7%Z; 8%Z] None [] None []));
    [eexists; by eapply (turn_push 0%Z 2 2 _ _ 7%Z _ None), (push_write 2 7%Z)|].
  apply (rtc_l _ _ (mkTransfer (example_at [0; 1] [0] 0 PIdle CIdle []) [8%Z] (Some 7%Z) [] None []));
    [eexists; by eapply (turn_push 0%Z 2 2 _ _ 7%Z _ (Some true)), (push_publish 2 7%Z)|].
  apply (rtc_l _ _ (mkTransfer (example_at [0; 1] [0] 0 PIdle CIdle []) [8%Z] None [7%Z] None []));
    [eexists; by apply (note_sent 0%Z 2 2 _ _ 7%Z [])|].
  apply (rtc_l _ _ (mkTransfer (example_at [0; 1] [0] 0 PIdle CIdle []) [8%Z] None [7%Z] None []));
    [eexists; by eapply (turn_push 0%Z 2 2 _ _ 8%Z _ (Some false)), (push_full 2 8%Z (example_at [0; 1] [0] 0 PIdle CIdle []) 0 0)|].
  apply (rtc_l _ _ (mkTransfer (example_at [0; 1] [0] 1 PIdle CRead []) [8%Z] None [7%Z] None []));
    [eexists; eapply (turn_pop 0%Z 2 2 _ _ _ _ _ [] None); [cbn; lia|apply (pop_start 0%Z 2 (example_at [0; 1] [0] 0 PIdle CIdle []) 1 1); cbn; auto]|].
  apply (rtc_l _ _ (mkTransfer (example_at [0; 1] [0] 1 PIdle (CPublish 7%Z) []) [8%Z] None [7%Z] None []));
    [eexists; eapply (turn_pop 0%Z 2 2 _ _ _ _ _ [] None); [cbn; lia|by apply (pop_read 0%Z 2 (example_at [0; 1] [0] 1 PIdle CRead []))]|].
  apply (rtc_l _ _ (mkTransfer (example_at [0; 1] [0; 1] 1 PIdle CIdle [7%Z]) [8%Z] None [7%Z] (Some 7%Z) []));
    [eexists; eapply (turn_pop 0%Z 2 2 _ _ _ _ _ [] (Some (Some 7%Z))); [cbn; lia|by apply (pop_publish 0%Z 2 (example_at [0; 1] [0] 1 PIdle (CPublish 7%Z) []))]|].
  apply rtc_once. eexists. by apply (note_received 0%Z 2 2 _ _ _ _ 7%Z []).
Qed.

Lemma transfer_exact_witness :
  t_received transfer_example `prefix_of` [7%Z; 8%Z] /\ sn (transfer_moves 0%Z 2 2) transfer_example.
Proof.
  destruct (transfer_exact 0%Z 2 [7%Z; 8%Z] transfer_example ltac:(lia) transfer_example_reachable) as (H1 & _ & H2 & _).
  split; [exact H1|exact H2].
Defined.
