(* ===== verification/SpscSize.v ===== *)
(** * Reading the depth of a queue in use: [SpscQueue::size], main.cpp

    [size] loads [tail_] and then [head_], two relaxed loads with other steps
    of the two threads between them.  The cold path, which is the consumer,
    reads the depth for its dashboard; the threads of the metrics server read
    it for their snapshot. *)

From S2P Require Import Prelude Threads SpscQueue.

Section Size.
Context {T : Type} (T_zero : T).
Variable capacity : nat.

(** The result from the values of the two loads. *)
Definition depth (tail head : nat) : nat :=
  if (head <=? tail)%nat then (tail - head)%nat else (capacity - head + tail)%nat.

Lemma depth_bound tail head : (tail < capacity)%nat -> (head < capacity)%nat -> (depth tail head <= capacity - 1)%nat.
Proof. intros Ht Hh. unfold depth. destruct (Nat.leb_spec head tail); lia. Qed.

Lemma counts_lt l n i v : (0 < capacity)%nat -> counts capacity l n -> l !! i = Some v -> (v < capacity)%nat.
Proof. intros Hc [_ Hl] Hi. rewrite (Hl i v Hi). apply Nat.mod_upper_bound. lia. Qed.

(** The indices of [a] pushes and [b] pops, fewer than a round apart. *)
Lemma depth_exact a b : (b <= a < b + capacity)%nat -> depth (a mod capacity) (b mod capacity) = (a - b)%nat.
Proof.
  intros H. assert (Hc : (capacity <> 0)%nat) by lia. unfold depth.
  pose proof (Nat.div_mod_eq a capacity) as Ea. pose proof (Nat.div_mod_eq b capacity) as Eb.
  pose proof (Nat.mod_upper_bound a capacity Hc). pose proof (Nat.mod_upper_bound b capacity Hc).
  destruct (Nat.leb_spec (b mod capacity) (a mod capacity)).
  - assert (a / capacity = b / capacity)%nat by nia. nia.
  - assert (a / capacity = b / capacity + 1)%nat by nia. nia.
Qed.

(** It is the result of the sequential [size] on these indices. *)
Lemma depth_size (buffer : gmap Z T) tail head : (head < capacity)%nat ->
  size (mkSpsc (Z.of_nat capacity) buffer (Z.of_nat head) (Z.of_nat tail)) = Z.of_nat (depth tail head).
Proof.
  intros Hh. unfold size, depth; cbn [head_ tail_ capacity_].
  destruct (Z.leb_spec (Z.of_nat head) (Z.of_nat tail)), (Nat.leb_spec head tail); lia.
Qed.

(** One item goes through the queue. *)
Definition after_one (x : T) : memory (T := T) :=
  mkMemory {[0%nat := x]} [0; 1]%nat [0; 1]%nat 0 1 PIdle CIdle [x] [x].

Lemma one_item (x : T) : (2 <= capacity)%nat -> rtc (step T_zero capacity) memory_new (after_one x).
Proof.
  intros Hc. assert (Hn : next_index capacity 0 = 1%nat) by (unfold next_index; rewrite Nat.mod_small; lia).
  set (m1 := mkMemory ∅ [0%nat] [0%nat] 0 0 (PWrite x) CIdle [] []).
  set (m2 := mkMemory {[0%nat := x]} [0%nat] [0%nat] 0 0 (PPublish x) CIdle [] []).
  set (m3 := mkMemory {[0%nat := x]} [0%nat] [0; 1]%nat 0 0 PIdle CIdle [x] []).
  set (m4 := mkMemory {[0%nat := x]} [0%nat] [0; 1]%nat 0 1 PIdle CRead [x] []).
  set (m5 := mkMemory {[0%nat := x]} [0%nat] [0; 1]%nat 0 1 PIdle (CPublish x) [x] []).
  apply (rtc_l _ _ m1); [apply (pushing _ _ _ _ x None), (push_start capacity x memory_new 0 0); cbn; try done; rewrite Hn; lia|].
  apply (rtc_l _ _ m2); [by apply (pushing _ _ _ _ x None), (push_write capacity x m1)|].
  apply (rtc_l _ _ m3).
  { apply (pushing _ _ _ _ x (Some true)). pose proof (push_publish capacity x m2 eq_refl) as H. cbn in H. by rewrite Hn in H. }
  apply (rtc_l _ _ m4); [apply (popping _ _ _ _ None), (pop_start T_zero capacity m3 1 1); cbn; auto|].
  apply (rtc_l _ _ m5); [by apply (popping _ _ _ _ None), (pop_read T_zero capacity m4)|].
  apply rtc_once, (popping _ _ _ _ (Some (Some x))). pose proof (pop_publish T_zero capacity m5 x eq_refl) as H.
  cbn in H. by rewrite Hn in H.
Qed.
End Size.

(** ** Claims *)

(** C19. What [size] tells while the queue is in use.  To the consumer, whose own
    index is current, it is the number of items pushed by some moment no
    earlier than its last look at [tail_] and not yet popped: never more than
    the queue holds, and exactly that when the load of [tail_] is up to date.
    To a third thread it is only some number below the capacity: with
    up-to-date loads, one item that goes through an empty queue between the two
    loads makes it the capacity less one, a full queue. *)
Theorem size_in_use {T} (z : T) (capacity : nat) (m : memory) : (2 <= capacity)%nat -> reachable z capacity m ->
  (forall v tl, (m_seen_tail m <= v)%nat -> m_tails m !! v = Some tl ->
    depth capacity tl (own_index (m_heads m)) = (v - length (m_popped m))%nat /\
    (length (m_popped m) <= v <= length (m_pushed m))%nat) /\
  (depth capacity (own_index (m_tails m)) (own_index (m_heads m)) = length (m_pushed m) - length (m_popped m))%nat /\
  (forall m' v tl w hd, rtc (step z capacity) m m' -> m_tails m !! v = Some tl -> m_heads m' !! w = Some hd ->
    (depth capacity tl hd <= capacity - 1)%nat) /\
  (exists m', rtc (step z capacity) memory_new m' /\ (length (m_pushed m') = 1)%nat /\
    depth capacity (own_index (m_tails (memory_new (T := T)))) (own_index (m_heads m')) = (capacity - 1)%nat).
Proof.
  intros Hc Hr. assert (Hc0 : (0 < capacity)%nat) by lia. pose proof (reachable_inv z capacity m Hc0 Hr) as Hi.
  destruct Hi as [Hh Ht Hsh Hst Hroom _ _ _ _]. split_and!.
  - intros v tl Hv Htl. pose proof (lookup_lt_Some _ _ _ Htl) as Hlt. rewrite (proj1 Ht) in Hlt.
    rewrite (counts_own _ _ _ Hh), (proj2 Ht _ _ Htl). split; [apply depth_exact|]; lia.
  - rewrite (counts_own _ _ _ Hh), (counts_own _ _ _ Ht). apply depth_exact. lia.
  - intros m' v tl w hd Hrun Htl Hhd.
    assert (Hr' : reachable z capacity m') by (unfold reachable; by etrans).
    pose proof (reachable_inv z capacity m' Hc0 Hr') as Hi'.
    apply depth_bound; [by apply (counts_lt _ _ _ _ _ Hc0 Ht Htl)|by apply (counts_lt _ _ _ _ _ Hc0 (i_heads _ _ _ Hi') Hhd)].
  - exists (after_one z). split; [by apply one_item|]. split; [done|]. cbn. unfold depth. cbn. lia.
Qed.

Lemma size_in_use_witness :
  depth 16 (own_index (m_tails (after_one 7%Z))) (own_index (m_heads (after_one 7%Z))) = 0%nat.
Proof.
  assert (Hc : (2 <= 16)%nat) by (lia).
  destruct (size_in_use 0%Z 16 (after_one 7%Z) Hc (one_item 0%Z 16 7%Z Hc)) as (_ & H & _).
  exact H.
Defined.
