(* ===== verification/MpmcQueue.v ===== *)
(** * Queues seen from their clients, and mpmc_queue.h

    What a client of a queue of the program relies on is stated as a class of
    operations and one of laws: a queue holds a list, a push appends or is
    refused, a pop takes the head.  The ring of [SpscQueue] satisfies it.
    [MpmcQueue] forwards to [boost::lockfree::queue], which is not part of the
    repository: any implementation of the class stands for it, and the
    operations of its threads take effect one at a time (it is documented as
    linearizable). *)

From S2P Require Import Prelude SpscQueue.

Local Open Scope Z_scope.

Class FifoQueue (Q T : Type) := {
  enqueue : Q -> T -> bool * Q;
  dequeue : Q -> option T * Q }.

Class FifoLaws (Q T : Type) `{FifoQueue Q T} (rep : Q -> list T -> Prop) : Prop := {
  enqueue_law q l x : rep q l ->
    rep (enqueue q x).2 (if (enqueue q x).1 then l ++ [x] else l);
  dequeue_law q l : rep q l -> (dequeue q).1 = head l /\ rep (dequeue q).2 (tail l) }.

(** ** The ring *)

#[export] Instance spsc_fifo {T} (z : T) : FifoQueue (SpscQueue T) T := {
  enqueue := push;
  dequeue := pop z }.

#[export] Instance spsc_laws {T} (z : T) : FifoLaws (H := spsc_fifo z) (SpscQueue T) T (queue_rep z).
Proof.
  split.
  - intros q l x Hq. pose proof (push_rep z q l x Hq) as Hp. cbn. destruct (_ =? _).
    + by rewrite Hp.
    + by destruct Hp as (q' & -> & _ & Hq').
  - intros q l Hq. pose proof (pop_rep z q l Hq) as Hp. cbn. destruct l as [|x l].
    + by rewrite Hp.
    + by destruct Hp as (q' & -> & _ & Hq').
Qed.

(** ** MpmcQueue *)

Section Mpmc.
Context {Q T : Type} {boost : FifoQueue Q T}.
Variable boost_empty : Q -> bool.

Record MpmcQueue := mkMpmc { queue_ : Q }.

(** Named as in the class of the source; the [size_t] capacity is the business
    of the constructor of [queue_]. *)
Definition mpmc_push (q : MpmcQueue) (item : T) : bool * MpmcQueue :=
  let '(ok, b) := enqueue (queue_ q) item in (ok, mkMpmc b).

Definition mpmc_pop (q : MpmcQueue) : option T * MpmcQueue :=
  let '(out, b) := dequeue (queue_ q) in (out, mkMpmc b).

Definition mpmc_empty (q : MpmcQueue) : bool := boost_empty (queue_ q).

#[export] Instance mpmc_fifo : FifoQueue MpmcQueue T := {
  enqueue := mpmc_push;
  dequeue := mpmc_pop }.

#[export] Instance mpmc_laws rep : FifoLaws Q T rep -> FifoLaws MpmcQueue T (fun q => rep (queue_ q)).
Proof.
  intros H. split.
  - intros [q] l x Hq. pose proof (enqueue_law q l x Hq) as He. cbn in *. unfold mpmc_push. cbn.
    by destruct (enqueue q x) as [ok b].
  - intros [q] l Hq. pose proof (dequeue_law q l Hq) as Hd. cbn in *. unfold mpmc_pop. cbn.
    by destruct (dequeue q) as [r b].
Qed.
End Mpmc.

Arguments MpmcQueue : clear implicits.

(** ** Clients

    The calls of any number of threads, in the order in which they take effect:
    what was accepted, and what was received. *)
Section Client.
Context {Q T : Type} `{HQ : FifoQueue Q T}.

Inductive call := Push (thread : nat) (x : T) | Pop (thread : nat).

Fixpoint serve (cs : list call) (q : Q) : Q * list T * list T :=
  match cs with
  | [] => (q, [], [])
  | Push _ x :: cs =>
      let '(ok, q) := enqueue q x in
      let '(q, ins, outs) := serve cs q in (q, if ok : bool then x :: ins else ins, outs)
  | Pop _ :: cs =>
      let '(r, q) := dequeue q in
      let '(q, ins, outs) := serve cs q in
      (q, ins, match r with Some x => x :: outs | None => outs end)
  end.

Lemma serve_fifo rep `{!FifoLaws Q T rep} cs : forall q l, rep q l ->
  let '(q', ins, outs) := serve cs q in exists l', rep q' l' /\ l ++ ins = outs ++ l'.
Proof.
  induction cs as [|[th x|th] cs IH]; intros q l Hq; cbn [serve].
  - exists l. by rewrite app_nil_r.
  - pose proof (enqueue_law q l x Hq) as He. destruct (enqueue q x) as [ok q1]. cbn [fst snd] in He.
    specialize (IH q1 _ He). destruct (serve cs q1) as [[q2 ins] outs]. destruct IH as (l' & H1 & H2).
    exists l'. split; [done|]. destruct ok; [|done]. by rewrite <- H2, <- app_assoc.
  - pose proof (dequeue_law q l Hq) as [Hr Hd]. destruct (dequeue q) as [r q1]. cbn [fst snd] in *.
    specialize (IH q1 _ Hd). destruct (serve cs q1) as [[q2 ins] outs]. destruct IH as (l' & H1 & H2).
    exists l'. split; [done|]. subst r. destruct l as [|x l]; cbn in *; [done|by rewrite H2].
Qed.
End Client.

(** ** Claims *)

(** Through the interface every queue of the program is first in, first
    out, whichever threads call it: what is received is what was accepted, in
    that order, up to what is still queued.  It holds of the ring of
    spsc_queue.h, and of [MpmcQueue] over any Boost queue that satisfies the
    laws. *)
Theorem mpmc_is_fifo {Q T : Type} {boost : FifoQueue Q T} (rep : Q -> list T -> Prop) (z : T)
    (cs : list call) (capacity : Z) (q0 : Q) :
  FifoLaws Q T rep -> rep q0 [] -> 0 < capacity ->
  (let '(q, ins, outs) := serve (HQ := mpmc_fifo) cs (mkMpmc q0) in
   exists l, rep (queue_ q) l /\ ins = outs ++ l) /\
  (let '(q, ins, outs) := serve (HQ := spsc_fifo z) cs (SpscQueue_new capacity) in
   exists l, queue_rep z q l /\ ins = outs ++ l).
Proof.
  intros Hlaws H0 Hc. split.
  - exact (serve_fifo (HQ := mpmc_fifo) (fun q => rep (queue_ q)) cs (mkMpmc q0) [] H0).
  - exact (serve_fifo (HQ := spsc_fifo z) (queue_rep z) cs (SpscQueue_new capacity) [] (queue_rep_new z capacity Hc)).
Qed.

(** A queue for the witness: a list with room for three. *)
Definition list_fifo : FifoQueue (list Z) Z := {|
  enqueue := fun l x => if decide (length l < 3)%nat then (true, l ++ [x]) else (false, l);
  dequeue := fun l => (head l, tail l) |}.

Lemma list_laws : FifoLaws (H := list_fifo) (list Z) Z (fun q l => q = l).
Proof. split; [intros q l x ->; cbn; by case_decide|by intros q l ->]. Qed.

Lemma mpmc_is_fifo_witness :
  let '(q, ins, outs) := serve (HQ := mpmc_fifo (boost := list_fifo))
    [Push 0 1; Push 1 2; Pop 2; Push 1 3; Push 0 4; Push 0 5; Pop 3] (mkMpmc []) in
  ins = [1; 2; 3; 4] /\ outs = [1; 2] /\ ins = outs ++ queue_ q.
Proof.
  destruct (mpmc_is_fifo (boost := list_fifo) (fun q l => q = l) 0
    [Push 0 1; Push 1 2; Pop 2; Push 1 3; Push 0 4; Push 0 5; Pop 3] 4 [] list_laws eq_refl eq_refl) as [H _].
  destruct (serve _ _) as [[q ins] outs] eqn:E. destruct H as (l & -> & Hio).
  vm_compute in E. injection E as <- <- <-. split; [reflexivity|]. split; [reflexivity|exact Hio].
Defined.
