(* ===== verification/Wire.v ===== *)
(** * Ticks on the wire

    The UDP feed sends the object representation of a [Tick] (tick.h): eight
    symbol bytes, three binary64 numbers and a 64-bit timestamp, little-endian
    on the supported targets.  [encode_tick] is the copy out of the object in
    udp_tick_simulator.cpp, [decode_tick] the cast in
    udp_feed_subscriber.cpp. *)

From Stdlib Require Import Ascii Floats.SpecFloat.
From S2P Require Import Prelude Float64 Float64Valid CString Messages.

Local Open Scope Z_scope.

Definition TICK_SIZE : nat := 40.

(** ** Words *)

(** The [n] low bytes of a number, least significant first. *)
Fixpoint le_bytes (n : nat) (z : Z) : bytes :=
  match n with
  | O => []
  | S n' => ascii_of_N (Z.to_N (z mod 256)) :: le_bytes n' (z / 256)
  end.

Lemma byte_val_ascii z : 0 <= z < 256 -> byte_val (ascii_of_N (Z.to_N z)) = z.
Proof. intros Hz. unfold byte_val. rewrite N_ascii_embedding by lia. lia. Qed.

Lemma le_bytes_length n z : length (le_bytes n z) = n.
Proof. revert z. induction n as [|n IH]; intros z; cbn; [done|]. by rewrite IH. Qed.

Lemma le_word_bytes n : forall z, le_word (le_bytes n z) = z mod 2 ^ (8 * Z.of_nat n).
Proof.
  induction n as [|n IH]; intros z; cbn [le_bytes le_word].
  { change (8 * Z.of_nat 0) with 0. by rewrite Z.mod_1_r. }
  rewrite byte_val_ascii by (apply Z.mod_pos_bound; lia). rewrite IH.
  rewrite Nat2Z.inj_succ. replace (8 * Z.succ (Z.of_nat n)) with (8 + 8 * Z.of_nat n) by lia.
  rewrite Z.pow_add_r by lia. change (2 ^ 8) with 256.
  rewrite Z.rem_mul_r by lia. lia.
Qed.

(** ** binary64 numbers as 64-bit words *)

Definition sign_bit (s : bool) : Z := if s then 2 ^ 63 else 0.

Definition bits_of_double (x : double) : Z :=
  match x with
  | S754_zero s => sign_bit s
  | S754_infinity s => sign_bit s + 2047 * 2 ^ 52
  | S754_nan => 2047 * 2 ^ 52 + 2 ^ 51
  | S754_finite s m e =>
      if 2 ^ 52 <=? Zpos m then sign_bit s + (e + 1075) * 2 ^ 52 + (Zpos m - 2 ^ 52)
      else sign_bit s + Zpos m
  end.

Definition double_of_bits (z : Z) : double :=
  let s := 2 ^ 63 <=? z in
  let r := z mod 2 ^ 63 in
  let e := r / 2 ^ 52 in
  let f := r mod 2 ^ 52 in
  if e =? 0 then
    match f with Zpos m => S754_finite s m (-1074) | _ => S754_zero s end
  else if e =? 2047 then
    if f =? 0 then S754_infinity s else S754_nan
  else S754_finite s (Z.to_pos (f + 2 ^ 52)) (e - 1075).

Lemma double_bits_range x : is_double x -> 0 <= bits_of_double x < 2 ^ 64.
Proof.
  destruct x as [[]|[]| |s m e]; intros Hx; try (cbn; lia). pose proof (proj1 (finite_cases _ _ _) Hx) as H.
  unfold bits_of_double. destruct (Z.leb_spec (2 ^ 52) (Zpos m)), s; cbn [sign_bit]; lia.
Qed.

Lemma double_of_bits_split s e f : 0 <= e < 2048 -> 0 <= f < 2 ^ 52 ->
  double_of_bits (sign_bit s + e * 2 ^ 52 + f) =
  if e =? 0 then match f with Zpos m => S754_finite s m (-1074) | _ => S754_zero s end
  else if e =? 2047 then if f =? 0 then S754_infinity s else S754_nan
  else S754_finite s (Z.to_pos (f + 2 ^ 52)) (e - 1075).
Proof.
  intros He Hf. unfold double_of_bits. set (z := sign_bit s + e * 2 ^ 52 + f).
  assert (Hs : (2 ^ 63 <=? z) = s) by (unfold z, sign_bit; destruct s; zcases; lia).
  assert (Hr : z mod 2 ^ 63 = e * 2 ^ 52 + f).
  { unfold z, sign_bit. destruct s.
    - replace (2 ^ 63 + e * 2 ^ 52 + f) with (e * 2 ^ 52 + f + 1 * 2 ^ 63) by ring.
      rewrite Z.mod_add by lia. apply Z.mod_small. lia.
    - rewrite Z.add_0_l. apply Z.mod_small. lia. }
  rewrite Hs, Hr. rewrite Z.div_add_l, Z.div_small, Z.add_0_r by lia.
  rewrite (Z.add_comm (e * 2 ^ 52)), Z.mod_add, Z.mod_small by lia. done.
Qed.

Lemma double_roundtrip x : is_double x -> double_of_bits (bits_of_double x) = x.
Proof.
  destruct x as [[]|[]| |s m e]; intros Hx; try reflexivity.
  pose proof (proj1 (finite_cases _ _ _) Hx) as H. unfold bits_of_double.
  destruct (Z.leb_spec (2 ^ 52) (Zpos m)) as [Hm|Hm].
  - rewrite double_of_bits_split by lia.
    rewrite (proj2 (Z.eqb_neq _ _)), (proj2 (Z.eqb_neq _ _)) by lia.
    f_equal; [|lia]. replace (Zpos m - 2 ^ 52 + 2 ^ 52) with (Zpos m) by lia. done.
  - replace (sign_bit s + Zpos m) with (sign_bit s + 0 * 2 ^ 52 + Zpos m) by lia.
    rewrite double_of_bits_split by lia. cbn [Z.eqb]. f_equal. lia.
Qed.

(** ** Ticks *)

Definition encode_tick (t : Tick) : bytes :=
  tick_symbol t ++ le_bytes 8 (bits_of_double (bid t)) ++ le_bytes 8 (bits_of_double (ask t)) ++
  le_bytes 8 (bits_of_double (last_price t)) ++ le_bytes 8 (wrap_u64 (timestamp_ns t)).

(** The 64-bit word at an offset of the buffer. *)
Definition word_at (b : bytes) (off : nat) : Z := le_word (take 8 (drop off b)).

Definition decode_tick (b : bytes) : Tick :=
  mkTick (take 8 b) (double_of_bits (word_at b 8)) (double_of_bits (word_at b 16))
    (double_of_bits (word_at b 24)) (wrap_i64 (word_at b 32)).

(** The values a [Tick] object can hold. *)
Definition tick_ok (t : Tick) : Prop :=
  length (tick_symbol t) = 8%nat /\ is_double (bid t) /\ is_double (ask t) /\
  is_double (last_price t) /\ - 2 ^ 63 <= timestamp_ns t < 2 ^ 63.

Lemma encode_tick_length t : length (tick_symbol t) = 8%nat -> length (encode_tick t) = TICK_SIZE.
Proof. intros H. unfold encode_tick. by rewrite !length_app, !le_bytes_length, H. Qed.

Lemma take_word n z r : take n (le_bytes n z ++ r) = le_bytes n z.
Proof. rewrite take_app_le by (by rewrite le_bytes_length). apply take_ge. by rewrite le_bytes_length. Qed.

Lemma drop_word n z r : drop n (le_bytes n z ++ r) = r.
Proof. rewrite drop_app_ge by (by rewrite le_bytes_length). by rewrite le_bytes_length, Nat.sub_diag. Qed.

Lemma word_at_here z r : 0 <= z < 2 ^ 64 -> le_word (take 8 (le_bytes 8 z ++ r)) = z.
Proof. intros Hz. rewrite take_word, le_word_bytes. by apply Z.mod_small. Qed.

Lemma wrap_i64_u64 z : - 2 ^ 63 <= z < 2 ^ 63 -> wrap_i64 (wrap_u64 z) = z.
Proof.
  intros Hz. unfold wrap_s, wrap_u. rewrite Z.mod_mod by lia. change (64 - 1) with 63.
  destruct (decide (0 <= z)).
  - rewrite Z.mod_small by lia. by rewrite (proj2 (Z.ltb_lt _ _)) by lia.
  - replace (z mod 2 ^ 64) with (z + 2 ^ 64).
    + rewrite (proj2 (Z.ltb_ge _ _)) by lia. lia.
    + rewrite <- (Z.mod_add z 1) by lia. rewrite Z.mod_small; lia.
Qed.

Lemma decode_encode t : tick_ok t -> decode_tick (encode_tick t) = t.
Proof.
  destruct t as [sy b a l ts]. intros (Hsy & Hb & Ha & Hl & Hts).
  cbn [tick_symbol bid ask last_price timestamp_ns] in *.
  unfold decode_tick, word_at, encode_tick. cbn [tick_symbol bid ask last_price timestamp_ns].
  set (wb := le_bytes 8 (bits_of_double b)). set (wa := le_bytes 8 (bits_of_double a)).
  set (wl := le_bytes 8 (bits_of_double l)). set (wt := le_bytes 8 (wrap_u64 ts)).
  assert (Hd : forall k r, drop (8 + k) (sy ++ r) = drop k r).
  { intros k r. rewrite drop_app_ge by lia. by replace (8 + k - length sy)%nat with k by lia. }
  assert (Hdw : forall k z r, drop (8 + k) (le_bytes 8 z ++ r) = drop k r)
    by (intros k z r; rewrite <- drop_drop; by rewrite drop_word).
  rewrite take_app_le, take_ge by lia.
  rewrite (Hd 0%nat), (Hd 8%nat), (Hd 16%nat), (Hd 24%nat). unfold wb, wa, wl, wt.
  rewrite (Hdw 0%nat), (Hdw 8%nat), (Hdw 16%nat), (Hdw 0%nat), (Hdw 8%nat), (Hdw 0%nat), !drop_0.
  rewrite !word_at_here by (done || by apply double_bits_range).
  rewrite <- (app_nil_r (le_bytes 8 (wrap_u64 ts))), word_at_here by (apply wrap_u_range; lia).
  by rewrite !double_roundtrip, wrap_i64_u64.
Qed.
