(* ===== verification/MarketDispatcher.v ===== *)
(** * The market dispatcher: market_dispatcher.h, market_dispatcher.cpp

    Publish-subscribe on the eight bytes of the symbol.  A callback is a
    transformer of a client state; the vector of callbacks of a key is run in
    the order of subscription.  [handle_datagram] is a turn of the loop of
    [UDPFeedSubscriber::start], from what [recvfrom] returned to the
    dispatch. *)

From S2P Require Import Prelude Float64 Float64Valid CString Messages OrderBook Wire.

Local Open Scope Z_scope.

Section Dispatcher.
Context {St : Type}.

Abbreviation callback := (Tick -> St -> St).
Abbreviation subscriptions := (gmap Z (list callback)).

(** [char sym8\[8\] = {}; memcpy(sym8, symbol.c_str(), min(symbol.size(), 8))] *)
Definition sym8 (symbol : bytes) : bytes := memcpy (zeros 8) symbol (Nat.min (length symbol) 8).

Definition subscribe (m : subscriptions) (symbol : bytes) (cb : callback) : subscriptions :=
  match symbol with
  | [] => m
  | _ => let k := sym_key (sym8 symbol) in <[k := default [] (m !! k) ++ [cb]]> m
  end.

Definition dispatch (m : subscriptions) (tick : Tick) (s : St) : St :=
  match m !! sym_key (tick_symbol tick) with
  | None => s
  | Some cbs => foldl (fun s (cb : callback) => cb tick s) s cbs
  end.

Definition subscriberCount (m : subscriptions) (symbol : bytes) : Z :=
  match m !! sym_key (sym8 symbol) with
  | None => 0
  | Some cbs => wrap_i32 (Z.of_nat (length cbs))
  end.

(** One turn of the receive loop.  [d] is what [recvfrom] gave: a datagram, of
    which at most [sizeof(Tick)] bytes reach the buffer, or [None] for an
    error, which leaves the loop. *)
Definition handle_datagram (m : subscriptions) (d : option bytes) (s : St) : option St :=
  match d with
  | None => None
  | Some data =>
      let buffer := take TICK_SIZE data in
      if (length buffer <? TICK_SIZE)%nat then Some s      (* malformed *)
      else Some (dispatch m (decode_tick buffer) s)
  end.

(** The receive loop on what [recvfrom] returns before [stop]. *)
Fixpoint receive (m : subscriptions) (ds : list (option bytes)) (s : St) : St :=
  match ds with
  | [] => s
  | d :: ds' =>
      match handle_datagram m d s with
      | None => s
      | Some s' => receive m ds' s'
      end
  end.

Definition subscribe_all (subs : list (bytes * callback)) : subscriptions :=
  foldl (fun m p => subscribe m p.1 p.2) ∅ subs.

(** The callbacks a tick with symbol array [a] should reach. *)
Definition callbacks_for (subs : list (bytes * callback)) (a : bytes) : list callback :=
  (filter (fun p : bytes * callback => p.1 <> [] /\ sym_key (sym8 p.1) = sym_key a) subs).*2.

Lemma subscribe_all_lookup subs a :
  default [] (subscribe_all subs !! sym_key a) = callbacks_for subs a.
Proof.
  unfold subscribe_all, callbacks_for. induction subs as [|[s cb] subs IH] using rev_ind; [done|].
  rewrite foldl_app, filter_app, fmap_app. cbn [foldl fst snd]. rewrite <- IH.
  rewrite filter_cons, filter_nil. cbn [fst]. destruct s as [|c s]; cbn [subscribe].
  { rewrite decide_False by (intros [? _]; done). by rewrite app_nil_r. }
  destruct (decide (sym_key (sym8 (c :: s)) = sym_key a)) as [E|E].
  - rewrite E, lookup_insert_eq, decide_True by done. done.
  - rewrite lookup_insert_ne, decide_False by (done || by intros [_ ?]). by rewrite app_nil_r.
Qed.

(** The datagrams of a feed: ticks, and whatever else reaches the port. *)
Definition datagram (d : Tick + bytes) : option bytes :=
  Some (match d with inl t => encode_tick t | inr data => data end).

Definition datagram_ok (d : Tick + bytes) : Prop :=
  match d with inl t => tick_ok t | inr data => (length data < TICK_SIZE)%nat end.

Definition ticks_of (ds : list (Tick + bytes)) : list Tick :=
  omap (fun d => match d with inl t => Some t | inr _ => None end) ds.

Lemma handle_tick m t s : tick_ok t ->
  handle_datagram m (Some (encode_tick t)) s = Some (dispatch m t s).
Proof.
  intros Ht. pose proof (encode_tick_length t (proj1 Ht)) as Hl.
  unfold handle_datagram. rewrite take_ge by lia. rewrite Hl, Nat.ltb_irrefl.
  by rewrite decode_encode.
Qed.

Lemma handle_short m data s : (length data < TICK_SIZE)%nat ->
  handle_datagram m (Some data) s = Some s.
Proof.
  intros Hd. unfold handle_datagram. rewrite take_ge by lia. by rewrite (proj2 (Nat.ltb_lt _ _)).
Qed.

Lemma dispatch_default m t s :
  dispatch m t s = foldl (fun s (cb : callback) => cb t s) s (default [] (m !! sym_key (tick_symbol t))).
Proof. unfold dispatch. by destruct (m !! _). Qed.

(** ** Symbols and keys *)

Lemma sym8_length s : length (sym8 s) = 8%nat.
Proof. unfold sym8. rewrite memcpy_length; rewrite ?zeros_length; lia. Qed.

Lemma sym8_short s : NUL ∉ s -> (length s <= 8)%nat -> sym8 s = s ++ zeros (8 - length s).
Proof.
  intros Hs Hl. unfold sym8, memcpy. rewrite Nat.min_l by done. rewrite take_ge by done.
  unfold zeros. by rewrite drop_replicate.
Qed.

Lemma strncpy_short s : NUL ∉ s -> (length s <= 7)%nat -> strncpy (zeros 8) s 7 = s ++ zeros (8 - length s).
Proof.
  intros Hs Hl. unfold strncpy, zeros. rewrite c_str_id, take_ge, drop_replicate by done.
  rewrite <- replicate_add. do 2 f_equal. lia.
Qed.

Lemma sym_key_inj a b : length a = 8%nat -> length b = 8%nat -> sym_key a = sym_key b -> a = b.
Proof. intros Ha Hb. unfold sym_key. rewrite !take_ge by lia. apply le_word_inj. lia. Qed.

Lemma padded_inj s s' : NUL ∉ s -> NUL ∉ s' -> (length s <= 7)%nat -> (length s' <= 7)%nat ->
  s ++ zeros (8 - length s) = s' ++ zeros (8 - length s') -> s = s'.
Proof.
  intros Hs Hs' Hl Hl' E. apply (f_equal c_str) in E. revert E.
  replace (8 - length s)%nat with (S (7 - length s)) by lia.
  replace (8 - length s')%nat with (S (7 - length s')) by lia.
  unfold zeros; cbn [replicate]. by rewrite !c_str_app_nul.
Qed.
End Dispatcher.

(** Whatever short datagrams are mixed in, the receive loop dispatches exactly
    the ticks sent, bit for bit, in order, and nothing that arrives after an
    error of [recvfrom]. *)
Lemma receive_datagrams {St : Type} (m : gmap Z (list (Tick -> St -> St))) (ds : list (Tick + bytes))
    (rest : list (option bytes)) (s : St) :
  Forall datagram_ok ds ->
  receive m (map datagram ds ++ None :: rest) s = foldl (fun s t => dispatch m t s) s (ticks_of ds).
Proof.
  intros H. revert s. induction H as [|[t|data] ds Hd _ IH]; intros s; cbn [map app receive]; [done|..].
  - unfold datagram at 1. rewrite handle_tick by exact Hd. apply IH.
  - unfold datagram at 1. rewrite handle_short by exact Hd. apply IH.
Qed.

(** One callback subscribed under several symbols. *)
Lemma callbacks_same {St : Type} (cb : Tick -> St -> St) (syms : list bytes) (a : bytes) :
  length a = 8%nat -> Forall (fun s => s <> []) syms -> NoDup (sym8 <$> syms) ->
  callbacks_for ((fun s => (s, cb)) <$> syms) a = if decide (a ∈ sym8 <$> syms) then [cb] else [].
Proof.
  intros Ha. unfold callbacks_for. induction 1 as [|s syms Hs _ IH]; [done|].
  cbn [fmap list_fmap]. intros [Hn Hnd]%NoDup_cons. rewrite filter_cons. cbn [fst].
  specialize (IH Hnd). destruct (decide (sym8 s = a)) as [<-|Hne].
  - rewrite !decide_True; [|by left|done]. cbn [fmap list_fmap snd]. rewrite IH.
    by rewrite decide_False.
  - rewrite decide_False.
    + rewrite IH. apply decide_ext. rewrite elem_of_cons. intuition congruence.
    + intros [_ E]. apply Hne, sym_key_inj; [apply sym8_length|done..].
Qed.

(** A tick reaches exactly the callbacks subscribed under the eight bytes
    of its symbol, in the order of their subscription, and
    [subscriberCount] counts them. *)
Theorem dispatch_routes {St : Type} (subs : list (bytes * (Tick -> St -> St))) (t : Tick) (s : St) :
  dispatch (subscribe_all subs) t s =
    foldl (fun s cb => cb t s) s (callbacks_for subs (tick_symbol t)) /\
  forall sym, subscriberCount (subscribe_all subs) sym =
    wrap_i32 (Z.of_nat (length (callbacks_for subs (sym8 sym)))).
Proof.
  split; [by rewrite dispatch_default, subscribe_all_lookup|].
  intros sym. rewrite <- subscribe_all_lookup. unfold subscriberCount. by destruct (_ !! _).
Qed.

(** Routing by key is routing by name: for symbols of at most seven bytes,
    a tick of the simulator's feed for [name] reaches a callback subscribed
    under [sym] if and only if the names are the same. *)
Theorem routing_by_name {St : Type} (sym name : bytes) (cb : Tick -> St -> St) (t : Tick) (s : St) :
  NUL ∉ sym -> NUL ∉ name -> (0 < length sym <= 7)%nat -> (length name <= 7)%nat ->
  tick_symbol t = strncpy (zeros 8) name 7 ->
  dispatch (subscribe ∅ sym cb) t s = if decide (sym = name) then cb t s else s.
Proof.
  intros Hs Hn Hls Hln Ht.
  change (subscribe ∅ sym cb) with (subscribe_all [(sym, cb)]).
  rewrite dispatch_default, subscribe_all_lookup, Ht.
  unfold callbacks_for. rewrite filter_cons, filter_nil. cbn [fst].
  rewrite strncpy_short, sym8_short by (done || lia).
  assert (Hlen : forall x : bytes, (length x <= 7)%nat -> length (x ++ zeros (8 - length x)) = 8%nat).
  { intros x Hx. rewrite length_app, zeros_length. lia. }
  destruct (decide (sym = name)) as [->|Hne].
  - rewrite decide_True; [done|]. split; [|done]. intros ->. cbn in Hls. lia.
  - rewrite decide_False; [done|]. intros [_ E]. apply Hne.
    apply sym_key_inj in E; [|apply Hlen; lia|apply Hlen; lia]. apply padded_inj; done || lia.
Qed.

Lemma routing_by_name_witness :
  let t := mkTick (strncpy (zeros 8) (B "AAPL") 7) fzero fzero fzero 0 in
  dispatch (subscribe ∅ (B "AAPL") (fun _ n => n + 1)) t 0 = 1 /\
  dispatch (subscribe ∅ (B "MSFT") (fun _ n => n + 1)) t 0 = 0.
Proof.
  assert (H1 : NUL ∉ B "AAPL") by (apply (bool_decide_unpack _); vm_compute; exact I).
  assert (H2 : NUL ∉ B "MSFT") by (apply (bool_decide_unpack _); vm_compute; exact I).
  split; [exact (routing_by_name (B "AAPL") (B "AAPL") (fun _ n => n + 1)
                   (mkTick (strncpy (zeros 8) (B "AAPL") 7) fzero fzero fzero 0) 0 H1 H1
                   ltac:(cbn; lia) ltac:(cbn; lia) eq_refl)|
          exact (routing_by_name (B "MSFT") (B "AAPL") (fun _ n => n + 1)
                   (mkTick (strncpy (zeros 8) (B "AAPL") 7) fzero fzero fzero 0) 0 H2 H1
                   ltac:(cbn; lia) ltac:(cbn; lia) eq_refl)].
Defined.
