(* ===== verification/Tools.v ===== *)
(** * The simulators: tools/fix_order_simulator.cpp, tools/udp_tick_simulator.cpp

    The generator of the order file and the sender of the tick feed.  What
    their random distributions and the clock return is the input of each step;
    the loops run over the list of these draws, 10,000 orders and 1,000,000
    ticks in the programs. *)

From Stdlib Require Import Ascii QArith_base Floats.SpecFloat.
From S2P Require Import Prelude Float64 CString Messages Numerals TickBitset PriceTick FixParser.
From S2P Require Import Float64Valid Wire MarketDispatcher.

Local Open Scope Z_scope.

(** ** The order simulator *)

Module FixSim.

Record SimSymbol := mkSim { sim_symbol : bytes; sim_price : double; vol : double }.

Definition symbols : list SimSymbol :=
  [mkSim (B "AAPL") (lit 150) (lit (10 # 100)); mkSim (B "MSFT") (lit 300) (lit (15 # 100));
   mkSim (B "GOOGL") (lit 140) (lit (10 # 100)); mkSim (B "TSLA") (lit 200) (lit (20 # 100));
   mkSim (B "ESZ4") (lit 4500) (lit 1); mkSim (B "GBPUSD") (lit (125 # 100)) (lit (2 # 1000))].

(** One turn's draws: symbol, noise, side, quantity. *)
Record Draw := mkDraw { d_sym : nat; d_noise : double; d_side : Z; d_qty : Z }.

(** The ranges of the distributions. *)
Definition draw_ok (d : Draw) : Prop :=
  (d_sym d < 6)%nat /\ 0 <= d_side d <= 1 /\ 10 <= d_qty d <= 100.

(** The random walk with its floor. *)
Definition walk (sym : SimSymbol) (noise : double) : SimSymbol :=
  let p := (sim_price sym + noise * vol sym)%D in
  mkSim (sim_symbol sym) (if flt p (lit (1 # 100)) then lit (1 # 100) else p) (vol sym).

(** What a turn writes: number, symbol, side, price, quantity. *)
Record Row := mkRow { r_id : Z; r_symbol : bytes; r_side : OrderType; r_price : double; r_qty : Z }.

(** The line of a row, with its newline. *)
Definition write_row (r : Row) : bytes :=
  format_line (r_id r) (r_symbol r) (r_side r) (show_fixed2 (r_price r)) (r_qty r) ++ NL.

(** One turn of the loop; [None] is an index outside the vector. *)
Definition turn (i : Z) (d : Draw) (syms : list SimSymbol) : option (list SimSymbol * Row) :=
  sym ← syms !! d_sym d;
  let sym := walk sym (d_noise d) in
  Some (<[d_sym d := sym]> syms,
        mkRow i (sim_symbol sym) (if d_side d =? 0 then BUY else SELL) (sim_price sym) (d_qty d)).

(** The loop from number [i] on, with the text written so far. *)
Fixpoint generate (i : Z) (ds : list Draw) (syms : list SimSymbol) (out : bytes) :
    option (list SimSymbol * bytes) :=
  match ds with
  | [] => Some (syms, out)
  | d :: ds' =>
      match turn i d syms with
      | None => None
      | Some (syms', r) => generate (i + 1) ds' syms' (out ++ write_row r)
      end
  end.

Definition orders_fix (ds : list Draw) : option bytes := snd <$> generate 1 ds symbols [].

(** The rows of the loop, the text left out. *)
Fixpoint rows (i : Z) (ds : list Draw) (syms : list SimSymbol) : list Row :=
  match ds with
  | [] => []
  | d :: ds' =>
      match turn i d syms with
      | None => []
      | Some (syms', r) => r :: rows (i + 1) ds' syms'
      end
  end.

(** The price of a row, when it is a positive finite number, in cents. *)
Definition row_cents (r : Row) : option Z :=
  match r_price r with S754_finite false m e => Some (hundredths m e) | _ => None end.

(** The price stayed within the ticks of the order book. *)
Definition row_in_range (r : Row) : Prop :=
  match row_cents r with Some c => 0 <= c < MAX_TICKS | None => False end.

(** The order a row should arrive as. *)
Definition row_order (now : Z) (r : Row) : Order :=
  mkOrder (strncpy (zeros 16) (B "ORD" ++ show_padded 5 (r_id r)) 15)
    (strncpy (zeros 8) (r_symbol r) 7) (lit (default 0 (row_cents r) # 100)) (r_side r) (r_qty r)
    now nullptr.

Example orders_fix_run :
  orders_fix [mkDraw 0 (lit (-1)) 0 30; mkDraw 5 (lit 1000) 1 10; mkDraw 0 (lit (-5000)) 1 99] =
  Some (B "11=ORD00001|35=D|55=AAPL|54=1|44=149.90|38=30" ++ NL ++
        B "11=ORD00002|35=D|55=GBPUSD|54=2|44=3.25|38=10" ++ NL ++
        B "11=ORD00003|35=D|55=AAPL|54=2|44=0.01|38=99" ++ NL).
Proof. vm_compute. done. Qed.

(** ** The symbols stay *)

Definition names (syms : list SimSymbol) : list bytes := sim_symbol <$> syms.

Lemma turn_defined i d syms : (d_sym d < length syms)%nat ->
  exists syms' r, turn i d syms = Some (syms', r) /\ names syms' = names syms /\
    r_id r = i /\ r_symbol r ∈ names syms /\ r_qty r = d_qty d.
Proof.
  intros Hd. destruct (lookup_lt_is_Some_2 _ _ Hd) as [sym Hsym].
  unfold turn. rewrite Hsym. eexists _, _. split; [reflexivity|]. cbn. split_and!; try done.
  - unfold names. rewrite list_fmap_insert. apply list_insert_id.
    rewrite list_lookup_fmap, Hsym. done.
  - unfold names. apply list_elem_of_fmap. exists sym. split; [done|]. by eapply list_elem_of_lookup_2.
Qed.

Lemma names_length syms : length (names syms) = length syms.
Proof. apply length_fmap. Qed.

(** The loop never leaves the vector, and writes its rows. *)
Lemma generate_rows ds : forall i syms out,
  Forall draw_ok ds -> names syms = names symbols ->
  exists syms', generate i ds syms out = Some (syms', out ++ concat (write_row <$> rows i ds syms)) /\
    length (rows i ds syms) = length ds /\
    Forall (fun r => i <= r_id r /\ r_symbol r ∈ names symbols /\ 10 <= r_qty r <= 100) (rows i ds syms).
Proof.
  induction ds as [|d ds IH]; intros i syms out Hds Hn; cbn [generate rows].
  { exists syms. rewrite app_nil_r. by split_and!. }
  apply Forall_cons in Hds as [(Hd & _ & Hq) Hds].
  destruct (turn_defined i d syms) as (syms' & r & -> & Hn' & Hid & Hsym & Hqty).
  { rewrite <- names_length, Hn. exact Hd. }
  destruct (IH (i + 1) syms' (out ++ write_row r) Hds ltac:(congruence)) as (s & -> & Hl & Hr).
  exists s. split; [by rewrite <- app_assoc|]. split; [cbn; lia|]. constructor.
  - rewrite Hid, Hqty, <- Hn. split_and!; try done; lia.
  - eapply Forall_impl; [exact Hr|]. cbn. intros x (? & ? & ?). split; [lia|done].
Qed.

(** ** The file, read back *)

Lemma symbol_clean s c : s ∈ names symbols -> c ∈ [NUL; "|"%char; "010"%char] -> c ∉ s.
Proof.
  assert (H : Forall (fun s => Forall (fun c => c ∉ s) [NUL; "|"%char; "010"%char]) (names symbols))
    by byte_fresh.
  rewrite Forall_forall in H. intros Hs Hc. specialize (H s Hs). rewrite Forall_forall in H. by apply H.
Qed.

Lemma row_line r : row_in_range r -> exists c, row_cents r = Some c /\ 0 <= c < MAX_TICKS /\
  write_row r = format_order (r_id r) (r_symbol r) (r_side r) c (r_qty r) ++ NL.
Proof.
  unfold row_in_range, row_cents, write_row, format_order. destruct (r_price r) as [| | |[] m e]; try done.
  intros Hc. exists (hundredths m e). split; [done|]. by split.
Qed.

Lemma format_order_no_newline i sym sd c q : 0 <= i -> 0 <= c -> 0 <= q -> "010"%char ∉ sym ->
  "010"%char ∉ format_order i sym sd c q.
Proof.
  intros Hi Hc Hq Hs. unfold format_order, format_line.
  do 2 (apply not_in_app; [first [byte_fresh | by apply not_in_show]|]).
  do 2 (apply not_in_app; [byte_fresh|]). apply not_in_app; [exact Hs|].
  apply not_in_app; [byte_fresh|]. apply not_in_app; [destruct sd; byte_fresh|].
  apply not_in_app; [byte_fresh|]. apply not_in_app; [apply not_in_show_cents; [done|done|byte_fresh]|].
  apply not_in_app; [byte_fresh|by apply not_in_show].
Qed.

(** The line of one row, without its newline. *)
Definition row_text (r : Row) : bytes :=
  format_order (r_id r) (r_symbol r) (r_side r) (default 0 (row_cents r)) (r_qty r).

Definition row_ok (r : Row) : Prop :=
  0 <= r_id r /\ r_symbol r ∈ names symbols /\ 10 <= r_qty r <= 100 /\ row_in_range r.

Lemma row_text_spec r : row_ok r -> write_row r = row_text r ++ NL /\
  ("010"%char ∉ row_text r) /\ row_text r <> [] /\
  forall now, parseFixLine now (row_text r) = row_order now r.
Proof.
  intros (Hid & Hsym & Hq & Hr). destruct (row_line r Hr) as (c & Ec & Hc & Hw).
  unfold row_text, row_order. rewrite Ec. change (default 0 (Some c)) with c. split_and!; [done|..].
  - apply format_order_no_newline; [lia..|]. apply symbol_clean; [done|]. right; right; left.
  - done.
  - intros now. apply parse_format_order; [lia|unfold MAX_TICKS in Hc; lia|lia|..];
      apply symbol_clean; try done; [left|right; left].
Qed.

Lemma deliver_rows now rs : forall i l, Forall row_ok rs ->
  deliver (fun o l => l ++ [o]) now i ((row_text <$> rs) ++ [[]]) l =
  l ++ imap (fun k r => row_order (now (i + k)%nat) r) rs.
Proof.
  induction rs as [|r rs IH]; intros i l Hrs; cbn [fmap list_fmap app deliver].
  { cbn. by rewrite app_nil_r. }
  apply Forall_cons in Hrs as [Hr Hrs]. destruct (row_text_spec r Hr) as (_ & _ & Hne & Hp).
  assert (Hn : nonempty (row_text r) = true) by (unfold nonempty; by destruct (row_text r)).
  rewrite Hn, Hp, IH by done. rewrite <- app_assoc. cbn [app imap]. f_equal.
  rewrite Nat.add_0_r. f_equal. apply imap_ext. intros k x _. cbn. by rewrite Nat.add_succ_r.
Qed.

(** The file is its rows' lines. *)
Lemma rows_file rs : Forall row_ok rs -> concat (write_row <$> rs) = file_of (row_text <$> rs).
Proof.
  unfold file_of. induction 1 as [|r rs Hr _ IH]; [done|].
  cbn [fmap list_fmap concat]. rewrite (proj1 (row_text_spec r Hr)). by f_equal.
Qed.

Lemma order_file_spec (now : nat -> Z) (ds : list Draw) :
  Forall draw_ok ds -> Forall row_in_range (rows 1 ds symbols) ->
  length (rows 1 ds symbols) = length ds /\
  exists data, orders_fix ds = Some data /\
    start (fun o l => l ++ [o]) now (fun _ => true) (Contents data) [] =
    Returns (imap (fun k r => row_order (now k) r) (rows 1 ds symbols)).
Proof.
  intros Hds Hrange. destruct (generate_rows ds 1 symbols [] Hds eq_refl) as (syms & Hg & Hl & Hr).
  split; [exact Hl|].
  assert (Hok : Forall row_ok (rows 1 ds symbols)).
  { apply Forall_forall. intros r Hin. rewrite Forall_forall in Hr, Hrange.
    destruct (Hr r Hin) as (H1 & H2 & H3). split; [lia|]. split; [done|]. split; [done|]. by apply Hrange. }
  exists (file_of (row_text <$> rows 1 ds symbols) ++ []). split.
  - unfold orders_fix. rewrite Hg, app_nil_r. cbn. by rewrite rows_file.
  - rewrite start_lines; [by rewrite deliver_rows|].
    constructor; [apply not_elem_of_nil|]. apply Forall_fmap. eapply Forall_impl; [exact Hok|].
    intros r Hrow. by apply row_text_spec.
Qed.

(** The generated order file, read back: for all draws within the ranges of
    the distributions, the loop of the order simulator stays within its vector
    and writes one line per draw, and a FIX session on the file delivers those
    orders, one per draw and in order, each with the identifier, symbol, side
    and quantity drawn and the price rounded to its cents — as long as the
    random walk stays within the ticks of the book. *)
Theorem order_file_roundtrip (now : nat -> Z) (ds : list Draw) :
  Forall draw_ok ds -> Forall row_in_range (rows 1 ds symbols) ->
  length (rows 1 ds symbols) = length ds /\
  exists data, orders_fix ds = Some data /\
    start (fun o l => l ++ [o]) now (fun _ => true) (Contents data) [] =
    Returns (imap (fun k r => row_order (now k) r) (rows 1 ds symbols)).
Proof. apply order_file_spec. Qed.

Lemma order_file_roundtrip_witness :
  let ds := [mkDraw 0 (lit (-1)) 0 30; mkDraw 5 (lit 1000) 1 10] in
  exists data o o', orders_fix ds = Some data /\
    start (fun o l => l ++ [o]) (fun _ => 7) (fun _ => true) (Contents data) [] = Returns [o; o'] /\
    price o = lit (14990 # 100) /\ c_str (symbol o') = B "GBPUSD" /\ quantity o' = 10.
Proof.
  set (ds := [mkDraw 0 (lit (-1)) 0 30; mkDraw 5 (lit 1000) 1 10]). cbv zeta.
  assert (Hds : Forall draw_ok ds)
    by (repeat constructor; cbn; lia).
  assert (Hr : Forall row_in_range (rows 1 ds symbols)).
  { repeat (constructor; [vm_compute; split; [intros E; discriminate E|reflexivity]|]). constructor. }
  destruct (order_file_roundtrip (fun _ => 7) ds Hds Hr) as (_ & data & H1 & H2).
  eexists data, _, _. split; [exact H1|]. split; [exact H2|].
  split_and!; vm_compute; reflexivity.
Defined.

End FixSim.

(** ** The tick sender *)

Module UdpSim.

Record SimSymbol := mkSim { sim_symbol : bytes; basePrice : double; currentPrice : double; vol : double }.

Definition symbols : list SimSymbol :=
  [mkSim (B "AAPL") (lit 150) (lit 150) (lit (15 # 100));
   mkSim (B "MSFT") (lit 300) (lit 300) (lit (20 # 100));
   mkSim (B "GOOGL") (lit 140) (lit 140) (lit (12 # 100));
   mkSim (B "TSLA") (lit 200) (lit 200) (lit (25 # 100));
   mkSim (B "ESZ4") (lit 4500) (lit 4500) (lit (150 # 100));
   mkSim (B "GBPUSD") (lit (125 # 100)) (lit (125 # 100)) (lit (2 # 1000))].

(** One turn's draws, and the steady clock. *)
Record Draw := mkDraw { d_sym : nat; d_noise : double; d_now : Z }.

(** The ranges of the distribution and of the clock. *)
Definition draw_ok (d : Draw) : Prop :=
  (d_sym d < 6)%nat /\ is_double (d_noise d) /\ - 2 ^ 63 <= d_now d < 2 ^ 63.

(** The random walk; below one cent it starts again from the base price. *)
Definition walk (sym : SimSymbol) (noise : double) : SimSymbol :=
  let p := (currentPrice sym + noise * vol sym)%D in
  mkSim (sim_symbol sym) (basePrice sym) (if flt p (lit (1 # 100)) then basePrice sym else p) (vol sym).

(** The tick of a symbol: one cent around its price. *)
Definition make_tick (sym : SimSymbol) (now : Z) : Tick :=
  mkTick (strncpy (zeros 8) (sim_symbol sym) 7)
    (currentPrice sym - lit (1 # 100))%D (currentPrice sym + lit (1 # 100))%D (currentPrice sym) now.

(** One turn of [sendLoop]: the tick it sends.  [None] is an index outside the
    vector. *)
Definition turn (d : Draw) (syms : list SimSymbol) : option (list SimSymbol * Tick) :=
  sym ← syms !! d_sym d;
  let sym := walk sym (d_noise d) in
  Some (<[d_sym d := sym]> syms, make_tick sym (d_now d)).

(** The ticks of [sendLoop]. *)
Fixpoint sendLoop (ds : list Draw) (syms : list SimSymbol) : option (list Tick) :=
  match ds with
  | [] => Some []
  | d :: ds' =>
      match turn d syms with
      | None => None
      | Some (syms', t) => cons t <$> sendLoop ds' syms'
      end
  end.

(** What [sendto] is given: the bytes of the ticks. *)
Definition datagrams (ds : list Draw) : option (list bytes) := map encode_tick <$> sendLoop ds symbols.

Example sendLoop_run :
  map (fun t => (c_str (tick_symbol t), flt (bid t) (ask t), timestamp_ns t)) <$>
    sendLoop [mkDraw 3 (lit 1) 10; mkDraw 5 (lit (-1000)) 20] symbols =
  Some [(B "TSLA", true, 10); (B "GBPUSD", true, 20)] /\
  map length <$> datagrams [mkDraw 0 fzero 5] = Some [TICK_SIZE].
Proof. vm_compute. done. Qed.

(** ** Every tick sent is a tick *)

Definition names (syms : list SimSymbol) : list bytes := sim_symbol <$> syms.

Definition sim_ok (sym : SimSymbol) : Prop :=
  is_double (basePrice sym) /\ is_double (currentPrice sym) /\ is_double (vol sym).

(** What a turn with symbol [name] sends: the symbol, the time, a valid [Tick]. *)
Definition sent_for (d : Draw) (t : Tick) : Prop :=
  tick_ok t /\ timestamp_ns t = d_now d /\
  exists name, names symbols !! d_sym d = Some name /\ tick_symbol t = strncpy (zeros 8) name 7.

Lemma walk_ok sym noise : sim_ok sym -> is_double noise -> sim_ok (walk sym noise).
Proof.
  intros (Hb & Hc & Hv) Hn. split_and!; cbn; [done| |done]. destruct (flt _ _); auto with double.
Qed.

Lemma make_tick_ok sym now : sim_ok sym -> - 2 ^ 63 <= now < 2 ^ 63 -> (length (sim_symbol sym) <= 7)%nat ->
  NUL ∉ sim_symbol sym -> tick_ok (make_tick sym now).
Proof.
  intros (_ & Hc & _) Hnow Hl Hnul. split_and!; cbn; auto with double; [|lia..].
  rewrite strncpy_short, length_app, zeros_length by done. lia.
Qed.

Lemma names_short name i : names symbols !! i = Some name -> (length name <= 7)%nat /\ NUL ∉ name.
Proof.
  assert (H : Forall (fun s => (length s <= 7)%nat /\ NUL ∉ s) (names symbols)) by byte_fresh.
  intros Hi. rewrite Forall_lookup in H. by apply (H i).
Qed.

Lemma turn_ok d syms : draw_ok d -> names syms = names symbols -> Forall sim_ok syms ->
  exists syms' t, turn d syms = Some (syms', t) /\ names syms' = names symbols /\ Forall sim_ok syms' /\
    sent_for d t.
Proof.
  intros (Hd & Hnoise & Hnow) Hn Hok.
  destruct (lookup_lt_is_Some_2 syms (d_sym d)) as [sym Hsym].
  { apply (f_equal length) in Hn. unfold names in Hn. rewrite !length_fmap in Hn. rewrite Hn. exact Hd. }
  assert (Hname : names symbols !! d_sym d = Some (sim_symbol sym)).
  { rewrite <- Hn. unfold names. by rewrite list_lookup_fmap, Hsym. }
  assert (Hs : sim_ok (walk sym (d_noise d))).
  { apply walk_ok; [|done]. rewrite Forall_lookup in Hok. by apply (Hok (d_sym d)). }
  destruct (names_short _ _ Hname) as [Hl Hnul].
  unfold turn. rewrite Hsym. cbn [mbind option_bind]. eexists _, _. split; [reflexivity|]. split_and!.
  - rewrite <- Hn. unfold names. rewrite list_fmap_insert. apply list_insert_id.
    by rewrite list_lookup_fmap, Hsym.
  - by apply Forall_insert.
  - split; [by apply make_tick_ok|]. split; [done|]. by exists (sim_symbol sym).
Qed.

(** Every turn sends a tick of the drawn symbol, whatever the noise did. *)
Lemma sendLoop_ticks ds : forall syms, names syms = names symbols -> Forall sim_ok syms -> Forall draw_ok ds ->
  exists ts, sendLoop ds syms = Some ts /\ Forall2 sent_for ds ts.
Proof.
  induction ds as [|d ds IH]; intros syms Hn Hok Hds; cbn [sendLoop]; [by exists []|].
  apply Forall_cons in Hds as [Hd Hds].
  destruct (turn_ok d syms Hd Hn Hok) as (syms' & t & -> & Hn' & Hok' & Ht).
  destruct (IH syms' Hn' Hok' Hds) as (ts & -> & Hts).
  exists (t :: ts). split; [done|]. by constructor.
Qed.

Lemma symbols_ok : Forall sim_ok symbols.
Proof. repeat (constructor; [by split_and!; apply lit_double|]). constructor. Qed.

End UdpSim.
