(* ===== verification/Clock.v ===== *)
(** * The clocks of latency_tracker.h

    [fast_now_ns] scales a hardware counter to nanoseconds on doubles; on
    x86-64 the factor is calibrated once against the system's clock.  The
    counters and the system clock are inputs: a reading is what
    [clock_gettime] and the cycle counter return in one turn.  The last part
    bounds what the conversions and the rounding make of the time. *)

From Stdlib Require Import QArith Qabs Lqa.
From S2P Require Import Prelude Float64 Float64Accuracy.

Local Open Scope Z_scope.

(** ** macOS: the timebase *)

Definition mach_to_ns (numer denom : Z) : double := (of_int numer / of_int denom)%D.

Definition mach_now_ns (kMachToNs : double) (ticks : Z) : Z := to_int64 (of_int ticks * kMachToNs)%D.

(** ** x86-64: the cycle counter *)

Record Timespec := mkTimespec { tv_sec : Z; tv_nsec : Z }.

Definition elapsed_ns (t1 t2 : Timespec) : double :=
  (of_int (tv_sec t2 - tv_sec t1) * lit 1000000000 + of_int (tv_nsec t2 - tv_nsec t1))%D.

(** [(uint64_t)hi << 32 | lo] *)
Definition tsc (hi lo : Z) : Z := Z.lor (Z.shiftl hi 32) lo.

(** The loop of [calibrate_tsc], over the readings it makes; [None] when it is
    still waiting after the last of them. *)
Fixpoint calibrate (t1 : Timespec) (c1 : Z) (readings : list (Timespec * Z)) : option double :=
  match readings with
  | [] => None
  | (t2, c2) :: rs =>
      let elapsed := elapsed_ns t1 t2 in
      if fle (lit 2000000) elapsed then Some (of_int (wrap_u64 (c2 - c1)) / elapsed)%D
      else calibrate t1 c1 rs
  end.

Definition calibrate_tsc (first : Timespec * Z) (readings : list (Timespec * Z)) : option double :=
  calibrate first.1 first.2 readings.

Definition tsc_now_ns (kTscGhz : double) (counter : Z) : Z := to_int64 (of_int counter / kTscGhz)%D.

Example calibrate_run :
  let ghz := calibrate_tsc (mkTimespec 7 999000000, 1000)
    [(mkTimespec 7 999500000, 1501000); (mkTimespec 8 1000000, 6001000)] in
  ghz = Some (lit 3) /\ (fun g => tsc_now_ns g 3000000) <$> ghz = Some 1000000.
Proof. vm_compute. done. Qed.

Example mach_run : mach_now_ns (mach_to_ns 1 1) 123456789 = 123456789 /\
  mach_now_ns (mach_to_ns 125 3) 24 = 1000.
Proof. vm_compute. done. Qed.

(** The calibration ends with the first reading at least two milliseconds after
    the start, and only then. *)
Lemma calibrate_first t1 c1 before t2 c2 after :
  Forall (fun r => fle (lit 2000000) (elapsed_ns t1 r.1) = false) before ->
  calibrate t1 c1 (before ++ (t2, c2) :: after) =
  if fle (lit 2000000) (elapsed_ns t1 t2) then Some (of_int (wrap_u64 (c2 - c1)) / elapsed_ns t1 t2)%D
  else calibrate t1 c1 after.
Proof.
  induction 1 as [|[t c] rs Hr _ IH]; [done|]. cbn [app calibrate]. cbn [fst] in Hr. by rewrite Hr.
Qed.

(** The counter is put together from its halves. *)
Lemma tsc_halves hi lo : 0 <= lo < 2 ^ 32 -> tsc hi lo = hi * 2 ^ 32 + lo.
Proof.
  intros Hlo. unfold tsc. pose proof (Z.add_lor_land (Z.shiftl hi 32) lo) as H.
  rewrite <- (Z.shiftl_mul_pow2 hi 32) by lia. rewrite <- H.
  enough (Z.land (Z.shiftl hi 32) lo = 0) by lia. apply Z.bits_inj'. intros n Hn. rewrite Z.land_spec, Z.bits_0.
  destruct (Z.ltb_spec n 32).
  - by rewrite Z.shiftl_spec_low.
  - rewrite <- (Z.mod_small lo (2 ^ 32)) by lia. rewrite Z.mod_pow2_bits_high by lia.
    by rewrite andb_false_r.
Qed.

(** ** Accuracy

    Counters of 64 bits, and what the chains of conversions make of them. *)

Definition u64 (z : Z) : Prop := 0 < z < 2 ^ 64.

(** The elapsed time of the calibration is exact. *)
Definition ns_between (t1 t2 : Timespec) : Z := (tv_sec t2 - tv_sec t1) * 1000000000 + (tv_nsec t2 - tv_nsec t1).

Definition near_in_time (t1 t2 : Timespec) : Prop :=
  Z.abs (tv_sec t2 - tv_sec t1) <= 9000000 /\ Z.abs (tv_nsec t2 - tv_nsec t1) <= 1000000000.

Lemma elapsed_exact t1 t2 : near_in_time t1 t2 -> is_int (elapsed_ns t1 t2) (ns_between t1 t2).
Proof.
  intros [Hs Hn]. unfold elapsed_ns, ns_between. apply is_int_add; [|apply is_int_of_int; lia|lia].
  apply is_int_mul; [apply is_int_of_int; lia| |lia].
  change (lit 1000000000) with (of_int 1000000000). apply is_int_of_int. lia.
Qed.

Lemma spins_on t1 t2 : near_in_time t1 t2 -> fle (lit 2000000) (elapsed_ns t1 t2) = (2000000 <=? ns_between t1 t2).
Proof.
  intros Ht. change (lit 2000000) with (of_int 2000000).
  apply is_int_fle; [by apply is_int_of_int|by apply elapsed_exact].
Qed.

Lemma elapsed_width t1 t2 : near_in_time t1 t2 -> 0 < ns_between t1 t2 ->
  exists e, normal (elapsed_ns t1 t2) e /\ -53 <= e < 2 /\ within 0 (elapsed_ns t1 t2) (inject_Z (ns_between t1 t2)).
Proof.
  intros Ht H0. pose proof (elapsed_exact t1 t2 Ht) as HE. pose proof (is_int_bound _ _ HE) as Hb.
  rewrite (is_int_pos _ _ HE H0). destruct (of_int_normal (ns_between t1 t2) ltac:(lia)) as [Hn Hv].
  eexists. split; [exact Hn|]. assert (Hw : within 0 (of_int (ns_between t1 t2)) (inject_Z (ns_between t1 t2)))
    by (apply within_exact; by rewrite Hv).
  split; [|done]. apply (within_exponent 0 _ _ (inject_Z (ns_between t1 t2)) 0 53 Hn); [lia|done|].
  apply inject_Z_bpow; lia.
Qed.

(** A reading in whole nanoseconds of a positive time: at most one nanosecond
    and [n] roundings away from it. *)
Definition reads_ns (n : nat) (reading : Z) (time : Q) : Prop :=
  (Qabs (inject_Z reading - time) <= 1 + inject_Z (Z.of_nat n) * (1 # 2 ^ 51) * time)%Q.

Lemma truncated_reads n x e v : normal x e -> Z.of_nat n <= 2 ^ 50 -> (0 < v)%Q -> (v < inject_Z (2 ^ 62))%Q ->
  within n x v -> reads_ns n (to_int64 x) v.
Proof.
  intros Hx Hn Hv Hb Hw. pose proof (normal_valQ x e Hx) as H0.
  pose proof (within_error n x v Hv ltac:(lra) ltac:(lia) Hw) as He.
  destruct (within_twice n x v Hv ltac:(lra) Hn Hw) as [_ H2].
  change (inject_Z (2 ^ 62)) with (4611686018427387904 # 1)%Q in Hb.
  destruct (to_int64_floor x e Hx) as [F1 F2].
  { change (inject_Z (2 ^ 63)) with (9223372036854775808 # 1)%Q. lra. }
  unfold reads_ns. apply Qabs_Qle_condition in He. apply Qabs_Qle_condition. lra.
Qed.

Lemma ratio_pos a b : 0 < a -> 0 < b -> (0 < inject_Z a / inject_Z b)%Q.
Proof. intros Ha%inject_pos Hb%inject_pos. apply Qlt_shift_div_l; lra. Qed.

Lemma ratio_width a b k l : 0 <= k -> 0 <= l -> 0 < a < 2 ^ k -> 0 < b < 2 ^ l ->
  (bpow (- l) <= inject_Z a / inject_Z b < bpow k)%Q.
Proof.
  intros Hk Hl Ha Hb. destruct (inject_Z_bpow a 0 k) as [A1 A2]; [lia..|].
  destruct (inject_Z_bpow b 0 l) as [B1 B2]; [lia..|]. change (bpow 0) with 1%Q in *.
  pose proof (bpow_pos (- l)) as Hp. assert (E : (bpow (- l) * bpow l == 1)%Q) by (rewrite <- bpow_plus; by rewrite Z.add_opp_diag_l).
  split; [apply Qle_shift_div_l|apply Qlt_shift_div_r]; [lra| |lra|].
  - assert (bpow (- l) * inject_Z b <= bpow (- l) * bpow l)%Q; [|lra].
    rewrite !(Qmult_comm (bpow (- l))). apply Qmult_le_compat_r; lra.
  - pose proof (bpow_pos k). assert (bpow k * 1 <= bpow k * inject_Z b)%Q; [|lra].
    rewrite !(Qmult_comm (bpow k)). apply Qmult_le_compat_r; lra.
Qed.

(** The factor [calibrate] returns, up to two roundings. *)
Lemma factor_width t1 t2 cycles : near_in_time t1 t2 -> 0 < ns_between t1 t2 -> u64 cycles ->
  exists e, normal (of_int cycles / elapsed_ns t1 t2)%D e /\ -106 <= e < 13 /\
    within 2 (of_int cycles / elapsed_ns t1 t2)%D (inject_Z cycles / inject_Z (ns_between t1 t2)).
Proof.
  intros Ht H0 Hc. destruct (elapsed_width t1 t2 Ht H0) as (e2 & Hn2 & He2 & Hw2).
  pose proof (is_int_bound _ _ (elapsed_exact t1 t2 Ht)).
  destruct (of_int_width cycles 64 ltac:(lia) Hc) as (e1 & Hn1 & He1 & Hw1).
  destruct (fdiv_within 1 0 _ _ e1 e2 (inject_Z cycles) (inject_Z (ns_between t1 t2)) Hn1 Hn2) as (e & Hn & Hw);
    [lia|apply inject_pos; unfold u64 in Hc; lia|by apply inject_pos|done..|].
  exists e. split; [done|]. split; [|done].
  apply (within_exponent 2 _ _ (inject_Z cycles / inject_Z (ns_between t1 t2)) (-53) 64 Hn); [lia|done|].
  apply (ratio_width _ _ 64 53); unfold u64 in Hc; lia.
Qed.

Lemma tsc_reads t1 t2 cycles c : near_in_time t1 t2 -> 0 < ns_between t1 t2 -> u64 cycles -> u64 c ->
  c * ns_between t1 t2 < 2 ^ 62 * cycles ->
  reads_ns 4 (tsc_now_ns (of_int cycles / elapsed_ns t1 t2)%D c)
    (inject_Z c * inject_Z (ns_between t1 t2) / inject_Z cycles).
Proof.
  intros Ht H0 Hcy Hc Hb. destruct (factor_width t1 t2 cycles Ht H0 Hcy) as (e1 & Hn1 & He1 & Hw1).
  destruct (of_int_width c 64 ltac:(lia) Hc) as (e2 & Hn2 & He2 & Hw2).
  assert (Pc : (0 < inject_Z c)%Q) by (apply inject_pos; unfold u64 in Hc; lia).
  assert (Py : (0 < inject_Z cycles)%Q) by (apply inject_pos; unfold u64 in Hcy; lia).
  pose proof (inject_pos (ns_between t1 t2) H0) as Pt.
  destruct (fdiv_within 1 2 _ _ e2 e1 (inject_Z c) (inject_Z cycles / inject_Z (ns_between t1 t2)) Hn2 Hn1)
    as (e & Hn & Hw); [lia|done|apply ratio_pos; unfold u64 in Hcy; lia|done..|].
  assert (E : (inject_Z c / (inject_Z cycles / inject_Z (ns_between t1 t2)) ==
    inject_Z c * inject_Z (ns_between t1 t2) / inject_Z cycles)%Q) by (field; lra).
  rewrite E in Hw. apply (truncated_reads 4 _ e); [done|done| | |done].
  - apply Qlt_shift_div_l; [done|]. rewrite Qmult_0_l. by apply Qmult_lt_0_compat.
  - apply Qlt_shift_div_r; [done|]. by rewrite <- !inject_Z_mult, <- Zlt_Qlt.
Qed.

Lemma mach_reads numer denom ticks : 0 < numer < 2 ^ 32 -> 0 < denom < 2 ^ 32 -> u64 ticks ->
  ticks * numer < 2 ^ 62 * denom ->
  reads_ns 5 (mach_now_ns (mach_to_ns numer denom) ticks) (inject_Z ticks * inject_Z numer / inject_Z denom).
Proof.
  intros Hn Hd Ht Hb. destruct (of_int_width numer 32 ltac:(lia) Hn) as (e1 & Hn1 & He1 & Hw1).
  destruct (of_int_width denom 32 ltac:(lia) Hd) as (e2 & Hn2 & He2 & Hw2).
  destruct (of_int_width ticks 64 ltac:(lia) Ht) as (e3 & Hn3 & He3 & Hw3).
  assert (Pn : (0 < inject_Z numer)%Q) by (apply inject_pos; lia).
  assert (Pd : (0 < inject_Z denom)%Q) by (apply inject_pos; lia).
  assert (Pt : (0 < inject_Z ticks)%Q) by (apply inject_pos; unfold u64 in Ht; lia).
  pose proof (ratio_pos numer denom ltac:(lia) ltac:(lia)) as Pr.
  destruct (fdiv_within 1 1 _ _ e1 e2 (inject_Z numer) (inject_Z denom) Hn1 Hn2) as (e4 & Hn4 & Hw4); [lia|done..|].
  assert (He4 : -32 - 53 <= e4 < 32 - 51).
  { apply (within_exponent 3 _ _ (inject_Z numer / inject_Z denom) (-32) 32 Hn4); [lia|done|].
    apply (ratio_width _ _ 32 32); lia. }
  destruct (fmul_within 1 3 _ _ e3 e4 (inject_Z ticks) (inject_Z numer / inject_Z denom) Hn3 Hn4) as (e & Hf & Hw);
    [lia|done..|].
  assert (E : (inject_Z ticks * (inject_Z numer / inject_Z denom) == inject_Z ticks * inject_Z numer / inject_Z denom)%Q)
    by (field; lra).
  rewrite E in Hw. apply (truncated_reads 5 _ e); [done|done| | |done].
  - apply Qlt_shift_div_l; [done|]. rewrite Qmult_0_l. by apply Qmult_lt_0_compat.
  - apply Qlt_shift_div_r; [done|]. by rewrite <- !inject_Z_mult, <- Zlt_Qlt.
Qed.

(** C37. The cycle counter is read as nanoseconds to rounding error.  When the
    readings of [calibrate_tsc] stay within a hundred days of the first, the
    loop passes over those of the first two milliseconds and takes the next,
    [cycles] and [ns] after the start; from then on a counter value [c] that
    stands for less than 2^62 nanoseconds is reported within one nanosecond and
    a relative error of 2^-49 of the true [c * ns / cycles].  No conversion
    overflows, whatever the counter's frequency.  On macOS the time base does
    not come from a measurement, and the error is five roundings. *)
Theorem clock_accuracy :
  (forall t1 c1 before t2 c2 after c,
    Forall (fun r => near_in_time t1 r.1 /\ ns_between t1 r.1 < 2000000) before ->
    near_in_time t1 t2 -> 2000000 <= ns_between t1 t2 -> u64 (c2 - c1) -> u64 c ->
    c * ns_between t1 t2 < 2 ^ 62 * (c2 - c1) ->
    exists ghz, calibrate_tsc (t1, c1) (before ++ (t2, c2) :: after) = Some ghz /\
      reads_ns 4 (tsc_now_ns ghz c) (inject_Z c * inject_Z (ns_between t1 t2) / inject_Z (c2 - c1))) /\
  (forall numer denom ticks, 0 < numer < 2 ^ 32 -> 0 < denom < 2 ^ 32 -> u64 ticks -> ticks * numer < 2 ^ 62 * denom ->
    reads_ns 5 (mach_now_ns (mach_to_ns numer denom) ticks) (inject_Z ticks * inject_Z numer / inject_Z denom)).
Proof.
  split; [|exact mach_reads]. intros t1 c1 before t2 c2 after c Hb Ht H2 Hcy Hc Hv.
  unfold calibrate_tsc; cbn [fst snd]. rewrite calibrate_first.
  - rewrite spins_on, (proj2 (Z.leb_le _ _)), wrap_u_id by (done || unfold u64 in Hcy; lia).
    eexists. split; [done|]. apply tsc_reads; done || lia.
  - eapply Forall_impl; [exact Hb|]. intros [t k] [Hr Hs]; cbn [fst] in *. rewrite spins_on by done. by apply Z.leb_gt.
Qed.

(** A 3 GHz counter, calibrated by the second reading. *)
Lemma clock_accuracy_witness :
  let start := mkTimespec 7 999000000 in let stop := mkTimespec 8 1000000 in
  (exists ghz, calibrate_tsc (start, 1000) ([(mkTimespec 7 999500000, 1501000)] ++ [(stop, 6001000)]) = Some ghz /\
    reads_ns 4 (tsc_now_ns ghz 9000000000000001)
      (inject_Z 9000000000000001 * inject_Z (ns_between start stop) / inject_Z (6001000 - 1000))) /\
  reads_ns 5 (mach_now_ns (mach_to_ns 125 3) 24) (inject_Z 24 * inject_Z 125 / inject_Z 3).
Proof.
  intros start stop. destruct clock_accuracy as [tsc mach]. split.
  - assert (Hb : Forall (fun r : Timespec * Z => near_in_time start r.1 /\ ns_between start r.1 < 2000000)
      [(mkTimespec 7 999500000, 1501000)]) by (repeat constructor; discriminate).
    refine (tsc start 1000 _ stop 6001000 [] 9000000000000001 Hb _ _ _ _ _); repeat constructor; discriminate.
  - apply mach; repeat constructor; discriminate.
Defined.
