(* ===== verification/LatencyTracker.v ===== *)
(** * The latency histogram of latency_tracker.h

    64 power-of-two buckets with a count, a sum, a maximum and a minimum.
    The counters are atomics updated with relaxed order; the model is one
    thread's sequence of calls.  The compare-and-swap loops for the extrema
    are one assignment when no other thread interferes. *)

From Stdlib Require Import Ascii.
From S2P Require Import Prelude Float64 CString Messages Numerals TickBitset.

Local Open Scope Z_scope.

Definition BUCKETS : Z := 64.

(** [ns] is the [uint64_t] argument. *)
Definition bucket_of (ns : Z) : Z :=
  if ns =? 0 then 0
  else let b := 63 - builtin_clzll ns in if b <? BUCKETS then b else BUCKETS - 1.

Record LatencyTracker := mkTracker {
  buckets_ : gmap Z Z;      (* std::array<std::atomic<uint64_t>, 64> *)
  count_ : Z;               (* uint64_t *)
  sum_ns_ : Z;              (* int64_t *)
  max_ns_ : Z;              (* int64_t *)
  min_ns_ : Z }.            (* int64_t *)

Definition reset (_ : LatencyTracker) : LatencyTracker := mkTracker ∅ 0 0 0 INT64_MAX.

Definition LatencyTracker_new : LatencyTracker := mkTracker ∅ 0 0 0 INT64_MAX.

Definition bucket (h : LatencyTracker) (b : Z) : Z := vget 0 (buckets_ h) b.

Definition record (h : LatencyTracker) (ns : Z) : LatencyTracker :=
  if ns <? 0 then h else
  let ns := if ns =? 0 then 1 else ns in
  let b := bucket_of ns in
  mkTracker (<[b := wrap_u64 (bucket h b + 1)]> (buckets_ h))
    (wrap_u64 (count_ h + 1)) (wrap_i64 (sum_ns_ h + ns))
    (if max_ns_ h <? ns then ns else max_ns_ h)
    (if ns <? min_ns_ h then ns else min_ns_ h).

(** [static_cast<uint64_t>(static_cast<double>(total) * pct / 100.0)]; a value
    outside the range of [uint64_t] is undefined and taken to be 0. *)
Definition target_of (total : Z) (pct : double) : Z :=
  match trunc (of_int total * pct / of_int 100)%D with
  | Some z => if (0 <=? z) && (z <? 2 ^ 64) then z else 0
  | None => 0
  end.

(** The loop of [percentile] over the buckets [b], [b + 1], ... ([n] of them),
    with [cum] the samples of the buckets before; [None] when it falls through. *)
Fixpoint percentile_scan (h : LatencyTracker) (target : Z) (n : nat) (b cum : Z) : option Z :=
  match n with
  | O => None
  | S n' =>
      let cum := wrap_u64 (cum + bucket h b) in
      if target <=? cum then Some (if b =? 0 then 1 else wrap_i64 (Z.shiftl 1 b))
      else percentile_scan h target n' (b + 1) cum
  end.

Definition percentile_at (h : LatencyTracker) (target : Z) : Z :=
  default (max_ns_ h) (percentile_scan h target (Z.to_nat BUCKETS) 0 0).

Definition percentile (h : LatencyTracker) (pct : double) : Z :=
  if count_ h =? 0 then 0 else percentile_at h (target_of (count_ h) pct).

Definition count (h : LatencyTracker) : Z := count_ h.
Definition max (h : LatencyTracker) : Z := max_ns_ h.
Definition min (h : LatencyTracker) : Z := if min_ns_ h =? INT64_MAX then 0 else min_ns_ h.

Definition mean (h : LatencyTracker) : double :=
  if count_ h =? 0 then fzero else (of_int (sum_ns_ h) / of_int (count_ h))%D.

(** The two bytes of the UTF-8 letter mu. *)
Definition mu : bytes := ["194"; "181"]%char.

Definition fmt_ns (ns : Z) : bytes :=
  if ns <? 1000 then to_string ns ++ B " ns"
  else if ns <? 1000000 then show_fixed2 (of_int ns / of_int 1000)%D ++ B " " ++ mu ++ B "s"
  else show_fixed2 (of_int ns / of_int 1000000)%D ++ B " ms".

(** [report]: the text written to the stream.  [percentile] reads the counters
    again, which nobody changes here. *)
Definition report (h : LatencyTracker) (name : bytes) : bytes :=
  let n := count_ h in
  if n =? 0 then B "  " ++ name ++ B ": no samples yet" ++ NL else
  let p50 := percentile h (of_int 50) in
  let p75 := percentile h (of_int 75) in
  let p95 := percentile h (of_int 95) in
  let p99 := percentile h (of_int 99) in
  let p999 := percentile h (of_ratio false 999 10) in
  let p9999 := percentile h (of_ratio false 9999 100) in
  let jitter := wrap_i64 (p99 - p50) in
  B "  " ++ name ++ B "  (" ++ show n ++ B " samples)" ++ NL
  ++ B "    p50=" ++ fmt_ns p50
  ++ B "   p75=" ++ fmt_ns p75
  ++ B "   p95=" ++ fmt_ns p95
  ++ B "   p99=" ++ fmt_ns p99 ++ NL
  ++ B "    p99.9=" ++ fmt_ns p999
  ++ B "  p99.99=" ++ fmt_ns p9999
  ++ B "   max=" ++ fmt_ns (max h)
  ++ B "   mean=" ++ fmt_ns (to_int64 (mean h)) ++ NL
  ++ B "    jitter(p99-p50)=" ++ fmt_ns jitter
  ++ B "   min=" ++ fmt_ns (min h) ++ NL.

(** [ScopedLatency]: the scope is entered at [start] and left at [stop]. *)
Definition scoped_latency (h : LatencyTracker) (start stop : Z) : LatencyTracker :=
  record h (wrap_i64 (stop - start)).

(** ** Claims on concrete runs *)

Example report_run :
  report LatencyTracker_new (B "ticks") = B "  ticks: no samples yet" ++ NL /\
  report (foldl record LatencyTracker_new [100; 100; 5000]) (B "ticks") =
    B "  ticks  (3 samples)" ++ NL ++
    B "    p50=64 ns   p75=64 ns   p95=64 ns   p99=64 ns" ++ NL ++
    B "    p99.9=64 ns  p99.99=64 ns   max=5.00 " ++ mu ++ B "s   mean=1.73 " ++ mu ++ B "s" ++ NL ++
    B "    jitter(p99-p50)=0 ns   min=100 ns" ++ NL.
Proof. vm_compute. done. Qed.

Example fmt_ns_run : fmt_ns 123 = B "123 ns" /\ fmt_ns 4560 = B "4.56 " ++ mu ++ B "s" /\
  fmt_ns 7890000 = B "7.89 ms" /\ fmt_ns (-5) = B "-5 ns".
Proof. vm_compute. done. Qed.

Example bucket_of_run : bucket_of 0 = 0 /\ bucket_of 1 = 0 /\ bucket_of 255 = 7 /\ bucket_of 256 = 8 /\
  bucket_of 511 = 8 /\ bucket_of INT64_MAX = 62.
Proof. vm_compute. done. Qed.

(** ** What a histogram holds *)

(** The samples of a sequence of calls: negative ones are ignored, zero counts
    as one. *)
Definition samples (xs : list Z) : list Z :=
  (fun x => Z.max x 1) <$> filter (fun x => 0 <= x) xs.

Definition sample_ok (x : Z) : Prop := 1 <= x <= INT64_MAX.

(** The number of samples below [v]. *)
Definition below (v : Z) (l : list Z) : Z := Z.of_nat (length (filter (fun x => x < v) l)).

Lemma bucket_of_spec x : sample_ok x ->
  0 <= bucket_of x < 63 /\ 2 ^ bucket_of x <= x < 2 ^ (bucket_of x + 1).
Proof.
  intros Hx. unfold sample_ok in Hx. unfold bucket_of, builtin_clzll, BUCKETS.
  rewrite (proj2 (Z.eqb_neq _ _)) by lia.
  pose proof (Z.log2_nonneg x). pose proof (Z.log2_spec x ltac:(lia)) as Hlog.
  assert (Z.log2 x < 63) by (apply Z.log2_lt_pow2; lia).
  replace (63 - (63 - Z.log2 x)) with (Z.log2 x) by lia.
  rewrite (proj2 (Z.ltb_lt _ _)) by lia. split; [lia|]. by rewrite Z.add_1_r.
Qed.

(** The samples in buckets up to [b] are those below [2 ^ (b + 1)]. *)
Lemma bucket_below x b : sample_ok x -> 0 <= b -> bucket_of x <= b <-> x < 2 ^ (b + 1).
Proof.
  intros Hx Hb. destruct (bucket_of_spec x Hx) as [Hr [Hlo Hhi]]. split; intros H.
  - eapply Z.lt_le_trans; [exact Hhi|]. apply Z.pow_le_mono_r; lia.
  - destruct (decide (bucket_of x <= b)); [done|].
    assert (2 ^ (b + 1) <= 2 ^ bucket_of x) by (apply Z.pow_le_mono_r; lia). lia.
Qed.

Definition in_bucket (b : Z) (l : list Z) : Z := Z.of_nat (length (filter (fun x => bucket_of x = b) l)).

Record holds (h : LatencyTracker) (l : list Z) : Prop := {
  ho_ok : Forall sample_ok l;
  ho_buckets : forall b, bucket h b = in_bucket b l;
  ho_count : count_ h = Z.of_nat (length l);
  ho_max : max_ns_ h = foldr Z.max 0 l;
  ho_min : min_ns_ h = foldr Z.min INT64_MAX l;
  ho_sum : sum_ns_ h = wrap_i64 (foldr Z.add 0 l) }.

Lemma holds_new : holds LatencyTracker_new [].
Proof. by split. Qed.

Lemma filter_length_le {A} (P : A -> Prop) `{!forall x, Decision (P x)} (l : list A) :
  (length (filter P l) <= length l)%nat.
Proof. induction l as [|x l IH]; [done|]. rewrite filter_cons. case_decide; cbn; lia. Qed.

Lemma in_bucket_cons b x l : in_bucket b (x :: l) = (if decide (bucket_of x = b) then 1 else 0) + in_bucket b l.
Proof. unfold in_bucket. rewrite filter_cons. case_decide; cbn [length]; lia. Qed.

Lemma in_bucket_perm b l l' : l ≡ₚ l' -> in_bucket b l = in_bucket b l'.
Proof. intros H. unfold in_bucket. by rewrite H. Qed.

Lemma max_perm l l' : l ≡ₚ l' -> foldr Z.max 0 l = foldr Z.max 0 l'.
Proof. induction 1; cbn; lia. Qed.

Lemma min_perm l l' : l ≡ₚ l' -> foldr Z.min INT64_MAX l = foldr Z.min INT64_MAX l'.
Proof. induction 1; cbn; lia. Qed.

Lemma sum_perm l l' : l ≡ₚ l' -> foldr Z.add 0 l = foldr Z.add 0 l'.
Proof. induction 1; cbn; lia. Qed.

(** The order of the samples does not matter. *)
Lemma holds_perm h l l' : l ≡ₚ l' -> holds h l -> holds h l'.
Proof.
  intros Hp [Hok Hb Hc Hmax Hmin Hsum]. split.
  - by rewrite <- Hp.
  - intros b. by rewrite <- (in_bucket_perm b _ _ Hp).
  - by rewrite <- Hp.
  - by rewrite <- (max_perm _ _ Hp).
  - by rewrite <- (min_perm _ _ Hp).
  - by rewrite <- (sum_perm _ _ Hp).
Qed.

Lemma samples_positive xs : Forall (fun x => 1 <= x) xs -> samples xs = xs.
Proof.
  unfold samples. induction 1 as [|x xs Hx _ IH]; [done|].
  rewrite filter_cons, decide_True by lia. cbn [fmap list_fmap]. f_equal; [lia|exact IH].
Qed.

(** One call of [record]: the newest sample goes in front. *)
Lemma record_holds h l ns : holds h l -> ns <= INT64_MAX -> Z.of_nat (length l) + 1 < 2 ^ 64 ->
  holds (record h ns) (if ns <? 0 then l else Z.max ns 1 :: l).
Proof.
  intros H Hns Hlen. unfold record. destruct (Z.ltb_spec ns 0) as [|H0]; [done|].
  destruct H as [Hok Hb Hc Hmax Hmin Hsum].
  assert (Hx : (if ns =? 0 then 1 else ns) = Z.max ns 1) by (zcases; lia). rewrite Hx.
  assert (Hxo : sample_ok (Z.max ns 1)) by (unfold sample_ok; lia).
  set (x := Z.max ns 1) in *. split; cbn [buckets_ count_ max_ns_ min_ns_ sum_ns_ foldr].
  - by constructor.
  - intros b. unfold bucket at 1; cbn [buckets_]. rewrite vget_insert, in_bucket_cons.
    case_decide as E; [|rewrite <- Hb; unfold bucket; lia]. rewrite Hb, <- E.
    rewrite wrap_u_id; [lia|]. unfold in_bucket.
    pose proof (filter_length_le (fun y => bucket_of y = bucket_of x) l). lia.
  - rewrite Hc. cbn [length]. rewrite wrap_u_id; lia.
  - rewrite Hmax. zcases; lia.
  - rewrite Hmin. zcases; lia.
  - rewrite Hsum, wrap_s_add by lia. f_equal. lia.
Qed.

Lemma record_all_holds ns : forall h l, holds h l -> Forall (fun x => x <= INT64_MAX) ns ->
  Z.of_nat (length l + length ns) < 2 ^ 64 ->
  exists l', holds (foldl record h ns) l' /\ l' ≡ₚ samples ns ++ l.
Proof.
  unfold samples. induction ns as [|x ns IH]; intros h l H Hns Hlen; cbn [foldl length] in *.
  { by exists l. }
  apply Forall_cons in Hns as [Hx Hns].
  pose proof (record_holds h l x H Hx ltac:(lia)) as H1.
  rewrite filter_cons. destruct (Z.ltb_spec x 0).
  - rewrite decide_False by lia. apply (IH _ _ H1 Hns). lia.
  - rewrite decide_True by lia. destruct (IH _ _ H1 Hns) as (l' & Hl' & Hp); [cbn [length]; lia|].
    exists l'. split; [done|]. rewrite Hp. cbn [fmap list_fmap app]. symmetry. apply Permutation_middle.
Qed.

(** From the first call on. *)
Lemma record_new_holds ns : Forall (fun x => x <= INT64_MAX) ns -> Z.of_nat (length ns) < 2 ^ 64 ->
  holds (foldl record LatencyTracker_new ns) (samples ns).
Proof.
  intros Hns Hlen.
  destruct (record_all_holds ns _ [] holds_new Hns ltac:(cbn; lia)) as (l & Hl & Hp).
  rewrite app_nil_r in Hp. by eapply holds_perm.
Qed.

(** ** Percentiles *)

Lemma below_step l b : Forall sample_ok l -> 0 <= b ->
  below (2 ^ (b + 1)) l = below (2 ^ b) l + in_bucket b l.
Proof.
  intros Hl Hb. unfold below, in_bucket. induction Hl as [|x l Hx Hl IH]; [done|].
  rewrite !filter_cons. destruct (bucket_of_spec x Hx) as [Hr [Hlo Hhi]].
  pose proof (bucket_below x b Hx Hb) as H1.
  assert (H2 : x < 2 ^ b <-> bucket_of x < b).
  { destruct (decide (b = 0)) as [->|]; [unfold sample_ok in Hx; change (2 ^ 0) with 1; lia|].
    pose proof (bucket_below x (b - 1) Hx ltac:(lia)) as H.
    replace (b - 1 + 1) with b in H by lia. lia. }
  repeat case_decide; cbn [length]; lia.
Qed.

Lemma below_perm v l l' : l ≡ₚ l' -> below v l = below v l'.
Proof. intros H. unfold below. by rewrite H. Qed.

Lemma below_le v l : below v l <= Z.of_nat (length l).
Proof. unfold below. pose proof (filter_length_le (fun x => x < v) l). lia. Qed.

Lemma below_mono v v' l : v <= v' -> below v l <= below v' l.
Proof.
  intros H. unfold below. induction l as [|x l IH]; [done|]. rewrite !filter_cons.
  repeat case_decide; cbn [length]; lia.
Qed.

Lemma below_all l : Forall sample_ok l -> below (2 ^ 63) l = Z.of_nat (length l).
Proof.
  intros Hl. unfold below. induction Hl as [|x l Hx _ IH]; [done|].
  rewrite filter_cons, decide_True by (unfold sample_ok in Hx; lia). cbn [length]. lia.
Qed.

Lemma below_1 l : Forall sample_ok l -> below 1 l = 0.
Proof.
  intros Hl. unfold below. induction Hl as [|x l Hx _ IH]; [done|].
  rewrite filter_cons, decide_False by (unfold sample_ok in Hx; lia). done.
Qed.

Lemma percentile_scan_spec h l target n : forall b,
  holds h l -> Z.of_nat (length l) < 2 ^ 64 -> 0 <= b -> 63 < b + Z.of_nat n ->
  below (2 ^ b) l < target <= Z.of_nat (length l) ->
  exists b', b <= b' <= 62 /\ percentile_scan h target n b (below (2 ^ b) l) = Some (2 ^ b') /\
    below (2 ^ b') l < target <= below (2 ^ (b' + 1)) l.
Proof.
  induction n as [|n IH]; intros b H Hlen Hb Hn Ht.
  { exfalso. assert (H0 : 2 ^ 63 <= 2 ^ b) by (apply Z.pow_le_mono_r; lia).
    pose proof (below_all l (ho_ok _ _ H)) as Hall.
    pose proof (below_mono _ _ l H0). lia. }
  cbn [percentile_scan]. rewrite (ho_buckets _ _ H), <- below_step by (done || apply (ho_ok _ _ H)).
  rewrite wrap_u_id by (pose proof (below_le (2 ^ (b + 1)) l); unfold below in *; lia).
  destruct (Z.leb_spec target (below (2 ^ (b + 1)) l)) as [Hle|Hgt].
  - exists b. assert (b <= 62).
    { destruct (decide (b <= 62)); [done|]. pose proof (below_all l (ho_ok _ _ H)) as Hall.
      assert (Hm : 2 ^ 63 <= 2 ^ b) by (apply Z.pow_le_mono_r; lia).
      pose proof (below_mono _ _ l Hm). lia. }
    split; [lia|]. split; [|lia]. f_equal.
    destruct (Z.eqb_spec b 0) as [->|]; [done|].
    rewrite Z.shiftl_1_l. unfold wrap_s.
    assert (2 ^ b <= 2 ^ 62) by (apply Z.pow_le_mono_r; lia).
    assert (0 < 2 ^ b) by (apply Z.pow_pos_nonneg; lia).
    rewrite Z.mod_small by lia. by rewrite (proj2 (Z.ltb_lt _ _)) by lia.
  - destruct (IH (b + 1) H Hlen ltac:(lia) ltac:(lia) ltac:(lia)) as (b' & Hb' & E & Hr).
    exists b'. split; [lia|done].
Qed.

(** ** Claims *)

(** After any calls of [record], the count, the maximum, the minimum and
    the sum are those of the samples (negative values ignored, zero counted as
    one nanosecond), and bucket [b] holds the samples in [2^b, 2^(b+1)). *)
Theorem histogram_exact (ns : list Z) :
  Forall (fun x => x <= INT64_MAX) ns -> Z.of_nat (length ns) < 2 ^ 64 ->
  let h := foldl record LatencyTracker_new ns in
  let l := samples ns in
  count h = Z.of_nat (length l) /\ max h = foldr Z.max 0 l /\
  min h = (if decide (foldr Z.min INT64_MAX l = INT64_MAX) then 0 else foldr Z.min INT64_MAX l) /\
  sum_ns_ h = wrap_i64 (foldr Z.add 0 l) /\
  forall b, 0 <= b -> bucket h b = below (2 ^ (b + 1)) l - below (2 ^ b) l.
Proof.
  intros Hns Hlen h l.
  destruct (record_new_holds ns Hns Hlen) as [Hok Hb Hc Hmax Hmin Hsum]. fold h l in Hok, Hb, Hc, Hmax, Hmin, Hsum.
  split_and!; [exact Hc|exact Hmax| |exact Hsum|].
  - unfold min. rewrite Hmin. zcases; case_decide; congruence.
  - intros b Hb0. rewrite below_step, Hb by done. lia.
Qed.

Lemma histogram_exact_witness :
  let h := foldl record LatencyTracker_new [300; -5; 0; 1000] in
  count h = 3 /\ max h = 1000 /\ bucket h 8 = 1.
Proof.
  assert (H : Forall (fun x => x <= INT64_MAX) [300; -5; 0; 1000]) by (repeat (constructor; [lia|]); constructor).
  destruct (histogram_exact [300; -5; 0; 1000] H eq_refl) as (H1 & H2 & _ & _ & H5).
  split; [exact H1|]. split; [exact H2|]. exact (H5 8 ltac:(lia)).
Defined.

(** A percentile of rank [target] is right to a factor of two: for a rank
    from 1 to the number of samples the loop stops at a bucket, and the result
    [r] is the power of two with fewer than [target] samples below [r] and at
    least [target] below [2 * r]: the sample of that rank is in [r, 2 * r). *)
Theorem percentile_rank (ns : list Z) (target : Z) :
  Forall (fun x => x <= INT64_MAX) ns -> Z.of_nat (length ns) < 2 ^ 64 ->
  let h := foldl record LatencyTracker_new ns in
  1 <= target <= count h ->
  let r := percentile_at h target in
  below r (samples ns) < target <= below (2 * r) (samples ns).
Proof.
  intros Hns Hlen h Ht r.
  pose proof (record_new_holds ns Hns Hlen) as H. fold h in H. set (l := samples ns) in *.
  unfold count in Ht. rewrite (ho_count _ _ H) in Ht.
  assert (Hl : Z.of_nat (length l) < 2 ^ 64).
  { unfold l, samples. rewrite length_fmap. pose proof (filter_length_le (fun x => 0 <= x) ns). lia. }
  pose proof (below_1 l (ho_ok _ _ H)) as H1.
  destruct (percentile_scan_spec h l target 64 0 H Hl ltac:(lia) ltac:(lia)
    ltac:(change (2 ^ 0) with 1; lia)) as (b & Hb & E & Hr).
  change (2 ^ 0) with 1 in E. rewrite H1 in E.
  assert (Er : r = 2 ^ b) by (unfold r, percentile_at; change (Z.to_nat BUCKETS) with 64%nat; by rewrite E).
  rewrite Er, <- Z.pow_succ_r, <- Z.add_1_r by lia. exact Hr.
Qed.

Lemma percentile_rank_witness :
  let h := foldl record LatencyTracker_new [300; 1000; 70; 90] in
  percentile_at h 3 = 256 /\ below 256 (samples [300; 1000; 70; 90]) < 3 <= below 512 (samples [300; 1000; 70; 90]).
Proof.
  assert (H : Forall (fun x => x <= INT64_MAX) [300; 1000; 70; 90]) by (repeat (constructor; [lia|]); constructor).
  assert (E : percentile_at (foldl record LatencyTracker_new [300; 1000; 70; 90]) 3 = 256) by reflexivity.
  split; [exact E|].
  pose proof (percentile_rank [300; 1000; 70; 90] 3 H eq_refl ltac:(vm_compute; split; congruence)) as Hr.
  cbv zeta in Hr. rewrite E in Hr. exact Hr.
Defined.
