(* ===== verification/LatencyConcurrent.v ===== *)
(** * [record] from several threads: latency_tracker.h

    [LatencyTracker] takes the calls one after the other; here any number of
    threads run [record] at once on the same object, every atomic operation a
    step of its own.  The counters are changed by [fetch_add]; the extrema by a
    load and a loop of [compare_exchange_weak].  All orders are relaxed: with
    [weak], a load (and a failed exchange) may give a value the variable no
    longer has, and an exchange may fail although it has the expected one. *)

From S2P Require Import Prelude Threads LatencyTracker.

Local Open Scope Z_scope.

(** Where a thread is in [record]: before the [fetch_add] of the bucket, of the
    count and of the sum, before the load of an extremum, and in the loop that
    updates it, [cur] being the local variable. *)
Inductive pc :=
  | Ready
  | AddBucket (ns : Z) | AddCount (ns : Z) | AddSum (ns : Z)
  | LoadMax (ns : Z) | TryMax (ns cur : Z)
  | LoadMin (ns : Z) | TryMin (ns cur : Z).

#[global] Instance pc_eq_dec : EqDecision pc.
Proof. solve_decision. Defined.

Record thread := mkThread {
  todo : list Z;     (* the arguments of the calls to come *)
  at_ : pc }.

#[global] Instance thread_eq_dec : EqDecision thread.
Proof. solve_decision. Defined.

Definition state : Type := LatencyTracker * list thread.

(** ** The atomic operations *)

Definition add_bucket (h : LatencyTracker) (ns : Z) : LatencyTracker :=
  mkTracker (<[bucket_of ns := wrap_u64 (bucket h (bucket_of ns) + 1)]> (buckets_ h))
    (count_ h) (sum_ns_ h) (max_ns_ h) (min_ns_ h).

Definition add_count (h : LatencyTracker) : LatencyTracker :=
  mkTracker (buckets_ h) (wrap_u64 (count_ h + 1)) (sum_ns_ h) (max_ns_ h) (min_ns_ h).

Definition add_sum (h : LatencyTracker) (ns : Z) : LatencyTracker :=
  mkTracker (buckets_ h) (count_ h) (wrap_i64 (sum_ns_ h + ns)) (max_ns_ h) (min_ns_ h).

Definition set_max (h : LatencyTracker) (ns : Z) : LatencyTracker :=
  mkTracker (buckets_ h) (count_ h) (sum_ns_ h) ns (min_ns_ h).

Definition set_min (h : LatencyTracker) (ns : Z) : LatencyTracker :=
  mkTracker (buckets_ h) (count_ h) (sum_ns_ h) (max_ns_ h) ns.

Section Step.
Variable weak : bool.

(** The maximum only grows from 0 and the minimum only falls from [INT64_MAX],
    so that every value they have had is in these ranges. *)
Definition reads_max (h : LatencyTracker) (v : Z) : Prop :=
  v = max_ns_ h \/ weak = true /\ 0 <= v <= max_ns_ h.

Definition reads_min (h : LatencyTracker) (v : Z) : Prop :=
  v = min_ns_ h \/ weak = true /\ min_ns_ h <= v <= INT64_MAX.

(** One operation inside [record]. *)
Inductive micro (h : LatencyTracker) : pc -> LatencyTracker -> pc -> Prop :=
| fetch_bucket ns : micro h (AddBucket ns) (add_bucket h ns) (AddCount ns)
| fetch_count ns : micro h (AddCount ns) (add_count h) (AddSum ns)
| fetch_sum ns : micro h (AddSum ns) (add_sum h ns) (LoadMax ns)
| load_max ns v : reads_max h v -> micro h (LoadMax ns) h (TryMax ns v)
| max_done ns cur : ns <= cur -> micro h (TryMax ns cur) h (LoadMin ns)
| max_swap ns cur : cur < ns -> cur = max_ns_ h -> micro h (TryMax ns cur) (set_max h ns) (LoadMin ns)
| max_retry ns cur v : cur < ns -> weak = true \/ cur <> max_ns_ h -> reads_max h v ->
    micro h (TryMax ns cur) h (TryMax ns v)
| load_min ns v : reads_min h v -> micro h (LoadMin ns) h (TryMin ns v)
| min_done ns cur : cur <= ns -> micro h (TryMin ns cur) h Ready
| min_swap ns cur : ns < cur -> cur = min_ns_ h -> micro h (TryMin ns cur) (set_min h ns) Ready
| min_retry ns cur v : ns < cur -> weak = true \/ cur <> min_ns_ h -> reads_min h v ->
    micro h (TryMin ns cur) h (TryMin ns v).

(** The beginning of a call: negative values are ignored, zero counts as one. *)
Definition begin (ns : Z) : pc :=
  if ns <? 0 then Ready else AddBucket (if ns =? 0 then 1 else ns).

Inductive step : state -> state -> Prop :=
| call h ts i ns l : ts !! i = Some (mkThread (ns :: l) Ready) ->
    step (h, ts) (h, <[i := mkThread l (begin ns)]> ts)
| operate h ts i t h' p : ts !! i = Some t -> micro h (at_ t) h' p ->
    step (h, ts) (h', <[i := mkThread (todo t) p]> ts).
End Step.

Definition start (calls : list (list Z)) : state :=
  (LatencyTracker_new, (fun l => mkThread l Ready) <$> calls).

Definition finished (ts : list thread) : Prop := Forall (fun t => t = mkThread [] Ready) ts.

(** ** What is still to be added

    The samples a thread has not yet added to the bucket counts ([1]), to the
    count ([2]), the sum ([3]), the maximum ([4]) and the minimum ([5]). *)

Definition stage (p : pc) : option (nat * Z) :=
  match p with
  | Ready => None
  | AddBucket ns => Some (1%nat, ns)
  | AddCount ns => Some (2%nat, ns)
  | AddSum ns => Some (3%nat, ns)
  | LoadMax ns | TryMax ns _ => Some (4%nat, ns)
  | LoadMin ns | TryMin ns _ => Some (5%nat, ns)
  end.

Definition in_call (k : nat) (p : pc) : list Z :=
  match stage p with Some (j, ns) => if decide (j <= k)%nat then [ns] else [] | None => [] end.

Definition pending (k : nat) (t : thread) : list Z := in_call k (at_ t) ++ samples (todo t).

Definition all_pending (k : nat) (ts : list thread) : list Z := concat (pending k <$> ts).

(** What the local variables know of the extrema. *)
Definition knows (h : LatencyTracker) (t : thread) : Prop :=
  match at_ t with
  | TryMax _ cur => cur <= max_ns_ h
  | TryMin _ cur => min_ns_ h <= cur
  | _ => True
  end.

(** The tracker holds, in each of its fields, the samples [all] but those
    pending for that field. *)
Record partial (all : list Z) (h : LatencyTracker) (ts : list thread) : Prop := {
  pa_ok : Forall sample_ok all;
  pa_len : Z.of_nat (length all) < 2 ^ 64;
  pa_bucket : exists l, l ++ all_pending 1 ts ≡ₚ all /\ forall b, bucket h b = in_bucket b l;
  pa_count : exists l, l ++ all_pending 2 ts ≡ₚ all /\ count_ h = Z.of_nat (length l);
  pa_sum : exists l, l ++ all_pending 3 ts ≡ₚ all /\ sum_ns_ h = wrap_i64 (foldr Z.add 0 l);
  pa_max : exists l, l ++ all_pending 4 ts ≡ₚ all /\ max_ns_ h = foldr Z.max 0 l;
  pa_min : exists l, l ++ all_pending 5 ts ≡ₚ all /\ min_ns_ h = foldr Z.min INT64_MAX l;
  pa_knows : Forall (knows h) ts }.

(** A step of one thread changes what is pending by what it adds. *)
Lemma pending_step k ts i t t' x l all : ts !! i = Some t -> pending k t ≡ₚ x ++ pending k t' ->
  l ++ all_pending k ts ≡ₚ all -> (x ++ l) ++ all_pending k (<[i := t']> ts) ≡ₚ all.
Proof.
  intros Hi Hp <-. unfold all_pending.
  pose proof (concat_fmap_insert (pending k) ts i t t' Hi) as H. rewrite Hp in H.
  apply (Permutation_app_inv_r (pending k t')).
  rewrite (Permutation_app_comm x l), <- !app_assoc. apply Permutation_app_head.
  rewrite <- H. rewrite !app_assoc. apply Permutation_app_tail, Permutation_app_comm.
Qed.

Lemma pending_same k ts i t t' l all : ts !! i = Some t -> pending k t ≡ₚ pending k t' ->
  l ++ all_pending k ts ≡ₚ all -> l ++ all_pending k (<[i := t']> ts) ≡ₚ all.
Proof. intros Hi Hp. by apply (pending_step k ts i t t' [] l). Qed.

(** How the fields change when a thread goes from [t] to [t']. *)
Record updates (h : LatencyTracker) (t : thread) (h' : LatencyTracker) (t' : thread) : Prop := {
  up_bucket : exists x, pending 1 t ≡ₚ x ++ pending 1 t' /\ forall l b,
    Z.of_nat (length (x ++ l)) < 2 ^ 64 -> (forall b, bucket h b = in_bucket b l) ->
    bucket h' b = in_bucket b (x ++ l);
  up_count : exists x, pending 2 t ≡ₚ x ++ pending 2 t' /\ forall l,
    Z.of_nat (length (x ++ l)) < 2 ^ 64 -> count_ h = Z.of_nat (length l) ->
    count_ h' = Z.of_nat (length (x ++ l));
  up_sum : exists x, pending 3 t ≡ₚ x ++ pending 3 t' /\ forall l,
    sum_ns_ h = wrap_i64 (foldr Z.add 0 l) -> sum_ns_ h' = wrap_i64 (foldr Z.add 0 (x ++ l));
  up_max : exists x, pending 4 t ≡ₚ x ++ pending 4 t' /\ forall l,
    max_ns_ h = foldr Z.max 0 l -> max_ns_ h' = foldr Z.max 0 (x ++ l);
  up_min : exists x, pending 5 t ≡ₚ x ++ pending 5 t' /\ forall l,
    min_ns_ h = foldr Z.min INT64_MAX l -> min_ns_ h' = foldr Z.min INT64_MAX (x ++ l);
  up_grows : max_ns_ h <= max_ns_ h' /\ min_ns_ h' <= min_ns_ h;
  up_knows : knows h' t' }.

Lemma perm_bound (x l r all : list Z) : (x ++ l) ++ r ≡ₚ all -> Z.of_nat (length all) < 2 ^ 64 ->
  Z.of_nat (length (x ++ l)) < 2 ^ 64.
Proof. intros <-. rewrite (length_app _ r). lia. Qed.

Lemma partial_update all h ts i t h' t' :
  partial all h ts -> ts !! i = Some t -> updates h t h' t' -> partial all h' (<[i := t']> ts).
Proof.
  intros [Hok Hlen (lb & Hb1 & Hb2) (lc & Hc1 & Hc2) (ls & Hs1 & Hs2) (lm & Hm1 & Hm2) (ln & Hn1 & Hn2) Hk]
    Hi [(xb & Pb & Ub) (xc & Pc & Uc) (xs & Ps & Us) (xm & Pm & Um) (xn & Pn & Un) [Hmax Hmin] Ht'].
  pose proof (pending_step _ _ _ _ _ _ _ _ Hi Pb Hb1) as Hb. pose proof (pending_step _ _ _ _ _ _ _ _ Hi Pc Hc1) as Hc.
  pose proof (pending_step _ _ _ _ _ _ _ _ Hi Ps Hs1) as Hs. pose proof (pending_step _ _ _ _ _ _ _ _ Hi Pm Hm1) as Hm.
  pose proof (pending_step _ _ _ _ _ _ _ _ Hi Pn Hn1) as Hn. split; try done.
  - exists (xb ++ lb). split; [done|]. intros b. apply Ub; [by eapply perm_bound|done].
  - exists (xc ++ lc). split; [done|]. apply Uc; [by eapply perm_bound|done].
  - exists (xs ++ ls). split; [done|]. by apply Us.
  - exists (xm ++ lm). split; [done|]. by apply Um.
  - exists (xn ++ ln). split; [done|]. by apply Un.
  - apply Forall_insert; [|done]. eapply Forall_impl; [exact Hk|]. intros x Hx. unfold knows in *.
    destruct (at_ x); (done || lia).
Qed.

(** A field that does not change, for a thread that owes it the same. *)
Ltac unchanged := exists []; split; [reflexivity|];
  first [done | intros ? ? _ Hsame; exact (Hsame _)].

Lemma micro_updates weak h l p h' p' : knows h (mkThread l p) -> micro weak h p h' p' ->
  updates h (mkThread l p) h' (mkThread l p').
Proof.
  intros Hk Hm. unfold knows in Hk; cbn [at_] in Hk.
  destruct Hm as [ns|ns|ns|ns v Hv|ns cur Hc|ns cur Hc He|ns cur v Hc _ Hv|ns v Hv|ns cur Hc|ns cur Hc He|ns cur v Hc _ Hv];
    split; try unchanged; try (cbn; split; lia); try done.
  - exists [ns]. split; [reflexivity|]. intros l0 b Hlen Hb. unfold bucket, add_bucket; cbn [buckets_].
    rewrite vget_insert. cbn [app]. rewrite in_bucket_cons. change (vget 0 (buckets_ h)) with (bucket h).
    case_decide; [subst b|by rewrite Hb]. rewrite Hb, wrap_u_id; [lia|].
    unfold in_bucket in *. pose proof (filter_length_le (fun x => bucket_of x = bucket_of ns) l0). cbn in Hlen. lia.
  - exists [ns]. split; [reflexivity|]. intros l0 Hlen Hc. cbn in *. rewrite Hc, wrap_u_id; lia.
  - exists [ns]. split; [reflexivity|]. intros l0 Hs. cbn. rewrite Hs, wrap_s_add by lia. f_equal. lia.
  - unfold knows; cbn. unfold reads_max in Hv. lia.
  - exists [ns]. split; [reflexivity|]. intros l0 Hx. cbn. lia.
  - exists [ns]. split; [reflexivity|]. intros l0 Hx. cbn. lia.
  - unfold knows; cbn. unfold reads_max in Hv. lia.
  - unfold knows; cbn. unfold reads_min in Hv. lia.
  - exists [ns]. split; [reflexivity|]. intros l0 Hx. cbn. lia.
  - exists [ns]. split; [reflexivity|]. intros l0 Hx. cbn. lia.
  - unfold knows; cbn. unfold reads_min in Hv. lia.
Qed.

Lemma begin_pending k ns l : (1 <= k)%nat -> pending k (mkThread (ns :: l) Ready) = pending k (mkThread l (begin ns)).
Proof.
  intros Hk. unfold pending, begin, samples. cbn [at_ todo]. rewrite filter_cons.
  destruct (Z.ltb_spec ns 0); [by rewrite decide_False by lia|]. rewrite decide_True by lia.
  cbn [fmap list_fmap app in_call stage]. unfold in_call; cbn [stage]. rewrite decide_True by lia.
  cbn [app]. f_equal. zcases; lia.
Qed.

Lemma call_updates h ns l : updates h (mkThread (ns :: l) Ready) h (mkThread l (begin ns)).
Proof.
  split; try (exists []; rewrite begin_pending by lia; split; [reflexivity|first [done | intros ? ? _ Hsame; exact (Hsame _)]]).
  - lia.
  - unfold knows, begin; cbn. by destruct (ns <? 0).
Qed.

Lemma step_partial weak all s s' : partial all s.1 s.2 -> step weak s s' -> partial all s'.1 s'.2.
Proof.
  intros Hp Hs. destruct Hs as [h ts i ns l Hi|h ts i [l p] h' p' Hi Hm]; cbn [fst snd] in *.
  - eapply partial_update; [exact Hp|exact Hi|apply call_updates].
  - eapply partial_update; [exact Hp|exact Hi|]. cbn [todo]. eapply micro_updates; [|exact Hm].
    pose proof (pa_knows _ _ _ Hp) as Hk. rewrite Forall_lookup in Hk. by apply (Hk i).
Qed.

Lemma start_partial calls : Forall (fun x => x <= INT64_MAX) (concat calls) ->
  Z.of_nat (length (concat calls)) < 2 ^ 64 ->
  partial (samples (concat calls)) (start calls).1 (start calls).2.
Proof.
  intros Hx Hlen.
  assert (Hp : forall k, all_pending k (start calls).2 = samples (concat calls)).
  { intros k. unfold all_pending, start. cbn [snd]. clear. induction calls as [|l calls IH]; [done|].
    cbn [fmap list_fmap concat]. rewrite IH. unfold pending. cbn [at_ todo in_call stage app].
    unfold samples. by rewrite filter_app, fmap_app. }
  split; try (exists []; split; [by rewrite Hp|done]).
  - unfold samples. apply Forall_fmap. apply Forall_forall. intros x [Hx0 Hin]%list_elem_of_filter.
    rewrite Forall_forall in Hx. specialize (Hx x Hin). unfold sample_ok. cbn. lia.
  - unfold samples. rewrite length_fmap. pose proof (filter_length_le (fun x => 0 <= x) (concat calls)). lia.
  - unfold start. cbn [snd]. apply Forall_fmap, Forall_forall. done.
Qed.

Lemma finished_pending k ts : finished ts -> all_pending k ts = [].
Proof. unfold all_pending. by induction 1 as [|t ts -> _ IH]. Qed.

(** When all threads are done, every field holds all the samples. *)
Lemma partial_finished all h ts : partial all h ts -> finished ts -> holds h all.
Proof.
  intros [Hok Hlen (lb & Hb1 & Hb2) (lc & Hc1 & Hc2) (ls & Hs1 & Hs2) (lm & Hm1 & Hm2) (ln & Hn1 & Hn2) Hk] Hf.
  rewrite finished_pending, app_nil_r in Hb1, Hc1, Hs1, Hm1, Hn1 by done. split.
  - done.
  - intros b. by rewrite Hb2, (in_bucket_perm b _ _ Hb1).
  - by rewrite Hc2, Hc1.
  - by rewrite Hm2, (max_perm _ _ Hm1).
  - by rewrite Hn2, (min_perm _ _ Hn1).
  - by rewrite Hs2, (sum_perm _ _ Hs1).
Qed.

Lemma steps_partial weak calls s : Forall (fun x => x <= INT64_MAX) (concat calls) ->
  Z.of_nat (length (concat calls)) < 2 ^ 64 -> rtc (step weak) (start calls) s ->
  partial (samples (concat calls)) s.1 s.2.
Proof.
  intros Hx Hlen Hrun.
  assert (Hp : forall s s', rtc (step weak) s s' -> partial (samples (concat calls)) s.1 s.2 ->
    partial (samples (concat calls)) s'.1 s'.2).
  { induction 1 as [|s1 s2 s3 H1 _ IH]; [done|]. intros Hp. by eapply IH, step_partial. }
  apply (Hp _ _ Hrun). by apply start_partial.
Qed.

Lemma concurrent_holds weak calls h ts : Forall (fun x => x <= INT64_MAX) (concat calls) ->
  Z.of_nat (length (concat calls)) < 2 ^ 64 -> rtc (step weak) (start calls) (h, ts) -> finished ts ->
  holds h (samples (concat calls)).
Proof. intros Hx Hlen Hrun Hf. apply partial_finished with (ts := ts); [|done]. exact (steps_partial weak calls _ Hx Hlen Hrun). Qed.

(** ** Readings

    Two trackers that hold the same samples answer alike. *)

Lemma scan_agree h h' : (forall b, bucket h b = bucket h' b) -> forall n target b cum,
  percentile_scan h target n b cum = percentile_scan h' target n b cum.
Proof. intros Hb n target. induction n as [|n IH]; intros b cum; cbn; [done|]. by rewrite Hb, IH. Qed.

Lemma holds_agree h h' l : holds h l -> holds h' l ->
  (forall pct, percentile h pct = percentile h' pct) /\ count h = count h' /\ max h = max h' /\
  min h = min h' /\ mean h = mean h' /\ forall name, report h name = report h' name.
Proof.
  intros [_ Hb Hc Hx Hn Hs] [_ Hb' Hc' Hx' Hn' Hs'].
  assert (Ec : count_ h = count_ h') by congruence.
  assert (Ex : max_ns_ h = max_ns_ h') by congruence.
  assert (En : min h = min h') by (unfold min; by rewrite Hn, Hn').
  assert (Em : mean h = mean h') by (unfold mean; by rewrite Hc, Hc', Hs, Hs').
  assert (Ep : forall pct, percentile h pct = percentile h' pct).
  { intros pct. unfold percentile, percentile_at. rewrite Ec, Ex.
    rewrite (scan_agree h h'); [done|]. intros b. by rewrite Hb, Hb'. }
  split_and!; try done. intros name. unfold report, max. rewrite !Ep, Ec, Ex, En, Em. done.
Qed.

(** ** Progress

    With up-to-date loads and exchanges that only fail when the value has
    changed, a failed exchange means that another thread has succeeded. *)

Definition work (p : pc) : nat :=
  match p with
  | Ready => 0
  | AddBucket _ => 7 | AddCount _ => 6 | AddSum _ => 5
  | LoadMax _ => 4 | TryMax _ _ => 3
  | LoadMin _ => 2 | TryMin _ _ => 1
  end.

Definition thread_work (t : thread) : nat := (8 * length (todo t) + work (at_ t))%nat.

(** A thread whose next exchange would fail. *)
Definition stale (h : LatencyTracker) (t : thread) : nat :=
  match at_ t with
  | TryMax _ cur => if decide (cur = max_ns_ h) then 0 else 1
  | TryMin _ cur => if decide (cur = min_ns_ h) then 0 else 1
  | _ => 0
  end.

Definition remaining (s : state) : nat :=
  (sum_list_with thread_work s.2 * S (length s.2) + sum_list_with (stale s.1) s.2)%nat.

Lemma stale_le h t : (stale h t <= 1)%nat.
Proof. unfold stale. destruct (at_ t); repeat case_decide; lia. Qed.

(** A step either does work, or is a retry, which changes nothing but its own
    staleness. *)
Lemma micro_progress h l p h' p' : micro false h p h' p' ->
  (work p' < work p)%nat \/
  (work p' = work p /\ h' = h /\ stale h (mkThread l p) = 1%nat /\ stale h (mkThread l p') = 0%nat).
Proof.
  intros Hm. destruct Hm as [ns|ns|ns|ns v Hv|ns cur Hc|ns cur Hc He|ns cur v Hc [?|He] Hv|ns v Hv|ns cur Hc|ns cur Hc He|ns cur v Hc [?|He] Hv];
    try (left; cbn; lia); try done; right; destruct Hv as [->|[? _]]; try done; cbn;
    by rewrite decide_False, decide_True by done.
Qed.

Lemma working_step s ts' i t t' h' : s.2 !! i = Some t -> ts' = <[i := t']> s.2 ->
  (thread_work t' < thread_work t)%nat -> (remaining (h', ts') < remaining s)%nat.
Proof.
  intros Hi -> Hw. unfold remaining. cbn [fst snd]. rewrite length_insert.
  pose proof (sum_list_with_insert thread_work s.2 i t t' Hi).
  pose proof (sum_list_with_le (stale h') (<[i := t']> s.2) 1 (stale_le h')) as Hs.
  rewrite length_insert in Hs. nia.
Qed.

Lemma step_progress s s' : step false s s' -> (remaining s' < remaining s)%nat.
Proof.
  intros Hs. destruct Hs as [h ts i ns l Hi|h ts i [l p] h' p' Hi Hm].
  - eapply (working_step (h, ts)); [exact Hi|reflexivity|]. unfold thread_work, begin; cbn [todo at_ length work].
    destruct (ns <? 0); cbn; lia.
  - cbn [at_] in Hm. destruct (micro_progress h l p h' p' Hm) as [Hw|(Hw & -> & H1 & H0)].
    + eapply (working_step (h, ts)); [exact Hi|reflexivity|]. unfold thread_work. cbn [todo at_]. lia.
    + unfold remaining; cbn [fst snd todo]. rewrite length_insert.
      pose proof (sum_list_with_insert thread_work ts i _ (mkThread l p') Hi) as H2.
      pose proof (sum_list_with_insert (stale h) ts i _ (mkThread l p') Hi) as H3.
      unfold thread_work in H2 at 2 4. cbn [todo at_] in H2. rewrite Hw in H2.
      assert (H4 : sum_list_with thread_work (<[i:=mkThread l p']> ts) = sum_list_with thread_work ts) by lia.
      rewrite H4. lia.
Qed.

(** A thread that is not done can take a step. *)
Lemma not_stuck h p : p <> Ready -> exists h' p', micro false h p h' p'.
Proof.
  intros Hp. destruct p as [|ns|ns|ns|ns|ns cur|ns|ns cur]; [done|by eexists _, _; constructor..| | | |].
  - eexists _, _. apply load_max. by left.
  - destruct (decide (ns <= cur)); [by eexists _, _; constructor|].
    destruct (decide (cur = max_ns_ h)); [eexists _, _; apply max_swap; lia|].
    eexists _, _; apply max_retry; [lia|by right|by left].
  - eexists _, _. apply load_min. by left.
  - destruct (decide (cur <= ns)); [by eexists _, _; constructor|].
    destruct (decide (cur = min_ns_ h)); [eexists _, _; apply min_swap; lia|].
    eexists _, _; apply min_retry; [lia|by right|by left].
Qed.

Lemma nf_finished h ts : nf (step false) (h, ts) -> finished ts.
Proof.
  intros Hnf. apply Forall_lookup. intros i [l p] Hi.
  destruct (decide (p = Ready)) as [->|Hp].
  - destruct l as [|ns l]; [done|]. exfalso. apply Hnf. eexists. by eapply call.
  - exfalso. apply Hnf. destruct (not_stuck h p Hp) as (h' & p' & Hm). eexists. by eapply operate.
Qed.

(** ** A schedule

    The step of a thread when loads are up to date and exchanges are exact, as a
    function, and the run of a schedule of thread numbers. *)

Definition operation (h : LatencyTracker) (p : pc) : LatencyTracker * pc :=
  match p with
  | Ready => (h, Ready)
  | AddBucket ns => (add_bucket h ns, AddCount ns)
  | AddCount ns => (add_count h, AddSum ns)
  | AddSum ns => (add_sum h ns, LoadMax ns)
  | LoadMax ns => (h, TryMax ns (max_ns_ h))
  | TryMax ns cur =>
      if decide (ns <= cur) then (h, LoadMin ns)
      else if decide (cur = max_ns_ h) then (set_max h ns, LoadMin ns) else (h, TryMax ns (max_ns_ h))
  | LoadMin ns => (h, TryMin ns (min_ns_ h))
  | TryMin ns cur =>
      if decide (cur <= ns) then (h, Ready)
      else if decide (cur = min_ns_ h) then (set_min h ns, Ready) else (h, TryMin ns (min_ns_ h))
  end.

Definition turn (i : nat) (s : state) : option state :=
  match s.2 !! i with
  | Some (mkThread (ns :: l) Ready) => Some (s.1, <[i := mkThread l (begin ns)]> s.2)
  | Some (mkThread [] Ready) | None => None
  | Some (mkThread l p) =>
      let '(h, p') := operation s.1 p in Some (h, <[i := mkThread l p']> s.2)
  end.

Fixpoint run (schedule : list nat) (s : state) : option state :=
  match schedule with
  | [] => Some s
  | i :: rest => s' ← turn i s; run rest s'
  end.

Lemma operation_micro weak h p : p <> Ready -> micro weak h p (operation h p).1 (operation h p).2.
Proof.
  intros Hp. destruct p as [|ns|ns|ns|ns|ns cur|ns|ns cur]; cbn; repeat case_decide;
    [done|by constructor..|by constructor; left|by constructor| | |by constructor; left|by constructor| |].
  - apply max_swap; [lia|done].
  - apply max_retry; [lia|by right|by left].
  - apply min_swap; [lia|done].
  - apply min_retry; [lia|by right|by left].
Qed.

Lemma turn_step weak i s s' : turn i s = Some s' -> step weak s s'.
Proof.
  destruct s as [h ts]. unfold turn; cbn [fst snd]. destruct (ts !! i) as [[l p]|] eqn:Hi; [|done].
  destruct (decide (p = Ready)) as [->|Hp].
  - destruct l as [|ns l]; [done|]. intros [= <-]. by apply call.
  - pose proof (operation_micro weak h p Hp) as Hm.
    assert (Hs : Some ((operation h p).1, <[i := mkThread l (operation h p).2]> ts) = Some s' -> step weak (h, ts) s').
    { intros [= <-]. exact (operate weak h ts i _ _ _ Hi Hm). }
    intros H. apply Hs. rewrite <- H. by destruct l, p; try done; destruct (operation h _).
Qed.

Lemma schedule_steps weak sched : forall s s', run sched s = Some s' -> rtc (step weak) s s'.
Proof.
  induction sched as [|i sched IH]; intros s s'; cbn [run]; [by intros [= ->]|].
  destruct (turn i s) as [s1|] eqn:E; [|done]. cbn [mbind option_bind]. intros H.
  eapply rtc_l; [by eapply turn_step|by apply IH].
Qed.

(** Two threads whose exchanges of the maximum meet. *)
Definition example_calls : list (list Z) := [[300; -5]; [1000; 0]].
Definition example_schedule : list nat :=
  [0; 1; 0; 1; 0; 1; 0; 1; 0; 1; 1; 0; 0; 0; 0; 0; 1; 1; 1; 1; 1; 1; 1; 1; 1; 1]%nat.

(** ** Claims *)

(** C20. Concurrent recording loses nothing: for any number of threads that call
    [record], in every interleaving of their atomic operations, with stale
    loads and exchanges that fail spuriously, the tracker they leave answers
    every query, and prints every report, as if the calls had been made one
    after the other. *)
Theorem concurrent_record (calls : list (list Z)) (h : LatencyTracker) (ts : list thread) :
  Forall (fun x => x <= INT64_MAX) (concat calls) -> Z.of_nat (length (concat calls)) < 2 ^ 64 ->
  rtc (step true) (start calls) (h, ts) -> finished ts ->
  let h' := foldl record LatencyTracker_new (concat calls) in
  (forall pct, percentile h pct = percentile h' pct) /\ count h = count h' /\ max h = max h' /\
  min h = min h' /\ mean h = mean h' /\ forall name, report h name = report h' name.
Proof.
  intros Hx Hlen Hrun Hf h'. apply (holds_agree h h' (samples (concat calls))).
  - by eapply concurrent_holds.
  - by apply record_new_holds.
Qed.

Lemma concurrent_record_witness : exists h ts,
  run example_schedule (start example_calls) = Some (h, ts) /\ count h = 3 /\ max h = 1000 /\ min h = 1.
Proof.
  set (r := run example_schedule (start example_calls)).
  assert (E : exists h, r = Some (h, [mkThread [] Ready; mkThread [] Ready])) by (eexists; vm_compute; reflexivity).
  destruct E as [h E]. exists h, [mkThread [] Ready; mkThread [] Ready]. split; [exact E|].
  assert (Hx : Forall (fun x => x <= INT64_MAX) (concat example_calls))
    by (repeat (constructor; [lia|]); constructor).
  assert (Hf : finished [mkThread [] Ready; mkThread [] Ready]) by (repeat constructor).
  destruct (concurrent_record example_calls h _ Hx eq_refl (schedule_steps true _ _ _ E) Hf)
    as (_ & H1 & H2 & H3 & _).
  rewrite H1, H2, H3. split; [reflexivity|split; reflexivity].
Defined.

(** C22. [record] is lock-free: with up-to-date loads and exchanges that fail
    only when another thread was faster, no schedule of any threads goes on
    for ever, and one that stops has finished all calls. *)
Theorem record_terminates (calls : list (list Z)) :
  sn (step false) (start calls) /\
  forall h ts, rtc (step false) (start calls) (h, ts) -> nf (step false) (h, ts) -> finished ts.
Proof.
  split.
  - apply (measure_sn (step false) (fun _ => True) remaining); [|done].
    intros s s' _ Hs. split; [done|]. by apply step_progress.
  - intros h ts _ Hnf. by apply nf_finished in Hnf.
Qed.
