(* ===== verification/LatencyReset.v ===== *)
(** * [reset] while other threads record: latency_tracker.h

    [reset] stores the initial value in one atomic after the other: the 64
    buckets, the count, the sum, the maximum, the minimum.  The main loop resets
    the histogram of the ticks this way after each report while the UDP thread
    records.  Here every store of [reset] is a step of its own among the steps
    of [LatencyConcurrent].  All orders are relaxed.  [past] keeps the trackers
    there have been: with [weak] a load of an extremum, or an exchange that
    fails, may give a value the extremum had in any of them - also one from
    before [reset] stored its initial value - and the stores of [reset] may take
    effect in any order.  The increments are atomic and always find the current
    value. *)

From S2P Require Import Prelude Threads LatencyTracker LatencyConcurrent.

Local Open Scope Z_scope.

(** The atomics of the object. *)
Inductive field := FBucket (b : Z) | FCount | FSum | FMax | FMin.

#[global] Instance field_eq_dec : EqDecision field.
Proof. solve_decision. Defined.

(** The indices of [std::array<.., BUCKETS>]. *)
Definition valid_field (f : field) : Prop := match f with FBucket b => 0 <= b < BUCKETS | _ => True end.

Definition value (h : LatencyTracker) (f : field) : Z :=
  match f with
  | FBucket b => bucket h b
  | FCount => count_ h
  | FSum => sum_ns_ h
  | FMax => max_ns_ h
  | FMin => min_ns_ h
  end.

(** One store of [reset]. *)
Definition store (h : LatencyTracker) (f : field) : LatencyTracker :=
  match f with
  | FBucket b => mkTracker (<[b := 0]> (buckets_ h)) (count_ h) (sum_ns_ h) (max_ns_ h) (min_ns_ h)
  | FCount => mkTracker (buckets_ h) 0 (sum_ns_ h) (max_ns_ h) (min_ns_ h)
  | FSum => mkTracker (buckets_ h) (count_ h) 0 (max_ns_ h) (min_ns_ h)
  | FMax => mkTracker (buckets_ h) (count_ h) (sum_ns_ h) 0 (min_ns_ h)
  | FMin => mkTracker (buckets_ h) (count_ h) (sum_ns_ h) (max_ns_ h) INT64_MAX
  end.

(** The stores in their order; a thread inside [reset] is the list of those it
    has not done yet. *)
Definition reset_stores : list field := (FBucket <$> seqZ 0 BUCKETS) ++ [FCount; FSum; FMax; FMin].

(** The recording threads, the stores [reset] has to do, the trackers there
    have been. *)
Definition config : Type := state * list field * list LatencyTracker.

(** A load, or an exchange that fails, with a value of the past. *)
Inductive old_load (past : list LatencyTracker) : pc -> pc -> Prop :=
| old_max ns h : h ∈ past -> old_load past (LoadMax ns) (TryMax ns (max_ns_ h))
| old_max_retry ns cur h : cur < ns -> h ∈ past -> old_load past (TryMax ns cur) (TryMax ns (max_ns_ h))
| old_min ns h : h ∈ past -> old_load past (LoadMin ns) (TryMin ns (min_ns_ h))
| old_min_retry ns cur h : ns < cur -> h ∈ past -> old_load past (TryMin ns cur) (TryMin ns (min_ns_ h)).

Section Step.
Variable weak : bool.

Inductive reset_step : config -> config -> Prop :=
| recorder h ts s' r past : step false (h, ts) s' -> reset_step ((h, ts), r, past) (s', r, h :: past)
| old_recorder h ts i t p r past : weak = true -> ts !! i = Some t -> old_load (h :: past) (at_ t) p ->
    reset_step ((h, ts), r, past) ((h, <[i := mkThread (todo t) p]> ts), r, past)
| stores h ts r f r' past : weak = true \/ r = [] ->
    reset_step ((h, ts), r ++ f :: r', past) ((store h f, ts), r ++ r', h :: past).
End Step.

(** ** What a field holds *)

Definition stage_of (f : field) : nat :=
  match f with FBucket _ => 1 | FCount => 2 | FSum => 3 | FMax => 4 | FMin => 5 end.

(** The value of the field when the samples [l] have been added since it was
    initialised. *)
Definition tally (f : field) (l : list Z) : Z :=
  match f with
  | FBucket b => in_bucket b l
  | FCount => Z.of_nat (length l)
  | FSum => wrap_i64 (foldr Z.add 0 l)
  | FMax => foldr Z.max 0 l
  | FMin => foldr Z.min INT64_MAX l
  end.

Lemma store_value h f g : value (store h f) g = if decide (g = f) then tally f [] else value h g.
Proof.
  destruct f, g; cbn [store value buckets_ count_ sum_ns_ max_ns_ min_ns_]; unfold bucket; cbn [buckets_];
    try (case_decide; simplify_eq; reflexivity).
  rewrite vget_insert. repeat case_decide; simplify_eq; reflexivity.
Qed.

Lemma tally_perm f l l' : l ≡ₚ l' -> tally f l = tally f l'.
Proof.
  intros H. destruct f; cbn; [by apply in_bucket_perm|by rewrite H|by rewrite (sum_perm _ _ H)|by apply max_perm|by apply min_perm].
Qed.

(** [reset] stores to every atomic of the object. *)
Lemma valid_stored f : valid_field f -> f ∈ reset_stores.
Proof.
  intros Hf. apply elem_of_app. destruct f; cbn in Hf.
  - left. apply list_elem_of_fmap_2, elem_of_seqZ. lia.
  - right. left.
  - right. right. left.
  - right. do 2 right. left.
  - right. do 3 right. left.
Qed.

(** [reset] with no other thread is the [reset] of [LatencyTracker]. *)
Lemma stores_value r f : forall h, value (foldl store h r) f = if decide (f ∈ r) then tally f [] else value h f.
Proof.
  induction r as [|g r IH]; intros h; cbn [foldl]; [by rewrite decide_False by apply not_elem_of_nil|].
  rewrite IH, store_value. destruct (decide (f ∈ r)); [by rewrite decide_True by (right; done)|].
  destruct (decide (f = g)) as [->|]; [by rewrite decide_True by left|].
  by rewrite decide_False by (rewrite elem_of_cons; tauto).
Qed.

Lemma reset_alone h f : valid_field f -> value (foldl store h reset_stores) f = value (reset h) f.
Proof. intros Hf. rewrite stores_value, decide_True by by apply valid_stored. by destruct f. Qed.

(** ** Recording steps, with any extrema

    The maximum may be stored back to 0 between the load and the exchange, so
    that the local variable of a thread exceeds it: the sample is then dropped
    although it is the new maximum.  [fresh] says that this is not so. *)

Definition fresh (h : LatencyTracker) (p : pc) : bool :=
  match p with
  | TryMax _ cur => cur <=? max_ns_ h
  | TryMin _ cur => min_ns_ h <=? cur
  | _ => true
  end.

(** What a thread will add for certain. *)
Definition sure (h : LatencyTracker) (k : nat) (t : thread) : list Z :=
  (if fresh h (at_ t) then in_call k (at_ t) else []) ++ samples (todo t).

Definition all_sure (h : LatencyTracker) (k : nat) (ts : list thread) : list Z := concat (sure h k <$> ts).

Lemma fresh_sure h k t : fresh h (at_ t) = true -> sure h k t = pending k t.
Proof. unfold sure, pending. by intros ->. Qed.

Lemma sure_pending h k t : sure h k t ⊆+ pending k t.
Proof. unfold sure, pending. destruct (fresh h (at_ t)); [done|]. by apply submseteq_inserts_l. Qed.

Lemma todo_sure h k t : samples (todo t) ⊆+ sure h k t.
Proof. unfold sure. by apply submseteq_inserts_l. Qed.

(** The field [f] takes in the samples [x] when a thread goes from [t] to [t'];
    a sample that a stale variable drops is in none of the lists. *)
Definition moves (f : field) (h : LatencyTracker) (t : thread) (h' : LatencyTracker) (t' : thread) : Prop :=
  exists x, x ++ pending (stage_of f) t' ⊆+ pending (stage_of f) t /\
    sure h (stage_of f) t ⊆+ x ++ pending (stage_of f) t' /\
    forall l, Z.of_nat (length (x ++ l)) < 2 ^ 64 -> value h f = tally f l -> value h' f = tally f (x ++ l).

Lemma add_bucket_moves b h l ns :
  moves (FBucket b) h (mkThread l (AddBucket ns)) (add_bucket h ns) (mkThread l (AddCount ns)).
Proof.
  exists [ns]. split_and!; [done|done|]. intros m Hlen Hb. cbn [value tally app] in *.
  unfold bucket, add_bucket; cbn [buckets_]. rewrite vget_insert, in_bucket_cons.
  change (vget 0 (buckets_ h)) with (bucket h).
  case_decide as E; [subst b|by rewrite Hb]. rewrite Hb, wrap_u_id; [lia|]. unfold in_bucket.
  pose proof (filter_length_le (fun x => bucket_of x = bucket_of ns) m). cbn [length] in Hlen. lia.
Qed.

(** The operation takes nothing in: the field is of another stage. *)
Ltac moves_none := exists []; split_and!; [reflexivity|apply sure_pending|by intros].

(** The operation takes the sample of the call in. *)
Ltac moves_sample ns := exists [ns]; split_and!;
  [reflexivity|apply sure_pending|intros m Hlen Hv; cbn in *].

(** The loop of the exchange ends without one: the sample is no new extremum,
    or a stale variable drops it. *)
Ltac moves_done ns := unfold moves, sure; cbn [fresh at_];
  match goal with |- context [?a <=? ?b] => destruct (Z.leb_spec a b) end;
  [ exists [ns]; split_and!; [reflexivity|reflexivity|intros m Hlen Hv; cbn in *; lia]
  | exists []; split_and!; [cbn; by apply submseteq_cons|reflexivity|by intros] ].

Lemma micro_moves f h l p h' p' : micro false h p h' p' -> moves f h (mkThread l p) h' (mkThread l p').
Proof.
  intros Hm. destruct Hm as [ns|ns|ns|ns v _|ns cur Hc|ns cur Hc He|ns cur v _ _ _|ns v _|ns cur Hc|ns cur Hc He|ns cur v _ _ _];
    destruct f as [b| | | |]; try solve [moves_none]; [apply add_bucket_moves|..].
  - moves_sample ns. rewrite Hv, wrap_u_id; lia.
  - moves_sample ns. rewrite Hv, wrap_s_add by lia. f_equal. lia.
  - moves_done ns.
  - moves_sample ns. lia.
  - moves_done ns.
  - moves_sample ns. lia.
Qed.

Lemma micro_fresh h p h' p' : micro false h p h' p' -> fresh h p' = true.
Proof.
  intros Hm. destruct Hm as [ns|ns|ns|ns v Hv|ns cur Hc|ns cur Hc He|ns cur v _ _ Hv|ns v Hv|ns cur Hc|ns cur Hc He|ns cur v _ _ Hv];
    try done; cbn; destruct Hv as [->|[? _]]; by try apply Z.leb_refl.
Qed.

Lemma micro_extrema h p h' p' : micro false h p h' p' -> max_ns_ h <= max_ns_ h' /\ min_ns_ h' <= min_ns_ h.
Proof. intros Hm. destruct Hm; cbn; lia. Qed.

Lemma begin_fresh h ns : fresh h (begin ns) = true.
Proof. unfold begin. by destruct (ns <? 0). Qed.

(** A step of the recording threads, whichever it is. *)
Lemma step_moves h ts h' ts' : step false (h, ts) (h', ts') ->
  exists i t t', ts !! i = Some t /\ ts' = <[i := t']> ts /\ fresh h (at_ t') = true /\
    max_ns_ h <= max_ns_ h' /\ min_ns_ h' <= min_ns_ h /\ forall f, moves f h t h' t'.
Proof.
  intros Hs. inversion Hs as [? ? i ns l Hi|? ? i [l p] ? p' Hi Hm]; simplify_eq.
  - exists i, (mkThread (ns :: l) Ready), (mkThread l (begin ns)).
    split_and!; [done|done|apply begin_fresh|lia|lia|]. intros f. exists [].
    assert (E := begin_pending (stage_of f) ns l ltac:(by destruct f; cbn; lia)).
    split_and!; [by rewrite E|rewrite <- E; apply sure_pending|by intros].
  - cbn [at_] in *. exists i, (mkThread l p), (mkThread l p'). destruct (micro_extrema _ _ _ _ Hm).
    split_and!; [done|done|by eapply micro_fresh|lia|lia|]. intros f. by apply micro_moves.
Qed.

(** ** Multisets of samples *)

Lemma concat_take {A} (p : A -> list Z) ts i t t' x l hi : ts !! i = Some t -> x ++ p t' ⊆+ p t ->
  l ++ concat (p <$> ts) ⊆+ hi -> (x ++ l) ++ concat (p <$> <[i := t']> ts) ⊆+ hi.
Proof.
  intros Hi Hx <-. pose proof (concat_fmap_insert p ts i t t' Hi) as H.
  apply (submseteq_app_inv_r _ _ (p t)). rewrite <- app_assoc, H.
  rewrite (Permutation_app_comm x l), <- !app_assoc. apply submseteq_skips_l.
  rewrite (Permutation_app_comm (concat _)), app_assoc, (Permutation_app_comm (concat _)).
  by apply submseteq_skips_r.
Qed.

Lemma concat_keep {A} (p : A -> list Z) ts i t t' x l lo : ts !! i = Some t -> p t ⊆+ x ++ p t' ->
  lo ⊆+ l ++ concat (p <$> ts) -> lo ⊆+ (x ++ l) ++ concat (p <$> <[i := t']> ts).
Proof.
  intros Hi Hx ->. pose proof (concat_fmap_insert p ts i t t' Hi) as H.
  apply (submseteq_app_inv_r _ _ (p t')). rewrite <- app_assoc, <- H.
  rewrite (Permutation_app_comm x l), <- !app_assoc. apply submseteq_skips_l.
  transitivity (concat (p <$> <[i := t']> ts) ++ x ++ p t'); [by apply submseteq_skips_l|].
  by rewrite !app_assoc, (Permutation_app_comm (concat _) x).
Qed.

Lemma concat_mono {A} (p q : A -> list Z) ts : (forall t, p t ⊆+ q t) -> concat (p <$> ts) ⊆+ concat (q <$> ts).
Proof. intros H. induction ts as [|t ts IH]; [done|]. cbn [fmap list_fmap concat]. by apply submseteq_app. Qed.

Lemma concat_take_all {A} (p : A -> list Z) ts i t t' : ts !! i = Some t -> p t' ⊆+ p t ->
  concat (p <$> <[i := t']> ts) ⊆+ concat (p <$> ts).
Proof. intros Hi Ht. by apply (concat_take p ts i t t' [] [] _ Hi Ht). Qed.

(** ** What is counted

    The field [f] holds, since it was initialised, at least the samples [lo]
    when the threads have added what they will for certain, and none that are
    not in [hi]. *)

Definition counted (lo hi : list Z) (h : LatencyTracker) (ts : list thread) (f : field) : Prop :=
  exists l, l ++ all_pending (stage_of f) ts ⊆+ hi /\ lo ⊆+ l ++ all_sure h (stage_of f) ts /\
    value h f = tally f l.

Lemma fresh_grows h h' p : max_ns_ h <= max_ns_ h' -> min_ns_ h' <= min_ns_ h ->
  fresh h p = true -> fresh h' p = true.
Proof. intros Hx Hn. destruct p; cbn; try done; rewrite !Z.leb_le; lia. Qed.

Lemma sure_grows h h' k t : max_ns_ h <= max_ns_ h' -> min_ns_ h' <= min_ns_ h -> sure h k t ⊆+ sure h' k t.
Proof.
  intros Hx Hn. unfold sure. destruct (fresh h (at_ t)) eqn:E.
  - by rewrite (fresh_grows h h' _ Hx Hn E).
  - by apply submseteq_inserts_l.
Qed.

Lemma step_counted lo hi h ts h' ts' f : Z.of_nat (length hi) < 2 ^ 64 ->
  step false (h, ts) (h', ts') -> counted lo hi h ts f -> counted lo hi h' ts' f.
Proof.
  intros Hlen Hs (l & Hhi & Hlo & Hv).
  destruct (step_moves _ _ _ _ Hs) as (i & t & t' & Hi & -> & Hf & Hx & Hn & Hm).
  destruct (Hm f) as (x & H1 & H2 & H3).
  pose proof (concat_take _ ts i t t' x l hi Hi H1 Hhi) as Hhi'. exists (x ++ l). split_and!; [done| |].
  - rewrite <- (fresh_sure h _ _ Hf) in H2. rewrite (concat_keep _ ts i t t' x l lo Hi H2 Hlo).
    apply submseteq_skips_l, concat_mono. intros t0. by apply sure_grows.
  - apply H3; [|done]. apply submseteq_length in Hhi'. rewrite (length_app (x ++ l)) in Hhi'. lia.
Qed.

Lemma steps_counted lo hi s s' f : Z.of_nat (length hi) < 2 ^ 64 -> rtc (step false) s s' ->
  counted lo hi s.1 s.2 f -> counted lo hi s'.1 s'.2 f.
Proof.
  intros Hlen Hs. induction Hs as [|[h ts] [h' ts'] s3 H1 _ IH]; [done|]. intros H. apply IH. cbn [fst snd] in *.
  by eapply step_counted.
Qed.

(** Steps with a load of the past change no field; what is certain to be added
    to the fields of the increments stays so. *)
Definition increments (f : field) : Prop := match f with FBucket _ | FCount | FSum => True | _ => False end.

Lemma increments_sure h k t : (k <= 3)%nat -> sure h k t = pending k t.
Proof.
  intros Hk. unfold sure, pending, in_call, fresh. destruct (at_ t) as [|ns|ns|ns|ns|ns cur|ns|ns cur]; cbn [stage]; try done;
    (rewrite decide_False by lia; by case_match).
Qed.

Lemma old_load_pending past l p p' k : old_load past p p' -> pending k (mkThread l p') = pending k (mkThread l p).
Proof. by intros []. Qed.

Lemma old_step_counted past lo hi h ts i t p f : increments f \/ lo = [] -> ts !! i = Some t -> old_load past (at_ t) p ->
  counted lo hi h ts f -> counted lo hi h (<[i := mkThread (todo t) p]> ts) f.
Proof.
  intros Hlo Hi Hp (l & H1 & H2 & H3). destruct t as [td q]. cbn [todo at_] in *.
  pose proof (old_load_pending past td q p (stage_of f) Hp) as E. exists l. split_and!; [| |done].
  - apply (concat_take _ ts i (mkThread td q) _ [] l hi Hi); [by rewrite E|done].
  - destruct Hlo as [Hf| ->]; [|apply submseteq_nil_l]. apply (concat_keep _ ts i (mkThread td q) _ [] l lo Hi); [|done].
    assert (Hk : (stage_of f <= 3)%nat) by (destruct f; cbn in Hf |- *; lia || done). by rewrite !increments_sure, E by done.
Qed.

(** Once [reset] has done its stores, whatever is certain stays so: always for
    the increments, with up-to-date loads for the extrema. *)
Lemma after_steps_counted weak lo hi f s s' : Z.of_nat (length hi) < 2 ^ 64 -> weak = false \/ increments f \/ lo = [] ->
  rtc (reset_step weak) s s' -> s.1.2 = [] -> counted lo hi s.1.1.1 s.1.1.2 f ->
  s'.1.2 = [] /\ counted lo hi s'.1.1.1 s'.1.1.2 f.
Proof.
  intros Hlen Hw Hs. induction Hs as [|s1 s2 s3 H1 _ IH]; [done|]. intros Hr Hc. apply IH; destruct H1 as
    [h ts [h' ts'] r past Hs|h ts i t p r past Hweak Hi Hp|h ts r f' r' past _]; cbn [fst snd] in *; try done;
    try by destruct r.
  - by eapply step_counted.
  - eapply old_step_counted; [|done..]. destruct Hw as [->|Hw]; done.
Qed.

(** While [reset] runs, the stores it has done bound their fields. *)
Definition bounded (hi : list Z) (s : config) : Prop :=
  all_pending 5 s.1.1.2 ⊆+ hi /\
  forall f, valid_field f -> f ∉ s.1.2 -> counted [] hi s.1.1.1 s.1.1.2 f.

Lemma pending_le k ts : (k <= 5)%nat -> all_pending k ts ⊆+ all_pending 5 ts.
Proof.
  intros Hk. apply concat_mono. intros t. apply submseteq_skips_r. unfold in_call.
  destruct (stage (at_ t)) as [[j ns]|]; [|done]. case_decide; [by rewrite decide_True by lia|].
  by apply submseteq_nil_l.
Qed.

Lemma stage_le f : (stage_of f <= 5)%nat.
Proof. destruct f; cbn; lia. Qed.

Lemma reset_step_bounded weak hi s s' : Z.of_nat (length hi) < 2 ^ 64 ->
  reset_step weak s s' -> bounded hi s -> bounded hi s'.
Proof.
  intros Hlen Hs [Hall Hb]. destruct Hs as [h ts [h' ts'] r past Hs|h ts i [td q] p r past _ Hi Hp|h ts r f r' past _]; cbn [fst snd] in *.
  - split; cbn [fst snd].
    + destruct (step_moves _ _ _ _ Hs) as (i & t & t' & Hi & -> & _ & _ & _ & Hm).
      destruct (Hm FMin) as (x & Hx & _ & _). cbn [stage_of] in Hx. rewrite <- Hall.
      apply (concat_take_all _ _ _ t); [done|]. rewrite <- Hx. by apply submseteq_inserts_l.
    + intros f Hf Hr. eapply step_counted; [done|exact Hs|by apply Hb].
  - split; cbn [fst snd].
    + rewrite <- Hall. apply (concat_take_all _ _ _ (mkThread td q)); [done|].
      pose proof (old_load_pending _ td q p 5 Hp) as E. cbn [todo at_] in *. by rewrite E.
    + intros f Hf Hr. eapply old_step_counted; [by right|done|exact Hp|by apply Hb].
  - split; [done|]. cbn [fst snd]. intros g Hg Hr.
    destruct (decide (g = f)) as [->|Hne].
    + exists []. split_and!; [|apply submseteq_nil_l|by rewrite store_value, decide_True].
      rewrite <- Hall. cbn [app]. apply pending_le, stage_le.
    + destruct (Hb g Hg) as (l & Hhi & _ & Hv); [rewrite elem_of_app, elem_of_cons in *; tauto|].
      exists l. split_and!; [done|apply submseteq_nil_l|]. by rewrite store_value, decide_False.
Qed.

Lemma reset_steps_bounded weak hi s s' : Z.of_nat (length hi) < 2 ^ 64 ->
  rtc (reset_step weak) s s' -> bounded hi s -> bounded hi s'.
Proof. intros Hlen Hs. induction Hs as [|s1 s2 s3 H1 _ IH]; [done|]. intros H. by eapply IH, reset_step_bounded. Qed.

(** The calls to come are certain to be added. *)
Lemma todo_counted hi h ts f : counted [] hi h ts f -> counted (concat ((fun t => samples (todo t)) <$> ts)) hi h ts f.
Proof.
  intros (l & Hhi & _ & Hv). exists l. split_and!; [done| |done].
  apply submseteq_inserts_l, concat_mono. intros t. apply todo_sure.
Qed.

Lemma counted_finished lo hi h ts f : finished ts -> counted lo hi h ts f ->
  exists l, lo ⊆+ l /\ l ⊆+ hi /\ value h f = tally f l.
Proof.
  intros Hf (l & Hhi & Hlo & Hv). rewrite finished_pending, app_nil_r in Hhi by done. exists l.
  split_and!; [|done..]. rewrite Hlo. rewrite <- (app_nil_r l) at 2. apply submseteq_skips_l.
  rewrite (concat_mono _ _ ts (sure_pending h (stage_of f))). by rewrite <- (finished_pending (stage_of f) ts Hf).
Qed.

(** ** Progress

    A store of [reset] makes at most every thread's exchange fail once more. *)

Definition reset_remaining (s : config) : nat :=
  (remaining s.1.1 + length s.1.2 * S (length s.1.1.2))%nat.

Lemma step_threads weak s s' : step weak s s' -> length s'.2 = length s.2.
Proof. intros Hs. destruct Hs; cbn [snd]; by rewrite length_insert. Qed.

Lemma reset_step_progress s s' : reset_step false s s' -> (reset_remaining s' < reset_remaining s)%nat.
Proof.
  intros Hs. destruct Hs as [h ts s' r past Hs| |h ts r f r' past _]; [|done|]; unfold reset_remaining; cbn [fst snd].
  - pose proof (step_threads _ _ _ Hs) as E. cbn [snd] in E. rewrite E. pose proof (step_progress _ _ Hs). lia.
  - unfold remaining; cbn [fst snd]. rewrite !length_app. cbn [length].
    pose proof (sum_list_with_le (stale (store h f)) ts 1 (stale_le _)). lia.
Qed.

Lemma reset_ends s : sn (reset_step false) s.
Proof. apply (measure_sn (reset_step false) (fun _ => True) reset_remaining); [|done]. intros x y _ Hs. split; [done|]. by apply reset_step_progress. Qed.

(** ** A schedule

    A turn of a recording thread, a store of [reset] in its order, a load of
    thread [i] that gives the value from [n] changes ago. *)
Inductive turn_of := Recorder (i : nat) | Store | Old (i n : nat).

(** The load of [old_load]. *)
Definition old_value (h : LatencyTracker) (p : pc) : option pc :=
  match p with
  | LoadMax ns => Some (TryMax ns (max_ns_ h))
  | TryMax ns cur => if decide (cur < ns) then Some (TryMax ns (max_ns_ h)) else None
  | LoadMin ns => Some (TryMin ns (min_ns_ h))
  | TryMin ns cur => if decide (ns < cur) then Some (TryMin ns (min_ns_ h)) else None
  | _ => None
  end.

Definition reset_turn (o : turn_of) (s : config) : option config :=
  let '((h, ts), r, past) := s in
  match o with
  | Recorder i => s' ← turn i (h, ts); Some (s', r, h :: past)
  | Store => match r with f :: r => Some ((store h f, ts), r, h :: past) | [] => None end
  | Old i n => h' ← past !! n; t ← ts !! i; p ← old_value h' (at_ t); Some ((h, <[i := mkThread (todo t) p]> ts), r, past)
  end.

Fixpoint reset_run (schedule : list turn_of) (s : config) : option config :=
  match schedule with
  | [] => Some s
  | o :: rest => s' ← reset_turn o s; reset_run rest s'
  end.

Lemma old_value_load past h p p' : h ∈ past -> old_value h p = Some p' -> old_load past p p'.
Proof. intros Hh E. destruct p; cbn in E; try case_decide; simplify_eq; by constructor. Qed.

Definition allowed (weak : bool) (o : turn_of) : Prop := match o with Old _ _ => weak = true | _ => True end.

Lemma reset_turn_step weak o s s' : allowed weak o -> reset_turn o s = Some s' -> reset_step weak s s'.
Proof.
  intros Ho. destruct s as [[[h ts] r] past]. destruct o as [i| |i n]; unfold reset_turn.
  - destruct (turn i (h, ts)) as [s2|] eqn:Et; [|done]. intros [= <-]. constructor. by eapply turn_step.
  - destruct r as [|f r]; [done|]. intros [= <-]. apply (stores weak h ts [] f r past). by right.
  - destruct (past !! n) as [h'|] eqn:Eh; [|done]. cbn [mbind option_bind]. destruct (ts !! i) as [t|] eqn:Ei; [|done].
    cbn [mbind option_bind]. destruct (old_value h' (at_ t)) as [p|] eqn:Ep; [|done]. intros [= <-]. constructor; [done..|].
    eapply old_value_load; [right; by eapply list_elem_of_lookup_2|done].
Qed.

Lemma reset_schedule_steps weak sched : Forall (allowed weak) sched -> forall s s', reset_run sched s = Some s' ->
  rtc (reset_step weak) s s'.
Proof.
  induction 1 as [|o sched Ho _ IH]; intros s s'; cbn [reset_run]; [by intros [= ->]|].
  destruct (reset_turn o s) as [s1|] eqn:E; [|done]. cbn [mbind option_bind]. intros H.
  eapply rtc_l; [by eapply reset_turn_step|by apply IH].
Qed.

Lemma all_allowed sched : Forall (allowed true) sched.
Proof. apply Forall_forall. by intros []. Qed.

Definition begin_reset (calls : list (list Z)) : config := (start calls, reset_stores, []).

(** One call, of which the bucket is added before [reset] begins, the other
    fields between the store of the count and that of the sum. *)
Definition torn_schedule : list turn_of :=
  replicate 2 (Recorder 0) ++ replicate 65 Store ++ replicate 6 (Recorder 0) ++ replicate 3 Store.

Lemma torn_allowed : Forall (allowed false) torn_schedule.
Proof. unfold torn_schedule. rewrite !Forall_app. split_and!; by apply Forall_replicate. Qed.

(** What a run leads to, by evaluation. *)
Definition leads (sched : list turn_of) (c : config) (p : config -> bool) : bool :=
  match reset_run sched c with Some c' => p c' | None => false end.

Lemma leads_to sched c p : leads sched c p = true -> exists c', reset_run sched c = Some c' /\ p c' = true.
Proof. unfold leads. destruct (reset_run sched c) as [c'|]; [|done]. by exists c'. Qed.

Lemma torn_run : exists h past,
  reset_run torn_schedule (begin_reset [[300]]) = Some ((h, [mkThread [] Ready]), [], past) /\
  Forall (fun f => value h f = if decide (f = FCount) then 1 else tally f []) reset_stores.
Proof.
  destruct (leads_to torn_schedule (begin_reset [[300]]) (fun c => bool_decide (c.1.1.2 = [mkThread [] Ready] /\ c.1.2 = [] /\
    Forall (fun f => value c.1.1.1 f = if decide (f = FCount) then 1 else tally f []) reset_stores)))
    as ([[[h ts] r] past] & E & (Ht & Hr & H)%bool_decide_eq_true); [vm_compute; reflexivity|].
  cbn [fst snd] in *. subst ts r. exists h, past. exact (conj E H).
Qed.

(** A call for 1000 before [reset], one for 300 after it, by a thread that still
    finds the old maximum. *)
Definition stale_schedule : list turn_of :=
  replicate 8 (Recorder 0) ++ replicate 68 Store ++ replicate 4 (Recorder 1) ++ [Old 1 71] ++ replicate 3 (Recorder 1).

Lemma stale_run : exists h1 past1 h past,
  reset_run (take 76 stale_schedule) (begin_reset [[1000]; [300]]) =
    Some ((h1, [mkThread [] Ready; mkThread [300] Ready]), [], past1) /\
  reset_run (drop 76 stale_schedule) ((h1, [mkThread [] Ready; mkThread [300] Ready]), [], past1) =
    Some ((h, [mkThread [] Ready; mkThread [] Ready]), [], past) /\
  count_ h = 1 /\ bucket h 8 = 1 /\ max_ns_ h = 0.
Proof.
  destruct (leads_to (take 76 stale_schedule) (begin_reset [[1000]; [300]]) (fun c =>
    bool_decide (c.1.1.2 = [mkThread [] Ready; mkThread [300] Ready] /\ c.1.2 = []) &&
    leads (drop 76 stale_schedule) c (fun c => bool_decide (c.1.1.2 = [mkThread [] Ready; mkThread [] Ready] /\ c.1.2 = [] /\
      count_ c.1.1.1 = 1 /\ bucket c.1.1.1 8 = 1 /\ max_ns_ c.1.1.1 = 0))))
    as ([[[h1 ts1] r1] past1] & E1 & [(Ht1 & Hr1)%bool_decide_eq_true H]%andb_prop); [vm_compute; reflexivity|].
  apply leads_to in H as ([[[h ts] r] past] & E2 & (Ht & Hr & H)%bool_decide_eq_true).
  cbn [fst snd] in *. subst ts r ts1 r1. exists h1, past1, h, past. exact (conj E1 (conj E2 H)).
Qed.

(** ** Claims *)

(** C21. [reset] while other threads record, every atomic operation relaxed.  Each
    field then holds, since the reset, samples of its own: at most those of the
    calls in progress at its beginning or later.  The fields of the increments -
    buckets, count, sum - hold at least those of the calls that begin after the
    end of [reset], and exactly those when no call overlaps it.  For the extrema
    this takes loads that are up to date ([weak] false): with relaxed ones a
    later call may find the maximum of before the reset and leave the new one
    at 0.  Nor need the fields agree: a call that overlaps [reset] can leave a
    count of 1 with every other field at its initial value, whatever the loads.
    With up-to-date loads [reset] and the calls end under every schedule. *)
Theorem reset_overlap (weak : bool) (h h1 h2 : LatencyTracker) (ts ts1 ts2 : list thread) (past past1 past2 : list LatencyTracker) :
  let before := all_pending 5 ts in
  let after := concat ((fun t => samples (todo t)) <$> ts1) in
  Z.of_nat (length before) < 2 ^ 64 ->
  rtc (reset_step weak) ((h, ts), reset_stores, past) ((h1, ts1), [], past1) ->
  rtc (reset_step weak) ((h1, ts1), [], past1) ((h2, ts2), [], past2) -> finished ts2 ->
  (forall f, valid_field f -> exists l, l ⊆+ before /\ value h2 f = tally f l /\
    (weak = false \/ increments f -> after ⊆+ l)) /\
  (before ≡ₚ after -> forall f, valid_field f -> weak = false \/ increments f -> value h2 f = tally f after) /\
  sn (reset_step false) ((h, ts), reset_stores, past) /\
  (exists h' past', rtc (reset_step false) (begin_reset [[300]]) ((h', [mkThread [] Ready]), [], past') /\
    forall f, valid_field f -> value h' f = if decide (f = FCount) then 1 else tally f []) /\
  (exists h' past' h'' past'',
    rtc (reset_step true) (begin_reset [[1000]; [300]]) ((h', [mkThread [] Ready; mkThread [300] Ready]), [], past') /\
    rtc (reset_step true) ((h', [mkThread [] Ready; mkThread [300] Ready]), [], past')
      ((h'', [mkThread [] Ready; mkThread [] Ready]), [], past'') /\
    count_ h'' = 1 /\ bucket h'' 8 = 1 /\ max_ns_ h'' = 0).
Proof.
  intros before after Hlen Hreset Hrun Hf.
  assert (Hb : bounded before ((h1, ts1), [], past1)).
  { apply (reset_steps_bounded weak before _ _ Hlen Hreset). split; [done|]. intros g Hg Hn. destruct Hn. by apply valid_stored. }
  assert (Hall : forall f, valid_field f -> exists l, l ⊆+ before /\ value h2 f = tally f l /\
    (weak = false \/ increments f -> after ⊆+ l)).
  { intros f Hin. destruct Hb as [_ Hb]. specialize (Hb f Hin (not_elem_of_nil f)). cbn [fst snd] in Hb.
    assert (Hd : (weak = false \/ increments f) \/ ~ (weak = false \/ increments f)) by (destruct weak, f; first [by left; left|by left; right|by right; intros [|]]).
    destruct Hd as [Hd|Hd].
    - destruct (after_steps_counted weak after before f _ _ Hlen ltac:(tauto) Hrun eq_refl (todo_counted _ _ _ _ Hb)) as [_ H].
      destruct (counted_finished _ _ _ _ _ Hf H) as (l & H1 & H2 & H3). by exists l.
    - destruct (after_steps_counted weak [] before f _ _ Hlen ltac:(tauto) Hrun eq_refl Hb) as [_ H].
      destruct (counted_finished _ _ _ _ _ Hf H) as (l & H1 & H2 & H3). by exists l. }
  split; [exact Hall|]. split; [|split; [apply reset_ends|split]].
  - intros Hp f Hin Hd. destruct (Hall f Hin) as (l & H1 & -> & H2). apply tally_perm. symmetry.
    apply submseteq_length_Permutation; [by apply H2|]. apply submseteq_length in H1. by rewrite <- Hp.
  - destruct torn_run as (h' & past' & E & H). exists h', past'. split; [exact (reset_schedule_steps false _ torn_allowed _ _ E)|].
    intros f Hin. rewrite Forall_forall in H. by apply H, valid_stored.
  - destruct stale_run as (h' & past' & h'' & past'' & E1 & E2 & H). exists h', past', h'', past''.
    split; [exact (reset_schedule_steps true _ (all_allowed _) _ _ E1)|].
    split; [exact (reset_schedule_steps true _ (all_allowed _) _ _ E2)|exact H].
Qed.

(** A call in progress before the reset, one that begins after it. *)
Lemma reset_overlap_witness : exists h1 past1 h2 past2,
  reset_run torn_schedule (begin_reset [[300; 40]]) = Some ((h1, [mkThread [40] Ready]), [], past1) /\
  reset_run (replicate 8 (Recorder 0)) ((h1, [mkThread [40] Ready]), [], past1) = Some ((h2, [mkThread [] Ready]), [], past2) /\
  (exists l, l ⊆+ [300; 40] /\ count_ h2 = Z.of_nat (length l) /\ [40] ⊆+ l) /\
  (exists l, l ⊆+ [300; 40] /\ max_ns_ h2 = foldr Z.max 0 l).
Proof.
  destruct (leads_to torn_schedule (begin_reset [[300; 40]]) (fun c =>
    bool_decide (c.1.1.2 = [mkThread [40] Ready] /\ c.1.2 = []) &&
    leads (replicate 8 (Recorder 0)) c (fun c => bool_decide (c.1.1.2 = [mkThread [] Ready] /\ c.1.2 = []))))
    as ([[[h1 ts1] r1] past1] & E1 & [(Ht1 & Hr1)%bool_decide_eq_true H]%andb_prop); [vm_compute; reflexivity|].
  apply leads_to in H as ([[[h2 ts2] r2] past2] & E2 & (Ht2 & Hr2)%bool_decide_eq_true).
  cbn [fst snd] in *. subst ts1 r1 ts2 r2. exists h1, past1, h2, past2. split; [exact E1|]. split; [exact E2|].
  assert (Hf : finished [mkThread [] Ready]) by (repeat constructor).
  pose proof (reset_overlap true LatencyTracker_new h1 h2 [mkThread [300; 40] Ready] [mkThread [40] Ready] [mkThread [] Ready]
    [] past1 past2 eq_refl (reset_schedule_steps true _ (all_allowed _) _ _ E1) (reset_schedule_steps true _ (all_allowed _) _ _ E2) Hf)
    as [H _].
  split.
  - destruct (H FCount I) as (l & H1 & H2 & H3). exists l. split; [exact H1|]. split; [exact H2|exact (H3 (or_intror I))].
  - destruct (H FMax I) as (l & H1 & H2 & _). exists l. exact (conj H1 H2).
Defined.
