(* ===== verification/LatencyReading.v ===== *)
(** * [percentile] while other threads record: latency_tracker.h

    The reports and the metrics snapshots read the histogram while the hot
    threads record into it: [percentile] loads the count and then one bucket
    after the other.  Here these loads are steps among those of the recording
    threads of [LatencyConcurrent].  They are relaxed: with [old], a load may
    give any value its atomic has had since the operations the reader is known
    to have seen, whatever the other loads gave - so a sample may be counted in
    the total of a reader who does not find it in its bucket. *)

From S2P Require Import Prelude Threads Float64 LatencyTracker LatencyConcurrent.

Local Open Scope Z_scope.

(** Where the reader is: before the load of the count, before the load of
    bucket [b] with the sum [cum] of those before, before the load of the
    maximum behind the loop, and at the end with its result. *)
Inductive reader := RTotal | RScan (target b cum : Z) | RMax | RDone (r : Z).

Section Percentile.
Variable weak : bool.      (* of the recording threads *)
Variable old : bool.       (* of the reader *)
Variable seen : LatencyTracker.      (* what the reader has seen when it begins *)
Variable pct : double.

(** The atomic the reader is about to load. *)
Definition current (h : LatencyTracker) (r : reader) : Z :=
  match r with
  | RTotal => count_ h
  | RScan _ b _ => bucket h b
  | RMax => max_ns_ h
  | RDone r => r
  end.

(** A value its load may give: all atomics only grow. *)
Definition loads (h : LatencyTracker) (r : reader) (v : Z) : Prop :=
  v = current h r \/ old = true /\ current seen r <= v <= current h r.

(** What the reader does with the value. *)
Definition read (v : Z) (r : reader) : reader :=
  match r with
  | RTotal => if v =? 0 then RDone 0 else RScan (target_of v pct) 0 0
  | RScan target b cum =>
      let cum := wrap_u64 (cum + v) in
      if target <=? cum then RDone (if b =? 0 then 1 else wrap_i64 (Z.shiftl 1 b))
      else if b + 1 <? BUCKETS then RScan target (b + 1) cum else RMax
  | RMax => RDone v
  | RDone r => RDone r
  end.

(** Runs with [n] loads of the reader. *)
Inductive reads : nat -> state * reader -> state * reader -> Prop :=
| reads_none s : reads 0 s s
| reads_other n s s' r x : step weak s s' -> reads n (s', r) x -> reads n (s, r) x
| reads_load n h ts r v x : (forall y, r <> RDone y) -> loads h r v ->
    reads n ((h, ts), read v r) x -> reads (S n) ((h, ts), r) x.

(** With no step of another thread it is the [percentile] of [LatencyTracker]. *)
Definition read_now (h : LatencyTracker) (r : reader) : reader := read (current h r) r.

Lemma read_scan h target n : forall b cum, b + Z.of_nat n = BUCKETS -> (0 < n)%nat ->
  exists k, Nat.iter k (read_now h) (RScan target b cum) =
    RDone (default (max_ns_ h) (percentile_scan h target n b cum)).
Proof.
  induction n as [|n IH]; intros b cum Hb Hn; [lia|]. cbn [percentile_scan].
  destruct (target <=? wrap_u64 (cum + bucket h b)) eqn:E.
  - exists 1%nat. change (read_now h (RScan target b cum) = RDone (if b =? 0 then 1 else wrap_i64 (Z.shiftl 1 b))).
    unfold read_now; cbn [read current]. by rewrite E.
  - destruct n as [|n].
    + assert (E1 : read_now h (RScan target b cum) = RMax)
        by (unfold read_now; cbn [read current]; by rewrite E, (proj2 (Z.ltb_ge _ _)) by lia).
      exists 2%nat. change (read_now h (read_now h (RScan target b cum)) = RDone (max_ns_ h)). by rewrite E1.
    + destruct (IH (b + 1) (wrap_u64 (cum + bucket h b)) ltac:(lia) ltac:(lia)) as (k & Hk).
      exists (S k). rewrite Nat.iter_succ_r. unfold read_now at 2; cbn [read current].
      rewrite E, (proj2 (Z.ltb_lt _ _)) by lia. exact Hk.
Qed.

Lemma read_alone h : exists k, Nat.iter k (read_now h) RTotal = RDone (percentile h pct).
Proof.
  unfold percentile. destruct (count_ h =? 0) eqn:E.
  - exists 1%nat. change (read_now h RTotal = RDone 0). unfold read_now; cbn [read current]. by rewrite E.
  - destruct (read_scan h (target_of (count_ h) pct) (Z.to_nat BUCKETS) 0 0 eq_refl ltac:(change (Z.to_nat BUCKETS) with 64%nat; lia)) as (k & Hk).
    exists (S k). rewrite Nat.iter_succ_r. unfold read_now at 2; cbn [read current]. rewrite E. exact Hk.
Qed.
End Percentile.

(** ** What the loads see *)

(** The samples in the buckets below [b]. *)
Fixpoint cumulated (h : LatencyTracker) (b : nat) : Z :=
  match b with O => 0 | S b' => cumulated h b' + bucket h (Z.of_nat b') end.

Lemma cumulated_S h b : cumulated h (S b) = cumulated h b + bucket h (Z.of_nat b).
Proof. reflexivity. Qed.

Lemma cumulated_0 h : cumulated h 0 = 0.
Proof. reflexivity. Qed.

#[local] Opaque cumulated.

Definition grows (h h' : LatencyTracker) : Prop :=
  count_ h <= count_ h' /\ max_ns_ h <= max_ns_ h' /\ forall b, bucket h b <= bucket h' b.

#[export] Instance grows_preorder : PreOrder grows.
Proof.
  split; [by split|]. intros h1 h2 h3 (C1 & M1 & B1) (C2 & M2 & B2). split; [lia|]. split; [lia|].
  intros b. specialize (B1 b). specialize (B2 b). lia.
Qed.

Lemma cumulated_mono h h' b : grows h h' -> cumulated h b <= cumulated h' b.
Proof. intros (_ & _ & H). induction b as [|b IH]; [done|]. rewrite !cumulated_S. specialize (H (Z.of_nat b)). lia. Qed.

Lemma cumulated_below h l b : Forall sample_ok l -> (forall b, bucket h b = in_bucket b l) ->
  cumulated h b = below (2 ^ Z.of_nat b) l.
Proof.
  intros Hl Hb. induction b as [|b IH]; [by rewrite cumulated_0, below_1|]. rewrite cumulated_S.
  rewrite IH, Hb, Nat2Z.inj_succ, <- Z.add_1_r, below_step by (done || lia). done.
Qed.

Lemma in_bucket_app b x l : in_bucket b l <= in_bucket b (x ++ l).
Proof. unfold in_bucket. rewrite filter_app, length_app. lia. Qed.

(** Recording only adds to the buckets and to the count. *)
Lemma update_grows all h ts i t h' t' : partial all h ts -> ts !! i = Some t -> updates h t h' t' -> grows h h'.
Proof.
  intros Hp Hi [(xb & Pb & Ub) (xc & Pc & Uc) _ _ _ [Hmax _] _]. pose proof (pa_len _ _ _ Hp) as Hlen.
  destruct (pa_bucket _ _ _ Hp) as (lb & Hb1 & Hb2), (pa_count _ _ _ Hp) as (lc & Hc1 & Hc2). split; [|split; [done|]].
  - rewrite (Uc lc); [rewrite Hc2, length_app; lia| |done].
    eapply perm_bound; [|exact Hlen]. by eapply pending_step.
  - intros b. rewrite (Ub lb b); [rewrite Hb2; apply in_bucket_app| |done].
    eapply perm_bound; [|exact Hlen]. by eapply pending_step.
Qed.

Lemma step_grows weak all s s' : partial all s.1 s.2 -> step weak s s' -> grows s.1 s'.1.
Proof.
  intros Hp Hs. destruct Hs as [h ts i ns l Hi|h ts i [l p] h' p' Hi Hm]; cbn [fst snd] in *.
  - reflexivity.
  - eapply update_grows; [exact Hp|exact Hi|]. eapply micro_updates; [|exact Hm].
    pose proof (pa_knows _ _ _ Hp) as Hk. rewrite Forall_lookup in Hk. by apply (Hk i).
Qed.

Lemma steps_grows weak all s s' : rtc (step weak) s s' -> partial all s.1 s.2 -> grows s.1 s'.1.
Proof.
  induction 1 as [|s1 s2 s3 H1 _ IH]; [done|]. intros Hp. etrans; [by eapply step_grows|]. by eapply IH, step_partial.
Qed.

(** A sample is in its bucket before it is counted. *)
Lemma count_in_buckets all h ts : partial all h ts ->
  count_ h <= cumulated h 63 /\ forall b, cumulated h b < 2 ^ 64.
Proof.
  intros Hp. pose proof (pa_ok _ _ _ Hp) as Hok. pose proof (pa_len _ _ _ Hp) as Hlen.
  destruct (pa_bucket _ _ _ Hp) as (lb & Hb1 & Hb2), (pa_count _ _ _ Hp) as (lc & Hc1 & Hc2).
  assert (Hlb : Forall sample_ok lb) by (rewrite <- Hb1 in Hok; by apply Forall_app in Hok as [? _]).
  assert (Hle : (length (all_pending 1 ts) <= length (all_pending 2 ts))%nat).
  { unfold all_pending. clear. induction ts as [|t ts IH]; [done|]. cbn [fmap list_fmap concat]. rewrite !length_app.
    enough (length (pending 1 t) <= length (pending 2 t))%nat by lia. unfold pending. rewrite !length_app.
    enough (length (in_call 1 (at_ t)) <= length (in_call 2 (at_ t)))%nat by lia.
    unfold in_call. destruct (at_ t); cbn [stage]; repeat case_decide; cbn; lia. }
  apply Permutation_length in Hb1, Hc1. rewrite length_app in Hb1, Hc1. split.
  - rewrite (cumulated_below h lb) by done. change (2 ^ Z.of_nat 63) with (2 ^ 63). rewrite below_all, Hc2 by done. lia.
  - intros b. rewrite (cumulated_below h lb) by done. pose proof (below_le (2 ^ Z.of_nat b) lb). lia.
Qed.

Lemma bucket_samples all h ts : partial all h ts ->
  exists l, Forall sample_ok l /\ l ⊆+ all /\ forall b, bucket h b = in_bucket b l.
Proof.
  intros Hp. destruct (pa_bucket _ _ _ Hp) as (l & Hl & Hb). exists l. pose proof (pa_ok _ _ _ Hp) as Hok.
  rewrite <- Hl in Hok. split; [by apply Forall_app in Hok as [? _]|]. split; [|done].
  rewrite <- Hl. by apply submseteq_inserts_r.
Qed.

(** ** The invariant of the reader *)

Section Reading.
Variables weak old : bool.
Variable seen : LatencyTracker.
Variable pct : double.
Variable all : list Z.
Variable h0 : LatencyTracker.      (* when the call begins *)

(** [total] is a value of the count the load may have given; when loads are up
    to date, the one of a tracker [ht] during the call. *)
Definition counts (h : LatencyTracker) (total : Z) (b : nat) (cum : Z) : Prop :=
  count_ seen <= total <= count_ h /\ cumulated seen b <= cum /\
  (old = false -> exists ht, grows h0 ht /\ grows ht h /\ total = count_ ht /\ count_ ht <= cumulated ht 64 /\
    cumulated ht b <= cum).

(** The result [r] is the bucket where the samples seen reach the target. *)
Definition in_reach (h : LatencyTracker) (total r : Z) : Prop :=
  exists (b : nat) cum, (b <= 62)%nat /\ r = 2 ^ Z.of_nat b /\ counts h total b cum /\
    cum < target_of total pct <= cumulated h (S b).

(** The buckets seen do not make up the target. *)
Definition out_of_reach (h : LatencyTracker) (total : Z) : Prop :=
  exists cum, counts h total 64 cum /\ cum < target_of total pct.

Definition reader_ok (h : LatencyTracker) (r : reader) : Prop :=
  match r with
  | RTotal => True
  | RScan target b cum => exists total, 0 < total /\ counts h total (Z.to_nat b) cum /\ 0 <= cum <= cumulated h (Z.to_nat b) /\
      target = target_of total pct /\ 0 <= b < BUCKETS /\ (cum < target \/ b = 0)
  | RMax => exists total, 0 < total /\ out_of_reach h total
  | RDone r => exists total, count_ seen <= total <= count_ h /\ (old = false -> count_ h0 <= total) /\ (total = 0 -> r = 0) /\
      (1 <= target_of total pct <= total ->
       in_reach h total r \/ out_of_reach h total /\ max_ns_ seen <= r <= max_ns_ h)
  end.

Lemma counts_grows h h' total b cum : grows h h' -> counts h total b cum -> counts h' total b cum.
Proof.
  intros Hg (H1 & H2 & H3). split; [destruct Hg; lia|]. split; [done|]. intros Ho.
  destruct (H3 Ho) as (ht & G1 & G2 & H). exists ht. split; [done|]. split; [by etrans|done].
Qed.

Lemma in_reach_grows h h' total r : grows h h' -> in_reach h total r -> in_reach h' total r.
Proof.
  intros Hg (b & cum & Hb & -> & Hc & Ht). exists b, cum. pose proof (cumulated_mono _ _ (S b) Hg).
  split_and!; [done|done|by eapply counts_grows|lia|lia].
Qed.

Lemma out_of_reach_grows h h' total : grows h h' -> out_of_reach h total -> out_of_reach h' total.
Proof. intros Hg (cum & Hc & Ht). exists cum. split; [by eapply counts_grows|done]. Qed.

Lemma reader_ok_grows h h' r : grows h h' -> reader_ok h r -> reader_ok h' r.
Proof.
  intros Hg. destruct r as [|target b cum| |x]; cbn [reader_ok]; [done|..].
  - intros (total & H0 & Hc & Hcum & Ht & Hb & Hlt). exists total. pose proof (cumulated_mono _ _ (Z.to_nat b) Hg).
    split_and!; try done; try lia. by eapply counts_grows.
  - intros (total & H0 & H). exists total. split; [done|]. by eapply out_of_reach_grows.
  - intros (total & H1 & H2 & H0 & H3). pose proof Hg as (Gc & Gm & Gb). exists total. split_and!; try done; try lia.
    intros Ht. destruct (H3 Ht) as [H|[H Hr]]; [left; by eapply in_reach_grows|right].
    split; [by eapply out_of_reach_grows|lia].
Qed.

Lemma power_of_bucket b : 0 <= b <= 62 -> (if b =? 0 then 1 else wrap_i64 (Z.shiftl 1 b)) = 2 ^ b.
Proof.
  intros Hb. destruct (Z.eqb_spec b 0) as [->|]; [done|]. rewrite Z.shiftl_1_l. apply wrap_s_small; [lia|].
  split; [apply Z.pow_nonneg; lia|]. apply Z.pow_lt_mono_r; lia.
Qed.

Lemma bucket_nonneg h ts b : partial all h ts -> 0 <= bucket h b.
Proof. intros Hp. destruct (bucket_samples _ _ _ Hp) as (l & _ & _ & ->). unfold in_bucket. lia. Qed.

(** Samples are below 2^63: the last bucket stays empty. *)
Lemma last_bucket_empty h ts : partial all h ts -> bucket h 63 = 0.
Proof.
  intros Hp. destruct (bucket_samples _ _ _ Hp) as (l & Hl & _ & Hb).
  pose proof (cumulated_below h l 63 Hl Hb) as H1. pose proof (cumulated_below h l 64 Hl Hb) as H2.
  rewrite cumulated_S in H2. change (Z.of_nat 63) with 63 in H2. change (2 ^ Z.of_nat 63) with (2 ^ 63) in H1. rewrite below_all in H1 by done.
  pose proof (below_le (2 ^ Z.of_nat 64) l). pose proof (bucket_nonneg h ts 63 Hp). lia.
Qed.

Hypothesis seen_ok : exists ts, partial all seen ts.

Lemma seen_nonneg : 0 <= count_ seen /\ forall b, 0 <= bucket seen b.
Proof.
  destruct seen_ok as [ts Hp]. split; [|intros b; by eapply bucket_nonneg].
  destruct (pa_count _ _ _ Hp) as (l & _ & ->). lia.
Qed.

Lemma loads_range h r v : grows seen h -> loads old seen h r v ->
  match r with RDone _ => True | _ => current seen r <= v <= current h r end /\ (old = false -> v = current h r).
Proof.
  intros (Hc & Hm & Hb) Hv. split; [|by intros ->; destruct Hv as [->|[? _]]].
  destruct r as [|target b cum| |x]; [..|done]; cbn [current] in *; try specialize (Hb b); destruct Hv as [->|[_ Hv]]; cbn [current] in *; lia.
Qed.

(** The load of a bucket. *)
Lemma counts_next h total b cum v : grows seen h -> 0 <= b -> loads old seen h (RScan (target_of total pct) b cum) v ->
  counts h total (Z.to_nat b) cum -> counts h total (S (Z.to_nat b)) (cum + v).
Proof.
  intros Hseen Hb Hv (H1 & H2 & H3). destruct (loads_range _ _ _ Hseen Hv) as [Hr Hnow]. cbn [current] in *.
  split; [done|]. rewrite !cumulated_S, Z2Nat.id by done. split; [lia|]. intros Ho.
  destruct (H3 Ho) as (ht & G1 & G2 & E & Hle & Hcum). exists ht. rewrite (Hnow Ho).
  assert (bucket ht b <= bucket h b) by apply G2.
  split_and!; try done. rewrite (cumulated_S ht), Z2Nat.id by done. lia.
Qed.

Lemma read_ok h ts r v : partial all h ts -> grows seen h -> grows h0 h -> loads old seen h r v ->
  reader_ok h r -> reader_ok h (read pct v r).
Proof.
  intros Hp Hseen Hh0 Hv. destruct (count_in_buckets _ _ _ Hp) as [Hcount Hsum]. destruct seen_nonneg as [S0 B0].
  destruct (loads_range _ _ _ Hseen Hv) as [Hr Hnow].
  destruct r as [|target b cum| |x]; cbn [reader_ok read current] in *; [| | |done].
  - intros _. destruct (Z.eqb_spec v 0) as [E|E]; exists v.
    + split_and!; try done; try lia. intros ->%Hnow. apply Hh0.
    + change (Z.to_nat 0) with 0%nat. rewrite cumulated_0. split_and!; try done; try lia; try by right.
      split; [done|]. split; [by rewrite cumulated_0|]. intros Ho.
      exists h. rewrite (Hnow Ho). rewrite cumulated_0. split_and!; try done.
      rewrite cumulated_S. change (Z.of_nat 63) with 63. pose proof (bucket_nonneg h ts 63 Hp). lia.
  - intros (total & H0 & Hc & Hcum & -> & Hb & Hlt). pose proof (counts_next h total b cum v Hseen ltac:(lia) Hv Hc) as Hc'.
    pose proof (B0 b). assert (Hnext : 0 <= cum + v <= cumulated h (S (Z.to_nat b))) by (rewrite cumulated_S, Z2Nat.id by lia; lia).
    rewrite wrap_u_id by (specialize (Hsum (S (Z.to_nat b))); lia).
    destruct (Z.leb_spec (target_of total pct) (cum + v)).
    + exists total. pose proof Hc as (Hct & _ & Hht). split_and!; [lia|lia| |lia|].
      * intros (ht & (G & _) & _ & -> & _)%Hht. done.
      * intros Ht. left. exists (Z.to_nat b), cum. pose proof (last_bucket_empty h ts Hp). unfold BUCKETS in Hb.
        assert (b <= 62) by (destruct (decide (b = 63)) as [->|]; lia).
        split_and!; [lia|by rewrite power_of_bucket, Z2Nat.id by lia|done| |lia].
        destruct Hlt as [Hlt| ->]; [done|]. change (Z.to_nat 0) with 0%nat in Hcum. rewrite cumulated_0 in Hcum. lia.
    + unfold BUCKETS in *. destruct (Z.ltb_spec (b + 1) 64); exists total.
      * replace (Z.to_nat (b + 1)) with (S (Z.to_nat b)) by lia. split_and!; try done; try lia.
      * split; [done|]. exists (cum + v). assert (b = 63) as -> by lia. by split.
  - intros (total & H0 & cum & (Hct & H1 & Hht) & Hlt). exists total. split_and!; [lia|lia| |lia|].
    + intros (ht & (G & _) & _ & -> & _)%Hht. done.
    + intros _. right. split; [|lia]. by exists cum.
Qed.

Lemma reads_ok n s s' : reads weak old seen pct n s s' -> partial all s.1.1 s.1.2 -> grows seen s.1.1 -> grows h0 s.1.1 ->
  reader_ok s.1.1 s.2 -> partial all s'.1.1 s'.1.2 /\ grows seen s'.1.1 /\ grows h0 s'.1.1 /\ reader_ok s'.1.1 s'.2.
Proof.
  induction 1 as [s|n s s' r x Hs _ IH|n h ts r v x Hr Hv _ IH]; intros Hp Hseen Hh0 Hok; cbn [fst snd] in *; [done|..].
  - pose proof (step_grows _ _ _ _ Hp Hs) as Hg. apply IH; [by eapply step_partial|by etrans..|]. by eapply reader_ok_grows.
  - apply IH; [done..|]. by eapply read_ok.
Qed.

(** With up-to-date loads the buckets do make up a rank within the count, since
    a sample is in its bucket before it is counted. *)
Lemma not_out_of_reach h total : old = false -> target_of total pct <= total -> out_of_reach h total -> False.
Proof.
  intros Ho Ht (cum & (_ & _ & Hht) & Hlt).
  destruct (Hht Ho) as (ht & _ & _ & -> & Hle & Hcum). lia.
Qed.
End Reading.

(** Up-to-date loads do not depend on what was seen before. *)
Lemma reads_fresh weak seen seen' pct n s s' : reads weak false seen pct n s s' -> reads weak false seen' pct n s s'.
Proof.
  induction 1 as [s|n s s' r x Hs _ IH|n h ts r v x Hr Hv _ IH].
  - constructor.
  - by eapply reads_other.
  - eapply reads_load; [done| |exact IH]. destruct Hv as [->|[? _]]; [by left|done].
Qed.

(** ** The number of loads *)

Definition loads_left (r : reader) : nat :=
  match r with
  | RTotal => 66
  | RScan _ b _ => S (Z.to_nat (BUCKETS - b))
  | RMax => 1
  | RDone _ => 0
  end.

Definition in_loop (r : reader) : Prop := match r with RScan _ b _ => b < BUCKETS | _ => True end.

Lemma read_progress pct v r : (forall x, r <> RDone x) -> in_loop r ->
  in_loop (read pct v r) /\ (loads_left (read pct v r) < loads_left r)%nat.
Proof.
  intros Hr Hl. destruct r as [|target b cum| |x]; [| | |by destruct (Hr x)]; cbn [read in_loop] in *; unfold BUCKETS in *.
  - destruct (v =? 0); cbn [in_loop loads_left]; unfold BUCKETS; lia.
  - destruct (_ <=? _); [cbn; lia|]. destruct (Z.ltb_spec (b + 1) 64); cbn [in_loop loads_left]; unfold BUCKETS; lia.
  - cbn. lia.
Qed.

Lemma reads_bound weak old seen pct n s s' : reads weak old seen pct n s s' -> in_loop s.2 ->
  (n + loads_left s'.2 <= loads_left s.2)%nat.
Proof.
  induction 1 as [s|n s s' r x Hs _ IH|n h ts r v x Hr Hv _ IH]; cbn [fst snd] in *; intros Hl; [lia|by apply IH|].
  destruct (read_progress pct v r Hr Hl) as [Hl' Hn]. specialize (IH Hl'). lia.
Qed.

(** ** A schedule

    A turn of a recording thread, a load that gives the current value, one that
    gives an older value. *)
Inductive turn_of := Recorder (i : nat) | Now | Old (v : Z).

Definition reader_turn (seen : LatencyTracker) (pct : double) (o : turn_of) (s : state * reader) : option (state * reader) :=
  match o, s.2 with
  | Recorder i, r => s' ← turn i s.1; Some (s', r)
  | _, RDone _ => None
  | Now, r => Some (s.1, read pct (current s.1.1 r) r)
  | Old v, r => if decide (current seen r <= v <= current s.1.1 r) then Some (s.1, read pct v r) else None
  end.

Fixpoint reader_run (seen : LatencyTracker) (pct : double) (schedule : list turn_of) (s : state * reader) : option (state * reader) :=
  match schedule with
  | [] => Some s
  | o :: rest => s' ← reader_turn seen pct o s; reader_run seen pct rest s'
  end.

Lemma reader_schedule weak seen pct sched : forall s s', reader_run seen pct sched s = Some s' ->
  exists n, reads weak true seen pct n s s'.
Proof.
  induction sched as [|o sched IH]; intros s s'; cbn [reader_run]; [intros [= <-]; eexists; constructor|].
  destruct (reader_turn seen pct o s) as [s1|] eqn:E; [|done]. cbn [mbind option_bind]. intros [n Hn]%IH.
  destruct s as [[h ts] r].
  assert (Hload : forall v, (forall y, r <> RDone y) -> loads true seen h r v -> s1 = ((h, ts), read pct v r) ->
    exists n, reads weak true seen pct n ((h, ts), r) s') by (intros v Hr Hv ->; eexists; by eapply reads_load).
  destruct o as [i| |v]; unfold reader_turn in E; cbn [fst snd] in E.
  - destruct (turn i (h, ts)) as [s2|] eqn:Et; [|done]. injection E as <-. exists n. eapply reads_other; [by eapply turn_step|done].
  - apply (Hload (current h r)); [by intros y ->|by left|]. destruct r; by simplify_eq.
  - apply (Hload v); [by intros y ->|right|]; destruct r; try done; by case_decide; simplify_eq.
Qed.

(** A reader that has seen nothing finds the count of two samples before any of
    their other traces. *)
Definition torn_reading : list turn_of := replicate 16 (Recorder 0) ++ Now :: replicate 65 (Old 0).

Lemma torn_reading_run : exists h ts, reader_run LatencyTracker_new (of_int 50) torn_reading (start [[300; 300]], RTotal) =
  Some ((h, ts), RDone 0) /\ count_ h = 2 /\ bucket h 8 = 2.
Proof. eexists _, _. vm_compute. split; [reflexivity|split; reflexivity]. Qed.

(** ** Claims *)

(** C36. [percentile] while any number of threads record, their loads stale and
    their exchanges failing as they may.  It makes at most 66 loads, whatever
    the others do.  Its loads are relaxed ([old]): each gives a value its atomic
    has had since the state [h0] the reader has seen.  The rank is then taken
    from a value [total] of the count, and for a rank from 1 to [total] the
    result [r] is right to a factor of two: fewer than [target] of the samples
    seen are below [r], and at least [target] of those in the buckets at the end
    of the call are below [2 * r] - unless the loop falls through, which it can
    do only when the target exceeds the number of samples seen, and the result
    is a value of the maximum.  With loads that are up to date ([old] false) the
    loop does not fall through, and the samples seen are those at the beginning
    of the call.  With relaxed ones it can: a reader who finds the count of two
    samples of 300 and none in the buckets reports a median of 0. *)
Theorem percentile_in_use (weak old : bool) (pct : double) (calls : list (list Z)) (h0 h h' : LatencyTracker)
    (ts0 ts ts' : list thread) (n : nat) (r : Z) :
  Forall (fun x => x <= INT64_MAX) (concat calls) -> Z.of_nat (length (concat calls)) < 2 ^ 64 ->
  rtc (step weak) (start calls) (h0, ts0) -> rtc (step weak) (h0, ts0) (h, ts) ->
  reads weak old h0 pct n ((h, ts), RTotal) ((h', ts'), RDone r) ->
  let seen := if old then h0 else h in
  (n <= 66)%nat /\
  (exists total l l', count_ seen <= total <= count_ h' /\ l' ⊆+ samples (concat calls) /\
    (forall b, bucket seen b = in_bucket b l) /\ (forall b, bucket h' b = in_bucket b l') /\
    (total = 0 -> r = 0) /\
    let target := target_of total pct in
    1 <= target <= total -> below r l < target <= below (2 * r) l' \/
      old = true /\ Z.of_nat (length l) < target /\ max_ns_ seen <= r <= max_ns_ h') /\
  exists h ts m, reads true true LatencyTracker_new (of_int 50) m (start [[300; 300]], RTotal) ((h, ts), RDone 0) /\
    count_ h = 2 /\ bucket h 8 = 2.
Proof.
  intros Hx Hlen Hpast Hrun Hread seen. split; [pose proof (reads_bound _ _ _ _ _ _ _ Hread I) as Hn; cbn in Hn; lia|]. split.
  2:{ destruct torn_reading_run as (g & us & E & H). apply (reader_schedule true) in E as [m Hm]. by exists g, us, m. }
  assert (Hcall : rtc (step weak) (start calls) (h, ts)) by (by etrans).
  pose proof (steps_partial weak calls _ Hx Hlen Hpast) as Hp0. pose proof (steps_partial weak calls _ Hx Hlen Hcall) as Hp.
  cbn [fst snd] in Hp0, Hp.
  assert (Hsp : exists us, partial (samples (concat calls)) seen us) by (unfold seen; destruct old; by eexists).
  assert (Hsg : grows seen h).
  { unfold seen. destruct old; [|done]. apply (steps_grows weak (samples (concat calls)) _ _ Hrun Hp0). }
  assert (Hread' : reads weak old seen pct n ((h, ts), RTotal) ((h', ts'), RDone r))
    by (unfold seen; destruct old; [done|by eapply reads_fresh]).
  destruct (reads_ok weak old seen pct _ h Hsp n _ _ Hread' Hp Hsg ltac:(done) I) as (Hp' & Hg & Hg' & total & Ht & Hold & H0 & Hr).
  cbn [fst snd] in *. destruct Hsp as [us Hsp].
  destruct (bucket_samples _ _ _ Hsp) as (l & Hl & _ & Hb), (bucket_samples _ _ _ Hp') as (l' & Hl' & Hs & Hb').
  exists total, l, l'. split; [exact Ht|]. split; [exact Hs|]. split; [exact Hb|]. split; [exact Hb'|]. split; [exact H0|]. intros Hrank.
  destruct (Hr Hrank) as [(b & cum & Hb62 & -> & (_ & Hcum & _) & Hlo & Hhi)|[Ho Hmax]].
  - left. rewrite (cumulated_below seen l) in Hcum by done. rewrite (cumulated_below h' l') in Hhi by done.
    rewrite Nat2Z.inj_succ, <- Z.add_1_r in Hhi. rewrite <- Z.pow_succ_r, <- Z.add_1_r by lia. lia.
  - right. destruct old eqn:E; [|by destruct (not_out_of_reach false seen pct h h' total eq_refl ltac:(lia) Ho)].
    split; [done|]. split; [|done]. destruct Ho as (cum & (_ & Hcum & _) & Hlt).
    rewrite (cumulated_below seen l) in Hcum by done. pose proof (below_mono (2 ^ 63) (2 ^ Z.of_nat 64) l ltac:(by apply Z.pow_le_mono_r)).
    rewrite below_all in * by done. lia.
Qed.

(** The median of two samples, read while a third is recorded. *)
Lemma percentile_in_use_witness : exists h ts h' ts',
  run (replicate 16 0%nat) (start [[300; 40; 5000]]) = Some (h, ts) /\
  reader_run h (of_int 50) ([Now; Now] ++ replicate 4 (Recorder 0) ++ replicate 5 Now) ((h, ts), RTotal) =
    Some ((h', ts'), RDone 32) /\
  exists total l l', 2 <= total <= 3 /\ l' ⊆+ [300; 40; 5000] /\
    let target := target_of total (of_int 50) in
    1 <= target <= total -> below 32 l < target <= below 64 l' \/
      true = true /\ Z.of_nat (length l) < target /\ max_ns_ h <= 32 <= max_ns_ h'.
Proof.
  set (o := run (replicate 16 0%nat) (start [[300; 40; 5000]])).
  assert (E : exists h ts h' ts', o = Some (h, ts) /\
    reader_run h (of_int 50) ([Now; Now] ++ replicate 4 (Recorder 0) ++ replicate 5 Now) ((h, ts), RTotal) =
      Some ((h', ts'), RDone 32) /\ count_ h = 2 /\ count_ h' = 3)
    by (do 4 eexists; split; [vm_compute; reflexivity|split; [vm_compute; reflexivity|split; vm_compute; reflexivity]]).
  destruct E as (h & ts & h' & ts' & E1 & E2 & C & C'). exists h, ts, h', ts'. split; [exact E1|]. split; [exact E2|].
  assert (Hx : Forall (fun x => x <= INT64_MAX) (concat [[300; 40; 5000]])) by (cbn; repeat (constructor; [lia|]); constructor).
  pose proof (schedule_steps false _ _ _ E1) as S1. destruct (reader_schedule false _ _ _ _ _ E2) as [n S2].
  pose proof (percentile_in_use false true (of_int 50) [[300; 40; 5000]] h h h' ts ts ts' n 32 Hx eq_refl S1 (rtc_refl _ _) S2) as (_ & L & _).
  destruct L as (total & l & l' & H1 & H2 & _ & _ & _ & H3).
  exists total, l, l'. rewrite C, C' in H1. split; [exact H1|]. split; [exact H2|exact H3].
Defined.
