(* ===== verification/Metrics.v ===== *)
(** * The metrics feed: metrics_server.h, metrics_server.cpp

    The snapshot structure and its JSON text.  The WebSocket server that sends
    the text is Boost.Beast input and output around it. *)

From Stdlib Require Import Ascii.
From S2P Require Import Prelude CString Numerals LatencyTracker.

Local Open Scope Z_scope.

Record MetricsSnapshot := mkSnapshot {
  tick_p50 : Z; tick_p99 : Z; tick_p999 : Z; tick_max : Z;      (* int64_t *)
  tick_count : Z;                                               (* uint64_t *)
  match_p50 : Z; match_p99 : Z; match_p999 : Z; match_max : Z;  (* int64_t *)
  match_count : Z;                                              (* uint64_t *)
  dropped_ticks : Z; dropped_execs : Z;
  tick_queue_depth : Z; exec_queue_depth : Z;
  tick_queue_capacity : Z; exec_queue_capacity : Z }.

Definition QUOTE : ascii := "034"%char.

(** A quoted key and its colon. *)
Definition key (k : bytes) : bytes := QUOTE :: k ++ QUOTE :: B ":".

Definition toJson (s : MetricsSnapshot) : bytes :=
  B "{"
  ++ key (B "tick_p50") ++ to_string (tick_p50 s) ++ B ","
  ++ key (B "tick_p99") ++ to_string (tick_p99 s) ++ B ","
  ++ key (B "tick_p999") ++ to_string (tick_p999 s) ++ B ","
  ++ key (B "tick_max") ++ to_string (tick_max s) ++ B ","
  ++ key (B "tick_count") ++ to_string (tick_count s) ++ B ","
  ++ key (B "match_p50") ++ to_string (match_p50 s) ++ B ","
  ++ key (B "match_p99") ++ to_string (match_p99 s) ++ B ","
  ++ key (B "match_p999") ++ to_string (match_p999 s) ++ B ","
  ++ key (B "match_max") ++ to_string (match_max s) ++ B ","
  ++ key (B "match_count") ++ to_string (match_count s) ++ B ","
  ++ key (B "dropped_ticks") ++ to_string (dropped_ticks s) ++ B ","
  ++ key (B "dropped_execs") ++ to_string (dropped_execs s) ++ B ","
  ++ key (B "tick_queue_depth") ++ to_string (tick_queue_depth s) ++ B ","
  ++ key (B "exec_queue_depth") ++ to_string (exec_queue_depth s) ++ B ","
  ++ key (B "tick_queue_capacity") ++ to_string (tick_queue_capacity s) ++ B ","
  ++ key (B "exec_queue_capacity") ++ to_string (exec_queue_capacity s)
  ++ B "}".

(** ** Reading the text back *)

(** The members of an object whose values are integers, after the opening
    brace: the reader a client of the feed would use. *)
Fixpoint read_members (n : nat) (s : bytes) : option (list (bytes * Z)) :=
  match n, s with
  | S n', q :: r =>
      if decide (q = QUOTE) then
        match memchr r QUOTE with
        | None => None
        | Some k =>
            match drop (S k) r with
            | c :: r' =>
                if decide (c = ":"%char) then
                  let '(neg, r') := take_sign r' in
                  let '(ds, r') := span_digits 10 r' in
                  let v := if neg then - digits_value 10 ds else digits_value 10 ds in
                  match ds, r' with
                  | _ :: _, c' :: r'' =>
                      if decide (c' = ","%char) then cons (take k r, v) <$> read_members n' r''
                      else if decide (c' = "}"%char) then Some [(take k r, v)] else None
                  | _, _ => None
                  end
                else None
            | [] => None
            end
        end
      else None
  | _, _ => None
  end.

Definition read_json (s : bytes) : option (list (bytes * Z)) :=
  match s with
  | c :: r => if decide (c = "{"%char) then read_members (length r) r else None
  | [] => None
  end.

Definition snapshot_fields (s : MetricsSnapshot) : list (bytes * Z) :=
  [(B "tick_p50", tick_p50 s); (B "tick_p99", tick_p99 s); (B "tick_p999", tick_p999 s);
   (B "tick_max", tick_max s); (B "tick_count", tick_count s);
   (B "match_p50", match_p50 s); (B "match_p99", match_p99 s); (B "match_p999", match_p999 s);
   (B "match_max", match_max s); (B "match_count", match_count s);
   (B "dropped_ticks", dropped_ticks s); (B "dropped_execs", dropped_execs s);
   (B "tick_queue_depth", tick_queue_depth s); (B "exec_queue_depth", exec_queue_depth s);
   (B "tick_queue_capacity", tick_queue_capacity s); (B "exec_queue_capacity", exec_queue_capacity s)].

Fixpoint members (fs : list (bytes * Z)) : bytes :=
  match fs with
  | [] => B "}"
  | [(k, v)] => key k ++ to_string v ++ B "}"
  | (k, v) :: fs' => key k ++ to_string v ++ B "," ++ members fs'
  end.

Lemma toJson_members s : toJson s = B "{" ++ members (snapshot_fields s).
Proof. reflexivity. Qed.

Lemma read_member n k v c r : QUOTE ∉ k -> stops 10 (c :: r) ->
  read_members (S n) (key k ++ to_string v ++ c :: r) =
  if decide (c = ","%char) then cons (k, v) <$> read_members n r
  else if decide (c = "}"%char) then Some [(k, v)] else None.
Proof.
  intros Hk Hc. unfold key. cbn [app read_members]. rewrite decide_True by done.
  rewrite <- app_assoc. cbn [app]. rewrite memchr_app by done.
  rewrite drop_app_ge by lia. replace (S (length k) - length k)%nat with 1%nat by lia.
  rewrite take_app_length. change (B ":") with [":"%char]. cbn [skipn app]. rewrite decide_True by done.
  destruct (span_to_string v (c :: r) Hc) as (ds & E & Hv & Hne). revert E.
  destruct (take_sign _) as [neg s]. destruct (span_digits 10 s) as [ds' r'].
  intros [= -> -> ->]. destruct ds as [|d ds]; [done|]. rewrite Hv.
  replace (if v <? 0 then - Z.abs v else Z.abs v) with v by (zcases; lia). done.
Qed.

Lemma read_members_spec fs : forall n, fs <> [] -> Forall (fun f => QUOTE ∉ f.1) fs ->
  (length fs <= n)%nat -> read_members n (members fs) = Some fs.
Proof.
  induction fs as [|[k v] fs IH]; intros n Hne Hfs Hn; [done|].
  apply Forall_cons in Hfs as [Hk Hfs]. destruct n as [|n]; [cbn in Hn; lia|]. destruct fs as [|f fs].
  - cbn [members]. change (B "}") with ["}"%char]. by rewrite read_member.
  - change (members ((k, v) :: f :: fs)) with (key k ++ to_string v ++ ","%char :: members (f :: fs)).
    rewrite read_member by done. rewrite decide_True by done. rewrite IH; [done..|].
    cbn [length] in *. lia.
Qed.

Lemma members_length fs : (length fs <= length (members fs))%nat.
Proof.
  induction fs as [|[k v] fs IH]; [cbn; lia|]. destruct fs as [|f fs].
  - cbn [members length]. rewrite length_app. unfold key. cbn [length]. lia.
  - change (members ((k, v) :: f :: fs)) with (key k ++ to_string v ++ B "," ++ members (f :: fs)).
    rewrite !length_app. unfold key. cbn [length] in *. lia.
Qed.

(** C39. The JSON text of a snapshot carries it: a reader of flat JSON objects
    gets back every field under its name with its value, negative numbers
    included. *)
Theorem json_roundtrip (s : MetricsSnapshot) : read_json (toJson s) = Some (snapshot_fields s).
Proof.
  rewrite toJson_members. unfold read_json.
  change (B "{" ++ ?x) with ("{"%char :: x). cbv iota beta. rewrite decide_True by done.
  apply read_members_spec; [done| |apply members_length].
  unfold snapshot_fields. repeat (constructor; [by apply (bool_decide_unpack _)|]). constructor.
Qed.
