(* ===== verification/MetricsServer.v ===== *)
(** * The metrics server's threads: metrics_server.cpp

    The owner calls [start], [stop] and the destructor; an accept thread takes
    connections; every connection has a detached thread of its own.  They
    share [running_], the acceptor and the [Impl] object that holds both.  Each
    atomic access or call of the socket library is a step; the results of the
    library (a connection, an error, a message sent) are inputs of the steps.
    What the threads send is [toJson] of a snapshot, in [Metrics]. *)

From S2P Require Import Prelude.

Inductive acceptor := NoAcceptor | Listening | Closed.

(** Where the accept thread is; [ANone] when [acceptThread_] is not joinable. *)
Inductive accept_pc := ANone | ALoop | AAccept | AAfter (ok : bool) | AFinished.

(** Where a client thread is. *)
Inductive client_pc := CHandshake | CLoop | CSleep | CWoken | CWrite | CClosing | CEnded.

(** Where the owner is: in a call of [stop], by itself or from the destructor
    ([true]); [Gone] when the object has been destroyed. *)
Inductive owner_pc := OIdle | OClosing (destroy : bool) | OJoining (destroy : bool) | OGone.

#[global] Instance client_pc_eq_dec : EqDecision client_pc.
Proof. solve_decision. Defined.

Record Server := mkServer {
  running_ : bool;
  acceptor_ : acceptor;
  acceptThread_ : accept_pc;
  clients : list client_pc;   (* detached, in the order of connection *)
  sent : nat;                 (* messages written so far *)
  owner : owner_pc }.

Definition MetricsServer_new : Server := mkServer false NoAcceptor ANone [] 0 OIdle.

(** How the acceptor is opened: its constructor throws, [set_option] on it
    does, neither. *)
Inductive opening := BindThrows | OptionThrows | Opens.

(** [start].  [None] is [std::terminate], the assignment over a joinable
    thread. *)
Definition start (o : opening) (s : Server) : option Server :=
  match o with
  | BindThrows => Some (mkServer true (acceptor_ s) (acceptThread_ s) (clients s) (sent s) (owner s))
  | OptionThrows => Some (mkServer true Listening (acceptThread_ s) (clients s) (sent s) (owner s))
  | Opens =>
      match acceptThread_ s with
      | ANone => Some (mkServer true Listening ALoop (clients s) (sent s) (owner s))
      | _ => None
      end
  end.

(** The end of [stop]; the destructor goes on to free the object. *)
Definition stop_return (destroy : bool) : owner_pc := if destroy then OGone else OIdle.

(** [if (!running_.exchange(false)) return;] *)
Definition stop_exchange (destroy : bool) (s : Server) : Server :=
  mkServer false (acceptor_ s) (acceptThread_ s) (clients s) (sent s)
    (if running_ s then OClosing destroy else stop_return destroy).

(** [if (acceptor_) acceptor_->close(ec);] *)
Definition stop_close (destroy : bool) (s : Server) : Server :=
  mkServer (running_ s) (match acceptor_ s with NoAcceptor => NoAcceptor | _ => Closed end)
    (acceptThread_ s) (clients s) (sent s) (OJoining destroy).

(** [if (joinable()) join();], which waits for the thread to finish. *)
Definition stop_join (destroy : bool) (s : Server) : option Server :=
  match acceptThread_ s with
  | ANone | AFinished =>
      Some (mkServer (running_ s) (acceptor_ s) ANone (clients s) (sent s) (stop_return destroy))
  | _ => None
  end.

(** A step of the accept loop; [ok] is the result of [accept]. *)
Definition acceptLoop (ok : bool) (s : Server) : option Server :=
  let at_ pc := mkServer (running_ s) (acceptor_ s) pc (clients s) (sent s) (owner s) in
  match acceptThread_ s with
  | ALoop => Some (at_ (if running_ s then AAccept else AFinished))
  | AAccept => Some (at_ (AAfter ok))
  | AAfter ok' =>
      if negb ok' || negb (running_ s) then Some (at_ AFinished)
      else Some (mkServer (running_ s) (acceptor_ s) ALoop (clients s ++ [CHandshake]) (sent s) (owner s))
  | _ => None
  end.

(** A step of [serveClient]; [ok] is the result of the handshake or of the
    write.  The new position, and the number of messages written. *)
Definition serveClient (running ok : bool) (pc : client_pc) : option (client_pc * nat) :=
  match pc with
  | CHandshake => Some (if ok then CLoop else CEnded, 0)
  | CLoop => Some (if running then CSleep else CClosing, 0)
  | CSleep => Some (CWoken, 0)
  | CWoken => Some (if running then CWrite else CClosing, 0)
  | CWrite => if ok then Some (CLoop, 1) else Some (CClosing, 0)
  | CClosing => Some (CEnded, 0)
  | CEnded => None
  end.

(** The next step of the client reads [running_] or [snapshotFn_], which are
    part of the object. *)
Definition uses_impl (pc : client_pc) : bool :=
  match pc with CLoop | CWoken | CWrite => true | _ => false end.

Definition client_turn (i : nat) (ok : bool) (s : Server) : option Server :=
  pc ← clients s !! i;
  r ← serveClient (running_ s) ok pc;
  Some (mkServer (running_ s) (acceptor_ s) (acceptThread_ s) (<[i := r.1]> (clients s)) (sent s + r.2) (owner s)).

(** What may happen next. *)
Inductive action :=
  | Start (o : opening)
  | Stop (destroy : bool)          (* the exchange of [stop] *)
  | Close                          (* the rest of [stop] *)
  | Join
  | Accept (ok : bool)
  | Client (i : nat) (ok : bool).

Definition act (a : action) (s : Server) : option Server :=
  match a, owner s with
  | Start o, OIdle => start o s
  | Stop d, OIdle => Some (stop_exchange d s)
  | Close, OClosing d => Some (stop_close d s)
  | Join, OJoining d => stop_join d s
  | Accept ok, _ => acceptLoop ok s
  | Client i ok, _ => client_turn i ok s
  | _, _ => None
  end.

Definition step (s s' : Server) : Prop := exists a, act a s = Some s'.

Definition reachable (s : Server) : Prop := rtc step MetricsServer_new s.

(** Running a list of actions. *)
Fixpoint run (acts : list action) (s : Server) : option Server :=
  match acts with
  | [] => Some s
  | a :: acts' => s' ← act a s; run acts' s'
  end.

Lemma run_rtc acts : forall s s', run acts s = Some s' -> rtc step s s'.
Proof.
  induction acts as [|a acts IH]; intros s s'; cbn [run].
  { intros [= ->]. done. }
  destruct (act a s) as [s1|] eqn:E; [|done]. intros H. eapply rtc_l; [by exists a|by apply IH].
Qed.

(** ** The accept thread *)

(** No accept thread when the owner is out of [stop] with [running_] off. *)
Definition contained (s : Server) : Prop :=
  match owner s with
  | OIdle => running_ s = false -> acceptThread_ s = ANone
  | OClosing _ | OJoining _ => running_ s = false
  | OGone => running_ s = false /\ acceptThread_ s = ANone
  end.

Lemma contained_step s s' : contained s -> step s s' -> contained s'.
Proof.
  intros Hs [a Ha]. unfold contained in *. destruct s as [r ac at' cl n o]. cbn [owner running_ acceptThread_] in *.
  destruct a as [b|d| | |ok|i ok]; cbn [act owner] in Ha.
  - destruct o; try done. destruct b; cbn in Ha; [| |destruct at'; try done];
      injection Ha as <-; done.
  - destruct o; try done. injection Ha as <-. destruct r; cbn; [done|]. destruct d; cbn; auto.
  - destruct o; try done. by injection Ha as <-.
  - destruct o as [| |d|]; try done. destruct at'; try done; injection Ha as <-; by destruct d.
  - unfold acceptLoop in Ha. cbn [acceptThread_ running_ clients owner] in Ha.
    destruct at' as [| | |ok'|]; try done; [| |destruct (negb ok' || negb r)];
      injection Ha as <-; destruct o; cbn; try done; try (intros Hr; by specialize (Hs Hr));
      by destruct Hs.
  - unfold client_turn in Ha. cbn [clients running_] in Ha. destruct (cl !! i) as [pc|]; [|done].
    cbn in Ha. destruct (serveClient r ok pc) as [x|]; [|done]. injection Ha as <-. done.
Qed.

Lemma contained_reachable s : reachable s -> contained s.
Proof.
  unfold reachable. intros H. cut (contained MetricsServer_new); [|done].
  induction H as [|s1 s2 s3 H1 H2 IH]; [done|]. intros Hc. by apply IH, (contained_step s1).
Qed.

(** ** Messages after [stop] *)

Definition writing (s : Server) : nat := length (filter (fun pc => pc = CWrite) (clients s)).

(** The steps of a server that stays stopped. *)
Definition stopped_step (s s' : Server) : Prop := step s s' /\ running_ s = false /\ running_ s' = false.

Lemma count_insert (l : list client_pc) : forall i pc pc', l !! i = Some pc ->
  (length (filter (fun x => x = CWrite) (<[i := pc']> l)) + (if decide (pc = CWrite) then 1 else 0) =
   length (filter (fun x => x = CWrite) l) + (if decide (pc' = CWrite) then 1 else 0))%nat.
Proof.
  induction l as [|x l IH]; intros [|i] pc pc' Hi; cbn [lookup list_lookup] in Hi; try done.
  - injection Hi as ->. cbn [insert list_insert]. rewrite !filter_cons. repeat case_decide; cbn; lia.
  - change (<[S i:=pc']> (x :: l)) with (x :: <[i:=pc']> l). rewrite !filter_cons. specialize (IH i pc pc' Hi).
    repeat case_decide; cbn [length]; lia.
Qed.

Lemma stopped_sent s s' : stopped_step s s' -> (sent s' + writing s' <= sent s + writing s)%nat.
Proof.
  intros ([a Ha] & Hr & Hr'). destruct s as [r ac at' cl n o]. cbn in Hr. subst r.
  destruct a as [b|d| | |ok|i ok]; cbn [act owner] in Ha.
  - destruct o; try done. destruct b; cbn in Ha; [| |destruct at'; try done]; injection Ha as <-; done.
  - destruct o; try done. by injection Ha as <-.
  - destruct o; try done. by injection Ha as <-.
  - destruct o as [| |d|]; try done. destruct at'; try done; by injection Ha as <-.
  - unfold acceptLoop in Ha. cbn [acceptThread_ running_ clients owner] in Ha.
    destruct at'; try done; rewrite ?orb_true_r in Ha; by injection Ha as <-.
  - unfold client_turn in Ha. cbn [clients running_] in Ha. destruct (cl !! i) as [pc|] eqn:Hi; [|done].
    cbn [mbind option_bind] in Ha. destruct (serveClient false ok pc) as [[pc' k]|] eqn:Hc; [|done].
    injection Ha as <-. unfold writing; cbn [sent clients fst snd].
    pose proof (count_insert cl i pc pc' Hi) as Hcount.
    destruct pc, ok; cbn in Hc; try discriminate Hc; injection Hc as <- <-; repeat case_decide; try congruence; lia.
Qed.

(** ** Claims *)

(** C35. The accept thread is contained: in every interleaving of the owner, the
    accept thread and the clients, once [stop] has returned, or the server has
    been destroyed, the accept thread has ended; a second [stop] does nothing;
    and while the server stays stopped the clients together get at most the
    messages that were being written. *)
Theorem accept_thread_contained (s : Server) : reachable s ->
  (owner s = OIdle \/ owner s = OGone -> running_ s = false ->
     acceptThread_ s = ANone /\ (owner s = OIdle -> stop_exchange false s = s)) /\
  forall s', rtc stopped_step s s' -> (sent s' <= sent s + writing s)%nat.
Proof.
  intros Hs. pose proof (contained_reachable s Hs) as Hc. unfold contained in Hc. split.
  - intros [Ho|Ho] Hr; rewrite Ho in *; [|by destruct Hc]. split; [auto|]. intros _.
    unfold stop_exchange. rewrite Hr. destruct s. cbn in *. by subst.
  - intros s' H. clear Hs Hc. cut (sent s' + writing s' <= sent s + writing s)%nat; [lia|].
    induction H as [|s1 s2 s3 H1 H2 IH]; [done|]. pose proof (stopped_sent _ _ H1). lia.
Qed.

Definition example_run (destroy : bool) : list action :=
  [Start Opens; Accept true; Accept true; Accept true; Accept true; Client 0 true; Client 0 true;
   Stop destroy; Close; Accept false; Accept false; Join].

Lemma accept_thread_contained_witness :
  let s := mkServer false Closed ANone [CSleep] 0 OIdle in
  run (example_run false) MetricsServer_new = Some s /\ stop_exchange false s = s.
Proof.
  cbv zeta. split; [vm_compute; reflexivity|].
  refine (proj2 (proj1 (accept_thread_contained (mkServer false Closed ANone [CSleep] 0 OIdle) _) _ eq_refl) eq_refl).
  - apply (run_rtc (example_run false)). vm_compute. reflexivity.
  - left. reflexivity.
Defined.

(** A detached client thread outlives the server: [stop] and the destructor
    return while it sleeps, and its next reads are of the freed object. *)
Theorem client_outlives_server : exists s pc,
  reachable s /\ owner s = OGone /\ clients s = [pc] /\ uses_impl pc = true.
Proof.
  exists (mkServer false Closed ANone [CWoken] 0 OGone), CWoken. split; [|by split_and!].
  apply (run_rtc (example_run true ++ [Client 0 true])). vm_compute. reflexivity.
Qed.
