(* ===== verification/StdMap.v ===== *)
(** * [std::map]: a sorted association list

    The operations of [std::map<K, V>] the sources use, on the list of its
    elements in order.  The comparison is a boolean [lt]; the class [WeakOrder]
    states what [operator<] promises on the keys that are [key_ok] (a double
    key must not be a NaN).  Two keys are the same when neither is less. *)

From Stdlib Require Import Floats.SpecFloat.
From S2P Require Import Prelude Float64.

Class WeakOrder {K : Type} (lt : K -> K -> bool) (key_ok : K -> Prop) := {
  lt_irrefl a : key_ok a -> lt a a = false;
  lt_trans a b c : key_ok a -> key_ok b -> key_ok c ->
    lt a b = true -> lt b c = true -> lt a c = true;
  lt_weak a b c : key_ok a -> key_ok b -> key_ok c -> lt a c = true -> lt a b = true \/ lt b c = true }.

Section Map.
Context {K V : Type} (lt : K -> K -> bool).

(** [m\[k\] = v] *)
Fixpoint assign (k : K) (v : V) (m : list (K * V)) : list (K * V) :=
  match m with
  | [] => [(k, v)]
  | (k', v') :: r =>
      if lt k' k then (k', v') :: assign k v r
      else if lt k k' then (k, v) :: m else (k', v) :: r
  end.

(** [m.find(k)] *)
Fixpoint find (k : K) (m : list (K * V)) : option V :=
  match m with
  | [] => None
  | (k', v') :: r => if lt k' k then find k r else if lt k k' then None else Some v'
  end.

(** [it = m.lower_bound(k)]: the elements from the iterator on. *)
Fixpoint lower_bound (k : K) (m : list (K * V)) : list (K * V) :=
  match m with
  | [] => []
  | (k', v') :: r => if lt k' k then lower_bound k r else m
  end.

(** [it = m.lower_bound(k); if (it == m.end()) --it;] on a non-empty map. *)
Definition snap (k : K) (m : list (K * V)) : option (K * V) :=
  match lower_bound k m with
  | e :: _ => Some e
  | [] => last m
  end.

Definition same_key (a b : K) : Prop := lt a b = false /\ lt b a = false.

Definition sorted (m : list (K * V)) : Prop := StronglySorted (fun e e' => lt e.1 e'.1 = true) m.

Context (key_ok : K -> Prop) `{!WeakOrder lt key_ok}.

Definition keys_ok (m : list (K * V)) : Prop := Forall (fun e => key_ok e.1) m.

Lemma lt_asym a b : key_ok a -> key_ok b -> lt a b = true -> lt b a = false.
Proof.
  intros Ha Hb H. destruct (lt b a) eqn:E; [|done].
  pose proof (lt_irrefl a Ha). pose proof (lt_trans a b a Ha Hb Ha H E). congruence.
Qed.

(** A key not below [b] is above everything below [b]. *)
Lemma lt_le_trans a b c : key_ok a -> key_ok b -> key_ok c ->
  lt a b = true -> lt c b = false -> lt a c = true.
Proof. intros Ha Hb Hc H Hcb. destruct (lt_weak a c b Ha Hc Hb H); congruence. Qed.

Lemma le_lt_trans a b c : key_ok a -> key_ok b -> key_ok c ->
  lt b a = false -> lt b c = true -> lt a c = true.
Proof. intros Ha Hb Hc Hba H. destruct (lt_weak b a c Hb Ha Hc H); congruence. Qed.

Lemma assign_keys k v m : forall e, e ∈ assign k v m -> e.1 = k \/ exists v', (e.1, v') ∈ m.
Proof.
  induction m as [|[k' v'] r IH]; intros e; cbn [assign].
  - intros ->%list_elem_of_singleton. by left.
  - destruct (lt k' k); [|destruct (lt k k')]; rewrite !elem_of_cons.
    + intros [->|H]; [right; exists v'; left|]. destruct (IH _ H) as [?|[w ?]]; [by left|].
      right. exists w. by right.
    + intros [->|H]; [by left|]. right. exists e.2. destruct e; cbn. by rewrite elem_of_cons.
    + intros [->|H]; [right; exists v'; left|]. right. exists e.2. destruct e; cbn. by right.
Qed.

Lemma assign_sorted k v m : key_ok k -> keys_ok m -> sorted m ->
  sorted (assign k v m) /\ keys_ok (assign k v m).
Proof.
  intros Hk Hm Hs. induction m as [|[k' v'] r IH]; cbn [assign]; [by repeat constructor|].
  apply Forall_cons in Hm as [Hk' Hr]. apply StronglySorted_inv in Hs as [Hs Hlt].
  destruct (IH Hr Hs) as [IH1 IH2]. cbn in Hk'.
  destruct (lt k' k) eqn:E1; [|destruct (lt k k') eqn:E2].
  - split; [|by constructor]. constructor; [done|]. apply Forall_forall. intros e He.
    destruct (assign_keys _ _ _ _ He) as [->|[w Hw]]; [done|].
    rewrite Forall_forall in Hlt. exact (Hlt _ Hw).
  - split; [|by repeat constructor]. constructor; [by constructor|]. constructor; [done|].
    apply Forall_forall. intros e He. unfold keys_ok in Hr. rewrite Forall_forall in Hlt, Hr.
    exact (lt_trans k k' e.1 Hk Hk' (Hr e He) E2 (Hlt e He)).
  - split; [|by constructor]. by constructor.
Qed.

Lemma assign_not_nil k v m : assign k v m <> [].
Proof. destruct m as [|[k' v'] r]; cbn; [done|]. repeat case_match; done. Qed.

(** Reading back an assignment, and any other key. *)
Lemma find_assign k v m x : key_ok k -> key_ok x -> keys_ok m -> sorted m ->
  find x (assign k v m) = if lt k x || lt x k then find x m else Some v.
Proof.
  intros Hk Hx Hm Hs. induction m as [|[k' v'] r IH]; cbn [assign find].
  { destruct (lt k x), (lt x k); done. }
  apply Forall_cons in Hm as [Hk' Hr]. cbn in Hk'. apply StronglySorted_inv in Hs as [Hs Hlt].
  specialize (IH Hr Hs).
  destruct (lt k' k) eqn:E1; [|destruct (lt k k') eqn:E2]; cbn [find].
  - rewrite IH. destruct (lt k' x) eqn:E3; [done|].
    assert (E4 : lt x k = true) by (by apply (le_lt_trans x k' k)).
    rewrite E4, orb_true_r. destruct (lt x k'); done.
  - destruct (lt k x) eqn:E3; [done|]. cbn [orb]. destruct (lt x k) eqn:E4; [|done].
    rewrite (lt_trans x k k') by done. by rewrite (lt_asym x k') by (done || by apply (lt_trans x k k')).
  - destruct (lt k' x) eqn:E3; [by rewrite (le_lt_trans k k' x)|].
    destruct (lt x k') eqn:E4.
    + by rewrite (lt_le_trans x k' k), orb_true_r.
    + destruct (lt k x) eqn:E5.
      { exfalso. pose proof (lt_weak k k' x Hk Hk' Hx E5) as [?|?]; congruence. }
      destruct (lt x k) eqn:E6; [|done].
      exfalso. pose proof (lt_weak x k' k Hx Hk' Hk E6) as [?|?]; congruence.
Qed.

(** A key of the map is found, and what is found is at an equivalent key. *)
Lemma find_present k v m : key_ok k -> keys_ok m -> sorted m -> (k, v) ∈ m -> find k m = Some v.
Proof.
  intros Hk Hm Hs Hin. induction m as [|[k' v'] r IH]; [by apply elem_of_nil in Hin|]. cbn [find].
  apply Forall_cons in Hm as [Hk' Hm]. apply StronglySorted_inv in Hs as [Hs Hlt].
  apply elem_of_cons in Hin as [[= -> ->]|Hin]; [by rewrite (lt_irrefl k') by done|].
  rewrite Forall_forall in Hlt. specialize (Hlt _ Hin). cbn [fst] in Hlt. rewrite Hlt. by apply IH.
Qed.

Lemma find_key k m v : find k m = Some v -> exists k', (k', v) ∈ m /\ same_key k k'.
Proof.
  induction m as [|[k' v'] r IH]; cbn [find]; [done|]. destruct (lt k' k) eqn:E1.
  - intros (x & Hx & Hsame)%IH. exists x. split; [by right|done].
  - destruct (lt k k') eqn:E2; [done|]. intros [= ->]. exists k'. split; [by left|done].
Qed.

Lemma snap_defined k m : m <> [] -> exists e, snap k m = Some e /\ e ∈ m.
Proof.
  intros Hm. unfold snap.
  assert (Hsub : forall l, (forall e, e ∈ lower_bound k l -> e ∈ l)).
  { intros l e. induction l as [|[k' v'] r IH]; cbn [lower_bound]; [done|].
    destruct (lt k' k); [|done]. intros H. right. by apply IH. }
  destruct (lower_bound k m) as [|e r] eqn:E.
  - destruct m as [|e m] using rev_ind; [done|]. exists e. rewrite last_snoc. split; [done|].
    apply elem_of_app. right. by left.
  - exists e. split; [done|]. apply Hsub. rewrite E. by left.
Qed.

(** [snap k] finds the first key not below [k], else the last key. *)
Lemma snap_spec k m : key_ok k -> keys_ok m -> sorted m -> m <> [] ->
  exists e, snap k m = Some e /\ e ∈ m /\
    ((lt e.1 k = false /\ forall e', e' ∈ m -> lt e'.1 e.1 = true -> lt e'.1 k = true) \/
     (lt e.1 k = true /\ forall e', e' ∈ m -> lt e'.1 k = true /\ lt e.1 e'.1 = false)).
Proof.
  intros Hk Hm Hs. unfold snap. induction m as [|[k' v'] r IH]; [done|]. intros _. cbn [lower_bound].
  apply Forall_cons in Hm as [Hk' Hr]. cbn in Hk'. apply StronglySorted_inv in Hs as [Hs Hlt].
  unfold keys_ok in Hr. pose proof Hr as Hr'. rewrite Forall_forall in Hlt, Hr'. cbn [fst] in Hlt.
  destruct (lt k' k) eqn:E.
  - destruct r as [|e r].
    + exists (k', v'). split; [done|]. split; [left|]. right. split; [done|].
      intros e' ->%list_elem_of_singleton. split; [done|]. by apply lt_irrefl.
    + destruct (IH Hr Hs ltac:(done)) as (x & Hx & Hin & Hcase).
      exists x. split; [|split; [by right|]].
      { rewrite <- Hx. destruct (lower_bound k (e :: r)); done. }
      destruct Hcase as [[H1 H2]|[H1 H2]]; [left|right].
      * split; [done|]. intros e' [->|He']%elem_of_cons Hlt'; [done|by apply H2].
      * split; [done|]. intros e' [->|He']%elem_of_cons; [|by apply H2].
        split; [done|]. cbn. apply lt_asym; auto.
  - exists (k', v'). split; [done|]. split; [left|]. left. split; [done|].
    intros e' [->|He']%elem_of_cons Hlt'; cbn [fst] in *; [by rewrite lt_irrefl in Hlt'|].
    rewrite (lt_asym k' e'.1) in Hlt' by auto. done.
Qed.
End Map.

(** [int] keys. *)
#[export] Instance int_order : WeakOrder Z.ltb (fun _ => True).
Proof. split; intros; rewrite ?Z.ltb_lt, ?Z.ltb_ge in *; lia. Qed.

(** [double] keys: [operator<] is a weak order away from NaN, the two zeros
    being the same key. *)
Definition rank (x : double) : Z * Z * Z :=
  match x with
  | S754_zero _ => (0, 0, 0)
  | S754_infinity s => (if s then -2 else 2, 0, 0)
  | S754_nan => (0, 0, 0)
  | S754_finite s m e => if s then (-1, - e, Zneg m) else (1, e, Zpos m)
  end%Z.

Definition lex_lt (a b : Z * Z * Z) : Prop :=
  (a.1.1 < b.1.1 \/ a.1.1 = b.1.1 /\ (a.1.2 < b.1.2 \/ a.1.2 = b.1.2 /\ a.2 < b.2))%Z.

Lemma flt_rank x y : x <> S754_nan -> y <> S754_nan -> flt x y = true <-> lex_lt (rank x) (rank y).
Proof.
  unfold flt, SFltb, SFcompare, lex_lt.
  destruct x as [|[]| |[] m e], y as [|[]| |[] m' e']; intros Hx Hy; try done; cbn [rank fst snd];
    try (split; [done|lia]); try (split; [lia|done]).
  - destruct (Z.compare_spec e e'); cbn; [|split; [done|lia]|split; [lia|done]].
    change (Pos.compare_cont Eq m m') with (Pos.compare m m').
    destruct (Pos.compare_spec m m'); cbn; split; try done; lia.
  - destruct (Z.compare_spec e e'); cbn; [|split; [lia|done]|split; [done|lia]].
    change (Pos.compare_cont Eq m m') with (Pos.compare m m').
    destruct (Pos.compare_spec m m'); cbn; split; try done; lia.
Qed.

#[export] Instance double_order : WeakOrder flt (fun x => x <> S754_nan).
Proof.
  split.
  - intros a Ha. apply not_true_iff_false. rewrite flt_rank by done. unfold lex_lt. lia.
  - intros a b c Ha Hb Hc. rewrite !flt_rank by done. unfold lex_lt. lia.
  - intros a b c Ha Hb Hc. rewrite !flt_rank by done. unfold lex_lt. lia.
Qed.
