(* ===== verification/Csv.v ===== *)
(** * Reading a CSV file

    What [InstrumentStore::loadFromCSV] and [VolatilitySurface::loadFromCSV]
    share: [std::getline] on a stream, on lines and on the fields of a line,
    and the throwing conversions [std::stod] and [std::stoi].  An exception is
    a value of [exn]; [result] is the outcome of code that may throw, or whose
    behaviour may be undefined. *)

From Stdlib Require Import Ascii.
From S2P Require Import Prelude Float64 CString Numerals.

Local Open Scope Z_scope.

Inductive exn :=
  | runtime_error (what : bytes)
  | invalid_argument
  | out_of_range.

(** [Undefined]: the code reads outside an object, of which nothing follows. *)
Inductive result (A : Type) := Ok (x : A) | Throw (e : exn) | Undefined.
Arguments Ok {_} _.
Arguments Throw {_} _.
Arguments Undefined {_}.

Definition rbind {A B} (m : result A) (f : A -> result B) : result B :=
  match m with Ok x => f x | Throw e => Throw e | Undefined => Undefined end.

Notation "x <-- m ;; k" := (rbind m (fun x => k)) (at level 20, m at level 99, k at level 200).

(** [while (getline(s, token, delim)) push_back(token);] — the pieces between
    delimiters; nothing after a delimiter that ends the stream. *)
Fixpoint getlines (delim : ascii) (acc s : bytes) : list bytes :=
  match s with
  | [] => match acc with [] => [] | _ => [acc] end
  | c :: r => if decide (c = delim) then acc :: getlines delim [] r else getlines delim (acc ++ [c]) r
  end.

Definition lines (data : bytes) : list bytes := getlines "010" [] data.
Definition fields (line : bytes) : list bytes := getlines "," [] line.

(** [std::stod(s)] *)
Definition stod (s : bytes) : result double :=
  match strtod_numeral (c_str s) with
  | None => Throw invalid_argument
  | Some n => if erange n then Throw out_of_range else Ok (numeral_value n)
  end.

(** [std::stoi(s)]: base ten, [int]. *)
Definition stoi (s : bytes) : result Z :=
  let '(neg, r) := take_sign (skip_space (c_str s)) in
  match (span_digits 10 r).1 with
  | [] => Throw invalid_argument
  | ds =>
      let z := if neg then - digits_value 10 ds else digits_value 10 ds in
      if (INT32_MIN <=? z) && (z <=? INT32_MAX) then Ok z else Throw out_of_range
  end.

Example fields_run : fields (B "a,,b,") = [B "a"; []; B "b"] /\ fields [] = [] /\
  lines (B "x" ++ ["010"%char] ++ B "y") = [B "x"; B "y"].
Proof. vm_compute. done. Qed.

Example conversions_run : stoi (B " 30x") = Ok 30 /\ stoi (B "x") = Throw invalid_argument /\
  stoi (B "99999999999") = Throw out_of_range /\ stod (B "1e400") = Throw out_of_range /\
  stod (B "0.25") = Ok (S754_finite false 4503599627370496 (-54)).
Proof. vm_compute. done. Qed.

(** ** Lemmas *)

(** Pieces without the delimiter, joined by it, are read back. *)
Fixpoint join_with (delim : ascii) (ls : list bytes) : bytes :=
  match ls with
  | [] => []
  | [l] => l
  | l :: r => l ++ delim :: join_with delim r
  end.

Lemma getlines_app delim acc l r : delim ∉ l ->
  getlines delim acc (l ++ r) = getlines delim (acc ++ l) r.
Proof.
  revert acc. induction l as [|c l IH]; intros acc Hl; cbn [app getlines]; [by rewrite app_nil_r|].
  apply not_elem_of_cons in Hl as [Hc Hl]. rewrite decide_False by congruence.
  rewrite IH by done. by rewrite <- app_assoc.
Qed.

Lemma getlines_join delim ls : Forall (fun l => delim ∉ l) ls -> last ls <> Some [] ->
  getlines delim [] (join_with delim ls) = ls.
Proof.
  induction ls as [|l ls IH]; intros Hls Hlast; [done|].
  apply Forall_cons in Hls as [Hl Hls]. destruct ls as [|l' ls].
  - cbn [join_with]. rewrite <- (app_nil_r l), getlines_app, app_nil_r by done. cbn. by destruct l.
  - change (join_with delim (l :: l' :: ls)) with (l ++ delim :: join_with delim (l' :: ls)).
    rewrite getlines_app by done. cbn [app getlines]. rewrite decide_True by done. f_equal. by apply IH.
Qed.

(** A last piece that is empty is not read. *)
Lemma getlines_join_empty delim ls : Forall (fun l => delim ∉ l) ls -> ls <> [] ->
  getlines delim [] (join_with delim (ls ++ [[]])) = ls.
Proof.
  induction ls as [|l ls IH]; intros Hls Hne; [done|]. apply Forall_cons in Hls as [Hl Hls].
  assert (E : join_with delim ((l :: ls) ++ [[]]) = l ++ delim :: join_with delim (ls ++ [[]])) by by destruct ls.
  rewrite E, getlines_app by done. cbn [app getlines]. rewrite decide_True by done. f_equal.
  destruct ls as [|l' ls]; [done|]. by apply IH.
Qed.

(** Lines that end in a newline, before whatever follows. *)
Definition terminated (ls : list bytes) : bytes := concat ((fun l => l ++ NL) <$> ls).

Lemma lines_terminated ls rest : Forall (fun l => "010"%char ∉ l) ls -> lines (terminated ls ++ rest) = ls ++ lines rest.
Proof.
  unfold lines, terminated. induction 1 as [|l ls Hl _ IH]; [done|]. cbn [fmap list_fmap concat].
  rewrite <- !app_assoc. rewrite getlines_app by done. cbn [app NL getlines]. rewrite decide_True by done. cbn [app]. by rewrite IH.
Qed.
