(* ===== verification/VolSurface.v ===== *)
(** * The volatility surface: vol_surface.h, vol_surface.cpp

    A [std::map] of strikes to [std::map]s of expiries.  [loadFromCSV] stores
    the rows of the file; [getVol] goes up to the next stored point on each
    axis. *)

From Stdlib Require Import QArith_base.
From S2P Require Import Prelude Float64 CString Numerals StdMap Csv.

Local Open Scope Z_scope.

(** [std::map<double, std::map<int, double>>] *)
Abbreviation expiries := (list (Z * double)).
Abbreviation surface := (list (double * expiries)).

Definition row : Type := double * Z * double.

(** [volatilities_\[strike\]\[expiry\] = vol] *)
Definition set_vol (m : surface) (r : row) : surface :=
  let '(strike, expiry, vol) := r in
  assign flt strike (assign Z.ltb expiry vol (default [] (find flt strike m))) m.

(** The three conversions of a row; [None] is the [continue] on a short line. *)
Definition parse_row (line : bytes) : result (option row) :=
  match fields line with
  | f0 :: f1 :: f2 :: _ =>
      strike <-- stod f0;; expiry <-- stoi f1;; vol <-- stod f2;; Ok (Some (strike, expiry, vol))
  | _ => Ok None
  end.

(** The loop over the lines after the header. *)
Fixpoint load_lines (m : surface) (ls : list bytes) : result surface :=
  match ls with
  | [] => Ok m
  | l :: ls' =>
      r <-- parse_row l;;
      load_lines (match r with Some r => set_vol m r | None => m end) ls'
  end.

(** [file] is the contents of the file, [None] when it cannot be opened: the
    reads then fail at once and nothing is loaded. *)
Definition loadFromCSV (m : surface) (file : option bytes) : result surface :=
  match file with
  | None => Ok m
  | Some data => load_lines m (tl (lines data))
  end.

(** The last [None] is a dereference of [end()] of an empty inner map. *)
Definition getVol (m : surface) (strike : double) (expiry : Z) : option double :=
  match m with
  | [] => Some (lit (20 # 100))
  | _ =>
      match snap flt strike m with
      | None => None
      | Some (_, expiryMap) => snd <$> snap Z.ltb expiry expiryMap
      end
  end.

(** The stored volatility of a point. *)
Definition stored (m : surface) (strike : double) (expiry : Z) : option double :=
  m' ← find flt strike m; find Z.ltb expiry m'.

Definition load_rows (rs : list row) : surface := foldl set_vol [] rs.

Example getVol_run :
  let m := load_rows [(lit 140, 30, lit (28 # 100)); (lit 150, 30, lit (25 # 100)); (lit 140, 60, lit (26 # 100))] in
  getVol m (lit 145) 30 = Some (lit (25 # 100)) /\ getVol m (lit 400) 90 = Some (lit (25 # 100)) /\
  getVol m (lit 100) 31 = Some (lit (26 # 100)) /\ getVol [] (lit 100) 30 = Some (lit (1 # 5)).
Proof. vm_compute. done. Qed.

(** ** Well-formed surfaces *)

Abbreviation not_nan := (fun x : double => x <> S754_nan).

Record surface_ok (m : surface) : Prop := {
  so_sorted : sorted flt m;
  so_keys : keys_ok not_nan m;
  so_inner : Forall (fun e => e.2 <> [] /\ sorted Z.ltb e.2) m }.

Definition row_ok (r : row) : Prop := r.1.1 <> S754_nan.

Lemma all_keys_ok (l : expiries) : keys_ok (fun _ => True) l.
Proof. by apply Forall_forall. Qed.

Lemma find_elem {K V} (lt : K -> K -> bool) k (m : list (K * V)) v :
  find lt k m = Some v -> exists k', (k', v) ∈ m.
Proof.
  induction m as [|[k' v'] r IH]; cbn [find]; [done|].
  destruct (lt k' k); [|destruct (lt k k'); [done|]].
  - intros H. destruct (IH H) as [x Hx]. exists x. by right.
  - intros [= ->]. exists k'. left.
Qed.

Lemma assign_inner {K V} (lt : K -> K -> bool) (P : V -> Prop) k v (m : list (K * V)) :
  P v -> Forall (fun e => P e.2) m -> Forall (fun e => P e.2) (assign lt k v m).
Proof.
  intros Hv. induction 1 as [|[k' v'] r H Hr IH]; cbn [assign]; [by repeat constructor|].
  destruct (lt k' k); [|destruct (lt k k')]; by repeat constructor.
Qed.

Lemma find_inner_sorted m strike : surface_ok m -> sorted Z.ltb (default [] (find flt strike m)).
Proof.
  intros [_ _ Hi]. destruct (find flt strike m) as [l|] eqn:E; cbn; [|constructor].
  apply find_elem in E as [k Hk]. rewrite Forall_forall in Hi. by destruct (Hi _ Hk).
Qed.

Lemma set_vol_ok m r : row_ok r -> surface_ok m -> surface_ok (set_vol m r).
Proof.
  destruct r as [[strike expiry] vol]. intros Hr Hm. pose proof (find_inner_sorted m strike Hm) as Hin.
  destruct Hm as [Hs Hk Hi]. unfold set_vol.
  destruct (assign_sorted flt not_nan strike
    (assign Z.ltb expiry vol (default [] (find flt strike m))) m Hr Hk Hs) as [H1 H2].
  split; [done|done|]. apply (assign_inner flt (fun l => l <> [] /\ sorted Z.ltb l)); [|done].
  split; [apply assign_not_nil|].
  by apply (assign_sorted Z.ltb (fun _ => True) expiry vol _ I (all_keys_ok _)).
Qed.

Lemma load_rows_snoc rs r : load_rows (rs ++ [r]) = set_vol (load_rows rs) r.
Proof. unfold load_rows. by rewrite foldl_app. Qed.

Lemma load_rows_ok rs : Forall row_ok rs -> surface_ok (load_rows rs).
Proof.
  induction rs as [|r rs IH] using rev_ind; intros Hrs; [by split; constructor|].
  apply Forall_app in Hrs as [Hrs [Hr _]%Forall_cons]. rewrite load_rows_snoc. apply set_vol_ok; auto.
Qed.

(** [getVol] never runs off a map of a loaded surface, not even for a NaN. *)
Lemma getVol_defined rs strike expiry : Forall row_ok rs -> is_Some (getVol (load_rows rs) strike expiry).
Proof.
  intros [_ _ Hi]%load_rows_ok. unfold getVol. destruct (load_rows rs) as [|e m]; [by eexists|].
  destruct (snap_defined flt strike (e :: m) ltac:(done)) as ([s es] & -> & Hin).
  rewrite Forall_forall in Hi. destruct (Hi _ Hin) as [Hne _].
  destruct (snap_defined Z.ltb expiry es Hne) as (x & -> & _). by eexists.
Qed.

Lemma stored_set_vol m r strike expiry :
  surface_ok m -> row_ok r -> strike <> S754_nan ->
  stored (set_vol m r) strike expiry =
  if flt r.1.1 strike || flt strike r.1.1 || negb (r.1.2 =? expiry) then stored m strike expiry
  else Some r.2.
Proof.
  destruct r as [[s e] v]. intros Hm Hr Hs. pose proof (find_inner_sorted m s Hm) as Hin.
  destruct Hm as [Hsort Hk _]. unfold stored, set_vol. cbn [fst snd].
  rewrite (find_assign flt not_nan) by done.
  destruct (flt s strike) eqn:E1; [done|]. destruct (flt strike s) eqn:E2; [done|]. cbn [orb].
  assert (Hsame : find flt strike m = find flt s m).
  { clear -Hk Hr Hs E1 E2. unfold keys_ok in Hk. induction Hk as [|[k w] l Hk Hl IH]; cbn [find]; [done|].
    cbn in Hk, Hr. rewrite IH.
    assert (H1 : flt k strike = flt k s).
    { destruct (flt k strike) eqn:E3, (flt k s) eqn:E4; try done.
      - by rewrite (lt_le_trans flt not_nan k strike s) in E4.
      - by rewrite (lt_le_trans flt not_nan k s strike) in E3. }
    assert (H2 : flt strike k = flt s k).
    { destruct (flt strike k) eqn:E3, (flt s k) eqn:E4; try done.
      - by rewrite (le_lt_trans flt not_nan s strike k) in E4.
      - by rewrite (le_lt_trans flt not_nan strike s k) in E3. }
    by rewrite H1, H2. }
  cbn [mbind option_bind]. rewrite (find_assign Z.ltb (fun _ => True)) by (done || apply all_keys_ok).
  rewrite Hsame. destruct (find flt s m) as [l|]; cbn [default from_option mbind option_bind find];
    zcases; cbn; try lia; done.
Qed.

(** ** Claims *)

(** The volatility of the last row of a point. *)
Fixpoint last_vol (rs : list row) (strike : double) (expiry : Z) : option double :=
  match rs with
  | [] => None
  | (s, e, v) :: rs' =>
      match last_vol rs' strike expiry with
      | Some w => Some w
      | None => if flt s strike || flt strike s || negb (e =? expiry) then None else Some v
      end
  end.

Lemma last_vol_snoc rs r strike expiry :
  last_vol (rs ++ [r]) strike expiry =
  if flt r.1.1 strike || flt strike r.1.1 || negb (r.1.2 =? expiry) then last_vol rs strike expiry
  else Some r.2.
Proof.
  induction rs as [|[[s e] v] rs IH]; cbn [app last_vol].
  - by destruct r as [[s e] v].
  - rewrite IH. by destruct (_ || negb _).
Qed.

(** The surface stores the file: after loading any rows with proper
    strikes, the volatility stored at a point is that of the last row for it. *)
Theorem surface_stores_rows (rs : list row) (strike : double) (expiry : Z) :
  Forall row_ok rs -> strike <> S754_nan ->
  stored (load_rows rs) strike expiry = last_vol rs strike expiry.
Proof.
  intros Hrs Hs. induction rs as [|r rs IH] using rev_ind; [done|].
  apply Forall_app in Hrs as [Hrs [Hr _]%Forall_cons].
  rewrite load_rows_snoc, stored_set_vol, last_vol_snoc, IH by (done || by apply load_rows_ok). done.
Qed.

Lemma surface_stores_rows_witness :
  stored (load_rows [(lit 140, 30, lit (28 # 100)); (lit 140, 30, lit (26 # 100))]) (lit 140) 30 =
  Some (lit (26 # 100)).
Proof.
  assert (H : Forall row_ok [(lit 140, 30, lit (28 # 100)); (lit 140, 30, lit (26 # 100))])
    by (repeat (constructor; [vm_compute; congruence|]); constructor).
  exact (surface_stores_rows _ (lit 140) 30 H ltac:(vm_compute; congruence)).
Defined.

(** The strikes of the file, and the expiries of its rows for a strike. *)
Definition strikes (rs : list row) : list double := (fun r => r.1.1) <$> rs.

Definition expiries_at (rs : list row) (strike : double) : list Z :=
  (fun r => r.1.2) <$> filter (fun r => flt r.1.1 strike || flt strike r.1.1 = false) rs.

(** [x] is the first of [keys] not below [k], or the last of them when all are. *)
Definition rounds_up {K} (lt : K -> K -> bool) (keys : list K) (k x : K) : Prop :=
  x ∈ keys /\
  ((lt x k = false /\ forall y, y ∈ keys -> lt y x = true -> lt y k = true) \/
   (lt x k = true /\ forall y, y ∈ keys -> lt y k = true /\ lt x y = false)).

Lemma snap_rounds_up {K V} (lt : K -> K -> bool) (key_ok : K -> Prop) `{!WeakOrder lt key_ok}
    (k : K) (m : list (K * V)) :
  key_ok k -> keys_ok key_ok m -> sorted lt m -> m <> [] ->
  exists e, snap lt k m = Some e /\ e ∈ m /\ rounds_up lt m.*1 k e.1.
Proof.
  intros Hk Hm Hs Hne. destruct (snap_spec lt key_ok k m Hk Hm Hs Hne) as (e & He & Hin & Hcase).
  exists e. split; [done|]. split; [done|]. split; [by apply list_elem_of_fmap_2|].
  destruct Hcase as [[H1 H2]|[H1 H2]]; [left|right]; (split; [done|]);
    intros y (e' & -> & He')%list_elem_of_fmap; auto.
Qed.

(** Keys may be added that are equivalent to others. *)
Lemma rounds_up_more {K} (lt : K -> K -> bool) (key_ok : K -> Prop) `{!WeakOrder lt key_ok}
    (keys keys' : list K) (k x : K) :
  key_ok k -> Forall key_ok keys' -> Forall (fun y => y ∈ keys') keys ->
  (forall y, y ∈ keys' -> exists y', y' ∈ keys /\ same_key lt y y') ->
  rounds_up lt keys k x -> rounds_up lt keys' k x.
Proof.
  intros Hk Hok Hsub Hmore [Hx Hcase]. rewrite Forall_forall in Hok, Hsub. split; [by apply Hsub|].
  assert (Hlt : forall y, y ∈ keys' -> exists y', y' ∈ keys /\ key_ok y' /\ same_key lt y y')
    by (intros y (y' & Hy' & E)%Hmore; exists y'; by auto).
  destruct Hcase as [[H1 H2]|[H1 H2]]; [left|right]; (split; [done|]); intros y Hy;
    destruct (Hlt y Hy) as (y' & Hin & Hy' & E1 & E2); pose proof (Hok y Hy); pose proof (Hok x (Hsub x Hx)).
  - intros Hyx. apply (le_lt_trans lt key_ok y y' k); auto. apply H2; [done|]. by apply (le_lt_trans lt key_ok y' y x).
  - destruct (H2 y' Hin) as [H3 H4]. split; [by apply (le_lt_trans lt key_ok y y' k)|].
    destruct (lt x y) eqn:E; [|done]. by rewrite (lt_le_trans lt key_ok x y y') in H4.
Qed.

Lemma last_vol_expiry rs s e : is_Some (last_vol rs s e) <-> e ∈ expiries_at rs s.
Proof.
  unfold expiries_at. induction rs as [|[[s' e'] v] rs IH]; cbn [last_vol].
  - split; [by intros []|by intros ?%elem_of_nil].
  - rewrite filter_cons. cbn [fst snd]. destruct (last_vol rs s e) as [w|].
    + split; [|by eexists]. intros _. assert (H : e ∈ (fun r : row => r.1.2) <$> filter (fun r => flt r.1.1 s || flt s r.1.1 = false) rs)
        by (apply IH; by eexists). case_decide; [by right|done].
    + destruct (flt s' s || flt s s') eqn:E; cbn [orb].
      * rewrite decide_False by done. exact IH.
      * rewrite decide_True by done. cbn [fmap list_fmap]. rewrite elem_of_cons, <- IH. cbn [fst snd].
        destruct (Z.eqb_spec e' e) as [->|Hne]; cbn [negb]; [split; [by left|by eexists]|].
        split; [by right|]. by intros [->|[]%is_Some_alt].
Qed.

Lemma load_rows_keys rs : Forall (fun s => s ∈ strikes rs) (load_rows rs).*1.
Proof.
  induction rs as [|r rs IH] using rev_ind; [constructor|]. apply Forall_forall. intros s.
  rewrite load_rows_snoc. unfold strikes. rewrite fmap_app, elem_of_app. destruct r as [[s' e] v].
  intros ([k es] & -> & Hin)%list_elem_of_fmap. apply assign_keys in Hin as [->|[es' Hin]].
  - right. by left.
  - left. rewrite Forall_forall in IH. apply IH. by apply (list_elem_of_fmap_2 fst _ (k, es')).
Qed.

(** [getVol] on the file: its strike and expiry are the first not below those
    asked for, and its volatility is that of the last row for them. *)
Lemma getVol_rows (rs : list row) (strike : double) (expiry : Z) :
  Forall row_ok rs -> rs <> [] -> strike <> S754_nan ->
  exists s e v, getVol (load_rows rs) strike expiry = Some v /\ last_vol rs s e = Some v /\
    rounds_up flt (strikes rs) strike s /\ rounds_up Z.ltb (expiries_at rs s) expiry e.
Proof.
  intros Hrs Hne Hs. destruct (load_rows_ok rs Hrs) as [H1 H2 H3]. pose proof (load_rows_keys rs) as Hkeys.
  assert (Hstored : forall y e, y <> S754_nan -> stored (load_rows rs) y e = last_vol rs y e) by (intros; by apply surface_stores_rows).
  set (m := load_rows rs) in *.
  assert (Hm : m <> []).
  { unfold m. destruct rs as [|[[a b] c] rs _] using rev_ind; [done|]. rewrite load_rows_snoc. apply assign_not_nil. }
  destruct (snap_rounds_up flt not_nan strike m Hs H2 H1 Hm) as ([s es] & Hsnap & Hin & Hn1).
  rewrite Forall_forall in H3. destruct (H3 _ Hin) as [Hes Hsort].
  destruct (snap_rounds_up Z.ltb (fun _ => True) expiry es I (all_keys_ok _) Hsort Hes) as ([e v] & Hsnap' & Hin' & Hn2).
  cbn [fst snd] in *. pose proof H2 as Hok. unfold keys_ok in Hok. rewrite Forall_forall in Hok. pose proof (Hok _ Hin) as Hsn.
  assert (Hes' : forall e', stored m s e' = find Z.ltb e' es).
  { intros e'. unfold stored. by rewrite (find_present flt not_nan s es m Hsn H2 H1 Hin). }
  exists s, e, v. split_and!.
  - unfold getVol. rewrite Hsnap, Hsnap'. by destruct m.
  - rewrite <- Hstored, Hes' by done. by apply (find_present Z.ltb (fun _ => True)); try apply all_keys_ok.
  - apply (rounds_up_more flt not_nan m.*1); [done| |done| |done].
    + unfold strikes. by apply Forall_fmap.
    + intros y (r & -> & Hr)%list_elem_of_fmap. pose proof Hrs as Hro. rewrite Forall_forall in Hro. specialize (Hro r Hr).
      assert (Hsome : is_Some (stored m r.1.1 r.1.2)).
      { rewrite Hstored by done. apply last_vol_expiry. unfold expiries_at. apply (list_elem_of_fmap_2 (fun r : row => r.1.2)), list_elem_of_filter.
        split; [|done]. by rewrite (lt_irrefl (lt := flt) (key_ok := not_nan) r.1.1 Hro). }
      unfold stored in Hsome. destruct (find flt r.1.1 m) as [l|] eqn:E; [|by destruct Hsome].
      destruct (find_key flt r.1.1 m l E) as (k & Hk & Hsame). exists k. split; [by apply (list_elem_of_fmap_2 fst _ (k, l))|done].
  - apply (rounds_up_more Z.ltb (fun _ => True) es.*1); [done|by apply Forall_forall| | |done].
    + apply Forall_forall. intros x ([x' w] & -> & Hx)%list_elem_of_fmap. apply last_vol_expiry. rewrite <- Hstored, Hes' by done.
      eexists. by apply (find_present Z.ltb (fun _ => True)); try apply all_keys_ok.
    + intros y Hy. apply last_vol_expiry in Hy as [w Hy]. rewrite <- Hstored, Hes' in Hy by done.
      destruct (find_key Z.ltb y es w Hy) as (k & Hk & Hsame). exists k. split; [by apply (list_elem_of_fmap_2 fst _ (k, w))|done].
Qed.

(** Strikes 140 and 150. *)
Definition example_rows : list row := [(lit 140, 30, lit (28 # 100)); (lit 150, 30, lit (25 # 100))].

(** C38. [getVol] never runs off a map: on a file with at least one row it
    returns the volatility of the last row at a strike and an expiry of the
    file — the first strike not below the requested one (the last strike beyond
    the end), and of the expiries of that strike likewise.  This rounds up and
    is not the nearest point: of the strikes 140 and 150, 141 gets 150. *)
Theorem getVol_rounds_up (rs : list row) (strike : double) (expiry : Z) :
  Forall row_ok rs -> rs <> [] -> strike <> S754_nan ->
  (exists s e v, getVol (load_rows rs) strike expiry = Some v /\ last_vol rs s e = Some v /\
    rounds_up flt (strikes rs) strike s /\ rounds_up Z.ltb (expiries_at rs s) expiry e) /\
  getVol (load_rows example_rows) (lit 141) 30 = Some (lit (25 # 100)).
Proof. intros Hrs Hne Hs. split; [by apply getVol_rows|vm_compute; reflexivity]. Qed.

Lemma getVol_rounds_up_witness : exists s e v,
  getVol (load_rows example_rows) (lit 145) 7 = Some v /\ last_vol example_rows s e = Some v.
Proof.
  assert (H : Forall row_ok example_rows) by (repeat (constructor; [vm_compute; congruence|]); constructor).
  destruct (getVol_rounds_up example_rows (lit 145) 7 H ltac:(vm_compute; congruence) ltac:(vm_compute; congruence))
    as [(s & e & v & Hv & Hl & _) _].
  exists s, e, v. exact (conj Hv Hl).
Defined.
