(* ===== verification/InstrumentStore.v ===== *)
(** * Reference data: instrument.h, instrument_store.h, instrument_store.cpp

    The CSV loader of the instruments with its trimming and its throwing
    parsers, and the lookup.  A field index beyond the fields of the line is
    undefined behaviour of the code and the outcome [Undefined] of the model,
    which is none of its exceptions. *)

From Stdlib Require Import Ascii QArith_base.
From S2P Require Import Prelude Float64 CString Numerals Csv LatencyTracker.

Local Open Scope Z_scope.

Inductive AssetClass := Equity | Future | OptionClass | FX.
Inductive InstrumentOptionType := Call | Put | NoType.
Inductive OptionStyle := European | American | NoStyle.

(** [std::chrono::year_month_day], its fields as stored. *)
Record date := mkDate { year : Z; month : Z; day : Z }.

Record Instrument := mkInstrument {
  in_symbol : bytes;
  description : bytes;
  assetClass : AssetClass;
  currency : bytes;
  tickSize : double;
  contractSize : double;
  strike : option double;
  optionType : option InstrumentOptionType;
  optionStyle : option OptionStyle;
  underlying : option bytes;
  expiry : option date }.

(** ** Helpers *)

(** A byte of [" \t\r\n"]. *)
Definition is_blank (c : ascii) : bool :=
  let v := byte_val c in (v =? 32) || (v =? 9) || (v =? 13) || (v =? 10).

Fixpoint skip_blank (s : bytes) : bytes :=
  match s with
  | [] => []
  | c :: r => if is_blank c then skip_blank r else s
  end.

(** [s.substr(start, end - start + 1)] between the first and the last byte
    that is not blank; empty when there is none. *)
Definition trim (s : bytes) : bytes := rev (skip_blank (rev (skip_blank s))).

Definition parseAssetClass (s : bytes) : result AssetClass :=
  if decide (s = B "Equity") then Ok Equity
  else if decide (s = B "Future") then Ok Future
  else if decide (s = B "Option") then Ok OptionClass
  else if decide (s = B "FX") then Ok FX
  else Throw (runtime_error (B "Unknown asset class: " ++ s)).

Definition parseOptionType (s : bytes) : result (option InstrumentOptionType) :=
  if decide (s = []) then Ok None
  else if decide (s = B "Call") then Ok (Some Call)
  else if decide (s = B "Put") then Ok (Some Put)
  else Throw (runtime_error (B "Unknown option type: " ++ s)).

Definition parseOptionStyle (s : bytes) : result (option OptionStyle) :=
  if decide (s = []) then Ok None
  else if decide (s = B "European") then Ok (Some European)
  else if decide (s = B "American") then Ok (Some American)
  else Throw (runtime_error (B "Unknown option style: " ++ s)).

Definition substr (s : bytes) (pos n : nat) : bytes := take n (drop pos s).

(** [year{y}] keeps 16 bits, [month{m}] and [day{d}] the low 8 bits of the
    [unsigned]; nothing checks that the date exists. *)
Definition parseDate (s : bytes) : result (option date) :=
  let trimmed := trim s in
  if (length trimmed <? 10)%nat then Ok None
  else
    y <-- stoi (substr trimmed 0 4);;
    m <-- stoi (substr trimmed 5 2);;
    d <-- stoi (substr trimmed 8 2);;
    Ok (Some (mkDate (wrap_s 16 y) (m mod 256) (d mod 256))).

(** [fields\[i\]] *)
Definition field (fs : list bytes) (i : nat) : result bytes :=
  match fs !! i with Some f => Ok f | None => Undefined end.

(** [fields.size() > i ? f(fields\[i\]) : nullopt] *)
Definition if_present {A} (fs : list bytes) (i : nat) (f : bytes -> result (option A)) : result (option A) :=
  match fs !! i with Some s => f s | None => Ok None end.

(** ** The loader *)

Definition parse_instrument (lineNumber : Z) (line : bytes) : result Instrument :=
  let fs := trim <$> fields line in
  sym <-- field fs 0;;
  if decide (sym = []) then
    Throw (runtime_error (B "Missing symbol on line " ++ to_string lineNumber))
  else
    desc <-- field fs 1;;
    class <-- (s <-- field fs 2;; parseAssetClass s);;
    cur <-- field fs 3;;
    tick <-- (s <-- field fs 4;; stod s);;
    size <-- (s <-- field fs 5;; stod s);;
    stk <-- if_present fs 6 (fun s => if decide (s = []) then Ok None else x <-- stod s;; Ok (Some x));;
    ty <-- if_present fs 7 parseOptionType;;
    style <-- if_present fs 8 parseOptionStyle;;
    under <-- if_present fs 9 (fun s => if decide (s = []) then Ok None else Ok (Some s));;
    exp <-- if_present fs 10 parseDate;;
    Ok (mkInstrument sym desc class cur tick size stk ty style under exp).

(** [std::unordered_map<std::string, Instrument>] *)
Abbreviation instruments := (gmap bytes Instrument).

Fixpoint load_instruments (m : instruments) (lineNumber : Z) (ls : list bytes) : result instruments :=
  match ls with
  | [] => Ok m
  | l :: ls' =>
      let lineNumber := wrap_i32 (lineNumber + 1) in
      inst <-- parse_instrument lineNumber l;;
      load_instruments (<[in_symbol inst := inst]> m) lineNumber ls'
  end.

(** [None] is a file that cannot be opened: nothing is read, nothing thrown. *)
Definition loadFromCSV (m : instruments) (file : option bytes) : result instruments :=
  match file with
  | None => Ok m
  | Some data => load_instruments m 1 (tl (lines data))
  end.

Definition lookup_instrument (m : instruments) (symbol : bytes) : result Instrument :=
  match m !! symbol with
  | Some i => Ok i
  | None => Throw (runtime_error (B "Instrument not found: " ++ symbol))
  end.

Definition store_size (m : instruments) : Z := Z.of_nat (base.size m).

Example parse_instrument_run :
  parse_instrument 2 (B "AAPL240119C150, Apple Call ,Option,USD,0.05,100,150,Call,American,AAPL,2024-01-19") =
  Ok (mkInstrument (B "AAPL240119C150") (B "Apple Call") OptionClass (B "USD") (lit (5 # 100)) (lit 100)
       (Some (lit 150)) (Some Call) (Some American) (Some (B "AAPL")) (Some (mkDate 2024 1 19))) /\
  parse_instrument 2 (B "AAPL,Apple Inc,Equity,USD,0.01,1,,,,,") =
  Ok (mkInstrument (B "AAPL") (B "Apple Inc") Equity (B "USD") (lit (1 # 100)) (lit 1) None None None None None) /\
  parse_instrument 3 (B " ,x") = Throw (runtime_error (B "Missing symbol on line 3")) /\
  parse_instrument 3 [] = Undefined.
Proof. vm_compute. done. Qed.

(** ** Trimming *)

Definition blank_free_ends (s : bytes) : Prop :=
  (match s with [] => True | c :: _ => is_blank c = false end) /\
  (match last s with None => True | Some c => is_blank c = false end).

Lemma skip_blank_app ws s : Forall (fun c => is_blank c = true) ws ->
  skip_blank (ws ++ s) = skip_blank s.
Proof. induction 1 as [|c ws Hc _ IH]; cbn; [done|]. by rewrite Hc. Qed.

Lemma skip_blank_id s : match s with [] => True | c :: _ => is_blank c = false end -> skip_blank s = s.
Proof. destruct s as [|c s]; cbn; [done|]. by intros ->. Qed.

Lemma trim_spec ws s ws' :
  Forall (fun c => is_blank c = true) ws -> Forall (fun c => is_blank c = true) ws' ->
  blank_free_ends s -> trim (ws ++ s ++ ws') = s.
Proof.
  intros Hws Hws' [H1 H2]. unfold trim. rewrite skip_blank_app by done.
  destruct s as [|c s].
  { cbn [app]. assert (E : skip_blank ws' = []); [|by rewrite E].
    clear -Hws'. induction Hws' as [|c l Hc _ IH]; cbn; [done|]. by rewrite Hc. }
  cbn [app]. rewrite (skip_blank_id (c :: s ++ ws')) by done.
  change (c :: s ++ ws') with ((c :: s) ++ ws'). rewrite rev_app_distr, skip_blank_app.
  - rewrite skip_blank_id; [apply rev_involutive|].
    destruct (rev (c :: s)) as [|d r] eqn:E; [done|].
    assert (El : c :: s = rev r ++ [d]).
    { rewrite <- (rev_involutive (c :: s)), E. done. }
    rewrite El, last_snoc in H2. done.
  - rewrite <- (rev_involutive ws') in Hws'. apply Forall_forall. intros x Hx.
    rewrite Forall_forall in Hws'. apply Hws'. rewrite rev_involutive.
    by apply list_elem_of_In, in_rev, list_elem_of_In.
Qed.

(** ** Dates *)

Lemma digit_not_blank d : 0 <= d < 10 -> is_blank (digit_char d) = false.
Proof. intros H. by destruct (digit_cases d H) as [-> | [-> | [-> | [-> | [-> | [-> | [-> | [-> | [-> | ->]]]]]]]]]. Qed.

Lemma digit_no_prefix d s : 0 <= d < 10 ->
  skip_space (digit_char d :: s) = digit_char d :: s /\
  take_sign (digit_char d :: s) = (false, digit_char d :: s).
Proof. intros H. by destruct (digit_cases d H) as [-> | [-> | [-> | [-> | [-> | [-> | [-> | [-> | [-> | ->]]]]]]]]]. Qed.

Lemma stoi_digits ds : Forall (fun d => 0 <= d < 10) ds -> ds <> [] ->
  0 <= digits_value 10 ds <= INT32_MAX -> stoi (digit_char <$> ds) = Ok (digits_value 10 ds).
Proof.
  intros Hds Hne Hr. unfold stoi.
  assert (Hnul : c_str (digit_char <$> ds) = digit_char <$> ds).
  { apply c_str_id. intros (d & E & Hd)%list_elem_of_fmap. rewrite Forall_forall in Hds.
    specialize (Hds d Hd). apply (f_equal char_val) in E. rewrite char_val_digit in E by done.
    change (char_val NUL) with 0 in E. lia. }
  rewrite Hnul. destruct ds as [|d ds]; [done|]. cbn [fmap list_fmap].
  destruct (digit_no_prefix d (digit_char <$> ds)) as [-> ->]; [by apply Forall_cons in Hds as [? _]|].
  change (digit_char d :: (digit_char <$> ds)) with (digit_char <$> (d :: ds)).
  rewrite <- (app_nil_r (digit_char <$> _)), span_digits_app by done. cbn [fst].
  by rewrite (proj2 (Z.leb_le _ _)), (proj2 (Z.leb_le _ _)) by lia.
Qed.

Lemma stoi_pad k z : (0 < k)%nat -> 0 <= z < 10 ^ Z.of_nat k -> z <= INT32_MAX -> stoi (pad k z) = Ok z.
Proof.
  intros Hk Hz Hmax. pose proof (pad_digits_value k z ltac:(lia)) as Hv.
  rewrite Z.mod_small in Hv by lia.
  rewrite pad_chars, stoi_digits, Hv; [done|apply pad_digits_range| |lia].
  intros E. apply (f_equal length) in E. rewrite pad_digits_length in E. cbn in E. lia.
Qed.

(** [YYYY-MM-DD] *)
Definition show_date (y m d : Z) : bytes := pad 4 y ++ B "-" ++ pad 2 m ++ B "-" ++ pad 2 d.

Lemma show_date_ends y m d : 0 <= y -> 0 <= d -> blank_free_ends (show_date y m d).
Proof.
  intros Hy Hd. unfold show_date. cbn [pad app]. split.
  - apply digit_not_blank. apply Z.mod_pos_bound. lia.
  - cbn. apply digit_not_blank. apply Z.mod_pos_bound. lia.
Qed.

(** Dates round trip: [YYYY-MM-DD], with any blanks around it, is parsed
    to its three numbers, whether or not the calendar has that day. *)
Theorem date_roundtrip (ws ws' : bytes) (y m d : Z) :
  Forall (fun c => is_blank c = true) ws -> Forall (fun c => is_blank c = true) ws' ->
  0 <= y < 10000 -> 0 <= m < 100 -> 0 <= d < 100 ->
  parseDate (ws ++ show_date y m d ++ ws') = Ok (Some (mkDate y m d)).
Proof.
  intros Hws Hws' Hy Hm Hd. unfold parseDate.
  rewrite trim_spec by (done || apply show_date_ends; lia).
  assert (Hparts : substr (show_date y m d) 0 4 = pad 4 y /\ substr (show_date y m d) 5 2 = pad 2 m /\
    substr (show_date y m d) 8 2 = pad 2 d) by done.
  destruct Hparts as (-> & -> & ->). change (length (show_date y m d)) with 10%nat.
  cbn [Nat.ltb Nat.leb]. rewrite !stoi_pad by lia. cbn [rbind]. unfold wrap_s.
  rewrite (Z.mod_small y), (Z.mod_small m), (Z.mod_small d) by lia.
  by rewrite (proj2 (Z.ltb_lt _ _)) by lia.
Qed.

Lemma date_roundtrip_witness : parseDate (B " 2024-02-31") = Ok (Some (mkDate 2024 2 31)).
Proof.
  assert (H : Forall (fun c => is_blank c = true) (B " ")) by (constructor; [reflexivity|constructor]).
  exact (date_roundtrip (B " ") [] 2024 2 31 H ltac:(constructor) ltac:(lia) ltac:(lia) ltac:(lia)).
Defined.
