(* ===== verification/InstrumentFile.v ===== *)
(** * The instrument file: instrument_store.h, instrument_store.cpp

    The format of config/instruments.csv as the header describes it, written
    down from the side of who prints it, without the parser: the columns of an
    instrument and their text, blanks allowed around each.  The loader reads
    every such file back; what it does with a bad line is stated line by
    line. *)

From Stdlib Require Import Ascii QArith_base.
From S2P Require Import Prelude Float64 CString Numerals Csv LatencyTracker InstrumentStore.

Local Open Scope Z_scope.

(** ** The columns *)

















(** ** Fields of a line *)





(** ** Numbers *)






(** ** A line *)
















(** ** Lines that are refused *)












(** ** Files *)






(** ** Claims *)







