(* ===== verification/RiskEngine.v ===== *)
(** * The risk engine: risk_engine.h, risk_engine.cpp

    [onTick] caches the last price of each symbol; [runReport] marks the
    positions to it; [computeVar] sums the parametric value at risk.  The
    iteration order of the [unordered_map] of positions is that of the list
    passed in; the text formatting of the report is left out, its rows are
    the values printed.  The sum of [computeVar] is written over the class of
    numbers of [PositionManager], so that its exact reading can be studied. *)

From Stdlib Require Import QArith Lqa.
From S2P Require Import Prelude Float64 CString Messages PositionManager VolSurface.

Local Open Scope Z_scope.

(** [std::map<std::string, double>]; only its lookups and assignments matter. *)
Abbreviation prices := (gmap bytes double).

(** [std::string(tick.symbol)] *)
Definition tick_key (t : Tick) : bytes := c_str (tick_symbol t).

Definition onTick (latestPrices_ : prices) (tick : Tick) : prices :=
  <[tick_key tick := last_price tick]> latestPrices_.

(** The latest price of the symbol, the average entry price before any tick. *)
Definition currentPrice (latestPrices_ : prices) (symbol : bytes) (pos : Position double) : double :=
  default (averageEntryPrice pos) (latestPrices_ !! symbol).

Record report_row := mkRow {
  rr_symbol : bytes; rr_qty : double; rr_price : double; rr_unrealised : double; rr_realised : double }.

Definition report_one (latestPrices_ : prices) (e : bytes * Position double) : report_row :=
  let '(symbol, pos) := e in
  let price := currentPrice latestPrices_ symbol pos in
  mkRow symbol (pos_quantity pos) price
    ((price - averageEntryPrice pos) * pos_quantity pos)%D (realisedPnl pos).

Definition runReport (latestPrices_ : prices) (all : list (bytes * Position double)) : list report_row :=
  report_one latestPrices_ <$> all.

(** [vaR += pos.quantity * currentPrice * dailyVol;] over the positions, each
    given by its quantity, price and daily volatility. *)
Definition var_sum {N} `{Numeric N} (ps : list (N * N * N)) : N :=
  foldl (fun v p => n_add v (n_mul (n_mul p.1.1 p.1.2) p.2)) n_zero ps.

(** [annualVol / std::sqrt(252.0)]; [None] is the undefined access of
    [getVol]. *)
Definition daily_vol (surf : surface) (price : double) : option double :=
  annualVol ← getVol surf price 30; Some (annualVol / fsqrt (lit 252))%D.

(** The factors of one position's summand. *)
Definition var_term (latestPrices_ : prices) (surf : surface) (e : bytes * Position double) :
    option (double * double * double) :=
  let price := currentPrice latestPrices_ e.1 e.2 in
  dailyVol ← daily_vol surf price; Some (pos_quantity e.2, price, dailyVol).

Definition computeVar (latestPrices_ : prices) (surf : surface) (all : list (bytes * Position double)) :
    option double :=
  ps ← mapM (var_term latestPrices_ surf) all; Some (var_sum ps * lit (1645 # 1000))%D.

(** A portfolio of one short position has a negative value at risk, where a
    loss estimate is meant. *)
Example short_var_negative :
  (fun v => flt v fzero) <$> computeVar {[B "AAPL" := lit 150]} []
    [(B "AAPL", mkPosition (B "AAPL") (of_int (-100)) (lit 150) fzero fzero)] = Some true.
Proof. vm_compute. done. Qed.

(** On a loaded surface the value at risk is a number, whatever the prices. *)
Lemma computeVar_defined px rs all : Forall row_ok rs -> is_Some (computeVar px (load_rows rs) all).
Proof.
  intros Hrs. unfold computeVar.
  destruct (mapM_is_Some_2 (var_term px (load_rows rs)) all) as [ps ->]; [|by eexists].
  apply Forall_forall. intros e _. unfold compose, var_term, daily_vol. cbv zeta.
  destruct (getVol_defined rs (currentPrice px e.1 e.2) 30 Hrs) as [v ->]. by eexists.
Qed.

(** ** Marks *)

Fixpoint last_tick (sym : bytes) (ts : list Tick) : option double :=
  match ts with
  | [] => None
  | t :: ts' =>
      match last_tick sym ts' with
      | Some p => Some p
      | None => if decide (tick_key t = sym) then Some (last_price t) else None
      end
  end.

Lemma onTick_all ts sym : forall m, foldl onTick m ts !! sym =
  match last_tick sym ts with Some p => Some p | None => m !! sym end.
Proof.
  induction ts as [|t ts IH]; intros m; cbn [foldl last_tick]; [done|]. rewrite IH.
  destruct (last_tick sym ts); [done|]. unfold onTick. case_decide as E.
  - by rewrite E, lookup_insert_eq.
  - by rewrite lookup_insert_ne.
Qed.

Lemma fsub_diag s m e : (S754_finite s m e - S754_finite s m e)%D = fzero.
Proof.
  unfold fsub, SFsub, SFadd. cbv zeta.
  by destruct s; cbn [cond_Zopp]; rewrite Z.sub_diag.
Qed.

Lemma fmul_zero_l x : (exists s m e, x = S754_finite s m e) \/ (exists s, x = S754_zero s) ->
  exists s, (fzero * x)%D = S754_zero s.
Proof. intros [(s & m & e & ->)|(s & ->)]; cbn; eauto. Qed.

(** A position is marked at the last tick received for its symbol; before
    any tick it is marked at its own average, and its unrealised profit is
    zero. *)
Theorem marks_latest (ts : list Tick) (sym : bytes) (s : bool) (m : positive) (e : Z) (q : Z) (r u : double) :
  Z.abs q < 2 ^ 53 ->
  let pos := mkPosition sym (of_int q) (S754_finite s m e) r u in
  let row := report_one (foldl onTick ∅ ts) (sym, pos) in
  rr_price row = default (averageEntryPrice pos) (last_tick sym ts) /\
  (last_tick sym ts = None -> exists s', rr_unrealised row = S754_zero s').
Proof.
  intros Hq%is_int_of_int pos row. unfold row, report_one, currentPrice. rewrite onTick_all, lookup_empty.
  split; [by destruct (last_tick sym ts)|]. intros ->. cbn [rr_unrealised default from_option].
  unfold pos. cbn [averageEntryPrice pos_quantity]. rewrite fsub_diag. apply fmul_zero_l.
  destruct Hq as [[_ [s' ->]]|[_ ->]]; [right; eauto|left]. unfold canon. eauto.
Qed.

Lemma marks_latest_witness :
  let pos := mkPosition (B "AAPL") (of_int 100) (lit 150) fzero fzero in
  rr_price (report_one (foldl onTick ∅
    [mkTick (strncpy (zeros 8) (B "AAPL") 7) fzero fzero (lit 151) 1;
     mkTick (strncpy (zeros 8) (B "AAPL") 7) fzero fzero (lit 152) 2]) (B "AAPL", pos)) = lit 152.
Proof.
  exact (proj1 (marks_latest
    [mkTick (strncpy (zeros 8) (B "AAPL") 7) fzero fzero (lit 151) 1;
     mkTick (strncpy (zeros 8) (B "AAPL") 7) fzero fzero (lit 152) 2]
    (B "AAPL") false 5277655813324800 (-45) 100 fzero fzero eq_refl)).
Defined.

(** ** The value at risk in exact arithmetic *)

Lemma var_sum_acc (ps : list (Q * Q * Q)) : forall v,
  (foldl (fun v p => v + p.1.1 * p.1.2 * p.2) v ps ==
   v + foldl (fun v p => v + p.1.1 * p.1.2 * p.2) 0 ps)%Q.
Proof.
  induction ps as [|p ps IH]; intros v; cbn [foldl]; [ring|].
  rewrite IH, (IH (0 + p.1.1 * p.1.2 * p.2)%Q). ring.
Qed.

(** A short position at a non-negative price and volatility. *)
Definition short_term (p : Q * Q * Q) : Prop := (p.1.1 <= 0 /\ 0 <= p.1.2 /\ 0 <= p.2)%Q.

(** The value at risk is signed: in exact arithmetic the sum over two
    parts of a portfolio is the sum of theirs, so positions of opposite signs
    cancel, and a portfolio that is only short, at non-negative prices and
    volatilities, has a value at risk of at most zero. *)
Theorem var_signed (ps ps' : list (Q * Q * Q)) :
  Forall short_term ps ->
  (var_sum (ps ++ ps') == var_sum ps + var_sum ps')%Q /\ (var_sum ps <= 0)%Q.
Proof.
  intros Hps. unfold var_sum. cbn [n_add n_mul n_zero exact_numeric].
  split; [rewrite foldl_app; apply var_sum_acc|].
  induction Hps as [|[[q p] d] ps (Hq & Hp & Hd) _ IH]; cbn [foldl fst snd] in *; [lra|].
  rewrite var_sum_acc.
  assert (q * p <= 0)%Q by nra. assert (q * p * d <= 0)%Q by nra. lra.
Qed.

Lemma var_signed_witness : (var_sum [(-100, 150, 1 # 100)] <= 0)%Q.
Proof.
  assert (H : Forall short_term [(-100, 150, 1 # 100)]%Q).
  { constructor; [|constructor]. unfold short_term. cbn. repeat split; lra. }
  exact (proj2 (var_signed [(-100, 150, 1 # 100)]%Q [] H)).
Defined.
