(* ===== verification/RiskAccuracy.v ===== *)
(** * How accurate the risk report and the value at risk are

    [runReport] multiplies a difference of prices by a quantity; [computeVar]
    adds up, over the positions, products of a quantity, a price and a daily
    volatility, and scales the sum.  Every operation is rounded.  Here the
    result beside the exact one: relative for a row of the report, relative to
    the gross exposure for the value at risk, since long and short positions
    cancel. *)

From Stdlib Require Import QArith Qabs Lqa.
From S2P Require Import Prelude Float64 Float64Valid Float64Accuracy Float64Signed Messages.
From S2P Require Import PositionManager PositionAccuracy ProfitAccuracy VolSurface RiskEngine.

Local Open Scope Z_scope.

(** ** Numbers *)

Lemma priced_sizeable x : priced x -> finite x /\ is_double x /\ sizeable x /\ (bpow (-100) <= valQ x < bpow 100)%Q.
Proof.
  intros Hx. destruct (tracks_finite 0 x (valQ x) (priced_tracks x Hx) ltac:(lia)) as (e & Hn & _ & Hf & Hd & Hv).
  destruct Hx as (_ & _ & Hm). split_and!; try done; try apply Hm. right.
  rewrite Qabs_pos by lra. destruct Hm as [Hm _]. pose proof (bpow_le (-400) (-100) ltac:(lia)). lra.
Qed.

Lemma is_int_signed x c : is_int x c -> finite x /\ is_double x /\ sizeable x /\ (valQ x == inject_Z c)%Q.
Proof.
  intros Hx. pose proof (is_int_valQ x c Hx) as Hv. destruct (Z.lt_trichotomy c 0) as [Hc|[->|Hc]].
  - destruct (is_int_sizeable (- x)%D (- c) (is_int_opp x c Hx) ltac:(lia)) as (Hf & Hd & Hs & _).
    assert (Ho : (- - x)%D = x) by (destruct x as [[]|[]| |[] m e]; done).
    split_and!; [by destruct x|rewrite <- Ho; by apply fopp_double| |done].
    unfold sizeable in *. rewrite valQ_opp, Qabs_opp in Hs. destruct Hs as [Hs|Hs]; [left; lra|by right].
  - destruct Hx as [[_ [s ->]]|[? _]]; [|lia]. split_and!; [done|done|left; reflexivity|reflexivity].
  - by apply is_int_sizeable.
Qed.

(** A rounded number is at least half of what it stands for. *)
Lemma rounds_half x v k : rounds x v -> (v == 0)%Q \/ (bpow (k + 1) <= Qabs v)%Q -> (valQ x == 0)%Q \/ (bpow k <= Qabs (valQ x))%Q.
Proof.
  intros (_ & _ & Hr) Hv. unfold u53 in Hr. change (2 ^ 53)%positive with 9007199254740992%positive in Hr.
  destruct Hv as [E|Hv].
  - left. rewrite E in Hr. change (Qabs 0) with 0%Q in Hr. apply Qabs_Qle_condition in Hr. lra.
  - right. pose proof (Qabs_triangle_reverse v (valQ x)) as Ht. rewrite (Qabs_Qminus v) in Ht.
    rewrite bpow_plus in Hv. change (bpow 1) with 2%Q in Hv. pose proof (bpow_pos k). lra.
Qed.

(** Two roundings: 2^-53 each, and a little. *)
Lemma two_roundings x y z : (Qabs (y - x) <= u53 * Qabs x)%Q -> (Qabs (z - y) <= u53 * Qabs y)%Q ->
  (Qabs (z - x) <= 3 * u53 * Qabs x)%Q.
Proof.
  intros H1 H2. pose proof (Qabs_bound x y _ _ H1 (Qle_refl _)) as Hy. pose proof (Qabs_nonneg x).
  pose proof (Qabs_trans_u53 _ _ _ H2 Hy) as H3. unfold u53 in *.
  change (2 ^ 53)%positive with 9007199254740992%positive in *. rewrite !Qabs_Qle_condition in *. lra.
Qed.

(** ** A row of the report *)

Lemma unrealised_accurate (p a q : double) c : priced p -> priced a -> is_int q c ->
  (Qabs (valQ ((p - a) * q)%D - (valQ p - valQ a) * valQ q) <= 3 * u53 * Qabs ((valQ p - valQ a) * valQ q))%Q.
Proof.
  intros Hp Ha Hq. destruct (is_int_signed q c Hq) as (Qf & Qd & Qs & Qv).
  destruct (tracks_finite 0 p _ (priced_tracks p Hp) ltac:(lia)) as (ep & Np & Ep & Pf & Pd & _).
  destruct (tracks_finite 0 a _ (priced_tracks a Ha) ltac:(lia)) as (ea & Na & Ea & Af & Ad & _).
  destruct (priced_sizeable p Hp) as (_ & _ & _ & Vp), (priced_sizeable a Ha) as (_ & _ & _ & Va).
  pose proof (bpow_pos (-100)) as H0.
  assert (Hb : (Qabs (valQ p - valQ a) <= bpow 100)%Q) by (apply Qabs_Qle_condition; lra).
  assert (Hbig : (4 * (bpow 100 * bpow 53) < bpow 1000)%Q) by reflexivity.
  assert (Hbig' : (bpow 100 < bpow 1000)%Q) by reflexivity.
  pose proof (fsub_rounds p a Pf Af Pd Ad ltac:(lra)) as Rd.
  pose proof (fsub_sizeable p a ep ea Np Na ltac:(lia) ltac:(lia) Rd) as Sd. destruct Rd as (Df & Dd & De).
  assert (Hc : (Qabs (valQ q) <= bpow 53)%Q).
  { rewrite Qv. change (Qabs (inject_Z c)) with (inject_Z (Z.abs c)). rewrite (bpow_Z 53), <- Zle_Qle by done.
    pose proof (is_int_bound _ _ Hq). lia. }
  pose proof (Qabs_bound _ _ _ _ (Qabs_trans_u53 _ _ _ De Hb) Hb) as Hd.
  assert (Rt : rounds ((p - a) * q)%D (valQ (p - a)%D * valQ q)).
  { apply fmul_rounds; try done. rewrite Qabs_Qmult. eapply Qle_lt_trans.
    { apply (Qmult_le_compat_nonneg _ (bpow 100 + u53 * bpow 100) _ (bpow 53)); split; try apply Qabs_nonneg; done. }
    unfold u53. change (2 ^ 53)%positive with 9007199254740992%positive. lra. }
  destruct Rt as (_ & _ & Te). apply (two_roundings _ (valQ (p - a)%D * valQ q)); [|done].
  assert (E : (valQ (p - a)%D * valQ q - (valQ p - valQ a) * valQ q == (valQ (p - a)%D - (valQ p - valQ a)) * valQ q)%Q) by ring.
  rewrite E, !Qabs_Qmult, Qmult_assoc. apply Qmult_le_compat_r; [done|apply Qabs_nonneg].
Qed.

(** ** The summand of a position *)

(** [std::sqrt(252.0)] *)
Definition sigma : double := fsqrt (lit 252).

Lemma sigma_square : (Qabs (valQ sigma * valQ sigma - 252) <= 252 * (1 # 2 ^ 52))%Q.
Proof. vm_compute. discriminate. Qed.

Lemma sigma_normal : normal sigma (-49).
Proof. eexists. split; [vm_compute; reflexivity|lia]. Qed.

Lemma sigma_range : (8 <= valQ sigma <= 16)%Q.
Proof. vm_compute. split; discriminate. Qed.

Lemma daily_accurate vol : priced vol -> let d := (vol / sigma)%D in let v := (valQ vol / valQ sigma)%Q in
  finite d /\ is_double d /\ (bpow (-105) <= valQ d <= bpow 100)%Q /\ (0 < v <= bpow 97)%Q /\
  (Qabs (valQ d - v) <= u53 * Qabs v)%Q.
Proof.
  intros Hv. destruct (priced_sizeable vol Hv) as (_ & _ & _ & V1 & V2).
  destruct (tracks_finite 0 vol _ (priced_tracks vol Hv) ltac:(lia)) as (e & N & He & _).
  destruct (fdiv_error vol sigma e (-49) N sigma_normal ltac:(lia)) as (f & Hf & Nd & Hd). cbv zeta.
  destruct sigma_range as [S1 S2]. set (v := (valQ vol / valQ sigma)%Q) in *. pose proof (bpow_pos (-100)) as H0.
  assert (B1 : (valQ vol * (1 # 16) <= v)%Q) by (apply Qle_shift_div_l; [lra|]; nra).
  assert (B2 : (v <= valQ vol * (1 # 8))%Q) by (apply Qle_shift_div_r; [lra|]; nra).
  unfold near, u53 in *. change (2 ^ 53)%positive with 9007199254740992%positive in *.
  split_and!.
  - destruct Nd as (p & -> & Hp). done.
  - destruct Nd as (p & -> & Hp). apply finite_cases. left. lia.
  - change (-100) with (-105 + 5) in V1. rewrite bpow_plus in V1. change (bpow 5) with 32%Q in V1.
    pose proof (bpow_pos (-105)). lra.
  - lra.
  - lra.
  - change 100 with (97 + 3) in V2. rewrite bpow_plus in V2. change (bpow 3) with 8%Q in V2. lra.
  - rewrite (Qabs_pos v) by lra. apply Qabs_Qle_condition. lra.
Qed.

Lemma double_grid x k : finite x -> is_double x -> (valQ x == 0)%Q \/ (bpow k <= Qabs (valQ x))%Q -> on_grid (k - 53) (valQ x).
Proof.
  intros Hf Hd Hx. destruct x as [s| | |s m e]; [by exists 0|done|done|].
  destruct Hx as [E|Hx]; [exists 0; rewrite E; reflexivity|]. rewrite valQ_signed. apply grid_le.
  rewrite Qabs_finite in Hx. apply finite_digits in Hd as (Hd & _).
  enough (k < 53 + e) by lia. apply bpow_lt_inv. eapply Qle_lt_trans; [exact Hx|]. rewrite bpow_plus.
  apply Qmult_lt_compat_r; [apply bpow_pos|]. rewrite (bpow_Z 53), <- Zlt_Qlt by lia.
  eapply Z.lt_le_trans; [apply Zdigits2_bounds; lia|apply Z.pow_le_mono_r; lia].
Qed.

Lemma Qabs_mul_le a b x y : (Qabs a <= x)%Q -> (Qabs b <= y)%Q -> (Qabs (a * b) <= x * y)%Q.
Proof. intros Ha Hb. rewrite Qabs_Qmult. apply Qmult_le_compat_nonneg; (split; [apply Qabs_nonneg|done]). Qed.

Lemma Qabs_mul_ge a b x y : (0 <= x)%Q -> (0 <= y)%Q -> (x <= Qabs a)%Q -> (y <= Qabs b)%Q -> (x * y <= Qabs (a * b))%Q.
Proof. intros Hx Hy Ha Hb. rewrite Qabs_Qmult. apply Qmult_le_compat_nonneg; done. Qed.

(** A product of two rounded factors, rounded. *)
Lemma product_error a v y d t : (Qabs (y - a) <= u53 * Qabs a)%Q -> (Qabs (d - v) <= u53 * Qabs v)%Q ->
  (Qabs (t - y * d) <= u53 * Qabs (y * d))%Q -> (Qabs (t - a * v) <= 4 * u53 * Qabs (a * v))%Q.
Proof.
  intros Hy Hd Ht. set (P := (Qabs a * Qabs v)%Q).
  assert (HP : (0 <= P)%Q) by (apply Qmult_le_0_compat; apply Qabs_nonneg).
  pose proof (Qabs_bound a y _ _ Hy (Qle_refl _)) as By. pose proof (Qabs_bound v d _ _ Hd (Qle_refl _)) as Bd.
  pose proof (Qabs_mul_le _ _ _ _ Hy Bd) as E1. pose proof (Qabs_mul_le _ _ _ _ (Qle_refl (Qabs a)) Hd) as E2.
  pose proof (Qabs_trans_u53 _ _ _ Ht (Qabs_mul_le _ _ _ _ By Bd)) as E3. rewrite (Qabs_Qmult a v). fold P.
  assert (E : (t - a * v == (t - y * d) + ((y - a) * d + a * (d - v)))%Q) by ring. rewrite E.
  assert (F1 : (u53 * Qabs a * (Qabs v + u53 * Qabs v) == (u53 + u53 * u53) * P)%Q) by (unfold P; ring).
  assert (F2 : (Qabs a * (u53 * Qabs v) == u53 * P)%Q) by (unfold P; ring).
  assert (F3 : (u53 * ((Qabs a + u53 * Qabs a) * (Qabs v + u53 * Qabs v)) ==
    (u53 * (1 + u53) * (1 + u53)) * P)%Q) by (unfold P; ring).
  rewrite F1 in E1. rewrite F2 in E2. rewrite F3 in E3. clearbody P. clear F1 F2 F3 E Hy Hd Ht By Bd.
  unfold u53 in *. change (2 ^ 53)%positive with 9007199254740992%positive in *.
  rewrite !Qabs_Qle_condition in *. lra.
Qed.

Lemma is_int_zero_or_one q c : is_int q c -> (valQ q == 0)%Q \/ (1 <= Qabs (valQ q))%Q.
Proof.
  intros Hq. rewrite (is_int_valQ q c Hq). destruct (Z.eq_dec c 0) as [->|Hc]; [by left|right].
  change (Qabs (inject_Z c)) with (inject_Z (Z.abs c)). change 1%Q with (inject_Z 1). rewrite <- Zle_Qle. lia.
Qed.

Lemma summand_accurate q p vol c : is_int q c -> priced p -> priced vol ->
  let t := (q * p * (vol / sigma))%D in let x := (valQ q * valQ p * (valQ vol / valQ sigma))%Q in
  finite t /\ is_double t /\ on_grid (-260) (valQ t) /\ (Qabs (valQ t - x) <= 4 * u53 * Qabs x)%Q /\
  (Qabs x <= bpow 250)%Q.
Proof.
  intros Hq Hp Hvol t x. destruct (is_int_signed q c Hq) as (Qf & Qd & Qs & Qv).
  destruct (priced_sizeable p Hp) as (Pf & Pd & Ps & V1 & V2). pose proof (is_int_zero_or_one q c Hq) as Hq1.
  destruct (daily_accurate vol Hvol) as (Df & Dd & [D1 D2] & [W1 W2] & De).
  assert (Hq53 : (Qabs (valQ q) <= bpow 53)%Q).
  { rewrite Qv. change (Qabs (inject_Z c)) with (inject_Z (Z.abs c)). rewrite (bpow_Z 53), <- Zle_Qle by done.
    pose proof (is_int_bound _ _ Hq). lia. }
  set (d := (vol / sigma)%D) in *. set (v := (valQ vol / valQ sigma)%Q) in *.
  pose proof (bpow_pos (-100)) as H100. pose proof (bpow_pos (-105)) as H105.
  assert (Ap : (Qabs (valQ p) <= bpow 100)%Q) by (rewrite Qabs_pos; lra).
  assert (Ad : (Qabs (valQ d) <= bpow 100)%Q) by (rewrite Qabs_pos; lra).
  assert (Av : (Qabs v <= bpow 97)%Q) by (rewrite Qabs_pos; lra).
  pose proof (Qabs_mul_le _ _ _ _ Hq53 Ap) as Ha. rewrite <- bpow_plus in Ha. change (53 + 100) with 153 in Ha.
  assert (R1 : rounds (q * p)%D (valQ q * valQ p)) by (apply fmul_rounds; try done; eapply Qle_lt_trans; [exact Ha|done]).
  assert (Hlow : (valQ q * valQ p == 0)%Q \/ (bpow (-101 + 1) <= Qabs (valQ q * valQ p))%Q).
  { destruct Hq1 as [E|Hq1]; [left; rewrite E; ring|right]. change (-101 + 1) with (-100).
    pose proof (Qabs_mul_ge (valQ q) (valQ p) 1 (bpow (-100)) ltac:(lra) ltac:(lra) Hq1 ltac:(rewrite Qabs_pos; lra)). lra. }
  pose proof (rounds_half _ _ (-101) R1 Hlow) as Hy.
  assert (Hys : sizeable (q * p)%D).
  { destruct Hy as [E|Hy]; [by left|right]. eapply Qle_trans; [|exact Hy]. by apply bpow_le. }
  destruct R1 as (Yf & Yd & Ye). pose proof (Qabs_bound _ _ _ _ (Qabs_trans_u53 _ _ _ Ye Ha) Ha) as By.
  assert (R2 : rounds t (valQ (q * p)%D * valQ d)).
  { apply fmul_rounds; try done.
    - right. rewrite Qabs_pos by lra. eapply Qle_trans; [|exact D1]. by apply bpow_le.
    - eapply Qle_lt_trans; [exact (Qabs_mul_le _ _ _ _ By Ad)|done]. }
  assert (Hlow2 : (valQ (q * p)%D * valQ d == 0)%Q \/ (bpow (-207 + 1) <= Qabs (valQ (q * p)%D * valQ d))%Q).
  { destruct Hy as [E|Hy]; [left; rewrite E; ring|right]. change (-207 + 1) with (-101 + -105). rewrite bpow_plus.
    pose proof (bpow_pos (-101)). apply Qabs_mul_ge; [lra|lra|done|]. rewrite Qabs_pos; lra. }
  pose proof (rounds_half _ _ (-207) R2 Hlow2) as Ht. destruct R2 as (Tf & Td & Te).
  split_and!; [done|done|exact (double_grid t (-207) Tf Td Ht)|exact (product_error _ _ _ _ _ Ye De Te)|].
  exact (Qabs_mul_le _ _ _ _ Ha Av).
Qed.

(** ** The sum *)

(** A position that can be marked: whole units, and its entry price, its mark
    and the volatility there neither tiny nor huge. *)
Record holding (px : prices) (surf : surface) (e : bytes * Position double) (vol : double) : Prop := {
  hg_units : exists c, is_int (pos_quantity e.2) c;
  hg_entry : priced (averageEntryPrice e.2);
  hg_mark : priced (currentPrice px e.1 e.2);
  hg_vol : getVol surf (currentPrice px e.1 e.2) 30 = Some vol;
  hg_priced : priced vol }.

(** The three factors of a position, with the quotient of the volatility not
    rounded. *)
Definition exact_term (px : prices) (e : bytes * Position double) (vol : double) : Q * Q * Q :=
  (valQ (pos_quantity e.2), valQ (currentPrice px e.1 e.2), valQ vol / valQ sigma)%Q.

Definition product (t : Q * Q * Q) : Q := (t.1.1 * t.1.2 * t.2)%Q.

(** The sum of the absolute values. *)
Definition gross (ts : list (Q * Q * Q)) : Q := foldl (fun s t => s + Qabs (product t))%Q 0%Q ts.

Definition float_term (px : prices) (e : bytes * Position double) (vol : double) : double * double * double :=
  (pos_quantity e.2, currentPrice px e.1 e.2, vol / sigma)%D.

(** After [k] summands: [v] stands for [x], and the absolute values add up to [s]. *)
Record summed (k : nat) (v : double) (x s : Q) : Prop := {
  su_finite : finite v;
  su_double : is_double v;
  su_grid : on_grid (-260) (valQ v);
  su_error : (Qabs (valQ v - x) <= (natQ k + 2) * (1 # 2 ^ 52) * s)%Q;
  su_size : (Qabs x <= s)%Q;
  su_gross : (0 <= s <= natQ k * bpow 250)%Q }.

Lemma natQ_le k n : Z.of_nat k <= n -> (natQ k <= inject_Z n)%Q.
Proof. intros H. unfold natQ. by rewrite <- Zle_Qle. Qed.

(** The errors of one more summand. *)
Lemma sum_error (k s x v t f y : Q) : (0 <= k <= 1099511627776)%Q -> (0 <= s)%Q -> (Qabs x <= s)%Q ->
  (Qabs (v - x) <= (k + 2) * (1 # 2 ^ 52) * s)%Q -> (Qabs (t - y) <= 4 * u53 * Qabs y)%Q ->
  (Qabs (f - (v + t)) <= u53 * Qabs (v + t))%Q ->
  (Qabs (f - (x + y)) <= (k + 1 + 2) * (1 # 2 ^ 52) * (s + Qabs y))%Q /\ (Qabs (v + t) <= 2 * (s + Qabs y))%Q.
Proof.
  intros [K0 K1] Hs Hx Hv Ht Hf. set (a := Qabs y) in *. assert (Ha : (0 <= a)%Q) by apply Qabs_nonneg.
  assert (Hy : (Qabs y <= a)%Q) by apply Qle_refl. clearbody a.
  pose proof (Qabs_nonneg (v + t)) as Hvt0.
  assert (Hks : (k * s <= 1099511627776 * s)%Q) by (apply Qmult_le_compat_r; lra).
  assert (Hks0 : (0 <= k * s)%Q) by (apply Qmult_le_0_compat; lra).
  assert (Hka : (0 <= k * a)%Q) by (apply Qmult_le_0_compat; lra).
  assert (E : ((k + 2) * (1 # 2 ^ 52) * s == (k * s + 2 * s) * (1 # 2 ^ 52))%Q) by ring. rewrite E in Hv.
  assert (E' : ((k + 1 + 2) * (1 # 2 ^ 52) * (s + a) == (k * s + k * a + 3 * s + 3 * a) * (1 # 2 ^ 52))%Q) by ring. rewrite E'.
  assert (Hvt : (Qabs (v + t) <= (3 # 2) * (s + a))%Q).
  { clear Hf. unfold u53 in *. change (2 ^ 53)%positive with 9007199254740992%positive in *.
    change (2 ^ 52)%positive with 4503599627370496%positive in *. rewrite !Qabs_Qle_condition in *. lra. }
  pose proof (Qabs_trans_u53 _ _ _ Hf Hvt) as Hf'. clear Hf. split; [|lra].
  unfold u53 in *. change (2 ^ 53)%positive with 9007199254740992%positive in *.
  change (2 ^ 52)%positive with 4503599627370496%positive in *. rewrite !Qabs_Qle_condition in *. lra.
Qed.

Lemma summed_step px surf k v x s e vol : Z.of_nat k <= 2 ^ 40 -> summed k v x s -> holding px surf e vol ->
  let t := float_term px e vol in let y := product (exact_term px e vol) in
  summed (S k) (v + t.1.1 * t.1.2 * t.2)%D (x + y) (s + Qabs y).
Proof.
  intros Hk [Vf Vd Vg Ve Vs [Vb0 Vb]] [[c Hc] _ Hp _ Hvol] t y.
  destruct (summand_accurate _ _ vol c Hc Hp Hvol) as (Tf & Td & Tg & Te & Tb).
  assert (Hb : (Qabs y <= bpow 250)%Q) by exact Tb. clear Tb. change (pos_quantity e.2 * currentPrice px e.1 e.2 * (vol / sigma))%D with (t.1.1 * t.1.2 * t.2)%D in *.
  set (z := (t.1.1 * t.1.2 * t.2)%D) in *. pose proof (natQ_nonneg k) as Hk0. pose proof (natQ_le k (2 ^ 40) Hk) as Hk1.
  change (inject_Z (2 ^ 40)) with 1099511627776%Q in Hk1. pose proof (Qabs_nonneg y) as Hy.
  assert (Hs : (s + Qabs y <= natQ (S k) * bpow 250)%Q) by (rewrite natQ_S; lra).
  assert (Hbig : (2 * (natQ (S k) * bpow 250) < bpow 1000)%Q).
  { rewrite natQ_S. eapply Qle_lt_trans.
    - apply Qmult_le_l; [done|]. apply (Qmult_le_compat_r _ (1099511627777)); [lra|apply Qlt_le_weak, bpow_pos].
    - done. }
  assert (Hf0 : (Qabs (valQ z - y) <= 4 * u53 * Qabs y)%Q) by exact Te.
  destruct (sum_error (natQ k) s x (valQ v) (valQ z) (valQ v + valQ z) y) as [_ Hvt]; [lra|lra|done|done|done| |].
  { assert (E : (valQ v + valQ z - (valQ v + valQ z) == 0)%Q) by ring. rewrite E. change (Qabs 0) with 0%Q.
    apply Qmult_le_0_compat; [done|apply Qabs_nonneg]. }
  destruct (fadd_rounds v z Vf Tf Vd Td ltac:(lra)) as (Rf & Rd & Re).
  destruct (sum_error (natQ k) s x (valQ v) (valQ z) (valQ (v + z)%D) y) as [Hf _]; [lra|lra|done..|].
  split; [done|done| | | |].
  - apply fadd_grid; try done; [lra|]. by apply grid_plus.
  - by rewrite natQ_S.
  - eapply Qle_trans; [apply Qabs_triangle|]. lra.
  - lra.
Qed.

Lemma summed_all px surf all vols : Forall2 (holding px surf) all vols -> forall k v x s,
  Z.of_nat (k + length all) <= 2 ^ 40 -> summed k v x s ->
  summed (k + length all)
    (foldl (fun v p => v + p.1.1 * p.1.2 * p.2)%D v (zip_with (float_term px) all vols))
    (foldl (fun v p => v + p.1.1 * p.1.2 * p.2)%Q x (zip_with (exact_term px) all vols))
    (foldl (fun s t => s + Qabs (product t))%Q s (zip_with (exact_term px) all vols)).
Proof.
  induction 1 as [|e vol all vols He _ IH]; intros k v x s Hk Hs; cbn [zip_with foldl length] in *.
  - by rewrite Nat.add_0_r.
  - rewrite <- Nat.add_succ_comm in *. apply IH; [done|]. apply (summed_step px surf k v x s e vol); [lia|done..].
Qed.

Lemma var_terms px surf all vols : Forall2 (holding px surf) all vols ->
  mapM (var_term px surf) all = Some (zip_with (float_term px) all vols).
Proof.
  induction 1 as [|e vol all vols He _ IH]; [done|].
  assert (E : var_term px surf e = Some (float_term px e vol)).
  { unfold var_term, daily_vol. cbv zeta. by rewrite (hg_vol _ _ _ _ He). }
  cbn. by rewrite E, IH.
Qed.

(** ** The factor 1.645 *)

Lemma z_score : finite (lit (1645 # 1000)) /\ is_double (lit (1645 # 1000)) /\
  (1 <= valQ (lit (1645 # 1000)) <= 2)%Q /\
  (Qabs (valQ (lit (1645 # 1000)) - (1645 # 1000)) <= u53 * (1645 # 1000))%Q.
Proof. split_and!; [done|apply lit_double| | |]; vm_compute; discriminate. Qed.

Lemma scaled_error (n s x v c w : Q) : (0 <= n <= 1099511627776)%Q -> (0 <= s)%Q -> (Qabs x <= s)%Q ->
  (Qabs (v - x) <= (n + 2) * (1 # 2 ^ 52) * s)%Q -> (Qabs (c - (1645 # 1000)) <= u53 * (1645 # 1000))%Q ->
  (Qabs (w - v * c) <= u53 * Qabs (v * c))%Q ->
  (Qabs (w - (1645 # 1000) * x) <= (n + 4) * (1 # 2 ^ 52) * ((1645 # 1000) * s))%Q /\ (Qabs (v * c) <= 4 * s)%Q.
Proof.
  intros [N0 N1] Hs Hx Hv Hc Hw.
  assert (Hns : (0 <= n * s <= 1099511627776 * s)%Q) by (split; [by apply Qmult_le_0_compat|by apply Qmult_le_compat_r]).
  assert (E : ((n + 2) * (1 # 2 ^ 52) * s == (n * s + 2 * s) * (1 # 2 ^ 52))%Q) by ring. rewrite E in Hv.
  assert (E' : ((n + 4) * (1 # 2 ^ 52) * ((1645 # 1000) * s) == (1645 # 1000) * (n * s + 4 * s) * (1 # 2 ^ 52))%Q) by ring.
  rewrite E'. assert (Av : (Qabs v <= (1001 # 1000) * s)%Q).
  { unfold u53 in *. change (2 ^ 52)%positive with 4503599627370496%positive in *. clear Hw Hc.
    rewrite !Qabs_Qle_condition in *. lra. }
  assert (Ac : (Qabs c <= 1646 # 1000)%Q).
  { unfold u53 in Hc. change (2 ^ 53)%positive with 9007199254740992%positive in Hc. clear Hw Hv Av.
    rewrite !Qabs_Qle_condition in *. lra. }
  pose proof (Qabs_mul_le _ _ _ _ Av Ac) as Avc. pose proof (Qabs_trans_u53 _ _ _ Hw Avc) as Hw'.
  pose proof (Qabs_mul_le _ _ _ _ Av Hc) as Hvc. split; [|lra].
  assert (Ew : (w - (1645 # 1000) * x == (w - v * c) + v * (c - (1645 # 1000)) + (1645 # 1000) * (v - x))%Q) by ring.
  rewrite Ew. clear Hw Hc Ac Av Avc E E' Ew. unfold u53 in *. change (2 ^ 53)%positive with 9007199254740992%positive in *.
  change (2 ^ 52)%positive with 4503599627370496%positive in *. rewrite !Qabs_Qle_condition in *. lra.
Qed.

Lemma scaled_sum n v x s : Z.of_nat n <= 2 ^ 40 -> summed n v x s ->
  (Qabs (valQ (v * lit (1645 # 1000))%D - (1645 # 1000) * x) <= (natQ n + 4) * (1 # 2 ^ 52) * ((1645 # 1000) * s))%Q.
Proof.
  intros Hlen [Vf Vd Vg Ve Vs [Vb0 Vb]]. destruct z_score as (Cf & Cd & Cr & Ce).
  pose proof (natQ_nonneg n) as Hn0. pose proof (natQ_le n (2 ^ 40) Hlen) as Hn1.
  change (inject_Z (2 ^ 40)) with 1099511627776%Q in Hn1.
  set (c := lit (1645 # 1000)) in *.
  destruct (scaled_error (natQ n) s x (valQ v) (valQ c) (valQ v * valQ c)) as [_ Hvc]; [lra|lra|done|done|done| |].
  { assert (E : (valQ v * valQ c - valQ v * valQ c == 0)%Q) by ring. rewrite E. change (Qabs 0) with 0%Q.
    apply Qmult_le_0_compat; [done|apply Qabs_nonneg]. }
  assert (Hbig : (4 * s < bpow 1000)%Q).
  { eapply Qle_lt_trans; [apply Qmult_le_l; [done|exact Vb]|].
    assert (natQ n * bpow 250 <= 1099511627776 * bpow 250)%Q by (apply Qmult_le_compat_r; [done|apply Qlt_le_weak, bpow_pos]).
    assert (4 * (1099511627776 * bpow 250) < bpow 1000)%Q by done. lra. }
  destruct (fmul_rounds v c Vf Cf Vd Cd) as (_ & _ & Rw).
  - destruct (grid_small _ _ Vg) as [E|Hg]; [by left|right]. eapply Qle_trans; [|exact Hg]. by apply bpow_le.
  - right. rewrite Qabs_pos by lra. eapply Qle_trans; [|exact (proj1 Cr)]. change 1%Q with (bpow 0). by apply bpow_le.
  - lra.
  - by apply (scaled_error (natQ n) s x (valQ v) (valQ c)).
Qed.

(** ** Claims *)

(** C32. The numbers of the risk engine are accurate.  For positions of whole units
    whose entry prices, marks and volatilities are between 2^-100 and 2^100:
    the unrealised profit of a row has a relative error of at most 3 * 2^-53;
    and the value at risk of [n] positions is off the exact
    1.645 * sum (quantity * mark * volatility / sqrt 252) by at most
    (n + 4) * 2^-52 of the same sum of absolute values, however much long and
    short positions cancel.  ([sigma] is the binary64 square root of 252, the
    square of which is right to 2^-52.) *)
Theorem risk_accuracy (px : prices) (surf : surface) (all : list (bytes * Position double)) (vols : list double) :
  Z.of_nat (length all) <= 2 ^ 40 -> Forall2 (holding px surf) all vols ->
  let exact := zip_with (exact_term px) all vols in
  (forall e, e ∈ all -> let row := report_one px e in
    let v := ((valQ (rr_price row) - valQ (averageEntryPrice e.2)) * valQ (rr_qty row))%Q in
    (Qabs (valQ (rr_unrealised row) - v) <= 3 * u53 * Qabs v)%Q) /\
  (Qabs (valQ sigma * valQ sigma - 252) <= 252 * (1 # 2 ^ 52))%Q /\
  exists v, computeVar px surf all = Some v /\
    (Qabs (valQ v - (1645 # 1000) * var_sum exact) <=
      (natQ (length all) + 4) * (1 # 2 ^ 52) * ((1645 # 1000) * gross exact))%Q.
Proof.
  intros Hlen Hall exact. split; [|split; [exact sigma_square|]].
  - intros [sym pos] He. apply list_elem_of_lookup in He as [i Hi].
    destruct (Forall2_lookup_l _ _ _ _ _ Hall Hi) as (vol & _ & [[c Hc] Hentry Hmark _ _]).
    exact (unrealised_accurate _ _ _ c Hmark Hentry Hc).
  - unfold computeVar. rewrite (var_terms _ _ _ _ Hall). cbn [mbind option_bind]. eexists. split; [reflexivity|].
    assert (H0 : summed 0 fzero 0 0).
    { split; [done|done|by exists 0|done|done|]. split; [done|]. change (natQ 0) with 0%Q. lra. }
    pose proof (summed_all px surf all vols Hall 0 _ _ _ Hlen H0) as Hs.
    change (summed (length all) (var_sum (zip_with (float_term px) all vols)) (var_sum exact) (gross exact)) in Hs.
    exact (scaled_sum _ _ _ _ Hlen Hs).
Qed.

(** A long and a short position, one marked at its last tick. *)
Definition example_portfolio : list (bytes * Position double) :=
  [(B "AAPL", mkPosition (B "AAPL") (of_int 100) (lit 150) fzero fzero);
   (B "MSFT", mkPosition (B "MSFT") (of_int (-50)) (lit 300) fzero fzero)].
Definition example_marks : prices := {[B "AAPL" := lit (15125 # 100)]}.
Definition example_surface : surface := load_rows [(lit 140, 30, lit (28 # 100))].

Ltac priced_lit := eexists; split;
  [eexists; split; [vm_compute; reflexivity|lia]|vm_compute; split; [discriminate|reflexivity]].

Lemma risk_accuracy_witness : exists v, computeVar example_marks example_surface example_portfolio = Some v /\
  (Qabs (valQ v - (1645 # 1000) * var_sum (zip_with (exact_term example_marks) example_portfolio (replicate 2 (lit (28 # 100))))) <=
    6 * (1 # 2 ^ 52) * ((1645 # 1000) * gross (zip_with (exact_term example_marks) example_portfolio (replicate 2 (lit (28 # 100))))))%Q.
Proof.
  assert (P1 : priced (lit 150)) by priced_lit. assert (P2 : priced (lit 300)) by priced_lit.
  assert (P3 : priced (lit (15125 # 100))) by priced_lit. assert (P4 : priced (lit (28 # 100))) by priced_lit.
  assert (H : Forall2 (holding example_marks example_surface) example_portfolio (replicate 2 (lit (28 # 100)))).
  { constructor; [|constructor; [|constructor]]; (split; [|exact P1 || exact P2|exact P3 || exact P2|vm_compute; reflexivity|exact P4]).
    - exists 100. apply is_int_of_int. lia.
    - exists (-50). apply is_int_of_int. lia. }
  destruct (risk_accuracy example_marks example_surface example_portfolio _ ltac:(done) H) as (_ & _ & L). exact L.
Defined.
