(* ===== verification/System.v ===== *)
(** * The program: src/main.cpp

    The execution thread (FIX file, order book, execution queue), the UDP thread
    (datagrams, dispatcher, tick queue) and one cycle of the cold-path loop
    (drain the two queues, risk and latency state, adaptive spin, periodic
    report), composed of the components; and the simulators in front of them.
    Each thread runs by itself here: [Program] runs them at once.  A cycle
    drains what the queues hold when it starts. *)

From Stdlib Require Import Ascii QArith_base.
From S2P Require Import Prelude Float64 Float64Valid CString Messages Numerals ObjectPool PriceTick.
From S2P Require Import OrderBook OrderBookSpec OrderBookRefinement OrderBookProps.
From S2P Require Import FixParser SpscQueue MarketDispatcher LatencyTracker.
From S2P Require Import PositionManager VolSurface RiskEngine Metrics Wire Tools.

Local Open Scope Z_scope.

Definition QUEUE_CAPACITY : Z := 100000.

(** The items a queue of the program holds. *)
Definition queue_room : nat := Z.to_nat (QUEUE_CAPACITY - 1).

(** The three bytes of the UTF-8 arrow in the dashboard's labels. *)
Definition arrow : bytes := ["226"; "134"; "146"]%char.

Definition Tick_zero : Tick := mkTick (zeros 8) fzero fzero fzero 0.

(** ** The execution thread *)

(** [execQueue] and [droppedExecs], as the thread sees them. *)
Record Feed := mkFeed {
  execQueue : SpscQueue Execution;
  droppedExecs : Z }.     (* std::atomic<uint64_t> *)

(** The execution callback. *)
Definition feed_execution (e : Execution) (f : Feed) : Feed :=
  let '(ok, q) := push (execQueue f) e in
  mkFeed q (if ok : bool then droppedExecs f else wrap_u64 (droppedExecs f + 1)).

Definition Feed_new : Feed := mkFeed (SpscQueue_new QUEUE_CAPACITY) 0.

Section ExecutionThread.
Variable parse_now : nat -> Z.         (* the clock at the parse of each line *)
Variable match_now : nat -> nat -> Z.  (* the clock during each call *)
Variable running : nat -> bool.

(** The FIX callback; [None] would be a matching loop that does not end. *)
Definition feed_order (o : Order) (s : option (OrderBook * Feed * nat)) :
    option (OrderBook * Feed * nat) :=
  match s with
  | None => None
  | Some (ob, f, i) =>
      match acceptNewOrder (Some feed_execution) (match_now i) ob o f with
      | Some (ob', f') => Some (ob', f', S i)
      | None => None
      end
  end.

Definition execution_thread (f : file) (feed : Feed) :
    session (option (OrderBook * Feed * nat)) :=
  start feed_order parse_now running f (Some (OrderBook_new, feed, 0%nat)).

(** The orders a file delivers. *)
Definition orders_of (data : bytes) : list Order :=
  read_lines (fun o l => l ++ [o]) parse_now running (length data) 0 data [].
End ExecutionThread.

(** ** The UDP callback *)

Record TickFeed := mkTickFeed {
  tickQueue : SpscQueue Tick;
  tickHotLatency : LatencyTracker;
  droppedTicks : Z }.

Definition TickFeed_new : TickFeed := mkTickFeed (SpscQueue_new QUEUE_CAPACITY) LatencyTracker_new 0.

(** [tickCallback], at time [now]. *)
Definition feed_tick (now : Z) (t : Tick) (f : TickFeed) : TickFeed :=
  let h := record (tickHotLatency f) (wrap_i64 (now - timestamp_ns t)) in
  let '(ok, q) := push (tickQueue f) t in
  mkTickFeed q h (if ok : bool then droppedTicks f else wrap_u64 (droppedTicks f + 1)).

Section UdpThread.
Variable tick_now : nat -> Z.          (* the clock at each call of the callback *)

(** The callback with the number of its call. *)
Definition tickCallback (t : Tick) (s : TickFeed * nat) : TickFeed * nat :=
  (feed_tick (tick_now s.2) t s.1, S s.2).

Definition watched : list bytes := [B "AAPL"; B "MSFT"; B "GOOGL"; B "TSLA"; B "ESZ4"; B "GBPUSD"].

Definition dispatcher : gmap Z (list (Tick -> TickFeed * nat -> TickFeed * nat)) :=
  subscribe_all ((fun sym => (sym, tickCallback)) <$> watched).

(** The UDP thread on what [recvfrom] returns. *)
Definition udp_thread (ds : list (option bytes)) (f : TickFeed) : TickFeed * nat :=
  receive dispatcher ds (f, 0%nat).
End UdpThread.

(** ** The cold path *)

Definition kSpinMax : Z := 500.

Record Cold := mkCold {
  latestPrices : prices;
  matchLatency : LatencyTracker;
  positionManager : positions;
  totalDrainCycles : Z;
  maxTickBatch : Z;
  maxExecBatch : Z;
  maxTickQueueDepth : Z;
  maxExecQueueDepth : Z;
  spin : Z }.

Definition Cold_new : Cold := mkCold ∅ LatencyTracker_new PositionManager_new 0 0 0 0 0 0.

(** The bodies of the two drain loops, with the batch counters. *)
Definition on_tick (t : Tick) (s : prices * Z) : prices * Z := (onTick s.1 t, wrap_u64 (s.2 + 1)).

Definition on_exec (e : Execution) (s : LatencyTracker * positions * Z) :
    LatencyTracker * positions * Z :=
  (record s.1.1 (wrap_i64 (exec_arrival_ns e - order_arrival_ns e)),
   onExecution s.1.2 e, wrap_u64 (s.2 + 1)).

(** What the loop does when it goes around: spin again, or sleep. *)
Inductive idle := Busy | Pause | Sleep.

Definition next_spin (didWork : bool) (spin : Z) : Z * idle :=
  if didWork then (0, Busy) else if spin <? kSpinMax then (spin + 1, Pause) else (0, Sleep).

(** What the hot threads share with the cold path. *)
Record Shared := mkShared { sh_ticks : TickFeed; sh_execs : Feed }.

Definition drain_fuel {T} (q : SpscQueue T) : nat := S (Z.to_nat (size q)).

(** [100.0 * static_cast<double>(peak) / static_cast<double>(capacity)] *)
Definition fill_percent (peak cap : Z) : double := (of_int 100 * of_int peak / of_int cap)%D.

(** What a report prints. *)
Record Dashboard := mkDashboard {
  db_tick_latency : bytes; db_match_latency : bytes;
  db_tick_peak : Z; db_tick_capacity : Z; db_tick_fill : double;
  db_exec_peak : Z; db_exec_capacity : Z; db_exec_fill : double;
  db_dropped_ticks : Z; db_dropped_execs : Z;
  db_cycles : Z; db_max_tick_batch : Z; db_max_exec_batch : Z;
  db_risk : list report_row;
  db_var : option double }.

Section ColdPath.
Variable volSurface : surface.
(** The iteration order of the [unordered_map] of positions. *)
Variable entries : positions -> list (bytes * Position double).

Definition dashboard (c : Cold) (sh : Shared) : Dashboard :=
  let tf := sh_ticks sh in
  let ef := sh_execs sh in
  let rows := entries (all (positionManager c)) in
  mkDashboard
    (LatencyTracker.report (tickHotLatency tf) (B "tick hot-path (UDP " ++ arrow ++ B " queue)"))
    (LatencyTracker.report (matchLatency c) (B "E2E match      (parse " ++ arrow ++ B " exec)"))
    (maxTickQueueDepth c) (capacity_ (tickQueue tf)) (fill_percent (maxTickQueueDepth c) (capacity_ (tickQueue tf)))
    (maxExecQueueDepth c) (capacity_ (execQueue ef)) (fill_percent (maxExecQueueDepth c) (capacity_ (execQueue ef)))
    (droppedTicks tf) (droppedExecs ef)
    (totalDrainCycles c) (maxTickBatch c) (maxExecBatch c)
    (runReport (latestPrices c) rows) (computeVar (latestPrices c) volSurface rows).

(** The resets that follow the dashboard. *)
Definition after_report (c : Cold) (sh : Shared) : Cold * Shared :=
  (mkCold (latestPrices c) (reset (matchLatency c)) (positionManager c) (totalDrainCycles c)
     (maxTickBatch c) (maxExecBatch c) 0 0 (spin c),
   mkShared (mkTickFeed (tickQueue (sh_ticks sh)) (reset (tickHotLatency (sh_ticks sh)))
               (droppedTicks (sh_ticks sh)))
     (sh_execs sh)).

(** The part of an iteration of [while (running)] before the clock is read. *)
Definition drain_cycle (c : Cold) (sh : Shared) : Cold * Shared * idle :=
  let q_ticks := tickQueue (sh_ticks sh) in
  let q_execs := execQueue (sh_execs sh) in
  let tickDepth := size q_ticks in
  let execDepth := size q_execs in
  let maxTD := if maxTickQueueDepth c <? tickDepth then tickDepth else maxTickQueueDepth c in
  let maxED := if maxExecQueueDepth c <? execDepth then execDepth else maxExecQueueDepth c in
  let '(tq, (px, tickBatch)) :=
    drain Tick_zero (drain_fuel q_ticks) on_tick q_ticks (latestPrices c, 0) in
  let maxTB := if maxTickBatch c <? tickBatch then tickBatch else maxTickBatch c in
  let '(eq, (lat, pm, execBatch)) :=
    drain Execution_zero (drain_fuel q_execs) on_exec q_execs
      (matchLatency c, positionManager c, 0) in
  let maxEB := if maxExecBatch c <? execBatch then execBatch else maxExecBatch c in
  let '(sp, act) := next_spin ((0 <? tickBatch) || (0 <? execBatch)) (spin c) in
  (mkCold px lat pm (wrap_u64 (totalDrainCycles c + 1)) maxTB maxEB maxTD maxED sp,
   mkShared (mkTickFeed tq (tickHotLatency (sh_ticks sh)) (droppedTicks (sh_ticks sh)))
     (mkFeed eq (droppedExecs (sh_execs sh))), act).

(** One iteration of [while (running)]; [due] says that five seconds have
    passed since the last report. *)
Definition cold_cycle (due : bool) (c : Cold) (sh : Shared) : Cold * Shared * idle * option Dashboard :=
  let '(c, sh, act) := drain_cycle c sh in
  if due then
    let d := dashboard c sh in
    let '(c, sh) := after_report c sh in (c, sh, act, Some d)
  else (c, sh, act, None).

(** The lines of final_pnl_report.txt: symbol, quantity, average price and
    realised profit of every position. *)
Definition final_report (c : Cold) : list (bytes * double * double * double) :=
  (fun e : bytes * Position double =>
     (e.1, pos_quantity e.2, averageEntryPrice e.2, realisedPnl e.2)) <$> entries (all (positionManager c)).
End ColdPath.

(** ** The metrics snapshot: the lambda of main.cpp *)

Definition snapshot (tf : TickFeed) (lat : LatencyTracker) (ef : Feed) : MetricsSnapshot :=
  let p50 := of_int 50 in let p99 := of_int 99 in let p999 := of_ratio false 999 10 in
  let h := tickHotLatency tf in
  mkSnapshot (percentile h p50) (percentile h p99) (percentile h p999) (max h) (count h)
    (percentile lat p50) (percentile lat p99) (percentile lat p999) (max lat) (count lat)
    (droppedTicks tf) (droppedExecs ef)
    (size (tickQueue tf)) (size (execQueue ef))
    (capacity_ (tickQueue tf)) (capacity_ (execQueue ef)).

(** ** The execution thread, proved *)

(** Reading lines is folding the callback over the orders of the file. *)
Lemma read_lines_fold {St} (callback : Order -> St -> St) now running n : forall i p,
  exists os, (forall l, read_lines (fun o l => l ++ [o]) now running n i p l = l ++ os) /\
    forall s, read_lines callback now running n i p s = foldl (fun s o => callback o s) s os.
Proof.
  induction n as [|n IH]; intros i p; cbn [read_lines].
  { exists []. split; [intros l; by rewrite app_nil_r|done]. }
  destruct p as [|c p]; [exists []; split; [intros l; by rewrite app_nil_r|done]|].
  destruct (running i); [|exists []; split; [intros l; by rewrite app_nil_r|done]].
  destruct (match memchr (c :: p) "010" with Some k => _ | None => _ end) as [line rest].
  destruct (IH (S i) rest) as (os & H1 & H2).
  destruct (0 <? length line)%nat; [|by exists os].
  exists (parseFixLine (now i) line :: os). split; [|intros s; apply H2].
  intros l. rewrite H1. by rewrite <- app_assoc.
Qed.

Lemma feed_orders_accept match_now os : forall i ob f,
  foldl (fun s o => feed_order match_now o s) (Some (ob, f, i)) os =
  match accept_all (Some feed_execution) match_now i ob f os with
  | Some (ob', f') => Some (ob', f', (i + length os)%nat)
  | None => None
  end.
Proof.
  assert (Hnone : forall l, foldl (fun s o => feed_order match_now o s) None l = None).
  { intros l. induction l as [|o l IH]; [done|exact IH]. }
  induction os as [|o os IH]; intros i ob f; cbn [foldl accept_all length].
  { by rewrite Nat.add_0_r. }
  unfold feed_order at 2. destruct (acceptNewOrder _ _ _ _ _) as [[ob' f']|]; [|apply Hnone].
  rewrite IH. destruct (accept_all _ _ _ _ _ _) as [[ob'' f'']|]; [|done].
  do 2 f_equal. lia.
Qed.

(** Offering an item to a queue and a counter of the refused. *)
Definition offer {T} (x : T) (s : SpscQueue T * Z) : SpscQueue T * Z :=
  let '(ok, q) := push s.1 x in (q, if ok : bool then s.2 else wrap_u64 (s.2 + 1)).

(** Offering items to a queue with nobody draining it. *)
Lemma offer_all {T} (z : T) xs : forall q d l, queue_rep z q l ->
  let room := Z.to_nat (capacity_ q - 1 - Z.of_nat (length l)) in
  let s := foldl (fun s x => offer x s) (q, d) xs in
  queue_rep z s.1 (l ++ take room xs) /\
  wrap_u64 s.2 = wrap_u64 (d + Z.of_nat (length (drop room xs))).
Proof.
  induction xs as [|x xs IH]; intros q d l Hq; cbn [foldl].
  { rewrite take_nil, drop_nil, app_nil_r. cbn. by rewrite Z.add_0_r. }
  pose proof (push_rep z q l x Hq) as Hp. pose proof (qr_room _ _ _ Hq) as Hroom.
  unfold offer at 2 4. cbn [fst snd].
  destruct (Z.eqb_spec (Z.of_nat (length l)) (capacity_ q - 1)) as [E|E].
  - rewrite Hp. specialize (IH q (wrap_u64 (d + 1)) l Hq).
    assert (Hz : Z.to_nat (capacity_ q - 1 - Z.of_nat (length l)) = 0%nat) by lia.
    rewrite Hz in *. destruct IH as [H1 H2]. rewrite take_0 in *. rewrite drop_0 in *. split; [done|].
    rewrite H2, wrap_u_add. f_equal. cbn [length]. lia.
  - destruct Hp as (q' & -> & Hc & Hq'). specialize (IH q' d (l ++ [x]) Hq').
    rewrite Hc, length_app in IH. cbn [length] in IH.
    replace (Z.to_nat (capacity_ q - 1 - Z.of_nat (length l)))
      with (S (Z.to_nat (capacity_ q - 1 - Z.of_nat (length l + 1)))) by lia.
    cbn [firstn skipn]. by rewrite <- app_assoc in IH.
Qed.

(** From an empty queue of the program's capacity. *)
Lemma offer_fresh {T} (z : T) xs :
  let s := foldl (fun s x => offer x s) (SpscQueue_new QUEUE_CAPACITY, 0) xs in
  queue_rep z s.1 (take queue_room xs) /\
  wrap_u64 s.2 = wrap_u64 (Z.of_nat (length (drop queue_room xs))).
Proof.
  pose proof (offer_all z xs _ 0 [] (queue_rep_new z QUEUE_CAPACITY eq_refl)) as H. cbv zeta in H.
  assert (Hr : Z.to_nat (capacity_ (SpscQueue_new (T:=T) QUEUE_CAPACITY) - 1 - Z.of_nat (length (@nil T)))
    = queue_room) by (unfold queue_room; f_equal; cbn [capacity_ SpscQueue_new length]; lia).
  by rewrite Hr, Z.add_0_l in H.
Qed.

Lemma feed_execution_offer e f : offer e (execQueue f, droppedExecs f) =
  (execQueue (feed_execution e f), droppedExecs (feed_execution e f)).
Proof. unfold feed_execution, offer. cbn [fst snd]. by destruct (push (execQueue f) e). Qed.

Lemma feed_tick_offer now t f : offer t (tickQueue f, droppedTicks f) =
  (tickQueue (feed_tick now t f), droppedTicks (feed_tick now t f)).
Proof. unfold feed_tick, offer. cbn [fst snd]. by destruct (push (tickQueue f) t). Qed.

Lemma feed_executions es : forall f,
  let s := foldl (fun s x => offer x s) (execQueue f, droppedExecs f) es in
  foldl (fun f e => notify (Some feed_execution) e f) f es = mkFeed s.1 s.2.
Proof.
  induction es as [|e es IH]; intros f; cbn [foldl]; [by destruct f|].
  rewrite feed_execution_offer. apply IH.
Qed.

(** ** The UDP thread, proved *)

Definition tick_watched (t : Tick) : Prop := tick_symbol t ∈ sym8 <$> watched.

(** The delays the callback measures, from its call number [i] on. *)
Fixpoint latencies (tick_now : nat -> Z) (i : nat) (ts : list Tick) : list Z :=
  match ts with
  | [] => []
  | t :: ts' => wrap_i64 (tick_now i - timestamp_ns t) :: latencies tick_now (S i) ts'
  end.

Lemma dispatch_watched tick_now t s : length (tick_symbol t) = 8%nat ->
  dispatch (dispatcher tick_now) t s = if decide (tick_watched t) then tickCallback tick_now t s else s.
Proof.
  intros Hl. unfold dispatcher. rewrite dispatch_default, subscribe_all_lookup.
  rewrite callbacks_same; [|done|repeat (constructor; [done|]); constructor|].
  - unfold tick_watched. by case_decide.
  - apply (bool_decide_unpack _). vm_compute. exact I.
Qed.

Lemma dispatch_ticks tick_now ts : forall s, Forall tick_ok ts ->
  foldl (fun s t => dispatch (dispatcher tick_now) t s) s ts =
  foldl (fun s t => tickCallback tick_now t s) s (filter (fun t => tick_watched t) ts).
Proof.
  induction ts as [|t ts IH]; intros s Hts; [done|]. apply Forall_cons in Hts as [Ht Hts].
  rewrite filter_cons. cbn [foldl]. rewrite dispatch_watched by (by apply Ht).
  case_decide; [cbn [foldl]|]; by apply IH.
Qed.

Lemma feed_ticks tick_now ts : forall f i,
  let s := foldl (fun s x => offer x s) (tickQueue f, droppedTicks f) ts in
  foldl (fun s t => tickCallback tick_now t s) (f, i) ts =
  (mkTickFeed s.1 (foldl record (tickHotLatency f) (latencies tick_now i ts)) s.2, (i + length ts)%nat).
Proof.
  induction ts as [|t ts IH]; intros f i; cbn [foldl latencies length].
  { by destruct f; rewrite Nat.add_0_r. }
  rewrite (feed_tick_offer (tick_now i)).
  assert (Hh : record (tickHotLatency f) (wrap_i64 (tick_now i - timestamp_ns t)) =
    tickHotLatency (feed_tick (tick_now i) t f)) by (unfold feed_tick; by destruct (push (tickQueue f) t)).
  rewrite Hh, Nat.add_succ_r. apply IH.
Qed.

Lemma ticks_of_ok ds : Forall datagram_ok ds -> Forall tick_ok (ticks_of ds).
Proof.
  induction 1 as [|[t|data] ds Hd _ IH]; [constructor| |exact IH].
  change (ticks_of (inl t :: ds)) with (t :: ticks_of ds). by constructor.
Qed.

(** ** The cold cycle, proved *)

Lemma foldl_on_tick ts : forall s n,
  foldl (fun s t => on_tick t s) (s, n) ts =
  (foldl onTick s ts, foldl (fun n (_ : Tick) => wrap_u64 (n + 1)) n ts).
Proof. induction ts as [|t ts IH]; intros s n; cbn; [done|apply IH]. Qed.

Definition latency_of (e : Execution) : Z := wrap_i64 (exec_arrival_ns e - order_arrival_ns e).

Lemma foldl_on_exec es : forall h pm n,
  foldl (fun s e => on_exec e s) (h, pm, n) es =
  (foldl record h (latency_of <$> es), run_executions pm es,
   foldl (fun n (_ : Execution) => wrap_u64 (n + 1)) n es).
Proof. induction es as [|e es IH]; intros h pm n; cbn; [done|apply IH]. Qed.

Lemma foldl_count {A} (l : list A) : forall n, 0 <= n -> n + Z.of_nat (length l) < 2 ^ 64 ->
  foldl (fun n (_ : A) => wrap_u64 (n + 1)) n l = n + Z.of_nat (length l).
Proof.
  induction l as [|x l IH]; intros n Hn Hb; cbn [foldl length] in *; [lia|].
  rewrite wrap_u_id by lia. rewrite IH by lia. lia.
Qed.

Lemma drain_all {T St} (z : T) (body : T -> St -> St) q l s : queue_rep z q l ->
  exists q', drain z (drain_fuel q) body q s = (q', foldl (fun s x => body x s) s l) /\ queue_rep z q' [].
Proof.
  intros Hq. apply drain_rep; [done|]. unfold drain_fuel. rewrite (size_rep _ _ _ Hq). lia.
Qed.

Lemma next_spin_spec (ts : list Tick) (es : list Execution) sp : 0 <= sp <= kSpinMax ->
  let '(sp', act) := next_spin ((0 <? Z.of_nat (length ts)) || (0 <? Z.of_nat (length es))) sp in
  0 <= sp' <= kSpinMax /\ (act = Busy <-> ts <> [] \/ es <> []).
Proof.
  intros Hspin. unfold next_spin, kSpinMax in *.
  destruct ts as [|t ts], es as [|e es]; cbn [length];
    [|rewrite (proj2 (Z.ltb_lt 0 (Z.of_nat (S (length es))))) by lia
     |rewrite (proj2 (Z.ltb_lt 0 (Z.of_nat (S (length ts))))) by lia..]; rewrite ?orb_true_r; cbn [orb].
  - cbn. destruct (Z.ltb_spec sp 500); (split; [lia|split; [done|intros [?|?]; done]]).
  - split; [lia|]. split; [by right|done].
  - split; [lia|]. split; [by left|done].
  - split; [lia|]. split; [by left|done].
Qed.

Lemma drain_cycle_spec c sh ts es :
  queue_rep Tick_zero (tickQueue (sh_ticks sh)) ts ->
  queue_rep Execution_zero (execQueue (sh_execs sh)) es ->
  Z.of_nat (length ts) < 2 ^ 64 -> Z.of_nat (length es) < 2 ^ 64 -> 0 <= spin c <= kSpinMax ->
  let '(c', sh', act) := drain_cycle c sh in
  queue_rep Tick_zero (tickQueue (sh_ticks sh')) [] /\
  queue_rep Execution_zero (execQueue (sh_execs sh')) [] /\
  latestPrices c' = foldl onTick (latestPrices c) ts /\
  positionManager c' = run_executions (positionManager c) es /\
  matchLatency c' = foldl record (matchLatency c) (latency_of <$> es) /\
  tickHotLatency (sh_ticks sh') = tickHotLatency (sh_ticks sh) /\
  maxExecQueueDepth c' = Z.max (maxExecQueueDepth c) (Z.of_nat (length es)) /\
  0 <= spin c' <= kSpinMax /\ (act = Busy <-> ts <> [] \/ es <> []).
Proof.
  intros Ht He Hnt Hne Hspin. unfold drain_cycle. cbv zeta.
  destruct (drain_all Tick_zero on_tick _ ts (latestPrices c, 0) Ht) as (tq & -> & Htq).
  destruct (drain_all Execution_zero on_exec _ es (matchLatency c, positionManager c, 0) He)
    as (eq & -> & Heq).
  rewrite foldl_on_tick, foldl_on_exec, !foldl_count by lia. rewrite !Z.add_0_l.
  rewrite (size_rep _ _ _ He). pose proof (next_spin_spec ts es (spin c) Hspin) as Hact.
  destruct (next_spin _ _) as [sp act]. destruct Hact as [Hsp Hact].
  split_and!; try done; try lia; try tauto. cbn [maxExecQueueDepth]. zcases; lia.
Qed.

(** ** Claims *)

(** The execution thread on the bytes of a file. *)
Lemma execution_thread_spec (parse_now : nat -> Z) (match_now : nat -> nat -> Z)
    (running : nat -> bool) (data : bytes) :
  let os := orders_of parse_now running data in
  let es := (spec_session match_now os).2 in
  exists ob f,
    execution_thread parse_now match_now running (Contents data)
      Feed_new = Returns (Some (ob, f, length os)) /\
    refines ob (spec_session match_now os).1 /\
    queue_rep Execution_zero (execQueue f) (take queue_room es) /\
    wrap_u64 (droppedExecs f) = wrap_u64 (Z.of_nat (length (drop queue_room es))).
Proof.
  intros os es.
  destruct (read_lines_fold (feed_order match_now) parse_now running (length data) 0 data)
    as (os' & H1 & H2).
  assert (Hos : os = os') by (unfold os, orders_of; by rewrite H1). subst os'.
  pose proof (accept_all_refines (Some feed_execution) match_now os 0 OrderBook_new spec_new
    Feed_new refines_new) as Hacc.
  pose proof (offer_fresh Execution_zero es) as Hfeed. cbv zeta in Hfeed.
  unfold es, spec_session in *. destruct (spec_accept_all match_now 0 spec_new os) as [sp es0].
  cbn [fst snd] in *. destruct Hacc as (ob & Hrun & Href).
  eexists ob, _. split; [|split; [exact Href|]].
  - assert (Hstart : forall s, start (feed_order match_now) parse_now running (Contents data) s =
      Returns (read_lines (feed_order match_now) parse_now running (length data) 0 data s))
      by (by destruct data).
    unfold execution_thread. rewrite Hstart, H2, feed_orders_accept, Hrun. reflexivity.
  - rewrite feed_executions. exact Hfeed.
Qed.

(** C3. The pipeline of the execution thread: for every file, callback timing
    and moment of a stop, the thread ends; the book it leaves implements the
    specification on the orders the file delivered; the execution queue holds
    the executions of the specification in order, the first [capacity - 1] of
    them while nobody drains it; and every other one is counted as dropped. *)
Theorem execution_pipeline (parse_now : nat -> Z) (match_now : nat -> nat -> Z)
    (running : nat -> bool) (data : bytes) :
  let os := orders_of parse_now running data in
  let es := (spec_session match_now os).2 in
  exists ob f,
    execution_thread parse_now match_now running (Contents data)
      Feed_new = Returns (Some (ob, f, length os)) /\
    refines ob (spec_session match_now os).1 /\
    queue_rep Execution_zero (execQueue f) (take queue_room es) /\
    wrap_u64 (droppedExecs f) = wrap_u64 (Z.of_nat (length (drop queue_room es))).
Proof. apply execution_thread_spec. Qed.

(** C25. From the order simulator to the matching engine: for all draws within
    the ranges of the distributions, the file the simulator generates, replayed
    by the execution thread, ends, and leaves the book and the execution queue
    of the specification on the orders drawn, in order, their prices rounded to
    cents — as long as the random walk stays within the ticks of the book. *)
Theorem generated_session (parse_now : nat -> Z) (match_now : nat -> nat -> Z) (ds : list FixSim.Draw) :
  Forall FixSim.draw_ok ds -> Forall FixSim.row_in_range (FixSim.rows 1 ds FixSim.symbols) ->
  let os := imap (fun k r => FixSim.row_order (parse_now k) r) (FixSim.rows 1 ds FixSim.symbols) in
  let es := (spec_session match_now os).2 in
  exists data ob f, FixSim.orders_fix ds = Some data /\
    execution_thread parse_now match_now (fun _ => true) (Contents data) Feed_new =
      Returns (Some (ob, f, length ds)) /\
    refines ob (spec_session match_now os).1 /\
    queue_rep Execution_zero (execQueue f) (take queue_room es).
Proof.
  intros Hds Hr os es. destruct (FixSim.order_file_spec parse_now ds Hds Hr) as (Hl & data & Hd & Hs).
  assert (Hos : orders_of parse_now (fun _ => true) data = os).
  { unfold orders_of. assert (Hstart : forall l, start (fun o l => l ++ [o]) parse_now (fun _ => true) (Contents data) l =
      Returns (read_lines (fun o l => l ++ [o]) parse_now (fun _ => true) (length data) 0 data l))
      by (by destruct data).
    rewrite Hstart in Hs. by injection Hs. }
  destruct (execution_thread_spec parse_now match_now (fun _ => true) data) as (ob & f & H1 & H2 & H3 & _).
  rewrite Hos in *. exists data, ob, f. split; [exact Hd|]. split; [|by split].
  rewrite H1. do 3 f_equal. unfold os. rewrite length_imap. exact Hl.
Qed.

Lemma generated_session_witness :
  let ds := [FixSim.mkDraw 0 (lit (-1)%Q) 0 30; FixSim.mkDraw 0 (lit 0%Q) 1 10] in
  exists data ob f, FixSim.orders_fix ds = Some data /\
    execution_thread (fun _ => 7) (fun _ _ => 8) (fun _ => true) (Contents data) Feed_new =
      Returns (Some (ob, f, 2%nat)).
Proof.
  set (ds := [FixSim.mkDraw 0 (lit (-1)%Q) 0 30; FixSim.mkDraw 0 (lit 0%Q) 1 10]). cbv zeta.
  assert (Hds : Forall FixSim.draw_ok ds) by (repeat constructor; cbn; lia).
  assert (Hr : Forall FixSim.row_in_range (FixSim.rows 1 ds FixSim.symbols)).
  { repeat (constructor; [vm_compute; split; [intros E; discriminate E|reflexivity]|]). constructor. }
  destruct (generated_session (fun _ => 7) (fun _ _ => 8) ds Hds Hr) as (data & ob & f & H1 & H2 & _).
  exists data, ob, f. split; [exact H1|exact H2].
Defined.

(** The UDP thread on a mix of ticks and short datagrams. *)
Lemma udp_thread_spec (tick_now : nat -> Z) (ds : list (Tick + bytes)) (rest : list (option bytes)) :
  Forall datagram_ok ds ->
  let ts := filter (fun t => tick_watched t) (ticks_of ds) in
  let '(f, n) := udp_thread tick_now (map datagram ds ++ None :: rest) TickFeed_new in
  n = length ts /\
  queue_rep Tick_zero (tickQueue f) (take queue_room ts) /\
  wrap_u64 (droppedTicks f) = wrap_u64 (Z.of_nat (length (drop queue_room ts))) /\
  tickHotLatency f = foldl record LatencyTracker_new (latencies tick_now 0 ts).
Proof.
  intros Hds ts. unfold udp_thread. rewrite receive_datagrams by done.
  rewrite dispatch_ticks by (by apply ticks_of_ok). fold ts. rewrite feed_ticks.
  cbn [tickQueue droppedTicks tickHotLatency TickFeed_new]. split; [done|].
  destruct (offer_fresh Tick_zero ts) as [H1 H2]. by split_and!.
Qed.

Lemma datagrams_inl (ts : list Tick) : map datagram (inl <$> ts) = Some ∘ encode_tick <$> ts.
Proof. induction ts as [|t ts IH]; [done|]. cbn. f_equal. exact IH. Qed.

Lemma ticks_of_inl (ts : list Tick) : ticks_of (inl <$> ts) = ts.
Proof. induction ts as [|t ts IH]; [done|]. cbn. f_equal. exact IH. Qed.

Lemma filter_all (ts : list Tick) : Forall tick_watched ts -> filter (fun t => tick_watched t) ts = ts.
Proof.
  induction 1 as [|t ts Ht _ IH]; [done|]. rewrite filter_cons, decide_True by done. by f_equal.
Qed.

(** The symbols of the sender are watched. *)
Lemma sent_watched d t : UdpSim.sent_for d t -> tick_ok t /\ tick_watched t.
Proof.
  intros (Hok & _ & name & Hname & Ht). split; [done|]. unfold tick_watched. rewrite Ht.
  destruct (UdpSim.names_short _ _ Hname) as [Hl Hnul].
  rewrite strncpy_short, <- sym8_short by (done || lia). apply list_elem_of_fmap. exists name. split; [done|].
  by eapply list_elem_of_lookup_2.
Qed.

(** C5. The pipeline of the UDP thread: of the datagrams that arrive before an
    error or the stop, the ticks of the watched symbols pass the callback once
    each, in order; the tick queue holds the first [capacity - 1] of them while
    nobody drains it, every other one is counted as dropped, and the latency
    histogram has them all. *)
Theorem tick_pipeline (tick_now : nat -> Z) (ds : list (Tick + bytes)) (rest : list (option bytes)) :
  Forall datagram_ok ds ->
  let ts := filter (fun t => tick_watched t) (ticks_of ds) in
  let '(f, n) := udp_thread tick_now (map datagram ds ++ None :: rest) TickFeed_new in
  n = length ts /\
  queue_rep Tick_zero (tickQueue f) (take queue_room ts) /\
  wrap_u64 (droppedTicks f) = wrap_u64 (Z.of_nat (length (drop queue_room ts))) /\
  tickHotLatency f = foldl record LatencyTracker_new (latencies tick_now 0 ts).
Proof. apply udp_thread_spec. Qed.

Lemma tick_pipeline_witness :
  let t := mkTick (sym8 (B "AAPL")) (of_int 149) (of_int 151) (of_int 150) (-5) in
  let u := mkTick (sym8 (B "IBM")) (of_int 149) (of_int 151) (of_int 150) 7 in
  (udp_thread (fun _ => 100) (map datagram [inl t; inr (B "noise"); inl u; inl t] ++ [None]) TickFeed_new).2
  = 2%nat.
Proof.
  set (t := mkTick (sym8 (B "AAPL")) _ _ _ _). set (u := mkTick (sym8 (B "IBM")) _ _ _ _). cbv zeta.
  assert (Ht : tick_ok t) by (unfold t; repeat split; cbn; lia).
  assert (Hu : tick_ok u) by (unfold u; repeat split; cbn; lia).
  assert (H : Forall datagram_ok [inl t; inr (B "noise"); inl u; inl t])
    by (repeat constructor; done || (cbn; unfold TICK_SIZE; lia)).
  pose proof (tick_pipeline (fun _ => 100) [inl t; inr (B "noise"); inl u; inl t] [] H) as Hp.
  cbv zeta in Hp. destruct (udp_thread _ _ _) as [f n]. destruct Hp as [-> _]. reflexivity.
Defined.

(** C26. From the tick sender to the queue: for all draws, the sender never leaves
    its vector and sends one tick per draw, with its symbol and time; and
    whichever of their datagrams UDP delivers, in whatever order, arrive bit
    for bit: the callback sees each of them, and the tick queue holds the first
    [capacity - 1] in the order of arrival while nobody drains it. *)
Theorem sent_ticks_arrive (tick_now : nat -> Z) (ds : list UdpSim.Draw) (rest : list (option bytes)) :
  Forall UdpSim.draw_ok ds ->
  exists ts, UdpSim.sendLoop ds UdpSim.symbols = Some ts /\
    Forall2 UdpSim.sent_for ds ts /\
    forall rs, rs ⊆ ts ->
      let '(f, n) := udp_thread tick_now ((Some ∘ encode_tick <$> rs) ++ None :: rest) TickFeed_new in
      n = length rs /\ queue_rep Tick_zero (tickQueue f) (take queue_room rs) /\
      wrap_u64 (droppedTicks f) = wrap_u64 (Z.of_nat (length (drop queue_room rs))).
Proof.
  intros Hds.
  destruct (UdpSim.sendLoop_ticks ds UdpSim.symbols eq_refl UdpSim.symbols_ok Hds) as (ts & Hs & Hts).
  exists ts. split; [exact Hs|]. split; [exact Hts|]. intros rs Hrs.
  assert (Hok : Forall (fun t => tick_ok t /\ tick_watched t) rs).
  { apply Forall_forall. intros t [i Hi]%Hrs%list_elem_of_lookup_1.
    destruct (Forall2_lookup_r _ _ _ _ _ Hts Hi) as (d & _ & Hd). by apply (sent_watched d). }
  rewrite <- (datagrams_inl rs).
  pose proof (udp_thread_spec tick_now (inl <$> rs) rest) as Hu. rewrite ticks_of_inl, (filter_all rs) in Hu.
  - destruct (udp_thread _ _ _) as [f n]. destruct Hu as (H1 & H2 & H3 & _); [|done].
    apply Forall_fmap. eapply Forall_impl; [exact Hok|]. by intros t [Ht _].
  - eapply Forall_impl; [exact Hok|]. by intros t [_ Ht].
Qed.

Lemma sent_ticks_arrive_witness :
  let ds := [UdpSim.mkDraw 3 (lit 1%Q) 10; UdpSim.mkDraw 5 (lit (-1000)%Q) 20] in
  exists ts, UdpSim.sendLoop ds UdpSim.symbols = Some ts /\
    (udp_thread (fun _ => 9) ((Some ∘ encode_tick <$> reverse ts) ++ [None]) TickFeed_new).2 = 2%nat.
Proof.
  set (ds := [UdpSim.mkDraw 3 (lit 1%Q) 10; UdpSim.mkDraw 5 (lit (-1000)%Q) 20]). cbv zeta.
  assert (Hds : Forall UdpSim.draw_ok ds).
  { do 2 (apply Forall_cons; split; [split; [cbn; lia|split; [apply lit_double|cbn; lia]]|]). constructor. }
  destruct (sent_ticks_arrive (fun _ => 9) ds [] Hds) as (ts & Hs & Hts & H).
  exists ts. split; [exact Hs|].
  assert (Hsub : reverse ts ⊆ ts) by (intros t Ht; by apply elem_of_reverse).
  specialize (H (reverse ts) Hsub).
  destruct (udp_thread _ _ _) as [f n]. destruct H as [-> _].
  rewrite length_reverse. symmetry. exact (Forall2_length _ _ _ Hts).
Defined.

(** C34. One cycle of the cold path empties both queues in order: the price
    cache has seen every tick, the position manager and the latency histogram
    every execution, and the spin counter stays within its bound.  When a
    report is due, the dashboard shows the state after the drain, and then both
    histograms and the peak depths are reset and nothing else. *)
Theorem cold_cycle_drains (surf : surface) (entries : positions -> list (bytes * Position double))
    (due : bool) (c : Cold) (sh : Shared) (ts : list Tick) (es : list Execution) :
  queue_rep Tick_zero (tickQueue (sh_ticks sh)) ts ->
  queue_rep Execution_zero (execQueue (sh_execs sh)) es ->
  Z.of_nat (length ts) < 2 ^ 64 -> Z.of_nat (length es) < 2 ^ 64 -> 0 <= spin c <= kSpinMax ->
  let '(c', sh', act, d) := cold_cycle surf entries due c sh in
  let px := foldl onTick (latestPrices c) ts in
  let pm := run_executions (positionManager c) es in
  let lat := foldl record (matchLatency c) (latency_of <$> es) in
  let peak := Z.max (maxExecQueueDepth c) (Z.of_nat (length es)) in
  queue_rep Tick_zero (tickQueue (sh_ticks sh')) [] /\
  queue_rep Execution_zero (execQueue (sh_execs sh')) [] /\
  latestPrices c' = px /\ positionManager c' = pm /\
  0 <= spin c' <= kSpinMax /\ (act = Busy <-> ts <> [] \/ es <> []) /\
  (if due then
     matchLatency c' = LatencyTracker_new /\ tickHotLatency (sh_ticks sh') = LatencyTracker_new /\
     maxExecQueueDepth c' = 0 /\ maxTickQueueDepth c' = 0 /\
     exists db, d = Some db /\ db_risk db = runReport px (entries pm) /\
       db_var db = computeVar px surf (entries pm) /\ db_exec_peak db = peak /\
       db_match_latency db = report lat (B "E2E match      (parse " ++ arrow ++ B " exec)")
   else
     matchLatency c' = lat /\ tickHotLatency (sh_ticks sh') = tickHotLatency (sh_ticks sh) /\
     maxExecQueueDepth c' = peak /\ d = None).
Proof.
  intros Ht He Hnt Hne Hspin. unfold cold_cycle.
  pose proof (drain_cycle_spec c sh ts es Ht He Hnt Hne Hspin) as H.
  destruct (drain_cycle c sh) as [[c1 sh1] act].
  destruct H as (H1 & H2 & H3 & H4 & H5 & H6 & H7 & H8 & H9). destruct due.
  - unfold after_report. cbv beta iota zeta. split_and!; try done; try (cbn [spin]; lia).
    eexists. split; [reflexivity|]. unfold dashboard; cbn. rewrite H3, H4, H5, H7. by split_and!.
  - split_and!; try done; lia.
Qed.

Lemma cold_cycle_drains_witness :
  let '(c', _, act, d) := cold_cycle [] map_to_list true Cold_new (mkShared TickFeed_new Feed_new) in
  latestPrices c' = ∅ /\ 0 <= spin c' <= kSpinMax /\ (act = Busy <-> False) /\
  exists db, d = Some db /\ db_risk db = [].
Proof.
  pose proof (cold_cycle_drains [] map_to_list true Cold_new (mkShared TickFeed_new Feed_new) [] []
    (queue_rep_new _ QUEUE_CAPACITY eq_refl) (queue_rep_new _ QUEUE_CAPACITY eq_refl)
    eq_refl eq_refl ltac:(cbn; unfold kSpinMax; lia)) as H.
  destruct (cold_cycle _ _ _ _ _) as [[[c' sh'] act] d].
  destruct H as (_ & _ & H1 & _ & H2 & H3 & _ & _ & _ & _ & db & H4 & H5 & _).
  split; [exact H1|]. split; [exact H2|]. split; [tauto|]. exists db. split; [exact H4|exact H5].
Defined.
