(* ===== verification/Program.v ===== *)
(** * The threads of the program: src/main.cpp

    [System] runs each thread by itself; here they run at once.  A step is one
    operation of one thread on what they share: a test or a store of a flag, a
    push or a pop of a queue ([SpscQueue] shows that these take effect as one
    operation each), a call that blocks.  The metrics server has its own model
    and only reads: its [stop] is one step here.  The network delivers or
    loses each datagram sent to the port, and a signal may come at any time. *)

From S2P Require Import Prelude Threads Float64 CString Messages PriceTick OrderBook OrderBookSpec.
From S2P Require Import OrderBookRefinement OrderBookProps FixParser SpscQueue MarketDispatcher Wire.
From S2P Require Import LatencyTracker PositionManager VolSurface RiskEngine System.

Local Open Scope Z_scope.

(** Where the main thread is: at the test of [while (running)], in the drain
    loops with their batch counters, before the clock of the report, and in the
    shutdown. *)
Inductive main_pc :=
  | MLoop | MTicks (tickBatch : Z) | MExecs (tickBatch execBatch : Z) | MClock
  | MStopMetrics | MStopFeed | MJoinUdp | MJoinExec | MReport
  | MExit (report : list (bytes * double * double * double)).

(** Where the UDP thread is, in [UDPFeedSubscriber::start]. *)
Inductive udp_pc :=
  | USocket | USetRunning | UTest | URecv | UHandle (data : bytes)
  | UClosed                  (* returned *)
  | UFailed.                 (* exit(EXIT_FAILURE): no socket *)

(** Where the execution thread is: between two callbacks, with its book, the
    number of the next order, the orders to come and the executions of the
    current one that are still to be reported. *)
Inductive exec_pc :=
  | EStart
  | ERun (ob : OrderBook) (i : nat) (todo : list Order) (out : list Execution)
  | EDone (ob : OrderBook)
  | EThrows.                 (* an exception that nobody catches: std::terminate *)

Record Program := mkProgram {
  running : bool;                       (* volatile sig_atomic_t *)
  main_ : main_pc;
  cold : Cold;
  ticks : TickFeed;
  execs : Feed;
  feed_running : bool;                  (* UDPFeedSubscriber::running_ *)
  udp : udp_pc;
  calls : nat;                          (* of the tick callback *)
  inbox : list (option bytes);          (* what recvfrom will return *)
  network : list (option bytes);        (* what is still under way *)
  exec : exec_pc }.

Definition set_main (pc : main_pc) (c : Cold) (s : Program) : Program :=
  mkProgram (running s) pc c (ticks s) (execs s) (feed_running s) (udp s) (calls s) (inbox s) (network s) (exec s).

Definition set_queues (t : TickFeed) (e : Feed) (s : Program) : Program :=
  mkProgram (running s) (main_ s) (cold s) t e (feed_running s) (udp s) (calls s) (inbox s) (network s) (exec s).

Definition set_udp (pc : udp_pc) (flag : bool) (s : Program) : Program :=
  mkProgram (running s) (main_ s) (cold s) (ticks s) (execs s) flag pc (calls s) (inbox s) (network s) (exec s).

Definition set_net (i n : list (option bytes)) (s : Program) : Program :=
  mkProgram (running s) (main_ s) (cold s) (ticks s) (execs s) (feed_running s) (udp s) (calls s) i n (exec s).

Definition set_calls (n : nat) (s : Program) : Program :=
  mkProgram (running s) (main_ s) (cold s) (ticks s) (execs s) (feed_running s) (udp s) n (inbox s) (network s) (exec s).

Definition set_exec (pc : exec_pc) (s : Program) : Program :=
  mkProgram (running s) (main_ s) (cold s) (ticks s) (execs s) (feed_running s) (udp s) (calls s) (inbox s) (network s) pc.

(** [handleSignal] *)
Definition handleSignal (s : Program) : Program :=
  mkProgram false (main_ s) (cold s) (ticks s) (execs s) (feed_running s) (udp s) (calls s) (inbox s) (network s) (exec s).

(** ** The cold path, an operation at a time *)

(** The head of the loop: the cycle is counted and the depths are read. *)
Definition cycle_begin (td ed : Z) (c : Cold) : Cold :=
  mkCold (latestPrices c) (matchLatency c) (positionManager c) (wrap_u64 (totalDrainCycles c + 1))
    (maxTickBatch c) (maxExecBatch c)
    (if maxTickQueueDepth c <? td then td else maxTickQueueDepth c)
    (if maxExecQueueDepth c <? ed then ed else maxExecQueueDepth c) (spin c).

Definition cold_tick (t : Tick) (c : Cold) : Cold :=
  mkCold (onTick (latestPrices c) t) (matchLatency c) (positionManager c) (totalDrainCycles c)
    (maxTickBatch c) (maxExecBatch c) (maxTickQueueDepth c) (maxExecQueueDepth c) (spin c).

Definition ticks_drained (batch : Z) (c : Cold) : Cold :=
  mkCold (latestPrices c) (matchLatency c) (positionManager c) (totalDrainCycles c)
    (if maxTickBatch c <? batch then batch else maxTickBatch c) (maxExecBatch c)
    (maxTickQueueDepth c) (maxExecQueueDepth c) (spin c).

Definition cold_exec (e : Execution) (c : Cold) : Cold :=
  mkCold (latestPrices c) (record (matchLatency c) (wrap_i64 (exec_arrival_ns e - order_arrival_ns e)))
    (onExecution (positionManager c) e) (totalDrainCycles c)
    (maxTickBatch c) (maxExecBatch c) (maxTickQueueDepth c) (maxExecQueueDepth c) (spin c).

(** The end of the second drain loop, and the adaptive spin. *)
Definition execs_drained (tickBatch batch : Z) (c : Cold) : Cold :=
  mkCold (latestPrices c) (matchLatency c) (positionManager c) (totalDrainCycles c)
    (maxTickBatch c) (if maxExecBatch c <? batch then batch else maxExecBatch c)
    (maxTickQueueDepth c) (maxExecQueueDepth c)
    (next_spin ((0 <? tickBatch) || (0 <? batch)) (spin c)).1.

Section Program.
Variable entries : positions -> list (bytes * Position double).
Variable parse_now : nat -> Z.
Variable match_now : nat -> nat -> Z.
Variable tick_now : nat -> Z.
Variable socket_ok : bool.     (* socket and bind succeed *)
Variable orders_file : file.

(** The orders of the file; nothing stops the reader. *)
Definition orders : list Order :=
  match orders_file with Contents data => orders_of parse_now (fun _ => true) data | _ => [] end.

(** A step of the main thread; [due] says that a report is due.  [None] is a
    [join] that waits, or the end. *)
Definition main_turn (due : bool) (s : Program) : option Program :=
  let c := cold s in
  match main_ s with
  | MLoop => Some (if running s then
      set_main (MTicks 0) (cycle_begin (size (tickQueue (ticks s))) (size (execQueue (execs s))) c) s
      else set_main MStopMetrics c s)
  | MTicks n => Some
      (match pop Tick_zero (tickQueue (ticks s)) with
       | (Some t, q) => set_main (MTicks (wrap_u64 (n + 1))) (cold_tick t c)
           (set_queues (mkTickFeed q (tickHotLatency (ticks s)) (droppedTicks (ticks s))) (execs s) s)
       | (None, _) => set_main (MExecs n 0) (ticks_drained n c) s
       end)
  | MExecs n k => Some
      (match pop Execution_zero (execQueue (execs s)) with
       | (Some e, q) => set_main (MExecs n (wrap_u64 (k + 1))) (cold_exec e c)
           (set_queues (ticks s) (mkFeed q (droppedExecs (execs s))) s)
       | (None, _) => set_main MClock (execs_drained n k c) s
       end)
  | MClock => Some (if due then
      let '(c', sh) := after_report c (mkShared (ticks s) (execs s)) in
      set_main MLoop c' (set_queues (sh_ticks sh) (sh_execs sh) s)
      else set_main MLoop c s)
  | MStopMetrics => Some (set_main MStopFeed c s)
  | MStopFeed => Some (set_main MJoinUdp c (set_udp (udp s) false s))
  | MJoinUdp => match udp s with UClosed => Some (set_main MJoinExec c s) | _ => None end
  | MJoinExec => match exec s with EDone _ => Some (set_main MReport c s) | _ => None end
  | MReport => Some (set_main (MExit (final_report entries c)) c s)
  | MExit _ => None
  end.

(** A step of the UDP thread; [None] is [recvfrom] that waits, or the end. *)
Definition udp_turn (s : Program) : option Program :=
  match udp s with
  | USocket => Some (set_udp (if socket_ok then USetRunning else UFailed) (feed_running s) s)
  | USetRunning => Some (set_udp UTest true s)
  | UTest => Some (set_udp (if feed_running s then URecv else UClosed) (feed_running s) s)
  | URecv =>
      match inbox s with
      | [] => None
      | None :: rest => Some (set_udp UClosed (feed_running s) (set_net rest (network s) s))
      | Some data :: rest => Some (set_udp (UHandle data) (feed_running s) (set_net rest (network s) s))
      end
  | UHandle data =>
      match handle_datagram (dispatcher tick_now) (Some data) (ticks s, calls s) with
      | Some (tf, n) => Some (set_udp UTest (feed_running s) (set_calls n (set_queues tf (execs s) s)))
      | None => None
      end
  | UClosed | UFailed => None
  end.

(** A step of the execution thread: an order is matched, or one of its
    executions is pushed. *)
Definition exec_turn (s : Program) : option Program :=
  match exec s with
  | EStart => Some (set_exec
      (match orders_file with Contents _ => ERun OrderBook_new 0 orders [] | _ => EThrows end) s)
  | ERun ob i todo out =>
      match out, todo with
      | e :: out', _ =>
          Some (set_exec (ERun ob i todo out') (set_queues (ticks s) (feed_execution e (execs s)) s))
      | [], o :: os =>
          match acceptNewOrder (Some record_execution) (match_now i) ob o [] with
          | Some (ob', es) => Some (set_exec (ERun ob' (S i) os es) s)
          | None => None
          end
      | [], [] => Some (set_exec (EDone ob) s)
      end
  | EDone _ | EThrows => None
  end.

Inductive action := Signal | Main (due : bool) | Udp | Exec | Deliver | Lose.

(** The process is still there. *)
Definition alive (s : Program) : bool :=
  match udp s, exec s, main_ s with
  | UFailed, _, _ | _, EThrows, _ | _, _, MExit _ => false
  | _, _, _ => true
  end.

(** The socket is bound. *)
Definition bound (s : Program) : bool :=
  match udp s with USocket | UClosed | UFailed => false | _ => true end.

Definition perform (a : action) (s : Program) : option Program :=
  if alive s then
    match a with
    | Signal => if running s then Some (handleSignal s) else None
    | Main due => main_turn due s
    | Udp => udp_turn s
    | Exec => exec_turn s
    | Deliver =>
        match network s with
        | d :: rest => if bound s then Some (set_net (inbox s ++ [d]) rest s) else None
        | [] => None
        end
    | Lose => match network s with _ :: rest => Some (set_net (inbox s) rest s) | [] => None end
    end
  else None.

Definition step (s s' : Program) : Prop := exists a, perform a s = Some s'.

Fixpoint run (acts : list action) (s : Program) : option Program :=
  match acts with
  | [] => Some s
  | a :: rest => s' ← perform a s; run rest s'
  end.

(** When [main] has started the threads. *)
Definition launch (net : list (option bytes)) : Program :=
  mkProgram true MLoop Cold_new TickFeed_new Feed_new false USocket 0 [] net EStart.

Lemma run_steps acts : forall s s', run acts s = Some s' -> rtc step s s'.
Proof.
  induction acts as [|a acts IH]; intros s s'; cbn [run]; [by intros [= ->]|].
  destruct (perform a s) as [s1|] eqn:E; [|done]. cbn [mbind option_bind]. intros H.
  eapply rtc_l; [by exists a|by apply IH].
Qed.

End Program.
