(* ===== verification/ProgramInvariant.v ===== *)
(** * The threads of the program, proved: invariant and progress

    Through any interleaving each queue is a channel: what was offered, in
    order, is applied, waiting, or dropped and counted.  Once the signal has
    come every step decreases [work]; the states without a step are
    classified. *)

From S2P Require Import Prelude Threads Float64 CString Messages PriceTick OrderBook OrderBookSpec.
From S2P Require Import OrderBookRefinement OrderBookProps FixParser SpscQueue MarketDispatcher Wire.
From S2P Require Import LatencyTracker PositionManager VolSurface RiskEngine System Program.


Local Open Scope Z_scope.

Section Program.
Variable entries : positions -> list (bytes * Position double).
Variable parse_now : nat -> Z.
Variable match_now : nat -> nat -> Z.
Variable tick_now : nat -> Z.
Variable socket_ok : bool.
Variable orders_file : file.

Abbreviation orders := (orders parse_now orders_file).
Abbreviation main_turn := (main_turn entries).
Abbreviation udp_turn := (udp_turn tick_now socket_ok).
Abbreviation exec_turn := (exec_turn parse_now match_now orders_file).
Abbreviation perform := (perform entries parse_now match_now tick_now socket_ok orders_file).
Abbreviation step := (step entries parse_now match_now tick_now socket_ok orders_file).

(** ** A queue between two threads

    Of the items offered so far, [applied] have been popped; some were dropped,
    and each of them was counted. *)
Definition channel {T} (z : T) (q : SpscQueue T) (dropped : Z) (offered applied : list T) : Prop :=
  exists l, queue_rep z q l /\ sublist (applied ++ l) offered /\
    wrap_u64 dropped = wrap_u64 (Z.of_nat (length offered) - Z.of_nat (length (applied ++ l))).

Lemma channel_new {T} (z : T) : channel z (SpscQueue_new QUEUE_CAPACITY) 0 [] [].
Proof. exists []. split; [by apply queue_rep_new|]. by split. Qed.

Lemma channel_offer {T} (z : T) q d offered applied x : channel z q d offered applied ->
  let '(q', d') := offer x (q, d) in
  channel z q' d' (offered ++ [x]) applied /\ size q' <= size q + 1.
Proof.
  intros (l & Hq & Hs & Hd). pose proof (push_rep z q l x Hq) as Hp. unfold offer; cbn [fst snd].
  destruct (_ =? _).
  - rewrite Hp. split; [|lia]. exists l. split; [done|]. split; [by apply sublist_inserts_r|].
    rewrite wrap_u_wrap, <- (wrap_u_add _ d), Hd, wrap_u_add.
    f_equal. rewrite !length_app. cbn. lia.
  - destruct Hp as (q' & -> & _ & Hq'). split; [|rewrite (size_rep _ _ _ Hq), (size_rep _ _ _ Hq'), length_app; cbn; lia].
    exists (l ++ [x]). split; [done|]. rewrite app_assoc. split; [by apply sublist_app|].
    rewrite Hd. f_equal. rewrite !length_app. cbn. lia.
Qed.

Lemma channel_pop {T} (z : T) q d offered applied : channel z q d offered applied ->
  match pop z q with
  | (Some x, q') => channel z q' d offered (applied ++ [x]) /\ size q = size q' + 1 /\ 0 <= size q'
  | (None, _) => True
  end.
Proof.
  intros (l & Hq & Hs & Hd). pose proof (pop_rep z q l Hq) as Hp. destruct l as [|x l]; [by rewrite Hp|].
  destruct Hp as (q' & -> & _ & Hq'). rewrite (size_rep _ _ _ Hq), (size_rep _ _ _ Hq').
  split; [|cbn; lia]. exists l. split; [done|]. by rewrite <- app_assoc.
Qed.

Lemma channel_size {T} (z : T) q d offered applied : channel z q d offered applied -> 0 <= size q.
Proof. intros (l & Hq & _). rewrite (size_rep _ _ _ Hq). lia. Qed.

(** ** The invariant *)

(** The executions the execution thread has reported so far. *)
Definition reported (x : exec_pc) (es : list Execution) : Prop :=
  match x with
  | EStart | EThrows => es = []
  | ERun ob i os out =>
      (i <= length orders)%nat /\ os = drop i orders /\
      exists sp, spec_session match_now (take i orders) = (sp, es ++ out) /\ refines ob sp
  | EDone ob => exists sp, spec_session match_now orders = (sp, es) /\ refines ob sp
  end.

(** The ticks of a datagram that pass the callback. *)
Definition arrivals (d : option bytes) : list Tick :=
  match d with
  | Some data =>
      let buffer := take TICK_SIZE data in
      let t := decode_tick buffer in
      if (length buffer <? TICK_SIZE)%nat then [] else if decide (tick_watched t) then [t] else []
  | None => []
  end.

Definition to_come (s : Program) : list Tick :=
  (match udp s with UHandle data => arrivals (Some data) | _ => [] end) ++
  concat (arrivals <$> inbox s) ++ concat (arrivals <$> network s).

Record inv (net : list (option bytes)) (s : Program) : Prop := {
  inv_execs : exists es applied, reported (exec s) es /\
    channel Execution_zero (execQueue (execs s)) (droppedExecs (execs s)) es applied /\
    positionManager (cold s) = run_executions PositionManager_new applied;
  inv_ticks : exists ts applied, sublist (ts ++ to_come s) (concat (arrivals <$> net)) /\
    channel Tick_zero (tickQueue (ticks s)) (droppedTicks (ticks s)) ts applied /\
    latestPrices (cold s) = foldl onTick ∅ applied }.

Lemma inv_launch net : inv net (launch net).
Proof.
  split; (exists [], []; split; [done|]; split; [apply channel_new|done]).
Qed.

(** A step that leaves the queues, the position manager and the prices alone. *)
Lemma inv_same net s s' : inv net s -> exec s' = exec s -> execs s' = execs s -> ticks s' = ticks s ->
  sublist (to_come s') (to_come s) ->
  positionManager (cold s') = positionManager (cold s) -> latestPrices (cold s') = latestPrices (cold s) ->
  inv net s'.
Proof.
  intros [(es & ap & H1 & H2 & H3) (ts & at_ & H4 & H5 & H6)] Ex Ee Et Ec Ep El. split.
  - exists es, ap. by rewrite Ex, Ee, Ep.
  - exists ts, at_. rewrite Et, El. split; [|done]. etrans; [|exact H4]. by apply sublist_app.
Qed.

Lemma main_inv net due s s' : inv net s -> main_turn due s = Some s' -> inv net s'.
Proof.
  intros Hi. unfold main_turn. destruct (main_ s) eqn:Em; try done.
  - intros [= <-]. destruct (running s); by apply (inv_same _ s).
  - intros [= <-]. destruct (inv_ticks _ _ Hi) as (ts & ap & H4 & H5 & H6).
    pose proof (channel_pop _ _ _ _ _ H5) as Hp. destruct (pop Tick_zero _) as [[t|] q]; [|by apply (inv_same _ s)].
    split; [apply Hi|]. exists ts, (ap ++ [t]). split; [exact H4|]. split; [apply Hp|].
    cbn. by rewrite foldl_app, H6.
  - intros [= <-]. destruct (inv_execs _ _ Hi) as (es & ap & H1 & H2 & H3).
    pose proof (channel_pop _ _ _ _ _ H2) as Hp. destruct (pop Execution_zero _) as [[e|] q]; [|by apply (inv_same _ s)].
    split; [|apply Hi]. exists es, (ap ++ [e]). split; [exact H1|]. split; [apply Hp|].
    cbn. unfold run_executions in *. by rewrite foldl_app, H3.
  - intros [= <-]. destruct due; [|by apply (inv_same _ s)].
    destruct Hi as [He Ht]. by split.
  - intros [= <-]. by apply (inv_same _ s).
  - intros [= <-]. by apply (inv_same _ s).
  - destruct (udp s) eqn:Eu; try done. intros [= <-]. by apply (inv_same _ s).
  - destruct (exec s) eqn:Ex; try done. intros [= <-]. by apply (inv_same _ s).
  - intros [= <-]. by apply (inv_same _ s).
Qed.

Lemma handle_arrivals data tf n :
  handle_datagram (dispatcher tick_now) (Some data) (tf, n) =
  Some (match arrivals (Some data) with t :: _ => (feed_tick (tick_now n) t tf, S n) | [] => (tf, n) end).
Proof.
  unfold handle_datagram, arrivals. destruct (Nat.ltb_spec (length (take TICK_SIZE data)) TICK_SIZE); [done|].
  rewrite dispatch_watched by (cbn; rewrite length_take_le; unfold TICK_SIZE in *; lia).
  by case_decide.
Qed.

Lemma arrivals_one data : exists t, arrivals (Some data) = [] \/ arrivals (Some data) = [t].
Proof.
  unfold arrivals. eexists. destruct (_ <? _)%nat; [by left|]. case_decide; [by right|by left].
Qed.

Lemma udp_inv net s s' : inv net s -> udp_turn s = Some s' -> inv net s'.
Proof.
  intros Hi. unfold udp_turn. destruct (udp s) as [| | | |data| |] eqn:Eu; try done.
  - intros [= <-]. apply (inv_same _ s); try done. unfold to_come; cbn. rewrite Eu. by destruct socket_ok.
  - intros [= <-]. apply (inv_same _ s); try done. unfold to_come; cbn. by rewrite Eu.
  - intros [= <-]. apply (inv_same _ s); try done. unfold to_come; cbn. rewrite Eu. by destruct (feed_running s).
  - destruct (inbox s) as [|[data|] rest] eqn:Ei; [done| |]; intros [= <-];
      (apply (inv_same _ s); try done); unfold to_come; cbn; rewrite Eu, Ei; cbn [fmap list_fmap concat app].
    + by rewrite app_assoc.
    + done.
  - rewrite handle_arrivals. destruct (inv_ticks _ _ Hi) as (ts & ap & H4 & H5 & H6).
    unfold to_come in H4. rewrite Eu in H4. destruct (arrivals_one data) as (t & [E|E]); rewrite E in *.
    + intros [= <-]. apply (inv_same _ s); try done. unfold to_come. by rewrite Eu, E.
    + intros [= <-]. split; [apply Hi|]. exists (ts ++ [t]), ap. split; [|split; [|done]].
      * unfold to_come; cbn. by rewrite <- app_assoc.
      * pose proof (channel_offer _ _ _ _ _ t H5) as Hc. rewrite (feed_tick_offer (tick_now (calls s))) in Hc. apply Hc.
Qed.

Lemma spec_accept_all_app now os2 os1 : forall i sp,
  spec_accept_all now i sp (os1 ++ os2) =
  let '(sp1, es1) := spec_accept_all now i sp os1 in
  let '(sp2, es2) := spec_accept_all now (i + length os1) sp1 os2 in (sp2, es1 ++ es2).
Proof.
  induction os1 as [|o os1 IH]; intros i sp; cbn [app spec_accept_all length].
  - rewrite Nat.add_0_r. by destruct (spec_accept_all now i sp os2).
  - destruct (spec_accept (now i) sp o) as [sp1 es1]. rewrite IH, Nat.add_succ_r.
    destruct (spec_accept_all now (S i) sp1 os1) as [sp2 es2]. cbn [Nat.add].
    destruct (spec_accept_all now _ sp2 os2) as [sp3 es3]. by rewrite app_assoc.
Qed.

(** An order is always matched. *)
Lemma accept_recorded i ob sp o : refines ob sp ->
  let '(sp', es) := spec_accept (match_now i) sp o in
  exists ob', acceptNewOrder (Some record_execution) (match_now i) ob o [] = Some (ob', es) /\ refines ob' sp'.
Proof.
  intros H. pose proof (acceptNewOrder_refines (Some record_execution) (match_now i) ob sp o [] H) as Ha.
  destruct (spec_accept (match_now i) sp o) as [sp' es]. by rewrite foldl_record in Ha.
Qed.

(** Whether the file opens. *)
Lemma file_opens (x y : exec_pc) : exists b : bool,
  (match orders_file with Contents _ => x | _ => y end) = if b then x else y.
Proof. destruct orders_file; (by exists true) || by exists false. Qed.

Lemma exec_inv net s s' : inv net s -> exec_turn s = Some s' -> inv net s'.
Proof.
  intros Hi. destruct (inv_execs _ _ Hi) as (es & ap & H1 & H2 & H3). unfold exec_turn.
  destruct (exec s) as [|ob i os out| |] eqn:Ex; try done.
  - intros [= <-]. split; [|apply Hi]. exists es, ap. split; [|by split]. cbn in *. subst es.
    destruct (file_opens (ERun OrderBook_new 0 orders []) EThrows) as [[] ->]; [|done]. cbn. split; [lia|]. split; [by rewrite drop_0|].
    exists spec_new. by split; [|apply refines_new].
  - destruct H1 as (Hle & Hos & sp & Hsp & Hr). destruct out as [|e out]; [destruct os as [|o os]|].
    + intros [= <-]. split; [|apply Hi]. exists es, ap. split; [|by split]. cbn. exists sp. split; [|done].
      assert (Hd : length (drop i orders) = 0%nat) by (by rewrite <- Hos). rewrite length_drop in Hd.
      rewrite take_ge, app_nil_r in Hsp by lia. done.
    + pose proof (accept_recorded i ob sp o Hr) as Ha. destruct (spec_accept (match_now i) sp o) as [sp' es'] eqn:Ea.
      destruct Ha as (ob' & -> & Hr'). intros [= <-]. split; [|apply Hi]. exists es, ap. split; [|by split]. cbn.
      assert (Hl : orders !! i = Some o).
      { rewrite <- (Nat.add_0_r i). rewrite <- lookup_drop. by rewrite <- Hos. }
      pose proof (lookup_lt_Some _ _ _ Hl). split; [lia|]. split.
      { rewrite (drop_S _ _ _ Hl) in Hos. by injection Hos. }
      exists sp'. split; [|done]. rewrite (take_S_r _ _ _ Hl). unfold spec_session in *.
      rewrite spec_accept_all_app, Hsp, length_take, Nat.min_l by lia. cbn. rewrite Ea, !app_nil_r. done.
    + intros [= <-]. split; [|apply Hi]. exists (es ++ [e]), ap. cbn. split.
      * split; [done|]. split; [done|]. exists sp. by rewrite <- app_assoc.
      * split; [|done]. pose proof (channel_offer _ _ _ _ _ e H2) as Hc. rewrite feed_execution_offer in Hc. apply Hc.
Qed.

Lemma program_step_inv net s s' : inv net s -> step s s' -> inv net s'.
Proof.
  intros Hi [a Ha]. unfold perform in Ha. destruct (alive s); [|done]. destruct a.
  - destruct (running s); [|done]. injection Ha as <-. by apply (inv_same _ s).
  - by eapply main_inv.
  - by eapply udp_inv.
  - by eapply exec_inv.
  - destruct (network s) as [|d rest] eqn:En; [done|]. destruct (bound s); [|done]. injection Ha as <-.
    apply (inv_same _ s); try done. unfold to_come; cbn. rewrite En. cbn [fmap list_fmap concat].
    rewrite fmap_app, concat_app. cbn [fmap list_fmap concat]. by rewrite app_nil_r, <- app_assoc.
  - destruct (network s) as [|d rest] eqn:En; [done|]. injection Ha as <-.
    apply (inv_same _ s); try done. unfold to_come; cbn. rewrite En. cbn [fmap list_fmap concat].
    apply sublist_app; [done|]. apply sublist_app; [done|]. by apply sublist_inserts_l.
Qed.

Lemma program_rtc_inv net s s' : rtc step s s' -> inv net s -> inv net s'.
Proof. induction 1 as [|s1 s2 s3 H1 _ IH]; [done|]. intros Hi. by eapply IH, program_step_inv. Qed.

Lemma program_reachable_inv net s : rtc step (launch net) s -> inv net s.
Proof. intros Hs. eapply program_rtc_inv; [exact Hs|]. apply inv_launch. Qed.

(** ** Progress

    Once the signal has come, every step uses something up.  An execution still
    to be reported counts for its push and its pop, a datagram for its way
    through the UDP thread and the pop of its tick. *)

Definition to_report (ob : OrderBook) (i : nat) (os : list Order) : nat :=
  match accept_all (Some record_execution) match_now i ob [] os with Some (_, es) => length es | None => 0 end.

Definition exec_work (x : exec_pc) : nat :=
  match x with
  | EStart => 2 + 2 * to_report OrderBook_new 0 orders + length orders
  | ERun ob i os out => 1 + 2 * length out + 2 * to_report ob i os + length os
  | EDone _ | EThrows => 0
  end.

Definition udp_work (pc : udp_pc) : nat :=
  match pc with
  | USocket => 5 | USetRunning => 4 | UTest => 3 | URecv => 2 | UHandle _ => 6 | UClosed | UFailed => 0
  end.

Definition main_work (pc : main_pc) : nat :=
  match pc with
  | MTicks _ => 9 | MExecs _ _ => 8 | MClock => 7 | MLoop => 6
  | MStopMetrics => 5 | MStopFeed => 4 | MJoinUdp => 3 | MJoinExec => 2 | MReport => 1 | MExit _ => 0
  end.

Definition work (s : Program) : nat :=
  main_work (main_ s) + exec_work (exec s) + udp_work (udp s) + 5 * length (inbox s) + 6 * length (network s) +
  Z.to_nat (size (tickQueue (ticks s))) + Z.to_nat (size (execQueue (execs s))).

Lemma to_report_spec ob sp i os : refines ob sp ->
  to_report ob i os = length (spec_accept_all match_now i sp os).2.
Proof.
  intros H. unfold to_report.
  pose proof (accept_all_refines (Some record_execution) match_now os i ob sp [] H) as Ha.
  destruct (spec_accept_all match_now i sp os) as [sp' es]. destruct Ha as (ob' & -> & _). by rewrite foldl_record.
Qed.

Lemma offer_size {T} (z : T) q d x offered applied : channel z q d offered applied ->
  (Z.to_nat (size (offer x (q, d)).1) <= S (Z.to_nat (size q)))%nat.
Proof.
  intros H. pose proof (channel_offer z q d offered applied x H) as Ho. pose proof (channel_size _ _ _ _ _ H).
  destruct (offer x (q, d)). cbn [fst]. lia.
Qed.

Lemma exec_progress net s s' : inv net s -> exec_turn s = Some s' -> (work s' < work s)%nat.
Proof.
  intros Hi. destruct (inv_execs _ _ Hi) as (es & ap & H1 & H2 & _). unfold exec_turn, work.
  destruct (exec s) as [|ob i os out| |] eqn:Ex; try done.
  - intros [= <-]. cbn [exec set_exec]. destruct (file_opens (ERun OrderBook_new 0 orders []) EThrows) as [[] ->]; cbn; lia.
  - destruct H1 as (_ & _ & sp & _ & Hr). destruct out as [|e out]; [destruct os as [|o os]|].
    + intros [= <-]. cbn. lia.
    + pose proof (accept_recorded i ob sp o Hr) as Ha. cbn [exec_work]. rewrite (to_report_spec _ _ _ _ Hr).
      cbn [spec_accept_all]. destruct (spec_accept (match_now i) sp o) as [sp' es'].
      destruct Ha as (ob' & -> & Hr'). intros [= <-]. cbn [exec set_exec exec_work]. cbn.
      rewrite (to_report_spec _ _ _ _ Hr'). destruct (spec_accept_all _ _ _ _). cbn. rewrite length_app. lia.
    + intros [= <-]. cbn. pose proof (offer_size _ _ _ e _ _ H2) as Ho.
      rewrite feed_execution_offer in Ho. cbn [fst] in Ho. lia.
Qed.

Lemma udp_progress net s s' : inv net s -> udp_turn s = Some s' -> (work s' < work s)%nat.
Proof.
  intros Hi. destruct (inv_ticks _ _ Hi) as (ts & ap & _ & H & _). unfold udp_turn, work.
  destruct (udp s) as [| | | |data| |] eqn:Eu; try done.
  - intros [= <-]. cbn. destruct socket_ok; cbn; lia.
  - intros [= <-]. cbn. lia.
  - intros [= <-]. cbn. destruct (feed_running s); cbn; lia.
  - destruct (inbox s) as [|[data|] rest] eqn:Ei; [done| |]; intros [= <-]; cbn; lia.
  - rewrite handle_arrivals. destruct (arrivals (Some data)) as [|t l]; intros [= <-]; cbn; [lia|].
    pose proof (offer_size _ _ _ t _ _ H) as Ho. rewrite (feed_tick_offer (tick_now (calls s))) in Ho.
    cbn [fst] in Ho. lia.
Qed.

Lemma main_progress net due s s' : inv net s -> running s = false -> main_turn due s = Some s' ->
  (work s' < work s)%nat.
Proof.
  intros Hi Hr. destruct (inv_execs _ _ Hi) as (es & ap & _ & He & _).
  destruct (inv_ticks _ _ Hi) as (ts & apt & _ & Ht & _). unfold main_turn, work.
  destruct (main_ s) eqn:Em; try done.
  - rewrite Hr. intros [= <-]. cbn. lia.
  - intros [= <-]. pose proof (channel_pop _ _ _ _ _ Ht) as Hp.
    destruct (pop Tick_zero _) as [[t|] q]; cbn; lia.
  - intros [= <-]. pose proof (channel_pop _ _ _ _ _ He) as Hp.
    destruct (pop Execution_zero _) as [[t|] q]; cbn; lia.
  - intros [= <-]. destruct due; cbn; lia.
  - intros [= <-]. cbn. lia.
  - intros [= <-]. cbn. lia.
  - destruct (udp s) eqn:Eu; try done. intros [= <-]. cbn. rewrite Eu. cbn. lia.
  - destruct (exec s) eqn:Ex; try done. intros [= <-]. cbn. rewrite Ex. cbn. lia.
  - intros [= <-]. cbn. lia.
Qed.

Lemma perform_running a s s' : perform a s = Some s' -> running s = false -> running s' = false.
Proof.
  unfold perform, main_turn, udp_turn, exec_turn, after_report. intros H Hr.
  repeat (case_match; simplify_eq/=; try done).
Qed.

Lemma program_step_progress net s s' : inv net s -> running s = false -> step s s' ->
  running s' = false /\ (work s' < work s)%nat.
Proof.
  intros Hi Hr [a Ha]. split; [by eapply perform_running|]. unfold perform in Ha. destruct (alive s); [|done].
  destruct a; [by rewrite Hr in Ha|by eapply main_progress|by eapply udp_progress|by eapply exec_progress| |].
  - destruct (network s) as [|d rest] eqn:En; [done|]. destruct (bound s); [|done]. injection Ha as <-.
    unfold work; cbn. rewrite En, length_app. cbn. lia.
  - destruct (network s) as [|d rest] eqn:En; [done|]. injection Ha as <-. unfold work; cbn. rewrite En. cbn. lia.
Qed.

Lemma signalled_sn net s : inv net s -> running s = false -> sn step s.
Proof.
  intros Hi Hr. apply (measure_sn step (fun s => inv net s /\ running s = false) work); [|done].
  intros x y [Hx Hx'] Hs. destruct (program_step_progress net x y Hx Hx' Hs) as [H1 H2].
  split; [|done]. split; [by eapply program_step_inv|done].
Qed.

(** ** Where the program can stop *)

Definition exited (s : Program) : Prop := exists report, main_ s = MExit report.

Definition aborted (s : Program) : Prop := udp s = UFailed \/ exec s = EThrows.

(** Everything is done but [recvfrom], which waits for a datagram. *)
Definition hung (s : Program) : Prop :=
  main_ s = MJoinUdp /\ udp s = URecv /\ inbox s = [] /\ network s = [] /\ exists ob, exec s = EDone ob.

Lemma exec_stuck net s : inv net s -> exec_turn s = None -> exec s = EThrows \/ exists ob, exec s = EDone ob.
Proof.
  intros Hi. destruct (inv_execs _ _ Hi) as (es & ap & H1 & _). unfold exec_turn.
  destruct (exec s) as [|ob i [|o os] [|e out]| |]; try done; [|by right; exists ob|by left].
  destruct H1 as (_ & _ & sp & _ & Hr). pose proof (accept_recorded i ob sp o Hr) as Ha.
  destruct (spec_accept _ _ _) as [sp' es']. by destruct Ha as (ob' & -> & _).
Qed.

Lemma udp_stuck s : udp_turn s = None -> udp s = URecv /\ inbox s = [] \/ udp s = UClosed \/ udp s = UFailed.
Proof.
  unfold udp_turn. destruct (udp s); try done; try tauto.
  - destruct (inbox s) as [|[data|] rest]; try done. tauto.
  - by rewrite handle_arrivals; destruct (arrivals _).
Qed.

Lemma main_stuck s : main_turn false s = None -> exited s \/ main_ s = MJoinUdp /\ udp s <> UClosed \/
  main_ s = MJoinExec /\ forall ob, exec s <> EDone ob.
Proof.
  unfold main_turn, exited. destruct (main_ s) eqn:Em; try done.
  - destruct (udp s); try done; by right; left.
  - destruct (exec s); try done; by right; right.
  - left. by eexists.
Qed.

Lemma not_alive s : alive s = false -> exited s \/ aborted s.
Proof.
  unfold alive, exited, aborted. destruct (udp s); try (by auto);
    (destruct (exec s); try (by auto)); (destruct (main_ s); try done); intros _; left; by eexists.
Qed.

Lemma stuck net s : inv net s -> nf step s -> exited s \/ aborted s \/ hung s.
Proof.
  intros Hi Hnf. destruct (alive s) eqn:Ha; [|destruct (not_alive s Ha); tauto].
  assert (Hno : forall a, perform a s = None).
  { intros a. destruct (perform a s) as [s'|] eqn:E; [|done]. exfalso. apply Hnf. by exists s', a. }
  pose proof (Hno (Main false)) as Hm. pose proof (Hno Udp) as Hu. pose proof (Hno Exec) as Hx.
  pose proof (Hno Deliver) as Hd. unfold perform in *. rewrite Ha in *.
  apply (exec_stuck net s Hi) in Hx as [Hx|[ob Hx]]; [by right; left; right|].
  apply udp_stuck in Hu as [[Hu Hb]|[Hu|Hu]]; [| |by right; left; left];
    apply main_stuck in Hm as [Hm|[[Hm Hm']|[Hm Hm']]]; try (by left); try done; try (by destruct (Hm' ob)).
  right. right. split_and!; try done; [|by exists ob].
  destruct (network s); [done|]. unfold bound in Hd. by rewrite Hu in Hd.
Qed.

Lemma prefix_reported x es : reported x es -> es `prefix_of` (spec_session match_now orders).2.
Proof.
  destruct x as [|ob i os out|ob|]; cbn; try (intros ->; apply prefix_nil).
  - intros (Hle & _ & sp & Hsp & _). rewrite <- (take_drop i orders). unfold spec_session in *.
    rewrite spec_accept_all_app, Hsp. destruct (spec_accept_all match_now _ sp _) as [sp2 es2]. cbn.
    exists (out ++ es2). by rewrite app_assoc.
  - by intros (sp & -> & _).
Qed.

(** On the way out: the UDP thread is past its last [recvfrom], or will be. *)
Definition unblocked (s : Program) : Prop :=
  (exists ob, exec s = EDone ob) /\ feed_running s = false /\ network s = [] /\
  match udp s, main_ s with
  | URecv, MJoinUdp => inbox s <> []
  | UHandle _, MJoinUdp | UTest, MJoinUdp => True
  | UClosed, (MJoinUdp | MJoinExec | MReport | MExit _) => True
  | _, _ => False
  end.

Lemma unblocked_step s s' : step s s' -> unblocked s -> unblocked s'.
Proof.
  intros [a Ha] ((ob & Hx) & Hf & Hn & Hp). unfold perform in Ha. destruct (alive s); [|done].
  destruct a; rewrite ?Hn in Ha; try done.
  - destruct (running s); [|done]. injection Ha as <-. split_and!; try done. by exists ob.
  - unfold main_turn in Ha. rewrite Hx in Ha. unfold unblocked in *.
    destruct (main_ s), (udp s) eqn:Eu; try done; injection Ha as <-; cbn; rewrite Eu; split_and!; try done; by exists ob.
  - unfold udp_turn in Ha. rewrite Hf in Ha. unfold unblocked in *. destruct (udp s) eqn:Eu; try done.
    + injection Ha as <-. cbn. split_and!; try done; try (by exists ob); by destruct (main_ s).
    + destruct (inbox s) as [|[data|] rest]; [done| |]; injection Ha as <-; cbn;
        (split_and!; try done; try (by exists ob); by destruct (main_ s)).
    + rewrite handle_arrivals in Ha. destruct (arrivals _); injection Ha as <-; cbn;
        (split_and!; try done; try (by exists ob); by destruct (main_ s)).
  - unfold exec_turn in Ha. by rewrite Hx in Ha.
Qed.

Lemma unblocked_exits net s : inv net s -> unblocked s -> nf step s -> exited s.
Proof.
  intros Hi ((ob & Hx) & _ & _ & Hp) Hnf. destruct (stuck net s Hi Hnf) as [H|[[H|H]|(Hm & Hu & Hb & _)]]; [done| | |].
  - by rewrite H in Hp.
  - by rewrite H in Hx.
  - by rewrite Hu, Hm in Hp.
Qed.

(** The loop goes on: [stop] came before the store of [true]. *)
Definition deaf (s : Program) : Prop :=
  main_ s = MJoinUdp /\ feed_running s = true /\
  match udp s with UTest | URecv | UHandle _ => True | _ => False end /\
  Forall (fun d => d <> None) (inbox s ++ network s).

Lemma deaf_step s s' : step s s' -> deaf s -> deaf s'.
Proof.
  intros [a Ha] (Hm & Hf & Hu & Hd). unfold perform in Ha. destruct (alive s); [|done].
  apply Forall_app in Hd as [Hb Hn]. destruct a.
  - destruct (running s); [|done]. injection Ha as <-. split_and!; try done. by apply Forall_app.
  - unfold main_turn in Ha. rewrite Hm in Ha. by destruct (udp s).
  - unfold udp_turn in Ha. rewrite Hf in Ha. unfold deaf. destruct (udp s); try done.
    + injection Ha as <-. cbn. split_and!; try done. by apply Forall_app.
    + destruct (inbox s) as [|[data|] rest]; [done| |by apply Forall_cons in Hb as [? _]].
      injection Ha as <-. cbn. split_and!; try done. apply Forall_app. by apply Forall_cons in Hb as [_ ?].
    + rewrite handle_arrivals in Ha. destruct (arrivals _); injection Ha as <-; cbn; (split_and!; try done; by apply Forall_app).
  - destruct (exec s) as [|ob i [|o os] [|e out]| |] eqn:Ex; unfold exec_turn in Ha; rewrite Ex in Ha; try done;
      try (destruct (acceptNewOrder _ _ _ _ _) as [[? ?]|]; [|done]);
      injection Ha as <-; (split_and!; try done; by apply Forall_app).
  - destruct (network s) as [|d rest]; [done|]. destruct (bound s); [|done]. injection Ha as <-.
    split_and!; try done. cbn. rewrite <- app_assoc. by apply Forall_app.
  - destruct (network s) as [|d rest]; [done|]. injection Ha as <-. split_and!; try done. cbn.
    apply Forall_app. by apply Forall_cons in Hn as [_ ?].
Qed.

(** The execution thread reads the file. *)
Lemma exec_begins data s : orders_file = Contents data -> alive s = true -> exec s = EStart ->
  step s (set_exec (ERun OrderBook_new 0 orders []) s).
Proof.
  intros Hf Ha Hx. exists Exec. unfold perform. rewrite Ha. unfold exec_turn. rewrite Hx.
  unfold orders. by rewrite Hf.
Qed.

(** The execution thread from a point of its loop to its end. *)
Lemma exec_finishes os : forall out s ob i sp, alive s = true -> exec s = ERun ob i os out -> refines ob sp ->
  exists ob', rtc step s (set_exec (EDone ob') (set_queues (ticks s)
    (foldl (fun f e => notify (Some feed_execution) e f) (execs s) (out ++ (spec_accept_all match_now i sp os).2)) s)).
Proof.
  assert (Halive : forall s x q, alive s = true -> x <> EThrows -> alive (set_exec x (set_queues (ticks s) q s)) = true).
  { intros s x q. unfold alive; cbn. destruct (udp s); try done; destruct (exec s), x; try done; by destruct (main_ s). }
  induction os as [|o os IHos]; intros out; induction out as [|e out IHout]; intros s ob i sp Ha Hx Hr.
  - exists ob. apply rtc_once. exists Exec. unfold perform. rewrite Ha. unfold exec_turn. rewrite Hx. by destruct s as [? ? ? ? [] ? ? ? ? ? ?].
  - destruct (IHout (set_exec (ERun ob i [] out) (set_queues (ticks s) (feed_execution e (execs s)) s)) ob i sp)
      as [ob' H]; [by apply Halive|done|done|].
    exists ob'. eapply rtc_l; [exists Exec; unfold perform; rewrite Ha; unfold exec_turn; rewrite Hx; reflexivity|exact H].
  - pose proof (accept_recorded i ob sp o Hr) as Hacc. cbn [spec_accept_all].
    destruct (spec_accept (match_now i) sp o) as [sp' es] eqn:Es. destruct Hacc as (ob1 & Hob & Hr').
    destruct (IHos es (set_exec (ERun ob1 (S i) os es) (set_queues (ticks s) (execs s) s)) ob1 (S i) sp')
      as [ob' H]; [by apply Halive|done|done|].
    exists ob'. eapply rtc_l; [exists Exec; unfold perform; rewrite Ha; unfold exec_turn; rewrite Hx, Hob; reflexivity|].
    destruct (spec_accept_all match_now (S i) sp' os). exact H.
  - destruct (IHout (set_exec (ERun ob i (o :: os) out) (set_queues (ticks s) (feed_execution e (execs s)) s)) ob i sp)
      as [ob' H]; [by apply Halive|done|done|].
    exists ob'. eapply rtc_l; [exists Exec; unfold perform; rewrite Ha; unfold exec_turn; rewrite Hx; reflexivity|exact H].
Qed.

(** ** The cold path undisturbed

    When the other threads pause, the main thread goes through a whole cycle of
    [System]. *)

Definition set_prices (px : prices) (c : Cold) : Cold :=
  mkCold px (matchLatency c) (positionManager c) (totalDrainCycles c)
    (maxTickBatch c) (maxExecBatch c) (maxTickQueueDepth c) (maxExecQueueDepth c) (spin c).

Definition set_positions (h : LatencyTracker) (pm : positions) (c : Cold) : Cold :=
  mkCold (latestPrices c) h pm (totalDrainCycles c)
    (maxTickBatch c) (maxExecBatch c) (maxTickQueueDepth c) (maxExecQueueDepth c) (spin c).

Lemma main_step due s s' : alive s = true -> main_turn due s = Some s' -> step s s'.
Proof. intros Ha Hm. exists (Main due). unfold perform. by rewrite Ha. Qed.

Lemma alive_main pc c t e s : alive s = true -> (forall r, pc <> MExit r) ->
  alive (set_main pc c (set_queues t e s)) = true.
Proof.
  unfold alive; cbn. intros Ha Hpc. destruct (udp s), (exec s); try done; destruct pc; try done; by destruct (Hpc report).
Qed.

Lemma ticks_alone l : forall n b s, alive s = true -> main_ s = MTicks b ->
  queue_rep Tick_zero (tickQueue (ticks s)) l -> (length l < n)%nat ->
  let '(q, (px, b')) := drain Tick_zero n on_tick (tickQueue (ticks s)) (latestPrices (cold s), b) in
  rtc step s (set_main (MExecs b' 0) (ticks_drained b' (set_prices px (cold s)))
    (set_queues (mkTickFeed q (tickHotLatency (ticks s)) (droppedTicks (ticks s))) (execs s) s)).
Proof.
  induction l as [|t l IH]; intros [|n] b s Ha Hm Hq Hn; cbn [length] in Hn; try lia; cbn [drain];
    pose proof (pop_rep _ _ _ Hq) as Hp.
  - rewrite Hp. apply rtc_once. apply (main_step false); [done|]. unfold main_turn. rewrite Hm, Hp.
    by destruct s as [? ? [] [] ? ? ? ? ? ? ?].
  - destruct Hp as (q & Hp & _ & Hq'). rewrite Hp. cbn [on_tick].
    set (s1 := set_main (MTicks (wrap_u64 (b + 1))) (cold_tick t (cold s))
      (set_queues (mkTickFeed q (tickHotLatency (ticks s)) (droppedTicks (ticks s))) (execs s) s)).
    specialize (IH n (wrap_u64 (b + 1)) s1 ltac:(by apply alive_main) eq_refl Hq' ltac:(lia)).
    unfold on_tick at 2; cbn [fst snd]. change (onTick (latestPrices (cold s)) t) with (latestPrices (cold s1)).
    change q with (tickQueue (ticks s1)). destruct (drain _ _ _ _ _) as [q' [px b']].
    eapply rtc_l; [|exact IH]. apply (main_step false); [done|]. unfold main_turn. by rewrite Hm, Hp.
Qed.

Lemma execs_alone l : forall n b k s, alive s = true -> main_ s = MExecs b k ->
  queue_rep Execution_zero (execQueue (execs s)) l -> (length l < n)%nat ->
  let '(q, (h, pm, k')) := drain Execution_zero n on_exec (execQueue (execs s))
    (matchLatency (cold s), positionManager (cold s), k) in
  rtc step s (set_main MClock (execs_drained b k' (set_positions h pm (cold s)))
    (set_queues (ticks s) (mkFeed q (droppedExecs (execs s))) s)).
Proof.
  induction l as [|e l IH]; intros [|n] b k s Ha Hm Hq Hn; cbn [length] in Hn; try lia; cbn [drain];
    pose proof (pop_rep _ _ _ Hq) as Hp.
  - rewrite Hp. apply rtc_once. apply (main_step false); [done|]. unfold main_turn. rewrite Hm, Hp.
    by destruct s as [? ? [] ? [] ? ? ? ? ? ?].
  - destruct Hp as (q & Hp & _ & Hq'). rewrite Hp.
    set (s1 := set_main (MExecs b (wrap_u64 (k + 1))) (cold_exec e (cold s))
      (set_queues (ticks s) (mkFeed q (droppedExecs (execs s))) s)).
    specialize (IH n b (wrap_u64 (k + 1)) s1 ltac:(by apply alive_main) eq_refl Hq' ltac:(lia)).
    unfold on_exec at 2; cbn [fst snd].
    change (record _ _) with (matchLatency (cold s1)). change (onExecution _ _) with (positionManager (cold s1)).
    change q with (execQueue (execs s1)). destruct (drain _ _ _ _ _) as [q' [[h pm] k']].
    eapply rtc_l; [|exact IH]. apply (main_step false); [done|]. unfold main_turn. by rewrite Hm, Hp.
Qed.

End Program.

