(* ===== verification/ProgramProps.v ===== *)
(** * The threads of the program: what holds

    What the cold path sees, how the program ends, and how it may not. *)

From S2P Require Import Prelude Threads Float64 CString Messages PriceTick OrderBook OrderBookSpec.
From S2P Require Import OrderBookRefinement OrderBookProps FixParser SpscQueue MarketDispatcher Wire.
From S2P Require Import LatencyTracker PositionManager VolSurface RiskEngine System Program ProgramInvariant.


Local Open Scope Z_scope.

(** The step of one thread, from a state that is written out. *)
Ltac turn a := eapply rtc_l;
  [exists a; unfold perform, udp_turn, exec_turn; cbn; try match goal with H : _ = true |- _ => rewrite H end;
   unfold set_main, set_udp, set_net, set_calls, set_queues, set_exec, handleSignal; cbn; reflexivity|].

(** ** Claims *)

Section Claims.
Variable entries : positions -> list (bytes * Position double).
Variable parse_now : nat -> Z.
Variable match_now : nat -> nat -> Z.
Variable tick_now : nat -> Z.
Variable socket_ok : bool.
Variable orders_file : file.

Abbreviation program_step := (step entries parse_now match_now tick_now socket_ok orders_file).

(** The executions of the specification on the orders of the file. *)
Definition file_executions : list Execution := (spec_session match_now (orders parse_now orders_file)).2.

(** The ways in which the program stops. *)
Definition at_rest (s : Program) : Prop := exited s \/ aborted s \/ hung s.

(** C4. In every interleaving of the threads, and whatever the network
    delivers or loses, the cold path sees what the hot paths produce in order
    and once: the positions are those of some executions of the specification,
    the queue holds later ones, those left out have been dropped and counted;
    and the prices are those of ticks that have arrived, in their order. *)
Theorem cold_path_in_order (net : list (option bytes)) (s : Program) :
  rtc program_step (launch net) s ->
  exists applied queued seen waiting,
    positionManager (cold s) = run_executions PositionManager_new applied /\
    queue_rep Execution_zero (execQueue (execs s)) queued /\
    sublist (applied ++ queued) file_executions /\
    (forall ob, exec s = EDone ob -> wrap_u64 (droppedExecs (execs s)) =
      wrap_u64 (Z.of_nat (length file_executions) - Z.of_nat (length (applied ++ queued)))) /\
    latestPrices (cold s) = foldl onTick ∅ seen /\
    queue_rep Tick_zero (tickQueue (ticks s)) waiting /\
    sublist (seen ++ waiting) (concat (arrivals <$> net)).
Proof.
  intros Hs. apply program_reachable_inv in Hs as [(es & ap & H1 & (l & Hq & Hl & Hd) & H3) (ts & apt & H4 & (lt & Hqt & Hlt & _) & H6)].
  exists ap, l, apt, lt. split_and!; try done.
  - etrans; [exact Hl|]. unfold file_executions. apply prefix_reported in H1 as [k ->]. by apply sublist_inserts_r.
  - intros ob Ho. rewrite Ho in H1. destruct H1 as (sp & Hsp & _). rewrite Hd. unfold file_executions. by rewrite Hsp.
  - etrans; [exact Hlt|]. etrans; [|exact H4]. by apply sublist_inserts_r.
Qed.

(** The steps of the main thread refine the sequential cycle: when the
    other threads pause, it goes from the test of the loop back to it with the
    state of [cold_cycle]. *)
Theorem cycle_undisturbed (surf : surface) (due : bool) (s : Program) (ts : list Tick) (es : list Execution) :
  alive s = true -> running s = true -> main_ s = MLoop ->
  queue_rep Tick_zero (tickQueue (ticks s)) ts -> queue_rep Execution_zero (execQueue (execs s)) es ->
  let '(c, sh, _, _) := cold_cycle surf entries due (cold s) (mkShared (ticks s) (execs s)) in
  rtc program_step s (set_main MLoop c (set_queues (sh_ticks sh) (sh_execs sh) s)).
Proof.
  intros Ha Hr Hm Ht He. destruct s as [rn mn c tf ef fr u k ib nw x]. cbn [running main_ cold ticks execs] in *. subst rn mn.
  unfold cold_cycle, drain_cycle. cbn [sh_ticks sh_execs].
  set (c0 := cycle_begin (size (tickQueue tf)) (size (execQueue ef)) c).
  set (s0 := mkProgram true (MTicks 0) c0 tf ef fr u k ib nw x).
  assert (Hs0 : program_step (mkProgram true MLoop c tf ef fr u k ib nw x) s0) by (by apply (main_step _ _ _ _ _ _ false)).
  pose proof (ticks_alone entries parse_now match_now tick_now socket_ok orders_file ts (drain_fuel (tickQueue tf))
    0 s0 Ha eq_refl Ht ltac:(unfold drain_fuel; rewrite (size_rep _ _ _ Ht); lia)) as Hd.
  cbn [s0 cold ticks] in Hd. change (latestPrices c0) with (latestPrices c) in Hd.
  destruct (drain Tick_zero _ _ _ _) as [tq [px tb]].
  set (c1 := ticks_drained tb (set_prices px c0)) in Hd. set (tf1 := mkTickFeed tq _ _) in Hd.
  set (s1 := mkProgram true (MExecs tb 0) c1 tf1 ef fr u k ib nw x).
  pose proof (execs_alone entries parse_now match_now tick_now socket_ok orders_file es (drain_fuel (execQueue ef))
    tb 0 s1 Ha eq_refl He ltac:(unfold drain_fuel; rewrite (size_rep _ _ _ He); lia)) as Hx.
  cbn [s1 cold execs] in Hx. change (matchLatency c1) with (matchLatency c) in Hx.
  change (positionManager c1) with (positionManager c) in Hx.
  destruct (drain Execution_zero _ _ _ _) as [eq [[h pm] eb]].
  set (c2 := execs_drained tb eb (set_positions h pm c1)) in Hx. set (ef2 := mkFeed eq _) in Hx.
  set (s2 := mkProgram true MClock c2 tf1 ef2 fr u k ib nw x).
  assert (Hrun : forall s3, main_turn entries due s2 = Some s3 -> rtc program_step (mkProgram true MLoop c tf ef fr u k ib nw x) s3).
  { intros s3 H3. eapply rtc_l; [exact Hs0|]. etrans; [exact Hd|]. etrans; [exact Hx|]. apply rtc_once.
    by apply (main_step _ _ _ _ _ _ due). }
  assert (Hc2 : c2 = mkCold px h pm (wrap_u64 (totalDrainCycles c + 1))
    (if maxTickBatch c <? tb then tb else maxTickBatch c) (if maxExecBatch c <? eb then eb else maxExecBatch c)
    (maxTickQueueDepth c0) (maxExecQueueDepth c0) (next_spin ((0 <? tb) || (0 <? eb)) (spin c)).1) by reflexivity.
  destruct (next_spin _ _) as [sp act]. cbn [fst] in Hc2. clearbody c2.
  destruct due; apply Hrun; unfold main_turn, s2; cbn [main_]; rewrite Hc2; reflexivity.
Qed.

(** C6. Shutdown: once the signal has come, no schedule of the threads goes on
    for ever, whatever is queued or on the network; and the program stops only
    when it has exited, when it has aborted (no socket, no order file), or when
    the main thread waits for a UDP thread that waits for a datagram. *)
Theorem shutdown_ends (net : list (option bytes)) (s : Program) :
  rtc program_step (launch net) s -> running s = false ->
  sn program_step s /\
  forall s', rtc program_step s s' -> nf program_step s' -> at_rest s'.
Proof.
  intros Hs Hr. split; [eapply signalled_sn; [by eapply program_reachable_inv|done]|].
  intros s' Hs' Hnf. eapply stuck; [|exact Hnf]. eapply program_reachable_inv. by etrans.
Qed.

(** A program that waits for a datagram exits when one arrives, if [stop]
    has been seen: whatever the datagram is, every schedule ends in the exit. *)
Theorem datagram_unblocks (net : list (option bytes)) (s : Program) (d : option bytes) :
  rtc program_step (launch net) s -> hung s -> running s = false -> feed_running s = false ->
  let s1 := set_net [d] [] s in
  sn program_step s1 /\ forall s', rtc program_step s1 s' -> nf program_step s' -> exited s'.
Proof.
  intros Hs Hh Hr Hf s1.
  assert (Hi : inv parse_now match_now orders_file (net ++ [d]) s1).
  { apply program_reachable_inv in Hs as [He (ts & ap & H4 & H5 & H6)]. split; [exact He|]. exists ts, ap.
    split; [|by split]. destruct Hh as (_ & Hu & Hb & Hn & _). unfold to_come in *; cbn in *.
    rewrite Hu, Hb, Hn in *. cbn in *. rewrite fmap_app, concat_app. rewrite !app_nil_r in *.
    cbn. rewrite app_nil_r. by apply sublist_app. }
  assert (Hgood : unblocked s1).
  { destruct Hh as (Hm & Hu & _ & _ & Hx). unfold unblocked; cbn. rewrite Hu, Hm. by split_and!. }
  split; [by eapply signalled_sn|]. intros s' Hs' Hnf. eapply unblocked_exits; [by eapply program_rtc_inv| |exact Hnf].
  clear Hnf Hi. induction Hs' as [|x y z Hxy _ IH]; [done|]. by eapply IH, unblocked_step.
Qed.

(** A stop can be lost: when the signal comes before the UDP thread has
    set its flag, [stop] has no effect, and the program then never exits,
    whatever arrives, unless [recvfrom] fails. *)
Lemma early_stop_lost (net : list (option bytes)) :
  socket_ok = true -> Forall (fun d => d <> None) net ->
  exists s, rtc program_step (launch net) s /\ running s = false /\ main_ s = MJoinUdp /\
    forall s', rtc program_step s s' -> ~ exited s'.
Proof.
  intros Hok Hnet.
  set (acts := [Signal; Main false; Main false; Main false; Udp; Udp]).
  assert (Hrun : exists s, run entries parse_now match_now tick_now socket_ok orders_file acts (launch net) = Some s /\
    running s = false /\ deaf s).
  { rewrite Hok. eexists. split; [reflexivity|]. by split_and!. }
  destruct Hrun as (s & Hrun & Hr & Hd). exists s. split; [by eapply run_steps|]. split; [done|].
  split; [apply Hd|]. intros s' Hs' [rep Hrep].
  assert (Hd' : deaf s').
  { clear Hrep Hrun Hr. induction Hs' as [|x y z Hxy _ IH]; [done|]. by eapply IH, deaf_step. }
  destruct Hd' as [Hm _]. congruence.
Qed.

(** When only the execution thread has run, a signal and one datagram lead to the
    exit. *)
Lemma prompt_exit c tf f ob : socket_ok = true ->
  exists s, rtc program_step (mkProgram true MLoop c tf f false USocket 0 [] [Some []] (EDone ob)) s /\
    main_ s = MExit (final_report entries c) /\ execs s = f.
Proof.
  intros Hok. eexists. split.
  - turn Udp. turn Udp. turn Udp. turn Signal. do 3 turn (Main false). turn Deliver.
    do 3 turn Udp. do 3 turn (Main false). apply rtc_refl.
  - by split.
Qed.

(** The execution thread runs alone, to its end. *)
Lemma file_replayed (net : list (option bytes)) (data : bytes) : orders_file = Contents data ->
  exists ob, rtc program_step (launch net)
    (mkProgram true MLoop Cold_new TickFeed_new (foldl (fun f e => notify (Some feed_execution) e f) Feed_new file_executions)
      false USocket 0 [] net (EDone ob)).
Proof.
  intros Hfile. set (os := orders parse_now orders_file).
  assert (H1 : program_step (launch net) (set_exec (ERun OrderBook_new 0 os []) (launch net)))
    by (by apply (exec_begins _ _ _ _ _ _ data)).
  destruct (exec_finishes entries parse_now match_now tick_now socket_ok orders_file os
    [] (set_exec (ERun OrderBook_new 0 os []) (launch net)) OrderBook_new 0 spec_new) as [ob H2];
    [done|done|apply refines_new|].
  exists ob. eapply rtc_l; [exact H1|exact H2].
Qed.

(** The queues are not drained at the exit: whatever the file, the
    execution thread may finish and the program exit with a report of no
    position at all, while the queue holds the first [capacity - 1] executions
    of the session. *)
Lemma exit_leaves_queue (data : bytes) :
  socket_ok = true -> orders_file = Contents data ->
  exists s, rtc program_step (launch [Some []]) s /\
    main_ s = MExit (final_report entries Cold_new) /\
    queue_rep Execution_zero (execQueue (execs s)) (take queue_room file_executions).
Proof.
  intros Hok Hfile. destruct (file_replayed [Some []] data Hfile) as [ob H2].
  destruct (prompt_exit Cold_new TickFeed_new
    (foldl (fun f e => notify (Some feed_execution) e f) Feed_new file_executions) ob Hok) as (s & H3 & Hm & Hf).
  exists s. split; [|split; [done|]]; [by etrans|]. rewrite Hf, feed_executions. apply offer_fresh.
Qed.

(** C28. Two gaps of the shutdown. When the signal comes before the UDP thread
    has set its flag, [stop] has no effect, and the program then never exits,
    whatever arrives, unless [recvfrom] fails. And the queues are not drained
    at the exit: whatever the file, the execution thread may finish and the
    program exit with a report of no position at all, while the queue holds the
    first [capacity - 1] executions of the session. *)
Theorem shutdown_gaps (net : list (option bytes)) (data : bytes) :
  socket_ok = true -> Forall (fun d => d <> None) net -> orders_file = Contents data ->
  (exists s, rtc program_step (launch net) s /\ running s = false /\ main_ s = MJoinUdp /\
    forall s', rtc program_step s s' -> ~ exited s') /\
  (exists s, rtc program_step (launch [Some []]) s /\
    main_ s = MExit (final_report entries Cold_new) /\
    queue_rep Execution_zero (execQueue (execs s)) (take queue_room file_executions)).
Proof.
  intros Hok Hnet Hfile. split; [exact (early_stop_lost net Hok Hnet)|exact (exit_leaves_queue data Hok Hfile)].
Qed.

End Claims.

(** ** A concrete program *)

Definition example_step : Program -> Program -> Prop :=
  step map_to_list (fun _ => 0) (fun _ _ => 0) (fun _ => 0) true (Contents []).

Definition idle_cold : Cold := cycle_begin 0 0 Cold_new.

Lemma cold_path_in_order_witness : exists s applied queued,
  rtc example_step (launch [Some []]) s /\ main_ s = MExecs 0 0 /\ udp s = UTest /\
  positionManager (cold s) = run_executions PositionManager_new applied /\
  sublist (applied ++ queued) (spec_session (fun _ _ => 0) []).2.
Proof.
  assert (H : exists s, rtc example_step (launch [Some []]) s /\ main_ s = MExecs 0 0 /\ udp s = UTest).
  { unfold example_step, launch. eexists. split.
    - do 3 turn Udp. turn Deliver. do 2 turn Udp. turn Exec. do 2 turn (Main false). apply rtc_refl.
    - by split. }
  destruct H as (s & Hs & Hm & Hu).
  destruct (cold_path_in_order map_to_list (fun _ => 0) (fun _ _ => 0) (fun _ => 0) true (Contents [])
    [Some []] s Hs) as (ap & q & _ & _ & H1 & _ & H2 & _).
  exists s, ap, q. split; [exact Hs|]. split; [exact Hm|]. split; [exact Hu|]. split; [exact H1|exact H2].
Defined.

Lemma shutdown_ends_witness : exists s, rtc example_step (launch [Some []; None]) s /\ running s = false /\
  sn example_step s.
Proof.
  assert (H : exists s, rtc example_step (launch [Some []; None]) s /\ running s = false).
  { unfold example_step, launch. eexists. split; [turn Signal; apply rtc_refl|reflexivity]. }
  destruct H as (s & Hs & Hr). exists s. split; [exact Hs|]. split; [exact Hr|].
  exact (proj1 (shutdown_ends map_to_list (fun _ => 0) (fun _ _ => 0) (fun _ => 0) true (Contents [])
    [Some []; None] s Hs Hr)).
Defined.

Lemma datagram_unblocks_witness : exists s, hung s /\
  forall s', rtc example_step (set_net [Some []] [] s) s' -> nf example_step s' -> exited s'.
Proof.
  assert (H : exists s, rtc example_step (launch []) s /\ hung s /\ running s = false /\ feed_running s = false).
  { unfold example_step, launch. eexists. split.
    - do 3 turn Udp. do 2 turn Exec. turn Signal. do 3 turn (Main false). apply rtc_refl.
    - split; [|by split]. split_and!; try done. by eexists. }
  destruct H as (s & Hs & Hh & Hr & Hf). exists s. split; [exact Hh|].
  exact (proj2 (datagram_unblocks map_to_list (fun _ => 0) (fun _ _ => 0) (fun _ => 0) true (Contents [])
    [] s (Some []) Hs Hh Hr Hf)).
Defined.

Lemma shutdown_gaps_witness :
  (exists s, running s = false /\ main_ s = MJoinUdp /\ forall s', rtc example_step s s' -> ~ exited s') /\
  (exists s, rtc example_step (launch [Some []]) s /\ main_ s = MExit (final_report map_to_list Cold_new)).
Proof.
  assert (Hn : Forall (fun d : option bytes => d <> None) [Some []; Some (B "noise")]) by (repeat constructor; done).
  destruct (shutdown_gaps map_to_list (fun _ => 0) (fun _ _ => 0) (fun _ => 0) true (Contents [])
    [Some []; Some (B "noise")] [] eq_refl Hn eq_refl) as [(s & _ & H1 & H2 & H3) (s' & H4 & H5 & _)].
  split; [exists s; split; [exact H1|split; [exact H2|exact H3]]|exists s'; split; [exact H4|exact H5]].
Defined.

Lemma cycle_undisturbed_witness :
  let t := mkTick (sym8 (B "AAPL")) fzero fzero fzero 7 in
  let s := set_queues (feed_tick 9 t TickFeed_new) Feed_new (launch []) in
  let '(c, sh, _, _) := cold_cycle [] map_to_list false Cold_new (mkShared (ticks s) (execs s)) in
  rtc example_step s (set_main MLoop c (set_queues (sh_ticks sh) (sh_execs sh) s)).
Proof.
  set (t := mkTick (sym8 (B "AAPL")) fzero fzero fzero 7). cbv zeta.
  assert (Hq : queue_rep Tick_zero (tickQueue (feed_tick 9 t TickFeed_new)) [t]).
  { pose proof (push_rep Tick_zero (SpscQueue_new QUEUE_CAPACITY) [] t (queue_rep_new _ QUEUE_CAPACITY eq_refl)) as H.
    cbn [length Z.of_nat Z.eqb] in H. destruct H as (q & H & _ & Hq). unfold feed_tick. cbn [tickQueue TickFeed_new].
    rewrite H. exact Hq. }
  exact (cycle_undisturbed map_to_list (fun _ => 0) (fun _ _ => 0) (fun _ => 0) true (Contents []) [] false
    (set_queues (feed_tick 9 t TickFeed_new) Feed_new (launch [])) [t] [] eq_refl eq_refl eq_refl Hq
    (queue_rep_new _ QUEUE_CAPACITY eq_refl)).
Defined.
