(* ===== verification/ProgramDrain.v ===== *)
(** * The threads of the program, undisturbed by a signal

    The main loop of the program never ends by itself: a turn that finds its
    queue empty, or only looks at the flag and the clock, changes nothing that
    the other threads see.  Between such turns every step uses up work, so that
    the program settles; and once it has settled, the ledger is complete, and so
    is the report of the exit. *)

From Stdlib Require Import Ascii.
From S2P Require Import Prelude Threads Float64 CString Messages PriceTick OrderBook OrderBookSpec.
From S2P Require Import OrderBookRefinement OrderBookProps FixParser SpscQueue MarketDispatcher Wire.
From S2P Require Import LatencyTracker PositionManager VolSurface RiskEngine System Program ProgramInvariant ProgramProps.

Local Open Scope Z_scope.

Section Drain.
Variable entries : positions -> list (bytes * Position double).
Variable parse_now : nat -> Z.
Variable match_now : nat -> nat -> Z.
Variable tick_now : nat -> Z.
Variable socket_ok : bool.
Variable orders_file : file.

Abbreviation inv := (inv parse_now match_now orders_file).
Abbreviation work := (work parse_now match_now orders_file).
Abbreviation main_turn := (main_turn entries).
Abbreviation udp_turn := (udp_turn tick_now socket_ok).
Abbreviation exec_turn := (exec_turn parse_now match_now orders_file).
Abbreviation perform := (perform entries parse_now match_now tick_now socket_ok orders_file).
Abbreviation step := (step entries parse_now match_now tick_now socket_ok orders_file).
Abbreviation file_executions := (file_executions parse_now match_now orders_file).

(** ** Turns that find nothing to do *)

Definition finds_nothing (a : action) (s : Program) : bool :=
  match a, main_ s with
  | Main _, (MLoop | MClock) => true
  | Main _, MTicks _ => match pop Tick_zero (tickQueue (ticks s)) with (None, _) => true | _ => false end
  | Main _, MExecs _ _ => match pop Execution_zero (execQueue (execs s)) with (None, _) => true | _ => false end
  | _, _ => false
  end.

Definition spins (s s' : Program) : Prop := exists a, finds_nothing a s = true /\ perform a s = Some s'.

(** A step of any thread or of the network that is none of these, nor the
    signal. *)
Definition works (s s' : Program) : Prop :=
  exists a, a <> Signal /\ finds_nothing a s = false /\ perform a s = Some s'.

(** Some spins of the main loop, and then something is done. *)
Definition round (s s' : Program) : Prop := exists s1, rtc spins s s1 /\ works s1 s'.

(** The program before the signal. *)
Definition quiet_step (s s' : Program) : Prop := exists a, a <> Signal /\ perform a s = Some s'.

Lemma quiet_spins_or_works s s' : quiet_step s s' <-> spins s s' \/ works s s'.
Proof.
  split.
  - intros (a & Ha & H). destruct (finds_nothing a s) eqn:E; [left|right]; by exists a.
  - intros [(a & E & H)|(a & Ha & _ & H)]; exists a; (split; [|done]); [|done]. by intros ->.
Qed.

Lemma quiet_is_step s s' : quiet_step s s' -> step s s'.
Proof. intros (a & _ & H). by exists a. Qed.

(** ** The main loop *)

Definition in_loop (pc : main_pc) : Prop :=
  match pc with MLoop | MTicks _ | MExecs _ _ | MClock => True | _ => False end.

Record looping (net : list (option bytes)) (s : Program) : Prop := {
  loop_inv : inv net s;
  loop_running : running s = true;
  loop_main : in_loop (main_ s) }.

Lemma udp_turn_main s s' : udp_turn s = Some s' -> main_ s' = main_ s /\ running s' = running s.
Proof.
  unfold udp_turn. destruct (udp s); try done; try (intros [= <-]; by split).
  - destruct (inbox s) as [|[data|] rest]; [done| |]; intros [= <-]; by split.
  - destruct (handle_datagram _ _ _) as [[tf n]|]; [|done]. intros [= <-]. by split.
Qed.

Lemma exec_turn_main s s' : exec_turn s = Some s' -> main_ s' = main_ s /\ running s' = running s.
Proof.
  unfold exec_turn. destruct (exec s) as [|ob i [|o os] [|e out]| |]; try done; try (intros [= <-]; by split).
  destruct (acceptNewOrder _ _ _ _ _) as [[ob' es]|]; [|done]. intros [= <-]. by split.
Qed.

Lemma main_turn_loop due s s' : in_loop (main_ s) -> running s = true -> main_turn due s = Some s' ->
  in_loop (main_ s') /\ running s' = true.
Proof.
  unfold main_turn. destruct (main_ s); try done; intros _ Hr.
  - rewrite Hr. intros [= <-]. by split.
  - destruct (pop _ _) as [[t|] q]; intros [= <-]; by split.
  - destruct (pop _ _) as [[t|] q]; intros [= <-]; by split.
  - destruct due; intros [= <-]; by split.
Qed.

Lemma looping_step net s s' : looping net s -> quiet_step s s' -> looping net s'.
Proof.
  intros [Hi Hr Hm] Hs. assert (H : in_loop (main_ s') /\ running s' = true).
  { destruct Hs as (a & Hns & Ha). unfold perform in Ha. destruct (alive s); [|done]. destruct a; [done| | | | |].
    - by eapply main_turn_loop.
    - apply udp_turn_main in Ha as [-> ->]. by split.
    - apply exec_turn_main in Ha as [-> ->]. by split.
    - destruct (network s); [done|]. destruct (bound s); [|done]. injection Ha as <-. by split.
    - destruct (network s); [done|]. injection Ha as <-. by split. }
  split; [|by destruct H..]. eapply program_step_inv; [exact Hi|]. by apply quiet_is_step.
Qed.

Lemma looping_steps net s s' : rtc quiet_step s s' -> looping net s -> looping net s'.
Proof. induction 1 as [|s1 s2 s3 H1 _ IH]; [done|]. intros Hl. by eapply IH, looping_step. Qed.

Lemma looping_launch net : looping net (launch net).
Proof. split; [apply inv_launch|done|done]. Qed.

(** ** The work that is left *)

(** All but where the main thread is. *)
Definition waiting (s : Program) : nat := work s - main_work (main_ s).

Lemma work_waiting s : work s = (main_work (main_ s) + waiting s)%nat.
Proof. unfold waiting, work. lia. Qed.

Lemma spins_waiting s s' : spins s s' -> waiting s' = waiting s.
Proof.
  intros (a & Hf & Ha). unfold perform in Ha. destruct (alive s); [|done].
  destruct a as [|due| | | |]; try done. unfold finds_nothing in Hf. unfold main_turn in Ha.
  destruct (main_ s) eqn:Em; try done; unfold waiting, work; rewrite Em.
  - injection Ha as <-. destruct (running s); cbn; lia.
  - destruct (pop _ _) as [[t|] q]; [done|]. injection Ha as <-. cbn. lia.
  - destruct (pop _ _) as [[t|] q]; [done|]. injection Ha as <-. cbn. lia.
  - destruct due; injection Ha as <-; cbn; lia.
Qed.

Lemma works_waiting net s s' : looping net s -> works s s' -> (waiting s' < waiting s)%nat.
Proof.
  intros [Hi Hr Hm] (a & Hns & Hf & Ha). unfold perform in Ha. destruct (alive s); [|done].
  destruct a as [|due| | | |]; [done| | | | |].
  - destruct (inv_execs _ _ _ _ _ Hi) as (es & ap & _ & He & _).
    destruct (inv_ticks _ _ _ _ _ Hi) as (ts & apt & _ & Ht & _).
    unfold finds_nothing in Hf. unfold main_turn in Ha. destruct (main_ s) eqn:Em; try done; unfold waiting, work; rewrite Em.
    + pose proof (channel_pop _ _ _ _ _ Ht) as Hp. destruct (pop Tick_zero _) as [[t|] q]; [|done].
      injection Ha as <-. cbn. lia.
    + pose proof (channel_pop _ _ _ _ _ He) as Hp. destruct (pop Execution_zero _) as [[e|] q]; [|done].
      injection Ha as <-. cbn. lia.
  - pose proof (udp_progress parse_now match_now tick_now socket_ok orders_file net s s' Hi Ha) as Hw. apply udp_turn_main in Ha as [Hm' _].
    rewrite !work_waiting, Hm' in Hw. lia.
  - pose proof (exec_progress parse_now match_now tick_now orders_file net s s' Hi Ha) as Hw. apply exec_turn_main in Ha as [Hm' _].
    rewrite !work_waiting, Hm' in Hw. lia.
  - destruct (network s) as [|d rest] eqn:En; [done|]. destruct (bound s); [|done]. injection Ha as <-.
    unfold waiting, work; cbn. rewrite En, length_app. cbn. lia.
  - destruct (network s) as [|d rest] eqn:En; [done|]. injection Ha as <-. unfold waiting, work; cbn. rewrite En. cbn. lia.
Qed.

Lemma spins_looping net s s' : rtc spins s s' -> looping net s -> looping net s' /\ waiting s' = waiting s.
Proof.
  induction 1 as [|s1 s2 s3 H1 _ IH]; [done|]. intros Hl.
  destruct IH as [Hl' Hw]; [eapply looping_step; [exact Hl|]; apply quiet_spins_or_works; by left|].
  split; [done|]. rewrite Hw. by apply spins_waiting.
Qed.

Lemma round_sn net s : looping net s -> sn round s.
Proof.
  apply (measure_sn round (looping net) waiting). intros x y Hx (x1 & Hsp & Hw).
  destruct (spins_looping net x x1 Hsp Hx) as [Hx1 E]. split.
  - eapply looping_step; [exact Hx1|]. apply quiet_spins_or_works. by right.
  - rewrite <- E. by eapply works_waiting.
Qed.

(** ** Where it settles *)

(** Nothing is left to do: the execution thread is done with its file, nothing
    is under way on the network, the UDP thread waits (or has stopped on an
    error of [recvfrom]), and both queues are empty. *)
Record settled (s : Program) : Prop := {
  settled_exec : exists ob, exec s = EDone ob;
  settled_udp : udp s = URecv /\ inbox s = [] \/ udp s = UClosed;
  settled_network : network s = [];
  settled_ticks : queue_rep Tick_zero (tickQueue (ticks s)) [];
  settled_execs : queue_rep Execution_zero (execQueue (execs s)) [] }.

(** The spins of the main loop, up to where it looks at the tick queue, and on
    to the execution queue if that one is empty. *)
Lemma spin_once due s s' : alive s = true -> finds_nothing (Main due) s = true -> main_turn due s = Some s' -> spins s s'.
Proof. intros Ha Hf Hm. exists (Main due). split; [done|]. unfold perform. by rewrite Ha. Qed.

Lemma alive_loop pc c s : alive s = true -> in_loop pc -> alive (set_main pc c s) = true.
Proof. intros Ha Hl. destruct s as [rn mn cd tk ex fr u k ib nw x]. unfold alive in *; cbn in *. by destruct u, x, mn, pc. Qed.

(** From anywhere in the loop the main thread gets to the head of the loop with
    its queues as they are, or finds an item. *)
Definition same_queues (s s' : Program) : Prop :=
  alive s' = true /\ running s' = true /\ tickQueue (ticks s') = tickQueue (ticks s) /\
  execQueue (execs s') = execQueue (execs s).

Lemma spin_to_head s : alive s = true -> running s = true -> in_loop (main_ s) -> nf round s ->
  exists s', rtc spins s s' /\ main_ s' = MLoop /\ same_queues s s'.
Proof.
  assert (Hclock : forall s, alive s = true -> running s = true -> main_ s = MClock ->
    exists s', rtc spins s s' /\ main_ s' = MLoop /\ same_queues s s').
  { intros s1 Ha Hr Hm. exists (set_main MLoop (cold s1) s1). split.
    - apply rtc_once, (spin_once false); [done|unfold finds_nothing; by rewrite Hm|unfold main_turn; by rewrite Hm].
    - split; [done|]. split; [by apply alive_loop|by split_and!]. }
  assert (Hexecs : forall s n k, alive s = true -> running s = true -> main_ s = MExecs n k -> nf round s ->
    exists s', rtc spins s s' /\ main_ s' = MLoop /\ same_queues s s').
  { intros s1 n k Ha Hr Hm Hnf. destruct (pop Execution_zero (execQueue (execs s1))) as [[e|] q] eqn:Ep.
    - destruct Hnf. eexists. exists s1. split; [apply rtc_refl|]. exists (Main false). split; [done|].
      unfold finds_nothing, perform, main_turn. rewrite Ha, Hm, Ep. by split.
    - destruct (Hclock (set_main MClock (execs_drained n k (cold s1)) s1)) as (s2 & H1 & H2 & H3);
        [by apply alive_loop|done|done|]. exists s2. split; [|by split].
      eapply rtc_l; [|exact H1]. apply (spin_once false); [done| |]; unfold finds_nothing, main_turn; by rewrite Hm, Ep. }
  intros Ha Hr Hl Hnf. destruct (main_ s) as [|n|n k| | | | | | |] eqn:Hm; try done.
  - exists s. split; [apply rtc_refl|]. split; [done|]. by split_and!.
  - destruct (pop Tick_zero (tickQueue (ticks s))) as [[t|] q] eqn:Ep.
    + destruct Hnf. eexists. exists s. split; [apply rtc_refl|]. exists (Main false). split; [done|].
      unfold finds_nothing, perform, main_turn. rewrite Ha, Hm, Ep. by split.
    + set (s1 := set_main (MExecs n 0) (ticks_drained n (cold s)) s).
      assert (Hs1 : spins s s1) by (apply (spin_once false); [done| |]; unfold finds_nothing, main_turn; by rewrite Hm, Ep).
      destruct (Hexecs s1 n 0) as (s2 & H1 & H2 & H3); [by apply alive_loop|done|done| |].
      * intros [s2 (s3 & H3 & H4)]. destruct Hnf. exists s2, s3. split; [|done]. by eapply rtc_l.
      * exists s2. split; [by eapply rtc_l|by split].
  - by eapply Hexecs.
  - by apply Hclock.
Qed.

(** When no round is left the queues are empty. *)
Lemma head_empty s : alive s = true -> running s = true -> main_ s = MLoop -> nf round s ->
  (pop Tick_zero (tickQueue (ticks s))).1 = None /\ (pop Execution_zero (execQueue (execs s))).1 = None.
Proof.
  intros Ha Hr Hm Hnf.
  set (s1 := set_main (MTicks 0) (cycle_begin (size (tickQueue (ticks s))) (size (execQueue (execs s))) (cold s)) s).
  assert (H1 : spins s s1) by (apply (spin_once false); [done| |]; unfold finds_nothing, main_turn; by rewrite Hm, ?Hr).
  assert (Ha1 : alive s1 = true) by by apply alive_loop.
  destruct (pop Tick_zero (tickQueue (ticks s))) as [[t|] q] eqn:Et.
  { destruct Hnf. eexists. exists s1. split; [by apply rtc_once|]. exists (Main false). split; [done|].
    unfold finds_nothing, perform, main_turn. rewrite Ha1. cbn [main_ s1 set_main ticks]. rewrite Et. by split. }
  split; [done|]. set (s2 := set_main (MExecs 0 0) (ticks_drained 0 (cold s1)) s1).
  assert (H2 : spins s1 s2)
    by (apply (spin_once false); [done| |]; unfold finds_nothing, main_turn; cbn [main_ s1 set_main ticks]; by rewrite Et).
  assert (Ha2 : alive s2 = true) by by apply alive_loop.
  destruct (pop Execution_zero (execQueue (execs s))) as [[e|] q'] eqn:Ee; [|done].
  destruct Hnf. eexists. exists s2. split; [eapply rtc_l; [exact H1|by apply rtc_once]|]. exists (Main false). split; [done|].
  unfold finds_nothing, perform, main_turn. rewrite Ha2. cbn [main_ s1 s2 set_main execs]. rewrite Ee. by split.
Qed.

Lemma pop_none_empty {T} (z : T) q l : queue_rep z q l -> (pop z q).1 = None -> l = [].
Proof.
  intros Hq. pose proof (pop_rep z q l Hq) as Hp. destruct l as [|x l]; [done|].
  destruct Hp as (q' & -> & _). done.
Qed.

Lemma nf_settled net s : looping net s -> nf round s -> aborted s \/ settled s.
Proof.
  intros [Hi Hr Hl] Hnf. destruct (alive s) eqn:Ha.
  2:{ left. destruct (not_alive s Ha) as [[r Hx]|Hx]; [by rewrite Hx in Hl|done]. }
  assert (Hno : forall a, a <> Signal -> finds_nothing a s = false -> perform a s = None).
  { intros a Hns Hf. destruct (perform a s) as [s'|] eqn:E; [|done]. destruct Hnf. exists s', s.
    split; [apply rtc_refl|]. by exists a. }
  pose proof (Hno Udp ltac:(done) ltac:(done)) as Hu. pose proof (Hno Exec ltac:(done) ltac:(done)) as Hx.
  pose proof (Hno Lose ltac:(done) ltac:(done)) as Hn. unfold perform in *. rewrite Ha in *.
  apply (exec_stuck _ _ _ net s Hi) in Hx as [Hx|Hx]; [by left; right|].
  apply (udp_stuck parse_now match_now) in Hu.
  destruct (network s) eqn:En; [|done].
  destruct (spin_to_head s Ha Hr Hl Hnf) as (s1 & Hs1 & Hm1 & Ha1 & Hr1 & Et & Ee).
  assert (Hnf1 : nf round s1).
  { intros [s2 (s3 & H3 & H4)]. destruct Hnf. exists s2, s3. split; [by etrans|done]. }
  destruct (head_empty s1 Ha1 Hr1 Hm1 Hnf1) as [Ht He]. rewrite Et in Ht. rewrite Ee in He.
  destruct (inv_execs _ _ _ _ _ Hi) as (es & ap & _ & (l & Hq & _) & _).
  destruct (inv_ticks _ _ _ _ _ Hi) as (ts & apt & _ & (lt & Hqt & _) & _).
  pose proof (pop_none_empty _ _ _ Hq He) as ->. pose proof (pop_none_empty _ _ _ Hqt Ht) as ->.
  destruct Hu as [Hu|[Hu|Hu]]; [| |by left; left]; right; (split; try done); auto.
Qed.

(** ** The ledger of a program that has settled *)

(** What the positions and the prices are when the queues are empty. *)
Lemma settled_ledger net s : inv net s -> (exists ob, exec s = EDone ob) -> queue_rep Execution_zero (execQueue (execs s)) [] ->
  exists applied, positionManager (cold s) = run_executions PositionManager_new applied /\
    sublist applied file_executions /\
    wrap_u64 (droppedExecs (execs s)) = wrap_u64 (Z.of_nat (length file_executions) - Z.of_nat (length applied)).
Proof.
  intros Hi [ob Ho] Hq. destruct (inv_execs _ _ _ _ _ Hi) as (es & ap & H1 & (l & Hl & Hs & Hd) & H3).
  assert (l = []) as ->.
  { pose proof (size_rep _ _ _ Hl) as E. rewrite (size_rep _ _ _ Hq) in E. destruct l; [done|cbn in E; lia]. }
  rewrite app_nil_r in *. rewrite Ho in H1. destruct H1 as (sp & Hsp & _). exists ap. unfold file_executions.
  rewrite Hsp. by split_and!.
Qed.

(** With no loss, all of them. *)
Lemma settled_complete net s : inv net s -> (exists ob, exec s = EDone ob) -> queue_rep Execution_zero (execQueue (execs s)) [] ->
  wrap_u64 (droppedExecs (execs s)) = 0 -> Z.of_nat (length file_executions) < 2 ^ 64 ->
  positionManager (cold s) = run_executions PositionManager_new file_executions.
Proof.
  intros Hi Ho Hq Hd Hb. destruct (settled_ledger net s Hi Ho Hq) as (ap & -> & Hs & Hw). f_equal.
  rewrite Hd in Hw. pose proof (sublist_length _ _ Hs) as Hle. rewrite wrap_u_id in Hw by lia.
  apply sublist_full; [done|lia].
Qed.

(** The ledger does not change any more, and the report is that of the ledger. *)
Definition reports (pm : positions) (s : Program) : Prop :=
  (exists ob, exec s = EDone ob) /\ queue_rep Execution_zero (execQueue (execs s)) [] /\ positionManager (cold s) = pm /\
  forall r, main_ s = MExit r -> r = final_report entries (cold s).

Lemma report_of_positions c c' : positionManager c = positionManager c' -> final_report entries c = final_report entries c'.
Proof. unfold final_report, all. by intros ->. Qed.

Lemma main_turn_exit due s s' r : main_turn due s = Some s' -> main_ s' = MExit r -> r = final_report entries (cold s').
Proof.
  unfold main_turn, after_report. intros Ha Hm. destruct (main_ s) eqn:Em; simplify_eq/=; repeat (case_match; simplify_eq/=); done.
Qed.

Lemma main_turn_drained due s s' : (pop Execution_zero (execQueue (execs s))).1 = None -> main_turn due s = Some s' ->
  execQueue (execs s') = execQueue (execs s) /\ positionManager (cold s') = positionManager (cold s) /\ exec s' = exec s.
Proof.
  unfold main_turn, after_report. intros Hp Ha. destruct (main_ s) eqn:Em; simplify_eq/=; repeat (case_match; simplify_eq/=); done.
Qed.

Lemma reports_step pm s s' : step s s' -> reports pm s -> reports pm s'.
Proof.
  intros [a Ha] ([ob Ho] & Hq & Hp & Hr). unfold perform in Ha. destruct (alive s) eqn:Hal; [|done].
  assert (Hpop : (pop Execution_zero (execQueue (execs s))).1 = None) by by rewrite (pop_rep _ _ _ Hq).
  destruct a.
  - destruct (running s); [|done]. injection Ha as <-. split_and!; try done. by exists ob.
  - destruct (main_turn_drained _ _ _ Hpop Ha) as (Eq & Ep & Ex). unfold reports. rewrite Eq, Ep, Ex.
    split_and!; [by exists ob|done|done|]. intros r. by apply (main_turn_exit due s).
  - unfold reports. pose proof (udp_turn_main _ _ Ha) as [-> _]. unfold Program.udp_turn in Ha.
    destruct (udp s); try done; try (injection Ha as <-; split_and!; try done; by exists ob).
    + destruct (inbox s) as [|[data|] rest]; [done| |]; injection Ha as <-; (split_and!; try done; by exists ob).
    + destruct (handle_datagram _ _ _) as [[tf n]|]; [|done]. injection Ha as <-. split_and!; try done; by exists ob.
  - unfold Program.exec_turn in Ha. by rewrite Ho in Ha.
  - destruct (network s); [done|]. destruct (bound s); [|done]. injection Ha as <-. split_and!; try done. by exists ob.
  - destruct (network s); [done|]. injection Ha as <-. split_and!; try done. by exists ob.
Qed.

Lemma reports_steps pm s s' : rtc step s s' -> reports pm s -> reports pm s'.
Proof. induction 1 as [|s1 s2 s3 H1 _ IH]; [done|]. intros Hr. by eapply IH, reports_step. Qed.

(** What the report of the exit is, in any run. *)
Lemma exit_reports net s r : rtc step (launch net) s -> main_ s = MExit r -> r = final_report entries (cold s).
Proof.
  intros Hs. revert r. refine (rtc_ind_r (fun s => forall r, main_ s = MExit r -> r = final_report entries (cold s)) _ _ _ s Hs); [done|].
  clear s Hs. intros s1 s2 _ Hst _ r Hm.
  destruct Hst as [a Ha]. unfold perform in Ha. destruct (alive s1) eqn:Hal; [|done].
  assert (Hne : forall r, main_ s1 <> MExit r).
  { intros r' E. unfold alive in Hal. rewrite E in Hal. by destruct (udp s1), (exec s1). }
  destruct a.
  - destruct (running s1); [|done]. injection Ha as <-. by destruct (Hne r).
  - by eapply main_turn_exit.
  - apply udp_turn_main in Ha as [E _]. rewrite E in Hm. by destruct (Hne r).
  - apply exec_turn_main in Ha as [E _]. rewrite E in Hm. by destruct (Hne r).
  - destruct (network s1); [done|]. destruct (bound s1); [|done]. injection Ha as <-. by destruct (Hne r).
  - destruct (network s1); [done|]. injection Ha as <-. by destruct (Hne r).
Qed.

(** The rows of the report, from a ledger. *)
Definition pnl_rows (pm : positions) : list (bytes * double * double * double) :=
  (fun e : bytes * Position double =>
     (e.1, pos_quantity e.2, averageEntryPrice e.2, realisedPnl e.2)) <$> entries (all pm).

Lemma quiet_steps s s' : rtc quiet_step s s' -> rtc step s s'.
Proof. apply rtc_subrel. intros x y. apply quiet_is_step. Qed.

(** ** Claims *)

(** C7. Before the signal the program does its work and then waits.  In any
    schedule, whatever the network delivers or loses, only turns of the main
    loop that find nothing can go on for ever: between them each step uses up
    work.  And when, after any number of them, nothing more can be done, a
    thread has aborted the program, or the execution thread is done with its
    file, both queues are empty, the UDP thread waits for a datagram or has
    stopped on an error, the positions are those of a subsequence of the
    executions of the specification, those left out having been dropped and
    counted, and the prices those of ticks that have arrived, in their order. *)
Theorem program_settles (net : list (option bytes)) (s : Program) :
  rtc quiet_step (launch net) s ->
  sn round s /\
  (forall s', quiet_step s s' -> spins s s' \/ works s s') /\
  (nf round s -> aborted s \/ settled s /\
    exists applied seen,
      positionManager (cold s) = run_executions PositionManager_new applied /\
      sublist applied file_executions /\
      wrap_u64 (droppedExecs (execs s)) = wrap_u64 (Z.of_nat (length file_executions) - Z.of_nat (length applied)) /\
      latestPrices (cold s) = foldl onTick ∅ seen /\
      sublist seen (concat (arrivals <$> net))).
Proof.
  intros Hs. pose proof (looping_steps net _ _ Hs (looping_launch net)) as Hl.
  split; [by eapply round_sn|]. split; [intros s'; apply quiet_spins_or_works|].
  intros Hnf. destruct (nf_settled net s Hl Hnf) as [H|H]; [by left|right]. split; [done|].
  pose proof (loop_inv _ _ Hl) as Hi.
  destruct (settled_ledger net s Hi (settled_exec _ H) (settled_execs _ H)) as (ap & H1 & H2 & H3).
  destruct (inv_ticks _ _ _ _ _ Hi) as (ts & apt & H4 & (lt & _ & Hlt & _) & H6).
  exists ap, apt. split_and!; try done. etrans; [|etrans; [exact H4|done]].
  apply sublist_inserts_r. etrans; [|exact Hlt]. by apply sublist_inserts_r.
Qed.

(** C8. The report is complete when the queues are: if the execution thread is
    done, its queue has been drained and nothing was dropped, then whenever the
    signal comes from then on, and in every schedule, the report of the exit is
    that of all the executions of the specification.  Such a run exists for
    every file whose executions fit in the queue. *)
Theorem settled_report (net : list (option bytes)) :
  (forall s s' r, rtc step (launch net) s -> (exists ob, exec s = EDone ob) ->
    queue_rep Execution_zero (execQueue (execs s)) [] -> wrap_u64 (droppedExecs (execs s)) = 0 ->
    Z.of_nat (length file_executions) < 2 ^ 64 ->
    rtc step s s' -> main_ s' = MExit r ->
    r = pnl_rows (run_executions PositionManager_new file_executions)) /\
  (socket_ok = true -> (exists data, orders_file = Contents data) -> (length file_executions <= queue_room)%nat ->
    exists s, rtc step (launch [Some []]) s /\
      main_ s = MExit (pnl_rows (run_executions PositionManager_new file_executions))).
Proof.
  split.
  - intros s s' r Hs Ho Hq Hd Hb Hs' Hm.
    assert (Hi : inv net s) by (eapply program_reachable_inv; exact Hs).
    pose proof (settled_complete net s Hi Ho Hq Hd Hb) as Hp.
    destruct (reports_steps _ _ _ Hs' (conj Ho (conj Hq (conj Hp (fun r => exit_reports net s r Hs))))) as (_ & _ & Hp' & Hr).
    rewrite (Hr r Hm). unfold pnl_rows, final_report. by rewrite Hp'.
  - intros Hok [data Hfile] Hroom.
    destruct (file_replayed entries parse_now match_now tick_now socket_ok orders_file [Some []] data Hfile) as [ob H1].
    rewrite feed_executions in H1. pose proof (offer_fresh Execution_zero file_executions) as [Hq _].
    cbv zeta in Hq. rewrite take_ge in Hq by done. revert H1 Hq.
    change (execQueue Feed_new, droppedExecs Feed_new) with (SpscQueue_new (T := Execution) QUEUE_CAPACITY, 0).
    destruct (foldl _ _ _) as [q d]. cbn [fst snd]. intros H1 Hq.
    set (s1 := mkProgram true MLoop Cold_new TickFeed_new (mkFeed q d) false USocket 0 [] [Some []] (EDone ob)) in *.
    pose proof (cycle_undisturbed entries parse_now match_now tick_now socket_ok orders_file [] false s1 [] file_executions
      eq_refl eq_refl eq_refl (queue_rep_new _ QUEUE_CAPACITY eq_refl) Hq) as H2.
    assert (Hb : Z.of_nat (length file_executions) < 2 ^ 64) by (unfold queue_room, QUEUE_CAPACITY in Hroom; lia).
    pose proof (drain_cycle_spec (cold s1) (mkShared (ticks s1) (execs s1)) [] file_executions
      (queue_rep_new _ QUEUE_CAPACITY eq_refl) Hq eq_refl Hb ltac:(cbn; unfold kSpinMax; lia)) as H3.
    unfold cold_cycle in H2. destruct (drain_cycle _ _) as [[c sh] act]. destruct H3 as (_ & _ & _ & Hpm & _).
    destruct (prompt_exit entries parse_now match_now tick_now socket_ok orders_file c (sh_ticks sh) (sh_execs sh) ob Hok)
      as (s & H4 & Hm & _).
    exists s. split; [etrans; [exact H1|]; etrans; [exact H2|exact H4]|].
    rewrite Hm. unfold pnl_rows, final_report. by rewrite Hpm.
Qed.

End Drain.

(** ** Witnesses *)

Definition example_quiet : Program -> Program -> Prop :=
  quiet_step map_to_list (fun _ => 0) (fun _ _ => 0) (fun _ => 0) true (Contents []).

(** One concrete step of a run. *)
Ltac quiet a := eapply rtc_l; [exists a; split; [done|];
  unfold perform, udp_turn, exec_turn; cbn;
  unfold set_main, set_udp, set_net, set_calls, set_queues, set_exec; cbn; reflexivity|].

Lemma example_settles : exists s, rtc example_quiet (launch [Some []]) s /\ main_ s = MTicks 0 /\ settled s.
Proof.
  assert (H : exists s, rtc example_quiet (launch [Some []]) s /\
    s = set_main (MTicks 0) (cycle_begin 0 0 Cold_new) (set_net [] [] (set_udp URecv true (set_exec (EDone OrderBook_new) (launch []))))).
  { eexists. split; [|reflexivity]. unfold example_quiet, launch.
    do 3 quiet Udp. quiet Deliver. do 3 quiet Udp. do 2 quiet Exec. quiet (Main false). apply rtc_refl. }
  destruct H as (s & Hs & E). exists s. split; [exact Hs|]. rewrite E. split; [reflexivity|].
  split; [by eexists|by left|done|apply (queue_rep_new _ QUEUE_CAPACITY eq_refl)|apply (queue_rep_new _ QUEUE_CAPACITY eq_refl)].
Qed.

Lemma program_settles_witness : exists s, settled s /\
  sn (round map_to_list (fun _ => 0) (fun _ _ => 0) (fun _ => 0) true (Contents [])) s.
Proof.
  destruct example_settles as (s & Hs & _ & Hset). exists s. split; [exact Hset|].
  exact (proj1 (program_settles map_to_list (fun _ => 0) (fun _ _ => 0) (fun _ => 0) true (Contents []) [Some []] s Hs)).
Defined.

(** Two orders that cross. *)
Definition example_file : bytes :=
  B "11=A1|35=D|55=AAPL|54=2|44=150.00|38=10" ++ "010"%char :: B "11=B1|35=D|55=AAPL|54=1|44=150.25|38=4".

Lemma example_executions : length (file_executions (fun _ => 0) (fun _ _ => 0) (Contents example_file)) = 1%nat.
Proof. vm_compute. reflexivity. Qed.

Lemma settled_report_witness : exists s r,
  rtc (step map_to_list (fun _ => 0) (fun _ _ => 0) (fun _ => 0) true (Contents example_file)) (launch [Some []]) s /\
  main_ s = MExit r /\ length r = 1%nat.
Proof.
  assert (Hroom : Nat.le (length (file_executions (fun _ => 0) (fun _ _ => 0) (Contents example_file))) queue_room)
    by (rewrite example_executions; apply Nat2Z.inj_le; unfold queue_room, QUEUE_CAPACITY; rewrite Z2Nat.id; lia).
  destruct (proj2 (settled_report map_to_list (fun _ => 0) (fun _ _ => 0) (fun _ => 0) true (Contents example_file) [])
    eq_refl (ex_intro _ _ eq_refl) Hroom) as (s & H1 & H2).
  exists s, (pnl_rows map_to_list (run_executions PositionManager_new
    (file_executions (fun _ => 0) (fun _ _ => 0) (Contents example_file)))).
  split; [exact H1|]. split; [exact H2|]. vm_compute. reflexivity.
Defined.
