(* ===== verification/BenchOrderBook.v ===== *)
(** * The benchmarks of the order book: bench/bench_order_book.cpp

    Each benchmark is the loop of its function, for any number of iterations:
    a fresh book, the orders of the iterations, the draining sweeps under
    [PauseTiming].  What is timed, and the discarded executions, are seen
    through an arbitrary callback.  All orders of a symbol have one bid price
    and one lower or equal ask price, so that a book is a queue of equal bids
    or a single ask. *)

From Stdlib Require Import QArith_base ZifyNat.
From S2P Require Import Prelude Threads Float64 CString Messages Numerals ObjectPool TickBitset PriceTick.
From S2P Require Import OrderBook OrderBookSpec OrderBookSweep OrderBookRefinement OrderBookHistory.
From S2P Require Import OrderBookTotals OrderBookProps.

Local Open Scope Z_scope.

Definition make_order (seq : Z) (sym : bytes) (p : double) (ty : OrderType) (qty now : Z) : Order :=
  mkOrder (strncpy (zeros 16) (B "O" ++ show_padded 7 seq) 15) (strncpy (zeros 8) sym 7) p ty qty now nullptr.

Section Bench.
Context {St : Type}.
Variable onExecution : option (Execution -> St -> St).
Variable clock : nat -> Z.             (* steady_clock in [make_order] *)
Variable match_now : nat -> nat -> Z.  (* the clock during the call for an order *)

(** The variables of a benchmark: the book, what its callback acts on, [seq]. *)
Record Bench := mkBench { book : OrderBook; client : St; seq_ : nat }.

(** [book.acceptNewOrder(make_order(seq++, sym, p, ty, qty))] *)
Definition submit (sym : bytes) (p : double) (ty : OrderType) (qty : Z) (b : Bench) : option Bench :=
  let o := make_order (Z.of_nat (seq_ b)) sym p ty qty (clock (seq_ b)) in
  match acceptNewOrder onExecution (match_now (seq_ b)) (book b) o (client b) with
  | Some (ob, s) => Some (mkBench ob s (S (seq_ b)))
  | None => None
  end.

Definition AAPL : bytes := B "AAPL".
Definition p150_00 : double := lit 150.
Definition p149_99 : double := lit (14999 # 100).

(** ** The four benchmarks *)

Definition insert_body (b : Bench) : option Bench :=
  b ← (if poolAvailable (book b) <? 2 then submit AAPL p149_99 SELL (65536 * 10) b else Some b);
  submit AAPL p150_00 BUY 10 b.

Definition BM_Insert_NoMatch (n : nat) (s : St) : option Bench :=
  iterate n insert_body (mkBench OrderBook_new s 0).

Definition immediate_body (b : Bench) : option Bench :=
  submit AAPL p150_00 (if Nat.even (seq_ b) then BUY else SELL) 100 b.

Definition BM_ImmediateMatch (n : nat) (s : St) : option Bench :=
  iterate n immediate_body (mkBench OrderBook_new s 0).

(** One iteration: the book is new in each. *)
Definition sweep_body (depth : nat) (s : St) : option Bench :=
  b ← iterate depth (submit AAPL p150_00 BUY 1) (mkBench OrderBook_new s 0);
  submit AAPL p149_99 SELL (Z.of_nat depth) b.

Definition multi_symbols : list (bytes * double) :=
  [(B "AAPL", lit 150); (B "MSFT", lit 300); (B "GOOGL", lit 140); (B "TSLA", lit 200);
   (B "ESZ4", lit 4500); (B "GBPUSD", lit (125 # 100))].

Fixpoint submit_each (l : list (bytes * double)) (ty : OrderType) (qty : Z) (b : Bench) : option Bench :=
  match l with
  | [] => Some b
  | (sym, p) :: l' => b ← submit sym p ty qty b; submit_each l' ty qty b
  end.

(** The symbols at their sweeping prices, [prices\[i\] - 0.01]. *)
Definition multi_sweep : list (bytes * double) :=
  (fun sp : bytes * double => (sp.1, (sp.2 - lit (1 # 100))%D)) <$> multi_symbols.

Definition multi_body (b : Bench) : option Bench :=
  b ← (if poolAvailable (book b) <? 10 then submit_each multi_sweep SELL 65536 b else Some b);
  match multi_symbols !! (seq_ b mod 6)%nat with
  | Some (sym, p) => submit sym p BUY 1 b
  | None => None
  end.

Definition BM_MultiSymbol (n : nat) (s : St) : option Bench :=
  b ← submit_each multi_symbols BUY 1 (mkBench OrderBook_new s 0);
  iterate n multi_body (mkBench (book b) (client b) 100).
End Bench.

Arguments Bench : clear implicits.

(** ** Books of one level *)

(** Bids of one price and quantity, with their ids in order of arrival. *)
Definition resting_bids (p : double) (q : Z) (ids : list bytes) (b : SpecBook) : Prop :=
  s_asks b = [] /\ id <$> s_bids b = ids /\ Forall (fun o => price o = p /\ quantity o = q) (s_bids b).

(** One ask. *)
Definition resting_ask (p : double) (q : Z) (b : SpecBook) : Prop :=
  s_bids b = [] /\ exists o, s_asks b = [o] /\ price o = p /\ quantity o = q.

Definition filled (p : double) (q : Z) (i : bytes) (e : Execution) : Prop :=
  buy_id e = strncpy (zeros 16) i 15 /\ trade_price e = p /\ exec_quantity e = of_int q.

Lemma same_price_sorted sd p q l : Forall (fun o => price o = p /\ quantity o = q) l -> sorted_side sd l.
Proof.
  intros Hl. induction Hl as [|o l [Ho _] Hl IH]; constructor; [done|].
  eapply Forall_impl; [exact Hl|]. intros o' [Ho' _]. cbn. unfold tick_of. rewrite Ho, Ho'. apply at_least_refl.
Qed.

Lemma same_quantity_positive p q l : 0 < q <= INT32_MAX ->
  Forall (fun o => price o = p /\ quantity o = q) l -> Forall positive_order l.
Proof.
  intros Hq Hl. eapply Forall_impl; [exact Hl|]. intros o [_ Ho]. unfold positive_order. by rewrite Ho.
Qed.

(** An order of the same price goes to the end of the queue. *)
Lemma insert_same_price sd p q o l : price o = p ->
  Forall (fun o => price o = p /\ quantity o = q) l -> spec_insert_side sd o l = l ++ [o].
Proof.
  intros Ho Hl. unfold spec_insert_side. induction Hl as [|r l [Hr _] _ IH]; cbn [insert_prio app]; [done|].
  assert (Hk : at_least sd (tick_of r) (tick_of o) = true) by (unfold tick_of; rewrite Hr, Ho; apply at_least_refl).
  by rewrite Hk, IH.
Qed.

(** A sell order at least as large as the queue of bids fills them all. *)
Lemma sweep_bids sym now p q l : forall i o,
  Forall (fun o => price o = p /\ quantity o = q) l -> 0 < q -> positive_order o ->
  at_least SELL (tick_of o) (priceToTick p) = true -> Z.of_nat (length l) * q <= quantity o ->
  exists es rest, sweep sym SELL now i o l = (es, rest, []) /\ Forall2 (filled p q) (id <$> l) es /\
    match rest with
    | None => quantity o = Z.of_nat (length l) * q
    | Some o' => price o' = price o /\ quantity o' = quantity o - Z.of_nat (length l) * q /\ positive_order o'
    end.
Proof.
  induction l as [|r l IH]; intros i o Hl Hq Ho Hc Hn; cbn [sweep length fmap list_fmap] in *.
  { exists [], (Some o). split; [done|]. split; [constructor|]. split; [done|]. split; [lia|done]. }
  apply Forall_cons in Hl as [[Hp Hr] Hl]. unfold tick_of at 2. rewrite Hp, Hc, Hr.
  unfold positive_order in *.
  destruct (Z.ltb_spec (quantity o) q); [nia|]. rewrite Z.min_l by lia.
  destruct (Z.eqb_spec (quantity o) q) as [E|E].
  - assert (l = []) as -> by (destruct l; [done|cbn in Hn; nia]).
    eexists _, None. split; [done|]. split; [|cbn; lia]. constructor; [|constructor]. by split_and!.
  - assert (Hf : quantity (fill q o) = quantity o - q) by (apply fill_positive; unfold positive_order; lia).
    destruct (IH (S i) (fill q o) Hl Hq) as (es & rest & E1 & E2 & E3); [unfold positive_order; lia|done|lia|].
    rewrite E1. eexists _, rest. split; [done|]. split; [constructor; [by split_and!|done]|].
    destruct rest as [o'|]; [destruct E3 as (H1 & H2 & H3); split; [done|lia]|lia].
Qed.

(** ** The specification on books of one level *)

Section Accept.
Variable now : nat -> Z.
Variable sp : SpecState.
Variable o : Order.
Hypothesis Hacc : spec_accepts sp o = true.
Hypothesis Hpos : positive_order o.

Abbreviation k := (sym_key (symbol o)).

(** The result: the executions, the book of the order and the number of live
    orders; the other books stay. *)
Definition accepted (es : list Execution) (b' : SpecBook) : Prop :=
  exists sp', spec_accept now sp o = (sp', es) /\ sp_book_at sp' k = b' /\
    sp_live sp' = sp_live sp + Z.of_nat (spec_size b') - Z.of_nat (spec_size (sp_book_at sp k)) /\
    forall k', k' <> k -> sp_book_at sp' k' = sp_book_at sp k'.

Lemma accepted_intro es b' live' : spec_accept now sp o = (mkSpecState (<[k := b']> (sp_books sp)) live', es) ->
  live' = sp_live sp + Z.of_nat (spec_size b') - Z.of_nat (spec_size (sp_book_at sp k)) -> accepted es b'.
Proof.
  intros H Hl. eexists. split; [exact H|]. unfold sp_book_at; cbn. split; [by rewrite lookup_insert_eq|].
  split; [done|]. intros k' Hk. by rewrite lookup_insert_ne.
Qed.

(** A bid behind equal bids: nothing crosses. *)
Lemma accept_bid p q ids : order_type o = BUY -> price o = p -> quantity o = q ->
  resting_bids p q ids (sp_book_at sp k) ->
  exists b', accepted [] b' /\ resting_bids p q (ids ++ [id o]) b' /\ spec_size b' = S (length ids).
Proof.
  intros Hty Hp Hq (Ha & Hi & Hl). exists (mkSpec (s_bids (sp_book_at sp k) ++ [payload o]) []). split; [|split].
  - eapply accepted_intro; [|reflexivity]. rewrite spec_accept_sweep; rewrite ?Hty; cbn [spec_side opposite]; rewrite ?Ha; try done.
    + cbn [sweep mk_book rest_in]. rewrite (insert_same_price _ p q) by done. reflexivity.
    + unfold no_cross. by destruct (s_bids _).
    + by eapply same_price_sorted.
    + constructor.
  - split; [done|]. cbn. rewrite fmap_app, Hi. split; [done|]. apply Forall_app. by split; [|constructor].
  - unfold spec_size. cbn. rewrite length_app, <- Hi, length_fmap. cbn. lia.
Qed.

(** A sell order that sweeps equal bids: what is left of it rests. *)
Lemma accept_sweep p q ids : order_type o = SELL -> 0 < q <= INT32_MAX ->
  at_least SELL (tick_of o) (priceToTick p) = true -> Z.of_nat (length ids) * q <= quantity o ->
  resting_bids p q ids (sp_book_at sp k) ->
  exists es b', accepted es b' /\ Forall2 (filled p q) ids es /\
    if quantity o =? Z.of_nat (length ids) * q then b' = mkSpec [] []
    else resting_ask (price o) (quantity o - Z.of_nat (length ids) * q) b' /\ spec_size b' = 1%nat.
Proof.
  intros Hty Hq Hc Hn (Ha & Hi & Hl).
  destruct (sweep_bids (symbol o) now p q (s_bids (sp_book_at sp k)) 0 (payload o) Hl ltac:(lia) Hpos Hc)
    as (es & rest & E & H2 & H3); [rewrite <- Hi, length_fmap in Hn; exact Hn|].
  assert (Hlen : length (s_bids (sp_book_at sp k)) = length ids) by (by rewrite <- Hi, length_fmap).
  rewrite Hlen in H3. rewrite Hi in H2.
  eexists es, (mk_book SELL (rest_in SELL rest []) []). split; [|split; [exact H2|]].
  - eapply accepted_intro; [|reflexivity]. rewrite spec_accept_sweep; rewrite ?Hty; cbn [spec_side opposite]; rewrite ?Ha; try done.
    + by rewrite E.
    + constructor.
    + by eapply same_price_sorted.
    + by eapply same_quantity_positive.
  - destruct rest as [o'|]; cbn [payload set_next quantity price] in H3.
    + destruct H3 as (Hp & Hq' & Hpos'). unfold positive_order in Hpos'.
      destruct (Z.eqb_spec (quantity o) (Z.of_nat (length ids) * q)); [lia|].
      split; [|done]. split; [done|]. by exists o'.
    + rewrite (proj2 (Z.eqb_eq _ _)) by done. done.
Qed.

(** A bid within the limit of one larger ask. *)
Lemma accept_take p Q : order_type o = BUY -> quantity o <= Q <= INT32_MAX ->
  at_least BUY (tick_of o) (priceToTick p) = true -> resting_ask p Q (sp_book_at sp k) ->
  exists e b', accepted [e] b' /\ filled p (quantity o) (id o) e /\
    if quantity o =? Q then b' = mkSpec [] []
    else resting_ask p (Q - quantity o) b' /\ spec_size b' = 1%nat.
Proof.
  intros Hty HQ Hc (Hb & r & Hr & Hp & Hq). unfold positive_order in Hpos.
  assert (Hrpos : positive_order r) by (unfold positive_order; lia).
  set (e := trade (quantity o) r (payload o) (symbol o) BUY (now 0%nat)).
  assert (E : sweep (symbol o) BUY now 0 (payload o) [r] =
    ([e], None, if quantity o =? Q then [] else [fill (quantity o) r])).
  { cbn [sweep]. change (tick_of (payload o)) with (tick_of o). unfold tick_of at 2. rewrite Hp, Hc, Hq.
    change (quantity (payload o)) with (quantity o). rewrite Z.min_r by lia. fold e.
    destruct (Z.ltb_spec (quantity o) Q).
    - by rewrite (proj2 (Z.eqb_neq _ _)) by lia.
    - by rewrite (proj2 (Z.eqb_eq _ _)) by lia. }
  eexists e, (mk_book BUY [] (if quantity o =? Q then [] else [fill (quantity o) r])). split; [|split].
  - eapply accepted_intro; [|reflexivity]. rewrite spec_accept_sweep; rewrite ?Hty; cbn [spec_side opposite]; rewrite ?Hr, ?Hb; try done.
    + by rewrite E.
    + repeat constructor.
    + repeat constructor.
    + repeat constructor; unfold positive_order; lia.
  - unfold e. by split_and!.
  - destruct (Z.eqb_spec (quantity o) Q); [done|]. split; [|done]. split; [done|]. eexists. split; [done|].
    split; [done|]. rewrite fill_positive by (done || lia). lia.
Qed.
End Accept.

(** The id of the order number [i]. *)
Definition order_id (i : nat) : bytes := strncpy (zeros 16) (B "O" ++ show_padded 7 (Z.of_nat i)) 15.

Definition key_of (sym : bytes) : Z := sym_key (strncpy (zeros 8) sym 7).

Lemma accepts_in_range sp o : in_range (tick_of o) -> sp_live sp < POOL_CAPACITY -> spec_accepts sp o = true.
Proof.
  unfold in_range, spec_accepts. intros Ht Hl.
  rewrite (proj2 (Z.ltb_ge _ _)), (proj2 (Z.leb_gt _ _)), (proj2 (Z.eqb_neq _ _)) by lia. done.
Qed.

Lemma tick_150_00 : priceToTick p150_00 = 15000.
Proof. reflexivity. Qed.

Lemma tick_149_99 : priceToTick p149_99 = 14999.
Proof. reflexivity. Qed.

Lemma bid_in_range i ty q now : in_range (tick_of (make_order i AAPL p150_00 ty q now)).
Proof. unfold tick_of; cbn [price make_order]. rewrite tick_150_00. unfold in_range, MAX_TICKS. lia. Qed.

Lemma ask_in_range : in_range (priceToTick p149_99).
Proof. rewrite tick_149_99. unfold in_range, MAX_TICKS. lia. Qed.

Lemma ask_crosses : at_least SELL (priceToTick p149_99) (priceToTick p150_00) = true.
Proof. by rewrite tick_149_99, tick_150_00. Qed.

Lemma bid_crosses : at_least BUY (priceToTick p150_00) (priceToTick p149_99) = true.
Proof. by rewrite tick_149_99, tick_150_00. Qed.

(** ** The loops *)

Section Loops.
Context {St : Type}.
Variable onExecution : option (Execution -> St -> St).
Variable clock : nat -> Z.
Variable match_now : nat -> nat -> Z.
Variable s0 : St.

Abbreviation submit := (submit onExecution clock match_now).
Abbreviation calls := (foldl (fun s e => notify onExecution e s)).

(** A benchmark whose book implements [sp], after the callbacks for [es]. *)
Definition bench_at (b : Bench St) (sp : SpecState) (n : nat) (es : list Execution) : Prop :=
  refines (book b) sp /\ client b = calls s0 es /\ seq_ b = n.

Lemma bench_new : bench_at (mkBench OrderBook_new s0 0) spec_new 0 [].
Proof. split; [apply refines_new|done]. Qed.

Lemma submit_at b sp n es sym p ty qty es1 bk : bench_at b sp n es ->
  accepted (match_now n) sp (make_order (Z.of_nat n) sym p ty qty (clock n)) es1 bk ->
  exists b' sp', submit sym p ty qty b = Some b' /\ bench_at b' sp' (S n) (es ++ es1) /\
    sp_book_at sp' (key_of sym) = bk /\
    sp_live sp' = sp_live sp + Z.of_nat (spec_size bk) - Z.of_nat (spec_size (sp_book_at sp (key_of sym))) /\
    forall k, k <> key_of sym -> sp_book_at sp' k = sp_book_at sp k.
Proof.
  intros (Hr & Hc & Hn) (sp' & Hacc & Hbk & Hl & Hk). unfold BenchOrderBook.submit. rewrite Hn.
  pose proof (acceptNewOrder_refines onExecution (match_now n) (book b) sp
    (make_order (Z.of_nat n) sym p ty qty (clock n)) (client b) Hr) as H.
  rewrite Hacc in H. destruct H as (ob & -> & Hr').
  eexists _, sp'. split; [done|]. split; [|split_and!; [exact Hbk|exact Hl|exact Hk]].
  split; [exact Hr'|]. split; [cbn; by rewrite Hc, foldl_app|done].
Qed.

Lemma available_at b sp n es : bench_at b sp n es -> poolAvailable (book b) = POOL_CAPACITY - sp_live sp.
Proof. intros (Hr & _). by apply refines_available. Qed.

Abbreviation kA := (key_of AAPL).

(** A bid of [q] at 150.00, behind others. *)
Lemma bid_at b sp n es q ids : bench_at b sp n es -> sp_live sp < POOL_CAPACITY -> 0 < q <= INT32_MAX ->
  resting_bids p150_00 q ids (sp_book_at sp kA) ->
  exists b' sp', submit AAPL p150_00 BUY q b = Some b' /\ bench_at b' sp' (S n) es /\
    resting_bids p150_00 q (ids ++ [order_id n]) (sp_book_at sp' kA) /\ sp_live sp' = sp_live sp + 1.
Proof.
  intros Hb Hl Hq Hbids.
  destruct (accept_bid (match_now n) sp (make_order (Z.of_nat n) AAPL p150_00 BUY q (clock n))
    (accepts_in_range _ _ (bid_in_range _ _ _ _) Hl) Hq p150_00 q ids eq_refl eq_refl eq_refl Hbids) as (bk & Hacc & Hbk & Hs).
  destruct (submit_at _ _ _ _ _ _ _ _ _ _ Hb Hacc) as (b' & sp' & H1 & H2 & H3 & H4 & _).
  exists b', sp'. rewrite app_nil_r in H2. split; [done|]. split; [done|]. rewrite H3. split; [done|].
  destruct Hbids as (Ha & Hi & _). rewrite H4, Hs. unfold spec_size. rewrite Ha, <- Hi, length_fmap. cbn [length]. lia.
Qed.

(** The loop that fills the book. *)
Lemma bids_loop q m : forall b sp n es ids, bench_at b sp n es -> sp_live sp + Z.of_nat m <= POOL_CAPACITY ->
  0 < q <= INT32_MAX -> resting_bids p150_00 q ids (sp_book_at sp kA) ->
  exists b' sp', iterate m (submit AAPL p150_00 BUY q) b = Some b' /\ bench_at b' sp' (n + m) es /\
    resting_bids p150_00 q (ids ++ (order_id <$> seq n m)) (sp_book_at sp' kA) /\ sp_live sp' = sp_live sp + Z.of_nat m.
Proof.
  induction m as [|m IH]; intros b sp n es ids Hb Hl Hq Hbids.
  - exists b, sp. cbn. rewrite app_nil_r, Nat.add_0_r. split_and!; [done|done|done|lia].
  - destruct (IH b sp n es ids Hb ltac:(lia) Hq Hbids) as (b1 & sp1 & H1 & H2 & H3 & H4).
    destruct (bid_at b1 sp1 (n + m) es q _ H2 ltac:(lia) Hq H3) as (b2 & sp2 & H5 & H6 & H7 & H8).
    exists b2, sp2. cbn [iterate]. rewrite H1. cbn [mbind option_bind]. rewrite Nat.add_succ_r.
    split; [done|]. split; [done|]. split; [|lia].
    rewrite seq_S, fmap_app, app_assoc. exact H7.
Qed.

(** An order that sells at least the resting bids. *)
Lemma sweep_at b sp n es q ids p Q : bench_at b sp n es -> sp_live sp < POOL_CAPACITY -> 0 < q <= INT32_MAX ->
  in_range (priceToTick p) -> at_least SELL (priceToTick p) (priceToTick p150_00) = true ->
  0 < Q <= INT32_MAX -> Z.of_nat (length ids) * q <= Q -> resting_bids p150_00 q ids (sp_book_at sp kA) ->
  exists b' sp' es', submit AAPL p SELL Q b = Some b' /\ bench_at b' sp' (S n) (es ++ es') /\
    Forall2 (filled p150_00 q) ids es' /\
    if Q =? Z.of_nat (length ids) * q
    then sp_book_at sp' kA = mkSpec [] [] /\ sp_live sp' = sp_live sp - Z.of_nat (length ids)
    else resting_ask p (Q - Z.of_nat (length ids) * q) (sp_book_at sp' kA) /\
         sp_live sp' = sp_live sp - Z.of_nat (length ids) + 1.
Proof.
  intros Hb Hl Hq Hr Hc HQ Hn Hbids. pose proof Hbids as (Ha & Hi & _).
  destruct (accept_sweep (match_now n) sp (make_order (Z.of_nat n) AAPL p SELL Q (clock n))
    (accepts_in_range sp (make_order (Z.of_nat n) AAPL p SELL Q (clock n)) Hr Hl) HQ p150_00 q ids eq_refl Hq Hc Hn Hbids) as (es' & bk & Hacc & Hf & Hbk).
  destruct (submit_at _ _ _ _ _ _ _ _ _ _ Hb Hacc) as (b' & sp' & H1 & H2 & H3 & H4 & _).
  exists b', sp', es'. split; [done|]. split; [done|]. split; [done|].
  assert (Hsz : spec_size (sp_book_at sp kA) = length ids) by (unfold spec_size; rewrite Ha, <- Hi, length_fmap; cbn; lia).
  rewrite Hsz in H4. cbn [quantity make_order price] in Hbk. rewrite H3.
  destruct (Q =? _); [subst bk; split; [done|cbn in H4; lia]|].
  destruct Hbk as [Hbk Hs]. rewrite Hs in H4. split; [done|lia].
Qed.
End Loops.

(** ** The four benchmarks *)

(** [BM_SweepMatch] does what it measures: for every depth the pool can
    hold, the timed order makes one execution with each of the resting bids, in
    their order of arrival, of quantity 1 at their price, and every slot goes
    back to the pool. *)
Lemma sweep_benchmark {St : Type} (cb : option (Execution -> St -> St)) (clock : nat -> Z)
    (match_now : nat -> nat -> Z) (depth : nat) (s : St) :
  (0 < depth)%nat -> Z.of_nat depth < POOL_CAPACITY ->
  exists b es, sweep_body cb clock match_now depth s = Some b /\
    client b = foldl (fun s e => notify cb e s) s es /\
    Forall2 (filled p150_00 1) (order_id <$> seq 0 depth) es /\
    poolAvailable (book b) = POOL_CAPACITY.
Proof.
  intros Hd Hcap. unfold POOL_CAPACITY in *.
  destruct (bids_loop cb clock match_now s 1 depth _ _ _ _ [] (bench_new cb s)) as (b1 & sp1 & H1 & H2 & H3 & H4);
    [cbn; unfold POOL_CAPACITY; lia|lia|by split_and!|].
  cbn [app] in H3. cbn [sp_live spec_new] in H4.
  destruct (sweep_at cb clock match_now s b1 sp1 _ _ 1 (order_id <$> seq 0 depth) p149_99 (Z.of_nat depth) H2)
    as (b2 & sp2 & es & H5 & H6 & H7 & H8); [unfold POOL_CAPACITY; lia|lia|apply ask_in_range|apply ask_crosses|lia| |done|].
  { rewrite length_fmap, length_seq. lia. }
  exists b2, es. unfold sweep_body. rewrite H1. cbn [mbind option_bind]. split; [done|].
  split; [by destruct H6 as (_ & -> & _)|]. split; [done|].
  rewrite length_fmap, length_seq, Z.mul_1_r, Z.eqb_refl in H8. destruct H8 as [_ H8].
  rewrite (available_at _ _ _ _ _ _ H6). unfold POOL_CAPACITY. lia.
Qed.

(** The state of [BM_Insert_NoMatch] before the pool is exhausted. *)
Lemma insert_loop {St : Type} (cb : option (Execution -> St -> St)) (clock : nat -> Z)
    (match_now : nat -> nat -> Z) (s : St) (n : nat) : Z.of_nat n < POOL_CAPACITY ->
  exists b sp, BM_Insert_NoMatch cb clock match_now n s = Some b /\ bench_at cb s b sp n [] /\
    resting_bids p150_00 10 (order_id <$> seq 0 n) (sp_book_at sp (key_of AAPL)) /\ sp_live sp = Z.of_nat n.
Proof.
  unfold BM_Insert_NoMatch. induction n as [|n IH]; intros Hn.
  - exists (mkBench OrderBook_new s 0), spec_new. split; [done|]. split; [apply bench_new|]. split; [by split_and!|done].
  - destruct (IH ltac:(lia)) as (b & sp & H1 & H2 & H3 & H4).
    destruct (bid_at cb clock match_now s b sp n [] 10 _ H2 ltac:(lia) ltac:(lia) H3) as (b1 & sp1 & H5 & H6 & H7 & H8).
    exists b1, sp1. cbn [iterate]. rewrite H1. cbn [mbind option_bind]. unfold insert_body.
    rewrite (available_at _ _ _ _ _ _ H2), H4, (proj2 (Z.ltb_ge _ _)) by lia. cbn [mbind option_bind].
    rewrite H5. split; [done|]. split; [done|]. split; [|lia]. rewrite seq_S, fmap_app. exact H7.
Qed.

(** [BM_Insert_NoMatch] inserts without a match until the pool has one slot
    left: in the first 65535 iterations no callback is made and each iteration
    takes a slot.  The next one first sells 655360, ten more than the bids, so
    that the timed bid that follows does trade, with what is left of it. *)
Lemma insert_benchmark {St : Type} (cb : option (Execution -> St -> St)) (clock : nat -> Z)
    (match_now : nat -> nat -> Z) (s : St) (n : nat) :
  Z.of_nat n <= POOL_CAPACITY ->
  exists b es, BM_Insert_NoMatch cb clock match_now n s = Some b /\
    client b = foldl (fun s e => notify cb e s) s es /\
    if Z.of_nat n =? POOL_CAPACITY
    then poolAvailable (book b) = POOL_CAPACITY /\
      exists drain e, es = drain ++ [e] /\ Forall2 (filled p150_00 10) (order_id <$> seq 0 (n - 1)) drain /\
        filled p149_99 10 (order_id n) e
    else es = [] /\ poolAvailable (book b) = POOL_CAPACITY - Z.of_nat n.
Proof.
  intros Hn. destruct (Z.eqb_spec (Z.of_nat n) POOL_CAPACITY) as [E|E].
  2:{ destruct (insert_loop cb clock match_now s n ltac:(lia)) as (b & sp & H1 & H2 & _ & H4).
    exists b, []. split; [done|]. split; [by destruct H2 as (_ & -> & _)|]. split; [done|].
    by rewrite (available_at _ _ _ _ _ _ H2), H4. }
  destruct n as [|n]; [done|]. unfold POOL_CAPACITY in *.
  destruct (insert_loop cb clock match_now s n ltac:(unfold POOL_CAPACITY; lia)) as (b & sp & H1 & H2 & H3 & H4).
  destruct (sweep_at cb clock match_now s b sp _ _ 10 (order_id <$> seq 0 n) p149_99 (65536 * 10) H2)
    as (b1 & sp1 & es & H5 & H6 & H7 & H8); [unfold POOL_CAPACITY; lia|lia|apply ask_in_range|apply ask_crosses|lia| |done|].
  { rewrite length_fmap, length_seq. lia. }
  rewrite length_fmap, length_seq in H8. rewrite (proj2 (Z.eqb_neq _ _)) in H8 by lia. destruct H8 as [Hask H8].
  replace (65536 * 10 - Z.of_nat n * 10) with 10 in Hask by lia.
  assert (ten_positive : 0 < 10 <= INT32_MAX) by lia. assert (ten_positive' : 10 <= 10 <= INT32_MAX) by lia.
  destruct (accept_take (match_now (S n)) sp1 (make_order (Z.of_nat (S n)) AAPL p150_00 BUY 10 (clock (S n)))
    (accepts_in_range sp1 _ (bid_in_range _ _ _ _) ltac:(unfold POOL_CAPACITY; lia)) ten_positive p149_99 10 eq_refl ten_positive' bid_crosses Hask)
    as (e & bk & Hacc & He & Hbk).
  destruct (submit_at _ _ _ _ _ _ _ _ _ _ _ _ _ _ H6 Hacc) as (b2 & sp2 & H9 & H10 & _ & H12 & _).
  cbn [quantity make_order Z.eqb Pos.eqb] in Hbk. subst bk. destruct Hask as (Hb1 & r & Ha1 & _).
  unfold spec_size in H12. rewrite Hb1, Ha1 in H12. cbn [length s_bids s_asks] in H12.
  exists b2, (es ++ [e]). unfold BM_Insert_NoMatch in *. cbn [iterate]. rewrite H1. cbn [mbind option_bind].
  unfold insert_body. rewrite (available_at _ _ _ _ _ _ H2), H4. unfold POOL_CAPACITY.
  rewrite (proj2 (Z.ltb_lt _ _)) by lia. rewrite H5. cbn [mbind option_bind]. split; [done|].
  split; [by destruct H10 as (_ & -> & _)|]. rewrite (available_at _ _ _ _ _ _ H10). unfold POOL_CAPACITY.
  split; [lia|]. exists es, e. split; [done|]. rewrite Nat.sub_succ, Nat.sub_0_r. split; [done|].
  exact He.
Qed.

Definition at_150 (q : Z) (e : Execution) : Prop := trade_price e = p150_00 /\ exec_quantity e = of_int q.

Lemma filled_at_150 q ids es : Forall2 (filled p150_00 q) ids es -> Forall (at_150 q) es.
Proof. induction 1 as [|i e ids es (_ & Hp & Hq) _ IH]; constructor; [by split|done]. Qed.

Lemma immediate_loop {St : Type} (cb : option (Execution -> St -> St)) (clock : nat -> Z)
    (match_now : nat -> nat -> Z) (s : St) (n : nat) :
  exists b sp es k ids, BM_ImmediateMatch cb clock match_now n s = Some b /\ bench_at cb s b sp n es /\
    Forall (at_150 100) es /\ length es = k /\ resting_bids p150_00 100 ids (sp_book_at sp (key_of AAPL)) /\
    sp_live sp = Z.of_nat (length ids) /\
    (n = (2 * k)%nat /\ length ids = 0%nat \/ n = (2 * k + 1)%nat /\ length ids = 1%nat).
Proof.
  unfold BM_ImmediateMatch. induction n as [|n (b & sp & es & k & ids & H1 & H2 & H3 & H4 & H5 & H6 & H7)].
  - exists (mkBench OrderBook_new s 0), spec_new, [], 0%nat, []. split; [done|]. split; [apply bench_new|].
    split; [constructor|]. split; [done|]. split; [by split_and!|]. split; [done|by left].
  - cbn [iterate]. rewrite H1. cbn [mbind option_bind]. unfold immediate_body.
    pose proof H2 as (_ & _ & ->). assert (Hl : sp_live sp < POOL_CAPACITY) by (unfold POOL_CAPACITY; lia).
    destruct H7 as [[-> Hi]|[-> Hi]].
    + rewrite Nat.even_even.
      destruct (bid_at cb clock match_now s b sp _ es 100 _ H2 Hl ltac:(lia) H5) as (b1 & sp1 & E1 & E2 & E3 & E4).
      exists b1, sp1, es, k, (ids ++ [order_id (2 * k)]). rewrite length_app, E4, H6. cbn [length].
      split; [exact E1|]. split; [exact E2|]. split; [exact H3|]. split; [exact H4|]. split; [exact E3|]. lia.
    + rewrite Nat.even_odd.
      destruct (sweep_at cb clock match_now s b sp _ es 100 ids p150_00 100 H2 Hl)
        as (b1 & sp1 & es1 & E1 & E2 & E3 & E4); [lia|exact (bid_in_range 0 BUY 0 0)|apply at_least_refl|lia|lia|done|].
      rewrite Hi in E4. change (100 =? Z.of_nat 1 * 100) with true in E4. destruct E4 as [Eb E4].
      exists b1, sp1, (es ++ es1), (S k), []. rewrite Eb. pose proof (Forall2_length _ _ _ E3).
      rewrite length_app. split; [exact E1|]. split; [exact E2|].
      split; [apply Forall_app; split; [exact H3|by eapply filled_at_150]|]. split; [lia|].
      split; [by split_and!|]. cbn [length]. lia.
Qed.

(** [BM_ImmediateMatch]: of [n] orders, every second one trades at once and
    in full with the one before it, at 150.00; nothing else rests than the last
    order when [n] is odd. *)
Lemma immediate_benchmark {St : Type} (cb : option (Execution -> St -> St)) (clock : nat -> Z)
    (match_now : nat -> nat -> Z) (n : nat) (s : St) :
  exists b es, BM_ImmediateMatch cb clock match_now n s = Some b /\
    client b = foldl (fun s e => notify cb e s) s es /\
    length es = (n / 2)%nat /\ Forall (at_150 100) es /\
    poolAvailable (book b) = POOL_CAPACITY - Z.of_nat (n mod 2).
Proof.
  destruct (immediate_loop cb clock match_now s n) as (b & sp & es & k & ids & H1 & H2 & H3 & H4 & _ & H6 & H7).
  exists b, es. split; [done|]. split; [by destruct H2 as (_ & -> & _)|].
  rewrite (available_at _ _ _ _ _ _ H2), H6.
  assert (Hk : (n / 2)%nat = k /\ (n mod 2)%nat = length ids).
  { pose proof (Nat.div_mod n 2 ltac:(lia)). pose proof (Nat.mod_upper_bound n 2 ltac:(lia)). lia. }
  destruct Hk as [-> ->]. by split_and!.
Qed.

(** ** Six symbols *)

(** The book of a symbol in [BM_MultiSymbol]: [c] bids of 1, or what is left of
    the draining order after [c] trades. *)
Inductive level := Bids (c : nat) | Ask (c : nat).

Definition sweep_price (p : double) : double := (p - lit (1 # 100))%D.

Definition level_at (p : double) (lv : level) (b : SpecBook) : Prop :=
  match lv with
  | Bids c => exists ids, length ids = c /\ resting_bids p 1 ids b
  | Ask c => resting_ask (sweep_price p) (65536 - Z.of_nat c) b /\ spec_size b = 1%nat
  end.

Definition levels_at (sp : SpecState) (lvs : list level) : Prop :=
  Forall2 (fun m lv => level_at m.2 lv (sp_book_at sp (key_of m.1))) multi_symbols lvs.

(** The prices are in range and the sweep crosses the bids. *)
Definition symbol_ok (m : bytes * double) : bool :=
  (0 <=? priceToTick m.2) && (priceToTick m.2 <? MAX_TICKS) &&
  (0 <=? priceToTick (sweep_price m.2)) && (priceToTick (sweep_price m.2) <? MAX_TICKS) &&
  (priceToTick (sweep_price m.2) <=? priceToTick m.2).

Lemma multi_symbols_ok : forallb symbol_ok multi_symbols = true.
Proof. vm_compute. reflexivity. Qed.

Lemma keys_distinct : NoDup (key_of ∘ fst <$> multi_symbols).
Proof. apply (bool_decide_unpack _). vm_compute. exact I. Qed.

Lemma symbol_facts i sym p : multi_symbols !! i = Some (sym, p) ->
  in_range (priceToTick p) /\ in_range (priceToTick (sweep_price p)) /\
  at_least SELL (priceToTick (sweep_price p)) (priceToTick p) = true /\
  at_least BUY (priceToTick p) (priceToTick (sweep_price p)) = true.
Proof.
  intros Hi. pose proof multi_symbols_ok as H. rewrite forallb_forall in H.
  specialize (H (sym, p) ltac:(apply list_elem_of_In; by eapply list_elem_of_lookup_2)).
  unfold symbol_ok, in_range, at_least in *. cbn [snd] in H.
  repeat (apply andb_true_iff in H as [H ?]). split_and!; try lia.
Qed.

Section Multi.
Context {St : Type}.
Variable onExecution : option (Execution -> St -> St).
Variable clock : nat -> Z.
Variable match_now : nat -> nat -> Z.
Variable s0 : St.

Abbreviation submit := (submit onExecution clock match_now).
Abbreviation bench_at := (bench_at onExecution s0).

(** An order for symbol number [i] changes its level only. *)
Lemma level_step b sp n es lvs i sym p pr ty qty es1 bk lv : bench_at b sp n es -> levels_at sp lvs ->
  multi_symbols !! i = Some (sym, p) ->
  accepted (match_now n) sp (make_order (Z.of_nat n) sym pr ty qty (clock n)) es1 bk -> level_at p lv bk ->
  exists b' sp', submit sym pr ty qty b = Some b' /\ bench_at b' sp' (S n) (es ++ es1) /\
    levels_at sp' (<[i := lv]> lvs) /\
    sp_live sp' = sp_live sp + Z.of_nat (spec_size bk) - Z.of_nat (spec_size (sp_book_at sp (key_of sym))).
Proof.
  intros Hb Hlv Hi Hacc Hbk.
  destruct (submit_at _ _ _ _ _ _ _ _ _ _ _ _ _ _ Hb Hacc) as (b' & sp' & H1 & H2 & H3 & H4 & H5).
  exists b', sp'. split; [done|]. split; [done|]. split; [|done].
  unfold levels_at in *. rewrite Forall2_lookup in *. intros j. specialize (Hlv j).
  destruct (decide (j = i)) as [->|Hj].
  - rewrite Hi in *. inversion Hlv as [m lv0 Hm E1 E2|]. symmetry in E2. apply lookup_lt_Some in E2.
    rewrite list_lookup_insert_eq by done. constructor. cbn [fst snd]. by rewrite H3.
  - rewrite list_lookup_insert_ne by done. inversion Hlv as [m lv0 Hm E1 E2|E1 E2]; constructor.
    rewrite H5; [done|]. intros Hk. apply Hj. pose proof keys_distinct as Hnd.
    apply (NoDup_lookup _ j i (key_of sym) Hnd).
    + rewrite list_lookup_fmap, <- E1. cbn. by rewrite Hk.
    + by rewrite list_lookup_fmap, Hi.
Qed.

Lemma level_lookup sp lvs i sym p lv : levels_at sp lvs -> multi_symbols !! i = Some (sym, p) -> lvs !! i = Some lv ->
  level_at p lv (sp_book_at sp (key_of sym)).
Proof. intros H Hi Hlv. exact (Forall2_lookup_lr _ _ _ _ _ _ H Hi Hlv). Qed.

Lemma bid_size p q ids bk : resting_bids p q ids bk -> spec_size bk = length ids.
Proof. intros (Ha & Hi & _). unfold spec_size. rewrite Ha, <- Hi, length_fmap. cbn. lia. Qed.

Lemma one_positive : 0 < 1 <= INT32_MAX.
Proof. lia. Qed.

(** What each of the three orders does to a level. *)
Lemma bid_step b sp n es lvs i sym p c : bench_at b sp n es -> levels_at sp lvs ->
  multi_symbols !! i = Some (sym, p) -> lvs !! i = Some (Bids c) -> sp_live sp < POOL_CAPACITY ->
  exists b' sp', submit sym p BUY 1 b = Some b' /\ bench_at b' sp' (S n) (es ++ []) /\
    levels_at sp' (<[i := Bids (S c)]> lvs) /\ sp_live sp' = sp_live sp + 1.
Proof.
  intros Hb Hlv Hi Hc Hl. destruct (level_lookup _ _ _ _ _ _ Hlv Hi Hc) as (ids & Hids & Hbids).
  destruct (symbol_facts _ _ _ Hi) as (Hr & _).
  destruct (accept_bid (match_now n) sp (make_order (Z.of_nat n) sym p BUY 1 (clock n))
    (accepts_in_range sp (make_order (Z.of_nat n) sym p BUY 1 (clock n)) Hr Hl) one_positive p 1 ids
    eq_refl eq_refl eq_refl Hbids) as (bk & Hacc & Hbk & Hs).
  destruct (level_step b sp n es lvs i sym p p BUY 1 [] bk (Bids (S c)) Hb Hlv Hi Hacc) as (b' & sp' & H1 & H2 & H3 & H4).
  { eexists. split; [|exact Hbk]. rewrite length_app. cbn. lia. }
  exists b', sp'. split; [exact H1|]. split; [exact H2|]. split; [exact H3|].
  rewrite H4, Hs, (bid_size _ _ _ _ Hbids). lia.
Qed.

Lemma drain_step b sp n es lvs i sym p c : bench_at b sp n es -> levels_at sp lvs ->
  multi_symbols !! i = Some (sym, p) -> lvs !! i = Some (Bids c) -> sp_live sp < POOL_CAPACITY -> Z.of_nat c < 65536 ->
  exists b' sp' es1, submit sym (sweep_price p) SELL 65536 b = Some b' /\ bench_at b' sp' (S n) (es ++ es1) /\
    levels_at sp' (<[i := Ask c]> lvs) /\ length es1 = c /\ sp_live sp' = sp_live sp + 1 - Z.of_nat c.
Proof.
  intros Hb Hlv Hi Hc Hl Hn. destruct (level_lookup _ _ _ _ _ _ Hlv Hi Hc) as (ids & Hids & Hbids).
  destruct (symbol_facts _ _ _ Hi) as (_ & Hr & Hcross & _).
  assert (HQ : 0 < 65536 <= INT32_MAX) by lia.
  assert (Hle : Z.of_nat (length ids) * 1 <= 65536) by lia.
  destruct (accept_sweep (match_now n) sp (make_order (Z.of_nat n) sym (sweep_price p) SELL 65536 (clock n))
    (accepts_in_range sp (make_order (Z.of_nat n) sym (sweep_price p) SELL 65536 (clock n)) Hr Hl) HQ p 1 ids
    eq_refl one_positive Hcross Hle Hbids) as (es1 & bk & Hacc & Hf & Hbk).
  cbn [quantity make_order price] in Hbk. rewrite (proj2 (Z.eqb_neq _ _)), Hids, Z.mul_1_r in Hbk by lia.
  destruct (level_step b sp n es lvs i sym p (sweep_price p) SELL 65536 es1 bk (Ask c) Hb Hlv Hi Hacc Hbk)
    as (b' & sp' & H1 & H2 & H3 & H4).
  exists b', sp', es1. split; [exact H1|]. split; [exact H2|]. split; [exact H3|].
  split; [by rewrite <- (Forall2_length _ _ _ Hf)|]. rewrite H4, (proj2 Hbk), (bid_size _ _ _ _ Hbids). lia.
Qed.

Lemma take_step b sp n es lvs i sym p c : bench_at b sp n es -> levels_at sp lvs ->
  multi_symbols !! i = Some (sym, p) -> lvs !! i = Some (Ask c) -> sp_live sp < POOL_CAPACITY -> Z.of_nat (S c) < 65536 ->
  exists b' sp' e, submit sym p BUY 1 b = Some b' /\ bench_at b' sp' (S n) (es ++ [e]) /\
    levels_at sp' (<[i := Ask (S c)]> lvs) /\ sp_live sp' = sp_live sp.
Proof.
  intros Hb Hlv Hi Hc Hl Hn. destruct (level_lookup _ _ _ _ _ _ Hlv Hi Hc) as [Hask Hs].
  destruct (symbol_facts _ _ _ Hi) as (Hr & _ & _ & Hcross).
  assert (HQ : 1 <= 65536 - Z.of_nat c <= INT32_MAX) by lia.
  destruct (accept_take (match_now n) sp (make_order (Z.of_nat n) sym p BUY 1 (clock n))
    (accepts_in_range sp (make_order (Z.of_nat n) sym p BUY 1 (clock n)) Hr Hl) one_positive (sweep_price p) _
    eq_refl HQ Hcross Hask) as (e & bk & Hacc & _ & Hbk).
  cbn [quantity make_order] in Hbk. rewrite (proj2 (Z.eqb_neq _ _)) in Hbk by lia.
  replace (65536 - Z.of_nat c - 1) with (65536 - Z.of_nat (S c)) in Hbk by lia.
  destruct (level_step b sp n es lvs i sym p p BUY 1 [e] bk (Ask (S c)) Hb Hlv Hi Hacc Hbk) as (b' & sp' & H1 & H2 & H3 & H4).
  exists b', sp', e. split; [exact H1|]. split; [exact H2|]. split; [exact H3|].
  rewrite H4, (proj2 Hbk), Hs. lia.
Qed.

(** One order for each symbol in turn. *)
Lemma submit_each_levels (pr : double -> double) ty qty (from to : nat -> level) (fills : nat -> nat) :
  (forall b sp n es lvs i sym p c, bench_at b sp n es -> levels_at sp lvs -> multi_symbols !! i = Some (sym, p) ->
    lvs !! i = Some (from c) -> sp_live sp < POOL_CAPACITY -> Z.of_nat c < 65536 ->
    exists b' sp' es1, submit sym (pr p) ty qty b = Some b' /\ bench_at b' sp' (S n) (es ++ es1) /\
      levels_at sp' (<[i := to c]> lvs) /\ length es1 = fills c /\ sp_live sp' = sp_live sp + 1 - Z.of_nat (fills c)) ->
  forall l lvs b sp n es cs, drop (length lvs) multi_symbols = l -> bench_at b sp n es ->
    levels_at sp (lvs ++ (from <$> cs)) -> Forall (fun c => Z.of_nat c < 65536) cs ->
    sp_live sp + Z.of_nat (length l) <= POOL_CAPACITY ->
    exists b' sp' es', submit_each onExecution clock match_now
        ((fun m : bytes * double => (m.1, pr m.2)) <$> l) ty qty b = Some b' /\
      bench_at b' sp' (n + length l) (es ++ es') /\ levels_at sp' (lvs ++ (to <$> cs)) /\
      length es' = sum_list (fills <$> cs) /\
      sp_live sp' = sp_live sp + Z.of_nat (length l) - Z.of_nat (sum_list (fills <$> cs)).
Proof.
  intros Hstep l. induction l as [|[sym p] l IH]; intros lvs b sp n es cs Hdrop Hb Hlv Hcs Hl;
    pose proof (Forall2_length _ _ _ Hlv) as Hlen; rewrite length_app, length_fmap in Hlen.
  - assert (length (drop (length lvs) multi_symbols) = 0%nat) as H0 by (by rewrite Hdrop).
    rewrite length_drop in H0. assert (length cs = 0%nat) as Hz by lia. apply nil_length_inv in Hz as ->.
    exists b, sp, []. rewrite app_nil_r, Nat.add_0_r. split; [done|]. split; [exact Hb|]. split; [exact Hlv|].
    split; [done|cbn; lia].
  - assert (Hi : multi_symbols !! length lvs = Some (sym, p)).
    { rewrite <- (Nat.add_0_r (length lvs)), <- lookup_drop. by rewrite Hdrop. }
    pose proof (lookup_lt_Some _ _ _ Hi). destruct cs as [|c cs]; [change (length []) with 0%nat in Hlen; lia|].
    apply Forall_cons in Hcs as [Hc Hcs]. cbn [fmap list_fmap] in Hlv. cbn [length] in Hl.
    destruct (Hstep b sp n es _ (length lvs) sym p c Hb Hlv Hi) as (b1 & sp1 & es1 & H1 & H2 & H3 & H4 & H5);
      [by apply list_lookup_middle|lia|exact Hc|].
    rewrite insert_app_r_alt, Nat.sub_diag in H3 by lia.
    change (<[0%nat := to c]> (from c :: (from <$> cs))) with (to c :: (from <$> cs)) in H3.
    rewrite cons_middle, app_assoc in H3.
    destruct (IH (lvs ++ [to c]) b1 sp1 (S n) (es ++ es1) cs) as (b2 & sp2 & es2 & E1 & E2 & E3 & E4 & E5);
      [|exact H2|exact H3|exact Hcs|lia|].
    { rewrite (drop_S _ _ _ Hi) in Hdrop. injection Hdrop as Hdrop. rewrite length_app. cbn [length]. by rewrite Nat.add_1_r. }
    exists b2, sp2, (es1 ++ es2). cbn [fmap list_fmap submit_each fst snd]. rewrite H1. cbn [mbind option_bind length].
    split; [exact E1|]. split; [by rewrite Nat.add_succ_r, app_assoc|]. split; [by rewrite <- app_assoc in E3|].
    change (sum_list (fills c :: (fills <$> cs))) with (fills c + sum_list (fills <$> cs))%nat.
    rewrite length_app, H4, E4. split; [reflexivity|]. rewrite E5, H5. lia.
Qed.

(** ** The loop over six symbols *)

(** The orders of symbol number [i] up to the iteration [j]: one of the
    warm-up, and every sixth. *)
Definition count_at (j i : nat) : nat := S ((j + 5 - (i + 2) mod 6) / 6)%nat.

Definition counts (j : nat) : list nat := count_at j <$> seq 0 6.

(** [lia] on the quotients. *)
Ltac div_lia := unfold count_at; zify; Z.to_euclidean_division_equations; lia.

Lemma counts_0 : counts 0 = S <$> replicate 6 0%nat.
Proof. reflexivity. Qed.

Lemma counts_lookup j i : (i < 6)%nat -> counts j !! i = Some (count_at j i).
Proof. intros Hi. unfold counts. by rewrite list_lookup_fmap, lookup_seq_lt. Qed.

Lemma counts_step (j : nat) : <[((4 + j) mod 6)%nat := S (count_at j ((4 + j) mod 6)%nat)]> (counts j) = counts (S j).
Proof.
  apply list_eq. intros i. destruct (decide (i < 6)%nat) as [Hi|Hi].
  - rewrite (counts_lookup (S j)) by done. destruct (decide (i = (4 + j) mod 6)%nat) as [->|Hne].
    + rewrite list_lookup_insert_eq by (unfold counts; rewrite length_fmap, length_seq; lia).
      f_equal. div_lia.
    + rewrite list_lookup_insert_ne, counts_lookup by done. f_equal. div_lia.
  - rewrite !lookup_ge_None_2; [done|unfold counts; rewrite length_fmap, length_seq; lia|
      rewrite length_insert; unfold counts; rewrite length_fmap, length_seq; lia].
Qed.

Lemma counts_sum (j : nat) : sum_list (counts j) = (6 + j)%nat.
Proof.
  induction j as [|j IH]; [reflexivity|]. rewrite <- counts_step.
  assert (Hi : counts j !! ((4 + j) mod 6)%nat = Some (count_at j ((4 + j) mod 6)%nat))
    by (apply counts_lookup, Nat.mod_upper_bound; lia).
  pose proof (sum_list_with_insert Datatypes.id (counts j) _ _ (S (count_at j ((4 + j) mod 6)%nat)) Hi) as H.
  unfold Datatypes.id in H at 2 4. lia.
Qed.

Lemma count_bound j i : (6 * count_at j i <= j + 11)%nat.
Proof. div_lia. Qed.

Lemma submit_each_bids lvs b sp n es cs l : drop (length lvs) multi_symbols = l -> bench_at b sp n es ->
  levels_at sp (lvs ++ (Bids <$> cs)) -> Forall (fun c => Z.of_nat c < 65536) cs ->
  sp_live sp + Z.of_nat (length l) <= POOL_CAPACITY ->
  exists b' sp' es', submit_each onExecution clock match_now ((fun m : bytes * double => (m.1, m.2)) <$> l) BUY 1 b = Some b' /\
    bench_at b' sp' (n + length l) (es ++ es') /\ levels_at sp' (lvs ++ ((Bids ∘ S) <$> cs)) /\
    length es' = sum_list ((fun _ => 0%nat) <$> cs) /\
    sp_live sp' = sp_live sp + Z.of_nat (length l) - Z.of_nat (sum_list ((fun _ => 0%nat) <$> cs)).
Proof.
  apply (submit_each_levels (fun p => p) BUY 1 Bids (Bids ∘ S) (fun _ => 0%nat)).
  clear. intros b sp n es lvs i sym p c Hb Hlv Hi Hc Hl _.
  destruct (bid_step b sp n es lvs i sym p c Hb Hlv Hi Hc Hl) as (b' & sp' & H1 & H2 & H3 & H4).
  exists b', sp', []. split_and!; try done. lia.
Qed.

(** The draining orders. *)
Lemma drain_symbols b sp n es cs : bench_at b sp n es -> levels_at sp (Bids <$> cs) ->
  Forall (fun c => Z.of_nat c < 65536) cs -> sp_live sp + 6 <= POOL_CAPACITY ->
  exists b' sp' es', submit_each onExecution clock match_now multi_sweep SELL 65536 b = Some b' /\
    bench_at b' sp' (n + 6) (es ++ es') /\ levels_at sp' (Ask <$> cs) /\
    length es' = sum_list cs /\ sp_live sp' = sp_live sp + 6 - Z.of_nat (sum_list cs).
Proof.
  intros Hb Hlv Hcs Hl.
  destruct (submit_each_levels sweep_price SELL 65536 Bids Ask (fun c => c)) with (l := multi_symbols)
    (lvs := @nil level) (b := b) (sp := sp) (n := n) (es := es) (cs := cs) as (b' & sp' & es' & H1 & H2 & H3 & H4 & H5);
    [|reflexivity|exact Hb|exact Hlv|exact Hcs|exact Hl|].
  - clear. intros b sp n es lvs i sym p c Hb Hlv Hi Hc Hl Hn.
    exact (drain_step b sp n es lvs i sym p c Hb Hlv Hi Hc Hl Hn).
  - rewrite list_fmap_id in H4, H5. exists b', sp', es'.
    split; [exact H1|]. split; [exact H2|]. split; [exact H3|]. split; [exact H4|exact H5].
Qed.

(** After the warm-up. *)
Lemma warm_up : exists b sp,
  submit_each onExecution clock match_now multi_symbols BUY 1 (mkBench OrderBook_new s0 0) = Some b /\
  bench_at b sp 6 [] /\ levels_at sp (Bids <$> counts 0) /\ sp_live sp = 6.
Proof.
  destruct (submit_each_bids [] (mkBench OrderBook_new s0 0) spec_new 0 [] (replicate 6 0%nat) multi_symbols eq_refl
    (bench_new onExecution s0)) as (b & sp & es & H1 & H2 & H3 & H4 & H5).
  - cbn. repeat (constructor; [exists []; split; [done|by split_and!]|]). constructor.
  - repeat constructor; lia.
  - done.
  - exists b, sp. cbn in H4. apply nil_length_inv in H4 as ->.
    assert (Hid : (fun m : bytes * double => (m.1, m.2)) <$> multi_symbols = multi_symbols) by reflexivity.
    rewrite Hid in H1. split; [exact H1|]. split; [exact H2|]. split; [exact H3|exact H5].
Qed.

Lemma mod_100 (n : nat) : ((100 + n) mod 6 = (4 + n) mod 6)%nat.
Proof. replace (100 + n)%nat with (4 + n + 16 * 6)%nat by lia. apply Nat.Div0.mod_add. Qed.

Lemma mod_106 (n : nat) : ((106 + n) mod 6 = (4 + n) mod 6)%nat.
Proof. replace (106 + n)%nat with (4 + n + 17 * 6)%nat by lia. apply Nat.Div0.mod_add. Qed.

(** The symbol of the next order. *)
Lemma next_symbol (n j : nat) (lvl : nat -> level) : (n mod 6 = (4 + j) mod 6)%nat ->
  exists sym p, multi_symbols !! (n mod 6)%nat = Some (sym, p) /\
    (lvl <$> counts j) !! (n mod 6)%nat = Some (lvl (count_at j ((4 + j) mod 6)%nat)) /\
    <[(n mod 6)%nat := lvl (S (count_at j ((4 + j) mod 6)%nat))]> (lvl <$> counts j) = lvl <$> counts (S j).
Proof.
  intros ->. assert (Hm : ((4 + j) mod 6 < 6)%nat) by (apply Nat.mod_upper_bound; lia).
  destruct (lookup_lt_is_Some_2 multi_symbols ((4 + j) mod 6)%nat Hm) as [[sym p] Hi].
  exists sym, p. split; [exact Hi|]. split.
  - by rewrite list_lookup_fmap, counts_lookup by done.
  - rewrite <- counts_step. by rewrite list_fmap_insert.
Qed.

Abbreviation multi n := (BM_MultiSymbol onExecution clock match_now n s0).

Lemma multi_step n b : multi n = Some b -> multi (S n) = multi_body onExecution clock match_now b.
Proof.
  unfold BM_MultiSymbol. cbn [iterate]. destruct (submit_each _ _ _ multi_symbols _ _ _) as [w|]; [|done].
  cbn [mbind option_bind]. by intros ->.
Qed.

(** Until the first drain only bids come in. *)
Lemma multi_before n : Z.of_nat n <= 65521 -> exists b sp, multi n = Some b /\ bench_at b sp (100 + n) [] /\
  levels_at sp (Bids <$> counts n) /\ sp_live sp = 6 + Z.of_nat n.
Proof.
  induction n as [|n IH]; intros Hn.
  - destruct warm_up as (w & sp & H1 & (Hr & Hc & _) & H3 & H4).
    exists (mkBench (book w) (client w) 100), sp. unfold BM_MultiSymbol. rewrite H1. cbn [mbind option_bind iterate].
    split; [reflexivity|]. split; [split; [exact Hr|split; [exact Hc|reflexivity]]|]. split; [exact H3|lia].
  - destruct (IH ltac:(lia)) as (b & sp & H1 & H2 & H3 & H4). rewrite (multi_step _ _ H1). unfold multi_body.
    rewrite (available_at _ _ _ _ _ _ H2), H4. unfold POOL_CAPACITY. rewrite (proj2 (Z.ltb_ge _ _)) by lia.
    cbn [mbind option_bind]. pose proof H2 as (_ & _ & ->).
    destruct (next_symbol _ _ Bids (mod_100 n)) as (sym & p & Hi & Hc & Hs). rewrite Hi.
    destruct (bid_step b sp _ [] _ _ sym p _ H2 H3 Hi Hc ltac:(unfold POOL_CAPACITY; lia)) as (b' & sp' & E1 & E2 & E3 & E4).
    exists b', sp'. rewrite Hs in E3. rewrite Nat.add_succ_r. split; [exact E1|]. split; [exact E2|]. split; [exact E3|lia].
Qed.

(** From the drain on every bid trades with what is left of an ask. *)
Lemma multi_take b sp seq es n : bench_at b sp seq es -> levels_at sp (Ask <$> counts n) ->
  (seq mod 6 = (4 + n) mod 6)%nat -> sp_live sp < POOL_CAPACITY -> Z.of_nat n <= 393000 ->
  exists b' sp' e, match multi_symbols !! (seq mod 6)%nat with Some (sym, p) => submit sym p BUY 1 b | None => None end = Some b' /\
    bench_at b' sp' (S seq) (es ++ [e]) /\ levels_at sp' (Ask <$> counts (S n)) /\ sp_live sp' = sp_live sp.
Proof.
  intros Hb Hlv Hm Hl Hn. destruct (next_symbol _ _ Ask Hm) as (sym & p & Hi & Hc & Hs). rewrite Hi.
  pose proof (count_bound n ((4 + n) mod 6)%nat) as Hbound.
  destruct (take_step b sp seq es _ _ sym p _ Hb Hlv Hi Hc Hl ltac:(lia)) as (b' & sp' & e & E1 & E2 & E3 & E4).
  exists b', sp', e. rewrite Hs in E3. split; [exact E1|]. split; [exact E2|]. split; [exact E3|exact E4].
Qed.

Lemma multi_after m d : Z.of_nat m = 65521 -> Z.of_nat (m + d) <= 393000 ->
  exists b sp es, multi (S (m + d)) = Some b /\ bench_at b sp (106 + S (m + d)) es /\
    levels_at sp (Ask <$> counts (S (m + d))) /\ length es = (S (m + d) + 6)%nat /\ sp_live sp = 6.
Proof.
  intros Hm. induction d as [|d IH]; intros Hn.
  - rewrite Nat.add_0_r. destruct (multi_before m ltac:(lia)) as (b & sp & H1 & H2 & H3 & H4).
    rewrite (multi_step _ _ H1). unfold multi_body.
    rewrite (available_at _ _ _ _ _ _ H2), H4. unfold POOL_CAPACITY. rewrite (proj2 (Z.ltb_lt _ _)) by lia.
    assert (Hcs : Forall (fun c => Z.of_nat c < 65536) (counts m)).
    { unfold counts. apply Forall_fmap, Forall_forall. intros i _. cbn. pose proof (count_bound m i). lia. }
    destruct (drain_symbols b sp _ [] _ H2 H3 Hcs ltac:(unfold POOL_CAPACITY; lia)) as (b1 & sp1 & es & E1 & E2 & E3 & E4 & E5).
    rewrite E1. cbn [mbind option_bind]. pose proof E2 as (_ & _ & ->). rewrite counts_sum in E4, E5. cbn [app] in E2.
    destruct (multi_take b1 sp1 _ es m E2 E3) as (b2 & sp2 & e & F1 & F2 & F3 & F4);
      [replace (100 + m + 6)%nat with (106 + m)%nat by lia; apply mod_106|unfold POOL_CAPACITY; lia|lia|].
    exists b2, sp2, (es ++ [e]). split; [exact F1|]. split; [|split; [exact F3|]].
    + replace (106 + S m)%nat with (S (100 + m + 6)) by lia. exact F2.
    + rewrite length_app, E4. cbn [length]. lia.
  - destruct (IH ltac:(lia)) as (b & sp & es & H1 & H2 & H3 & H4 & H5). rewrite Nat.add_succ_r.
    rewrite (multi_step _ _ H1). unfold multi_body.
    rewrite (available_at _ _ _ _ _ _ H2), H5. cbn [POOL_CAPACITY Z.ltb Z.sub]. change (POOL_CAPACITY - 6 <? 10) with false.
    cbn [mbind option_bind]. pose proof H2 as (_ & _ & ->).
    destruct (multi_take b sp _ es _ H2 H3) as (b2 & sp2 & e & F1 & F2 & F3 & F4);
      [apply mod_106|unfold POOL_CAPACITY; lia|lia|].
    exists b2, sp2, (es ++ [e]). split; [exact F1|]. split; [|split; [exact F3|]].
    + replace (106 + S (S (m + d)))%nat with (S (106 + S (m + d))) by lia. exact F2.
    + rewrite length_app, H4. cbn [length]. lia.
Qed.

End Multi.

(** [BM_MultiSymbol] crosses: no order of the first 65521 iterations trades;
    then the six draining orders sell more than the bids of their symbols, and
    every timed bid that follows, at least until iteration 393000, trades with
    what is left of one of them. *)
Lemma multi_benchmark {St : Type} (cb : option (Execution -> St -> St)) (clock : nat -> Z)
    (match_now : nat -> nat -> Z) (n : nat) (s : St) :
  Z.of_nat n <= 393000 ->
  exists b es, BM_MultiSymbol cb clock match_now n s = Some b /\
    client b = foldl (fun s e => notify cb e s) s es /\
    if Z.of_nat n <=? 65521 then es = [] /\ poolAvailable (book b) = POOL_CAPACITY - 6 - Z.of_nat n
    else length es = (n + 6)%nat /\ poolAvailable (book b) = POOL_CAPACITY - 6.
Proof.
  intros Hn. destruct (Z.leb_spec (Z.of_nat n) 65521) as [H|H].
  - destruct (multi_before cb clock match_now s n H) as (b & sp & H1 & H2 & _ & H4).
    exists b, []. split; [exact H1|]. split; [by destruct H2 as (_ & -> & _)|]. split; [done|].
    rewrite (available_at _ _ _ _ _ _ H2), H4. lia.
  - assert (Hm : exists m d, n = S (m + d) /\ Z.of_nat m = 65521).
    { exists (Z.to_nat 65521), (n - Z.to_nat 65521 - 1)%nat. lia. }
    destruct Hm as (m & d & -> & Hm).
    destruct (multi_after cb clock match_now s m d Hm ltac:(lia)) as (b & sp & es & H1 & H2 & _ & H4 & H5).
    exists b, es. split; [exact H1|]. split; [by destruct H2 as (_ & -> & _)|]. split; [exact H4|].
    by rewrite (available_at _ _ _ _ _ _ H2), H5.
Qed.

(** ** Claims *)

(** What the order book benchmarks execute, for any clock and callback.
    [BM_SweepMatch]: the timed order makes one execution with each of the
    resting bids, in their order of arrival, of quantity 1 at their price, and
    every slot goes back to the pool.  [BM_ImmediateMatch]: every second order
    trades at once and in full, at 150.00.  [BM_Insert_NoMatch]: no callback is
    made in the first 65535 iterations; the next one first sells ten more than
    the bids, so that the timed bid that follows does trade.
    [BM_MultiSymbol]: no order of the first 65521 iterations trades, and every
    timed bid after the six draining orders does, up to iteration 393000. *)
Theorem order_book_benchmarks {St : Type} (cb : option (Execution -> St -> St)) (clock : nat -> Z)
    (match_now : nat -> nat -> Z) (n : nat) (s : St) :
  ((0 < n)%nat -> Z.of_nat n < POOL_CAPACITY ->
   exists b es, sweep_body cb clock match_now n s = Some b /\
    client b = foldl (fun s e => notify cb e s) s es /\
    Forall2 (filled p150_00 1) (order_id <$> seq 0 n) es /\
    poolAvailable (book b) = POOL_CAPACITY) /\
  (exists b es, BM_ImmediateMatch cb clock match_now n s = Some b /\
    client b = foldl (fun s e => notify cb e s) s es /\
    length es = (n / 2)%nat /\ Forall (at_150 100) es /\
    poolAvailable (book b) = POOL_CAPACITY - Z.of_nat (n mod 2)) /\
  (Z.of_nat n <= POOL_CAPACITY ->
   exists b es, BM_Insert_NoMatch cb clock match_now n s = Some b /\
    client b = foldl (fun s e => notify cb e s) s es /\
    if Z.of_nat n =? POOL_CAPACITY
    then poolAvailable (book b) = POOL_CAPACITY /\
      exists drain e, es = drain ++ [e] /\ Forall2 (filled p150_00 10) (order_id <$> seq 0 (n - 1)) drain /\
        filled p149_99 10 (order_id n) e
    else es = [] /\ poolAvailable (book b) = POOL_CAPACITY - Z.of_nat n) /\
  (Z.of_nat n <= 393000 ->
   exists b es, BM_MultiSymbol cb clock match_now n s = Some b /\
    client b = foldl (fun s e => notify cb e s) s es /\
    if Z.of_nat n <=? 65521 then es = [] /\ poolAvailable (book b) = POOL_CAPACITY - 6 - Z.of_nat n
    else length es = (n + 6)%nat /\ poolAvailable (book b) = POOL_CAPACITY - 6).
Proof.
  split; [exact (sweep_benchmark cb clock match_now n s)|].
  split; [exact (immediate_benchmark cb clock match_now n s)|].
  split; [exact (insert_benchmark cb clock match_now s n)|exact (multi_benchmark cb clock match_now n s)].
Qed.

Lemma order_book_benchmarks_witness :
  (exists b es, sweep_body (Some record_execution) (fun _ => 0) (fun _ _ => 0) 3 [] = Some b /\
    Forall2 (filled p150_00 1) (order_id <$> seq 0 3) es /\ poolAvailable (book b) = 65536) /\
  (exists b, BM_Insert_NoMatch (Some record_execution) (fun _ => 0) (fun _ _ => 0) 3 [] = Some b /\
    client b = [] /\ poolAvailable (book b) = 65533) /\
  (exists b, BM_MultiSymbol (Some record_execution) (fun _ => 0) (fun _ _ => 0) 3 [] = Some b /\
    client b = [] /\ poolAvailable (book b) = 65527).
Proof.
  destruct (order_book_benchmarks (Some record_execution) (fun _ => 0) (fun _ _ => 0) 3 []) as (H1 & _ & H2 & H3).
  split; [|split].
  - destruct (H1 ltac:(lia) ltac:(reflexivity)) as (b & es & E1 & _ & E2 & E3).
    exists b, es. split; [exact E1|]. split; [exact E2|exact E3].
  - destruct (H2 ltac:(unfold POOL_CAPACITY; lia)) as (b & es & E1 & E2 & E3).
    change (Z.of_nat 3 =? POOL_CAPACITY) with false in E3. destruct E3 as [-> E3].
    exists b. split; [exact E1|]. split; [exact E2|exact E3].
  - destruct (H3 ltac:(lia)) as (b & es & E1 & E2 & E3).
    change (Z.of_nat 3 <=? 65521) with true in E3. destruct E3 as [-> E3].
    exists b. split; [exact E1|]. split; [exact E2|exact E3].
Defined.
