(* ===== verification/BenchPool.v ===== *)
(** * The benchmarks of the object pool: bench/bench_object_pool.cpp

    The loops of the four functions for any number of iterations, on
    [ObjectPool<Order, 65536>].  [None] is a write through [nullptr]. *)

From Stdlib Require Import QArith_base.
From S2P Require Import Prelude Float64 Messages ObjectPool OrderBook.

Local Open Scope Z_scope.

Abbreviation pool := (ObjectPool Order).
Definition new_pool : pool := ObjectPool_new POOL_CAPACITY.

(** ** The heap

    [operator new] returns storage that no live object occupies; the allocator
    is the library's, and the parameter [fresh] is its choice. *)

Section Heap.
Variable fresh : gset Z -> Z.
Hypothesis fresh_new : forall live, fresh live ∉ live.

(** An iteration of [BM_Heap_NewDelete], on the addresses in use: the object is
    constructed, and deleted; [None] is the delete of an address not in use. *)
Definition heap_body (live : gset Z) : option (gset Z) :=
  let o := fresh live in
  let live := {[o]} ∪ live in
  if decide (o ∈ live) then Some (live ∖ {[o]}) else None.

Definition BM_Heap_NewDelete (n : nat) (live : gset Z) : option (gset Z) := iterate n heap_body live.

(** Whatever the allocator does, nothing is leaked and nothing of the others'
    is freed. *)
Lemma heap_benchmark n live : BM_Heap_NewDelete n live = Some live.
Proof.
  assert (H : heap_body live = Some live).
  { unfold heap_body. pose proof (fresh_new live) as Hf. rewrite decide_True by (apply elem_of_union_l; by apply elem_of_singleton).
    f_equal. rewrite difference_union_distr_l_L, difference_diag_L, (left_id_L ∅ (∪)).
    apply difference_disjoint_L. by apply disjoint_singleton_r. }
  unfold BM_Heap_NewDelete. induction n as [|n IH]; cbn [iterate]; [done|]. by rewrite IH.
Qed.
End Heap.

(** ** The pools *)

(** [o->price = 150.0; o->quantity = 100] *)
Definition write_order (o : Order) : Order :=
  mkOrder (id o) (symbol o) (lit 150) (order_type o) 100 (arrival_ns o) (next o).

(** An iteration of [BM_Pool_AllocRelease]. *)
Definition alloc_release_body (p : pool) : option pool :=
  let '(o, p) := alloc p in
  match o with
  | Some i => Some (release (store p i (write_order (deref Order_zero p i))) o)
  | None => None
  end.

Definition BM_Pool_AllocRelease (n : nat) : option pool := iterate n alloc_release_body new_pool.

(** The two inner loops of [BM_Pool_BatchAlloc]: [N] allocations appended to
    [ptrs], and its release from the back. *)
Fixpoint alloc_n (N : nat) (p : pool) (ptrs : list ptr) : pool * list ptr :=
  match N with
  | O => (p, ptrs)
  | S N' => let '(o, p) := alloc p in alloc_n N' p (ptrs ++ [o])
  end.

Definition release_reverse (p : pool) (ptrs : list ptr) : pool := foldl release p (reverse ptrs).

(** An iteration: the pool, and the objects it was given. *)
Definition batch_body (N : nat) (p : pool) : pool * list ptr :=
  let '(p, ptrs) := alloc_n N p [] in (release_reverse p ptrs, ptrs).

Fixpoint BM_Pool_BatchAlloc (N iterations : nat) (p : pool) : pool * list (list ptr) :=
  match iterations with
  | O => (p, [])
  | S k => let '(p, ptrs) := batch_body N p in
           let '(p, rest) := BM_Pool_BatchAlloc N k p in (p, ptrs :: rest)
  end.

Definition LEAVE_FREE : Z := 64.

(** [while (pool.available() > LEAVE_FREE) held.push_back(pool.alloc())] *)
Fixpoint hold (fuel : nat) (p : pool) (held : list ptr) : option (pool * list ptr) :=
  if available p <=? LEAVE_FREE then Some (p, held)
  else match fuel with
       | O => None
       | S f => let '(o, p) := alloc p in hold f p (held ++ [o])
       end.

(** The timed iteration of [BM_Pool_NearExhaustion]: nothing is written. *)
Definition near_body (p : pool) : option pool :=
  let '(o, p) := alloc p in Some (release p o).

Definition BM_Pool_NearExhaustion (n : nat) : option pool :=
  '(p, held) ← hold (Z.to_nat POOL_CAPACITY) new_pool [];
  p ← iterate n near_body p;
  Some (foldl release p held).

(** ** Stacks of free slots *)

(** Taking an object and giving it back leaves the stack. *)
Lemma alloc_release_same (p : pool) fs x q : pool_rep p (fs ++ [x]) -> Z.of_nat (length fs) + 1 < 2 ^ 64 ->
  alloc p = (Some x, q) -> pool_rep (release q (Some x)) (fs ++ [x]).
Proof.
  intros Hp Hl Ha. destruct (alloc_snoc p fs x Hp) as (q' & E & Hq & _). rewrite Ha in E. injection E as <-.
  by apply release_rep.
Qed.

Lemma alloc_n_rep N : forall p fs l ptrs, pool_rep p (fs ++ l) -> length l = N ->
  exists p', alloc_n N p ptrs = (p', ptrs ++ (Some <$> reverse l)) /\ pool_rep p' fs.
Proof.
  induction N as [|N IH]; intros p fs l ptrs Hp Hl; cbn [alloc_n].
  - apply nil_length_inv in Hl as ->. rewrite app_nil_r in Hp. exists p. by rewrite app_nil_r.
  - destruct l as [|x l _] using rev_ind; [done|]. rewrite length_app in Hl. cbn in Hl.
    rewrite app_assoc in Hp. destruct (alloc_snoc p (fs ++ l) x Hp) as (p1 & -> & Hp1 & _).
    destruct (IH p1 fs l (ptrs ++ [Some x]) Hp1 ltac:(lia)) as (p2 & -> & Hp2).
    exists p2. split; [|done]. by rewrite reverse_app, <- app_assoc.
Qed.

Lemma release_all_rep l : forall (p : pool) fs, pool_rep p fs -> Z.of_nat (length (fs ++ l)) < 2 ^ 64 ->
  pool_rep (foldl release p (Some <$> l)) (fs ++ l).
Proof.
  induction l as [|x l IH]; intros p fs Hp Hl; cbn [fmap list_fmap foldl]; [by rewrite app_nil_r|].
  rewrite cons_middle, app_assoc in *. apply IH; [|done].
  rewrite !length_app in Hl. cbn [length] in Hl. apply release_rep; [lia|done].
Qed.

(** An iteration leaves the pool as it was, and the objects it got are the top
    of the stack, the topmost first. *)
Lemma batch_rep N p fs l : pool_rep p (fs ++ l) -> length l = N -> Z.of_nat (length (fs ++ l)) < 2 ^ 64 ->
  exists p', batch_body N p = (p', Some <$> reverse l) /\ pool_rep p' (fs ++ l).
Proof.
  intros Hp Hl Hb. unfold batch_body. destruct (alloc_n_rep N p fs l [] Hp Hl) as (p1 & -> & Hp1).
  eexists. split; [reflexivity|]. unfold release_reverse. cbn [app].
  rewrite <- fmap_reverse, reverse_involutive. by apply release_all_rep.
Qed.

Lemma hold_rep l : forall fuel p fs held, pool_rep p (fs ++ l) -> Z.of_nat (length fs) = LEAVE_FREE ->
  (length l <= fuel)%nat -> exists p', hold fuel p held = Some (p', held ++ (Some <$> reverse l)) /\ pool_rep p' fs.
Proof.
  induction l as [|x l IH] using rev_ind; intros fuel p fs held Hp Hfs Hf.
  - rewrite app_nil_r in Hp. exists p. rewrite app_nil_r. split; [|done].
    pose proof (pool_rep_available _ _ Hp) as Ha.
    destruct fuel; cbn [hold]; rewrite Ha, (proj2 (Z.leb_le _ _)) by lia; done.
  - rewrite length_app in Hf. cbn [length] in Hf. destruct fuel as [|fuel]; [lia|].
    cbn [hold]. rewrite (pool_rep_available _ _ Hp), !length_app. cbn [length].
    rewrite (proj2 (Z.leb_gt _ _)) by lia.
    rewrite app_assoc in Hp. destruct (alloc_snoc p (fs ++ l) x Hp) as (p1 & -> & Hp1 & _).
    destruct (IH fuel p1 fs (held ++ [Some x]) Hp1 Hfs ltac:(lia)) as (p2 & -> & Hp2).
    exists p2. split; [|done]. by rewrite reverse_app, <- app_assoc.
Qed.

(** Holding all but the last free slots, then taking and giving back, then
    releasing what is held. *)
Lemma near_rep fuel p0 l n : pool_rep p0 (seqZ 0 LEAVE_FREE ++ l) -> (length l <= fuel)%nat ->
  Z.of_nat (length (seqZ 0 LEAVE_FREE ++ l)) < 2 ^ 64 ->
  exists p, hold fuel p0 [] = Some (p, Some <$> reverse l) /\ pool_rep p (seqZ 0 LEAVE_FREE) /\
    exists p1, iterate n near_body p = Some p1 /\
      pool_rep (foldl release p1 (Some <$> reverse l)) (seqZ 0 LEAVE_FREE ++ reverse l).
Proof.
  intros H0 Hf Hb. destruct (hold_rep l fuel p0 (seqZ 0 LEAVE_FREE) [] H0 ltac:(by rewrite length_seqZ) Hf) as (p & Hhold & Hp).
  exists p. split; [exact Hhold|]. split; [exact Hp|].
  destruct (iterate_inv (fun p => pool_rep p (seqZ 0 LEAVE_FREE)) near_body n p Hp) as (p1 & H1 & Hp1).
  { intros q Hq. unfold near_body. destruct (alloc_snoc q (seqZ 0 63) 63 Hq) as (q' & E & _).
    rewrite E. eexists. split; [reflexivity|]. exact (alloc_release_same q (seqZ 0 63) 63 q' Hq eq_refl E). }
  exists p1. split; [exact H1|]. apply release_all_rep; [exact Hp1|].
  rewrite length_app, length_reverse in *. exact Hb.
Qed.

Lemma new_pool_rep k : 0 <= k <= POOL_CAPACITY -> pool_rep new_pool (seqZ 0 k ++ seqZ k (POOL_CAPACITY - k)).
Proof.
  intros Hk. rewrite <- (Z.add_0_l k) at 2. rewrite <- seqZ_app by lia.
  replace (k + (POOL_CAPACITY - k)) with POOL_CAPACITY by lia. by apply pool_rep_new.
Qed.

(** ** The three benchmarks *)

(** [BM_Pool_BatchAlloc]: for every batch the pool can hold, each iteration
    gets the same distinct objects, from the end of the slab on, and the
    release in reverse order puts the free stack back as it was. *)
Lemma batch_benchmark (N iterations : nat) (p : pool) : Z.of_nat N <= POOL_CAPACITY ->
  pool_rep p (seqZ 0 POOL_CAPACITY) ->
  exists p', BM_Pool_BatchAlloc N iterations p =
      (p', replicate iterations (Some <$> reverse (seqZ (POOL_CAPACITY - Z.of_nat N) (Z.of_nat N)))) /\
    pool_rep p' (seqZ 0 POOL_CAPACITY) /\ available p' = POOL_CAPACITY.
Proof.
  intros HN. set (l := seqZ (POOL_CAPACITY - Z.of_nat N) (Z.of_nat N)).
  assert (Hsplit : seqZ 0 POOL_CAPACITY = seqZ 0 (POOL_CAPACITY - Z.of_nat N) ++ l).
  { unfold l. rewrite <- (Z.add_0_l (POOL_CAPACITY - Z.of_nat N)) at 2. rewrite <- seqZ_app by lia. f_equal. lia. }
  assert (Hlen : Z.of_nat (length (seqZ 0 POOL_CAPACITY)) = POOL_CAPACITY)
    by (rewrite length_seqZ; apply Z2Nat.id; unfold POOL_CAPACITY; lia).
  revert p. induction iterations as [|k IH]; intros p Hp; cbn [BM_Pool_BatchAlloc replicate].
  - exists p. split; [reflexivity|]. split; [exact Hp|]. rewrite (pool_rep_available _ _ Hp). exact Hlen.
  - pose proof Hlen as Hlen'. rewrite Hsplit in Hp, Hlen'.
    destruct (batch_rep N p _ l Hp) as (p1 & -> & Hp1);
      [unfold l; rewrite length_seqZ; lia|rewrite Hlen'; unfold POOL_CAPACITY; lia|].
    rewrite <- Hsplit in Hp1. destruct (IH p1 Hp1) as (p2 & -> & Hp2). exists p2. split; [reflexivity|exact Hp2].
Qed.

(** [BM_Pool_NearExhaustion]: the filling loop ends with 64 slots left, every
    timed iteration finds an object and leaves 64, and the final releases give
    every slot back exactly once. *)
Lemma near_exhaustion_benchmark (n : nat) :
  exists p held, hold (Z.to_nat POOL_CAPACITY) new_pool [] = Some (p, Some <$> held) /\ available p = LEAVE_FREE /\
    NoDup held /\ Z.of_nat (length held) = POOL_CAPACITY - LEAVE_FREE /\
    exists p' fs, BM_Pool_NearExhaustion n = Some p' /\ pool_rep p' fs /\ fs ≡ₚ seqZ 0 POOL_CAPACITY.
Proof.
  pose proof (new_pool_rep LEAVE_FREE ltac:(unfold LEAVE_FREE, POOL_CAPACITY; lia)) as Hnew.
  assert (Hl : Z.of_nat (length (seqZ LEAVE_FREE (POOL_CAPACITY - LEAVE_FREE))) = POOL_CAPACITY - LEAVE_FREE)
    by (rewrite length_seqZ; apply Z2Nat.id; unfold LEAVE_FREE, POOL_CAPACITY; lia).
  assert (Hperm : seqZ 0 LEAVE_FREE ++ seqZ LEAVE_FREE (POOL_CAPACITY - LEAVE_FREE) = seqZ 0 POOL_CAPACITY).
  { rewrite <- (Z.add_0_l LEAVE_FREE) at 2. rewrite <- seqZ_app by (unfold LEAVE_FREE, POOL_CAPACITY; lia). reflexivity. }
  pose proof (NoDup_seqZ LEAVE_FREE (POOL_CAPACITY - LEAVE_FREE)) as Hnd.
  unfold BM_Pool_NearExhaustion. revert Hnew Hl Hperm Hnd. generalize (seqZ LEAVE_FREE (POOL_CAPACITY - LEAVE_FREE)).
  intros l Hnew Hl Hperm Hnd.
  assert (Hfuel : (length l <= Z.to_nat POOL_CAPACITY)%nat).
  { apply Nat2Z.inj_le. rewrite Z2Nat.id, Hl by (unfold POOL_CAPACITY; lia). unfold LEAVE_FREE. lia. }
  revert Hfuel Hnew. generalize (Z.to_nat POOL_CAPACITY) new_pool. intros fuel p0 Hfuel Hnew.
  destruct (near_rep fuel p0 l n Hnew Hfuel) as (p & Hhold & Hp & p1 & H1 & H2).
  { rewrite length_app, Nat2Z.inj_add, Hl, length_seqZ. unfold POOL_CAPACITY, LEAVE_FREE. lia. }
  exists p, (reverse l). split; [exact Hhold|]. split; [by rewrite (pool_rep_available _ _ Hp), length_seqZ|].
  split; [by rewrite reverse_Permutation|]. split; [by rewrite length_reverse|].
  rewrite Hhold. cbn [mbind option_bind]. cbv beta iota. rewrite H1.
  eexists _, _. split; [reflexivity|]. split; [exact H2|]. by rewrite reverse_Permutation, Hperm.
Qed.

(** [BM_Pool_AllocRelease] never meets [nullptr] and leaves the pool full. *)
Lemma alloc_release_benchmark (n : nat) :
  exists p, BM_Pool_AllocRelease n = Some p /\ pool_rep p (seqZ 0 POOL_CAPACITY).
Proof.
  pose proof (new_pool_rep (POOL_CAPACITY - 1) ltac:(unfold POOL_CAPACITY; lia)) as Hnew.
  assert (Hs : seqZ 0 (POOL_CAPACITY - 1) ++ [POOL_CAPACITY - 1] = seqZ 0 POOL_CAPACITY).
  { change [POOL_CAPACITY - 1] with (seqZ (0 + (POOL_CAPACITY - 1)) 1).
    rewrite <- seqZ_app by (unfold POOL_CAPACITY; lia). reflexivity. }
  assert (Hl : Z.of_nat (length (seqZ 0 (POOL_CAPACITY - 1))) = POOL_CAPACITY - 1)
    by (rewrite length_seqZ; apply Z2Nat.id; unfold POOL_CAPACITY; lia).
  change (seqZ (POOL_CAPACITY - 1) (POOL_CAPACITY - (POOL_CAPACITY - 1))) with [POOL_CAPACITY - 1] in Hnew.
  rewrite <- Hs. unfold BM_Pool_AllocRelease. revert Hnew Hl. generalize (seqZ 0 (POOL_CAPACITY - 1)) new_pool.
  intros fs p0 Hnew Hl. apply (iterate_inv (fun p => pool_rep p (fs ++ [POOL_CAPACITY - 1]))); [exact Hnew|].
  intros p Hp. unfold alloc_release_body. destruct (alloc_snoc p fs _ Hp) as (q & -> & Hq & _).
  eexists. split; [reflexivity|]. apply release_rep; [rewrite Hl; unfold POOL_CAPACITY; lia|by apply store_rep].
Qed.

(** ** Claims *)

(** What the pool benchmarks execute, whatever the number of iterations.
    [BM_Pool_AllocRelease] never meets [nullptr] and leaves the pool full.
    [BM_Pool_BatchAlloc]: each iteration gets the same distinct objects, from
    the end of the slab on, and the releases in reverse order put the free
    stack back as it was.  [BM_Pool_NearExhaustion]: the filling loop ends with
    64 slots left, every timed iteration finds an object and leaves 64, and the
    final releases give every slot back exactly once. *)
Theorem pool_benchmarks (N iterations : nat) :
  Z.of_nat N <= POOL_CAPACITY ->
  (exists p, BM_Pool_AllocRelease iterations = Some p /\ pool_rep p (seqZ 0 POOL_CAPACITY)) /\
  (exists p, BM_Pool_BatchAlloc N iterations new_pool =
      (p, replicate iterations (Some <$> reverse (seqZ (POOL_CAPACITY - Z.of_nat N) (Z.of_nat N)))) /\
    pool_rep p (seqZ 0 POOL_CAPACITY) /\ available p = POOL_CAPACITY) /\
  (exists p held, hold (Z.to_nat POOL_CAPACITY) new_pool [] = Some (p, Some <$> held) /\ available p = LEAVE_FREE /\
    NoDup held /\ Z.of_nat (length held) = POOL_CAPACITY - LEAVE_FREE /\
    exists p' fs, BM_Pool_NearExhaustion iterations = Some p' /\ pool_rep p' fs /\ fs ≡ₚ seqZ 0 POOL_CAPACITY).
Proof.
  intros HN. split; [exact (alloc_release_benchmark iterations)|].
  split; [|exact (near_exhaustion_benchmark iterations)].
  apply (batch_benchmark N iterations new_pool HN), pool_rep_new. unfold POOL_CAPACITY. lia.
Qed.

Lemma pool_benchmarks_witness : exists p',
  BM_Pool_BatchAlloc 3 2 new_pool = (p', [[Some 65535; Some 65534; Some 65533]; [Some 65535; Some 65534; Some 65533]]) /\
  available p' = 65536.
Proof.
  destruct (pool_benchmarks 3 2 ltac:(unfold POOL_CAPACITY; lia)) as (_ & (p' & H1 & _ & H2) & _).
  exists p'. split; [exact H1|exact H2].
Defined.
