(* ===== verification/BenchQueue.v ===== *)
(** * The benchmarks of the queue: bench/bench_spsc_queue.cpp

    The loops of the functions for any number of iterations.  The two threads
    of [BM_TwoThread_Throughput] are a step relation; a push of a full queue
    and a pop of an empty one are the turns of a spin, which change nothing. *)

From Stdlib Require Import QArith_base.
From S2P Require Import Prelude Threads Float64 CString Messages SpscQueue.

Local Open Scope Z_scope.

Definition Tick_none : Tick := mkTick (zeros 8) fzero fzero fzero 0.

Definition make_tick (sym : bytes) (p : double) : Tick :=
  mkTick (strncpy (zeros 8) sym 7) (p - lit (1 # 100))%D (p + lit (1 # 100))%D p 0.

(** ** One thread *)

(** [q.push(tick); q.pop(out)]: [out] keeps its value when the pop fails. *)
Definition round_trip_body (tick : Tick) (s : SpscQueue Tick * Tick) : option (SpscQueue Tick * Tick) :=
  let '(_, q) := push s.1 tick in
  let '(r, q) := pop Tick_none q in
  Some (q, default s.2 r).

Definition BM_RoundTrip (n : nat) : option (SpscQueue Tick * Tick) :=
  iterate n (round_trip_body (make_tick (B "AAPL") (lit 150))) (SpscQueue_new 4096, Tick_none).

Definition BM_CapacitySweep (cap : Z) (n : nat) : option (SpscQueue Tick * Tick) :=
  iterate n (round_trip_body (make_tick (B "GOOGL") (lit 140))) (SpscQueue_new cap, Tick_none).

(** [while (q.pop(drain)) {}], then the timed push and its result. *)
Definition push_only_body (tick : Tick) (s : SpscQueue Tick * list bool) : option (SpscQueue Tick * list bool) :=
  let '(q, _) := drain Tick_none (S (Z.to_nat (size s.1))) (fun _ u => u) s.1 () in
  let '(ok, q) := push q tick in
  Some (q, s.2 ++ [ok]).

Definition BM_PushOnly (n : nat) : option (SpscQueue Tick * list bool) :=
  iterate n (push_only_body (make_tick (B "MSFT") (lit 300))) (SpscQueue_new 1000000, []).

(** ** The capacity does not change *)

Lemma push_capacity {T} (q : SpscQueue T) x : capacity_ (push q x).2 = capacity_ q.
Proof. unfold push. by destruct (_ =? _). Qed.

Lemma pop_capacity {T} (z : T) q : capacity_ (pop z q).2 = capacity_ q.
Proof. unfold pop. by destruct (_ =? _). Qed.

Lemma drain_capacity {T St} (z : T) (body : T -> St -> St) fuel : forall q s,
  capacity_ (drain z fuel body q s).1 = capacity_ q.
Proof.
  induction fuel as [|f IH]; intros q s; cbn [drain]; [done|].
  pose proof (pop_capacity z q) as Hp. destruct (pop z q) as [[x|] q']; cbn [snd] in Hp; [by rewrite IH|done].
Qed.

(** ** Two threads *)

Inductive producer_pc := PStart | PLoop (left : nat) | PSignal | PEnd.
Inductive consumer_pc := CLoop (left : nat) | CWait | CDrain | CEnd.

Record TwoThread := mkTwo {
  s_shared_queue : SpscQueue Z;
  s_producer_done : bool;
  producer : producer_pc;
  consumer : consumer_pc;
  popped : list Z }.      (* what the consumer got *)

Section TwoThread.
Variable n : nat.         (* the iterations of each thread *)

Definition loop_p (k : nat) : producer_pc := match k with O => PSignal | _ => PLoop k end.
Definition loop_c (k : nat) : consumer_pc := match k with O => CWait | _ => CLoop k end.

Definition producer_turn (s : TwoThread) : option TwoThread :=
  match producer s with
  | PStart => Some (mkTwo (s_shared_queue s) false (loop_p n) (consumer s) (popped s))
  | PLoop k => Some
      (let '(ok, q) := push (s_shared_queue s) 42 in
       mkTwo q (s_producer_done s) (if ok : bool then loop_p (pred k) else PLoop k) (consumer s) (popped s))
  | PSignal => Some (mkTwo (s_shared_queue s) true PEnd (consumer s) (popped s))
  | PEnd => None
  end.

(** After the loop, [while (!done || pop(val)) {}]. *)
Definition consumer_turn (s : TwoThread) : option TwoThread :=
  match consumer s with
  | CLoop k =>
      Some (match pop 0 (s_shared_queue s) with
            | (Some v, q) => mkTwo q (s_producer_done s) (producer s) (loop_c (pred k)) (popped s ++ [v])
            | (None, q) => mkTwo q (s_producer_done s) (producer s) (CLoop k) (popped s)
            end)
  | CWait => Some (mkTwo (s_shared_queue s) (s_producer_done s) (producer s)
      (if s_producer_done s then CDrain else CWait) (popped s))
  | CDrain =>
      Some (match pop 0 (s_shared_queue s) with
            | (Some v, q) => mkTwo q (s_producer_done s) (producer s) CWait (popped s ++ [v])
            | (None, q) => mkTwo q (s_producer_done s) (producer s) CEnd (popped s)
            end)
  | CEnd => None
  end.

Definition step (s s' : TwoThread) : Prop := producer_turn s = Some s' \/ consumer_turn s = Some s'.

(** A step that is not a turn of a spin. *)
Definition moves (s s' : TwoThread) : Prop := step s s' /\ s' <> s.

(** The flag may still be set from an earlier run. *)
Definition begin (flag : bool) : TwoThread := mkTwo (SpscQueue_new 65536) flag PStart (loop_c n) [].

(** ** The invariant *)

Definition to_push (s : TwoThread) : nat := match producer s with PStart => n | PLoop k => k | PSignal | PEnd => 0 end.
Definition to_pop (s : TwoThread) : nat := match consumer s with CLoop k => k | _ => 0 end.

(** What is pushed is popped or in the queue, and the consumer's loop is the
    producer's: the drain finds nothing. *)
Record inv (s : TwoThread) : Prop := {
  iv_queue : exists l, queue_rep 0 (s_shared_queue s) l /\ Forall (eq 42) l /\
    (length (popped s) + length l + to_push s = n)%nat;
  iv_popped : Forall (eq 42) (popped s) /\ (length (popped s) + to_pop s = n)%nat;
  iv_loops : (producer s <> PLoop 0) /\ (consumer s <> CLoop 0);
  iv_flag : producer s = PEnd -> s_producer_done s = true }.

Lemma to_push_loop k q f c p : to_push (mkTwo q f (loop_p k) c p) = k.
Proof. by destruct k. Qed.

Lemma to_pop_loop k q f c p : to_pop (mkTwo q f c (loop_c k) p) = k.
Proof. by destruct k. Qed.

Lemma begin_inv flag : inv (begin flag).
Proof.
  split.
  - exists []. split; [by apply queue_rep_new|]. by split.
  - split; [constructor|]. unfold begin. by rewrite to_pop_loop.
  - split; [done|]. unfold begin; cbn. by destruct n.
  - done.
Qed.

Lemma producer_inv s s' : inv s -> producer_turn s = Some s' -> inv s'.
Proof.
  intros [(l & Hq & Hl & Hn) Hp [H1 H2] Hf]. unfold producer_turn, to_push in *.
  destruct (producer s) as [|k| |] eqn:Ep; [| | |done]; intros [= <-].
  - split; [|exact Hp|split; [cbn; by destruct n|done]|cbn; by destruct n].
    exists l. rewrite to_push_loop. by split_and!.
  - pose proof (push_rep 0 _ l 42 Hq) as Hpush. destruct (_ =? _).
    + rewrite Hpush. split; [|exact Hp|by split|done]. exists l. by split_and!.
    + destruct Hpush as (q & -> & _ & Hq'). destruct k as [|k]; [done|]. cbn [pred].
      split; [|exact Hp|split; [cbn; by destruct k|done]|cbn; by destruct k].
      exists (l ++ [42]). rewrite to_push_loop, length_app. split; [exact Hq'|].
      split; [apply Forall_app; split; [done|by repeat constructor]|cbn; lia].
  - split; [|exact Hp|done|done]. exists l. by split_and!.
Qed.

Lemma pop_some s l v q : queue_rep 0 (s_shared_queue s) l -> pop 0 (s_shared_queue s) = (Some v, q) ->
  exists l', l = v :: l' /\ queue_rep 0 q l'.
Proof.
  intros Hq E. pose proof (pop_rep 0 _ l Hq) as Hp. destruct l as [|x l]; [congruence|].
  destruct Hp as (q' & Hp & _ & Hq'). rewrite E in Hp. injection Hp as -> ->. by exists l.
Qed.

Lemma pop_none s l q : queue_rep 0 (s_shared_queue s) l -> pop 0 (s_shared_queue s) = (None, q) ->
  l = [] /\ q = s_shared_queue s.
Proof.
  intros Hq E. pose proof (pop_rep 0 _ l Hq) as Hp. destruct l as [|x l].
  - split; [done|congruence].
  - destruct Hp as (q' & Hp & _). congruence.
Qed.

Lemma consumer_inv s s' : inv s -> consumer_turn s = Some s' -> inv s'.
Proof.
  intros [(l & Hq & Hl & Hn) [Hp Hpn] [H1 H2] Hf]. unfold consumer_turn, to_pop in *.
  destruct (consumer s) as [k| | |] eqn:Ec; [| | |done]; intros [= <-].
  - destruct (pop 0 _) as [[v|] q] eqn:E.
    + destruct (pop_some s l v q Hq E) as (l' & -> & Hq'). apply Forall_cons in Hl as [<- Hl].
      destruct k as [|k]; [done|]. cbn [pred]. split; [| |split; [done|cbn; by destruct k]|done].
      * exists l'. split; [done|]. split; [done|]. cbn [popped]. rewrite length_app. unfold to_push in *. cbn in *. lia.
      * cbn [popped]. rewrite to_pop_loop, length_app. split; [apply Forall_app; split; [done|by repeat constructor]|cbn; lia].
    + destruct (pop_none s l q Hq E) as [-> ->]. split; [by exists []|done|by split|done].
  - split; [by exists l|split; [done|]|split; [done|]|done]; by destruct (s_producer_done s).
  - destruct (pop 0 _) as [[v|] q] eqn:E.
    + destruct (pop_some s l v q Hq E) as (l' & -> & Hq'). cbn [length] in Hn. lia.
    + destruct (pop_none s l q Hq E) as [-> ->]. split; [by exists []|done|by split|done].
Qed.

Lemma two_thread_rtc_inv s s' : rtc step s s' -> inv s -> inv s'.
Proof.
  induction 1 as [|s1 s2 s3 [H|H] _ IH]; [done| |]; intros Hi; apply IH; [by eapply producer_inv|by eapply consumer_inv].
Qed.

(** Every move brings a thread forward. *)
Definition producer_work (pc : producer_pc) : nat :=
  match pc with PStart => n + 2 | PLoop k => k + 1 | PSignal => 1 | PEnd => 0 end.
Definition consumer_work (pc : consumer_pc) : nat :=
  match pc with CLoop k => k + 2 | CWait => 2 | CDrain => 1 | CEnd => 0 end.

Lemma loop_p_work k : (producer_work (loop_p k) = k + 1)%nat.
Proof. by destruct k. Qed.
Lemma loop_c_work k : (consumer_work (loop_c k) = k + 2)%nat.
Proof. by destruct k. Qed.

Lemma moves_progress s s' : inv s -> moves s s' ->
  (producer_work (producer s') + consumer_work (consumer s') < producer_work (producer s) + consumer_work (consumer s))%nat.
Proof.
  intros [(l & Hq & Hl & Hn) [Hp Hpn] [H1 H2] Hf] [[Hs|Hs] Hne]; revert Hs.
  - unfold producer_turn. destruct (producer s) as [|k| |] eqn:Ep; [| | |done]; intros [= <-]; cbn [producer consumer].
    + rewrite loop_p_work. cbn. lia.
    + pose proof (push_rep 0 _ l 42 Hq) as Hpush. destruct (_ =? _).
      * rewrite Hpush in Hne |- *. destruct Hne. destruct s; cbn in *. by rewrite Ep.
      * destruct Hpush as (q & -> & _). destruct k as [|k]; [done|]. cbn [producer pred consumer]. rewrite loop_p_work. cbn. lia.
    + cbn. lia.
  - unfold consumer_turn, to_pop in *. destruct (consumer s) as [k| | |] eqn:Ec; [| | |done]; intros [= <-].
    + destruct (pop 0 _) as [[v|] q] eqn:E; cbn [producer consumer].
      * destruct k as [|k]; [done|]. cbn [pred]. rewrite loop_c_work. cbn. lia.
      * destruct (pop_none s l q Hq E) as [_ ->]. destruct Hne. destruct s; cbn in *. by rewrite Ec.
    + cbn. destruct (s_producer_done s) eqn:Ed; cbn; [lia|]. destruct Hne. destruct s; cbn in *. by rewrite Ec, Ed.
    + destruct (pop 0 _) as [[v|] q] eqn:E; cbn [producer consumer]; [|cbn; lia].
      destruct (pop_some s l v q Hq E) as (l' & -> & _). cbn [length] in Hn. lia.
Qed.

Lemma moves_producer s s' : producer_turn s = Some s' -> producer s' <> producer s -> moves s s'.
Proof. intros Hs Hne. split; [by left|]. by intros ->. Qed.

Lemma moves_consumer s s' : consumer_turn s = Some s' -> consumer s' <> consumer s -> moves s s'.
Proof. intros Hs Hne. split; [by right|]. by intros ->. Qed.

Lemma pred_loop_c k q f p l : k <> 0%nat -> consumer (mkTwo q f p (loop_c (pred k)) l) <> CLoop k.
Proof. destruct k as [|[|k]]; [done|done|]. intros _. cbn. intros [= E]. lia. Qed.

(** A consumer that still wants an item that is there can have it. *)
Lemma consumer_moves s l k : queue_rep 0 (s_shared_queue s) l -> l <> [] -> consumer s = CLoop k -> k <> 0%nat ->
  exists s', moves s s'.
Proof.
  intros Hq Hl Hc Hk. pose proof (pop_rep 0 _ l Hq) as Hp. destruct l as [|x l]; [done|].
  destruct Hp as (q & Hp & _). eexists. apply moves_consumer.
  - unfold consumer_turn. rewrite Hc, Hp. reflexivity.
  - rewrite Hc. by apply pred_loop_c.
Qed.

Lemma no_moves s : inv s -> capacity_ (s_shared_queue s) = 65536 -> nf moves s -> producer s = PEnd /\ consumer s = CEnd.
Proof.
  intros [(l & Hq & Hl & Hn) [Hp Hpn] [H1 H2] Hf] Hcap Hnf. unfold to_push, to_pop in *.
  assert (Hprod : producer s = PEnd).
  { destruct (producer s) as [|k| |] eqn:Ep; [| | |done]; exfalso; apply Hnf.
    - eexists. apply moves_producer; [unfold producer_turn; by rewrite Ep|]. rewrite Ep. cbn. by destruct n.
    - pose proof (push_rep 0 _ l 42 Hq) as Hpush. destruct (Z.eqb_spec (Z.of_nat (length l)) (capacity_ (s_shared_queue s) - 1)).
      + destruct (consumer s) as [j| | |] eqn:Ec; try (destruct l; cbn in *; lia).
        apply (consumer_moves s l j Hq); [destruct l; [cbn in *; lia|done]|done|by intros ->].
      + destruct Hpush as (q & Hpush & _). eexists. apply moves_producer; [unfold producer_turn; rewrite Ep, Hpush; reflexivity|].
        rewrite Ep. destruct k as [|[|k]]; [done|done|]. cbn. intros [= E]. lia.
    - eexists. apply moves_producer; [unfold producer_turn; by rewrite Ep|]. by rewrite Ep. }
  split; [done|]. rewrite Hprod in Hn.
  destruct (consumer s) as [j| | |] eqn:Ec; [| | |done]; exfalso; apply Hnf.
  - assert (j <> 0%nat) by (by intros ->). apply (consumer_moves s l j Hq); [destruct l; [cbn in *; lia|done]|done|done].
  - eexists. apply moves_consumer; [unfold consumer_turn; rewrite Ec, (Hf Hprod); reflexivity|]. by rewrite Ec.
  - assert (l = []) as -> by (destruct l; [done|cbn in *; lia]).
    eexists. apply moves_consumer; [unfold consumer_turn; rewrite Ec, (pop_rep 0 _ [] Hq : _ = _); reflexivity|]. by rewrite Ec.
Qed.

Lemma step_capacity s s' : step s s' -> capacity_ (s_shared_queue s') = capacity_ (s_shared_queue s).
Proof.
  pose proof (push_capacity (s_shared_queue s) 42) as H1. pose proof (pop_capacity 0 (s_shared_queue s)) as H2.
  intros [Hs|Hs]; unfold producer_turn, consumer_turn in Hs.
  - destruct (producer s); try (by injection Hs as <-); [|done].
    destruct (push _ _). by injection Hs as <-.
  - destruct (consumer s); try (by injection Hs as <-); [| |done];
      destruct (pop _ _) as [[v|] q]; by injection Hs as <-.
Qed.

Lemma reachable_capacity flag s : rtc step (begin flag) s -> capacity_ (s_shared_queue s) = 65536.
Proof.
  assert (H : forall s s', rtc step s s' -> capacity_ (s_shared_queue s') = capacity_ (s_shared_queue s)).
  { induction 1 as [|s1 s2 s3 H1 _ IH]; [done|]. rewrite IH. by apply step_capacity. }
  intros Hs. by rewrite (H _ _ Hs).
Qed.
End TwoThread.

(** The queue is empty after every round trip, and [out] is the tick. *)
Lemma round_trip_inv cap tick out n : 2 <= cap -> (0 < n)%nat ->
  exists q, iterate n (round_trip_body tick) (SpscQueue_new cap, out) = Some (q, tick) /\ queue_rep Tick_none q [].
Proof.
  intros Hc Hn. destruct n as [|n]; [lia|]. clear Hn.
  set (P := fun s : SpscQueue Tick * Tick => queue_rep Tick_none s.1 [] /\ capacity_ s.1 = cap).
  assert (Hbody : forall s, P s -> exists q, round_trip_body tick s = Some (q, tick) /\ P (q, tick)).
  { intros [q o] [Hq Hcap]. cbn [fst] in *. unfold round_trip_body. cbn [fst snd].
    pose proof (push_rep Tick_none q [] tick Hq) as Hp. cbn [length Z.of_nat] in Hp.
    rewrite (proj2 (Z.eqb_neq _ _)) in Hp by lia. destruct Hp as (q1 & -> & Hc1 & Hq1).
    destruct (pop_rep Tick_none q1 [tick] Hq1) as (q2 & -> & Hc2 & Hq2). exists q2.
    split; [done|]. split; [exact Hq2|cbn; congruence]. }
  destruct (iterate_inv P (round_trip_body tick) n (SpscQueue_new cap, out)) as (s & E & Hs).
  { split; [apply queue_rep_new; lia|done]. }
  { intros x Hx. destruct (Hbody x Hx) as (q & H1 & H2). by eexists. }
  cbn [iterate]. rewrite E. destruct (Hbody s Hs) as (q & H1 & H2 & _). exists q. by split.
Qed.

(** ** The four benchmarks *)

(** [BM_RoundTrip] and [BM_CapacitySweep] measure what they say: with any
    capacity of at least two, every pushed tick is the one popped, and the
    queue is empty again. *)
Lemma round_trip_benchmark (cap : Z) (n : nat) : 2 <= cap -> (0 < n)%nat ->
  (exists q, BM_RoundTrip n = Some (q, make_tick (B "AAPL") (lit 150)) /\ queue_rep Tick_none q []) /\
  (exists q, BM_CapacitySweep cap n = Some (q, make_tick (B "GOOGL") (lit 140)) /\ queue_rep Tick_none q []).
Proof. intros Hc Hn. split; apply round_trip_inv; lia. Qed.

(** [BM_PushOnly] never meets a full queue: all its pushes succeed. *)
Lemma push_only_benchmark (n : nat) :
  exists q, BM_PushOnly n = Some (q, replicate n true) /\ capacity_ q = 1000000.
Proof.
  assert (H : exists q, BM_PushOnly n = Some (q, replicate n true) /\ capacity_ q = 1000000 /\ exists l, queue_rep Tick_none q l).
  2:{ destruct H as (q & H1 & H2 & _). by exists q. }
  unfold BM_PushOnly. induction n as [|n (q & E & Hc & l & Hq)].
  { eexists. split; [done|]. split; [done|]. exists []. by apply queue_rep_new. }
  cbn [iterate]. rewrite E. cbn [mbind option_bind]. unfold push_only_body. cbn [fst snd].
  destruct (drain_rep Tick_none (fun _ u => u) l (S (Z.to_nat (size q))) q () Hq) as (q1 & Hd & Hq1).
  { rewrite (size_rep _ _ _ Hq). lia. }
  pose proof (drain_capacity Tick_none (fun _ (u : unit) => u) (S (Z.to_nat (size q))) q ()) as Hc1.
  rewrite Hd in *. cbn [fst] in Hc1.
  pose proof (push_rep Tick_none q1 [] (make_tick (B "MSFT") (lit 300)) Hq1) as Hp. cbn [length Z.of_nat] in Hp.
  rewrite (proj2 (Z.eqb_neq _ _)) in Hp by lia. destruct Hp as (q2 & -> & Hc2 & Hq2).
  exists q2. split; [|split; [lia|by eexists]]. by rewrite <- replicate_S_end.
Qed.

(** [BM_TwoThread_Throughput] ends: with the same number of iterations in
    both threads, and whatever the flag was before, only spins can go on for
    ever; when nothing else is left to do both threads have returned, and the
    consumer has popped exactly the items of the producer. *)
Lemma two_thread_benchmark (n : nat) (flag : bool) :
  sn (moves n) (begin n flag) /\
  forall s, rtc (step n) (begin n flag) s -> nf (moves n) s ->
    producer s = PEnd /\ consumer s = CEnd /\ popped s = replicate n 42 /\ queue_rep 0 (s_shared_queue s) [].
Proof.
  split.
  - apply (measure_sn (moves n) (inv n) (fun s => producer_work n (producer s) + consumer_work (consumer s))%nat);
      [|apply begin_inv].
    intros s s' Hi Hm. split; [|by apply moves_progress]. destruct Hm as [Hs _].
    eapply two_thread_rtc_inv; [by apply rtc_once|done].
  - intros s Hs Hnf. pose proof (two_thread_rtc_inv n _ _ Hs (begin_inv n flag)) as Hi.
    destruct (no_moves n s Hi (reachable_capacity n flag s Hs) Hnf) as [Hp Hc]. split; [done|]. split; [done|].
    destruct Hi as [(l & Hq & _ & Hl) [Hpop Hn] _ _]. unfold to_push, to_pop in *. rewrite Hp, Hc in *.
    assert (l = []) as -> by (destruct l; [done|cbn in *; lia]). split; [|done].
    symmetry. apply replicate_as_Forall. split; [lia|done].
Qed.

(** ** Claims *)

(** What the queue benchmarks execute.  [BM_RoundTrip] and
    [BM_CapacitySweep]: with any capacity of at least two, the tick popped is
    the one pushed and the queue is empty again.  [BM_PushOnly] never meets a
    full queue.  [BM_TwoThread_Throughput] ends: only spins can go on for ever,
    and when nothing else is left to do both threads have returned and the
    consumer has popped exactly the items of the producer. *)
Theorem queue_benchmarks (cap : Z) (n : nat) (flag : bool) : 2 <= cap -> (0 < n)%nat ->
  ((exists q, BM_RoundTrip n = Some (q, make_tick (B "AAPL") (lit 150)) /\ queue_rep Tick_none q []) /\
   (exists q, BM_CapacitySweep cap n = Some (q, make_tick (B "GOOGL") (lit 140)) /\ queue_rep Tick_none q [])) /\
  (exists q, BM_PushOnly n = Some (q, replicate n true) /\ capacity_ q = 1000000) /\
  (sn (moves n) (begin n flag) /\
   forall s, rtc (step n) (begin n flag) s -> nf (moves n) s ->
     producer s = PEnd /\ consumer s = CEnd /\ popped s = replicate n 42 /\ queue_rep 0 (s_shared_queue s) []).
Proof.
  intros Hc Hn. split; [exact (round_trip_benchmark cap n Hc Hn)|].
  split; [exact (push_only_benchmark n)|exact (two_thread_benchmark n flag)].
Qed.

Lemma queue_benchmarks_witness :
  (exists q, BM_CapacitySweep 64 5 = Some (q, make_tick (B "GOOGL") (lit 140))) /\ sn (moves 5) (begin 5 true).
Proof.
  destruct (queue_benchmarks 64 5 true ltac:(lia) ltac:(lia)) as ([_ (q & H & _)] & _ & H2 & _).
  split; [exists q; exact H|exact H2].
Defined.
