(* ===== verification/BenchFix.v ===== *)
(** * The benchmarks of the FIX parser: bench/bench_fix_parser.cpp

    The sample lines, and the loops over them for any number of iterations or
    lines.  [now i] is the clock at the parse number [i]. *)

From Stdlib Require Import Ascii QArith_base.
From S2P Require Import Prelude Float64 CString Messages FixParser.

Local Open Scope Z_scope.

Definition kLines : list bytes :=
  [B "11=ORD00001|35=D|55=AAPL|54=1|44=150.00|38=50";
   B "11=ORD00002|35=D|55=MSFT|54=2|44=299.75|38=100";
   B "11=ORD00003|35=D|55=ESZ4|54=1|44=4498.50|38=5";
   B "11=ORD00004|35=D|55=GBPUSD|54=2|44=1.2501|38=1000";
   B "11=ORD00005|35=D|55=TSLA|54=1|44=201.30|38=25"].

Definition kNumLines : nat := length kLines.

(** [kLines\[i % kNumLines\]] *)
Definition line_at (i : nat) : bytes := default [] (kLines !! (i mod kNumLines)%nat).

Section Clock.
Variable now : nat -> Z.

(** The orders of [n] iterations. *)
Definition BM_ParseLine (n : nat) : list Order :=
  (fun i => parseFixLine (now i) (line_at 0)) <$> seq 0 n.

Definition BM_ParseLine_RoundRobin (n : nat) : list Order :=
  (fun i => parseFixLine (now i) (line_at i)) <$> seq 0 n.

(** [buf += kLines\[i % kNumLines\]; buf += '\n'] *)
Definition buf (N : nat) : bytes :=
  foldl (fun b i => (b ++ line_at i) ++ ["010"%char]) [] (seq 0 N).

(** [while (p < end)], from the byte [p] on; [parsed] counts the lines. *)
Fixpoint parse_loop (fuel : nat) (parsed : nat) (p : bytes) : list Order :=
  match fuel, p with
  | S f, _ :: _ =>
      let '(line, rest) :=
        match memchr p "010" with
        | Some k => (take k p, drop (S k) p)
        | None => (p, [])
        end in
      parseFixLine (now parsed) line :: parse_loop f (S parsed) rest
  | _, _ => []
  end.

(** An iteration: each round takes at least one byte. *)
Definition BM_ParseFile_InMemory (N : nat) : list Order := parse_loop (length (buf N)) 0 (buf N).

(** ** What the lines say *)

Definition sample (i : bytes) (sym : bytes) (ty : OrderType) (p : Q) (qty : Z) (t : Z) : Order :=
  mkOrder (strncpy (zeros 16) i 15) (strncpy (zeros 8) sym 7) (lit p) ty qty t nullptr.

Definition samples : list (Z -> Order) :=
  [sample (B "ORD00001") (B "AAPL") BUY 150 50;
   sample (B "ORD00002") (B "MSFT") SELL (29975 # 100) 100;
   sample (B "ORD00003") (B "ESZ4") BUY (449850 # 100) 5;
   sample (B "ORD00004") (B "GBPUSD") SELL (12501 # 10000) 1000;
   sample (B "ORD00005") (B "TSLA") BUY (20130 # 100) 25].

Definition sample_at (i : nat) : Z -> Order := default (fun _ => Order_zero) (samples !! (i mod kNumLines)%nat).

Lemma parse_samples : Forall2 (fun l o => forall t, parseFixLine t l = o t) kLines samples.
Proof. repeat (constructor; [intros t; reflexivity|]). constructor. Qed.

Lemma parse_line_at t i : parseFixLine t (line_at i) = sample_at i t.
Proof.
  unfold line_at, sample_at.
  assert (Hi : (i mod kNumLines < length kLines)%nat) by (apply Nat.mod_upper_bound; done).
  destruct (lookup_lt_is_Some_2 _ _ Hi) as [l El].
  destruct (Forall2_lookup_l _ _ _ _ _ parse_samples El) as (o & Eo & Ho). rewrite El, Eo. apply Ho.
Qed.

Lemma lines_fresh : Forall (fun l : bytes => "010"%char ∉ l) kLines.
Proof. apply (bool_decide_unpack _). vm_compute. exact I. Qed.

Lemma line_fresh i : "010"%char ∉ line_at i.
Proof.
  unfold line_at. destruct (kLines !! _) as [l|] eqn:E; [|by apply not_elem_of_nil].
  by apply (Forall_lookup_1 _ _ _ _ lines_fresh E).
Qed.

Lemma buf_lines N : buf N = file_of (line_at <$> seq 0 N).
Proof.
  unfold buf. induction N as [|N IH]; [done|]. rewrite seq_S, foldl_app, IH, fmap_app.
  unfold file_of. rewrite fmap_app, concat_app. cbn [foldl fmap list_fmap concat Nat.add].
  by rewrite app_nil_r, app_assoc.
Qed.

(** The loop parses every line once, in order. *)
Lemma parse_loop_lines lines : forall fuel i, Forall (fun l : bytes => "010"%char ∉ l) lines ->
  (length (file_of lines) <= fuel)%nat ->
  parse_loop fuel i (file_of lines) = imap (fun k l => parseFixLine (now (i + k)) l) lines.
Proof.
  induction lines as [|l lines IH]; intros fuel i Hl Hf; [by destruct fuel|].
  apply Forall_cons in Hl as [Hc Hl].
  assert (E : file_of (l :: lines) = l ++ "010"%char :: file_of lines)
    by (unfold file_of; cbn [fmap list_fmap concat]; by rewrite <- app_assoc).
  rewrite E in *. rewrite length_app in Hf. cbn [length] in Hf. destruct fuel as [|fuel]; [lia|].
  assert (Hp : parse_loop (S fuel) i (l ++ "010"%char :: file_of lines) =
    parseFixLine (now i) l :: parse_loop fuel (S i) (file_of lines)).
  { assert (Hm := memchr_app l "010"%char (file_of lines) Hc).
    assert (Hcons : exists c r, l ++ "010"%char :: file_of lines = c :: r) by (destruct l; by eexists _, _).
    destruct Hcons as (c & r & Er). cbn [parse_loop]. rewrite Er in Hm |- *. rewrite Hm, <- Er.
    by rewrite take_app_exact, drop_app_cons. }
  rewrite Hp, IH by (done || lia). cbn [imap]. f_equal; [by rewrite Nat.add_0_r|].
  apply imap_ext. intros k x _. cbn. by rewrite Nat.add_succ_r.
Qed.
End Clock.

(** ** Claims *)

(** [BM_ParseFile_InMemory] parses, for every [N], [N] lines of the buffer
    it has built, in order, and each to the order its text says; so do the two
    benchmarks on single lines. *)
Theorem parse_benchmarks (now : nat -> Z) (N : nat) :
  BM_ParseFile_InMemory now N = (fun i => sample_at i (now i)) <$> seq 0 N /\
  BM_ParseLine_RoundRobin now N = (fun i => sample_at i (now i)) <$> seq 0 N /\
  BM_ParseLine now N = (fun i => sample_at 0 (now i)) <$> seq 0 N.
Proof.
  split_and!.
  - unfold BM_ParseFile_InMemory. rewrite buf_lines. rewrite parse_loop_lines; [|apply Forall_fmap, Forall_forall; intros i _; apply line_fresh|done].
    apply list_eq. intros i. rewrite list_lookup_imap, !list_lookup_fmap.
    destruct (seq 0 N !! i) as [j|] eqn:E; [|done]. apply lookup_seq in E as [-> _].
    cbn. by rewrite parse_line_at.
  - apply list_fmap_ext. intros _ i _. apply parse_line_at.
  - apply list_fmap_ext. intros _ i _. apply parse_line_at.
Qed.
