(* ===== verification/UnitTests.v ===== *)
(** * The unit tests: tests/unit

    The tests of the repository, run on the definitions of the development:
    every assertion holds.  They check the model against what its
    authors expect of the code.  A test is a definition of the same name where
    it is a script ([Accept] an order, [Expect] a value), and a lemma of the
    same name where it is a computation.  The five tests that start threads are
    lemmas on every interleaving of the operations of their threads, the loads
    stale as the memory orders allow, by [LatencyConcurrent] and
    [SpscTransfer]. *)

From Stdlib Require Import QArith_base.
From S2P Require Import Prelude Float64 CString Messages PriceTick OrderBook OrderBookSpec OrderBookSweep.
From S2P Require Import OrderBookRefinement OrderBookProps FixParser PositionManager SpscQueue SpscTransfer MarketDispatcher LatencyTracker LatencyConcurrent System.

Local Open Scope Z_scope.

(** [EXPECT_NEAR(x, y, tol)] *)
Definition expect_near (x y tol : double) : bool := fle (x - y)%D tol && fle (y - x)%D tol.

(** ** test_order_book.cpp *)

Definition makeOrder (i symbol : bytes) (price : double) (type : OrderType) (qty : Z) : Order :=
  mkOrder (strncpy (zeros 16) i 15) (strncpy (zeros 8) symbol 7) price type qty (arrival_ns Order_zero) (next Order_zero).

(** What the tests of the fixture [OrderBookTest] look at. *)
Inductive assertion :=
| ExecCount (n : nat)                       (* execs.size() *)
| ExecIs (i : nat) (f : Execution -> bool)  (* a field of execs[i] *)
| BestIs (sd : OrderType) (symbol : bytes) (x : double)
| AvailableIs (n : Z).

Definition holds (log : list Execution) (best : OrderType -> bytes -> double) (free : Z) (a : assertion) : bool :=
  match a with
  | ExecCount n => (length log =? n)%nat
  | ExecIs i f => match log !! i with Some e => f e | None => false end
  | BestIs sd s x => feq (best sd s) x
  | AvailableIs n => free =? n
  end.

Definition bestOf (ob : OrderBook) (sd : OrderType) (s : bytes) : double :=
  match sd with BUY => bestBid ob s | SELL => bestAsk ob s end.

Inductive action := Accept (o : Order) | Expect (a : assertion).

(** A script passes when each assertion holds after the orders before it,
    whatever the clock. *)
Fixpoint passes (sofar : list Order) (script : list action) : Prop :=
  match script with
  | [] => True
  | Accept o :: rest => passes (sofar ++ [o]) rest
  | Expect a :: rest =>
      (forall now, exists ob log, recorded now sofar = Some (ob, log) /\
        holds log (bestOf ob) (poolAvailable ob) a = true) /\ passes sofar rest
  end.

Section OrderBookTest.
Local Open Scope string_scope.
Local Open Scope Z_scope.
Let accept (i symbol : String.string) (price : Q) (type : OrderType) (qty : Z) : action :=
  Accept (makeOrder (B i) (B symbol) (lit price) type qty).
Let best (sd : OrderType) (s : String.string) (x : Q) : action := Expect (BestIs sd (B s) (lit x)).
Let execs (n : nat) : action := Expect (ExecCount n).
Let priced (i : nat) (x : Q) : action := Expect (ExecIs i (fun e => feq (trade_price e) (lit x))).
Let quantity_is (i : nat) (x : Q) : action := Expect (ExecIs i (fun e => feq (exec_quantity e) (lit x))).
Let bought (i : nat) (s : String.string) : action := Expect (ExecIs i (fun e => bool_decide (c_str (buy_id e) = B s))).
Let sold (i : nat) (s : String.string) : action := Expect (ExecIs i (fun e => bool_decide (c_str (sell_id e) = B s))).
Let on_side (i : nat) (sd : Side) : action :=
  Expect (ExecIs i (fun e => match side e, sd with Side_BUY, Side_BUY | Side_SELL, Side_SELL => true | _, _ => false end)).

Definition RestingBidNoMatch : list action :=
  [accept "B1" "AAPL" 150 BUY 100; execs 0; best BUY "AAPL" 150; best SELL "AAPL" 0].

Definition RestingAskNoMatch : list action :=
  [accept "A1" "AAPL" 150 SELL 100; execs 0; best BUY "AAPL" 0; best SELL "AAPL" 150].

Definition SpreadNoMatch : list action :=
  [accept "B1" "AAPL" 149 BUY 100; accept "A1" "AAPL" 151 SELL 100;
   execs 0; best BUY "AAPL" 149; best SELL "AAPL" 151].

Definition ExactMatchClearsBook : list action :=
  [accept "B1" "AAPL" 150 BUY 100; accept "A1" "AAPL" 150 SELL 100;
   execs 1; quantity_is 0 100; priced 0 150; best BUY "AAPL" 0; best SELL "AAPL" 0].

Definition TradeAtPassivePriceWhenBuyAggresses : list action :=
  [accept "A1" "AAPL" 150 SELL 100; accept "B1" "AAPL" 155 BUY 100; execs 1; priced 0 150].

Definition PartialFillBidLarger : list action :=
  [accept "B1" "AAPL" 150 BUY 200; accept "A1" "AAPL" 150 SELL 100;
   execs 1; quantity_is 0 100; best BUY "AAPL" 150; best SELL "AAPL" 0].

Definition PartialFillAskLarger : list action :=
  [accept "B1" "AAPL" 150 BUY 100; accept "A1" "AAPL" 150 SELL 200;
   execs 1; quantity_is 0 100; best BUY "AAPL" 0; best SELL "AAPL" 150].

Definition PriceTimePriorityFIFO : list action :=
  [accept "B1" "AAPL" 150 BUY 50; accept "B2" "AAPL" 150 BUY 50; accept "A1" "AAPL" 150 SELL 50; execs 1; bought 0 "B1"].

Definition BestPriceMatchedFirst : list action :=
  [accept "B_HI" "AAPL" 151 BUY 50; accept "B_LO" "AAPL" 149 BUY 50; accept "A1" "AAPL" 149 SELL 50;
   execs 1; bought 0 "B_HI"; priced 0 151].

Definition AggressiveBidSweepsMultipleLevels : list action :=
  [accept "A1" "AAPL" 150 SELL 100; accept "A2" "AAPL" 151 SELL 100; accept "A3" "AAPL" 152 SELL 100;
   accept "B1" "AAPL" 152 BUY 300;
   execs 3; priced 0 150; priced 1 151; priced 2 152; best SELL "AAPL" 0; best BUY "AAPL" 0].

Definition BestBidFallsBackAfterMatch : list action :=
  [accept "B_HI" "AAPL" 150 BUY 100; accept "B_LO" "AAPL" 149 BUY 100; best BUY "AAPL" 150;
   accept "A1" "AAPL" 150 SELL 100; best BUY "AAPL" 149].

Definition BestAskRisesAfterMatch : list action :=
  [accept "A_LO" "AAPL" 150 SELL 100; accept "A_HI" "AAPL" 151 SELL 100; best SELL "AAPL" 150;
   accept "B1" "AAPL" 150 BUY 100; best SELL "AAPL" 151].

Definition DifferentSymbolsDontMatch : list action :=
  [accept "B1" "AAPL" 150 BUY 100; accept "A1" "MSFT" 150 SELL 100;
   execs 0; best BUY "AAPL" 150; best SELL "MSFT" 150; best BUY "MSFT" 0; best SELL "AAPL" 0].

Definition ExecutionAggressorSideBuy : list action :=
  [accept "A1" "AAPL" 150 SELL 100; accept "B1" "AAPL" 150 BUY 100;
   execs 1; on_side 0 Side_BUY; bought 0 "B1"; sold 0 "A1"].

Definition ExecutionAggressorSideSell : list action :=
  [accept "B1" "AAPL" 150 BUY 100; accept "A1" "AAPL" 150 SELL 100; execs 1; on_side 0 Side_SELL].

Definition ExecutionSymbolCopied : list action :=
  [accept "B1" "GOOGL" 140 BUY 50; accept "A1" "GOOGL" 140 SELL 50;
   execs 1; Expect (ExecIs 0 (fun e => bool_decide (c_str (exec_symbol e) = B "GOOGL")))].

Definition PoolReleasedAfterFullMatch : list action :=
  [Expect (AvailableIs POOL_CAPACITY);
   accept "B1" "AAPL" 150 BUY 100; accept "A1" "AAPL" 150 SELL 100; Expect (AvailableIs POOL_CAPACITY)].
End OrderBookTest.

(** The assertions on the specification's side of the refinement. *)
Fixpoint spec_passes (now : nat -> nat -> Z) (sofar : list Order) (script : list action) : bool :=
  match script with
  | [] => true
  | Accept o :: rest => spec_passes now (sofar ++ [o]) rest
  | Expect a :: rest =>
      let '(sp, log) := spec_session now sofar in
      holds log (fun sd s => quote sd (sp_book_at sp (query_key s))) (POOL_CAPACITY - sp_live sp) a &&
      spec_passes now sofar rest
  end.

Lemma bestOf_quote ob sp sd s : refines ob sp -> bestOf ob sd s = quote sd (sp_book_at sp (query_key s)).
Proof. intros H. destruct sd; [by apply bestBid_quote|by apply bestAsk_quote]. Qed.

Lemma spec_passes_passes script : forall sofar, (forall now, spec_passes now sofar script = true) -> passes sofar script.
Proof.
  induction script as [|[o|a] script IH]; intros sofar H; cbn [passes spec_passes] in *; [done|by apply IH|].
  split.
  - intros now. specialize (H now). destruct (recorded_refines now sofar) as (ob & Hrun & Href).
    destruct (spec_session now sofar) as [sp log]. exists ob, log. split; [exact Hrun|].
    apply andb_true_iff in H as [H _]. destruct a; cbn [holds] in *; try done.
    + by rewrite (bestOf_quote ob sp).
    + by rewrite (refines_available ob sp).
  - apply IH. intros now. specialize (H now). destruct (spec_session now sofar).
    by apply andb_true_iff in H as [_ H].
Qed.

(** All the tests of the file, in its order. *)
Definition order_book_tests : list (list action) :=
  [RestingBidNoMatch; RestingAskNoMatch; SpreadNoMatch; ExactMatchClearsBook; TradeAtPassivePriceWhenBuyAggresses;
   PartialFillBidLarger; PartialFillAskLarger; PriceTimePriorityFIFO; BestPriceMatchedFirst;
   AggressiveBidSweepsMultipleLevels; BestBidFallsBackAfterMatch; BestAskRisesAfterMatch; DifferentSymbolsDontMatch;
   ExecutionAggressorSideBuy; ExecutionAggressorSideSell; ExecutionSymbolCopied; PoolReleasedAfterFullMatch].

Theorem order_book_tests_pass : Forall (passes []) order_book_tests.
Proof. unfold order_book_tests. repeat (constructor; [apply spec_passes_passes; intros now; vm_compute; reflexivity|]). constructor. Qed.

(** ** test_fix_parser.cpp *)

(** [parse(line)] at the reading [now] of the clock. *)
Definition parse (now : Z) (line : bytes) : Order := parseFixLine now line.

Lemma ParsesFullNOS now : let o := parse now (B "11=ORD001|35=D|55=AAPL|54=1|44=150.00|38=100") in
  c_str (id o) = B "ORD001" /\ c_str (symbol o) = B "AAPL" /\ order_type o = BUY /\
  feq (price o) (lit 150) = true /\ quantity o = 100.
Proof. by vm_compute. Qed.

Lemma ParsesSellOrder now : order_type (parse now (B "11=ORD002|55=MSFT|54=2|44=300.00|38=50")) = SELL.
Proof. by vm_compute. Qed.

Lemma OrderIdCopied now : c_str (id (parse now (B "11=MYORDER42|55=X|54=1|44=1.00|38=1"))) = B "MYORDER42".
Proof. by vm_compute. Qed.

Lemma SymbolCopied now : c_str (symbol (parse now (B "11=X|55=GBPUSD|54=1|44=1.25|38=1"))) = B "GBPUSD".
Proof. by vm_compute. Qed.

Lemma PriceParsedCorrectly now :
  expect_near (price (parse now (B "11=X|55=AAPL|54=1|44=149.99|38=1"))) (lit (14999 # 100)) (lit (1 # 1000)) = true.
Proof. by vm_compute. Qed.

Lemma QuantityParsedCorrectly now : quantity (parse now (B "11=X|55=AAPL|54=1|44=100.00|38=5000")) = 5000.
Proof. by vm_compute. Qed.

Lemma LargeQuantity now : quantity (parse now (B "11=X|55=AAPL|54=1|44=100.00|38=65535")) = 65535.
Proof. by vm_compute. Qed.

Lemma Side1IsBuy now : order_type (parse now (B "11=X|55=AAPL|54=1|44=100.00|38=1")) = BUY.
Proof. by vm_compute. Qed.

Lemma Side2IsSell now : order_type (parse now (B "11=X|55=AAPL|54=2|44=100.00|38=1")) = SELL.
Proof. by vm_compute. Qed.

Lemma TagsInAnyOrder now : let o := parse now (B "38=200|44=99.50|54=2|55=TSLA|11=REV001") in
  c_str (id o) = B "REV001" /\ c_str (symbol o) = B "TSLA" /\ order_type o = SELL /\
  expect_near (price o) (lit (9950 # 100)) (lit (1 # 1000)) = true /\ quantity o = 200.
Proof. by vm_compute. Qed.

Lemma MissingPriceDefaultsToZero now : feq (price (parse now (B "11=X|55=AAPL|54=1|38=100"))) fzero = true.
Proof. by vm_compute. Qed.

Lemma MissingQuantityDefaultsToZero now : quantity (parse now (B "11=X|55=AAPL|54=1|44=100.00")) = 0.
Proof. by vm_compute. Qed.

Lemma EmptyLineNocrash now : quantity (parse now []) = 0 /\ feq (price (parse now [])) fzero = true.
Proof. by vm_compute. Qed.

Lemma SymbolTruncatedToSevenChars now :
  length (c_str (symbol (parse now (B "11=X|55=VERYLONGSYMBOL|54=1|44=1.00|38=1")))) = 7%nat.
Proof. by vm_compute. Qed.

Lemma ArrivalNsIsPositive now : 0 < now -> 0 < arrival_ns (parse now (B "11=X|55=AAPL|54=1|44=100.00|38=1")).
Proof. by vm_compute. Qed.

(** ** test_position_manager.cpp *)

Definition makeExec (symbol : bytes) (qty : Z) (px : Q) (sd : Side) : Execution :=
  mkExecution (buy_id Execution_zero) (sell_id Execution_zero) (strncpy (exec_symbol Execution_zero) symbol 7)
    (lit px) (of_int qty) sd (exec_arrival_ns Execution_zero) (order_arrival_ns Execution_zero).

(** The quantity of a symbol, and its average price and realised profit up to
    0.01; every test of the file is about some of the three. *)
Definition account (es : list Execution) (symbol : bytes) (qty : Q) (avg pnl : option Q) : bool :=
  match getPosition (run_executions PositionManager_new es) symbol with
  | None => false
  | Some pos =>
      feq (pos_quantity pos) (lit qty) &&
      match avg with Some x => expect_near (averageEntryPrice pos) (lit x) (lit (1 # 100)) | None => true end &&
      match pnl with Some x => expect_near (realisedPnl pos) (lit x) (lit (1 # 100)) | None => true end
  end.

Section PositionManagerTest.
Let aapl (qty : Z) (px : Q) (sd : Side) : Execution := makeExec (B "AAPL") qty px sd.
Let tsla (qty : Z) (px : Q) (sd : Side) : Execution := makeExec (B "TSLA") qty px sd.

Lemma OpenLong : account [aapl 100 150 Side_BUY] (B "AAPL") 100 (Some 150%Q) (Some 0%Q) = true.
Proof. by vm_compute. Qed.

Lemma AddToLongUpdatesVWAP :
  account [aapl 100 150 Side_BUY; aapl 100 152 Side_BUY] (B "AAPL") 200 (Some 151%Q) (Some 0%Q) = true.
Proof. by vm_compute. Qed.

Lemma OpenShort : account [tsla 50 200 Side_SELL] (B "TSLA") (-50) (Some 200%Q) (Some 0%Q) = true.
Proof. by vm_compute. Qed.

Lemma AddToShortUpdatesVWAP :
  account [tsla 50 200 Side_SELL; tsla 50 198 Side_SELL] (B "TSLA") (-100) (Some 199%Q) None = true.
Proof. by vm_compute. Qed.

Lemma CloseLongProfitable :
  account [aapl 100 150 Side_BUY; aapl 100 151 Side_SELL] (B "AAPL") 0 None (Some 100%Q) = true.
Proof. by vm_compute. Qed.

Lemma CloseLongAtLoss :
  account [aapl 100 150 Side_BUY; aapl 100 148 Side_SELL] (B "AAPL") 0 None (Some (-200)%Q) = true.
Proof. by vm_compute. Qed.

Lemma CoverShortProfitable :
  account [tsla 100 200 Side_SELL; tsla 100 195 Side_BUY] (B "TSLA") 0 None (Some 500%Q) = true.
Proof. by vm_compute. Qed.

Lemma PartialCloseLocksInPnl :
  account [aapl 200 150 Side_BUY; aapl 100 152 Side_SELL] (B "AAPL") 100 (Some 150%Q) (Some 200%Q) = true.
Proof. by vm_compute. Qed.

Lemma LongToShortFlip :
  account [aapl 100 150 Side_BUY; aapl 150 155 Side_SELL] (B "AAPL") (-50) (Some 155%Q) (Some 500%Q) = true.
Proof. by vm_compute. Qed.

Lemma ShortToLongFlip :
  account [tsla 100 200 Side_SELL; tsla 150 190 Side_BUY] (B "TSLA") 50 (Some 190%Q) (Some 1000%Q) = true.
Proof. by vm_compute. Qed.

Let three : list Execution :=
  [aapl 100 150 Side_BUY; makeExec (B "MSFT") 200 300 Side_BUY; makeExec (B "GOOGL") 50 140 Side_SELL].

Lemma SymbolsTrackedIndependently :
  account three (B "AAPL") 100 None None = true /\ account three (B "MSFT") 200 None None = true /\
  account three (B "GOOGL") (-50) None None = true /\
  base.size (PositionManager.all (run_executions PositionManager_new three)) = 3%nat.
Proof. by vm_compute. Qed.

Lemma AllReturnsAllPositions :
  let all := PositionManager.all (run_executions PositionManager_new [aapl 100 150 Side_BUY; tsla 50 200 Side_SELL]) in
  base.size all = 2%nat /\ is_Some (all !! B "AAPL") /\ is_Some (all !! B "TSLA").
Proof. vm_compute. eauto. Qed.
End PositionManagerTest.

(** ** test_spsc_queue.cpp *)

(** What the calls return on [SpscQueue<int> q(capacity)]. *)
Definition on_queue (capacity : Z) (ops : list (queue_op Z)) : list (queue_ret Z) :=
  ring_run 0 (SpscQueue_new capacity) ops.

Lemma PushAndPopRoundTrip : on_queue 16 [OpPush 42; OpPop] = [RetPush true; RetPop (Some 42)].
Proof. by vm_compute. Qed.

Lemma PopFromEmptyReturnsFalse : on_queue 16 [OpPop] = [RetPop None].
Proof. by vm_compute. Qed.

Lemma SizeReflectsContents : on_queue 16 [OpSize; OpPush 1; OpSize; OpPush 2; OpSize; OpPop; OpSize] =
  [RetSize 0; RetPush true; RetSize 1; RetPush true; RetSize 2; RetPop (Some 1); RetSize 1].
Proof. by vm_compute. Qed.

Lemma CapacityMatchesConstructorArg : capacity_ (SpscQueue_new (T := Z) 100) = 100.
Proof. by vm_compute. Qed.

Lemma PushReturnsFalseWhenFull : on_queue 4 [OpPush 1; OpPush 2; OpPush 3; OpPush 4] =
  [RetPush true; RetPush true; RetPush true; RetPush false].
Proof. by vm_compute. Qed.

Lemma PopAfterFullMakesRoomForNextPush :
  on_queue 4 [OpPush 1; OpPush 2; OpPush 3; OpPush 99; OpPop; OpPush 99] =
  [RetPush true; RetPush true; RetPush true; RetPush false; RetPop (Some 1); RetPush true].
Proof. by vm_compute. Qed.

Lemma FIFOOrdering : drop 20 (on_queue 64 ((OpPush <$> seqZ 0 20) ++ replicate 20 OpPop)) = (fun i => RetPop (Some i)) <$> seqZ 0 20.
Proof. by vm_compute. Qed.

Definition rounds_of (round : Z) : list Z := (fun i => round * 100 + i) <$> seqZ 0 5.

Lemma FIFOPreservedOverWrapAround :
  on_queue 8 (concat ((fun r => (OpPush <$> rounds_of r) ++ replicate 5 OpPop) <$> seqZ 0 5)) =
  concat ((fun r => replicate 5 (RetPush true) ++ ((fun x => RetPop (Some x)) <$> rounds_of r)) <$> seqZ 0 5).
Proof. by vm_compute. Qed.

(** The tests with two threads: the producer pushes [items] and the consumer
    pops as many, through 65536 slots; [s] is any state in which both have been
    joined. *)
Definition joined_with (items : list Z) (s : transfer (T := Z)) : Prop :=
  rtc (transfer_any 0 (Z.to_nat 65536) (length items)) (transfer_begin items) s /\ transfer_joined (length items) s.

Lemma joined_with_exact items s : joined_with items s -> t_sent s = items /\ t_received s = items.
Proof. intros [Hs Hj]. eapply transfer_joined_exact; [|exact Hs|exact Hj]. lia. Qed.

Lemma ProducerConsumerThroughput s : joined_with (seqZ 0 1000000) s -> Z.of_nat (length (t_received s)) = 1000000.
Proof. intros [_ ->]%joined_with_exact. rewrite length_seqZ. lia. Qed.

Lemma ProducerConsumerOrderPreserved s : joined_with (seqZ 0 100000) s ->
  Z.of_nat (length (t_received s)) = 100000 /\ forall i, 0 <= i < 100000 -> t_received s !! Z.to_nat i = Some i.
Proof.
  intros [_ ->]%joined_with_exact. rewrite length_seqZ. split; [lia|]. intros i Hi. rewrite lookup_seqZ. lia.
Qed.

Lemma ZeroDroppedUnderLoad s : joined_with (seqZ 1 500000) s ->
  foldr Z.add 0 (t_sent s) = foldr Z.add 0 (t_received s).
Proof. intros [-> ->]%joined_with_exact. done. Qed.

(** ** test_market_dispatcher.cpp *)

Definition makeTick (symbol : bytes) (bid ask last : Q) (ts : Z) : Tick :=
  mkTick (strncpy (tick_symbol Tick_zero) symbol 7) (lit bid) (lit ask) (lit last) ts.

Definition plain_tick (symbol : bytes) : Tick := makeTick symbol 0 0 0 0.

(** A subscriber of [symbol] that counts its ticks under the name [n]. *)
Definition counter (symbol : bytes) (n : nat) : bytes * (Tick -> gmap nat Z -> gmap nat Z) :=
  (symbol, fun _ m => <[n := default 0 (m !! n) + 1]> m).

Definition counts_of (subs : list (bytes * (Tick -> gmap nat Z -> gmap nat Z))) (ts : list Tick) (n : nat) : Z :=
  default 0 (foldl (fun s t => dispatch (subscribe_all subs) t s) ∅ ts !! n).

Lemma DispatchesToCorrectSymbol : let subs := [counter (B "AAPL") 1; counter (B "MSFT") 2] in
  counts_of subs [plain_tick (B "AAPL")] 1 = 1 /\ counts_of subs [plain_tick (B "AAPL")] 2 = 0.
Proof. by vm_compute. Qed.

Lemma UnknownSymbolDoesNotFireCallback : counts_of [counter (B "AAPL") 1] [plain_tick (B "TSLA")] 1 = 0.
Proof. by vm_compute. Qed.

Lemma MultipleSymbolsRoutedIndependently :
  let subs := [counter (B "AAPL") 1; counter (B "MSFT") 2; counter (B "GBPUSD") 3] in
  let ts := [plain_tick (B "MSFT"); plain_tick (B "GBPUSD"); plain_tick (B "GBPUSD")] in
  counts_of subs ts 1 = 0 /\ counts_of subs ts 2 = 1 /\ counts_of subs ts 3 = 2.
Proof. by vm_compute. Qed.

Lemma MultipleSubscribersSameSymbol : counts_of (replicate 3 (counter (B "AAPL") 1)) [plain_tick (B "AAPL")] 1 = 3.
Proof. by vm_compute. Qed.

Lemma TickFieldsPassedThrough :
  let sent := makeTick (B "AAPL") (14999 # 100) (15001 # 100) 150 987654321 in
  dispatch (subscribe_all [(B "AAPL", fun t _ => t)]) sent Tick_zero = sent /\ c_str (tick_symbol sent) = B "AAPL".
Proof. by vm_compute. Qed.

Lemma SubscriberCountZeroByDefault : subscriberCount (St := unit) (subscribe_all []) (B "AAPL") = 0.
Proof. by vm_compute. Qed.

Lemma SubscriberCountIncrements : let m := subscribe_all (replicate 2 (B "AAPL", fun _ (s : unit) => s)) in
  subscriberCount m (B "AAPL") = 2 /\ subscriberCount m (B "MSFT") = 0.
Proof. by vm_compute. Qed.

Lemma EmptySymbolSubscribeIgnored :
  subscriberCount (subscribe_all [counter [] 1]) [] = 0 /\ counts_of [counter [] 1] [Tick_zero] 1 = 0.
Proof. by vm_compute. Qed.

(** ** test_latency_tracker.cpp *)

Definition tracked (samples : list Z) : LatencyTracker := foldl record LatencyTracker_new samples.

Lemma DefaultStateHasNoSamples : let t := tracked [] in
  count t = 0 /\ LatencyTracker.min t = 0 /\ LatencyTracker.max t = 0 /\ feq (mean t) fzero = true /\ percentile t (lit 50) = 0.
Proof. by vm_compute. Qed.

Lemma SingleSampleUpdatesAllStats : let t := tracked [1000] in
  count t = 1 /\ LatencyTracker.min t = 1000 /\ LatencyTracker.max t = 1000 /\ expect_near (mean t) (lit 1000) (lit 1) = true.
Proof. by vm_compute. Qed.

Lemma NegativeSamplesAreDropped : count (tracked [-1; -1000]) = 0.
Proof. by vm_compute. Qed.

Lemma ZeroMappedToOne : count (tracked [0]) = 1 /\ LatencyTracker.min (tracked [0]) = 1.
Proof. by vm_compute. Qed.

Lemma MinAndMaxTracked :
  LatencyTracker.min (tracked [500; 100; 1000; 300]) = 100 /\ LatencyTracker.max (tracked [500; 100; 1000; 300]) = 1000.
Proof. by vm_compute. Qed.

Lemma MeanIsCorrect : expect_near (mean (tracked [100; 200; 300])) (lit 200) (lit 1) = true.
Proof. by vm_compute. Qed.

Lemma ResetClearsAllState : let t := reset (tracked [100; 200]) in
  count t = 0 /\ LatencyTracker.min t = 0 /\ LatencyTracker.max t = 0 /\ percentile t (lit 99) = 0.
Proof. by vm_compute. Qed.

Lemma RecordAfterResetWorks : let t := record (reset (tracked [999])) 42 in count t = 1 /\ LatencyTracker.min t = 42.
Proof. by vm_compute. Qed.

Lemma PercentileOrderingHolds : let t := tracked ((fun i => i * 100) <$> seqZ 1 1000) in
  let p := percentile t in
  (p (lit 50) <=? p (lit 75)) && (p (lit 75) <=? p (lit 95)) && (p (lit 95) <=? p (lit 99)) &&
  (p (lit 99) <=? p (lit (999 # 10))) && (p (lit (999 # 10)) <=? LatencyTracker.max t) = true.
Proof. by vm_compute. Qed.

Lemma P100ApproachesMax : let t := tracked ((fun i => i * 1000) <$> seqZ 1 100) in
  let p := percentile t in
  (p (lit (9999 # 100)) <=? LatencyTracker.max t * 2) && (p (lit 99) <=? p (lit (9999 # 100))) = true.
Proof. by vm_compute. Qed.

(** [s.find(t) != npos] *)
Definition contains (t s : bytes) : Prop := exists i, take (length t) (drop i s) = t.

Lemma FmtNsUnder1000IsNanoseconds : contains (B "ns") (fmt_ns 500).
Proof. exists 4%nat. by vm_compute. Qed.

Lemma FmtNsMicroseconds : contains (mu ++ B "s") (fmt_ns 5000).
Proof. exists 5%nat. by vm_compute. Qed.

Lemma FmtNsMilliseconds : contains (B "ms") (fmt_ns 5000000).
Proof. exists 5%nat. by vm_compute. Qed.

Lemma ScopedLatencyRecordsOnDestruction start stop : start <= stop -> stop - start < 2 ^ 63 ->
  let t := scoped_latency LatencyTracker_new start stop in count t = 1 /\ 0 < LatencyTracker.max t.
Proof.
  intros H1 H2. unfold scoped_latency. rewrite wrap_s_small by (change (2 ^ (64 - 1)) with (2 ^ 63); lia). unfold record. unfold LatencyTracker_new.
  rewrite (proj2 (Z.ltb_ge _ _)) by lia. cbn [count max count_ max_ns_].
  destruct (Z.eqb_spec (stop - start) 0); [by vm_compute|]. rewrite (proj2 (Z.ltb_lt 0 (stop - start))) by lia.
  split; [done|lia].
Qed.

(** The tests with several threads: [calls] are the arguments of the calls of
    each, and [h] is what they leave when all have been joined, however the
    operations of the calls interleave. *)
Definition joined_record (calls : list (list Z)) (h : LatencyTracker) : Prop :=
  exists ts, rtc (LatencyConcurrent.step true) (LatencyConcurrent.start calls) (h, ts) /\ finished ts.

Lemma ConcurrentRecordsCountCorrectly h : joined_record (replicate 4 (seqZ 1 25000)) h -> count h = 4 * 25000.
Proof.
  intros (ts & Hs & Hf). set (calls := replicate 4 (seqZ 1 25000)) in *.
  assert (Hall : Forall (fun x => 1 <= x < 25001) (concat calls)).
  { apply Forall_concat. unfold calls. apply Forall_replicate, Forall_forall. intros x Hx%elem_of_seqZ. lia. }
  assert (Hlen : Z.of_nat (length (concat calls)) = 100000).
  { unfold calls. cbn [replicate concat]. rewrite !length_app, length_seqZ. cbn. lia. }
  destruct (LatencyConcurrent.concurrent_holds true calls h ts) as [_ _ Hc _ _ _]; [|lia|done..|].
  - eapply Forall_impl; [exact Hall|]. cbn. lia.
  - unfold count. rewrite Hc, samples_positive; [lia|]. eapply Forall_impl; [exact Hall|]. cbn. lia.
Qed.

Lemma ConcurrentMaxIsCorrect h : joined_record [[1000000000]; [1000]; [1000]; [1000]] h ->
  LatencyTracker.max h = 1000000000.
Proof.
  intros (ts & Hs & Hf).
  assert (H : Forall (fun x => x <= INT64_MAX) (concat [[1000000000]; [1000]; [1000]; [1000]]))
    by (cbn; repeat (constructor; [lia|]); constructor).
  destruct (LatencyConcurrent.concurrent_holds true _ h ts H ltac:(done) Hs Hf) as [_ _ _ Hx _ _].
  unfold LatencyTracker.max. by rewrite Hx.
Qed.
